(* ===== verification/_CoqProject ===== *)
-Q . S2P
Prelude.v
CxxString.v
FileSystem.v
MRSpec.v
FileShard.v
MRTasks.v
TaskFactory.v
UserTasks.v
WorkerRequest.v
TaskObjects.v
WorkerService.v
Master.v
MasterThreads.v
MasterRun.v
MasterFaults.v
JobLog.v
MapReduce.v
JobThreads.v
WordCount.v
WorkerProgram.v
DemoProgram.v
MemoryCoordinator.v
Double.v
VcpuScheduler.v
LinkedQueue.v
ProducerConsumer.v
Barrier.v
SenseBarrier.v
Network.v
Dissemination.v
TreeBarrier.v
McsBarrier.v
CombinedBarrier.v
Harness.v
OpenMPExamples.v
MPIExamples.v
Threadpool.v
VendorClient.v
Vendors.v
Store.v
StoreClients.v
