(* ===== verification/Prelude.v ===== *)
(** * Advanced-OS: a verification development

    The repository holds the projects of a course on operating systems: a
    producer with two consumers (prelab), a scheduler of virtual CPUs and a
    coordinator of the memory of virtual machines (project1-1), barriers for
    threads and processes (project2), a store that asks vendors for bids
    (project3) and a MapReduce framework (project4).  Every project has its own
    files here; this one is the prelude they share.

    ** The parts

    *** Shared

    - Prelude.v (this file): machine integers, computations that fail,
      transition systems with their invariants, lemmas on lists and sums.
    - CxxString.v: [std::string], [std::getline], [std::stoi], [atoi], the order
      of [std::map<std::string, _>].
    - FileSystem.v: the files and directories that the MapReduce programs use.

    *** project4, MapReduce

    A job goes through the parts in this order.
    - MRSpec.v (mapreduce_spec.h): [read_mr_spec_from_config_file] makes a
      [MapReduceSpec] of a configuration file, [validate_mr_spec] checks it.
    - FileShard.v (file_shard.h): [shard_files], [get_split] cut the input files
      into shards.
    - Master.v (master.cc, master.h, worker_client.cc, client_call.h): the fields
      of class [Master] and one definition per critical section of [run],
      [poll_workers], [monitor] and [schedule_monitor].
    - MasterThreads.v (master.cc): these sections interleaved, from the first step
      of [run] to its return, with workers that fail; MasterRun.v has the theorems for
      runs in which none does, MasterFaults.v those for all runs.
    - WorkerService.v (worker.cc, worker_request.h, worker_request.cc): the state
      machines of the three kinds of calls and the two loops over the completion
      queues; a job is called through [handle_map_job] and [handle_reduce_job].
    - WorkerRequest.v (worker_request.cc): the two jobs themselves.  They use
      MRTasks.v (mr_tasks.cc: [BaseMapperInternal], [BaseReducerInternal]) and
      get the user's tasks from TaskFactory.v (mr_task_factory.cc).  TaskObjects.v
      (mr_task_factory.cc, worker.h) has the objects of the user's classes with their
      internals behind [impl_], and the jobs on them.
    - UserTasks.v (test/user_tasks.cc): the word-count tasks.
    - MapReduce.v (mapreduce_impl.cc): [MapReduceImpl::run], the composition of
      all of these in one order; JobLog.v holds the lemmas on the intermediate files,
      seen as logs, that it needs.
    - JobThreads.v: the threads of MasterThreads.v with the workers that serve the
      jobs, so a job in every interleaving; WordCount.v instantiates it and
      MapReduce.v with UserTasks.v.
    - WorkerProgram.v (run_worker.cc, the registration in test/user_tasks.cc) and
      DemoProgram.v (test/main.cc, mapreduce.cc): the two programs of the project.

    *** project1-1, virtual machines

    - MemoryCoordinator.v (memory_coordinator.c): [MemoryScheduler] and [main].
    - VcpuScheduler.v (vcpu_scheduler.c): [CPUScheduler] and [main], over the
      binary64 numbers of Double.v.

    *** prelab

    - LinkedQueue.v and ProducerConsumer.v (producer_consumer.c): the linked list
      in a heap, and the four threads that share it.

    *** project2, barriers

    - Barrier.v: the interface, a record of the states and steps of a barrier with
      the class [Correct] of what it promises: calls are separated, and from every
      reachable state everybody can complete any number of calls with nobody beginning
      more than that.
    - SenseBarrier.v (omp/gtmp1.c) and McsBarrier.v (omp/gtmp2.c): threads over
      shared variables.
    - Network.v: processes that exchange messages; Dissemination.v (mpi/gtmpi1.c)
      and TreeBarrier.v (mpi/gtmpi2.c) are programs for it.
    - CombinedBarrier.v (combined/combined.c): SenseBarrier.v and Dissemination.v
      composed.
    - Harness.v (omp/harness.c, mpi/harness.c, combined/harness.c, and the three programs of
      Cluster-HOWTO/examples, which measure the barriers): the loops over a barrier, proved
      against the interface.
    - OpenMPExamples.v (examples/OpenMP, examples/MPI/openmp_mpi.c): small parallel
      regions, a module per program.
    - MPIExamples.v (examples/MPI): the ring of communicate_world.c, and a greeting.

    *** project3, store

    - Threadpool.v (threadpool.h): the workers, [add_job] and the queue.
    - VendorClient.v (vendor_client.cc): [getProductBid].
    - Store.v (store.cc): the objects [CallData], their loop and their jobs, with
      the pool and the client used through what the two files above prove.
    - Vendors.v (test/vendor.cc, run_vendors.cc): the vendors, and what a job of the
      store can collect from them.
    - StoreClients.v (test/client.cc, run_tests.cc): the client and the threads of the
      test, against the class [Service] of what a store answers; the store with its
      vendors is an instance.

    ** How the code is modelled

    Sequential code is a function.  It threads its state as records and returns
    a [res]: a value, or the reason why there is none ([Exit], [Throw],
    [Undefined], [Blocked]).  An [int] or a [long] is a [Z], with
    [i32] or [u64] where the source computes in that width.  Loops that are not
    over a list take fuel, and it is enough: the loop of [FileShard.shard_file] gets the
    length of the file and consumes a byte per turn ([FileShard.shard_files_tile]),
    [CxxString.to_string] gets one unit per bit of the number
    ([CxxString.dec_fuel_enough]).

    Concurrent code is a transition system: a record of the shared state with
    the position of every thread, a function [exec] that gives the effect of an
    event ([None] when the event cannot happen), and the relation [step] that
    some event happens.  Positions lie between the accesses where another thread
    can interfere.  Properties of every interleaving are invariants over
    [reachable]; progress is stated as: from every reachable state the end can be
    reached.  It is proved by a rank that some enabled step lowers.

    ** What the theorems show

    - A job as a whole: on a valid configuration it ends, and every output file
      is extended by what the reducer gives for its keys ([MapReduce.run_correct],
      [WordCount.word_count_run]); so it is in every interleaving of the threads and
      the workers, and any two leave the same files ([JobThreads.job_correct],
      [any_order_same_files], [job_ends]); sharding loses and duplicates nothing
      ([FileShard.shard_files_tile], [shard_files_lines], [shard_files_sizes]);
      the jobs of the workers compute what the user's tasks say
      ([WorkerRequest.handle_map_job_spec], [handle_reduce_job_spec],
      [MRTasks.emits_then_dump]); configurations are read back and checked
      ([MRSpec.read_print_spec], [validate_mr_spec_iff]).  The cases in which the
      code does not do so are theorems as well ([MapReduce.run_empty_input],
      [FileShard.shard_files_exact_fit]).
    - The threads of a job: while no worker fails, the shards and then the
      partitions are sent in order and once each, and a run ends, but for two kinds
      of states from which it never does ([MasterRun.master_in_order],
      [master_ends_unless_lost]).  Whatever workers fail, they stay accounted for, no
      shard is forgotten in the map phase, and steps fail in three situations only
      ([MasterFaults.faults_accounted]); what else a failing worker brings about is shown
      by examples in MasterRun.v, but for the partitions of the reduce phase, which are never
      recorded and never sent again ([MasterFaults.partitions_never_resent]).  The worker with its loops does what one loop that
      serves call after call would do ([WorkerService.worker_serves_in_sequence],
      [worker_always_accepts], [worker_answers_all]).  Jobs on objects, whose buffers are
      reached through pointers, do what the jobs on values do, and leave their internals
      allocated ([TaskObjects.task_objects_refine_jobs], [internals_left_behind]).
    - The programs: what mrdemo exits with in every case, and that the calls its job
      makes are ones that mr_worker serves without failing
      ([DemoProgram.demo_main_outcome], [WorkerProgram.worker_program_serves]).
    - The producer and consumers: no interleaving fails, deadlocks or loses a letter
      ([ProducerConsumer.all_letters_printed], [no_thread_fails],
      [always_can_finish], [LinkedQueue.queue_is_fifo]).
    - The barriers, for any number of threads or processes and of calls: nobody
      returns before all have begun, and no interleaving deadlocks
      ([SenseBarrier.sense_barrier_correct] and its like); the harnesses run through
      with all of them ([Harness.harnesses_run_through]).
    - The examples: a shared sum in a critical section, read between barriers, and one
      with atomic additions come out right in every interleaving
      ([OpenMPExamples.SharedVars.shared_vars_correct],
      [ParallelFor.parallel_for_correct], [printing_examples]); the ring ends
      when MPI buffers one message at least, and deadlocks when it buffers none
      ([MPIExamples.Ring.ring_correct]).
    - The store: no use after free, every request answered once, no lost wake-up
      ([Store.store_never_fails], [requests_answered_once],
      [one_request_at_the_front], [Threadpool.pool_refines_queue],
      [no_lost_wakeup], [VendorClient.bids_are_answers]).  With its vendors it answers
      with their prices, and that is what the test collects
      ([StoreClients.shop_answers_genuine], [tests_get_genuine_bids]).
    - The schedulers: who gives and who gets memory and what bounds hold
      ([MemoryCoordinator.scheduler_decides] and its like), and where virtual CPUs
      are pinned ([VcpuScheduler.rebalance_pins_all], [scheduler_total]).

    ** What is assumed of other code

    - gRPC: a tag handed over comes back through its completion queue once, with
      what the call was about; which call, when and with what answer is open.
    - MPI: point-to-point messages between two ranks with one tag are not lost and
      not overtaken; a rank outside the communicator is fatal; whether a blocking send is
      buffered is open, and one that is not returns when the message has been received.
    - OpenMP: a critical section excludes, a barrier holds back, an atomic update is one
      step; the number of threads is the one asked for, the division of a loop between them
      is open.
    - libvirt: its readings are inputs, its settings outputs.
    - [qsort] sorts; [std::hash] is any function; the user's mapper and reducer
      are any functions of the library's types.
    - Mutexes exclude each other, condition variables may wake for no reason, and
      shared variables outside a mutex are sequentially consistent.

    ** Not modelled

    - The weak ordering of the accesses of master.cc outside its mutexes, which are data
      races in C++; the waits of [monitor] by the clock, after which its next turn may
      come at any time.
    - The other headers under external/: declarations.
    - Starting and shutting down gRPC servers and channels; the measurements of time and
      the messages that the programs print.
    - The workloads under project1-1 (iambusy.cpp, run.cpp): they load a processor or fill a
      memory for a test and compute nothing.
    - Printing for debugging, [free] at the end of a program, and whether
      [malloc] or [pthread_create] succeeds. *)

From stdpp Require Export prelude gmap strings sorting relations list_numbers.
From Stdlib Require Export ZArith Lia.

Set Default Proof Using "Type".

(** ** Machine integers

    The C and C++ sources use [int] (32 bits, two's complement), [long],
    [long long] and their unsigned forms (64 bits).  A value is a [Z]; the
    functions below are the reductions that the conversions and the unsigned
    operations perform.  Signed overflow is undefined in C; where the model
    has to give it a value it takes the two's complement wrap-around. *)
Definition u64 (z : Z) : Z := (z `mod` 2 ^ 64)%Z.
Definition i32 (z : Z) : Z := ((z + 2 ^ 31) `mod` 2 ^ 32 - 2 ^ 31)%Z.
Definition i32_range (z : Z) : Prop := (- 2 ^ 31 ≤ z < 2 ^ 31)%Z.

#[global] Instance i32_range_dec z : Decision (i32_range z).
Proof. unfold i32_range. apply _. Defined.

(** ** Failing computations

    A computation returns a value, leaves the process with a status
    ([exit]), throws a C++ exception that nothing in the source catches,
    performs an access whose behaviour the language leaves undefined, or waits
    for an event that does not come. *)
Inductive exn := invalid_argument | out_of_range | length_error.

Inductive failure := Exit (status : Z) | Throw (e : exn) | Undefined | Blocked.

Inductive res (A : Type) := Ok (a : A) | Err (f : failure).
Arguments Ok {A} a.
Arguments Err {A} f.

#[global] Instance exn_eq_dec : EqDecision exn.
Proof. solve_decision. Defined.
#[global] Instance failure_eq_dec : EqDecision failure.
Proof. solve_decision. Defined.

#[global] Instance res_ret : MRet res := λ A a, Ok a.
#[global] Instance res_bind : MBind res :=
  λ A B f m, match m with Ok a => f a | Err e => Err e end.

Definition is_ok {A} (r : res A) : bool := match r with Ok _ => true | Err _ => false end.

(** A bounds-checked access: C and C++ leave an access outside an array
    undefined. *)
Definition get {A} (l : list A) (i : nat) : res A :=
  match l !! i with Some x => Ok x | None => Err Undefined end.

Definition put {A} (l : list A) (i : nat) (x : A) : res (list A) :=
  if decide (i < length l) then Ok (<[i := x]> l) else Err Undefined.

(** A [for] loop over the elements of a list, the state threaded through. *)
Fixpoint mfoldl {A B} (f : A → B → res A) (a : A) (l : list B) : res A :=
  match l with
  | [] => Ok a
  | x :: l' => a' ← f a x; mfoldl f a' l'
  end.

(** A list without the first occurrence of an element. *)
Fixpoint remove_one {A} `{!EqDecision A} (x : A) (l : list A) : option (list A) :=
  match l with
  | [] => None
  | y :: l' => if decide (y = x) then Some l' else (y ::.) <$> remove_one x l'
  end.

(** The indices [lo, lo+1, ..., hi-1] of a [for (int i = lo; i < hi; i++)]. *)
Definition range (lo hi : nat) : list nat := seq lo (hi - lo).

(** ** Records

    [update f g r] is the record [r] with [g] applied to its field [f]; a
    record type declares its eta expansion once. *)
Class Eta (R : Type) := eta : R → R.

Class Update {R T : Type} (field : R → T) := update : (T → T) → R → R.
Arguments update {R T} field {_} g r.

Ltac find_update :=
  match goal with
  | |- @Update ?R _ ?field =>
    let e := eval hnf in (@eta R _) in
    let p := eval pattern field in e in
    match p with ?body _ => exact (λ g, body (λ r, g (field r))) end
  end.

#[global] Hint Extern 1 (Update _) => find_update : typeclass_instances.

(** Assignment to a field. *)
Definition assign {R T : Type} (field : R → T) `{!Update field} (x : T) (r : R) : R :=
  update field (λ _, x) r.

(** ** Transition systems *)
Section reachability.
Context {S : Type} (init : S → Prop) (step : S → S → Prop).

Definition reachable (s : S) : Prop := ∃ s0, init s0 ∧ rtc step s0 s.

Definition invariant (P : S → Prop) : Prop := ∀ s, reachable s → P s.
End reachability.

(** ** Tactics *)

(** Case analysis on every [match], [if] and [decide] in sight. *)
Ltac case_all := repeat (case_match || case_decide); simplify_eq/=.

(** Split a monadic hypothesis [x ← m; k x = Ok r] into its steps. *)
Ltac inv_ok :=
  repeat match goal with
  | H : Ok _ = Ok _ |- _ => injection H as H; subst
  | H : Err _ = Ok _ |- _ => discriminate H
  | H : Ok _ = Err _ |- _ => discriminate H
  | H : mbind _ ?m = Ok _ |- _ =>
      let E := fresh "E" in
      destruct m eqn:E; cbn [mbind res_bind] in H; [|discriminate H]
  | H : res_bind _ _ _ ?m = Ok _ |- _ =>
      let E := fresh "E" in
      destruct m eqn:E; cbn [res_bind] in H; [|discriminate H]
  end.

(** Arithmetic after unfolding the word reductions. *)
Ltac word := unfold u64, i32, i32_range in *; Z.div_mod_to_equations; lia.

(** ** Shared lemmas *)

Lemma invariant_ind {S} (init : S → Prop) (step : S → S → Prop) (P : S → Prop) :
  (∀ s, init s → P s) →
  (∀ s s', P s → step s s' → P s') →
  invariant init step P.
Proof.
  intros Hi Hs s (s0 & H0 & Hsteps). apply Hi in H0.
  induction Hsteps; eauto.
Qed.

(** An inductive invariant may use another one already proved. *)
Lemma invariant_ind_with {S} (init : S → Prop) (step : S → S → Prop) (J P : S → Prop) :
  invariant init step J →
  (∀ s, init s → P s) →
  (∀ s s', J s → P s → step s s' → P s') →
  invariant init step P.
Proof.
  intros HJ Hi Hs.
  intros s (s0 & H0 & Hst).
  assert (reachable init step s0) as Hr by (exists s0; split; [done|apply rtc_refl]).
  apply Hi in H0. induction Hst as [|s1 s2 s3 H12 _ IH]; [done|].
  apply IH; [by eapply Hs; eauto|].
  destruct Hr as (s & Hs0 & Hst). exists s. split; [done|]. by eapply rtc_r.
Qed.

Lemma reachable_init {S} (init : S → Prop) (step : S → S → Prop) s :
  init s → reachable init step s.
Proof. intros H. exists s. split; [done|apply rtc_refl]. Qed.

Lemma reachable_step {S} (init : S → Prop) (step : S → S → Prop) s s' :
  reachable init step s → step s s' → reachable init step s'.
Proof. intros (s0 & H0 & Hst) H. exists s0. split; [done|]. by eapply rtc_r. Qed.

Lemma i32_id z : i32_range z → i32 z = z.
Proof. word. Qed.

Lemma i32_bound z : i32_range (i32 z).
Proof. word. Qed.

Lemma u64_id z : (0 ≤ z < 2 ^ 64)%Z → u64 z = z.
Proof. unfold u64. intros. by apply Z.mod_small. Qed.

Lemma u64_bound z : (0 ≤ u64 z < 2 ^ 64)%Z.
Proof. unfold u64. apply Z.mod_pos_bound. lia. Qed.

Lemma mfoldl_app {A B} (f : A → B → res A) a l1 l2 :
  mfoldl f a (l1 ++ l2) = (a' ← mfoldl f a l1; mfoldl f a' l2).
Proof.
  revert a. induction l1 as [|x l1 IH]; intros a; simpl; [done|].
  destruct (f a x); simpl; [|done]. apply IH.
Qed.

(** A loop whose body never fails is a fold. *)
Lemma mfoldl_ok {A B} (f : A → B → res A) (g : A → B → A) a l :
  (∀ a x, x ∈ l → f a x = Ok (g a x)) →
  mfoldl f a l = Ok (foldl g a l).
Proof.
  revert a. induction l as [|x l IH]; intros a H; simpl; [done|].
  rewrite H by set_solver. simpl. apply IH. intros. apply H. set_solver.
Qed.

(** Loop rule: an invariant of the body holds after the loop. *)
Lemma mfoldl_inv {A B} (P : list B → A → Prop) (f : A → B → res A) a l r :
  P [] a →
  (∀ done a x a' rest, l = done ++ x :: rest → P done a → f a x = Ok a' → P (done ++ [x]) a') →
  mfoldl f a l = Ok r → P l r.
Proof.
  intros H0 Hs Hr.
  assert (∀ done rest a, l = done ++ rest → P done a → mfoldl f a rest = Ok r → P l r) as H.
  { intros done rest. revert done. induction rest as [|x rest IH]; intros done b Hl Hb Hf; simpl in Hf.
    - inv_ok. by rewrite app_nil_r.
    - inv_ok. eapply (IH (done ++ [x])); eauto.
      by rewrite <-app_assoc. }
  by apply (H [] l a).
Qed.

Lemma elem_of_range i lo hi : i ∈ range lo hi ↔ lo ≤ i < hi.
Proof. unfold range. rewrite elem_of_seq. lia. Qed.

Lemma range_split lo mid hi : lo ≤ mid ≤ hi → range lo hi = range lo mid ++ range mid hi.
Proof.
  intros H. unfold range.
  replace (hi - lo) with ((mid - lo) + (hi - mid)) by lia.
  rewrite seq_app. do 2 f_equal. lia.
Qed.

Lemma elem_of_concat {A} (x : A) (ls : list (list A)) :
  x ∈ concat ls ↔ ∃ l, x ∈ l ∧ l ∈ ls.
Proof.
  rewrite list_elem_of_In, in_concat. setoid_rewrite list_elem_of_In. naive_solver.
Qed.

#[global] Instance concat_Permutation {A} : Proper ((≡ₚ) ==> (≡ₚ)) (@concat A).
Proof.
  intros l1 l2 H. induction H as [|l l1 l2 _ IH|l l' l1|? ? ? _ IH1 _ IH2]; simpl.
  - done.
  - by rewrite IH.
  - rewrite !app_assoc. apply Permutation_app_tail, Permutation_app_comm.
  - by etrans.
Qed.

Lemma filter_ext_elem {A} (P Q : A → Prop) `{!∀ x, Decision (P x), !∀ x, Decision (Q x)}
    (l : list A) :
  (∀ x, x ∈ l → P x ↔ Q x) → filter P l = filter Q l.
Proof.
  induction l as [|x l IH]; intros Hl; [done|]. rewrite !filter_cons.
  specialize (IH ltac:(intros; apply Hl; by right)). specialize (Hl x ltac:(left)).
  repeat case_decide; rewrite ?IH; tauto.
Qed.

(** A sum, or a count, over a list in which one entry changes. *)
Lemma sum_insert {A} (f : A → nat) (l : list A) i x y :
  l !! i = Some x →
  sum_list_with f (<[i := y]> l) + f x = sum_list_with f l + f y.
Proof.
  revert i. induction l as [|z l IH]; intros [|i] H; simplify_eq/=; [lia|].
  specialize (IH i H). lia.
Qed.

Lemma sum_replicate {A} (f : A → nat) n x : sum_list_with f (replicate n x) = n * f x.
Proof. induction n; cbn; lia. Qed.

Lemma sum_bound {A} (f : A → nat) (k : nat) (l : list A) :
  (∀ x, x ∈ l → f x ≤ k) → sum_list_with f l ≤ length l * k.
Proof.
  induction l as [|x l IH]; intros H; cbn; [lia|].
  specialize (H x ltac:(left)) as Hx. specialize (IH ltac:(intros; apply H; by right)). lia.
Qed.

Lemma sum_lookup {A} (f : A → nat) (l : list A) i x :
  l !! i = Some x → f x ≤ sum_list_with f l.
Proof.
  revert i. induction l as [|z l IH]; intros [|i] H; simplify_eq/=; [lia|].
  specialize (IH i H). lia.
Qed.

Lemma sum_lookup2 {A} (f : A → nat) (l : list A) i j x y :
  l !! i = Some x → l !! j = Some y → i ≠ j → f x + f y ≤ sum_list_with f l.
Proof.
  revert i j. induction l as [|z l IH]; intros [|i] [|j] Hi Hj Hne; simplify_eq/=.
  - pose proof (sum_lookup f l j y Hj). lia.
  - pose proof (sum_lookup f l i x Hi). lia.
  - specialize (IH i j Hi Hj ltac:(congruence)). lia.
Qed.

Lemma sum_zero {A} (f : A → nat) (l : list A) :
  (∀ i x, l !! i = Some x → f x = 0) → sum_list_with f l = 0.
Proof.
  induction l as [|z l IH]; intros H; cbn; [done|].
  rewrite (H 0 z eq_refl). apply IH. intros i x Hi. by apply (H (S i)).
Qed.

Lemma sum_complement {A} (f g : A → nat) (l : list A) :
  (∀ x, f x + g x = 1) → sum_list_with f l + sum_list_with g l = length l.
Proof.
  intros H. induction l as [|z l IH]; cbn; [done|]. specialize (H z). lia.
Qed.

Lemma sum_ext {A} (f g : A → nat) (l : list A) :
  (∀ x, x ∈ l → f x = g x) → sum_list_with f l = sum_list_with g l.
Proof.
  induction l as [|z l IH]; intros H; cbn; [done|].
  rewrite H by (by left). f_equal. apply IH. intros x Hx. apply H. by right.
Qed.

(** One more for one entry. *)
Lemma sum_add_one `{EqDecision A} (f g : A → nat) (l : list A) u :
  NoDup l → u ∈ l → (∀ x, x ∈ l → g x = f x + (if decide (x = u) then 1 else 0)) →
  sum_list_with g l = S (sum_list_with f l).
Proof.
  induction l as [|z l IH]; intros Hnd Hu Hg; [by apply not_elem_of_nil in Hu|].
  apply NoDup_cons in Hnd as [Hz Hnd]. cbn. rewrite (Hg z) by (by left).
  apply elem_of_cons in Hu as [->|Hu].
  - rewrite decide_True by done. rewrite (sum_ext g f l); [lia|].
    intros x Hx. rewrite (Hg x) by (by right). rewrite decide_False; [lia|]. by intros ->.
  - rewrite decide_False by (by intros ->). rewrite IH; [lia|done..|].
    intros x Hx. apply Hg. by right.
Qed.

(** A sum of bounded entries that is as large as possible. *)
Lemma sum_full {A} (f : A → nat) (k : nat) (l : list A) :
  (∀ x, x ∈ l → f x ≤ k) → sum_list_with f l = length l * k → ∀ x, x ∈ l → f x = k.
Proof.
  induction l as [|z l IH]; intros Hb Hs x Hx; [by apply not_elem_of_nil in Hx|].
  cbn in Hs. pose proof (sum_bound f k l ltac:(intros; apply Hb; by right)) as Hl.
  pose proof (Hb z ltac:(by left)) as Hz.
  apply elem_of_cons in Hx as [->|Hx]; [lia|]. apply IH; [intros; apply Hb; by right|lia|done].
Qed.

(** A sum of entries that is not as large as possible. *)
Lemma sum_not_full {A} (f : A → nat) (k : nat) (l : list A) :
  sum_list_with f l < length l * k → ∃ x, x ∈ l ∧ f x < k.
Proof.
  induction l as [|z l IH]; cbn; intros H; [lia|].
  destruct (decide (f z < k)) as [?|?]; [exists z; split; [by left|done]|].
  destruct IH as (x & Hx & ?); [lia|]. exists x. split; [by right|done].
Qed.

(** A smallest entry of a list. *)
Lemma argmin {A} (f : A → nat) (l : list A) :
  l ≠ [] → ∃ i x, l !! i = Some x ∧ ∀ j y, l !! j = Some y → f x ≤ f y.
Proof.
  induction l as [|z l IH]; [done|]. intros _. destruct l as [|z' l].
  - exists 0, z. split; [done|]. intros [|j] y Hy; [by simplify_eq/=|done].
  - destruct (IH ltac:(done)) as (i & x & Hi & Hmin). destruct (decide (f z ≤ f x)) as [Hle|Hgt].
    + exists 0, z. split; [done|]. intros [|j] y Hy; [by simplify_eq/=|].
      specialize (Hmin j y Hy). lia.
    + exists (S i), x. split; [done|]. intros [|j] y Hy; [simplify_eq/=; lia|]. by eapply Hmin.
Qed.

(** Blocks of a constant length. *)
Lemma blocks_lookup {A B} (f : A → list B) (w : nat) (l : list A) i j x :
  (∀ y, length (f y) = w) → l !! i = Some x → j < w →
  concat (f <$> l) !! (w * i + j) = f x !! j.
Proof.
  intros Hf. revert i. induction l as [|y l IH]; intros [|i] Hi Hj; simplify_eq/=.
  - rewrite Nat.mul_0_r. apply lookup_app_l. by rewrite Hf.
  - rewrite lookup_app_r by (rewrite Hf; lia). rewrite Hf.
    rewrite <-(IH i) by done. f_equal. lia.
Qed.

Lemma blocks_length {A B} (f : A → list B) (w : nat) (l : list A) :
  (∀ y, length (f y) = w) → length (concat (f <$> l)) = w * length l.
Proof.
  intros Hf. induction l as [|y l IH]; cbn; [lia|]. rewrite length_app, Hf, IH. lia.
Qed.

(** Steps that bring a bounded rank down lead to a goal. *)
Lemma rank_reaches {S} (step : S → S → Prop) (good goal : S → Prop) (rank : S → nat) :
  (∀ s, good s → goal s ∨ ∃ s', step s s' ∧ good s' ∧ rank s' < rank s) →
  ∀ s, good s → ∃ s', rtc step s s' ∧ goal s'.
Proof.
  intros Hstep s. remember (rank s) as n eqn:En. revert s En.
  induction n as [n IH] using lt_wf_ind. intros s -> Hg.
  destruct (Hstep s Hg) as [?|(s1 & E & Hg1 & Hlt)]; [by exists s|].
  destruct (IH _ Hlt s1 eq_refl Hg1) as (s' & Hs & Hf).
  exists s'. split; [|done]. by eapply rtc_l.
Qed.

(** What is missing, over a list, until [f] has reached [b] everywhere. *)
Lemma sum_missing {A} (f : A → nat) (b : nat) (l : list A) t x y :
  l !! t = Some x → f x < f y → f x < b →
  sum_list_with (λ x, b - f x) (<[t := y]> l) < sum_list_with (λ x, b - f x) l.
Proof. intros Ht Hf Hb. pose proof (sum_insert (λ x, b - f x) l t x y Ht) as H. cbn in H. lia. Qed.

Lemma remove_one_perm {A} `{!EqDecision A} (x : A) (l l' : list A) :
  remove_one x l = Some l' → l ≡ₚ x :: l'.
Proof.
  revert l'. induction l as [|y l IH]; cbn; intros l' E; [done|].
  case_decide; [by simplify_eq|]. destruct (remove_one x l) as [k|]; [|done].
  injection E as <-. rewrite (IH k eq_refl). apply perm_swap.
Qed.

Lemma remove_one_in {A} `{!EqDecision A} (x : A) (l : list A) :
  x ∈ l → ∃ l', remove_one x l = Some l'.
Proof.
  induction l as [|y l IH]; intros Hx; [by apply not_elem_of_nil in Hx|]. cbn.
  case_decide as Hy; [by eexists|]. destruct IH as [l' ->]; [|by eexists].
  by apply elem_of_cons in Hx as [->|?].
Qed.

(** Steps that another system matches, with none or several of its own. *)
Section simulation.
Context {C A : Type} (stepC : C → C → Prop) (stepA : A → A → Prop) (abs : C → A).

Lemma simulation_reachable (initC : C → Prop) (initA : A → Prop) :
  (∀ s, initC s → initA (abs s)) →
  (∀ s s', reachable initC stepC s → stepC s s' → rtc stepA (abs s) (abs s')) →
  ∀ s, reachable initC stepC s → reachable initA stepA (abs s).
Proof.
  intros Hi Hs. apply (invariant_ind_with initC stepC (reachable initC stepC)); [by intros ?|..].
  - intros s H. apply reachable_init. by apply Hi.
  - intros s s' Hr (s0 & H0 & Hst) Hstep. exists s0. split; [done|].
    etrans; [exact Hst|]. by apply Hs.
Qed.
End simulation.

Create HintDb machine discriminated.
Create Rewrite HintDb len.
#[export] Hint Resolve i32_bound u64_bound : machine.
#[export] Hint Rewrite @length_insert @length_replicate @length_app @length_fmap @length_seq : len.
