(* ===== verification/CxxString.v ===== *)
(** * C and C++ strings

    The operations of [std::string], [std::getline], [std::stoi],
    [std::to_string], [atoi] and the order of [std::map<std::string, _>] that
    the sources use.  A [std::string] is a list of characters (it may hold
    NULs); a C string is what precedes the first NUL. *)
From S2P Require Import Prelude.
From Stdlib Require Import Ascii.

Abbreviation cstr := (list ascii).

Definition str (s : string) : cstr := String.list_ascii_of_string s.

Definition chr (n : nat) : ascii := ascii_of_nat n.
Definition NUL : ascii := chr 0.
Definition nl : ascii := chr 10.

(** ** std::string *)

Fixpoint find_char (c : ascii) (s : cstr) : option nat :=
  match s with
  | [] => None
  | a :: s' => if decide (a = c) then Some 0 else S <$> find_char c s'
  end.

(** [int pos = s.find(c)]: the [size_t] is converted to [int], so [npos]
    becomes -1. *)
Definition find_int (c : ascii) (s : cstr) : Z :=
  match find_char c s with Some i => i32 (Z.of_nat i) | None => -1 end.

(** [s.substr(pos, n)]: the arguments are converted to [size_t]; a start
    beyond the end throws, the length is cut at the end. *)
Definition substr (s : cstr) (pos n : Z) : res cstr :=
  let len := Z.of_nat (length s) in
  if decide (u64 pos ≤ len)%Z
  then Ok (take (Z.to_nat (Z.min (u64 n) len)) (drop (Z.to_nat (u64 pos)) s))
  else Err (Throw out_of_range).

(** [std::string::npos], and the default length of [substr]. *)
Definition npos : Z := -1.

(** [s.find(t) != npos] *)
Fixpoint contains (t s : cstr) : bool :=
  bool_decide (take (length t) s = t) ||
  match s with [] => false | _ :: s' => contains t s' end.

(** [s.c_str()] read as a C string. *)
Fixpoint c_str (s : cstr) : cstr :=
  match s with
  | [] => []
  | a :: s' => if decide (a = NUL) then [] else a :: c_str s'
  end.

(** ** std::getline *)

(** The characters up to the delimiter, and what follows it. *)
Fixpoint until (d : ascii) (s : cstr) : cstr * cstr :=
  match s with
  | [] => ([], [])
  | a :: s' =>
    if decide (a = d) then ([], s')
    else let '(l, r) := until d s' in (a :: l, r)
  end.

(** One call: [None] when no character is left, so the stream is left in a
    failed state. *)
Definition getline (d : ascii) (s : cstr) : option (cstr * cstr) :=
  match s with [] => None | _ => Some (until d s) end.

(** [while (std::getline(stream, line, d))]: the lines the loop sees. *)
Fixpoint getlines (d : ascii) (s : cstr) : list cstr :=
  match s with
  | [] => []
  | a :: s' =>
    if decide (a = d) then [] :: getlines d s'
    else match getlines d s' with [] => [[a]] | l :: ls => (a :: l) :: ls end
  end.

(** ** Numbers *)

Definition digit (n : Z) : ascii := ascii_of_nat (48 + Z.to_nat n).

Definition digit_val (a : ascii) : option Z :=
  let n := nat_of_ascii a in
  if decide (48 ≤ n ≤ 57) then Some (Z.of_nat n - 48)%Z else None.

#[global] Arguments digit _ : simpl never.
#[global] Arguments digit_val _ : simpl never.

Fixpoint decimal (fuel : nat) (n : Z) (acc : cstr) : cstr :=
  match fuel with
  | 0 => acc
  | S fuel' =>
    if decide (n < 10)%Z then digit n :: acc
    else decimal fuel' (n / 10)%Z (digit (n `mod` 10)%Z :: acc)
  end.

(** A number below [2 ^ k] has at most [k] decimal digits. *)
Definition dec_fuel (n : Z) : nat := S (Z.to_nat (Z.log2 n)).

(** [std::to_string(int)] *)
Definition to_string (z : Z) : cstr :=
  if decide (z < 0)%Z then "-"%char :: decimal (dec_fuel (- z)) (- z) []
  else decimal (dec_fuel z) z [].

Definition is_space (a : ascii) : bool :=
  let n := nat_of_ascii a in bool_decide (n = 32 ∨ 9 ≤ n ≤ 13).

Fixpoint skip_space (s : cstr) : cstr :=
  match s with
  | a :: s' => if is_space a then skip_space s' else s
  | [] => []
  end.

(** The value of the leading digits, [None] when there is none. *)
Fixpoint digits (acc : option Z) (s : cstr) : option Z :=
  match s with
  | [] => acc
  | a :: s' =>
    match digit_val a with
    | Some d => digits (Some (10 * default 0 acc + d)%Z) s'
    | None => acc
    end
  end.

(** [strtol(s, &end, 10)] before the range is applied. *)
Definition strtol (s : cstr) : option Z :=
  match skip_space s with
  | a :: s' =>
    if decide (a = "-"%char) then Z.opp <$> digits None s'
    else if decide (a = "+"%char) then digits None s'
    else digits None (a :: s')
  | [] => None
  end.

(** [std::stoi]: no digits and a value that is no [int] are exceptions. *)
Definition stoi (s : cstr) : res Z :=
  match strtol s with
  | None => Err (Throw invalid_argument)
  | Some z => if decide (i32_range z) then Ok z else Err (Throw out_of_range)
  end.

(** [atoi]: [(int) strtol(s, NULL, 10)], [strtol] saturating at the range of
    [long]. *)
Definition atoi (s : cstr) : Z :=
  i32 (Z.max (- 2 ^ 63) (Z.min (2 ^ 63 - 1) (default 0%Z (strtol s)))).

(** ** The order of std::map<std::string, _> *)

Fixpoint str_leb (s t : cstr) : bool :=
  match s, t with
  | [], _ => true
  | _ :: _, [] => false
  | a :: s', b :: t' =>
    let m := nat_of_ascii a in
    let n := nat_of_ascii b in
    bool_decide (m < n) || (bool_decide (m = n) && str_leb s' t')
  end.

Definition str_le (s t : cstr) : Prop := str_leb s t = true.

#[global] Instance str_le_dec s t : Decision (str_le s t).
Proof. unfold str_le. apply _. Defined.

(** Membership and non-membership of characters in literals. *)
Ltac chars := by (refine (bool_decide_unpack _ _); vm_compute).

(** ** Lemmas *)

Lemma find_char_app c s t :
  c ∉ s → find_char c (s ++ c :: t) = Some (length s).
Proof.
  induction s as [|a s IH]; intros H; simpl.
  - by rewrite decide_True.
  - rewrite decide_False by set_solver. rewrite IH by set_solver. done.
Qed.

Lemma find_char_None c s : c ∉ s → find_char c s = None.
Proof.
  induction s as [|a s IH]; intros H; simpl; [done|].
  rewrite decide_False by set_solver. rewrite IH by set_solver. done.
Qed.

Lemma find_char_lt c s i : find_char c s = Some i → i < length s.
Proof.
  revert i. induction s as [|a s IH]; intros i; simpl; [done|].
  case_decide; [intros; simplify_eq; lia|].
  destruct (find_char c s); simpl; [|done]. intros. simplify_eq.
  specialize (IH _ eq_refl). lia.
Qed.

(** [s.substr(0, pos)] and [s.substr(pos)] for a position of the string. *)
Lemma substr_prefix s n :
  (Z.of_nat (length s) < 2 ^ 63)%Z → n ≤ length s →
  substr s 0 (Z.of_nat n) = Ok (take n s).
Proof.
  intros Hl Hn. unfold substr. rewrite !u64_id by lia.
  rewrite decide_True by lia. simpl. do 2 f_equal. lia.
Qed.

Lemma substr_suffix s n :
  (Z.of_nat (length s) < 2 ^ 63)%Z → n ≤ length s →
  substr s (Z.of_nat n) npos = Ok (drop n s).
Proof.
  intros Hl Hn. unfold substr. rewrite (u64_id (Z.of_nat n)) by lia.
  rewrite decide_True by lia. rewrite Nat2Z.id.
  rewrite take_ge; [done|]. rewrite length_drop.
  unfold npos. change (u64 (-1)) with (2 ^ 64 - 1)%Z. lia.
Qed.

Lemma substr_npos s :
  (Z.of_nat (length s) < 2 ^ 63)%Z → substr s 0 (-1) = Ok s.
Proof. intros H. apply (substr_suffix s 0); [done|lia]. Qed.

(** *** getline *)

Lemma until_length d s :
  length (until d s).1 + length (until d s).2 ≤ length s.
Proof.
  induction s as [|a s IH]; simpl; [lia|].
  case_decide; simpl; [lia|]. destruct (until d s); simpl in *; lia.
Qed.

Lemma until_app d s t :
  d ∉ s → until d (s ++ d :: t) = (s, t).
Proof.
  induction s as [|a s IH]; intros H; simpl.
  - by rewrite decide_True.
  - rewrite decide_False by set_solver. rewrite IH by set_solver. done.
Qed.

Lemma until_notin d s : d ∉ s → until d s = (s, []).
Proof.
  induction s as [|a s IH]; intros H; simpl; [done|].
  rewrite decide_False by set_solver. rewrite IH by set_solver. done.
Qed.

(** A line is what precedes the delimiter, or all of an unterminated text. *)
Lemma until_spec d s :
  (d ∉ (until d s).1) ∧
  (s = (until d s).1 ++ d :: (until d s).2 ∨ (s = (until d s).1 ∧ (until d s).2 = [])).
Proof.
  induction s as [|a s [IH1 IH2]]; simpl; [split; [set_solver|by right]|].
  case_decide as Ha.
  - subst. split; [set_solver|by left].
  - destruct (until d s) as [l r]; simpl in *. split; [set_solver|].
    destruct IH2 as [->|[-> ->]]; [by left|by right].
Qed.

(** The loop [while (getline(...))] unfolded once. *)
Lemma getlines_unfold d s :
  getlines d s =
  match getline d s with None => [] | Some (l, r) => l :: getlines d r end.
Proof.
  destruct s as [|a s]; [done|]. unfold getline. revert a.
  induction s as [|b s IH]; intros a; simpl.
  - by case_decide.
  - destruct (decide (a = d)); [done|].
    specialize (IH b). simpl in IH. rewrite IH.
    destruct (decide (b = d)); [done|]. destruct (until d s). done.
Qed.

Lemma getlines_nil d s : getlines d s = [] → s = [].
Proof.
  destruct s as [|a s]; simpl; [done|].
  case_decide; [done|]. by destruct (getlines d s).
Qed.

(** Reading line by line does not see a cut placed just after a delimiter. *)
Lemma getlines_cut d s t :
  getlines d (s ++ d :: t) = getlines d (s ++ [d]) ++ getlines d t.
Proof.
  induction s as [|a s IH]; simpl.
  - rewrite !decide_True by done. done.
  - rewrite IH. destruct (decide (a = d)); [done|].
    destruct (getlines d (s ++ [d])) as [|l ls] eqn:E; [|done].
    apply getlines_nil in E. by destruct s.
Qed.

Lemma getlines_line d l : d ∉ l → getlines d (l ++ [d]) = [l].
Proof.
  induction l as [|a l IH]; intros H; simpl.
  - by rewrite decide_True.
  - rewrite decide_False by set_solver. rewrite IH by set_solver. done.
Qed.

Lemma getlines_unterminated d l : d ∉ l → l ≠ [] → getlines d l = [l].
Proof.
  induction l as [|a l IH]; intros H Hl; simpl; [done|].
  rewrite decide_False by set_solver.
  destruct l as [|b l]; [done|]. rewrite IH by set_solver. done.
Qed.

(** Writing lines and reading them back. *)
Lemma getlines_concat d (ls : list cstr) :
  (∀ l, l ∈ ls → d ∉ l) →
  getlines d (concat ((λ l, l ++ [d]) <$> ls)) = ls.
Proof.
  induction ls as [|l ls IH]; intros H; simpl; [done|].
  rewrite <-app_assoc. simpl. rewrite getlines_cut, getlines_line by set_solver.
  simpl. f_equal. apply IH. set_solver.
Qed.

(** The lines hold no delimiter and are no longer than the text. *)
Lemma getlines_elem d s l : l ∈ getlines d s → (d ∉ l) ∧ length l ≤ length s.
Proof.
  revert l. induction s as [|a s IH]; intros l; [set_solver|]. cbn [getlines].
  assert (∀ l, l ∈ getlines d s → (d ∉ l) ∧ length l ≤ length (a :: s)) as IH'.
  { intros l' Hl'. destruct (IH l' Hl'). simpl. split; [done|lia]. }
  case_decide as Ha.
  - intros [->|Hl]%elem_of_cons; [|by apply IH']. split; [set_solver|simpl; lia].
  - destruct (getlines d s) as [|l0 ls] eqn:E.
    + intros ->%list_elem_of_singleton. split; [set_solver|simpl; lia].
    + destruct (IH l0) as [? ?]; [left|].
      intros [->|Hl]%elem_of_cons; [|apply IH'; by right].
      split; [set_solver|simpl; lia].
Qed.

Lemma c_str_app s t : NUL ∉ s → c_str (s ++ t) = s ++ c_str t.
Proof.
  induction s as [|a s IH]; intros H; simpl; [done|].
  rewrite decide_False by set_solver. rewrite IH by set_solver. done.
Qed.

Lemma c_str_id s : NUL ∉ s → c_str s = s.
Proof. intros H. rewrite <-(app_nil_r s) at 1. rewrite c_str_app by done. apply app_nil_r. Qed.

(** *** Numbers *)

Lemma digit_val_digit n : (0 ≤ n < 10)%Z → digit_val (digit n) = Some n.
Proof.
  intros H. unfold digit_val, digit.
  rewrite nat_ascii_embedding by lia.
  rewrite decide_True by lia. f_equal. lia.
Qed.

Lemma digit_code n : (0 ≤ n < 10)%Z → nat_of_ascii (digit n) = 48 + Z.to_nat n.
Proof. intros H. unfold digit. apply nat_ascii_embedding. lia. Qed.

Lemma digits_decimal fuel n acc :
  (0 ≤ n < 2 ^ Z.of_nat fuel)%Z → fuel ≠ 0 →
  digits None (decimal fuel n acc) = digits (Some n) acc.
Proof.
  revert n acc. induction fuel as [|fuel IH]; intros n acc Hn Hf; [done|].
  rewrite Nat2Z.inj_succ, Z.pow_succ_r in Hn by lia. cbn [decimal].
  destruct (decide (n < 10)%Z) as [H10|H10].
  - cbn [digits]. rewrite digit_val_digit by lia. cbn [default]. do 2 f_equal.
  - assert (0 ≤ n mod 10 < 10)%Z by (apply Z.mod_pos_bound; lia).
    rewrite IH; [|split|].
    + cbn [digits]. rewrite digit_val_digit by done. cbn [default from_option]. do 2 f_equal.
      rewrite (Z.div_mod n 10) at 3 by done. done.
    + apply Z.div_pos; lia.
    + apply Z.div_lt_upper_bound; lia.
    + intros ->. simpl in Hn. lia.
Qed.

Lemma dec_fuel_enough n : (0 ≤ n → n < 2 ^ Z.of_nat (dec_fuel n))%Z.
Proof.
  intros H. unfold dec_fuel. rewrite Nat2Z.inj_succ, Z2Nat.id by apply Z.log2_nonneg.
  destruct (decide (n = 0)%Z) as [->|]; [done|].
  apply Z.log2_spec. lia.
Qed.

Definition is_digit (a : ascii) : Prop := 48 ≤ nat_of_ascii a ≤ 57.

Lemma decimal_is_digit fuel n acc :
  (0 ≤ n)%Z → Forall is_digit acc → Forall is_digit (decimal fuel n acc).
Proof.
  assert (∀ k, (0 ≤ k < 10)%Z → is_digit (digit k)) as Hd.
  { intros k Hk. unfold is_digit. rewrite digit_code by done. lia. }
  revert n acc. induction fuel as [|fuel IH]; intros n acc Hn Hacc; simpl; [done|].
  case_decide.
  - constructor; [apply Hd; lia|done].
  - apply IH; [apply Z.div_pos; lia|]. constructor; [|done].
    apply Hd, Z.mod_pos_bound. lia.
Qed.

Lemma decimal_nonempty fuel n acc : fuel ≠ 0 → decimal fuel n acc ≠ [].
Proof.
  revert n acc. induction fuel as [|fuel IH]; intros n acc H; [done|]. simpl.
  case_decide; [done|]. destruct fuel; [done|]. by apply IH.
Qed.

Lemma strtol_digits s : Forall is_digit s → s ≠ [] → strtol s = digits None s.
Proof.
  intros Hs Hne. destruct s as [|a s]; [done|].
  apply Forall_cons in Hs as [Ha _]. unfold is_digit in Ha.
  assert (is_space a = false) as Hsp.
  { unfold is_space. apply bool_decide_eq_false. lia. }
  unfold strtol. simpl skip_space. rewrite Hsp.
  rewrite !decide_False; [done|intros ->; compute in Ha; lia..].
Qed.

Lemma strtol_minus s : strtol ("-"%char :: s) = Z.opp <$> digits None s.
Proof. done. Qed.

Lemma strtol_to_string z : strtol (to_string z) = Some z.
Proof.
  assert (∀ n, (0 ≤ n)%Z → digits None (decimal (dec_fuel n) n []) = Some n) as Hd.
  { intros n Hn. by rewrite digits_decimal by (try split; try apply dec_fuel_enough; done). }
  unfold to_string. case_decide.
  - rewrite strtol_minus, Hd by lia. simpl. f_equal. lia.
  - rewrite strtol_digits.
    + apply Hd. lia.
    + apply decimal_is_digit; [lia|constructor].
    + by apply decimal_nonempty.
Qed.

Lemma stoi_to_string z : i32_range z → stoi (to_string z) = Ok z.
Proof. intros H. unfold stoi. rewrite strtol_to_string. by rewrite decide_True. Qed.

Lemma atoi_to_string z : i32_range z → atoi (to_string z) = z.
Proof.
  intros H. unfold atoi. rewrite strtol_to_string. simpl.
  rewrite Z.max_r, Z.min_r; [by apply i32_id|unfold i32_range in H; lia..].
Qed.

(** The characters of a printed number. *)
Lemma to_string_chars z : Forall (λ a, is_digit a ∨ a = "-"%char) (to_string z).
Proof.
  assert (∀ n, (0 ≤ n)%Z →
    Forall (λ a, is_digit a ∨ a = "-"%char) (decimal (dec_fuel n) n [])) as Hd.
  { intros n Hn. eapply Forall_impl; [apply decimal_is_digit; [done|constructor]|]. auto. }
  unfold to_string. case_decide.
  - constructor; [auto|apply Hd; lia].
  - apply Hd. lia.
Qed.

Lemma to_string_notin a z :
  ¬ is_digit a → a ≠ "-"%char → a ∉ to_string z.
Proof.
  intros H1 H2 H. pose proof (to_string_chars z) as HF.
  rewrite Forall_forall in HF. destruct (HF a H); done.
Qed.

Lemma to_string_inj z1 z2 : to_string z1 = to_string z2 → z1 = z2.
Proof.
  intros H. pose proof (strtol_to_string z1) as H1.
  rewrite H, strtol_to_string in H1. congruence.
Qed.

(** *** The order *)

Lemma str_leb_cons a s b t :
  str_leb (a :: s) (b :: t) = true ↔
  nat_of_ascii a < nat_of_ascii b ∨ (nat_of_ascii a = nat_of_ascii b ∧ str_leb s t = true).
Proof.
  simpl. rewrite orb_true_iff, andb_true_iff, !bool_decide_eq_true. done.
Qed.

#[global] Instance str_le_total : Total str_le.
Proof.
  intros s. induction s as [|a s IH]; intros [|b t]; [by left|by left|by right|].
  unfold str_le in *. rewrite !str_leb_cons.
  destruct (IH t), (lt_eq_lt_dec (nat_of_ascii a) (nat_of_ascii b)) as [[]|]; auto.
Qed.

#[global] Instance str_le_trans : Transitive str_le.
Proof.
  intros s. induction s as [|a s IH]; intros [|b t] [|c u] H1 H2; try done.
  unfold str_le in *. rewrite str_leb_cons in *.
  destruct H1 as [|[]], H2 as [|[]]; try (left; lia). right. split; [lia|eauto].
Qed.

#[global] Instance str_le_antisymm : AntiSymm (=) str_le.
Proof.
  intros s. induction s as [|a s IH]; intros [|b t] H1 H2; try done.
  unfold str_le in *. rewrite str_leb_cons in *.
  destruct H1 as [|[E1 E2]], H2 as [|[E3 E4]]; try lia.
  f_equal; [|by apply IH].
  rewrite <-(ascii_nat_embedding a), <-(ascii_nat_embedding b). by rewrite E1.
Qed.

#[export] Hint Resolve to_string_notin : machine.
