(* ===== verification/FileSystem.v ===== *)
(** * The file system the MapReduce programs read and write

    Regular files by path, and the directories that exist.  [std::ifstream]
    opens a file that exists; [std::ofstream] in append mode also creates one,
    in a directory that exists.  A stream that failed to open writes nothing. *)
From S2P Require Import Prelude CxxString.
From Stdlib Require Import Ascii.

Record fs := FS { fs_files : gmap cstr cstr; fs_dirs : gset cstr }.

(** What precedes the last ['/'], if there is one. *)
Fixpoint dirname (p : cstr) : option cstr :=
  match p with
  | [] => None
  | a :: p' =>
    match dirname p' with
    | Some d => Some (a :: d)
    | None => if decide (a = "/"%char) then Some [] else None
    end
  end.

(** A relative path without ['/'] is in the working directory. *)
Definition parent_exists (f : fs) (p : cstr) : bool :=
  match dirname p with None => true | Some d => bool_decide (d ∈ fs_dirs f) end.

Definition writable (f : fs) (p : cstr) : bool :=
  bool_decide (p ∉ fs_dirs f) &&
  (bool_decide (is_Some (fs_files f !! p)) || parent_exists f p).

(** The text of a file, when [std::ifstream] can open it. *)
Definition read_file (f : fs) (p : cstr) : option cstr := fs_files f !! p.

Definition contents (f : fs) (p : cstr) : cstr := default [] (fs_files f !! p).

Definition write_file (f : fs) (p : cstr) (s : cstr) : fs :=
  FS (<[p := s]> (fs_files f)) (fs_dirs f).

(** [file.seekg(start); file.read(&buffer[0], n)] into a buffer of [n] NULs:
    what the file does not supply stays NUL. *)
Definition read_at (text : cstr) (start n : nat) : cstr :=
  let got := take n (drop start text) in
  got ++ replicate (n - length got) NUL.

(** [std::ofstream o(p, std::ios::app); o << s;] *)
Definition append_file (f : fs) (p : cstr) (s : cstr) : fs :=
  if writable f p then write_file f p (contents f p ++ s) else f.

(** [std::remove(p)] *)
Definition remove_file (f : fs) (p : cstr) : fs :=
  FS (delete p (fs_files f)) (fs_dirs f).

(** [mkdir(p)] where only [EEXIST] can be in the way. *)
Definition mkdir (f : fs) (p : cstr) : fs :=
  match read_file f p with
  | Some _ => f
  | None => FS (fs_files f) ({[p]} ∪ fs_dirs f)
  end.

(** [rmdir(p)]: the directory goes, or stays because it is not empty, or there is
    none. *)
Inductive rmdir_result := Removed | Not_empty | No_directory.

#[export] Instance rmdir_result_eq_dec : EqDecision rmdir_result.
Proof. solve_decision. Defined.

Definition rmdir (f : fs) (p : cstr) : fs * rmdir_result :=
  if decide (p ∈ fs_dirs f) then
    if bool_decide (Forall (λ q, dirname q ≠ Some p)
                      ((map_to_list (fs_files f)).*1 ++ elements (fs_dirs f)))
    then (FS (fs_files f) (fs_dirs f ∖ {[p]}), Removed)
    else (f, Not_empty)
  else (f, No_directory).

(** ** Lemmas *)

Lemma contents_append_same f p s :
  writable f p = true → contents (append_file f p s) p = contents f p ++ s.
Proof.
  intros H. unfold append_file. rewrite H. unfold contents at 1. simpl.
  by rewrite lookup_insert_eq.
Qed.

Lemma contents_append_other f p q s :
  p ≠ q → contents (append_file f p s) q = contents f q.
Proof.
  intros H. unfold append_file. case_match; [|done]. unfold contents. simpl.
  by rewrite lookup_insert_ne.
Qed.

Lemma append_file_dirs f p s : fs_dirs (append_file f p s) = fs_dirs f.
Proof. unfold append_file. by case_match. Qed.

Lemma read_append_other f p q s :
  p ≠ q → read_file (append_file f p s) q = read_file f q.
Proof.
  intros H. unfold append_file. case_match; [|done]. unfold read_file. simpl.
  by rewrite lookup_insert_ne.
Qed.

Lemma read_append_same f p s :
  writable f p = true → read_file (append_file f p s) p = Some (contents f p ++ s).
Proof.
  intros H. unfold append_file. rewrite H. unfold read_file. simpl.
  by rewrite lookup_insert_eq.
Qed.

Lemma writable_append f p q s :
  writable f p = true → writable (append_file f q s) p = true.
Proof.
  unfold append_file. destruct (writable f q); [|done].
  unfold writable, parent_exists. simpl. intros H.
  apply andb_true_iff in H as [H1 H2]. rewrite H1. simpl.
  apply orb_true_iff. apply orb_true_iff in H2 as [H2|H2]; [left|by right].
  apply bool_decide_eq_true. apply bool_decide_eq_true in H2.
  apply lookup_insert_is_Some'. by right.
Qed.

Create HintDb fs discriminated.
Create Rewrite HintDb fs.
#[export] Hint Resolve writable_append : fs.
#[export] Hint Rewrite append_file_dirs : fs.
