(* ===== verification/MRSpec.v ===== *)
(** * The job specification (project4/src/mapreduce_spec.h)

    Reading [config.ini] into a [MapReduceSpec], and validating it. *)
From S2P Require Import Prelude CxxString FileSystem.
From Stdlib Require Import Ascii.

Record MapReduceSpec := {
  n_workers : Z;
  worker_ipaddr_ports : list cstr;
  input_files : list cstr;
  output_dir : cstr;
  n_output_files : Z;
  map_kilobytes : Z;
  user_id : cstr
}.

(** The value-initialised member of [MapReduceImpl]. *)
Definition empty_spec : MapReduceSpec := {|
  n_workers := 0; worker_ipaddr_ports := []; input_files := [];
  output_dir := []; n_output_files := 0; map_kilobytes := 0; user_id := [] |}.

#[export] Instance MapReduceSpec_eta : Eta MapReduceSpec := λ s,
  Build_MapReduceSpec (n_workers s) (worker_ipaddr_ports s) (input_files s)
    (output_dir s) (n_output_files s) (map_kilobytes s) (user_id s).

(** The [if (key == ...)] chain of the reading loop. *)
Definition apply_key (s : MapReduceSpec) (key value : cstr) : res MapReduceSpec :=
  if decide (key = str "n_workers") then
    z ← stoi value; mret (assign n_workers z s)
  else if decide (key = str "worker_ipaddr_ports") then
    mret (update worker_ipaddr_ports (.++ getlines ","%char value) s)
  else if decide (key = str "input_files") then
    mret (update input_files (.++ getlines ","%char value) s)
  else if decide (key = str "output_dir") then
    mret (assign output_dir value s)
  else if decide (key = str "n_output_files") then
    z ← stoi value; mret (assign n_output_files z s)
  else if decide (key = str "map_kilobytes") then
    z ← stoi value; mret (assign map_kilobytes z s)
  else if decide (key = str "user_id") then
    mret (assign user_id value s)
  else mret s.

(** One line: the key is what precedes the first ['='], the value what
    follows it.  A line without ['='] is its own key and its own value, since
    [pos] is -1. *)
Definition apply_line (s : MapReduceSpec) (line : cstr) : res MapReduceSpec :=
  let pos := find_int "="%char line in
  key ← substr line 0 pos;
  value ← substr line (pos + 1) npos;
  apply_key s key value.

Definition read_mr_spec_from_config_file (f : fs) (config_filename : cstr)
    (s : MapReduceSpec) : res (bool * MapReduceSpec) :=
  match read_file f config_filename with
  | None => mret (false, s)
  | Some text =>
    s' ← mfoldl apply_line s (getlines nl text);
    mret (true, s')
  end.

Definition file_exists (f : fs) (name : cstr) : bool :=
  bool_decide (is_Some (read_file f name)).

Definition is_directory (f : fs) (path : cstr) : bool :=
  bool_decide (path ∈ fs_dirs f).

Definition validate_mr_spec (f : fs) (s : MapReduceSpec) : bool :=
  if decide (n_workers s ≤ 0)%Z then false
  else if decide (Z.of_nat (length (worker_ipaddr_ports s)) ≠ u64 (n_workers s)) then false
  else if decide (input_files s = []) then false
  else if negb (forallb (file_exists f) (input_files s)) then false
  else if decide (output_dir s = []) then false
  else if negb (is_directory f (output_dir s)) then false
  else if decide (n_output_files s ≤ 0)%Z then false
  else if decide (map_kilobytes s ≤ 0)%Z then false
  else if decide (user_id s = []) then false
  else true.

(** ** The textual form of a specification *)

Fixpoint join (d : ascii) (l : list cstr) : cstr :=
  match l with
  | [] => []
  | [x] => x
  | x :: l' => x ++ d :: join d l'
  end.

Definition entry (key value : cstr) : cstr := key ++ "="%char :: value.

Definition spec_entries (s : MapReduceSpec) : list (cstr * cstr) :=
  [ (str "n_workers", to_string (n_workers s));
    (str "worker_ipaddr_ports", join ","%char (worker_ipaddr_ports s));
    (str "input_files", join ","%char (input_files s));
    (str "output_dir", output_dir s);
    (str "n_output_files", to_string (n_output_files s));
    (str "map_kilobytes", to_string (map_kilobytes s));
    (str "user_id", user_id s) ].

Definition spec_lines (s : MapReduceSpec) : list cstr :=
  (λ kv, entry kv.1 kv.2) <$> spec_entries s.

(** The text of a [config.ini] that gives the specification. *)
Definition print_spec (s : MapReduceSpec) : cstr :=
  concat ((λ l, l ++ [nl]) <$> spec_lines s).

(** A list entry that the comma-separated form can carry. *)
Definition list_entry (x : cstr) : Prop := x ≠ [] ∧ (","%char ∉ x) ∧ nl ∉ x.

(** A specification that the textual form can carry; a line is shorter than
    [2 ^ 31] characters, the range of [pos]. *)
Record printable (s : MapReduceSpec) : Prop := {
  pr_n_workers : i32_range (n_workers s);
  pr_workers : Forall list_entry (worker_ipaddr_ports s);
  pr_inputs : Forall list_entry (input_files s);
  pr_output_dir : nl ∉ output_dir s;
  pr_n_output : i32_range (n_output_files s);
  pr_kb : i32_range (map_kilobytes s);
  pr_user : nl ∉ user_id s;
  pr_short : Forall (λ l, (Z.of_nat (length l) < 2 ^ 31)%Z) (spec_lines s)
}.

(** ** Lemmas *)

(** The two halves of a [key=value] line. *)
Lemma apply_line_entry s key value :
  "="%char ∉ key → (Z.of_nat (length (entry key value)) < 2 ^ 31)%Z →
  apply_line s (entry key value) = apply_key s key value.
Proof.
  intros Hk Hl. unfold apply_line, find_int, entry in *.
  rewrite length_app in Hl. simpl in Hl.
  rewrite find_char_app by done. rewrite i32_id by word.
  rewrite substr_prefix by (rewrite ?length_app; simpl; lia).
  replace (Z.of_nat (length key) + 1)%Z with (Z.of_nat (S (length key))) by lia.
  rewrite substr_suffix by (rewrite ?length_app; simpl; lia). simpl.
  rewrite take_app_length.
  rewrite cons_middle, app_assoc, drop_app_length'; [done|].
  rewrite length_app. simpl. lia.
Qed.

Lemma join_getlines d l :
  Forall (λ x, x ≠ [] ∧ d ∉ x) l → getlines d (join d l) = l.
Proof.
  induction l as [|x [|y l] IH]; intros H; [done|..].
  - apply Forall_singleton in H as [H1 H2]. by apply getlines_unterminated.
  - apply Forall_cons in H as [[H1 H2] H3]. cbn [join].
    rewrite getlines_cut, getlines_line by done. simpl. f_equal. by apply IH.
Qed.

Lemma notin_join a d l : a ≠ d → Forall (λ x, a ∉ x) l → a ∉ join d l.
Proof.
  intros Hd. induction l as [|x [|y l] IH]; intros H; [set_solver|..].
  - cbn [join]. by rewrite Forall_singleton in H.
  - apply Forall_cons in H as [H1 H2]. cbn [join].
    rewrite elem_of_app, elem_of_cons. intros [|[|]]; [done|done|]. by apply IH.
Qed.

Lemma list_entries_comma l :
  Forall list_entry l → getlines ","%char (join ","%char l) = l.
Proof.
  intros H. apply join_getlines. eapply Forall_impl; [exact H|]. by intros x (?&?&?).
Qed.

Lemma list_entries_nl l : Forall list_entry l → nl ∉ join ","%char l.
Proof.
  intros H. apply notin_join; [done|].
  eapply Forall_impl; [exact H|]. by intros x (?&?&?).
Qed.

Lemma nl_notin_to_string z : nl ∉ to_string z.
Proof. apply to_string_notin; [|done]. unfold is_digit, nl, chr. rewrite nat_ascii_embedding; lia. Qed.

(** The keys are free of the characters that structure the file. *)
Lemma spec_keys s k v : (k, v) ∈ spec_entries s → ("="%char ∉ k) ∧ nl ∉ k.
Proof.
  unfold spec_entries. intros H.
  repeat (apply elem_of_cons in H as [[= -> _]|H]; [split; chars|]). set_solver.
Qed.

Lemma spec_values s k v : printable s → (k, v) ∈ spec_entries s → nl ∉ v.
Proof.
  intros [] H. unfold spec_entries in H.
  repeat (apply elem_of_cons in H as [[= _ ->]|H];
    [auto using nl_notin_to_string, list_entries_nl|]). set_solver.
Qed.

(** The lines of the printed form are what the reading loop sees. *)
Lemma spec_lines_nl s : printable s → ∀ l, l ∈ spec_lines s → nl ∉ l.
Proof.
  intros Hp l ([k v] & -> & H)%list_elem_of_fmap. simpl.
  pose proof (spec_keys _ _ _ H) as [_ Hk]. pose proof (spec_values _ _ _ Hp H) as Hv.
  unfold entry. rewrite elem_of_app, elem_of_cons. intros [|[|]]; done.
Qed.

(** Reading the lines of [key=value] pairs is the [if] chain on the pairs. *)
Lemma apply_entries t l :
  (∀ k v, (k, v) ∈ l → "="%char ∉ k) →
  Forall (λ x, (Z.of_nat (length x) < 2 ^ 31)%Z) ((λ kv, entry kv.1 kv.2) <$> l) →
  mfoldl apply_line t ((λ kv, entry kv.1 kv.2) <$> l) =
  mfoldl (λ s kv, apply_key s kv.1 kv.2) t l.
Proof.
  revert t. induction l as [|[k v] l IH]; intros t Hk Hl; [done|].
  rewrite fmap_cons in *. apply Forall_cons in Hl as [H1 H2]. cbn [mfoldl fst snd].
  rewrite apply_line_entry; [|apply (Hk k v); set_solver|done].
  destruct (apply_key t k v); cbn; [|done]. apply IH; [|done]. set_solver.
Qed.

Lemma apply_spec_lines s t :
  printable s →
  mfoldl apply_line t (spec_lines s) = Ok {|
    n_workers := n_workers s;
    worker_ipaddr_ports := worker_ipaddr_ports t ++ worker_ipaddr_ports s;
    input_files := input_files t ++ input_files s;
    output_dir := output_dir s; n_output_files := n_output_files s;
    map_kilobytes := map_kilobytes s; user_id := user_id s |}.
Proof.
  intros [H1 H2 H3 H4 H5 H6 H7 Hs]. unfold spec_lines in *.
  rewrite apply_entries by (done || apply spec_keys). unfold spec_entries. cbn [mfoldl fst snd].
  unfold apply_key. rewrite !stoi_to_string, !list_entries_comma by done. done.
Qed.

Lemma forallb_file_exists f l :
  forallb (file_exists f) l = true ↔ ∀ n, n ∈ l → is_Some (read_file f n).
Proof.
  rewrite forallb_forall. unfold file_exists.
  setoid_rewrite bool_decide_eq_true. by setoid_rewrite list_elem_of_In.
Qed.

Lemma validate_mr_spec_true (f : fs) (s : MapReduceSpec) :
  i32_range (n_workers s) →
  validate_mr_spec f s = true ↔
  (0 < n_workers s)%Z ∧ Z.of_nat (length (worker_ipaddr_ports s)) = n_workers s ∧
  input_files s ≠ [] ∧ (∀ name, name ∈ input_files s → is_Some (read_file f name)) ∧
  output_dir s ≠ [] ∧ output_dir s ∈ fs_dirs f ∧
  (0 < n_output_files s)%Z ∧ (0 < map_kilobytes s)%Z ∧ user_id s ≠ [].
Proof.
  intros Hr.
  unfold validate_mr_spec, is_directory. split.
  - intros H. repeat (case_decide; [discriminate H|]).
    destruct (forallb _ _) eqn:Ef in H; [|discriminate H]. simpl in H.
    case_decide; [discriminate H|]. destruct (bool_decide_reflect (output_dir s ∈ fs_dirs f));
      [|discriminate H]. simpl in H.
    repeat (case_decide; [discriminate H|]).
    rewrite u64_id in * by word. rewrite forallb_file_exists in Ef.
    repeat split; done || lia.
  - intros (?&?&?&?&?&?&?&?&?).
    rewrite decide_False by lia. rewrite u64_id by word. rewrite decide_False by tauto.
    rewrite decide_False by done. rewrite (proj2 (forallb_file_exists _ _)) by done. simpl.
    rewrite decide_False by done. rewrite bool_decide_true by done. simpl.
    by rewrite !decide_False by (done || lia).
Qed.

(** ** Properties *)

(** C33: a specification printed as a [config.ini] is read back unchanged. *)
Theorem read_print_spec (f : fs) (name : cstr) (s : MapReduceSpec) :
  printable s → read_file f name = Some (print_spec s) →
  read_mr_spec_from_config_file f name empty_spec = Ok (true, s).
Proof.
  intros Hp Hf. unfold read_mr_spec_from_config_file. rewrite Hf.
  unfold print_spec. rewrite getlines_concat by by apply spec_lines_nl.
  rewrite apply_spec_lines by done. by destruct s.
Qed.

(** Validation accepts exactly the specifications that can be run. *)
Theorem validate_mr_spec_iff (f : fs) (s : MapReduceSpec) :
  i32_range (n_workers s) →
  validate_mr_spec f s = true ↔
  (0 < n_workers s)%Z ∧ Z.of_nat (length (worker_ipaddr_ports s)) = n_workers s ∧
  input_files s ≠ [] ∧ (∀ name, name ∈ input_files s → is_Some (read_file f name)) ∧
  output_dir s ≠ [] ∧ output_dir s ∈ fs_dirs f ∧
  (0 < n_output_files s)%Z ∧ (0 < map_kilobytes s)%Z ∧ user_id s ≠ [].
Proof. apply validate_mr_spec_true. Qed.

(** ** Witnesses *)

Definition demo_config_spec : MapReduceSpec := {|
  n_workers := 2; worker_ipaddr_ports := [str "localhost:50051"; str "localhost:50052"];
  input_files := [str "input/testdata_1.txt"]; output_dir := str "output";
  n_output_files := 8; map_kilobytes := 100; user_id := str "cs6210" |}.

Definition demo_config_fs : fs :=
  FS {[ str "config.ini" := print_spec demo_config_spec;
        str "input/testdata_1.txt" := str "a b" ]} {[ str "output" ]}.

Lemma demo_config_printable : printable demo_config_spec.
Proof. split; by refine (bool_decide_unpack _ _); vm_compute. Qed.

Lemma read_print_spec_witness :
  read_mr_spec_from_config_file demo_config_fs (str "config.ini") empty_spec =
  Ok (true, demo_config_spec).
Proof. apply read_print_spec; [apply demo_config_printable|reflexivity]. Defined.

Lemma validate_mr_spec_iff_witness :
  validate_mr_spec demo_config_fs demo_config_spec = true ∧
  str "output" ∈ fs_dirs demo_config_fs.
Proof.
  split; [vm_compute; reflexivity|].
  eapply (validate_mr_spec_iff demo_config_fs demo_config_spec);
    [by refine (bool_decide_unpack _ _); vm_compute|vm_compute; reflexivity].
Defined.
