(* ===== verification/FileShard.v ===== *)
(** * Splitting the input into shards (project4/src/file_shard.h)

    A shard is a list of pieces of input files; the pieces of a file are cut
    after a newline.  [shard_files] is the double loop of the source: over the
    input files, and over what is left of a file. *)
From S2P Require Import Prelude CxxString FileSystem MRSpec.
From Stdlib Require Import Ascii.

Record FileShard := Shard {
  files : list cstr;
  offsets : list (Z * Z)  (* (start, end) offsets for each file *)
}.

Definition empty_shard : FileShard := Shard [] [].

Definition push_piece (s : FileShard) (name : cstr) (start stop : Z) : FileShard :=
  Shard (files s ++ [name]) (offsets s ++ [(start, stop)]).

(** [-1] when the file cannot be opened. *)
Definition get_file_size (f : fs) (filename : cstr) : Z :=
  match read_file f filename with
  | None => -1
  | Some text => Z.of_nat (length text)
  end.

(** The size of a piece that starts at [offset], reaches [remain_shard_size]
    bytes further and then to the end of that line; [-1] when no line starts
    there. *)
Definition get_split (f : fs) (filename : cstr) (offset remain_shard_size : Z) : Z :=
  match read_file f filename with
  | None => -1
  | Some text =>
    if decide (offset + remain_shard_size < 0)%Z then -1 else
    match getline nl (drop (Z.to_nat (offset + remain_shard_size)) text) with
    | None => -1
    | Some (line, _) => remain_shard_size + Z.of_nat (length line) + 1
    end
  end%Z.

(** The variables of [shard_files]: the shards made, the one being filled and
    the bytes it still takes. *)
Record sharder := Sharder {
  fileShards : list FileShard;
  shard : FileShard;
  remain_shard_size : Z
}.

(** The [while (file_size > 0)] loop; [None] is the end of the fuel. *)
Fixpoint shard_file (fuel : nat) (f : fs) (shard_size : Z) (name : cstr)
    (st : sharder) (file_offset file_size : Z) : option (bool * sharder) :=
  if decide (file_size ≤ 0)%Z then Some (true, st) else
  match fuel with
  | O => None
  | S fuel' =>
    if decide (file_size < remain_shard_size st)%Z then
      shard_file fuel' f shard_size name
        (Sharder (fileShards st)
           (push_piece (shard st) name file_offset (file_offset + file_size))
           (i32 (remain_shard_size st - file_size)))
        file_offset 0
    else
      let split_size := get_split f name file_offset (remain_shard_size st) in
      if decide (split_size = -1)%Z then Some (false, st) else
      shard_file fuel' f shard_size name
        (Sharder
           (fileShards st ++
              [push_piece (shard st) name file_offset (file_offset + split_size)])
           empty_shard shard_size)
        (file_offset + split_size) (file_size - split_size)
  end%Z.

(** The loop over the input files. *)
Fixpoint shard_inputs (f : fs) (shard_size : Z) (names : list cstr) (st : sharder) :
    option (bool * sharder) :=
  match names with
  | [] => Some (true, st)
  | name :: names' =>
    let file_size := get_file_size f name in
    if decide (file_size = -1)%Z then Some (false, st) else
    match shard_file (Z.to_nat file_size) f shard_size name st 0 file_size with
    | Some (true, st') => shard_inputs f shard_size names' st'
    | r => r
    end
  end.

Definition shard_files (f : fs) (mr_spec : MapReduceSpec) (out : list FileShard) :
    option (bool * list FileShard) :=
  let shard_size := i32 (map_kilobytes mr_spec * 1024) in
  match shard_inputs f shard_size (input_files mr_spec)
          (Sharder out empty_shard shard_size) with
  | Some (true, st) =>
    Some (true, if decide (0 < length (files (shard st)))
                then fileShards st ++ [shard st] else fileShards st)
  | Some (false, st) => Some (false, fileShards st)
  | None => None
  end.

(** ** The specification of a sharding *)

Definition shard_pieces (s : FileShard) : list (cstr * (Z * Z)) :=
  zip (files s) (offsets s).

Definition pieces (l : list FileShard) : list (cstr * (Z * Z)) := l ≫= shard_pieces.

(** The bytes that a shard hands to its worker. *)
Definition shard_bytes (s : FileShard) : Z :=
  foldr (λ o acc, (o.2 - o.1 + acc)%Z) 0%Z (offsets s).

(** A place where a file may be cut: its end, after a newline, or one past the
    end of a file whose last line lacks its newline. *)
Inductive cut (text : cstr) : Z → Prop :=
| cut_end : cut text (Z.of_nat (length text))
| cut_line pre suf :
    text = pre ++ nl :: suf → cut text (Z.of_nat (length pre) + 1)
| cut_unterminated :
    last text ≠ Some nl → cut text (Z.of_nat (length text) + 1).

(** The pieces tile the text from an offset to its end. *)
Inductive tiles (name text : cstr) : Z → list (cstr * (Z * Z)) → Prop :=
| tiles_nil off : (Z.of_nat (length text) ≤ off)%Z → tiles name text off []
| tiles_cons off stop ps :
    (0 ≤ off < Z.of_nat (length text))%Z → (off < stop)%Z → cut text stop →
    tiles name text stop ps →
    tiles name text off ((name, (off, stop)) :: ps).

(** A shard is well formed when its two vectors agree. *)
Definition wf_shard (s : FileShard) : Prop := length (files s) = length (offsets s).

(** The lines a worker reads from a piece, as C strings. *)
Definition piece_lines (text : cstr) (o : Z * Z) : list cstr :=
  c_str <$> getlines nl (read_at text (Z.to_nat o.1) (Z.to_nat (o.2 - o.1))).

(** ** Lemmas *)

Lemma shard_pieces_push s name a b :
  wf_shard s → shard_pieces (push_piece s name a b) = shard_pieces s ++ [(name, (a, b))].
Proof. intros H. unfold shard_pieces, push_piece. simpl. by rewrite zip_with_app. Qed.

Lemma wf_push s name a b : wf_shard s → wf_shard (push_piece s name a b).
Proof. unfold wf_shard, push_piece. simpl. rewrite !length_app. simpl. lia. Qed.

Lemma shard_bytes_push s name a b :
  shard_bytes (push_piece s name a b) = (shard_bytes s + (b - a))%Z.
Proof.
  unfold shard_bytes, push_piece. simpl. rewrite foldr_app. simpl.
  induction (offsets s); simpl; lia.
Qed.

Lemma pieces_app l1 l2 : pieces (l1 ++ l2) = pieces l1 ++ pieces l2.
Proof. apply bind_app. Qed.

Lemma pieces_singleton s : pieces [s] = shard_pieces s.
Proof. unfold pieces. simpl. apply app_nil_r. Qed.

(** What [get_split] returns inside a file. *)
Lemma get_split_spec f name text off remain :
  read_file f name = Some text → (0 ≤ off)%Z → (0 < remain)%Z →
  (off + remain ≤ Z.of_nat (length text))%Z →
  (off + remain = Z.of_nat (length text) ∧ get_split f name off remain = -1)%Z ∨
  (off + remain < Z.of_nat (length text) ∧ remain < get_split f name off remain ∧
   cut text (off + get_split f name off remain))%Z.
Proof.
  intros Hf Ho Hr Hle. unfold get_split. rewrite Hf, decide_False by lia.
  set (n := Z.to_nat (off + remain)).
  destruct (decide (off + remain = Z.of_nat (length text))%Z) as [E|E].
  - left. split; [done|]. rewrite drop_ge by (unfold n; lia). done.
  - right. assert (n < length text) as Hn by (unfold n; lia).
    pose proof (take_drop n text) as Htd.
    pose proof (until_spec nl (drop n text)) as [Hnl Hs].
    pose proof (length_take_le text n ltac:(lia)) as Hlt.
    pose proof (length_drop text n) as Hld.
    destruct (drop n text) as [|a r] eqn:Ed; [simpl in Hld; lia|].
    unfold getline. destruct (until nl (a :: r)) as [l rest] eqn:Eu. cbn [fst snd] in *.
    split; [lia|]. split; [lia|].
    replace (off + (remain + Z.of_nat (length l) + 1))%Z
      with (Z.of_nat (n + length l) + 1)%Z by (unfold n; lia).
    destruct Hs as [Hs|[Hs ->]].
    + rewrite <-Hlt at 1. rewrite <-length_app. apply (cut_line _ _ rest).
      rewrite <-app_assoc, <-Hs. done.
    + rewrite Hs in Hld, Htd. replace (n + length l) with (length text) by lia.
      apply cut_unterminated. rewrite <-Htd, last_app.
      destruct (last l) as [b|] eqn:El.
      * intros [= ->]. apply Hnl. apply last_Some in El as [l' ->]. set_solver.
      * apply last_None in El. subst l. done.
Qed.

(** Every newline-free stretch of the text is at most [L] characters long. *)
Definition lines_bounded (L : Z) (text : cstr) : Prop :=
  ∀ pre l suf, text = pre ++ l ++ suf → nl ∉ l → (Z.of_nat (length l) ≤ L)%Z.

Lemma get_split_bound f name text off remain L :
  read_file f name = Some text → lines_bounded L text →
  (get_split f name off remain ≤ Z.max (-1) (remain + L + 1))%Z.
Proof.
  intros Hf HL. unfold get_split. rewrite Hf. case_decide; [lia|].
  set (n := Z.to_nat (off + remain)). unfold getline.
  pose proof (until_spec nl (drop n text)) as [Hnl Hs].
  destruct (drop n text) as [|a r] eqn:Ed; [lia|].
  destruct (until nl (a :: r)) as [l rest] eqn:Eu. cbn [fst snd] in *.
  enough (Z.of_nat (length l) ≤ L)%Z by lia.
  destruct Hs as [Hs|[Hs ->]].
  - apply (HL (take n text) l (nl :: rest)); [|done].
    by rewrite <-Hs, <-Ed, take_drop.
  - apply (HL (take n text) l []); [|done].
    by rewrite app_nil_r, <-Hs, <-Ed, take_drop.
Qed.

(** The invariant of both loops: [sz] is the shard size, [L] a bound on the
    lines. *)
Record good (sz L : Z) (st : sharder) : Prop := {
  good_remain : (0 < remain_shard_size st ≤ sz)%Z;
  good_wf : wf_shard (shard st);
  good_bytes : shard_bytes (shard st) = (sz - remain_shard_size st)%Z;
  good_closed : Forall (λ s, wf_shard s ∧ (sz < shard_bytes s ≤ sz + L + 1)%Z) (fileShards st)
}.

Definition all_pieces (st : sharder) : list (cstr * (Z * Z)) :=
  pieces (fileShards st) ++ shard_pieces (shard st).

(** A whole remainder that fits goes to the current shard. *)
Lemma good_fits sz L st name off size :
  good sz L st → (sz < 2 ^ 31)%Z → (0 ≤ size < remain_shard_size st)%Z →
  good sz L (Sharder (fileShards st) (push_piece (shard st) name off (off + size))
               (i32 (remain_shard_size st - size))).
Proof.
  intros [] Hsz Hs. rewrite i32_id by (unfold i32_range; lia).
  split; simpl; [lia|by apply wf_push| |done].
  rewrite shard_bytes_push. lia.
Qed.

(** A cut closes the current shard. *)
Lemma good_split sz L st name off size :
  good sz L st → (0 < sz)%Z →
  (remain_shard_size st < size ≤ remain_shard_size st + L + 1)%Z →
  good sz L (Sharder (fileShards st ++ [push_piece (shard st) name off (off + size)])
               empty_shard sz).
Proof.
  intros [] Hsz Hs. split; simpl; [lia|done|unfold shard_bytes; simpl; lia|].
  apply Forall_app. split; [done|]. apply Forall_singleton.
  split; [by apply wf_push|]. rewrite shard_bytes_push. lia.
Qed.

Lemma shard_file_done fuel f sz name st off size :
  (size ≤ 0)%Z → shard_file fuel f sz name st off size = Some (true, st).
Proof. intros H. destruct fuel; cbn [shard_file]; by rewrite decide_True. Qed.

Lemma shard_file_loop fuel f sz L name text st off size :
  read_file f name = Some text → lines_bounded L text →
  (0 < sz < 2 ^ 31)%Z → good sz L st → (0 ≤ off)%Z →
  size = (Z.of_nat (length text) - off)%Z → (size ≤ Z.of_nat fuel)%Z →
  ∃ b st', shard_file fuel f sz name st off size = Some (b, st') ∧
    (b = true → good sz L st' ∧
      ∃ ps, tiles name text off ps ∧ all_pieces st' = all_pieces st ++ ps).
Proof.
  intros Hf HL Hsz. revert st off size.
  induction fuel as [|fuel IH]; intros st off size Hg Ho Hsize Hfuel; simpl.
  { rewrite decide_True by lia. exists true, st. split; [done|]. intros _. split; [done|].
    exists []. split; [constructor; lia|by rewrite app_nil_r]. }
  case_decide.
  { exists true, st. split; [done|]. intros _. split; [done|].
    exists []. split; [constructor; lia|by rewrite app_nil_r]. }
  case_decide as Hfit.
  - (* the rest of the file fits *)
    rewrite shard_file_done by lia.
    eexists true, _. split; [done|]. intros _. split; [apply good_fits; [done|lia..]|].
    exists [(name, (off, off + size)%Z)]. split.
    + constructor; [lia|lia| |constructor; lia].
      replace (off + size)%Z with (Z.of_nat (length text)) by lia. constructor.
    + unfold all_pieces. simpl. rewrite shard_pieces_push by apply Hg. by rewrite app_assoc.
  - (* a cut *)
    pose proof (get_split_bound f name text off (remain_shard_size st) L Hf HL) as Hb.
    destruct (get_split_spec f name text off (remain_shard_size st)) as [[_ ->]|(H1 & H2 & H3)];
      [done|lia|apply Hg|lia| |].
    { exists false, st. split; [done|]. done. }
    set (s := get_split f name off (remain_shard_size st)) in *.
    pose proof (good_remain _ _ _ Hg). rewrite decide_False by lia.
    edestruct (IH (Sharder (fileShards st ++ [push_piece (shard st) name off (off + s)])
                     empty_shard sz) (off + s)%Z (size - s)%Z) as (b & st' & -> & Hst');
      [apply good_split; [done|lia..]|lia..|].
    exists b, st'. split; [done|]. intros ->. destruct Hst' as [Hg' (ps & Hps & Heq)]; [done|].
    split; [done|]. exists ((name, (off, off + s)%Z) :: ps).
    split; [constructor; [lia|lia|done|done]|].
    rewrite Heq. unfold all_pieces. simpl.
    rewrite pieces_app, pieces_singleton, shard_pieces_push by apply Hg.
    rewrite app_nil_r, <-!app_assoc. done.
Qed.

Lemma shard_inputs_loop f sz L names st :
  (0 < sz < 2 ^ 31)%Z → good sz L st →
  (∀ name text, name ∈ names → read_file f name = Some text → lines_bounded L text) →
  ∃ b st', shard_inputs f sz names st = Some (b, st') ∧
    (b = true → good sz L st' ∧
      ∃ pss, Forall2 (λ name ps, ∃ text, read_file f name = Some text ∧ tiles name text 0 ps)
               names pss ∧
             all_pieces st' = all_pieces st ++ concat pss).
Proof.
  intros Hsz. revert st. induction names as [|name names IH]; intros st Hg HL; simpl.
  { exists true, st. split; [done|]. intros _. split; [done|].
    exists []. split; [constructor|by rewrite app_nil_r]. }
  unfold get_file_size. destruct (read_file f name) as [text|] eqn:Hf.
  2: { exists false, st. by rewrite decide_True. }
  rewrite decide_False by lia.
  edestruct (shard_file_loop (Z.to_nat (Z.of_nat (length text))) f sz L name text st 0
               (Z.of_nat (length text))) as (b & st' & -> & Hst');
    [done|by apply (HL name text); [left|]|done|done|lia..|].
  destruct b; [|by exists false, st'].
  destruct Hst' as [Hg' (ps & Hps & Heq)]; [done|].
  destruct (IH st' Hg') as (b & st'' & -> & Hst''); [intros; eapply HL; [by right|done]|].
  exists b, st''. split; [done|]. intros ->. destruct Hst'' as [Hg'' (pss & Hpss & Heq')]; [done|].
  split; [done|]. exists (ps :: pss). split; [constructor; eauto|].
  rewrite Heq', Heq. simpl. by rewrite app_assoc.
Qed.

(** *** Reading the pieces of a tiling *)

Lemma read_at_in text a b :
  (0 ≤ a)%Z → (a ≤ b ≤ Z.of_nat (length text))%Z →
  read_at text (Z.to_nat a) (Z.to_nat (b - a)) = take (Z.to_nat (b - a)) (drop (Z.to_nat a) text).
Proof.
  intros Ha Hb. unfold read_at.
  rewrite (proj2 (Nat.sub_0_le _ _)) by (rewrite length_take, length_drop; lia).
  apply app_nil_r.
Qed.

(** The NUL after an unterminated last line is outside its C string. *)
Lemma getlines_NUL d s :
  d ≠ NUL → s ≠ [] → last s ≠ Some d →
  c_str <$> getlines d (s ++ [NUL]) = c_str <$> getlines d s.
Proof.
  intros Hd. induction s as [|a s IH]; intros Hs Hl; [done|].
  destruct s as [|b s].
  - simpl in *. rewrite (decide_False (P := NUL = d)), !(decide_False (P := a = d)) by congruence.
    done.
  - specialize (IH ltac:(done)). rewrite last_cons_cons in Hl. specialize (IH Hl).
    change (getlines d ((a :: b :: s) ++ [NUL])) with
      (if decide (a = d) then [] :: getlines d ((b :: s) ++ [NUL])
       else match getlines d ((b :: s) ++ [NUL]) with
            | [] => [[a]] | l :: ls => (a :: l) :: ls end).
    change (getlines d (a :: b :: s)) with
      (if decide (a = d) then [] :: getlines d (b :: s)
       else match getlines d (b :: s) with
            | [] => [[a]] | l :: ls => (a :: l) :: ls end).
    case_decide; [by rewrite !fmap_cons, IH|].
    destruct (getlines d ((b :: s) ++ [NUL])), (getlines d (b :: s));
      rewrite ?fmap_cons in *; simplify_eq/=; [done|].
    case_decide; congruence.
Qed.

(** Cutting at a legal place does not change the lines that are read. *)
Lemma piece_lines_cut text off stop :
  (0 ≤ off < Z.of_nat (length text))%Z → (off < stop)%Z → cut text stop →
  piece_lines text (off, stop) ++ (c_str <$> getlines nl (drop (Z.to_nat stop) text)) =
  c_str <$> getlines nl (drop (Z.to_nat off) text).
Proof.
  intros Ho Hs Hc. unfold piece_lines. cbn [fst snd]. destruct Hc as [|pre suf Ht|Hl].
  - rewrite read_at_in by lia. rewrite take_ge by (rewrite length_drop; lia).
    rewrite (drop_ge text (Z.to_nat (Z.of_nat _))) by lia. by rewrite app_nil_r.
  - rewrite read_at_in by (subst; rewrite ?length_app; simpl; lia).
    assert (Z.to_nat off ≤ length pre) as Hop by lia.
    replace (drop (Z.to_nat off) text) with (drop (Z.to_nat off) pre ++ nl :: suf)
      by (subst; by rewrite drop_app_le).
    rewrite (cons_middle nl), app_assoc, (take_app_length').
    2: { rewrite length_app, length_drop. simpl. lia. }
    rewrite <-app_assoc. simpl. rewrite (getlines_cut _ (drop _ pre) suf), fmap_app.
    do 3 f_equal. subst text. rewrite cons_middle, app_assoc, drop_app_length'; [done|].
    rewrite length_app. simpl. lia.
  - rewrite (drop_ge text (Z.to_nat (_ + 1))) by lia. rewrite app_nil_r.
    unfold read_at. rewrite take_ge by (rewrite length_drop; lia).
    replace (Z.to_nat (Z.of_nat (length text) + 1 - off) - length (drop (Z.to_nat off) text))
      with 1 by (rewrite length_drop; lia).
    assert (drop (Z.to_nat off) text ≠ []) as Hne.
    { intros E. apply (f_equal length) in E. rewrite length_drop in E. simpl in E. lia. }
    apply getlines_NUL; [done|done|].
    rewrite <-(take_drop (Z.to_nat off) text), last_app in Hl.
    destruct (last (drop (Z.to_nat off) text)); [done|done].
Qed.

Lemma tiles_lines name text off ps :
  (0 ≤ off)%Z → tiles name text off ps →
  (ps ≫= λ p, piece_lines text p.2) = c_str <$> getlines nl (drop (Z.to_nat off) text).
Proof.
  intros Ho Ht. induction Ht as [off H|off stop ps H1 H2 H3 _ IH].
  - by rewrite drop_ge by lia.
  - rewrite bind_cons. cbn [snd]. rewrite IH by lia. by apply piece_lines_cut.
Qed.

(** The pieces of a tiling name the file they tile. *)
Lemma tiles_names name text off ps : tiles name text off ps → ∀ p, p ∈ ps → p.1 = name.
Proof. induction 1; [set_solver|]. intros p [->|]%elem_of_cons; auto. Qed.

Lemma tilings_lines f names pss :
  Forall2 (λ name ps, ∃ text, read_file f name = Some text ∧ tiles name text 0 ps) names pss →
  (concat pss ≫= λ p, piece_lines (contents f p.1) p.2) =
  names ≫= λ name, c_str <$> getlines nl (contents f name).
Proof.
  induction 1 as [|name ps names pss (text & Hf & Ht) _ IH]; simpl; [done|].
  rewrite bind_app, IH. f_equal.
  assert (contents f name = text) as -> by (unfold contents, read_file in *; by rewrite Hf).
  rewrite <-(drop_0 text) at 1. change 0 with (Z.to_nat 0).
  rewrite <-(tiles_lines name text 0 ps) by done.
  assert (∀ p, p ∈ ps → p.1 = name) as Hn by by eapply tiles_names.
  clear -Hf Hn. induction ps as [|p ps IH]; [done|]. rewrite !bind_cons.
  rewrite (Hn p) by set_solver. rewrite IH by set_solver.
  unfold contents, read_file in *. by rewrite Hf.
Qed.

(** Some bound on the lines of the input files always exists. *)
Lemma lines_bound_exists f (names : list cstr) :
  ∃ L, ∀ name text, name ∈ names → read_file f name = Some text → lines_bounded L text.
Proof.
  induction names as [|n names [L HL]]; [exists 0%Z; set_solver|].
  exists (Z.max L (Z.of_nat (length (contents f n)))).
  intros name text [->|Hin]%elem_of_cons Hr pre l suf Ht Hnl.
  - assert (length l ≤ length (contents f n)); [|lia].
    unfold contents, read_file in *. rewrite Hr. simpl. subst. rewrite !length_app. lia.
  - pose proof (HL _ _ Hin Hr pre l suf Ht Hnl). lia.
Qed.

Definition shard_size_of (s : MapReduceSpec) : Z := i32 (map_kilobytes s * 1024).

Lemma shard_size_pos s :
  (0 < map_kilobytes s < 2 ^ 21)%Z →
  shard_size_of s = (map_kilobytes s * 1024)%Z ∧ (0 < shard_size_of s < 2 ^ 31)%Z.
Proof.
  intros H. unfold shard_size_of. rewrite i32_id by (unfold i32_range; lia). lia.
Qed.

(** The state in which [shard_files] enters its loops. *)
Lemma good_start sz L : (0 < sz)%Z → good sz L (Sharder [] empty_shard sz).
Proof. intros H. split; simpl; [lia|done|unfold shard_bytes; simpl; lia|constructor]. Qed.

(** Everything the loops establish, in terms of the shards returned. *)
Lemma shard_files_loops f s L :
  (0 < map_kilobytes s < 2 ^ 21)%Z →
  (∀ name text, name ∈ input_files s → read_file f name = Some text → lines_bounded L text) →
  ∃ b shards, shard_files f s [] = Some (b, shards) ∧
    (b = true → ∃ pss,
      Forall2 (λ name ps, ∃ text, read_file f name = Some text ∧ tiles name text 0 ps)
        (input_files s) pss ∧
      pieces shards = concat pss ∧
      Forall (λ x, wf_shard x ∧ (shard_bytes x ≤ shard_size_of s + L + 1 ∨ shard_bytes x ≤ shard_size_of s)%Z) shards ∧
      ∀ l x, shards = l ++ [x] → Forall (λ y, (shard_size_of s < shard_bytes y)%Z) l).
Proof.
  intros Hkb HL. destruct (shard_size_pos s Hkb) as [_ Hsz].
  unfold shard_files. fold (shard_size_of s).
  destruct (shard_inputs_loop f (shard_size_of s) L (input_files s)
    (Sharder [] empty_shard (shard_size_of s))) as (b & st & -> & Hst);
    [done|apply good_start; lia|done|].
  destruct b; [|by eexists false, _].
  destruct Hst as [[Hr Hwf Hb Hcl] (pss & Hpss & Heq)]; [done|].
  eexists true, _. split; [done|]. intros _. exists pss. split; [done|].
  unfold all_pieces in Heq. simpl in Heq.
  assert (Forall (λ x, wf_shard x ∧ (shard_bytes x ≤ shard_size_of s + L + 1 ∨
    shard_bytes x ≤ shard_size_of s)%Z) (fileShards st)) as Hall.
  { eapply Forall_impl; [exact Hcl|]. intros x [? ?]. split; [done|lia]. }
  assert (Forall (λ y, (shard_size_of s < shard_bytes y)%Z) (fileShards st)) as Hbig.
  { eapply Forall_impl; [exact Hcl|]. intros x [? ?]. lia. }
  case_decide as Hne.
  - rewrite pieces_app, pieces_singleton. split; [done|]. split.
    + apply Forall_app. split; [done|]. apply Forall_singleton. split; [done|lia].
    + intros l x [E _]%app_inj_tail. by rewrite E in Hbig.
  - split; [|split; [done|]].
    + rewrite <-Heq. unfold shard_pieces.
      destruct (files (shard st)); simpl in *; [by rewrite app_nil_r|lia].
    + intros l x E. rewrite E in Hbig. by apply Forall_app in Hbig as [? _].
Qed.

(** ** Properties *)

(** C8: sharding terminates with an answer on every file system, since each turn of the
    inner loop consumes at least one byte of the file; and when the answer is success,
    the pieces of the shards tile every input file, in the order of the inputs: each file
    from its first to its last byte, without overlap, cut only after a newline. *)
Theorem shard_files_tile (f : fs) (s : MapReduceSpec) :
  (0 < map_kilobytes s < 2 ^ 21)%Z →
  ∃ success shards, shard_files f s [] = Some (success, shards) ∧
  (success = true → ∃ pss,
    Forall2 (λ name ps, ∃ text, read_file f name = Some text ∧ tiles name text 0 ps)
      (input_files s) pss ∧
    pieces shards = concat pss).
Proof.
  intros H. destruct (lines_bound_exists f (input_files s)) as [L HL].
  destruct (shard_files_loops f s L H HL) as (b & shards & E & Hb). exists b, shards. split; [done|].
  intros ->. destruct Hb as (pss & ? & ? & _); eauto.
Qed.


(** C32: every shard but the last is larger than [map_kilobytes] KiB, and none
    exceeds it by more than a line and its newline. *)
Theorem shard_files_sizes (f : fs) (s : MapReduceSpec) (shards : list FileShard) (L : Z) :
  (0 < map_kilobytes s < 2 ^ 21)%Z → (0 ≤ L)%Z →
  (∀ name text, name ∈ input_files s → read_file f name = Some text → lines_bounded L text) →
  shard_files f s [] = Some (true, shards) →
  Forall (λ x, (shard_bytes x ≤ map_kilobytes s * 1024 + L + 1)%Z) shards ∧
  ∀ l x, shards = l ++ [x] → Forall (λ y, (map_kilobytes s * 1024 < shard_bytes y)%Z) l.
Proof.
  intros H HL0 HL E. destruct (shard_size_pos s H) as [Hk _].
  destruct (shard_files_loops f s L H HL) as (b & shards' & E' & Hb).
  rewrite E in E'. simplify_eq. rewrite <-Hk.
  destruct Hb as (pss & _ & _ & Hall & Hbig); [done|]. split; [|done].
  eapply Forall_impl; [exact Hall|]. intros x [_ ?]. lia.
Qed.

(** A file that ends exactly where a shard is full is refused: no line
    starts there, [get_split] reports a failure and the whole sharding fails,
    although the specification is valid and every input can be read. *)
Theorem shard_files_exact_fit (f : fs) (s : MapReduceSpec) (name text : cstr) :
  (0 < map_kilobytes s < 2 ^ 21)%Z → input_files s = [name] →
  read_file f name = Some text → Z.of_nat (length text) = (map_kilobytes s * 1024)%Z →
  shard_files f s [] = Some (false, []).
Proof.
  intros H Hi Hf Hlen. destruct (shard_size_pos s H) as [Hk Hsz].
  unfold shard_files. fold (shard_size_of s). rewrite Hi. cbn [shard_inputs].
  unfold get_file_size. rewrite Hf, decide_False by lia.
  destruct (Z.to_nat (Z.of_nat (length text))) as [|fuel] eqn:Efuel; [lia|].
  cbn [shard_file]. rewrite decide_False, decide_False by (simpl; lia). cbn [remain_shard_size].
  destruct (get_split_spec f name text 0 (shard_size_of s)) as [[_ ->]|(?&_)];
    [done|lia..| |lia].
  done.
Qed.

(** ** Witnesses *)

Lemma lines_bounded_length text : lines_bounded (Z.of_nat (length text)) text.
Proof. intros pre l suf -> _. rewrite !length_app. lia. Qed.

(** A file of 100 lines of 12 characters, and one of exactly 1024. *)
Definition demo_text : cstr := concat (replicate 100 (str "hello world" ++ [nl])).
Definition demo_full : cstr := replicate 1023 "x"%char ++ [nl].

Definition demo_fs : fs :=
  FS {[ str "in1" := demo_text; str "in2" := demo_full ]} {[ str "output" ]}.

Definition demo_spec (inputs : list cstr) : MapReduceSpec := {|
  n_workers := 1; worker_ipaddr_ports := [str "localhost:50051"]; input_files := inputs;
  output_dir := str "output"; n_output_files := 2; map_kilobytes := 1; user_id := str "cs6210" |}.

Definition demo_shards : list FileShard :=
  from_option snd [] (shard_files demo_fs (demo_spec [str "in1"]) []).

Lemma demo_shards_eq :
  shard_files demo_fs (demo_spec [str "in1"]) [] = Some (true, demo_shards).
Proof. vm_compute. reflexivity. Qed.

Lemma demo_bounded name text :
  name ∈ input_files (demo_spec [str "in1"]) → read_file demo_fs name = Some text →
  lines_bounded 1200 text.
Proof.
  intros H E. cbn [input_files demo_spec] in H. apply list_elem_of_singleton in H. subst name.
  assert (text = demo_text) as ->.
  { change (read_file demo_fs (str "in1")) with (Some demo_text) in E. congruence. }
  replace 1200%Z with (Z.of_nat (length demo_text)) by (vm_compute; reflexivity).
  apply lines_bounded_length.
Qed.

Lemma shard_files_tile_witness :
  length demo_shards = 2 ∧ ∃ pss,
    Forall2 (λ name ps, ∃ text, read_file demo_fs name = Some text ∧ tiles name text 0 ps)
      [str "in1"] pss ∧
    pieces demo_shards = concat pss.
Proof.
  split; [vm_compute; reflexivity|].
  destruct (shard_files_tile demo_fs (demo_spec [str "in1"])) as (b & shards & E & H); [simpl; lia|].
  rewrite demo_shards_eq in E. injection E as <- <-. by apply H.
Defined.


Lemma shard_files_sizes_witness :
  Forall (λ x, (shard_bytes x ≤ 1 * 1024 + 1200 + 1)%Z) demo_shards ∧
  ∀ l x, demo_shards = l ++ [x] → Forall (λ y, (1 * 1024 < shard_bytes y)%Z) l.
Proof.
  apply (shard_files_sizes demo_fs (demo_spec [str "in1"]));
    [simpl; lia|lia|apply demo_bounded|apply demo_shards_eq].
Defined.

Lemma shard_files_exact_fit_witness :
  validate_mr_spec demo_fs (demo_spec [str "in2"]) = true ∧
  shard_files demo_fs (demo_spec [str "in2"]) [] = Some (false, []).
Proof.
  split; [vm_compute; reflexivity|].
  apply (shard_files_exact_fit _ _ (str "in2") demo_full);
    [simpl; lia|reflexivity|reflexivity|vm_compute; reflexivity].
Defined.
