(* ===== verification/MRTasks.v ===== *)
(** * The output of map and reduce tasks (project4/src/mr_tasks.h, mr_tasks.cc)

    [BaseMapperInternal] buffers the pairs a mapper emits and dumps them into
    one intermediate file per partition; [BaseReducerInternal] appends to the
    output file at once. *)
From S2P Require Import Prelude CxxString FileSystem.
From Stdlib Require Import Ascii.

Record BaseMapperInternal := Mapper {
  num_partitions : Z;
  intermediate_files : list cstr;
  key_value_pairs : list (cstr * cstr)
}.

Definition KeyValuePairDumpThreshold : nat := 1000.

(** [intermediate_file << k << ", " << v << std::endl] *)
Definition pair_line (kv : cstr * cstr) : cstr := kv.1 ++ str ", " ++ kv.2 ++ [nl].

Section tasks.
(** [std::hash<std::string>], whose values the standard leaves open. *)
Context (hash : cstr → Z).

(** [std::hash<std::string>{}(k) % num_partitions], on [size_t]; the division
    by zero is undefined. *)
Definition partition_of (n : Z) (k : cstr) : res nat :=
  if decide (u64 n = 0)%Z then Err Undefined
  else Ok (Z.to_nat (u64 (hash k) `mod` u64 n)).

Definition dump_pair (m : BaseMapperInternal) (f : fs) (kv : cstr * cstr) : res fs :=
  h ← partition_of (num_partitions m) kv.1;
  filename ← get (intermediate_files m) h;
  mret (append_file f filename (pair_line kv)).

Definition dump (f : fs) (m : BaseMapperInternal) : res (fs * BaseMapperInternal) :=
  f' ← mfoldl (dump_pair m) f (key_value_pairs m);
  mret (f', Mapper (num_partitions m) (intermediate_files m) []).

Definition emit (fm : fs * BaseMapperInternal) (kv : cstr * cstr) :
    res (fs * BaseMapperInternal) :=
  let '(f, m) := fm in
  '(f, m) ← (if decide (KeyValuePairDumpThreshold ≤ length (key_value_pairs m))
             then dump f m else mret (f, m));
  mret (f, Mapper (num_partitions m) (intermediate_files m) (key_value_pairs m ++ [kv])).

(** The reducer's output is not buffered. *)
Definition reducer_line (kv : cstr * cstr) : cstr := kv.1 ++ str " " ++ kv.2 ++ [nl].

Definition reducer_emit (filename : cstr) (f : fs) (kv : cstr * cstr) : fs :=
  append_file f filename (reducer_line kv).

(** ** The specification: a partitioned log *)

(** The partition of a key, where it is defined. *)
Definition bucket (n : Z) (k : cstr) : nat := Z.to_nat (u64 (hash k) `mod` u64 n).

(** Pairs appended to their files one by one, without a buffer. *)
Definition log_pair (n : Z) (names : list cstr) (f : fs) (kv : cstr * cstr) : fs :=
  match names !! bucket n kv.1 with
  | Some p => append_file f p (pair_line kv)
  | None => f
  end.

Definition log_pairs (n : Z) (names : list cstr) (f : fs) (kvs : list (cstr * cstr)) : fs :=
  foldl (log_pair n names) f kvs.

(** The mapper that [handle_map_job] sets up: one file per partition. *)
Record wf_mapper (m : BaseMapperInternal) : Prop := {
  wfm_range : (0 < num_partitions m < 2 ^ 31)%Z;
  wfm_files : Z.of_nat (length (intermediate_files m)) = num_partitions m;
  wfm_buffer : length (key_value_pairs m) ≤ KeyValuePairDumpThreshold
}.

(** ** Lemmas *)

Lemma bucket_lt n k : (0 < n < 2 ^ 31)%Z → (Z.of_nat (bucket n k) < n)%Z.
Proof.
  intros H. unfold bucket. rewrite (u64_id n) by lia.
  pose proof (Z.mod_pos_bound (u64 (hash k)) n ltac:(lia)). lia.
Qed.

Lemma partition_of_ok n k : (0 < n < 2 ^ 31)%Z → partition_of n k = Ok (bucket n k).
Proof. intros H. unfold partition_of, bucket. rewrite decide_False; [done|]. rewrite u64_id; lia. Qed.

Lemma dump_pair_ok m f kv :
  wf_mapper m →
  dump_pair m f kv = Ok (log_pair (num_partitions m) (intermediate_files m) f kv).
Proof.
  intros [Hr Hl Hb]. unfold dump_pair, log_pair, get.
  rewrite partition_of_ok by done. cbn.
  pose proof (bucket_lt (num_partitions m) kv.1 Hr).
  destruct (lookup_lt_is_Some_2 (intermediate_files m) (bucket (num_partitions m) kv.1))
    as [p ->]; [lia|done].
Qed.

Lemma dump_ok f m :
  wf_mapper m →
  dump f m = Ok (log_pairs (num_partitions m) (intermediate_files m) f (key_value_pairs m),
                 Mapper (num_partitions m) (intermediate_files m) []).
Proof.
  intros H. unfold dump.
  rewrite (mfoldl_ok _ (log_pair (num_partitions m) (intermediate_files m))); [done|].
  intros. by apply dump_pair_ok.
Qed.

Lemma emit_ok n names f b kv :
  wf_mapper (Mapper n names b) →
  emit (f, Mapper n names b) kv =
    (if decide (KeyValuePairDumpThreshold ≤ length b)
     then Ok (log_pairs n names f b, Mapper n names [kv])
     else Ok (f, Mapper n names (b ++ [kv]))).
Proof. intros H. unfold emit. cbn [key_value_pairs]. case_decide; [|done]. by rewrite dump_ok. Qed.

Lemma emit_wf n names f b kv f' m' :
  wf_mapper (Mapper n names b) → emit (f, Mapper n names b) kv = Ok (f', m') → wf_mapper m'.
Proof.
  intros H E. rewrite emit_ok in E by done. destruct H as [Hr Hl Hb]. cbn in Hr, Hl, Hb.
  case_decide; simplify_eq; split; cbn [num_partitions intermediate_files key_value_pairs];
    try done; unfold KeyValuePairDumpThreshold in *; rewrite ?length_app; simpl; lia.
Qed.

(** The pairs already in the files and those in the buffer are one log. *)
Lemma emits_ok n names f b kvs :
  wf_mapper (Mapper n names b) →
  ∃ f' b', mfoldl emit (f, Mapper n names b) kvs = Ok (f', Mapper n names b') ∧
    wf_mapper (Mapper n names b') ∧
    log_pairs n names f' b' = log_pairs n names f (b ++ kvs).
Proof.
  revert f b. induction kvs as [|kv kvs IH]; intros f b H; cbn [mfoldl].
  { exists f, b. by rewrite app_nil_r. }
  pose proof (emit_ok n names f b kv H) as E. pose proof (emit_wf n names f b kv) as Hwf.
  rewrite E in *. case_decide; cbn [mbind res_bind].
  - destruct (IH (log_pairs n names f b) [kv]) as (f' & b' & E' & Hwf' & Hlog); [by eauto|].
    exists f', b'. split; [done|]. split; [done|]. rewrite Hlog. symmetry. apply foldl_app.
  - destruct (IH f (b ++ [kv])) as (f' & b' & E' & Hwf' & Hlog); [by eauto|].
    exists f', b'. split; [done|]. split; [done|]. by rewrite Hlog, <-app_assoc.
Qed.

Lemma log_pairs_app n names f l1 l2 :
  log_pairs n names f (l1 ++ l2) = log_pairs n names (log_pairs n names f l1) l2.
Proof. apply foldl_app. Qed.

Lemma log_pair_writable n names f kv p :
  writable f p = true → writable (log_pair n names f kv) p = true.
Proof. intros H. unfold log_pair. case_match; auto with fs. Qed.

Lemma log_pairs_writable n names f kvs p :
  writable f p = true → writable (log_pairs n names f kvs) p = true.
Proof.
  revert f. induction kvs as [|kv kvs IH]; intros f H; [done|].
  apply IH. by apply log_pair_writable.
Qed.

(** The pairs of a partition, in the order in which they were emitted. *)
Definition bucket_pairs (n : Z) (i : nat) (kvs : list (cstr * cstr)) : list (cstr * cstr) :=
  filter (λ kv, bucket n kv.1 = i) kvs.

Lemma log_pairs_contents n names f kvs i p :
  NoDup names → names !! i = Some p → writable f p = true →
  contents (log_pairs n names f kvs) p =
  contents f p ++ concat (pair_line <$> bucket_pairs n i kvs).
Proof.
  intros Hnd Hp. revert f. induction kvs as [|kv kvs IH]; intros f Hw.
  { simpl. by rewrite app_nil_r. }
  change (log_pairs n names f (kv :: kvs)) with (log_pairs n names (log_pair n names f kv) kvs).
  rewrite IH by by apply log_pair_writable.
  unfold bucket_pairs. rewrite filter_cons. unfold log_pair.
  case_decide as Hi.
  - rewrite Hi, Hp, contents_append_same by done. rewrite fmap_cons. simpl.
    by rewrite <-app_assoc.
  - destruct (names !! bucket n kv.1) as [q|] eqn:Hq; [|done].
    rewrite contents_append_other; [done|]. intros ->.
    apply Hi. by eapply NoDup_lookup.
Qed.

(** A path outside the intermediate files is not touched. *)
Lemma log_pairs_other n names f kvs q :
  q ∉ names → read_file (log_pairs n names f kvs) q = read_file f q.
Proof.
  intros Hq. revert f. induction kvs as [|kv kvs IH]; intros f; [done|].
  change (log_pairs n names f (kv :: kvs)) with (log_pairs n names (log_pair n names f kv) kvs).
  rewrite IH. unfold log_pair. destruct (names !! _) as [p|] eqn:E; [|done].
  apply read_append_other. intros ->. apply list_elem_of_lookup_2 in E. done.
Qed.

Lemma log_pairs_dirs n names f kvs : fs_dirs (log_pairs n names f kvs) = fs_dirs f.
Proof.
  revert f. induction kvs as [|kv kvs IH]; intros f; [done|].
  change (log_pairs n names f (kv :: kvs)) with (log_pairs n names (log_pair n names f kv) kvs).
  rewrite IH. unfold log_pair. case_match; [|done]. by autorewrite with fs.
Qed.

(** ** Properties *)

(** C31: buffering is invisible: any sequence of [emit]s followed by the final
    [dump] never fails and leaves each pair in the file of its partition,
    exactly as writing the pairs one by one would, whatever the number of
    intermediate dumps. *)
Theorem emits_then_dump (m : BaseMapperInternal) (f : fs) (kvs : list (cstr * cstr)) :
  wf_mapper m → key_value_pairs m = [] →
  ('(f', m') ← mfoldl emit (f, m) kvs; dump f' m') =
  Ok (log_pairs (num_partitions m) (intermediate_files m) f kvs, m).
Proof.
  destruct m as [n names b]. cbn. intros Hwf ->.
  destruct (emits_ok n names f [] kvs Hwf) as (f' & b' & -> & Hwf' & Hlog).
  cbn [mbind res_bind]. rewrite dump_ok by done.
  cbn [num_partitions intermediate_files key_value_pairs]. by rewrite Hlog.
Qed.

(** Any sequence of [emit]s succeeds, keeps the partitions, and never
    leaves more than [KeyValuePairDumpThreshold] pairs in the buffer. *)
Theorem emits_buffer_bound (m : BaseMapperInternal) (f : fs) (kvs : list (cstr * cstr)) :
  wf_mapper m →
  ∃ f' m', mfoldl emit (f, m) kvs = Ok (f', m') ∧
    num_partitions m' = num_partitions m ∧
    intermediate_files m' = intermediate_files m ∧
    length (key_value_pairs m') ≤ KeyValuePairDumpThreshold.
Proof.
  destruct m as [n names b]. intros H.
  destruct (emits_ok n names f b kvs H) as (f' & b' & -> & [? ? ?] & _).
  by exists f', (Mapper n names b').
Qed.
End tasks.

(** ** Witnesses *)

(** A hash for the examples: the length of the key. *)
Definition demo_hash (k : cstr) : Z := Z.of_nat (length k).

Definition demo_mapper : BaseMapperInternal :=
  Mapper 2 [str "intermediate/0_50051.txt"; str "intermediate/1_50051.txt"] [].

Definition demo_pairs : list (cstr * cstr) :=
  [(str "a", str "1"); (str "bc", str "1"); (str "a", str "1")].

Lemma demo_mapper_wf : wf_mapper demo_mapper.
Proof. split; cbn; [lia|done|lia]. Qed.

Lemma emits_then_dump_witness :
  ('(f', m') ← mfoldl (emit demo_hash) (FS ∅ {[ str "intermediate" ]}, demo_mapper) demo_pairs;
   dump demo_hash f' m') =
  Ok (log_pairs demo_hash 2 (intermediate_files demo_mapper)
        (FS ∅ {[ str "intermediate" ]}) demo_pairs, demo_mapper).
Proof. apply (emits_then_dump demo_hash demo_mapper); [apply demo_mapper_wf|reflexivity]. Defined.

Lemma emits_buffer_bound_witness :
  ∃ f' m', mfoldl (emit demo_hash) (FS ∅ ∅, demo_mapper) demo_pairs = Ok (f', m') ∧
    num_partitions m' = 2%Z ∧
    intermediate_files m' = intermediate_files demo_mapper ∧
    length (key_value_pairs m') ≤ KeyValuePairDumpThreshold.
Proof. apply (emits_buffer_bound demo_hash demo_mapper). apply demo_mapper_wf. Defined.
