(* ===== verification/TaskFactory.v ===== *)
(** * The registry of user tasks (project4/src/mr_task_factory.cc)

    Two maps from a user id to the functions that make mappers and reducers.
    The types of what is registered are parameters: WorkerRequest.v takes the user's
    functions, TaskObjects.v generators of objects. *)
From S2P Require Import Prelude CxxString.

Section factory.
Context {M R : Type}.

(** The singleton; [M] and [R] stand for what the generators make. *)
Record TaskFactory := Factory { mappers_ : gmap cstr M; reducers_ : gmap cstr R }.

Definition instance0 : TaskFactory := Factory ∅ ∅.

(** [std::unordered_map::insert]: an existing key keeps its value, and the
    result says whether the pair was inserted. *)
Definition map_insert {V} (m : gmap cstr V) (k : cstr) (v : V) : gmap cstr V * bool :=
  match m !! k with Some _ => (m, false) | None => (<[k := v]> m, true) end.

Definition get_mapper (t : TaskFactory) (user_id : cstr) : option M := mappers_ t !! user_id.

Definition get_reducer (t : TaskFactory) (user_id : cstr) : option R := reducers_ t !! user_id.

(** [&&] evaluates the second insertion only after a first that succeeded. *)
Definition register_tasks (t : TaskFactory) (user_id : cstr) (gm : M) (gr : R) :
    TaskFactory * bool :=
  let '(ms, b1) := map_insert (mappers_ t) user_id gm in
  if b1 then
    let '(rs, b2) := map_insert (reducers_ t) user_id gr in (Factory ms rs, b2)
  else (Factory ms (reducers_ t), false).

(** Registrations made one after the other, from an empty factory. *)
Definition register_all (l : list (cstr * M * R)) : TaskFactory :=
  foldl (λ t '(u, m, r), (register_tasks t u m r).1) instance0 l.

(** Mappers and reducers are registered together. *)
Definition paired (t : TaskFactory) : Prop := dom (mappers_ t) = dom (reducers_ t).

Lemma register_paired t u gm gr : paired t → paired (register_tasks t u gm gr).1.
Proof.
  unfold paired, register_tasks, map_insert. intros H.
  destruct (mappers_ t !! u) eqn:E1; simpl; [done|].
  assert (reducers_ t !! u = None) as ->.
  { apply not_elem_of_dom. rewrite <-H. by apply not_elem_of_dom. }
  simpl. rewrite !dom_insert_L. by rewrite H.
Qed.

Lemma register_all_snoc l u m r :
  register_all (l ++ [(u, m, r)]) = (register_tasks (register_all l) u m r).1.
Proof. unfold register_all. by rewrite foldl_app. Qed.

Lemma register_all_paired l : paired (register_all l).
Proof.
  induction l as [|[[u m] r] l IH] using rev_ind; [done|].
  rewrite register_all_snoc. by apply register_paired.
Qed.

Lemma register_lookup t u gm gr v :
  paired t →
  get_mapper (register_tasks t u gm gr).1 v =
    (if decide (u = v) then Some (default gm (get_mapper t u)) else get_mapper t v) ∧
  get_reducer (register_tasks t u gm gr).1 v =
    (if decide (u = v) then Some (default gr (get_reducer t u)) else get_reducer t v).
Proof.
  unfold paired, get_mapper, get_reducer, register_tasks, map_insert. intros H.
  destruct (mappers_ t !! u) eqn:E1; simpl.
  - assert (is_Some (reducers_ t !! u)) as [r Hr].
    { apply elem_of_dom. rewrite <-H. apply elem_of_dom. eauto. }
    rewrite Hr. simpl. case_decide; subst; auto.
  - assert (reducers_ t !! u = None) as Hr.
    { apply not_elem_of_dom. rewrite <-H. by apply not_elem_of_dom. }
    rewrite Hr. simpl. rewrite !lookup_insert. by case_decide.
Qed.

(** The first registration of an id, if there is one. *)
Definition first_of (l : list (cstr * M * R)) (u : cstr) : option (M * R) :=
  (λ '(_, m, r), (m, r)) <$> head (filter (λ x, x.1.1 = u) l).

Lemma first_of_snoc l u m r v :
  first_of (l ++ [(u, m, r)]) v =
  match first_of l v with
  | Some x => Some x
  | None => if decide (u = v) then Some (m, r) else None
  end.
Proof.
  unfold first_of. rewrite filter_app, filter_cons, filter_nil. simpl.
  destruct (filter _ l) as [|[[? ?] ?] ?]; simpl; [|done].
  by case_decide.
Qed.

(** ** Properties *)

(** The factory returns the tasks of the first registration of a user id;
    later registrations of the same id are refused and change nothing. *)
Theorem factory_first_wins (l : list (cstr * M * R)) (u : cstr) :
  get_mapper (register_all l) u = fst <$> first_of l u ∧
  get_reducer (register_all l) u = snd <$> first_of l u ∧
  ∀ m r, (register_tasks (register_all l) u m r).2 = bool_decide (first_of l u = None).
Proof.
  assert (∀ v, get_mapper (register_all l) v = fst <$> first_of l v ∧
               get_reducer (register_all l) v = snd <$> first_of l v) as Hget.
  { induction l as [|[[u' m] r] l IH] using rev_ind; intros v; [done|].
    rewrite register_all_snoc, first_of_snoc.
    destruct (register_lookup (register_all l) u' m r v) as [-> ->];
      [apply register_all_paired|].
    destruct (IH v) as [Hm Hr], (IH u') as [Hm' Hr'].
    case_decide as Hv; [subst v|by rewrite Hm, Hr; destruct (first_of l v)].
    rewrite Hm', Hr'. by destruct (first_of l u') as [[]|]. }
  destruct (Hget u) as [Hm Hr]. split; [done|]. split; [done|].
  intros m r. unfold register_tasks, map_insert, get_mapper, get_reducer in *.
  rewrite Hm. destruct (first_of l u) as [[? ?]|]; simpl in *; [done|]. by rewrite Hr.
Qed.
End factory.

Arguments TaskFactory : clear implicits.
