(* ===== verification/UserTasks.v ===== *)
(** * The word-count tasks (project4/test/user_tasks.cc)

    [UserMapper] emits ["1"] for every token of a line, [UserReducer] adds the
    values of a key. *)
From S2P Require Import Prelude CxxString.
From Stdlib Require Import Ascii.

(** The delimiters: space, comma, full stop, double quote, apostrophe. *)
Definition delims : list ascii := [" "; ","; "."; chr 34; "'"]%char.

Definition is_delim (a : ascii) : bool := bool_decide (a ∈ delims).

Fixpoint skip_delims (s : cstr) : cstr :=
  match s with
  | a :: s' => if is_delim a then skip_delims s' else s
  | [] => []
  end.

Fixpoint take_token (s : cstr) : cstr * cstr :=
  match s with
  | [] => ([], [])
  | a :: s' => if is_delim a then ([], s') else let '(t, r) := take_token s' in (a :: t, r)
  end.

(** One call of [strtok_r]: the next token and what is left, or the null
    pointer. *)
Definition strtok_r (s : cstr) : option (cstr * cstr) :=
  match skip_delims s with [] => None | s' => Some (take_token s') end.

(** The tokens that the loop [while (start != nullptr)] sees. *)
Fixpoint tokens (s : cstr) : list cstr :=
  match s with
  | [] => []
  | a :: s' =>
    if is_delim a then tokens s'
    else match s' with
         | [] => [[a]]
         | b :: _ => if is_delim b then [a] :: tokens s'
                     else match tokens s' with [] => [[a]] | t :: ts => (a :: t) :: ts end
         end
  end.

(** [UserMapper::map]: the pairs emitted for a line. *)
Definition user_map (input_line : cstr) : list (cstr * cstr) :=
  (λ t, (t, str "1")) <$> tokens (c_str input_line).

(** [std::accumulate(counts.begin(), counts.end(), 0)] on [int]. *)
Definition accumulate (counts : list Z) : Z := foldl (λ a c, i32 (a + c)) 0%Z counts.

(** [UserReducer::reduce]: the pair emitted for a key. *)
Definition user_reduce (key : cstr) (values : list cstr) : list (cstr * cstr) :=
  [(key, to_string (accumulate (atoi <$> values)))].

(** ** Lemmas *)

(** [tokens] is the loop over [strtok_r]. *)
Lemma tokens_unfold s :
  tokens s = match strtok_r s with None => [] | Some (t, r) => t :: tokens r end.
Proof.
  unfold strtok_r. induction s as [|a s IH]; [done|].
  cbn [tokens skip_delims]. destruct (is_delim a) eqn:Ea; [done|].
  cbn [take_token]. rewrite Ea. destruct s as [|b s]; [done|].
  destruct (is_delim b) eqn:Eb.
  - cbn [take_token tokens]. by rewrite Eb.
  - cbn [skip_delims] in IH. rewrite Eb in IH. rewrite IH.
    by destruct (take_token (b :: s)).
Qed.

Lemma take_token_chars s : Forall (λ a, is_delim a = false ∧ a ∈ s) (take_token s).1.
Proof.
  induction s as [|a s IH]; cbn; [constructor|].
  destruct (is_delim a) eqn:E; [constructor|].
  destruct (take_token s) as [t r]. cbn in *. constructor; [split; [done|left]|].
  eapply Forall_impl; [exact IH|]. intros b [? ?]. split; [done|by right].
Qed.

(** A token is not empty, and its characters are characters of the line that
    are no delimiters. *)
Lemma tokens_chars s t : t ∈ tokens s → t ≠ [] ∧ Forall (λ a, is_delim a = false ∧ a ∈ s) t.
Proof.
  revert t. induction s as [|a s IH]; intros t Ht; [by apply elem_of_nil in Ht|].
  assert (∀ u, Forall (λ b, is_delim b = false ∧ b ∈ s) u →
               Forall (λ b, is_delim b = false ∧ b ∈ a :: s) u) as Hw.
  { intros u Hu. eapply Forall_impl; [exact Hu|]. intros b [? ?]. split; [done|by right]. }
  cbn [tokens] in Ht. destruct (is_delim a) eqn:Ea.
  { destruct (IH t Ht). auto. }
  assert (is_delim a = false ∧ a ∈ a :: s) as Ha by (split; [done|left]).
  destruct s as [|b s].
  { apply list_elem_of_singleton in Ht as ->. split; [done|]. by apply Forall_singleton. }
  destruct (is_delim b) eqn:Eb.
  - apply elem_of_cons in Ht as [->|Ht]; [split; [done|by apply Forall_singleton]|].
    destruct (IH t Ht). auto.
  - destruct (tokens (b :: s)) as [|u us] eqn:E.
    + apply list_elem_of_singleton in Ht as ->. split; [done|]. by apply Forall_singleton.
    + apply elem_of_cons in Ht as [->|Ht].
      * destruct (IH u) as [_ Hu]; [left|]. split; [done|]. constructor; auto.
      * destruct (IH t) as [? Hu]; [by right|]. auto.
Qed.

Lemma delim_notin a t : is_delim a = true → Forall (λ b, is_delim b = false) t → a ∉ t.
Proof. intros Ha Ht Hin. rewrite Forall_forall in Ht. specialize (Ht a Hin). congruence. Qed.

(** A sum of ones that fits an [int]. *)
Lemma accumulate_ones n :
  (Z.of_nat n < 2 ^ 31)%Z → accumulate (replicate n 1%Z) = Z.of_nat n.
Proof.
  intros Hn. unfold accumulate.
  assert (∀ k a, (0 ≤ a)%Z → (a + Z.of_nat k < 2 ^ 31)%Z →
    foldl (λ a c, i32 (a + c)) a (replicate k 1%Z) = (a + Z.of_nat k)%Z) as H.
  { induction k as [|k IH]; intros a Ha Hk; simpl; [lia|].
    rewrite i32_id by (unfold i32_range; lia). rewrite IH by lia. lia. }
  by rewrite H by lia.
Qed.

Lemma atoi_one : atoi (str "1") = 1%Z.
Proof. reflexivity. Qed.

Lemma user_reduce_ones key n :
  (Z.of_nat n < 2 ^ 31)%Z →
  user_reduce key (replicate n (str "1")) = [(key, to_string (Z.of_nat n))].
Proof.
  intros Hn. unfold user_reduce. rewrite fmap_replicate, atoi_one.
  by rewrite accumulate_ones.
Qed.
