(* ===== verification/WorkerRequest.v ===== *)
(** * The jobs of a worker (project4/src/worker_request.cc)

    [handle_map_job] reads the pieces of a shard and runs the user's mapper on
    their lines; [handle_reduce_job] collects the pairs of a partition and runs
    the user's reducer on every key, in the order of [std::map]. *)
From S2P Require Import Prelude CxxString FileSystem FileShard MRTasks TaskFactory.
From Stdlib Require Import Ascii.

(** ** Messages (masterworker.proto) *)

Record ShardPartition := Partition { sp_filename : cstr; sp_start : Z; sp_end : Z }.

Record MapQuery := {
  mq_user_id : cstr;
  mq_n_partitions : Z;
  mq_partitions : list ShardPartition
}.

Record ReduceQuery := {
  rq_user_id : cstr;
  rq_files : list cstr;
  rq_partition_id : Z;
  rq_output_dir : cstr
}.

(** The user's tasks, as far as the framework sees them: the pairs emitted for
    a line, and for a key with its values. *)
Abbreviation MapFn := (cstr → list (cstr * cstr)).
Abbreviation ReduceFn := (cstr → list cstr → list (cstr * cstr)).

(** Dereferencing the null pointer of an unknown user id is undefined. *)
Definition deref {A} (o : option A) : res A :=
  match o with Some a => Ok a | None => Err Undefined end.

(** ["intermediate/" + std::to_string(i) + "_" + worker_ip_addr_ + ".txt"] *)
Definition intermediate_name (port : cstr) (i : nat) : cstr :=
  str "intermediate/" ++ to_string (Z.of_nat i) ++ str "_" ++ port ++ str ".txt".

Definition intermediate_names (port : cstr) (n : Z) : list cstr :=
  intermediate_name port <$> range 0 (Z.to_nat n).

(** [output_dir + "/" + std::to_string(partition_id)] *)
Definition output_name (dir : cstr) (id : Z) : cstr := dir ++ str "/" ++ to_string id.

Section worker.
Context (hash : cstr → Z) (factory : TaskFactory MapFn ReduceFn).

(** ** Map *)

Definition map_line (mapper : MapFn) (fm : fs * BaseMapperInternal) (line : cstr) :
    res (fs * BaseMapperInternal) :=
  mfoldl (emit hash) fm (mapper line).

(** The buffer is filled as far as the file goes; a file that cannot be opened
    or a negative offset leaves it all NUL. *)
Definition partition_buffer (f : fs) (p : ShardPartition) : res cstr :=
  let partition_size := i32 (sp_end p - sp_start p) in
  if decide (partition_size < 0)%Z then Err (Throw length_error)
  else Ok (read_at (if decide (0 ≤ sp_start p)%Z then contents f (sp_filename p) else [])
             (Z.to_nat (sp_start p)) (Z.to_nat partition_size)).

Definition map_partition (mapper : MapFn) (fm : fs * BaseMapperInternal)
    (p : ShardPartition) : res (fs * BaseMapperInternal) :=
  buffer ← partition_buffer fm.1 p;
  mfoldl (map_line mapper) fm (getlines nl buffer).

Definition handle_map_job (f : fs) (worker_ip_addr_ : cstr) (request : MapQuery) :
    res (fs * list cstr) :=
  mapper ← deref (get_mapper factory (mq_user_id request));
  let names := intermediate_names worker_ip_addr_ (mq_n_partitions request) in
  fm ← mfoldl (map_partition mapper) (f, Mapper (mq_n_partitions request) names [])
         (mq_partitions request);
  fm' ← dump hash fm.1 fm.2;
  mret (fm'.1, names).

(** ** Reduce *)

(** One line of an intermediate file: the key precedes the first comma, the
    value starts two characters after it. *)
Definition parse_pair (line : cstr) : res (cstr * cstr) :=
  let pos := find_int ","%char line in
  key ← substr line 0 pos;
  value ← substr line (pos + 2) npos;
  mret (key, value).

Definition push_value (m : gmap cstr (list cstr)) (kv : cstr * cstr) : gmap cstr (list cstr) :=
  <[kv.1 := default [] (m !! kv.1) ++ [kv.2]]> m.

Definition reduce_line (m : gmap cstr (list cstr)) (line : cstr) :
    res (gmap cstr (list cstr)) :=
  kv ← parse_pair line; mret (push_value m kv).

(** A file that cannot be opened is reported and skipped. *)
Definition reduce_file (f : fs) (m : gmap cstr (list cstr)) (name : cstr) :
    res (gmap cstr (list cstr)) :=
  match read_file f name with
  | None => mret m
  | Some text => mfoldl reduce_line m (getlines nl text)
  end.

Definition key_le (x y : cstr * list cstr) : Prop := str_le x.1 y.1.

#[global] Instance key_le_dec x y : Decision (key_le x y).
Proof. unfold key_le. apply _. Defined.

(** The entries of a [std::map], in the order of its iterators. *)
Definition sorted_entries (m : gmap cstr (list cstr)) : list (cstr * list cstr) :=
  merge_sort key_le (map_to_list m).

Definition handle_reduce_job (f : fs) (query : ReduceQuery) : res (fs * cstr) :=
  reducer ← deref (get_reducer factory (rq_user_id query));
  let output_file := output_name (rq_output_dir query) (rq_partition_id query) in
  word2values ← mfoldl (reduce_file f) ∅ (rq_files query);
  let f' := foldl (λ f kv, foldl (reducer_emit output_file) f (reducer kv.1 kv.2))
              f (sorted_entries word2values) in
  mret (f', output_file).

(** ** Specifications *)

(** The piece as a pair of offsets, as the sharding made it. *)
Definition partition_of_piece (p : cstr * (Z * Z)) : ShardPartition :=
  Partition p.1 p.2.1 p.2.2.

(** The lines of the pieces of a query. *)
Definition query_lines (f : fs) (ps : list ShardPartition) : list cstr :=
  ps ≫= λ p, getlines nl (read_at (contents f (sp_filename p)) (Z.to_nat (sp_start p))
                            (Z.to_nat (sp_end p - sp_start p))).

(** A piece that fits the types on the way: a start and a size of an [int]. *)
Definition wf_partition (p : ShardPartition) : Prop :=
  (0 ≤ sp_start p ≤ sp_end p)%Z ∧ (sp_end p - sp_start p < 2 ^ 31)%Z.

(** A pair whose key and value survive the intermediate format. *)
Definition clean_pair (kv : cstr * cstr) : Prop :=
  (","%char ∉ kv.1) ∧ (nl ∉ kv.1) ∧ (nl ∉ kv.2) ∧
  (Z.of_nat (length (pair_line kv)) < 2 ^ 31)%Z.

(** The values of a key, in order. *)
Definition values_of (kvs : list (cstr * cstr)) (k : cstr) : list cstr :=
  snd <$> filter (λ kv, kv.1 = k) kvs.

(** Grouping without a map: the sorted distinct keys with their values. *)
Definition group (kvs : list (cstr * cstr)) : list (cstr * list cstr) :=
  (λ k, (k, values_of kvs k)) <$> merge_sort str_le (remove_dups (fst <$> kvs)).

(** ** Lemmas *)

Lemma intermediate_name_inj port i j :
  intermediate_name port i = intermediate_name port j → i = j.
Proof.
  unfold intermediate_name. rewrite !(assoc_L (++)). intros H.
  do 3 (apply (inj (.++ _)) in H). apply (inj (str "intermediate/" ++.)) in H.
  apply to_string_inj in H. lia.
Qed.

Lemma intermediate_names_lookup port n i :
  i < Z.to_nat n → intermediate_names port n !! i = Some (intermediate_name port i).
Proof.
  intros H. unfold intermediate_names, range. rewrite list_lookup_fmap, lookup_seq_lt by lia. done.
Qed.

Lemma intermediate_names_NoDup port n : NoDup (intermediate_names port n).
Proof.
  apply NoDup_fmap_2_strong; [|apply NoDup_seq].
  intros i j _ _ H. by eapply intermediate_name_inj.
Qed.

Lemma intermediate_names_length port n :
  (0 ≤ n)%Z → Z.of_nat (length (intermediate_names port n)) = n.
Proof. intros H. unfold intermediate_names, range. rewrite length_fmap, length_seq. lia. Qed.

(** *** Parsing what was written *)

Lemma parse_pair_line kv :
  ","%char ∉ kv.1 → (Z.of_nat (length (pair_line kv)) < 2 ^ 31)%Z →
  parse_pair (kv.1 ++ str ", " ++ kv.2) = Ok kv.
Proof.
  destruct kv as [k v]. unfold pair_line. cbn [fst snd]. intros Hk Hl.
  change (str ", ") with [","%char; " "%char] in *.
  rewrite !length_app in Hl. simpl in Hl.
  unfold parse_pair, find_int. cbn [app].
  rewrite find_char_app by done. rewrite i32_id by (unfold i32_range; lia).
  rewrite substr_prefix by (rewrite ?length_app; simpl; lia).
  replace (Z.of_nat (length k) + 2)%Z with (Z.of_nat (length k + 2)) by lia.
  rewrite substr_suffix by (rewrite ?length_app; simpl; lia).
  cbn. rewrite take_app_length. repeat f_equal.
  change (k ++ ","%char :: " "%char :: v) with (k ++ [","; " "]%char ++ v).
  rewrite (assoc_L (++)), drop_app_length'; [done|]. rewrite length_app. simpl. lia.
Qed.

Lemma reduce_line_pair m kv :
  clean_pair kv → reduce_line m (kv.1 ++ str ", " ++ kv.2) = Ok (push_value m kv).
Proof using. intros (?&_&_&?). unfold reduce_line. by rewrite parse_pair_line. Qed.

(** The text of a list of pairs is read back as these pairs. *)
Lemma reduce_lines_pairs m kvs :
  Forall clean_pair kvs →
  mfoldl reduce_line m (getlines nl (concat (pair_line <$> kvs))) =
  Ok (foldl push_value m kvs).
Proof using.
  intros H.
  assert (pair_line <$> kvs = (λ l, l ++ [nl]) <$> ((λ kv, kv.1 ++ str ", " ++ kv.2) <$> kvs)) as ->.
  { rewrite <-list_fmap_compose. apply list_fmap_ext. intros i kv _. unfold pair_line, compose.
    by rewrite <-!(assoc_L (++)). }
  rewrite getlines_concat.
  2: { intros l (kv & -> & Hin)%list_elem_of_fmap. rewrite Forall_forall in H.
       destruct (H kv Hin) as (_&Hk&Hv&_). rewrite !elem_of_app.
       intros [?|[?|?]]; [done| |done]. revert H0. chars. }
  revert m. induction H as [|kv kvs Hc _ IH]; intros m; [done|].
  rewrite fmap_cons. cbn [mfoldl]. rewrite reduce_line_pair by done.
  cbn [mbind res_bind]. by rewrite IH.
Qed.

Lemma push_values_lookup m kvs k :
  foldl push_value m kvs !! k =
  match values_of kvs k with
  | [] => m !! k
  | vs => Some (default [] (m !! k) ++ vs)
  end.
Proof using.
  revert m. induction kvs as [|[k' v] kvs IH]; intros m; [done|].
  cbn [foldl]. rewrite IH. unfold values_of. rewrite filter_cons. cbn [fst].
  unfold push_value. cbn [fst snd]. case_decide as Hk.
  - subst. rewrite fmap_cons, lookup_insert_eq. cbn [snd default from_option].
    destruct (snd <$> _); [done|]. unfold id. by rewrite <-app_assoc.
  - by rewrite lookup_insert_ne.
Qed.

Lemma elem_of_values_of kvs k v : v ∈ values_of kvs k ↔ (k, v) ∈ kvs.
Proof using.
  unfold values_of. rewrite list_elem_of_fmap. split.
  - intros ([k' v'] & -> & [Hk Hin]%list_elem_of_filter). simpl in *. by subst.
  - intros Hin. exists (k, v). by rewrite list_elem_of_filter.
Qed.

Lemma values_of_nil kvs k : values_of kvs k = [] ↔ k ∉ kvs.*1.
Proof using.
  split.
  - intros Hf ([k' v] & -> & Hin)%list_elem_of_fmap.
    apply elem_of_values_of in Hin. simpl in Hf. rewrite Hf in Hin. by apply elem_of_nil in Hin.
  - intros Hn. apply elem_of_nil_inv. intros v Hin%elem_of_values_of.
    apply Hn. apply list_elem_of_fmap. by exists (k, v).
Qed.

(** The map that the reading loop builds is the grouping of the pairs. *)
Lemma group_NoDup kvs : NoDup (group kvs).*1.
Proof using.
  unfold group. rewrite <-list_fmap_compose. unfold compose. cbn [fst]. rewrite list_fmap_id.
  rewrite merge_sort_Permutation. apply NoDup_remove_dups.
Qed.

Lemma elem_of_group kvs k vs :
  (k, vs) ∈ group kvs ↔ k ∈ kvs.*1 ∧ vs = values_of kvs k.
Proof using.
  clear hash factory.
  unfold group. rewrite list_elem_of_fmap. setoid_rewrite merge_sort_Permutation.
  setoid_rewrite elem_of_remove_dups. naive_solver.
Qed.

Lemma sorted_entries_group kvs :
  sorted_entries (foldl push_value ∅ kvs) = group kvs.
Proof using.
  clear hash factory.
  set (m := foldl push_value ∅ kvs).
  assert (∀ k vs, (k, vs) ∈ map_to_list m ↔ (k, vs) ∈ group kvs) as Hin.
  { intros k vs. rewrite elem_of_map_to_list, elem_of_group. unfold m.
    rewrite push_values_lookup, lookup_empty.
    destruct (values_of kvs k) eqn:E; simpl.
    - split; [done|]. intros [? _]. by apply values_of_nil in E.
    - split; [|naive_solver]. intros [= <-]. split; [|done].
      destruct (decide (k ∈ kvs.*1)) as [|Hk]; [done|]. apply values_of_nil in Hk. congruence. }
  assert (map_to_list m ≡ₚ group kvs) as Hp.
  { apply NoDup_Permutation.
    - apply NoDup_map_to_list.
    - eapply NoDup_fmap_1, group_NoDup.
    - intros [k vs]. apply Hin. }
  unfold sorted_entries.
  apply (StronglySorted_unique_strong key_le).
  - intros [k1 v1] [k2 v2] H1 H2 H12 H21. unfold key_le in *. simpl in *.
    assert (k1 = k2) as -> by by apply (anti_symm str_le).
    rewrite merge_sort_Permutation in H1. rewrite Hp in H1.
    apply elem_of_group in H1 as [_ ->], H2 as [_ ->]. done.
  - apply StronglySorted_merge_sort.
    + intros [] [] [] H1 H2. unfold key_le in *. by etrans.
    + intros [] []. unfold key_le. apply str_le_total.
  - unfold group. apply (StronglySorted_fmap _ str_le); [done|].
    apply StronglySorted_merge_sort; apply _.
  - by rewrite merge_sort_Permutation.
Qed.

(** *** The map job *)

Lemma map_lines_emits mapper fm lines :
  mfoldl (map_line mapper) fm lines = mfoldl (emit hash) fm (lines ≫= mapper).
Proof.
  revert fm. induction lines as [|l lines IH]; intros fm; [done|].
  rewrite bind_cons, mfoldl_app. cbn [mfoldl].
  change (map_line mapper fm l) with (mfoldl (emit hash) fm (mapper l)).
  destruct (mfoldl (emit hash) fm (mapper l)); cbn [mbind res_bind]; [apply IH|done].
Qed.

Lemma partition_buffer_ok f p :
  wf_partition p →
  partition_buffer f p =
  Ok (read_at (contents f (sp_filename p)) (Z.to_nat (sp_start p))
        (Z.to_nat (sp_end p - sp_start p))).
Proof.
  intros [H1 H2]. unfold partition_buffer. rewrite i32_id by (unfold i32_range; lia).
  by rewrite decide_False, decide_True by lia.
Qed.

Lemma query_lines_cons f p ps : query_lines f (p :: ps) = query_lines f [p] ++ query_lines f ps.
Proof. unfold query_lines. rewrite !bind_cons. simpl. by rewrite app_nil_r. Qed.

Lemma query_lines_ext f f' ps :
  (∀ p, p ∈ ps → contents f' (sp_filename p) = contents f (sp_filename p)) →
  query_lines f' ps = query_lines f ps.
Proof.
  intros H. induction ps as [|p ps IH]; [done|].
  rewrite (query_lines_cons f'), (query_lines_cons f). rewrite IH by set_solver.
  f_equal. unfold query_lines. simpl. by rewrite H by set_solver.
Qed.

(** Emitting never changes a file that is no intermediate file. *)
Lemma emits_read n names f b kvs f' b' q :
  log_pairs hash n names f' b' = log_pairs hash n names f (b ++ kvs) →
  q ∉ names → read_file f' q = read_file f q.
Proof.
  intros H Hq. rewrite <-(log_pairs_other hash n names f' b' q Hq), H.
  by apply log_pairs_other.
Qed.

Lemma map_partition_ok mapper f m p :
  wf_partition p →
  map_partition mapper (f, m) p = mfoldl (emit hash) (f, m) (query_lines f [p] ≫= mapper).
Proof.
  intros Hp. unfold map_partition. cbn [fst]. rewrite partition_buffer_ok by done.
  cbn [mbind res_bind]. rewrite map_lines_emits. unfold query_lines. simpl.
  by rewrite app_nil_r.
Qed.

Lemma map_partitions_ok mapper n names f b ps :
  wf_mapper (Mapper n names b) → Forall wf_partition ps →
  (∀ p, p ∈ ps → sp_filename p ∉ names) →
  ∃ f' b', mfoldl (map_partition mapper) (f, Mapper n names b) ps =
             Ok (f', Mapper n names b') ∧
    wf_mapper (Mapper n names b') ∧
    log_pairs hash n names f' b' =
    log_pairs hash n names f (b ++ (query_lines f ps ≫= mapper)).
Proof.
  revert f b. induction ps as [|p ps IH]; intros f b Hwf Hps Hn; cbn [mfoldl].
  { exists f, b. rewrite app_nil_r. done. }
  apply Forall_cons in Hps as [Hp Hps]. rewrite map_partition_ok by done.
  set (kvs := query_lines f [p] ≫= mapper).
  destruct (emits_ok hash n names f b kvs Hwf) as (f1 & b1 & -> & Hwf1 & Hlog1).
  cbn [mbind res_bind].
  destruct (IH f1 b1) as (f2 & b2 & -> & Hwf2 & Hlog2); [done|done|set_solver|].
  exists f2, b2. split; [done|]. split; [done|]. rewrite Hlog2.
  rewrite (query_lines_ext f f1).
  2: { intros q Hq. unfold contents. change (fs_files f1 !! sp_filename q) with (read_file f1 (sp_filename q)).
       rewrite (emits_read _ _ _ _ _ _ _ _ Hlog1); [done|]. apply Hn. by right. }
  rewrite log_pairs_app, Hlog1, <-log_pairs_app. rewrite <-app_assoc. do 2 f_equal.
  by rewrite query_lines_cons, bind_app.
Qed.

(** *** The reduce job *)

Lemma reduce_files_pairs f m names kvss :
  Forall2 (λ name kvs, Forall clean_pair kvs ∧
    (read_file f name = Some (concat (pair_line <$> kvs)) ∨
     read_file f name = None ∧ kvs = [])) names kvss →
  mfoldl (reduce_file f) m names = Ok (foldl push_value m (concat kvss)).
Proof using.
  intros H. revert m. induction H as [|name kvs names kvss [Hc Hr] _ IH]; intros m; [done|].
  cbn [mfoldl concat]. rewrite foldl_app.
  assert (reduce_file f m name = Ok (foldl push_value m kvs)) as ->.
  { unfold reduce_file. destruct Hr as [->|[-> ->]]; [by apply reduce_lines_pairs|done]. }
  cbn [mbind res_bind]. apply IH.
Qed.

Lemma foldl_foldl_bind {A B C} (g : A → C → A) (h : B → list C) a l :
  foldl (λ a x, foldl g a (h x)) a l = foldl g a (l ≫= h).
Proof.
  revert a. induction l as [|x l IH]; intros a; [done|].
  rewrite bind_cons, foldl_app. simpl. apply IH.
Qed.

Lemma reducer_emits_contents out f kvs :
  writable f out = true →
  contents (foldl (reducer_emit out) f kvs) out =
  contents f out ++ concat (reducer_line <$> kvs).
Proof.
  revert f. induction kvs as [|kv kvs IH]; intros f H; simpl; [by rewrite app_nil_r|].
  rewrite IH by (unfold reducer_emit; auto with fs). unfold reducer_emit.
  rewrite contents_append_same by done. by rewrite <-app_assoc.
Qed.

Lemma reducer_emits_read out f kvs p :
  p ≠ out → read_file (foldl (reducer_emit out) f kvs) p = read_file f p.
Proof.
  intros Hp. revert f. induction kvs as [|kv kvs IH]; intros f; [done|].
  simpl. rewrite IH. unfold reducer_emit. by apply read_append_other.
Qed.

Lemma reducer_emits_writable out f kvs p :
  writable f p = true → writable (foldl (reducer_emit out) f kvs) p = true.
Proof.
  revert f. induction kvs as [|kv kvs IH]; intros f H; [done|].
  simpl. apply IH. unfold reducer_emit. auto with fs.
Qed.

Lemma map_job_ok (f : fs) (port : cstr) (q : MapQuery) (mapper : MapFn) :
  get_mapper factory (mq_user_id q) = Some mapper →
  (0 < mq_n_partitions q < 2 ^ 31)%Z →
  Forall wf_partition (mq_partitions q) →
  (∀ p, p ∈ mq_partitions q →
    sp_filename p ∉ intermediate_names port (mq_n_partitions q)) →
  let names := intermediate_names port (mq_n_partitions q) in
  handle_map_job f port q =
  Ok (log_pairs hash (mq_n_partitions q) names f (query_lines f (mq_partitions q) ≫= mapper),
      names).
Proof.
  intros Hm Hn Hps Hin names. unfold handle_map_job. rewrite Hm. cbn [deref mbind res_bind].
  fold names.
  assert (wf_mapper (Mapper (mq_n_partitions q) names [])) as Hwf.
  { split; cbn [num_partitions intermediate_files key_value_pairs].
    - done.
    - apply intermediate_names_length. lia.
    - simpl. lia. }
  destruct (map_partitions_ok mapper _ names f [] (mq_partitions q) Hwf Hps Hin)
    as (f' & b' & -> & Hwf' & Hlog).
  cbn [mbind res_bind fst snd]. rewrite dump_ok by done.
  cbn [mbind res_bind fst snd num_partitions intermediate_files key_value_pairs].
  by rewrite Hlog.
Qed.

Lemma reduce_job_ok (f : fs) (q : ReduceQuery) (reducer : ReduceFn)
    (kvss : list (list (cstr * cstr))) :
  get_reducer factory (rq_user_id q) = Some reducer →
  Forall2 (λ name kvs, Forall clean_pair kvs ∧
    (read_file f name = Some (concat (pair_line <$> kvs)) ∨
     read_file f name = None ∧ kvs = [])) (rq_files q) kvss →
  let out := output_name (rq_output_dir q) (rq_partition_id q) in
  handle_reduce_job f q =
  Ok (foldl (reducer_emit out) f (group (concat kvss) ≫= λ kv, reducer kv.1 kv.2), out).
Proof using factory.
  intros Hr Hfiles out. unfold handle_reduce_job. rewrite Hr. cbn [deref mbind res_bind].
  rewrite (reduce_files_pairs f ∅ _ _ Hfiles). cbn [mbind res_bind].
  rewrite sorted_entries_group. fold out. unfold mret, res_ret.
  by rewrite foldl_foldl_bind.
Qed.

(** ** Properties *)

(** C9: a map job on pieces of input files succeeds and appends, to the file of
    each partition, the pairs that the user's mapper emits for the lines of
    the pieces, in order; it names these files in its answer. *)
Theorem handle_map_job_spec (f : fs) (port : cstr) (q : MapQuery) (mapper : MapFn) :
  get_mapper factory (mq_user_id q) = Some mapper →
  (0 < mq_n_partitions q < 2 ^ 31)%Z →
  Forall wf_partition (mq_partitions q) →
  (∀ p, p ∈ mq_partitions q →
    sp_filename p ∉ intermediate_names port (mq_n_partitions q)) →
  let names := intermediate_names port (mq_n_partitions q) in
  handle_map_job f port q =
  Ok (log_pairs hash (mq_n_partitions q) names f (query_lines f (mq_partitions q) ≫= mapper),
      names).
Proof. apply map_job_ok. Qed.

(** C10: a reduce job calls the user's reducer once for every distinct key of
    its files, in ascending order of the keys, with all the values of the key,
    and appends what it emits to the output file; files that do not exist are
    skipped. *)
Theorem handle_reduce_job_spec (f : fs) (q : ReduceQuery) (reducer : ReduceFn)
    (kvss : list (list (cstr * cstr))) :
  get_reducer factory (rq_user_id q) = Some reducer →
  Forall2 (λ name kvs, Forall clean_pair kvs ∧
    (read_file f name = Some (concat (pair_line <$> kvs)) ∨
     read_file f name = None ∧ kvs = [])) (rq_files q) kvss →
  let out := output_name (rq_output_dir q) (rq_partition_id q) in
  handle_reduce_job f q =
  Ok (foldl (reducer_emit out) f (group (concat kvss) ≫= λ kv, reducer kv.1 kv.2), out).
Proof using factory. apply reduce_job_ok. Qed.
End worker.

(** ** Witnesses *)

(** A mapper that emits its line, a reducer that counts the values. *)
Definition demo_factory : TaskFactory MapFn ReduceFn :=
  (register_tasks instance0 (str "u") (λ l, [(c_str l, str "1")])
     (λ k vs, [(k, to_string (Z.of_nat (length vs)))])).1.

Definition demo_worker_fs : fs :=
  FS {[ str "in" := str "a" ++ [nl] ++ str "b" ++ [nl] ++ str "a" ++ [nl];
        str "intermediate/1_50051.txt" :=
          str "a, 1" ++ [nl] ++ str "b, 1" ++ [nl] ++ str "a, 1" ++ [nl] ]}
     {[ str "intermediate"; str "out" ]}.

Definition demo_map_query : MapQuery := {|
  mq_user_id := str "u"; mq_n_partitions := 2; mq_partitions := [Partition (str "in") 0 6] |}.

Definition demo_reduce_query : ReduceQuery := {|
  rq_user_id := str "u"; rq_files := [str "intermediate/1_50051.txt"; str "missing"];
  rq_partition_id := 1; rq_output_dir := str "out" |}.

Lemma handle_map_job_spec_witness :
  let names := intermediate_names (str "50051") 2 in
  handle_map_job demo_hash demo_factory demo_worker_fs (str "50051") demo_map_query =
  Ok (log_pairs demo_hash 2 names demo_worker_fs
        (query_lines demo_worker_fs [Partition (str "in") 0 6] ≫= λ l, [(c_str l, str "1")]), names).
Proof.
  apply (handle_map_job_spec demo_hash demo_factory demo_worker_fs (str "50051") demo_map_query).
  - reflexivity.
  - simpl. lia.
  - apply Forall_singleton. unfold wf_partition. simpl. lia.
  - intros p Hp. apply list_elem_of_singleton in Hp as ->. chars.
Defined.

Lemma handle_reduce_job_spec_witness :
  handle_reduce_job demo_factory demo_worker_fs demo_reduce_query =
  Ok (foldl (reducer_emit (str "out/1")) demo_worker_fs [(str "a", str "2"); (str "b", str "1")],
      str "out/1").
Proof.
  apply (handle_reduce_job_spec demo_factory demo_worker_fs demo_reduce_query
    (λ k vs, [(k, to_string (Z.of_nat (length vs)))])
    [[(str "a", str "1"); (str "b", str "1"); (str "a", str "1")]; []]); [reflexivity|].
  constructor; [split; [|by left; vm_compute]|constructor; [split; [|by right]|constructor]].
  - repeat constructor; by try chars.
  - constructor.
Defined.
