(* ===== verification/TaskObjects.v ===== *)
(** * The objects of the user's tasks (project4/src/mr_task_factory.cc, worker.h)

    WorkerRequest.v gives a job its buffer as a value.  The program has objects: a
    generator of the factory makes a new task for every job, whose base class allocates
    the internals that [impl_] points to; [emit] goes through that pointer, and the worker
    reaches the same internals as a friend.  Here the jobs run on a store of internals,
    and this refines the jobs on values.  The internals are never deleted. *)
From S2P Require Import Prelude CxxString FileSystem MRTasks TaskFactory WorkerRequest.

Record BaseReducerInternal := ReducerInternal { filename : cstr }.

(** What [new] has allocated, in order; a pointer is a position. *)
Record heap := Heap { mapper_impls : list BaseMapperInternal; reducer_impls : list BaseReducerInternal }.

(** An object of the user's class: its virtual function, as the pairs that it emits, and
    the pointer of its base. *)
Record BaseMapper := MapperObject { map_pairs : MapFn; mapper_impl_ : nat }.
Record BaseReducer := ReducerObject { reduce_pairs : ReduceFn; reducer_impl_ : nat }.

(** [std::function<std::shared_ptr<BaseMapper>()>] and its like. *)
Abbreviation MapperGenerator := (heap → BaseMapper * heap).
Abbreviation ReducerGenerator := (heap → BaseReducer * heap).

(** [TaskFactory::instance]: the static pointer is set by the first call. *)
Definition instance (static : option (TaskFactory MapperGenerator ReducerGenerator)) :
    TaskFactory MapperGenerator ReducerGenerator :=
  match static with Some factory => factory | None => instance0 end.

Section objects.
(** [int num_partitions] has no initialiser: its first value is any. *)
Context (indeterminate : Z).

(** [BaseMapper::BaseMapper], under [new UserMapper]. *)
Definition new_mapper (map_pairs : MapFn) : MapperGenerator := λ h,
  (MapperObject map_pairs (length (mapper_impls h)),
   Heap (mapper_impls h ++ [Mapper indeterminate [] []]) (reducer_impls h)).

Definition new_reducer (reduce_pairs : ReduceFn) : ReducerGenerator := λ h,
  (ReducerObject reduce_pairs (length (reducer_impls h)),
   Heap (mapper_impls h) (reducer_impls h ++ [ReducerInternal []])).

(** [~BaseMapper() {}], when the last [shared_ptr] goes: [impl_] is not deleted. *)
Definition delete_mapper (o : BaseMapper) (h : heap) : heap := h.
Definition delete_reducer (o : BaseReducer) (h : heap) : heap := h.

Definition get_base_mapper_internal (o : BaseMapper) : nat := mapper_impl_ o.
Definition get_base_reducer_internal (o : BaseReducer) : nat := reducer_impl_ o.

(** [*impl = m] *)
Definition store_mapper (impl : nat) (m : BaseMapperInternal) (h : heap) : res heap :=
  impls ← put (mapper_impls h) impl m; mret (Heap impls (reducer_impls h)).

Definition store_reducer (impl : nat) (r : BaseReducerInternal) (h : heap) : res heap :=
  impls ← put (reducer_impls h) impl r; mret (Heap (mapper_impls h) impls).

Section worker.
Context (hash : cstr → Z) (static : option (TaskFactory MapperGenerator ReducerGenerator)).

(** [BaseMapper::emit] *)
Definition base_mapper_emit (o : BaseMapper) (s : fs * heap) (kv : cstr * cstr) : res (fs * heap) :=
  let '(f, h) := s in
  m ← get (mapper_impls h) (mapper_impl_ o);
  '(f, m) ← emit hash (f, m) kv;
  h ← store_mapper (mapper_impl_ o) m h;
  mret (f, h).

(** [BaseReducer::emit] *)
Definition base_reducer_emit (o : BaseReducer) (s : fs * heap) (kv : cstr * cstr) : res (fs * heap) :=
  let '(f, h) := s in
  r ← get (reducer_impls h) (reducer_impl_ o);
  mret (reducer_emit (filename r) f kv, h).

(** [TaskFactory::get_mapper] calls the generator that it finds. *)
Definition get_mapper_from_task_factory (user_id : cstr) (h : heap) : option BaseMapper * heap :=
  match get_mapper (instance static) user_id with
  | Some generate => let '(o, h) := generate h in (Some o, h)
  | None => (None, h)
  end.

Definition get_reducer_from_task_factory (user_id : cstr) (h : heap) : option BaseReducer * heap :=
  match get_reducer (instance static) user_id with
  | Some generate => let '(o, h) := generate h in (Some o, h)
  | None => (None, h)
  end.

(** [mapper->map(line)] *)
Definition object_map (o : BaseMapper) (s : fs * heap) (line : cstr) : res (fs * heap) :=
  mfoldl (base_mapper_emit o) s (map_pairs o line).

Definition object_map_partition (o : BaseMapper) (s : fs * heap) (p : ShardPartition) : res (fs * heap) :=
  buffer ← partition_buffer (fst s) p;
  mfoldl (object_map o) s (getlines nl buffer).

(** [base_mapper->dump()] *)
Definition object_dump (base_mapper : nat) (s : fs * heap) : res (fs * heap) :=
  let '(f, h) := s in
  m ← get (mapper_impls h) base_mapper;
  '(f, m) ← dump hash f m;
  h ← store_mapper base_mapper m h;
  mret (f, h).

(** [MapRequest::handle_map_job] *)
Definition object_map_job (s : fs * heap) (worker_ip_addr_ : cstr) (request : MapQuery) :
    res (fs * heap * list cstr) :=
  let '(f, h) := s in
  let '(mapper, h) := get_mapper_from_task_factory (mq_user_id request) h in
  mapper ← deref mapper;
  let base_mapper := get_base_mapper_internal mapper in
  m ← get (mapper_impls h) base_mapper;
  let names := intermediate_names worker_ip_addr_ (mq_n_partitions request) in
  h ← store_mapper base_mapper (Mapper (mq_n_partitions request) names (key_value_pairs m)) h;
  s ← mfoldl (object_map_partition mapper) (f, h) (mq_partitions request);
  '(f, h) ← object_dump base_mapper s;
  mret (f, delete_mapper mapper h, names).

(** [ReduceRequest::handle_reduce_job] *)
Definition object_reduce_job (s : fs * heap) (query : ReduceQuery) : res (fs * heap * cstr) :=
  let '(f, h) := s in
  let '(reducer, h) := get_reducer_from_task_factory (rq_user_id query) h in
  reducer ← deref reducer;
  let output_file := output_name (rq_output_dir query) (rq_partition_id query) in
  h ← store_reducer (get_base_reducer_internal reducer) (ReducerInternal output_file) h;
  word2values ← mfoldl (reduce_file f) ∅ (rq_files query);
  '(f, h) ← mfoldl (λ s kv, mfoldl (base_reducer_emit reducer) s (reduce_pairs reducer (fst kv) (snd kv)))
              (f, h) (sorted_entries word2values);
  mret (f, delete_reducer reducer h, output_file).
End worker.
End objects.

(** ** The registry of the program *)

(** [user_tasks.cc] registers functions that make new objects of its classes. *)
Definition generators (indeterminate : Z) (tasks : TaskFactory MapFn ReduceFn) : TaskFactory MapperGenerator ReducerGenerator :=
  Factory (new_mapper indeterminate <$> mappers_ tasks) (new_reducer <$> reducers_ tasks).

(** ** A worker's jobs, one after the other *)

Inductive job := Map_job (request : MapQuery) | Reduce_job (query : ReduceQuery).

Section jobs.
Context (hash : cstr → Z) (worker_ip_addr_ : cstr) (tasks : TaskFactory MapFn ReduceFn) (indeterminate : Z).

(** A job on values, with the files that its reply names. *)
Definition value_job (s : fs * list (list cstr)) (j : job) : res (fs * list (list cstr)) :=
  let '(f, replies) := s in
  match j with
  | Map_job q => '(f, names) ← handle_map_job hash tasks f worker_ip_addr_ q; mret (f, replies ++ [names])
  | Reduce_job q => '(f, name) ← handle_reduce_job tasks f q; mret (f, replies ++ [[name]])
  end.

(** The same job on objects. *)
Definition object_job (s : fs * heap * list (list cstr)) (j : job) : res (fs * heap * list (list cstr)) :=
  let '(f, h, replies) := s in
  let static := Some (generators indeterminate tasks) in
  match j with
  | Map_job q => '(f, h, names) ← object_map_job hash static (f, h) worker_ip_addr_ q; mret (f, h, replies ++ [names])
  | Reduce_job q => '(f, h, name) ← object_reduce_job static (f, h) q; mret (f, h, replies ++ [[name]])
  end.

(** *** Lemmas *)

(** [e] after a computation. *)
Definition lift {A B} (e : A → B) (r : res A) : res B := a ← r; Ok (e a).

(** A loop on embedded states, whose body does what the body on the states does. *)
Lemma mfoldl_embed {A A' B} (e : A → A') (f : A → B → res A) (g : A' → B → res A') a l :
  (∀ a x, g (e a) x = lift e (f a x)) → mfoldl g (e a) l = lift e (mfoldl f a l).
Proof using.
  intros H. revert a. induction l as [|x l IH]; intros a; [done|]. cbn. rewrite H.
  destruct (f a x) as [a'|]; [apply IH|done].
Qed.

(** The internals of the job's task are the last ones. *)
Definition with_mapper (h : heap) (s : fs * BaseMapperInternal) : fs * heap :=
  (fst s, Heap (mapper_impls h ++ [snd s]) (reducer_impls h)).

Definition with_reducer (h : heap) (name : cstr) (f : fs) : fs * heap :=
  (f, Heap (mapper_impls h) (reducer_impls h ++ [ReducerInternal name])).

Lemma get_last {A} (l : list A) x : get (l ++ [x]) (length l) = Ok x.
Proof using. unfold get. by rewrite list_lookup_middle. Qed.

Lemma put_last {A} (l : list A) x y : put (l ++ [x]) (length l) y = Ok (l ++ [y]).
Proof using.
  unfold put. rewrite decide_True by (rewrite length_app; cbn; lia). f_equal.
  rewrite insert_app_r_alt, Nat.sub_diag by lia. done.
Qed.

Context (h : heap).

Lemma emit_embed map_pairs s kv :
  base_mapper_emit hash (MapperObject map_pairs (length (mapper_impls h))) (with_mapper h s) kv =
  lift (with_mapper h) (emit hash s kv).
Proof using.
  destruct s as [f m]. unfold base_mapper_emit, with_mapper, store_mapper. cbn [fst snd mapper_impls mapper_impl_ reducer_impls].
  rewrite get_last. cbn [mbind res_bind]. destruct (emit hash (f, m) kv) as [[f' m']|]; [|done]. cbn. by rewrite put_last.
Qed.

Lemma map_embed map_pairs s line :
  object_map hash (MapperObject map_pairs (length (mapper_impls h))) (with_mapper h s) line =
  lift (with_mapper h) (map_line hash map_pairs s line).
Proof using. unfold object_map, map_line. apply mfoldl_embed. intros. apply emit_embed. Qed.

Lemma map_partition_embed map_pairs s p :
  object_map_partition hash (MapperObject map_pairs (length (mapper_impls h))) (with_mapper h s) p =
  lift (with_mapper h) (map_partition hash map_pairs s p).
Proof using.
  unfold object_map_partition, map_partition. cbn [with_mapper fst]. destruct (partition_buffer _ p); [|done]. cbn.
  apply mfoldl_embed. intros. apply map_embed.
Qed.

Lemma dump_embed s :
  object_dump hash (length (mapper_impls h)) (with_mapper h s) = lift (with_mapper h) (dump hash (fst s) (snd s)).
Proof using.
  destruct s as [f m]. unfold object_dump, with_mapper, store_mapper. cbn [fst snd mapper_impls reducer_impls].
  rewrite get_last. cbn [mbind res_bind]. destruct (dump hash f m) as [[f' m']|]; [|done]. cbn. by rewrite put_last.
Qed.

Lemma reducer_emit_embed reduce_pairs name f kv :
  base_reducer_emit (ReducerObject reduce_pairs (length (reducer_impls h))) (with_reducer h name f) kv =
  lift (with_reducer h name) (Ok (reducer_emit name f kv)).
Proof using. unfold base_reducer_emit, with_reducer. cbn [reducer_impls reducer_impl_]. by rewrite get_last. Qed.

(** What a mapper holds when its job has ended: the buffer is empty. *)
Definition used_mapper (q : MapQuery) : BaseMapperInternal :=
  Mapper (mq_n_partitions q) (intermediate_names worker_ip_addr_ (mq_n_partitions q)) [].

Lemma dump_leaves f m f' m' : dump hash f m = Ok (f', m') → m' = Mapper (num_partitions m) (intermediate_files m) [].
Proof using. unfold dump. destruct (mfoldl _ _ _); [|done]. cbn. by intros [= _ <-]. Qed.

Lemma emit_leaves f m kv f' m' :
  emit hash (f, m) kv = Ok (f', m') → num_partitions m' = num_partitions m ∧ intermediate_files m' = intermediate_files m.
Proof using.
  unfold emit. case_decide; cbn.
  - destruct (dump hash f m) as [[f1 m1]|] eqn:E; [|done]. cbn. intros [= _ <-]. by rewrite (dump_leaves _ _ _ _ E).
  - by intros [= _ <-].
Qed.

(** The jobs only read what the mapper was given. *)
Lemma partitions_leave map_pairs f m ps f' m' :
  mfoldl (map_partition hash map_pairs) (f, m) ps = Ok (f', m') →
  num_partitions m' = num_partitions m ∧ intermediate_files m' = intermediate_files m.
Proof using.
  set (P := λ s : fs * BaseMapperInternal, num_partitions (snd s) = num_partitions m ∧ intermediate_files (snd s) = intermediate_files m).
  assert (∀ s kv s', P s → emit hash s kv = Ok s' → P s') as Hemit.
  { intros [f1 m1] kv [f2 m2] [H1 H2] E. apply emit_leaves in E as [E1 E2]. split; cbn in *; congruence. }
  assert (∀ s line s', P s → map_line hash map_pairs s line = Ok s' → P s') as Hline.
  { intros s line s' Hs. apply (mfoldl_inv (λ _, P)); [done|]. intros ? ? ? ? ? _. apply Hemit. }
  intros E. change (P (f', m')). revert E. apply (mfoldl_inv (λ _, P)); [done|].
  intros ? s p s' ? _ Hs. unfold map_partition. destruct (partition_buffer _ p) as [b|]; [|done]. cbn.
  apply (mfoldl_inv (λ _, P)); [done|]. intros ? ? ? ? ? _. apply Hline.
Qed.
End jobs.

Section refinement.
Context (hash : cstr → Z) (worker_ip_addr_ : cstr) (tasks : TaskFactory MapFn ReduceFn) (indeterminate : Z).

(** What a job leaves allocated. *)
Definition after_job (j : job) (h : heap) : heap :=
  match j with
  | Map_job q => Heap (mapper_impls h ++ [used_mapper worker_ip_addr_ q]) (reducer_impls h)
  | Reduce_job q =>
    Heap (mapper_impls h) (reducer_impls h ++ [ReducerInternal (output_name (rq_output_dir q) (rq_partition_id q))])
  end.

Lemma map_job_refines f h q :
  object_map_job hash (Some (generators indeterminate tasks)) (f, h) worker_ip_addr_ q =
  lift (λ '(f', names), (f', after_job (Map_job q) h, names)) (handle_map_job hash tasks f worker_ip_addr_ q).
Proof using.
  unfold object_map_job, handle_map_job, get_mapper_from_task_factory, get_mapper. cbn [instance generators mappers_].
  rewrite lookup_fmap. destruct (mappers_ tasks !! mq_user_id q) as [map_pairs|]; [|done].
  cbn [fmap option_fmap option_map new_mapper deref mbind res_bind get_base_mapper_internal mapper_impl_ mapper_impls reducer_impls].
  rewrite get_last. cbn [mbind res_bind key_value_pairs]. unfold store_mapper. cbn [mapper_impls reducer_impls].
  rewrite put_last. cbn [mbind res_bind mret res_ret].
  set (m0 := Mapper (mq_n_partitions q) _ []).
  change (f, Heap (mapper_impls h ++ [m0]) (reducer_impls h)) with (with_mapper h (f, m0)).
  rewrite (mfoldl_embed (with_mapper h) (map_partition hash map_pairs)) by (intros; apply map_partition_embed).
  destruct (mfoldl _ (f, m0) _) as [[f1 m1]|] eqn:E1; [|done]. cbn [lift mbind res_bind fst snd].
  apply partitions_leave in E1 as [Hn Hf]. rewrite dump_embed. cbn [fst snd].
  destruct (dump hash f1 m1) as [[f2 m2]|] eqn:E2; [|done]. cbn. apply dump_leaves in E2 as ->. by rewrite Hn, Hf.
Qed.

Lemma reduce_job_refines f h q :
  object_reduce_job (Some (generators indeterminate tasks)) (f, h) q =
  lift (λ '(f', name), (f', after_job (Reduce_job q) h, name)) (handle_reduce_job tasks f q).
Proof using.
  unfold object_reduce_job, handle_reduce_job, get_reducer_from_task_factory, get_reducer. cbn [instance generators reducers_].
  rewrite lookup_fmap. destruct (reducers_ tasks !! rq_user_id q) as [reduce_pairs|]; [|done].
  cbn [fmap option_fmap option_map new_reducer deref mbind res_bind get_base_reducer_internal reducer_impl_ mapper_impls reducer_impls].
  unfold store_reducer. cbn [mapper_impls reducer_impls]. rewrite put_last. cbn [mbind res_bind mret res_ret].
  set (name := output_name _ _). destruct (mfoldl (reduce_file f) ∅ _) as [m|]; [|done]. cbn [mbind res_bind].
  change (f, Heap (mapper_impls h) (reducer_impls h ++ [ReducerInternal name])) with (with_reducer h name f).
  rewrite (mfoldl_embed (with_reducer h name) (λ f kv, Ok (foldl (reducer_emit name) f (reduce_pairs kv.1 kv.2)))).
  - rewrite (mfoldl_ok _ (λ f kv, foldl (reducer_emit name) f (reduce_pairs kv.1 kv.2))) by done. done.
  - intros f1 kv.
    rewrite (mfoldl_embed (with_reducer h name) (λ f kv, Ok (reducer_emit name f kv))) by (intros; apply reducer_emit_embed).
    by rewrite (mfoldl_ok _ (reducer_emit name)) by done.
Qed.

(** ** Property *)

(** C12: a worker that serves any jobs one after the other on objects of the user's
    classes writes the files and sends the replies, or fails, as it does on values: the
    buffers of different tasks are never mixed up.  Every job that succeeds leaves the
    internals of its task behind, with an empty buffer, and none is ever deleted. *)
Theorem task_objects_refine_jobs (f : fs) (h : heap) (replies : list (list cstr)) (js : list job) :
  mfoldl (object_job hash worker_ip_addr_ tasks indeterminate) (f, h, replies) js =
  lift (λ '(f', replies'), (f', foldl (λ h j, after_job j h) h js, replies'))
    (mfoldl (value_job hash worker_ip_addr_ tasks) (f, replies) js).
Proof using.
  revert f h replies. induction js as [|j js IH]; intros f h replies; [done|]. cbn [mfoldl foldl].
  assert (object_job hash worker_ip_addr_ tasks indeterminate (f, h, replies) j =
    lift (λ '(f', replies'), (f', after_job j h, replies')) (value_job hash worker_ip_addr_ tasks (f, replies) j)) as ->.
  { destruct j as [q|q]; cbn [object_job value_job].
    - rewrite map_job_refines. by destruct (handle_map_job _ _ _ _ _) as [[f' names]|].
    - rewrite reduce_job_refines. by destruct (handle_reduce_job _ _ _) as [[f' name]|]. }
  destruct (value_job _ _ _ _ j) as [[f' replies']|]; [apply IH|done].
Qed.
End refinement.

(** So the internals add up: as many as jobs. *)
Lemma internals_left_behind worker_ip_addr_ js h :
  let h' := foldl (λ h j, after_job worker_ip_addr_ j h) h js in
  length (mapper_impls h') + length (reducer_impls h') = length (mapper_impls h) + length (reducer_impls h) + length js.
Proof.
  cbn. revert h. induction js as [|j js IH]; intros h; cbn [foldl length]; [lia|]. rewrite IH.
  destruct j; cbn; rewrite length_app; cbn; lia.
Qed.
