(* ===== verification/WorkerService.v ===== *)
(** * The service of a worker (project4/src/worker.cc, worker_request.h,
    worker_request.cc)

    The objects of the three classes of requests, each a state machine that serves
    one call, and the two loops over the completion queues that drive them: one for
    the jobs, one for the pings.  The jobs themselves are in WorkerRequest.v.  Of
    gRPC the model has what the code relies on: the tag given to [Requestmapper] and
    its like comes back through the queue with a call of that kind, the tag given to
    [Finish] comes back when the reply has been sent. *)
From S2P Require Import Prelude CxxString FileSystem MRTasks TaskFactory WorkerRequest.
From Stdlib Require Import Ascii.

(** ** Data *)

Inductive kind := Mapping | Reducing | Pinging.

#[export] Instance kind_eq_dec : EqDecision kind.
Proof. solve_decision. Defined.

Inductive query := Map_query (q : MapQuery) | Reduce_query (q : ReduceQuery) | Ping_query (id : cstr).

Inductive reply := Map_result (files : list cstr) | Reduce_result (file : cstr) | Ping_result (id : cstr).

Definition kind_of (q : query) : kind :=
  match q with Map_query _ => Mapping | Reduce_query _ => Reducing | Ping_query _ => Pinging end.

Inductive RequestStatus := CREATE | PROCESS | FINISH.

(** [Request] with the members of its subclasses, told apart by [class]. *)
Record Request := Req {
  class : kind;
  worker_ip_addr_ : cstr;
  status_ : RequestStatus;
  request_ : option query;
  reply_ : option reply
}.

(** Addresses of objects are tags. *)
Abbreviation tag := nat.

(** The file system, the objects that exist, the tags for which gRPC waits for a call,
    those in the two completion queues and those whose reply is being sent.
    [received] and [answered] record the calls and the replies. *)
Record server := Server {
  files : fs;
  objects : gmap tag Request;
  requested : list tag;
  map_reduce_queue : list tag;
  ping_queue : list tag;
  finishing : list tag;
  received : list query;
  answered : list (query * reply)
}.

#[export] Instance server_eta : Eta server := λ s,
  Server (files s) (objects s) (requested s) (map_reduce_queue s) (ping_queue s) (finishing s)
    (received s) (answered s).

Section service.
Context (hash : cstr → Z) (factory : TaskFactory MapFn ReduceFn) (ip_addr_port_ : cstr).

(** ** Requests *)

Definition set_object (i : tag) (r : Request) (s : server) : server := update objects (<[i := r]>) s.

(** The jobs, with the address that the object holds. *)
Definition map_job (f : fs) (addr : cstr) (q : query) : res (fs * reply) :=
  match q with
  | Map_query q => r ← handle_map_job hash factory f addr q; mret (r.1, Map_result r.2)
  | _ => Err Undefined
  end.

Definition reduce_job (f : fs) (addr : cstr) (q : query) : res (fs * reply) :=
  match q with
  | Reduce_query q => r ← handle_reduce_job factory f q; mret (r.1, Reduce_result r.2)
  | _ => Err Undefined
  end.

Definition ping_job (f : fs) (addr : cstr) (q : query) : res (fs * reply) :=
  match q with Ping_query _ => mret (f, Ping_result addr) | _ => Err Undefined end.

(** The first [Proceed] of an object: it asks gRPC for a call. *)
Definition request_call (i : tag) (r : Request) (s : server) : server :=
  update requested (.++ [i])
    (set_object i (Req (class r) (worker_ip_addr_ r) PROCESS (request_ r) (reply_ r)) s).

(** The constructor of a subclass, which calls [Proceed]. *)
Definition new_Request (i : tag) (c : kind) (addr : cstr) (s : server) : server :=
  request_call i (Req c addr CREATE None None) s.

(** The three [Proceed]s are alike but for the job; [k] is the address of the object
    that takes the place of [i]. *)
Definition proceed_with (job : fs → cstr → query → res (fs * reply)) (i k : tag) (r : Request)
    (s : server) : res server :=
  match status_ r with
  | CREATE => mret (request_call i r s)
  | PROCESS =>
    let s := new_Request k (class r) (worker_ip_addr_ r) s in
    match request_ r with
    | None => Err Undefined
    | Some q =>
      fr ← job (files s) (worker_ip_addr_ r) q;
      mret (update answered (.++ [(q, fr.2)]) (update finishing (.++ [i])
        (set_object i (Req (class r) (worker_ip_addr_ r) FINISH (Some q) (Some fr.2)) (assign files fr.1 s))))
    end
  | FINISH => mret (update objects (delete i) s)
  end.

Definition MapRequest_Proceed : tag → tag → Request → server → res server := proceed_with map_job.
Definition ReduceRequest_Proceed : tag → tag → Request → server → res server := proceed_with reduce_job.
Definition PingRequest_Proceed : tag → tag → Request → server → res server := proceed_with ping_job.

(** The virtual [Proceed] of the object [i]. *)
Definition Proceed (i k : tag) (s : server) : res server :=
  match objects s !! i with
  | None => Err Undefined
  | Some r =>
    match class r with
    | Mapping => MapRequest_Proceed i k r s
    | Reducing => ReduceRequest_Proceed i k r s
    | Pinging => PingRequest_Proceed i k r s
    end
  end.

(** ** The loops *)

(** [ip_addr_port_.substr(ip_addr_port_.find_first_of(":") + 1)] *)
Definition port_num : res cstr := substr ip_addr_port_ (find_int ":"%char ip_addr_port_ + 1) npos.

(** The objects that both loops create before they begin, at addresses [a], [b], [c]. *)
Definition booted (f : fs) (a b c : tag) : res server :=
  port ← port_num;
  mret (new_Request c Pinging ip_addr_port_ (new_Request b Reducing port (new_Request a Mapping port
    (Server f ∅ [] [] [] [] [] [])))).

(** An iteration on the event [i]. *)
Definition process_map_reduce_request (i k : tag) (s : server) : option (res server) :=
  rest ← remove_one i (map_reduce_queue s);
  if decide (k ∈ dom (objects s)) then None else Some (Proceed i k (assign map_reduce_queue rest s)).

Definition process_ping_request (i k : tag) (s : server) : option (res server) :=
  rest ← remove_one i (ping_queue s);
  if decide (k ∈ dom (objects s)) then None else Some (Proceed i k (assign ping_queue rest s)).

(** gRPC puts the tag of an object into the queue [cq_] of its class. *)
Definition complete (i : tag) (c : kind) (s : server) : server :=
  if decide (c = Pinging) then update ping_queue (.++ [i]) s else update map_reduce_queue (.++ [i]) s.

(** A call of the kind that the object [i] waits for arrives. *)
Definition call_arrives (i : tag) (q : query) (s : server) : option (res server) :=
  rest ← remove_one i (requested s);
  match objects s !! i with
  | None => Some (Err Undefined)
  | Some r =>
    if decide (kind_of q = class r) then
      Some (Ok (update received (.++ [q]) (complete i (class r) (assign requested rest
        (set_object i (Req (class r) (worker_ip_addr_ r) (status_ r) (Some q) (reply_ r)) s)))))
    else None
  end.

(** The reply of [i] has been sent. *)
Definition reply_sent (i : tag) (s : server) : option (res server) :=
  rest ← remove_one i (finishing s);
  Some match objects s !! i with
  | None => Err Undefined
  | Some r => mret (complete i (class r) (assign finishing rest s))
  end.

Inductive event :=
| Map_reduce (i k : tag)
| Ping (i k : tag)
| Arrive (i : tag) (q : query)
| Sent (i : tag).

Definition exec (e : event) (s : server) : option (res server) :=
  match e with
  | Map_reduce i k => process_map_reduce_request i k s
  | Ping i k => process_ping_request i k s
  | Arrive i q => call_arrives i q s
  | Sent i => reply_sent i s
  end.

Definition step (s s' : server) : Prop := ∃ e, exec e s = Some (Ok s').
Definition initial (f : fs) (s : server) : Prop :=
  ∃ a b c, NoDup [a; b; c] ∧ booted f a b c = Ok s.

(** ** Invariant *)

(** The address that the objects of a kind hold. *)
Definition address (port : cstr) (c : kind) : cstr :=
  if decide (c = Pinging) then ip_addr_port_ else port.

Definition work (port : cstr) (f : fs) (q : query) : res (fs * reply) :=
  match q with
  | Map_query _ => map_job f port q
  | Reduce_query _ => reduce_job f port q
  | Ping_query _ => ping_job f ip_addr_port_ q
  end.

(** The calls of a list, one after the other. *)
Fixpoint serve_all (port : cstr) (f : fs) (qs : list query) : res (fs * list reply) :=
  match qs with
  | [] => mret (f, [])
  | q :: qs =>
    fr ← work port f q;
    fl ← serve_all port fr.1 qs;
    mret (fl.1, fr.2 :: fl.2)
  end.

Lemma serve_all_app port f qs f1 l1 q f2 r :
  serve_all port f qs = Ok (f1, l1) → work port f1 q = Ok (f2, r) →
  serve_all port f (qs ++ [q]) = Ok (f2, l1 ++ [r]).
Proof.
  revert f l1. induction qs as [|q' qs IH]; intros f l1 E1 E2.
  - injection E1 as -> <-. cbn. by rewrite E2.
  - cbn in *. destruct (work port f q') as [[f' r']|]; [|done]. cbn in *.
    destruct (serve_all port f' qs) as [[f3 l3]|] eqn:E3; [|done]. injection E1 as -> <-.
    by rewrite (IH f' l3 E3 E2).
Qed.

(** The objects that wait for a call ([acc], with their kinds), those that have one
    that has not been served ([arr]), and those whose reply has been sent ([fin]). *)
Record good (f0 : fs) (port : cstr) (s : server) (acc : list (kind * tag))
    (arr : list (tag * query)) (fin : list tag) : Prop := {
  gd_kinds : acc.*1 ++ (kind_of <$> arr.*2) ≡ₚ [Mapping; Reducing; Pinging];
  gd_requested : requested s ≡ₚ acc.*2;
  gd_queues : map_reduce_queue s ++ ping_queue s ≡ₚ arr.*1 ++ fin;
  gd_nodup : NoDup (acc.*2 ++ arr.*1 ++ finishing s ++ fin);
  gd_objects : dom (objects s) = list_to_set (acc.*2 ++ arr.*1 ++ finishing s ++ fin);
  gd_acc c i : (c, i) ∈ acc → objects s !! i = Some (Req c (address port c) PROCESS None None);
  gd_arr i q : (i, q) ∈ arr →
    objects s !! i = Some (Req (kind_of q) (address port (kind_of q)) PROCESS (Some q) None);
  gd_fin i : i ∈ finishing s ++ fin → ∃ r, objects s !! i = Some r ∧ status_ r = FINISH;
  gd_received : received s ≡ₚ (answered s).*1 ++ arr.*2;
  gd_files : serve_all port f0 (answered s).*1 = Ok (files s, (answered s).*2)
}.

(** ** Lemmas *)

Lemma service_booted f0 s : initial f0 s → ∃ port a b c,
  port_num = Ok port ∧ good f0 port s [(Mapping, a); (Reducing, b); (Pinging, c)] [] [].
Proof.
  intros (a & b & c & Hnd & E). unfold booted in E. destruct port_num as [port|]; [|done].
  injection E as <-. exists port, a, b, c. split; [done|].
  apply NoDup_cons in Hnd as [Ha Hnd]. apply NoDup_cons in Hnd as [Hb _].
  assert (a ≠ b ∧ a ≠ c ∧ b ≠ c) as (Hab & Hac & Hbc) by set_solver. split; cbn; try done.
  - apply NoDup_cons. split; [set_solver|]. apply NoDup_cons. split; [set_solver|]. apply NoDup_singleton.
  - rewrite !dom_insert_L, dom_empty_L. set_solver.
  - intros d i. rewrite !elem_of_cons, elem_of_nil. intros [[= -> ->]|[[= -> ->]|[[= -> ->]|[]]]].
    + by rewrite !lookup_insert_ne, lookup_insert_eq by done.
    + by rewrite lookup_insert_ne, lookup_insert_eq by done.
    + by rewrite lookup_insert_eq.
  - intros i q. by rewrite elem_of_nil.
  - intros i. by rewrite elem_of_nil.
Qed.

(** What serving the call [q] of object [i] does. *)
Lemma Proceed_process port i k q s :
  objects s !! i = Some (Req (kind_of q) (address port (kind_of q)) PROCESS (Some q) None) →
  Proceed i k s =
  fr ← work port (files s) q;
  mret (update answered (.++ [(q, fr.2)]) (update finishing (.++ [i])
    (set_object i (Req (kind_of q) (address port (kind_of q)) FINISH (Some q) (Some fr.2))
      (assign files fr.1 (new_Request k (kind_of q) (address port (kind_of q)) s))))).
Proof. intros E. unfold Proceed. rewrite E. by destruct q. Qed.

Lemma Proceed_finish i k s r :
  objects s !! i = Some r → status_ r = FINISH → Proceed i k s = Ok (update objects (delete i) s).
Proof.
  intros E Er. unfold Proceed. rewrite E.
  by destruct (class r); unfold MapRequest_Proceed, ReduceRequest_Proceed, PingRequest_Proceed, proceed_with;
    rewrite Er.
Qed.

(** How much there is still to do for the calls that have arrived. *)
Definition rank (s : server) (arr : list (tag * query)) (fin : list tag) : nat :=
  3 * length arr + 2 * length (finishing s) + length fin.

Section steps.
Context (f0 : fs) (port : cstr).

(** The queues after a tag has been taken from one of them. *)
Definition with_queues (mq pq : list tag) (s : server) : server :=
  assign map_reduce_queue mq (assign ping_queue pq s).

Lemma job_good s acc arr fin i q k mq pq f' r :
  good f0 port s acc ((i, q) :: arr) fin → k ∉ dom (objects s) →
  i :: mq ++ pq ≡ₚ map_reduce_queue s ++ ping_queue s → work port (files s) q = Ok (f', r) →
  ∃ s', Proceed i k (with_queues mq pq s) = Ok s' ∧
    good f0 port s' ((kind_of q, k) :: acc) arr fin ∧ rank s' arr fin < rank s ((i, q) :: arr) fin.
Proof.
  intros [H1 H2 H3 H4 H5 H6 H7 H8 H9 H10] Hk Hq Hw.
  pose proof (H7 i q ltac:(left)) as Hi.
  rewrite (Proceed_process port i k q); [|done]. cbn [files with_queues assign update eta server_eta].
  rewrite Hw. eexists. split; [reflexivity|].
  split; [|unfold rank; cbn; rewrite length_app; cbn; lia].
  rewrite H5, elem_of_list_to_set in Hk.
  assert (k ≠ i) as Hki by (intros ->; set_solver).
  set (T := acc.*2 ++ arr.*1 ++ finishing s ++ fin).
  assert (acc.*2 ++ ((i, q) :: arr).*1 ++ finishing s ++ fin ≡ₚ i :: T) as Hp.
  { cbn. unfold T. symmetry. apply Permutation_middle. }
  assert (((kind_of q, k) :: acc).*2 ++ arr.*1 ++ (finishing s ++ [i]) ++ fin ≡ₚ k :: i :: T) as Hp'.
  { cbn. apply perm_skip. unfold T. rewrite <-!app_assoc. cbn. rewrite !app_assoc. symmetry. apply Permutation_middle. }
  rewrite Hp in H4, H5, Hk.
  assert (i ∉ T) as HiT by by apply NoDup_cons in H4 as [? _].
  assert (∀ j, j ∈ T → ∀ o o', <[i := o]> (<[k := o']> (objects s)) !! j = objects s !! j) as Hkeep.
  { intros j Hj o o'. rewrite !lookup_insert_ne; [done|intros ->; set_solver|by intros ->]. }
  split; cbn [files objects requested map_reduce_queue ping_queue finishing received answered
    update assign eta server_eta with_queues set_object new_Request request_call].
  - rewrite <-H1. cbn. apply Permutation_middle.
  - cbn. rewrite H2. symmetry. apply Permutation_cons_append.
  - rewrite H3 in Hq. cbn in Hq. by apply Permutation_cons_inv in Hq.
  - rewrite Hp'. apply NoDup_cons. by split.
  - rewrite Hp', !dom_insert_L, H5. cbn. generalize (list_to_set T : gset tag). clear. set_solver.
  - intros c j. rewrite elem_of_cons. intros [[= -> ->]|Hj].
    + by rewrite lookup_insert_ne, lookup_insert_eq.
    + rewrite Hkeep; [by apply H6|]. unfold T. apply elem_of_app. left. by apply (list_elem_of_fmap_2 snd _ (c, j)).
  - intros j q' Hj. rewrite Hkeep; [apply H7; by right|]. unfold T. rewrite elem_of_app. right.
    apply elem_of_app. left. by apply (list_elem_of_fmap_2 fst _ (j, q')).
  - intros j Hj. destruct (decide (j = i)) as [->|Hne].
    + rewrite lookup_insert_eq. by eexists.
    + assert (j ∈ finishing s ++ fin) as Hj' by (rewrite !elem_of_app, list_elem_of_singleton in Hj; rewrite elem_of_app; tauto).
      rewrite Hkeep; [by apply H8|]. unfold T. rewrite !elem_of_app in *. tauto.
  - rewrite H9, fmap_app, <-app_assoc. done.
  - rewrite !fmap_app. by eapply serve_all_app.
Qed.

Lemma finish_good s acc arr fin i k mq pq :
  good f0 port s acc arr (i :: fin) → i :: mq ++ pq ≡ₚ map_reduce_queue s ++ ping_queue s →
  ∃ s', Proceed i k (with_queues mq pq s) = Ok s' ∧ good f0 port s' acc arr fin ∧
    rank s' arr fin < rank s arr (i :: fin).
Proof.
  intros [H1 H2 H3 H4 H5 H6 H7 H8 H9 H10] Hq.
  destruct (H8 i) as (r & Hi & Hr); [set_solver|].
  rewrite (Proceed_finish i k _ r) by done. eexists. split; [reflexivity|].
  split; [|unfold rank; cbn; lia].
  set (T := acc.*2 ++ arr.*1 ++ finishing s ++ fin).
  assert (acc.*2 ++ arr.*1 ++ finishing s ++ i :: fin ≡ₚ i :: T) as Hp.
  { unfold T. rewrite !app_assoc. symmetry. apply Permutation_middle. }
  rewrite Hp in H4, H5. assert (i ∉ T) as HiT by by apply NoDup_cons in H4 as [? _].
  assert (∀ j, j ∈ T → delete i (objects s) !! j = objects s !! j) as Hkeep.
  { intros j Hj. apply lookup_delete_ne. by intros ->. }
  split; cbn [files objects requested map_reduce_queue ping_queue finishing received answered
    update assign eta server_eta with_queues]; try done.
  - rewrite H3, <-Permutation_middle in Hq. by apply Permutation_cons_inv in Hq.
  - by apply NoDup_cons in H4 as [_ ?].
  - rewrite dom_delete_L, H5. cbn. fold T. set_solver.
  - intros c j Hj. rewrite Hkeep; [by apply H6|]. unfold T. apply elem_of_app. left. by apply (list_elem_of_fmap_2 snd _ (c, j)).
  - intros j q Hj. rewrite Hkeep; [by apply H7|]. unfold T. rewrite elem_of_app. right.
    apply elem_of_app. left. by apply (list_elem_of_fmap_2 fst _ (j, q)).
  - intros j Hj. rewrite Hkeep; [apply H8|unfold T]; set_solver.
Qed.

Lemma good_perm s acc acc' arr arr' fin fin' :
  acc ≡ₚ acc' → arr ≡ₚ arr' → fin ≡ₚ fin' → good f0 port s acc arr fin → good f0 port s acc' arr' fin'.
Proof.
  intros Ha Hr Hf [H1 H2 H3 H4 H5 H6 H7 H8 H9 H10].
  rewrite Ha, Hr in H1. rewrite Ha in H2. rewrite Hr, Hf in H3. rewrite Ha, Hr, Hf in H4, H5. rewrite Hr in H9.
  split; try done.
  - intros c i. rewrite <-Ha. apply H6.
  - intros i q. rewrite <-Hr. apply H7.
  - intros i. rewrite <-Hf. apply H8.
Qed.

Lemma complete_queues i c s :
  map_reduce_queue (complete i c s) ++ ping_queue (complete i c s) ≡ₚ
  i :: map_reduce_queue s ++ ping_queue s.
Proof.
  unfold complete. case_decide; cbn.
  - rewrite app_assoc. symmetry. apply Permutation_cons_append.
  - rewrite <-app_assoc. symmetry. apply Permutation_middle.
Qed.

Lemma complete_same i c s :
  files (complete i c s) = files s ∧ objects (complete i c s) = objects s ∧
  requested (complete i c s) = requested s ∧ finishing (complete i c s) = finishing s ∧
  received (complete i c s) = received s ∧ answered (complete i c s) = answered s.
Proof. unfold complete. by case_decide. Qed.

Lemma call_good s acc arr fin i q x :
  good f0 port s acc arr fin → call_arrives i q s = Some x →
  ∃ s' acc', x = Ok s' ∧ good f0 port s' acc' ((i, q) :: arr) fin.
Proof.
  intros Hg E. unfold call_arrives in E. destruct (remove_one i (requested s)) as [rest|] eqn:Er; [|done].
  apply remove_one_perm in Er.
  assert (∃ c, (c, i) ∈ acc) as [c [acc' Hacc]%elem_of_Permutation].
  { pose proof (gd_requested _ _ _ _ _ _ Hg) as H2. rewrite Er in H2.
    assert (i ∈ acc.*2) as ([c j] & -> & Hj)%list_elem_of_fmap by (rewrite <-H2; left). by exists c. }
  apply (good_perm _ _ ((c, i) :: acc') _ arr _ fin) in Hg; [|done..].
  destruct Hg as [H1 H2 H3 H4 H5 H6 H7 H8 H9 H10].
  pose proof (H6 c i ltac:(left)) as Hi. cbn in E. rewrite Hi in E. cbn in E.
  case_decide as Hc; [|done]. subst c. injection E as <-. eexists _, acc'. split; [reflexivity|].
  match goal with |- context [complete i ?c ?s0] =>
    pose proof (complete_queues i c s0) as Hq; destruct (complete_same i c s0) as (E1 & E2 & E3 & E4 & E5 & E6)
  end.
  cbn [map_reduce_queue ping_queue files objects requested finishing received answered
    update assign eta server_eta set_object] in Hq, E1, E2, E3, E4, E5, E6.
  rewrite Er in H2. cbn in H2. apply Permutation_cons_inv in H2.
  set (T := acc'.*2 ++ arr.*1 ++ finishing s ++ fin).
  assert (acc'.*2 ++ ((i, q) :: arr).*1 ++ finishing s ++ fin ≡ₚ i :: T) as Hp.
  { cbn. unfold T. symmetry. apply Permutation_middle. }
  cbn in H4, H5. fold T in H4, H5.
  assert (i ∉ T) as HiT by by apply NoDup_cons in H4 as [? _].
  assert (∀ j, j ∈ T → ∀ o, <[i := o]> (objects s) !! j = objects s !! j) as Hkeep.
  { intros j Hj o. rewrite lookup_insert_ne; [done|]. by intros ->. }
  split; cbn [files objects requested map_reduce_queue ping_queue finishing received answered
    update assign eta server_eta]; rewrite ?E1, ?E2, ?E3, ?E4, ?E5, ?E6.
  - rewrite <-H1. cbn. symmetry. apply Permutation_middle.
  - done.
  - rewrite Hq, H3. done.
  - by rewrite Hp.
  - rewrite Hp, dom_insert_L, H5. cbn. generalize (list_to_set T : gset tag). clear. set_solver.
  - intros c j Hj. rewrite Hkeep; [apply H6; by right|]. unfold T. apply elem_of_app. left.
    by apply (list_elem_of_fmap_2 snd _ (c, j)).
  - intros j q'. rewrite elem_of_cons. intros [[= -> ->]|Hj]; [by rewrite lookup_insert_eq|].
    rewrite Hkeep; [by apply H7|]. unfold T. rewrite elem_of_app. right. apply elem_of_app. left.
    by apply (list_elem_of_fmap_2 fst _ (j, q')).
  - intros j Hj. rewrite Hkeep; [by apply H8|]. unfold T. rewrite !elem_of_app in *. tauto.
  - rewrite H9. cbn. rewrite <-app_assoc. apply Permutation_app_head. symmetry. apply Permutation_cons_append.
  - done.
Qed.

Lemma reply_good s acc arr fin i x :
  good f0 port s acc arr fin → reply_sent i s = Some x →
  ∃ s', x = Ok s' ∧ good f0 port s' acc arr (i :: fin) ∧ rank s' arr (i :: fin) < rank s arr fin.
Proof.
  intros [H1 H2 H3 H4 H5 H6 H7 H8 H9 H10] E. unfold reply_sent in E.
  destruct (remove_one i (finishing s)) as [rest|] eqn:Er; [|done]. apply remove_one_perm in Er.
  destruct (H8 i) as (r & Hi & Hr); [rewrite Er; left|]. cbn in E. rewrite Hi in E. injection E as <-.
  eexists. split; [reflexivity|].
  match goal with |- context [complete i ?c ?s0] =>
    pose proof (complete_queues i c s0) as Hq; destruct (complete_same i c s0) as (E1 & E2 & E3 & E4 & E5 & E6)
  end.
  cbn [map_reduce_queue ping_queue files objects requested finishing received answered
    update assign eta server_eta] in Hq, E1, E2, E3, E4, E5, E6.
  split; [|unfold rank; rewrite E4, (Permutation_length Er); cbn; lia].
  assert (rest ++ i :: fin ≡ₚ finishing s ++ fin) as Hp.
  { rewrite Er. symmetry. apply Permutation_middle. }
  split; rewrite ?E1, ?E2, ?E3, ?E4, ?E5, ?E6; try done.
  - rewrite Hq, H3. apply Permutation_middle.
  - by rewrite Hp.
  - by rewrite Hp.
  - intros j. rewrite Hp. apply H8.
Qed.

(** An event leads to a good state, or it is a job that fails. *)
Definition advanced (arr : list (tag * query)) (s : server) (e : event) (x : res server) (n : nat) : Prop :=
  (∃ s' acc' arr' fin', x = Ok s' ∧ good f0 port s' acc' arr' fin' ∧
    ((∀ i q, e ≠ Arrive i q) → rank s' arr' fin' < n)) ∨
  (∃ i q f, x = Err f ∧ (i, q) ∈ arr ∧ work port (files s) q = Err f).

Lemma proceed_good s acc arr fin i k mq pq e :
  good f0 port s acc arr fin → k ∉ dom (objects s) →
  i :: mq ++ pq ≡ₚ map_reduce_queue s ++ ping_queue s →
  advanced arr s e (Proceed i k (with_queues mq pq s)) (rank s arr fin).
Proof.
  intros Hg Hk Hq.
  assert (i ∈ arr.*1 ++ fin) as Hi by (rewrite <-(gd_queues _ _ _ _ _ _ Hg), <-Hq; left).
  apply elem_of_app in Hi as [([j q] & -> & Ha)%list_elem_of_fmap|Hf].
  - pose proof Ha as [arr' Hp]%elem_of_Permutation.
    apply (good_perm _ _ acc _ ((j, q) :: arr') _ fin) in Hg; [|done..].
    destruct (work port (files s) q) as [[f' r]|f] eqn:Hw.
    + left. destruct (job_good _ _ _ _ _ _ _ _ _ _ _ Hg Hk Hq Hw) as (s' & E & Hg' & Hr).
      eexists s', _, _, _. split; [done|]. split; [done|]. intros _. unfold rank in *.
      by rewrite (Permutation_length Hp).
    + right. exists j, q, f. split; [|done]. cbn.
      rewrite (Proceed_process port j k q) by by apply (gd_arr _ _ _ _ _ _ Hg); left.
      cbn [files with_queues assign update eta server_eta]. by rewrite Hw.
  - left. apply elem_of_Permutation in Hf as [fin' Hp].
    apply (good_perm _ _ acc _ arr _ (i :: fin')) in Hg; [|done..].
    destruct (finish_good _ _ _ _ _ k _ _ Hg Hq) as (s' & E & Hg' & Hr).
    eexists s', _, _, _. split; [done|]. split; [done|]. intros _. unfold rank in *.
    by rewrite (Permutation_length Hp).
Qed.

Lemma exec_service_good e s acc arr fin x :
  good f0 port s acc arr fin → exec e s = Some x → advanced arr s e x (rank s arr fin).
Proof.
  intros Hg E. destruct e as [i k|i k|i q|i]; cbn in E.
  - unfold process_map_reduce_request in E. destruct (remove_one i _) as [rest|] eqn:Er; [|done]. cbn in E.
    case_decide as Hk; [done|]. injection E as <-. apply remove_one_perm in Er.
    apply (proceed_good s acc arr fin i k rest (ping_queue s)); [done..|]. by rewrite Er.
  - unfold process_ping_request in E. destruct (remove_one i _) as [rest|] eqn:Er; [|done]. cbn in E.
    case_decide as Hk; [done|]. injection E as <-. apply remove_one_perm in Er.
    apply (proceed_good s acc arr fin i k (map_reduce_queue s) rest); [done..|].
    rewrite Er. apply Permutation_middle.
  - left. destruct (call_good _ _ _ _ _ _ _ Hg E) as (s' & acc' & -> & Hg'). eexists _, _, _, _.
    split; [done|]. split; [exact Hg'|]. intros Ha. by destruct (Ha i q).
  - left. destruct (reply_good _ _ _ _ _ _ Hg E) as (s' & -> & Hg' & Hr). by eexists _, _, _, _.
Qed.
End steps.

Lemma reachable_service f0 s :
  reachable (initial f0) step s → ∃ port acc arr fin, port_num = Ok port ∧ good f0 port s acc arr fin.
Proof.
  revert s. apply invariant_ind.
  - intros s (port & a & b & c & Hp & Hg)%service_booted. eauto 10.
  - intros s s' (port & acc & arr & fin & Hp & Hg) [e E].
    destruct (exec_service_good _ _ _ _ _ _ _ _ Hg E) as [(s1 & acc' & arr' & fin' & [= <-] & Hg' & _)|(i & q & f & ? & _)];
      [|done]. eauto 10.
Qed.

(** *** Every call is served *)

(** Steps that need no new call, and states in which nothing is left to do. *)
Definition serve (s s' : server) : Prop := ∃ e, (∀ i q, e ≠ Arrive i q) ∧ exec e s = Some (Ok s').

Definition quiet (s : server) : Prop := map_reduce_queue s = [] ∧ ping_queue s = [] ∧ finishing s = [].

Lemma proceed_received i k s s' : Proceed i k s = Ok s' → received s' = received s.
Proof.
  intros E. unfold Proceed, MapRequest_Proceed, ReduceRequest_Proceed, PingRequest_Proceed in E.
  destruct (objects s !! i) as [r|]; [|done].
  assert (∀ job, proceed_with job i k r s = Ok s' → received s' = received s) as H.
  { intros job Ej. unfold proceed_with in Ej. destruct (status_ r); [by injection Ej as <-| |by injection Ej as <-].
    destruct (request_ r) as [q|]; [|done].
    cbn [files new_Request request_call set_object update eta server_eta] in Ej.
    destruct (job (files s) (worker_ip_addr_ r) q); [|done]. by injection Ej as <-. }
  by destruct (class r); eapply H.
Qed.

Lemma serve_received s s' : serve s s' → received s' = received s.
Proof.
  intros (e & Ha & E). destruct e as [i k|i k|i q|i]; cbn in E; [| |by destruct (Ha i q)|].
  - unfold process_map_reduce_request in E. destruct (remove_one i _) as [rest|]; [|done]. cbn in E.
    case_decide; [done|]. injection E as E. apply proceed_received in E. done.
  - unfold process_ping_request in E. destruct (remove_one i _) as [rest|]; [|done]. cbn in E.
    case_decide; [done|]. injection E as E. apply proceed_received in E. done.
  - unfold reply_sent in E. destruct (remove_one i _) as [rest|]; [|done]. cbn in E.
    destruct (objects s !! i); [|done]. injection E as <-. by destruct (complete_same i (class r) (assign finishing rest s)) as (_ & _ & _ & _ & -> & _).
Qed.

Lemma service_moves f0 port s acc arr fin :
  good f0 port s acc arr fin → quiet s ∨ ∃ e x, (∀ i q, e ≠ Arrive i q) ∧ exec e s = Some x.
Proof.
  intros Hg. pose proof (is_fresh (dom (objects s))) as Hk. set (k := fresh (dom (objects s))) in *.
  destruct (map_reduce_queue s) as [|i l] eqn:Em.
  2: { right. destruct (remove_one_in i (map_reduce_queue s)) as [l' Hl]; [rewrite Em; left|].
       eexists (Map_reduce i k), _. split; [done|]. cbn. unfold process_map_reduce_request. rewrite Hl. cbn.
       by rewrite decide_False. }
  destruct (ping_queue s) as [|i l] eqn:Ep.
  2: { right. destruct (remove_one_in i (ping_queue s)) as [l' Hl]; [rewrite Ep; left|].
       eexists (Ping i k), _. split; [done|]. cbn. unfold process_ping_request. rewrite Hl. cbn.
       by rewrite decide_False. }
  destruct (finishing s) as [|i l] eqn:Ef; [by left|].
  right. destruct (remove_one_in i (finishing s)) as [l' Hl]; [rewrite Ef; left|].
  eexists (Sent i), _. split; [done|]. cbn. unfold reply_sent. by rewrite Hl.
Qed.

(** The worker goes on until every call has its reply, unless a job fails. *)
Definition served (s : server) : Prop := quiet s ∨ ∃ e f, exec e s = Some (Err f).

Lemma service_drains f0 port n s acc arr fin :
  good f0 port s acc arr fin → rank s arr fin < n →
  ∃ s' acc' arr' fin', rtc serve s s' ∧ good f0 port s' acc' arr' fin' ∧ served s'.
Proof.
  revert s acc arr fin. induction n as [|n IH]; intros s acc arr fin Hg Hr; [lia|].
  destruct (service_moves _ _ _ _ _ _ Hg) as [Hq|(e & x & Ha & E)].
  { exists s, acc, arr, fin. split; [done|]. split; [done|by left]. }
  destruct (exec_service_good _ _ _ _ _ _ _ _ Hg E) as [(s1 & acc1 & arr1 & fin1 & -> & Hg1 & Hlt)|(i & q & f & -> & _)].
  - destruct (IH s1 acc1 arr1 fin1 Hg1) as (s' & acc' & arr' & fin' & Hs & Hg' & Hd); [specialize (Hlt Ha); lia|].
    exists s', acc', arr', fin'. split; [|done]. eapply rtc_l; [|exact Hs]. by exists e.
  - exists s, acc, arr, fin. split; [done|]. split; [done|]. right. by exists e, f.
Qed.

Lemma quiet_received f0 port s acc arr fin :
  good f0 port s acc arr fin → quiet s → received s ≡ₚ (answered s).*1.
Proof.
  intros Hg (Hm & Hp & _). pose proof (gd_queues _ _ _ _ _ _ Hg) as Hq. rewrite Hm, Hp in Hq.
  apply Permutation_nil_l in Hq. symmetry in Hq. apply app_eq_nil in Hq as [Hq _]. apply fmap_nil_inv in Hq as ->.
  rewrite (gd_received _ _ _ _ _ _ Hg). by rewrite app_nil_r.
Qed.

(** *** The objects that accept calls *)

Definition open_objects (acc : list (kind * tag)) (arr : list (tag * query)) : list (kind * tag) :=
  acc ++ ((λ x, (kind_of x.2, x.1)) <$> arr).

Section open.
Context (f0 : fs) (port : cstr) (s : server) (acc : list (kind * tag)) (arr : list (tag * query)) (fin : list tag).
Context (Hg : good f0 port s acc arr fin).

Lemma open_kinds : (open_objects acc arr).*1 ≡ₚ [Mapping; Reducing; Pinging].
Proof.
  unfold open_objects. rewrite fmap_app, <-list_fmap_compose, <-(gd_kinds _ _ _ _ _ _ Hg), <-list_fmap_compose. done.
Qed.

Lemma open_unique d i j : (d, i) ∈ open_objects acc arr → (d, j) ∈ open_objects acc arr → j = i.
Proof.
  assert (NoDup (open_objects acc arr).*1) as Hnd.
  { rewrite open_kinds. apply (bool_decide_unpack _). by vm_compute. }
  intros [x Hx]%list_elem_of_lookup [y Hy]%list_elem_of_lookup. assert (x = y) as ->; [|congruence].
  apply (NoDup_lookup (open_objects acc arr).*1 x y d); [done|by rewrite list_lookup_fmap, Hx|by rewrite list_lookup_fmap, Hy].
Qed.

Lemma open_process d i :
  (d, i) ∈ open_objects acc arr → ∃ r, objects s !! i = Some r ∧ class r = d ∧ status_ r = PROCESS ∧
    (i ∈ requested s ∨ i ∈ map_reduce_queue s ++ ping_queue s).
Proof.
  destruct Hg as [H1 H2 H3 H4 H5 H6 H7 H8 H9 H10]. unfold open_objects. rewrite elem_of_app.
  intros [Hi|([j q] & [= -> ->] & Hi)%list_elem_of_fmap].
  - eexists. split; [by apply H6|]. split_and!; [done..|]. left. rewrite H2. by apply (list_elem_of_fmap_2 snd _ (d, i)).
  - eexists. split; [by apply H7|]. split_and!; [done..|]. right. rewrite H3, elem_of_app. left.
    by apply (list_elem_of_fmap_2 fst _ (j, q)).
Qed.

Lemma process_open j r : objects s !! j = Some r → status_ r = PROCESS → (class r, j) ∈ open_objects acc arr.
Proof.
  destruct Hg as [H1 H2 H3 H4 H5 H6 H7 H8 H9 H10]. intros Hj Hr. unfold open_objects.
  assert (j ∈ dom (objects s)) as Hd by by eapply elem_of_dom_2.
  rewrite H5, elem_of_list_to_set, !elem_of_app in Hd. rewrite elem_of_app.
  destruct Hd as [([d j'] & -> & Ha)%list_elem_of_fmap|[([j' q] & -> & Ha)%list_elem_of_fmap|Hd]].
  - pose proof (H6 d j' Ha) as E. cbn in Hj. rewrite Hj in E. injection E as ->. by left.
  - pose proof (H7 j' q Ha) as E. cbn in Hj. rewrite Hj in E. injection E as ->. right.
    by apply (list_elem_of_fmap_2 (λ x, (kind_of x.2, x.1)) arr (j', q)).
  - destruct (H8 j ltac:(by apply elem_of_app)) as (r' & E & Hf). congruence.
Qed.
End open.

(** *** The service as a sequence of calls *)

Lemma service_in_sequence (f0 : fs) (s : server) :
  reachable (initial f0) step s →
  ∃ port waiting, port_num = Ok port ∧
    received s ≡ₚ (answered s).*1 ++ waiting ∧
    serve_all port f0 (answered s).*1 = Ok (files s, (answered s).*2) ∧
    ∀ e f, exec e s = Some (Err f) → ∃ q, q ∈ waiting ∧ work port (files s) q = Err f.
Proof.
  intros (port & acc & arr & fin & Hp & Hg)%reachable_service. exists port, arr.*2.
  split; [done|]. split; [apply (gd_received _ _ _ _ _ _ Hg)|]. split; [apply (gd_files _ _ _ _ _ _ Hg)|].
  intros e f E.
  destruct (exec_service_good _ _ _ _ _ _ _ _ Hg E) as [(? & ? & ? & ? & ? & _)|(i & q & f' & [= <-] & Hi & Hw)]; [done|].
  exists q. split; [|done]. by apply (list_elem_of_fmap_2 snd _ (i, q)).
Qed.

Lemma service_answers_all (f0 : fs) (s : server) :
  reachable (initial f0) step s →
  ∃ s', rtc serve s s' ∧ received s' = received s ∧
    (quiet s' ∧ received s ≡ₚ (answered s').*1 ∨ ∃ e f, exec e s' = Some (Err f)).
Proof.
  intros (port & acc & arr & fin & Hp & Hg)%reachable_service.
  destruct (service_drains _ _ _ _ _ _ _ Hg (Nat.lt_succ_diag_r _)) as (s' & acc' & arr' & fin' & Hs & Hg' & Hd).
  exists s'. split; [done|].
  assert (received s' = received s) as E.
  { clear Hg Hg' Hd. induction Hs as [|s1 s2 s3 H12 _ IH]; [done|]. by rewrite IH, (serve_received s1 s2). }
  split; [done|]. destruct Hd as [Hq|Hf]; [left|by right]. split; [done|]. rewrite <-E. by eapply quiet_received.
Qed.

(** ** Properties *)


(** At any time the worker has, for jobs of either kind and for pings, exactly one
    object that gRPC can give a call to or has given one that is still to be served. *)
Theorem worker_always_accepts (f0 : fs) (s : server) (c : kind) :
  reachable (initial f0) step s →
  ∃ i r, objects s !! i = Some r ∧ class r = c ∧ status_ r = PROCESS ∧
    (i ∈ requested s ∨ i ∈ map_reduce_queue s ++ ping_queue s) ∧
    ∀ j r', objects s !! j = Some r' → class r' = c → status_ r' = PROCESS → j = i.
Proof.
  intros (port & acc & arr & fin & Hp & Hg)%reachable_service.
  assert (c ∈ (open_objects acc arr).*1) as ([d i] & -> & Hi)%list_elem_of_fmap
    by (rewrite (open_kinds _ _ _ _ _ _ Hg); destruct c; set_solver).
  destruct (open_process _ _ _ _ _ _ Hg d i Hi) as (r & Er & Hc & Hs & Hq). exists i, r. split_and!; [done..|].
  intros j r' Ej Hc' Hs'. pose proof (process_open _ _ _ _ _ _ Hg j r' Ej Hs') as Hj. rewrite Hc' in Hj. cbn in Hj.
  by eapply open_unique.
Qed.

(** From every reachable state the worker can go on, without a new call, until
    every call that has arrived has its reply, unless one of their jobs fails. *)
Theorem worker_answers_all (f0 : fs) (s : server) :
  reachable (initial f0) step s →
  ∃ s', rtc serve s s' ∧ received s' = received s ∧
    (quiet s' ∧ received s ≡ₚ (answered s').*1 ∨ ∃ e f, exec e s' = Some (Err f)).
Proof. apply service_answers_all. Qed.

(** ** Runs *)

Definition play (s : server) (es : list event) : server :=
  foldl (λ s e, match exec e s with Some (Ok s') => s' | _ => s end) s es.

Lemma play_steps es s : rtc step s (play s es).
Proof.
  revert s. induction es as [|e es IH]; intros s; [done|].
  change (play s (e :: es)) with (play (match exec e s with Some (Ok s') => s' | _ => s end) es).
  destruct (exec e s) as [[s'|]|] eqn:E; [|apply IH..]. eapply rtc_l; [|apply IH]. by exists e.
Qed.

Lemma play_service f0 es s : reachable (initial f0) step s → reachable (initial f0) step (play s es).
Proof. intros (s0 & H0 & Hs). exists s0. split; [done|]. etrans; [exact Hs|apply play_steps]. Qed.
End service.

(** ** Witnesses *)

(** A ping has been answered and its reply sent; a map job has been served; a reduce
    job is in the queue. *)
Definition demo_events : list event :=
  [Arrive 2 (Ping_query (str "m")); Arrive 0 (Map_query demo_map_query); Ping 2 3; Map_reduce 0 4;
   Sent 2; Arrive 1 (Reduce_query demo_reduce_query)].

Definition demo_start : server :=
  default (Server demo_worker_fs ∅ [] [] [] [] [] [])
    (match booted (str "localhost:50051") demo_worker_fs 0 1 2 with Ok s => Some s | Err _ => None end).

Definition demo : server := play demo_hash demo_factory demo_start demo_events.

Lemma service_demo_reachable :
  reachable (initial (str "localhost:50051") demo_worker_fs)
    (step demo_hash demo_factory) demo.
Proof.
  apply play_service, reachable_init. exists 0, 1, 2. split; [|vm_cast_no_check (eq_refl (Ok demo_start))].
  apply (bool_decide_unpack _). by vm_compute.
Qed.


Lemma worker_always_accepts_witness :
  requested demo = [3; 4] ∧ map_reduce_queue demo = [1] ∧
  ∃ i r, objects demo !! i = Some r ∧ class r = Reducing ∧ status_ r = PROCESS ∧
    (i ∈ requested demo ∨ i ∈ map_reduce_queue demo ++ ping_queue demo) ∧
    ∀ j r', objects demo !! j = Some r' → class r' = Reducing → status_ r' = PROCESS → j = i.
Proof.
  split; [by vm_compute|]. split; [by vm_compute|].
  apply (worker_always_accepts demo_hash demo_factory (str "localhost:50051") demo_worker_fs demo Reducing service_demo_reachable).
Defined.

Lemma worker_answers_all_witness :
  ∃ s', rtc (serve demo_hash demo_factory) demo s' ∧ received s' = received demo ∧
    (quiet s' ∧ received demo ≡ₚ (answered s').*1 ∨
     ∃ e f, exec demo_hash demo_factory e s' = Some (Err f)).
Proof.
  apply (worker_answers_all demo_hash demo_factory (str "localhost:50051") demo_worker_fs demo service_demo_reachable).
Defined.
