(* ===== verification/Master.v ===== *)
(** * The master (project4/src/master.h, master.cc, worker_client.cc, client_call.h)

    The bookkeeping of the master, one definition per critical section of its
    three threads: [run] (assigning jobs), [poll_workers] (the answers) and
    [monitor] (the failures).  The gRPC calls are the messages that these
    definitions produce and consume. *)
From S2P Require Import Prelude CxxString FileSystem MRSpec FileShard WorkerRequest.
From Stdlib Require Import Ascii.

(** ** State *)

Record WorkerClient := Client {
  map_shards : list FileShard;
  reduce_partitions : list Z;
  completed_map_jobs : Z;
  completed_reduce_jobs : Z
}.

#[export] Instance WorkerClient_eta : Eta WorkerClient := λ c,
  Client (map_shards c) (reduce_partitions c) (completed_map_jobs c) (completed_reduce_jobs c).

(** A [unique_ptr] in [ip_addr2worker] may be null: [operator[]] makes such an
    entry for a key it does not find. *)
Record Master := BuildMaster {
  m_user_id : cstr;
  m_output_dir : cstr;
  stop_monitoring : bool;
  trigger_monitoring : bool;
  num_workers : Z;
  num_dropped_workers : Z;
  num_dropped_map_jobs : Z;
  num_dropped_reduce_jobs : Z;
  num_map_msgs : Z;
  num_reduce_msgs : Z;
  num_shards : Z;
  m_num_partitions : Z;
  map_complete : bool;
  reduce_complete : bool;
  map_reduce_flag : bool;
  worker_ips : list cstr;
  dropped_worker_ips : list cstr;
  ip_addr2worker : gmap cstr (option WorkerClient);
  ready_queue : list cstr;
  shards : list FileShard;
  unfinished_shards : list FileShard;
  partitions : list Z;
  unfinished_partitions : list Z;
  worker2job : gmap cstr Z;
  m_intermediate_files : gset cstr;
  output_files : list cstr
}.

#[export] Instance Master_eta : Eta Master := λ m,
  BuildMaster (m_user_id m) (m_output_dir m) (stop_monitoring m) (trigger_monitoring m)
    (num_workers m) (num_dropped_workers m) (num_dropped_map_jobs m)
    (num_dropped_reduce_jobs m) (num_map_msgs m) (num_reduce_msgs m) (num_shards m)
    (m_num_partitions m) (map_complete m) (reduce_complete m) (map_reduce_flag m)
    (worker_ips m) (dropped_worker_ips m) (ip_addr2worker m) (ready_queue m) (shards m)
    (unfinished_shards m) (partitions m) (unfinished_partitions m) (worker2job m)
    (m_intermediate_files m) (output_files m).

Definition new_client : WorkerClient := Client [] [] 0 0.

(** The constructor. *)
Definition Master_init (s : MapReduceSpec) (file_shards : list FileShard) : Master :=
  let ips := take (Z.to_nat (n_workers s)) (worker_ipaddr_ports s) in
  BuildMaster (user_id s) (output_dir s) false false (n_workers s) 0 0 0 0 0
    (Z.of_nat (length file_shards)) (n_output_files s) false false false
    ips [] (list_to_map ((λ ip, (ip, Some new_client)) <$> ips)) ips file_shards [] [] []
    ∅ ∅ [].

(** [ip_addr2worker[ip].get()], which makes a null entry when there is none. *)
Definition client_get (m : Master) (ip : cstr) : Master * option WorkerClient :=
  match ip_addr2worker m !! ip with
  | Some c => (m, c)
  | None => (update ip_addr2worker (λ t, <[ip := None]> t) m, None)
  end.

Definition set_client (ip : cstr) (c : WorkerClient) (m : Master) : Master :=
  update ip_addr2worker (λ t, <[ip := Some c]> t) m.

(** ** worker_client.cc: the queries *)

Definition mapper_query (user : cstr) (n_partitions : Z) (s : FileShard) : MapQuery := {|
  mq_user_id := user; mq_n_partitions := n_partitions;
  mq_partitions := partition_of_piece <$> shard_pieces s |}.

Definition reducer_query (user : cstr) (id : Z) (dir : cstr) (fnames : list cstr) : ReduceQuery := {|
  rq_user_id := user; rq_files := fnames; rq_partition_id := id; rq_output_dir := dir |}.

(** [send_mapper_job] records the shard with the client. *)
Definition send_mapper_job (c : WorkerClient) (user : cstr) (n_partitions : Z)
    (s : FileShard) : WorkerClient * MapQuery :=
  (update map_shards (.++ [s]) c, mapper_query user n_partitions s).

(** [send_reducer_job] leaves [reduce_partitions] as it is. *)
Definition send_reducer_job (c : WorkerClient) (user : cstr) (id : Z) (dir : cstr)
    (fnames : list cstr) : WorkerClient * ReduceQuery :=
  (c, reducer_query user id dir fnames).

(** ** handle_worker_failure *)

Fixpoint erase_first (ip : cstr) (l : list cstr) : list cstr :=
  match l with
  | [] => []
  | x :: l' => if decide (x = ip) then l' else x :: erase_first ip l'
  end.

Definition remove_worker_ip (ip : cstr) (m : Master) : Master :=
  update dropped_worker_ips (.++ [ip])
    (update worker_ips (erase_first ip)
      (update ip_addr2worker (delete ip)
        (update worker2job (delete ip) m))).

(** The iteration order of a [std::set<std::string>]. *)
Definition set_order (s : gset cstr) : list cstr := merge_sort str_le (elements s).

(** [ip.substr(ip.find_first_of(":") + 1)] *)
Definition port_of (ip : cstr) : cstr :=
  match find_char ":"%char ip with Some i => drop (S i) ip | None => ip end.

(** The first intermediate file whose name contains the port is removed, and
    the loop stops there. *)
Definition drop_intermediate (base : cstr) (fm : fs * Master) : fs * Master :=
  match head (filter (λ x, Is_true (contains base x)) (set_order (m_intermediate_files fm.2))) with
  | Some x => (remove_file fm.1 x, update m_intermediate_files (.∖ {[x]}) fm.2)
  | None => fm
  end.

Definition handle_worker_failure (f : fs) (m : Master) (ip : cstr) : res (fs * Master) :=
  let '(m, c) := client_get m ip in
  if negb (map_complete m) then
    match c with
    | None => mret (f, m)
    | Some client =>
      let m := update unfinished_shards (.++ map_shards client) m in
      let m := update num_dropped_map_jobs (Z.add (completed_map_jobs client)) m in
      let m := remove_worker_ip ip m in
      let '(f, m) := drop_intermediate (port_of ip) (f, m) in
      mret (f, update num_dropped_workers Z.succ (update num_workers Z.pred m))
    end
  else
    client ← deref c;
    let m := update unfinished_partitions (.++ reduce_partitions client) m in
    let f := foldl (λ f id, remove_file f (output_name (m_output_dir m) id)) f
               (reduce_partitions client) in
    let m := update num_dropped_reduce_jobs (Z.add (completed_reduce_jobs client)) m in
    let m := remove_worker_ip ip m in
    mret (f, update num_dropped_workers Z.succ (update num_workers Z.pred m)).

(** ** monitor *)

(** A pong: [MonitorCall] when its RPC has finished. *)
Record MonitorCall := { mc_ok : bool; mc_worker_ip : cstr; mc_id : cstr }.

(** [send_monitor_ping]: the call, as it comes back with the identifier that the worker
    answered, or as a failure. *)
Definition send_monitor_ping (worker_port : cstr) (answer : option cstr) : MonitorCall := {|
  mc_ok := bool_decide (is_Some answer); mc_worker_ip := worker_port; mc_id := default [] answer |}.

(** The error flag and the address that [receive_monitor_pong] reports. *)
Definition receive_monitor_pong (call : MonitorCall) : bool * cstr :=
  if mc_ok call then (false, mc_id call) else (true, mc_worker_ip call).

(** What a pong does to [worker_status], the files and the master. *)
Definition monitor_pong (st : gmap cstr bool * (fs * Master)) (call : MonitorCall) :
    res (gmap cstr bool * (fs * Master)) :=
  let '(status, (f, m)) := st in
  let '(error_msg, ip) := receive_monitor_pong call in
  if negb error_msg then mret (<[ip := true]> status, (f, m))
  else
    fm ← handle_worker_failure f m ip;
    mret (<[ip := false]> status, fm).

(** ** poll_workers *)

Inductive ClientCall :=
| MapCall (ip : cstr) (ok : bool) (result : list cstr)
| ReduceCall (ip : cstr) (ok : bool) (result : cstr).

Definition call_ip (c : ClientCall) : cstr :=
  match c with MapCall ip _ _ | ReduceCall ip _ _ => ip end.
Definition call_ok (c : ClientCall) : bool :=
  match c with MapCall _ ok _ | ReduceCall _ ok _ => ok end.

(** The worker is ready again. *)
Definition release_worker (ip : cstr) (m : Master) : Master :=
  update worker2job (delete ip) (update ready_queue (.++ [ip]) m).

(** The treatment of one answer, up to the label [cleanup]. *)
Definition poll_call (m : Master) (call : ClientCall) : Master :=
  if call_ok call then
    if decide (call_ip call ∈ worker_ips m) then
      let '(m, c) := client_get (release_worker (call_ip call) m) (call_ip call) in
      match c with
      | None => m
      | Some client =>
        match call with
        | MapCall ip _ result =>
          update m_intermediate_files (.∪ list_to_set result)
            (set_client ip (update completed_map_jobs Z.succ client)
              (update num_map_msgs Z.succ m))
        | ReduceCall ip _ result =>
          update output_files (.++ [result])
            (set_client ip (update completed_reduce_jobs Z.succ client)
              (update num_reduce_msgs Z.succ m))
        end
      end
    else m
  else
    match call with
    | MapCall _ _ _ => update num_dropped_map_jobs Z.succ m
    | ReduceCall _ _ _ => update num_dropped_reduce_jobs Z.succ m
    end.

Definition notify_master (m : Master) : bool :=
  (bool_decide (num_dropped_workers m = 0%Z) &&
   bool_decide (num_map_msgs m - num_dropped_map_jobs m = num_shards m)%Z &&
   negb (map_complete m)) ||
  (bool_decide (num_dropped_workers m = 0%Z) &&
   bool_decide (num_reduce_msgs m - num_dropped_reduce_jobs m = m_num_partitions m)%Z &&
   negb (reduce_complete m)) ||
  bool_decide (0 < num_dropped_workers m)%Z.

(** What follows [cleanup], up to the wait: [Some is_map] when the thread hands
    over to [schedule_monitor] and waits. *)
Definition poll_handover (m : Master) : Master * option bool :=
  if map_reduce_flag m && notify_master m
  then (assign map_reduce_flag false m, Some (negb (map_complete m)))
  else (m, None).

(** After the wait, which ends when [map_reduce_flag] is set. *)
Definition poll_resume (m : Master) : Master := assign map_reduce_flag false m.

(** Whether the thread returns. *)
Definition poll_returns (m : Master) (handover : option bool) : bool :=
  let is_map := default false handover in
  (map_complete m && is_map) || (reduce_complete m && negb is_map).

(** ** schedule_monitor *)

Definition schedule_begin (m : Master) : Master := assign map_reduce_flag true m.

Definition schedule_trigger (m : Master) : Master := assign trigger_monitoring true m.

Definition schedule_decide (m : Master) : Master :=
  let m :=
    if negb (map_complete m) then
      if bool_decide (unfinished_shards m = []) &&
         bool_decide (num_map_msgs m - num_dropped_map_jobs m = num_shards m)%Z
      then assign map_complete true m else m
    else if negb (reduce_complete m) then
      if bool_decide (unfinished_partitions m = []) &&
         bool_decide (Z.of_nat (length (output_files m)) = m_num_partitions m)
      then assign reduce_complete true m else m
    else m in
  assign num_dropped_workers 0%Z (assign map_reduce_flag true m).

(** ** run *)

(** What one turn of an assignment loop does with the front of [ready_queue]:
    it waits, skips a dropped worker or sends the job. *)
Inductive turn := Wait | Skip | Sent (ip : cstr).

Definition assign_job (m : Master) (job : Z) : Master * turn :=
  match ready_queue m with
  | [] => (m, Wait)
  | ip :: rest =>
    let m := assign ready_queue rest m in
    if decide (ip ∈ dropped_worker_ips m) then (m, Skip)
    else (update worker2job (λ t, <[ip := job]> t) m, Sent ip)
  end.

Definition assign_shard (m : Master) (i : nat) : res (Master * option (cstr * MapQuery)) :=
  shard ← get (shards m) i;
  match assign_job m (Z.of_nat i) with
  | (m, Sent ip) =>
    let '(m, c) := client_get m ip in
    client ← deref c;
    let '(client, q) := send_mapper_job client (m_user_id m) (m_num_partitions m) shard in
    mret (set_client ip client m, Some (ip, q))
  | (m, _) => mret (m, None)
  end.

(** After [schedule_monitor] in the map loop: the flag that ends the loop. *)
Definition map_round_end (m : Master) : Master * bool :=
  let '(m, done) :=
    if bool_decide (unfinished_shards m = []) && map_complete m
    then (assign shards [] m, true) else (m, false) in
  if decide (0 < length (unfinished_shards m))
  then (assign unfinished_shards [] (assign shards (unfinished_shards m) m), done)
  else (m, done).

(** The partition index in the name of an intermediate file. *)
Definition file_index (name : cstr) : res Z :=
  let start := (find_int "/"%char name + 1)%Z in
  let stop := find_int "_"%char name in
  s ← substr name start (stop - start);
  stoi s.

Definition group_file (idx2files : gmap Z (list cstr)) (name : cstr) :
    res (gmap Z (list cstr)) :=
  idx ← file_index name;
  mret (<[idx := default [] (idx2files !! idx) ++ [name]]> idx2files).

Definition group_files (names : gset cstr) : res (gmap Z (list cstr)) :=
  mfoldl group_file ∅ (set_order names).

(** The reduce jobs are the indices found; the order of an [unordered_map] is
    not specified, the model takes that of its keys. *)
Definition start_reduce (m : Master) : res (Master * gmap Z (list cstr)) :=
  idx2files ← group_files (m_intermediate_files m);
  mret (update partitions (.++ (map_to_list idx2files).*1) m, idx2files).

Definition assign_partition (idx2files : gmap Z (list cstr)) (m : Master) (i : nat) :
    res (Master * option (cstr * ReduceQuery)) :=
  id ← get (partitions m) i;
  match assign_job m id with
  | (m, Sent ip) =>
    let '(m, c) := client_get m ip in
    client ← deref c;
    let '(client, q) := send_reducer_job client (m_user_id m) id (m_output_dir m)
                          (default [] (idx2files !! id)) in
    mret (set_client ip client m, Some (ip, q))
  | (m, _) => mret (m, None)
  end.

Definition reduce_round_end (m : Master) : Master * bool :=
  let '(m, done) :=
    if bool_decide (unfinished_partitions m = []) && reduce_complete m
    then (assign partitions [] m, true) else (m, false) in
  if decide (0 < length (unfinished_partitions m))
  then (assign unfinished_partitions [] (assign partitions (unfinished_partitions m) m), done)
  else (m, done).

Definition stop_monitor (m : Master) : Master :=
  assign trigger_monitoring true (assign stop_monitoring true m).

(** The intermediate files and their directory are removed at the end; a directory
    that is not empty stays. *)
Definition cleanup_files (f : fs) (m : Master) : fs * bool :=
  let f := foldl remove_file f (set_order (m_intermediate_files m)) in
  let '(f, status) := rmdir f (str "intermediate") in
  (f, bool_decide (status ≠ No_directory)).

(** ** Lemmas: names and groups of intermediate files *)

Lemma intermediate_name_parts port i :
  intermediate_name port i =
  str "intermediate" ++ "/"%char :: (to_string (Z.of_nat i) ++ "_"%char :: (port ++ str ".txt")).
Proof. reflexivity. Qed.

Lemma to_string_length z : i32_range z → length (to_string z) ≤ 33.
Proof.
  intros H.
  assert (∀ fuel n acc, length (decimal fuel n acc) ≤ fuel + length acc) as Hd.
  { induction fuel as [|fuel IH]; intros n acc; simpl; [lia|].
    case_decide; simpl; [lia|]. etrans; [apply IH|]. simpl. lia. }
  assert (∀ n, (0 ≤ n ≤ 2 ^ 31)%Z → dec_fuel n ≤ 32) as Hf.
  { intros n Hn. unfold dec_fuel. assert (Z.log2 n ≤ Z.log2 (2 ^ 31))%Z by (apply Z.log2_le_mono; lia).
    change (Z.log2 (2 ^ 31)) with 31%Z in *. lia. }
  unfold i32_range in H. unfold to_string. case_decide; cbn [length].
  - pose proof (Hd (dec_fuel (- z)) (- z)%Z []) as Hl. pose proof (Hf (- z)%Z ltac:(lia)).
    cbn [length] in Hl. lia.
  - pose proof (Hd (dec_fuel z) z []) as Hl. pose proof (Hf z ltac:(lia)).
    cbn [length] in Hl. lia.
Qed.

(** The index is what [to_string] printed between the slash and the
    underscore. *)
Lemma file_index_intermediate port i :
  (Z.of_nat i < 2 ^ 31)%Z → (Z.of_nat (length port) < 2 ^ 30)%Z →
  file_index (intermediate_name port i) = Ok (Z.of_nat i).
Proof.
  intros Hi Hp. assert (i32_range (Z.of_nat i)) as Hr by (unfold i32_range; lia).
  pose proof (to_string_length _ Hr) as Hlen.
  assert ("_"%char ∉ to_string (Z.of_nat i)) as Hu.
  { apply to_string_notin; [|done]. unfold is_digit. vm_compute. lia. }
  unfold file_index, find_int. rewrite intermediate_name_parts.
  rewrite (find_char_app "/"%char) by chars.
  set (rest := port ++ str ".txt").
  replace (str "intermediate" ++ "/"%char :: (to_string (Z.of_nat i) ++ "_"%char :: rest))
    with ((str "intermediate" ++ "/"%char :: to_string (Z.of_nat i)) ++ "_"%char :: rest)
    by by rewrite <-app_assoc.
  rewrite (find_char_app "_"%char).
  2: { rewrite elem_of_app, elem_of_cons. intros [H|[H|H]]; [|done|done]. revert H. chars. }
  set (name := (str "intermediate" ++ "/"%char :: to_string (Z.of_nat i))).
  assert (length name = 13 + length (to_string (Z.of_nat i))) as Hn by reflexivity.
  rewrite (i32_id (Z.of_nat (length name))) by (unfold i32_range; lia).
  change (length (str "intermediate")) with 12. rewrite (i32_id (Z.of_nat 12)) by (unfold i32_range; lia).
  unfold substr.
  assert (Z.of_nat (length (name ++ "_"%char :: rest)) < 2 ^ 31)%Z as Hl.
  { rewrite length_app. simpl. unfold rest. rewrite length_app. simpl. lia. }
  rewrite !u64_id by lia. rewrite decide_True by (rewrite length_app; simpl; lia).
  cbn [mbind res_bind].
  replace (take _ _) with (to_string (Z.of_nat i)); [by apply stoi_to_string|].
  rewrite Z.min_l by (rewrite length_app; simpl; lia).
  change (Z.to_nat (Z.of_nat 12 + 1)) with 13.
  change (drop 13 (name ++ "_"%char :: rest)) with (to_string (Z.of_nat i) ++ "_"%char :: rest).
  rewrite take_app_length'; [done|]. lia.
Qed.

Lemma set_order_Permutation s : set_order s ≡ₚ elements s.
Proof. apply merge_sort_Permutation. Qed.

Lemma elem_of_set_order s x : x ∈ set_order s ↔ x ∈ s.
Proof. rewrite set_order_Permutation. apply elem_of_elements. Qed.

Lemma set_order_NoDup s : NoDup (set_order s).
Proof. rewrite set_order_Permutation. apply NoDup_elements. Qed.

(** Grouping names whose indices are known. *)
Lemma group_names_lookup (idx : cstr → Z) names m i :
  (∀ x, x ∈ names → file_index x = Ok (idx x)) →
  ∃ m', mfoldl group_file m names = Ok m' ∧
    m' !! i = match filter (λ x, idx x = i) names with
              | [] => m !! i
              | xs => Some (default [] (m !! i) ++ xs)
              end.
Proof.
  revert m. induction names as [|x names IH]; intros m H; [by exists m|].
  cbn [mfoldl].
  assert (group_file m x = Ok (<[idx x := default [] (m !! idx x) ++ [x]]> m)) as ->.
  { unfold group_file. by rewrite H by left. }
  cbn [mbind res_bind].
  destruct (IH (<[idx x := default [] (m !! idx x) ++ [x]]> m)) as (m' & -> & Hm');
    [intros; apply H; by right|].
  exists m'. split; [done|]. rewrite Hm', filter_cons. case_decide as Hx.
  - subst i. rewrite lookup_insert_eq. simpl. unfold id.
    destruct (filter _ names); [done|]. by rewrite <-app_assoc.
  - by rewrite lookup_insert_ne.
Qed.

(** ** Lemmas: the end of a job *)

Lemma remove_files_dirs l f : fs_dirs (foldl remove_file f l) = fs_dirs f.
Proof. revert f. induction l as [|x l IH]; intros f; [done|]. cbn [foldl]. by rewrite IH. Qed.

(** The directory that [run] made is there to be removed. *)
Lemma cleanup_ok f m : str "intermediate" ∈ fs_dirs f → (cleanup_files f m).2 = true.
Proof.
  intros H. unfold cleanup_files, rmdir. rewrite remove_files_dirs, decide_True by done.
  by destruct (bool_decide (Forall _ _)).
Qed.
