(* ===== verification/MasterThreads.v ===== *)
(** * The threads of the master (project4/src/master.cc)

    [run], the two threads it starts on [poll_workers], one after the other, and the
    thread on [monitor] take turns in any order, while the workers answer, fail and
    write their files.  A step is one of the critical sections of Master.v, with what
    the thread does outside its mutexes up to the next one; a step of [run] that takes
    a worker and one that sends it the job are two steps, since the mutex is released
    in between.  MasterRun.v has the theorems. *)
From S2P Require Import Prelude CxxString FileSystem MRSpec FileShard WorkerRequest Master.

(** ** Data *)

(** The two halves of [run], whose loops differ in the fields they use. *)
Inductive phase := Mapping | Reducing.

#[export] Instance phase_eq_dec : EqDecision phase.
Proof. solve_decision. Defined.

(** Where [run] is: before [mkdir], in the wait for [initial_monitor_job], in the
    loop over the shards or partitions, in [schedule_monitor], at the [join] of the
    polling thread and at that of the monitoring thread. *)
Inductive run_pc :=
| Starting
| Waiting_first
| Assigning (ph : phase) (i : nat)
| Sending (ph : phase) (i : nat) (ip : cstr)
| Waiting_poll (ph : phase)
| Waiting_monitor (ph : phase)
| Joining (ph : phase)
| Joining_monitor
| Finished (result : bool).

(** Where [poll_workers] is: at the head of its loop, at [cleanup], in its wait for
    [map_reduce_flag], or at its end. *)
Inductive poll_pc := Polling | Treated | Handed (is_map : bool) | Returned.

(** Where [monitor] is: not yet started, at the head of its loop, waiting for the
    [i]-th pong, between its two checks, or at its end. *)
Inductive monitor_pc := Created | Looping | Receiving (i : nat) | Checking | Ended.

Inductive job := MapJob (q : MapQuery) | ReduceJob (q : ReduceQuery).

Inductive reply := MapperReply (files : list cstr) | ReducerReply (file : cstr).

(** [pending] are the jobs that workers have, [pings] the pings in flight; [sent] and
    [sent_partitions] record what was sent.  [idx2files] is a local variable of
    [run], [worker_status] one of [monitor].  [initial_monitor_job] is set before
    anything reads it. *)
Record system := System {
  master : Master;
  disk : fs;
  run_at : run_pc;
  poll_at : poll_pc;
  monitor_at : monitor_pc;
  initial_monitor_job : bool;
  worker_status : gmap cstr bool;
  pings : list cstr;
  idx2files : gmap Z (list cstr);
  pending : list (cstr * job);
  sent : list FileShard;
  sent_partitions : list Z
}.

#[export] Instance system_eta : Eta system := λ s,
  System (master s) (disk s) (run_at s) (poll_at s) (monitor_at s) (initial_monitor_job s)
    (worker_status s) (pings s) (idx2files s) (pending s) (sent s) (sent_partitions s).

Definition set_run (m : Master) (p : run_pc) (s : system) : system :=
  assign master m (assign run_at p s).

Definition set_poll (m : Master) (p : poll_pc) (s : system) : system :=
  assign master m (assign poll_at p s).

(** ** run *)

(** The jobs of a round, and the number that [worker2job] gets for the [i]-th. *)
Definition num_jobs (ph : phase) (m : Master) : nat :=
  match ph with Mapping => length (shards m) | Reducing => length (partitions m) end.

Definition job_number (ph : phase) (m : Master) (i : nat) : Z :=
  match ph with Mapping => Z.of_nat i | Reducing => default 0%Z (partitions m !! i) end.

(** The job is sent through the client of the worker. *)
Definition send_job (ph : phase) (i : nat) (ip : cstr) (s : system) : res system :=
  let m := master s in
  match ph with
  | Mapping =>
    shard ← get (shards m) i;
    let mc := client_get m ip in
    client ← deref mc.2;
    let cq := send_mapper_job client (m_user_id m) (m_num_partitions m) shard in
    mret (update sent (.++ [shard]) (update pending (.++ [(ip, MapJob cq.2)])
      (set_run (set_client ip cq.1 mc.1) (Assigning ph (S i)) s)))
  | Reducing =>
    id ← get (partitions m) i;
    let mc := client_get m ip in
    client ← deref mc.2;
    let cq := send_reducer_job client (m_user_id m) id (m_output_dir m)
                (default [] (idx2files s !! id)) in
    mret (update sent_partitions (.++ [id]) (update pending (.++ [(ip, ReduceJob cq.2)])
      (set_run (set_client ip cq.1 mc.1) (Assigning ph (S i)) s)))
  end.

Definition round_end (ph : phase) (m : Master) : Master * bool :=
  match ph with Mapping => map_round_end m | Reducing => reduce_round_end m end.

(** The polling thread has been joined: the partitions are found and the second one
    is started, or the monitoring thread is told to stop. *)
Definition phase_end (ph : phase) (s : system) : res system :=
  match ph with
  | Mapping =>
    mi ← start_reduce (master s);
    mret (assign idx2files mi.2 (set_poll mi.1 Polling (assign run_at (Assigning Reducing 0) s)))
  | Reducing => mret (set_run (stop_monitor (master s)) Joining_monitor s)
  end.

Definition run_step (s : system) : option (res system) :=
  let m := master s in
  match run_at s with
  | Starting =>
    Some (Ok (update disk (λ f, mkdir f (str "intermediate"))
      (assign initial_monitor_job true (assign run_at Waiting_first s))))
  | Waiting_first =>
    if initial_monitor_job s then None
    else Some (Ok (set_run (assign num_dropped_workers 0%Z m) (Assigning Mapping 0) s))
  | Assigning ph i =>
    if decide (i < num_jobs ph m) then
      match assign_job m (job_number ph m i) with
      | (_, Wait) => None
      | (m, Skip) => Some (Ok (set_run m (Assigning ph i) s))
      | (m, Sent ip) => Some (Ok (set_run m (Sending ph i ip) s))
      end
    else Some (Ok (set_run (schedule_begin m) (Waiting_poll ph) s))
  | Sending ph i ip => Some (send_job ph i ip s)
  | Waiting_poll ph =>
    if map_reduce_flag m then None
    else Some (Ok (set_run (schedule_trigger m) (Waiting_monitor ph) s))
  | Waiting_monitor ph =>
    if trigger_monitoring m then None
    else
      let md := round_end ph (schedule_decide m) in
      Some (Ok (set_run md.1 (if md.2 then Joining ph else Assigning ph 0) s))
  | Joining ph => match poll_at s with Returned => Some (phase_end ph s) | _ => None end
  | Joining_monitor =>
    match monitor_at s with
    | Ended =>
      let fb := cleanup_files (disk s) m in
      Some (Ok (assign disk fb.1 (assign run_at (Finished fb.2) s)))
    | _ => None
    end
  | Finished _ => None
  end.

(** ** poll_workers *)

(** The call that comes back through the completion queue; [None] is a call that
    failed. *)
Definition completed (ip : cstr) (j : job) (r : option reply) : option ClientCall :=
  match j, r with
  | MapJob _, None => Some (MapCall ip false [])
  | MapJob _, Some (MapperReply files) => Some (MapCall ip true files)
  | ReduceJob _, None => Some (ReduceCall ip false [])
  | ReduceJob _, Some (ReducerReply file) => Some (ReduceCall ip true file)
  | _, _ => None
  end.

(** The [j]-th job in flight ends and is treated. *)
Definition poll_answer (j : nat) (r : option reply) (s : system) : option (res system) :=
  match poll_at s with
  | Polling =>
    job ← pending s !! j;
    call ← completed job.1 job.2 r;
    Some (Ok (update pending (delete j) (set_poll (poll_call (master s) call) Treated s)))
  | _ => None
  end.

(** The end of the iteration, and what follows the wait. *)
Definition poll_goes_on (m : Master) (handover : option bool) (s : system) : system :=
  set_poll m (if poll_returns m handover then Returned else Polling) s.

Definition poll_step (s : system) : option (res system) :=
  let m := master s in
  match poll_at s with
  | Treated =>
    let mh := poll_handover m in
    Some (Ok (match mh.2 with
              | Some b => set_poll mh.1 (Handed b) s
              | None => poll_goes_on mh.1 None s
              end))
  | Handed b => if map_reduce_flag m then Some (Ok (poll_goes_on (poll_resume m) (Some b) s)) else None
  | _ => None
  end.

(** ** monitor *)

(** A ping goes to every worker, through its client. *)
Definition send_pings (m : Master) (l : list cstr) : res (Master * list cstr) :=
  mfoldl (λ st ip,
    let mc := client_get st.1 ip in
    _ ← deref mc.2;
    mret (mc.1, st.2 ++ [ip])) (m, l) (worker_ips m).

Definition monitor_step (s : system) : option (res system) :=
  let m := master s in
  match monitor_at s with
  | Created =>
    Some (Ok (assign initial_monitor_job true
      (assign master (assign stop_monitoring false m) (assign monitor_at Looping s))))
  | Looping =>
    if stop_monitoring m
    then Some (Ok (assign master (assign trigger_monitoring false m) (assign monitor_at Ended s)))
    else Some (
      mp ← send_pings m (pings s);
      mret (assign worker_status (list_to_map ((λ ip, (ip, false)) <$> worker_ips m))
        (assign pings mp.2 (assign master mp.1 (assign monitor_at (Receiving 0) s)))))
  | Receiving i =>
    if decide (Z.of_nat i < num_workers m)%Z then None
    else Some (Ok (assign initial_monitor_job false (assign monitor_at Checking s)))
  | Checking =>
    Some (Ok (assign master (assign trigger_monitoring false m) (assign monitor_at Looping s)))
  | Ended => None
  end.

(** The [k]-th ping in flight is answered, with the identifier that the worker gives
    itself, or fails. *)
Definition monitor_receives (k : nat) (answer : option cstr) (s : system) : option (res system) :=
  match monitor_at s with
  | Receiving i =>
    if decide (Z.of_nat i < num_workers (master s))%Z then
      ip ← pings s !! k;
      Some (
        st ← monitor_pong (worker_status s, (disk s, master s)) (send_monitor_ping ip answer);
        mret (assign worker_status st.1 (assign disk st.2.1 (assign master st.2.2
          (update pings (delete k) (assign monitor_at (Receiving (S i)) s))))))
    else None
  | _ => None
  end.

(** ** The system *)

Inductive event :=
| Run
| Answer (j : nat) (r : reply)
| Error (j : nat)
| Poll
| Monitor
| Pong (k : nat) (id : cstr)
| Lost (k : nat)
| Write (p text : cstr).

Definition exec (e : event) (s : system) : option (res system) :=
  match e with
  | Run => run_step s
  | Answer j r => poll_answer j (Some r) s
  | Error j => poll_answer j None s
  | Poll => poll_step s
  | Monitor => monitor_step s
  | Pong k id => monitor_receives k (Some id) s
  | Lost k => monitor_receives k None s
  | Write p text => Some (Ok (update disk (λ f, append_file f p text) s))
  end.

Definition step (s s' : system) : Prop := ∃ e, exec e s = Some (Ok s').

(** The intermediate files that workers report have an index below the number of
    partitions in their names. *)
Definition named (np : nat) (file : cstr) : Prop :=
  match file_index file with Ok i => (0 ≤ i < Z.of_nat np)%Z | Err _ => False end.

#[export] Instance named_dec np file : Decision (named np file).
Proof. unfold named. destruct (file_index file); apply _. Defined.

(** No worker fails, and none writes a file where the directory of the intermediate
    files is made. *)
Definition calm (np : nat) (e : event) : Prop :=
  match e with
  | Answer _ (MapperReply files) => Forall (named np) files
  | Error _ | Lost _ => False
  | Write p _ => p ≠ str "intermediate"
  | _ => True
  end.

#[export] Instance calm_dec np e : Decision (calm np e).
Proof. destruct e as [|? []|?| | |?|?|? ?]; cbn; apply _. Defined.

Definition calm_step (np : nat) (s s' : system) : Prop :=
  ∃ e, calm np e ∧ exec e s = Some (Ok s').

(** The state in which [run] begins. *)
Definition start (f : fs) (spec : MapReduceSpec) (l : list FileShard) : system :=
  System (Master_init spec l) f Starting Polling Created false ∅ [] ∅ [] [] [].

Definition finished (s : system) : Prop := ∃ b, run_at s = Finished b.

(** ** Invariant *)

(** The phase that [run] is in. *)
Definition cur (p : run_pc) : phase :=
  match p with
  | Assigning ph _ | Sending ph _ _ | Waiting_poll ph | Waiting_monitor ph | Joining ph => ph
  | Starting | Waiting_first => Mapping
  | Joining_monitor | Finished _ => Reducing
  end.

Definition job_phase (j : job) : phase :=
  match j with MapJob _ => Mapping | ReduceJob _ => Reducing end.

(** The fields that a phase counts its answers in and ends with. *)
Definition answered (ph : phase) (m : Master) : Z :=
  match ph with Mapping => num_map_msgs m | Reducing => num_reduce_msgs m end.

Definition complete (ph : phase) (m : Master) : bool :=
  match ph with Mapping => map_complete m | Reducing => reduce_complete m end.

Definition is_map (ph : phase) : bool := match ph with Mapping => true | Reducing => false end.

(** The partitions that [run] has found. *)
Definition keys (s : system) : list Z := (map_to_list (idx2files s)).*1.

Section calm.
Context (np : nat) (l : list FileShard) (ips : list cstr) (Hnp : np ≠ 0).

(** How many jobs there are, how many the code waits for, and how many of them were
    sent. *)
Definition jobs (s : system) (ph : phase) : nat :=
  match ph with Mapping => length l | Reducing => length (keys s) end.

Definition total (ph : phase) : nat := match ph with Mapping => length l | Reducing => np end.

Definition sent_in (k : nat) (p : run_pc) : nat :=
  match p with
  | Starting | Waiting_first => 0
  | Assigning _ i | Sending _ i _ => i
  | _ => k
  end.

Definition taken (p : run_pc) : nat := match p with Sending _ _ _ => 1 | _ => 0 end.

(** What does not change while no worker fails. *)
Record frame (m : Master) : Prop := {
  fr_ips : worker_ips m = ips;
  fr_dropped_ips : dropped_worker_ips m = [];
  fr_dropped : num_dropped_workers m = 0%Z;
  fr_dropped_jobs : num_dropped_map_jobs m = 0%Z ∧ num_dropped_reduce_jobs m = 0%Z;
  fr_partitions : m_num_partitions m = Z.of_nat np;
  fr_unfinished : unfinished_shards m = [] ∧ unfinished_partitions m = [];
  fr_shards : num_shards m = Z.of_nat (length l);
  fr_workers : num_workers m = Z.of_nat (length ips);
  fr_clients ip : ip ∈ ips → ∃ c, ip_addr2worker m !! ip = Some (Some c);
  fr_ready ip : ip ∈ ready_queue m → ip ∈ ips;
  fr_files x : x ∈ m_intermediate_files m → named np x;
  fr_outputs : Z.of_nat (length (output_files m)) = num_reduce_msgs m
}.

Definition work (s : system) (ph : phase) : Prop :=
  match ph with Mapping => shards (master s) = l | Reducing => partitions (master s) = keys s end.

(** What the phase that is not the current one has left or will find. *)
Definition background (s : system) : Prop :=
  let m := master s in
  match cur (run_at s) with
  | Mapping => reduce_complete m = false ∧ num_reduce_msgs m = 0%Z ∧ partitions m = [] ∧
      sent s = take (sent_in (length l) (run_at s)) l ∧ sent_partitions s = []
  | Reducing => map_complete m = true ∧ num_map_msgs m = Z.of_nat (length l) ∧
      group_files (m_intermediate_files m) = Ok (idx2files s) ∧
      sent s = l ∧ sent_partitions s = take (sent_in (length (keys s)) (run_at s)) (keys s)
  end.

Definition polling (s : system) : Prop := poll_at s = Polling ∨ poll_at s = Treated.

(** What holds of the flags while [run] and [poll_workers] are where they are. *)
Definition control (s : system) : Prop :=
  let m := master s in
  match run_at s with
  | Starting | Waiting_first =>
    map_reduce_flag m = false ∧ poll_at s = Polling ∧ map_complete m = false ∧ shards m = l ∧ pending s = []
  | Assigning ph i =>
    i ≤ jobs s ph ∧ map_reduce_flag m = false ∧ polling s ∧ complete ph m = false ∧ work s ph
  | Sending ph i ip =>
    i < jobs s ph ∧ ip ∈ ips ∧ map_reduce_flag m = false ∧ polling s ∧ complete ph m = false ∧ work s ph
  | Waiting_poll ph =>
    complete ph m = false ∧ work s ph ∧
    (map_reduce_flag m = true ∧ polling s ∨
     map_reduce_flag m = false ∧ poll_at s = Handed (is_map ph) ∧ pending s = [] ∧ jobs s ph = total ph)
  | Waiting_monitor ph =>
    complete ph m = false ∧ work s ph ∧
    map_reduce_flag m = false ∧ poll_at s = Handed (is_map ph) ∧ pending s = [] ∧ jobs s ph = total ph
  | Joining ph =>
    complete ph m = true ∧ pending s = [] ∧ jobs s ph = total ph ∧
    (map_reduce_flag m = true ∧ poll_at s = Handed (is_map ph) ∨
     map_reduce_flag m = false ∧ poll_at s = Returned)
  | Joining_monitor => pending s = [] ∧ jobs s Reducing = total Reducing ∧ poll_at s = Returned
  | Finished b => pending s = [] ∧ jobs s Reducing = total Reducing ∧ poll_at s = Returned ∧ b = true
  end.

(** [run] has told [monitor] to stop. *)
Definition stopping (p : run_pc) : bool :=
  match p with Joining_monitor | Finished _ => true | _ => false end.

Definition monitor_ok (s : system) : Prop :=
  stop_monitoring (master s) = stopping (run_at s) ∧
  match monitor_at s with
  | Created => pings s = [] ∧
      (run_at s = Starting ∨ run_at s = Waiting_first ∧ initial_monitor_job s = true)
  | Receiving i => i + length (pings s) = length ips
  | Ended => pings s = [] ∧ stopping (run_at s) = true
  | Looping | Checking => pings s = []
  end.

Record good (s : system) : Prop := {
  gd_frame : frame (master s);
  gd_background : background s;
  gd_msgs : (answered (cur (run_at s)) (master s) + Z.of_nat (length (pending s)) =
    Z.of_nat (sent_in (jobs s (cur (run_at s))) (run_at s)))%Z;
  gd_pending ip j : (ip, j) ∈ pending s → ip ∈ ips ∧ job_phase j = cur (run_at s);
  gd_workers : length (ready_queue (master s)) + length (pending s) + taken (run_at s) = length ips;
  gd_control : control s;
  gd_monitor : monitor_ok s;
  gd_disk : match run_at s with
            | Starting => read_file (disk s) (str "intermediate") = None
            | Finished _ => True
            | _ => str "intermediate" ∈ fs_dirs (disk s)
            end
}.

(** ** Lemmas *)

(** *** The partitions *)

Lemma group_files_named names :
  (∀ x, x ∈ names → named np x) → ∃ g, group_files names = Ok g ∧
    ∀ i, is_Some (g !! i) ↔ ∃ x, x ∈ names ∧ file_index x = Ok i.
Proof.
  intros H. set (idx x := match file_index x with Ok i => i | Err _ => 0%Z end).
  assert (∀ x, x ∈ set_order names → file_index x = Ok (idx x)) as Hidx.
  { intros x Hx%elem_of_set_order%H. unfold named in Hx. unfold idx. by destruct (file_index x). }
  destruct (group_names_lookup idx (set_order names) ∅ 0%Z Hidx) as (g & Hg & _).
  exists g. split; [done|]. intros i.
  destruct (group_names_lookup idx (set_order names) ∅ i Hidx) as (g' & Hg' & Hi).
  assert (g' = g) as -> by congruence. rewrite Hi, lookup_empty. split.
  - destruct (filter _ _) as [|x xs] eqn:E; [by intros [? ?]|]. intros _.
    assert (x ∈ filter (λ x, idx x = i) (set_order names)) as [Hx Hin]%list_elem_of_filter by (rewrite E; left).
    exists x. rewrite Hidx by done. rewrite <-elem_of_set_order. by rewrite Hx.
  - intros (x & Hx & Ex). destruct (filter _ _) as [|y ys] eqn:E; [|by eexists].
    assert (x ∈ filter (λ x, idx x = i) (set_order names)) as Hf; [|rewrite E in Hf; by apply elem_of_nil in Hf].
    apply list_elem_of_filter. rewrite elem_of_set_order. split; [|done]. unfold idx. by rewrite Ex.
Qed.

Lemma keys_NoDup s : NoDup (keys s).
Proof. apply NoDup_fst_map_to_list. Qed.

Lemma elem_of_keys s i : i ∈ keys s ↔ is_Some (idx2files s !! i).
Proof.
  unfold keys. rewrite list_elem_of_fmap. split.
  - intros ([k v] & -> & H%elem_of_map_to_list). by exists v.
  - intros [v H]. exists (i, v). by rewrite elem_of_map_to_list.
Qed.

(** Every partition is named by a file. *)
Definition full (m : Master) : Prop :=
  ∀ i : nat, i < np → ∃ x, x ∈ m_intermediate_files m ∧ file_index x = Ok (Z.of_nat i).

Lemma keys_below s :
  frame (master s) → group_files (m_intermediate_files (master s)) = Ok (idx2files s) →
  keys s ⊆+ (Z.of_nat <$> seq 0 np).
Proof.
  intros Hf Hg. apply NoDup_submseteq; [apply keys_NoDup|]. intros i Hi%elem_of_keys.
  destruct (group_files_named _ (fr_files _ Hf)) as (g & Hg' & Hk).
  assert (g = idx2files s) as -> by congruence.
  apply Hk in Hi as (x & Hx%(fr_files _ Hf) & Ex). unfold named in Hx. rewrite Ex in Hx.
  apply list_elem_of_fmap. exists (Z.to_nat i). rewrite elem_of_seq. lia.
Qed.

Lemma keys_le s :
  frame (master s) → group_files (m_intermediate_files (master s)) = Ok (idx2files s) →
  length (keys s) ≤ np.
Proof.
  intros Hf Hg. pose proof (submseteq_length _ _ (keys_below s Hf Hg)) as H.
  by rewrite length_fmap, length_seq in H.
Qed.

(** There are as many partitions as the code waits for when every one is named. *)
Lemma keys_full s :
  frame (master s) → group_files (m_intermediate_files (master s)) = Ok (idx2files s) →
  length (keys s) = np ↔ full (master s).
Proof.
  intros Hf Hg. pose proof (keys_below s Hf Hg) as Hsub.
  destruct (group_files_named _ (fr_files _ Hf)) as (g & Hg' & Hk).
  assert (g = idx2files s) as -> by congruence. split.
  - intros Hl i Hi. apply Hk, elem_of_keys.
    rewrite (submseteq_length_Permutation _ _ Hsub) by (rewrite length_fmap, length_seq; lia).
    apply list_elem_of_fmap. exists i. rewrite elem_of_seq. lia.
  - intros Hfull. pose proof (keys_le s Hf Hg).
    enough (np ≤ length (keys s)) by lia.
    rewrite <-(length_seq np 0) at 1. rewrite <-(length_fmap Z.of_nat).
    apply submseteq_length, NoDup_submseteq; [apply NoDup_fmap_2; [apply _|apply NoDup_seq]|].
    intros i (k & -> & Hin%elem_of_seq)%list_elem_of_fmap. apply elem_of_keys, Hk, Hfull. lia.
Qed.

(** *** One section *)

(** What most sections leave as it is. *)
Definition flags (m : Master) :=
  (map_reduce_flag m, stop_monitoring m, trigger_monitoring m, map_complete m, reduce_complete m).
Definition loads (m : Master) :=
  (shards m, partitions m, num_map_msgs m, num_reduce_msgs m, m_intermediate_files m).

(** Updates of the other fields keep the frame. *)
Ltac frame_same Hf := destruct Hf; split; cbn; done.

Lemma frame_flag b m : frame m → frame (assign map_reduce_flag b m).
Proof. intros Hf. frame_same Hf. Qed.

Lemma frame_trigger b m : frame m → frame (assign trigger_monitoring b m).
Proof. intros Hf. frame_same Hf. Qed.

Lemma frame_stop b m : frame m → frame (assign stop_monitoring b m).
Proof. intros Hf. frame_same Hf. Qed.

Lemma frame_dropped m : frame m → frame (assign num_dropped_workers 0%Z m).
Proof. intros Hf. frame_same Hf. Qed.

Lemma frame_partitions ps m : frame m → frame (assign partitions ps m).
Proof. intros Hf. frame_same Hf. Qed.

(** A worker is taken from the queue. *)
Lemma assign_job_ok m job :
  frame m → match ready_queue m with
  | [] => assign_job m job = (m, Wait)
  | ip :: rest => ∃ m', assign_job m job = (m', Sent ip) ∧ frame m' ∧ ip ∈ ips ∧ ready_queue m' = rest ∧
      flags m' = flags m ∧ loads m' = loads m
  end.
Proof.
  intros Hf. unfold assign_job. destruct (ready_queue m) as [|ip rest] eqn:Er; [done|].
  destruct Hf. rewrite Er in *. cbn.
  rewrite decide_False by (rewrite fr_dropped_ips0; apply not_elem_of_nil).
  eexists. split; [reflexivity|]. split; [|split_and!; try done; apply fr_ready0; left].
  split; cbn; try done. intros x Hx. apply fr_ready0. by right.
Qed.

Lemma set_client_frame ip c m : frame m → frame (set_client ip c m).
Proof.
  intros Hf. destruct Hf. split; cbn; try done. intros x Hx. destruct (decide (x = ip)) as [->|Hne].
  - rewrite lookup_insert_eq. by eexists.
  - rewrite lookup_insert_ne by done. by apply fr_clients0.
Qed.

Lemma client_ok m ip : frame m → ip ∈ ips → ∃ c, client_get m ip = (m, Some c).
Proof.
  intros Hf Hip. destruct (fr_clients _ Hf ip Hip) as [c Hc]. exists c. unfold client_get. by rewrite Hc.
Qed.

(** The names of the intermediate files that a reply brings. *)
Definition reply_files (r : reply) : list cstr :=
  match r with MapperReply files => files | ReducerReply _ => [] end.

(** An answer is counted and its worker queued. *)
Lemma poll_call_ok m ip j r call :
  frame m → ip ∈ ips → completed ip j (Some r) = Some call → Forall (named np) (reply_files r) →
  ∃ m', poll_call m call = m' ∧ frame m' ∧ flags m' = flags m ∧
    shards m' = shards m ∧ partitions m' = partitions m ∧ ready_queue m' = ready_queue m ++ [ip] ∧
    m_intermediate_files m' = m_intermediate_files m ∪ list_to_set (reply_files r) ∧
    ∀ ph, answered ph m' = (answered ph m + if decide (ph = job_phase j) then 1 else 0)%Z.
Proof.
  intros Hf Hip Ec Hn. destruct (fr_clients _ Hf ip Hip) as [c Hc]. eexists. split; [reflexivity|].
  assert (call_ok call = true ∧ call_ip call = ip) as [E1 E2] by (destruct j, r; cbn in Ec; by simplify_eq).
  unfold poll_call. rewrite E1, E2, decide_True by by rewrite (fr_ips _ Hf).
  unfold client_get, release_worker. cbn [ip_addr2worker update eta Master_eta]. rewrite Hc.
  assert (∀ c' x, x ∈ ips → ∃ c0, <[ip:=Some c']> (ip_addr2worker m) !! x = Some (Some c0)) as Hcl.
  { intros c' x Hx. destruct (decide (x = ip)) as [->|Hne]; [rewrite lookup_insert_eq; by eexists|].
    rewrite lookup_insert_ne by done. by apply (fr_clients _ Hf). }
  assert (∀ x, x ∈ ready_queue m ++ [ip] → x ∈ ips) as Hr.
  { intros x. rewrite elem_of_app, list_elem_of_singleton. intros [Hx| ->]; [by apply (fr_ready _ Hf)|done]. }
  destruct Hf. rewrite Forall_forall in Hn.
  clear E1 E2. destruct j, r; try done; injection Ec as <-; cbn in Hn.
  - split; [|split_and!; try done; by intros []; cbn; case_decide; lia || done].
    split; cbn; try done; [intros x Hx; by apply Hcl|].
    intros x [Hx|Hx%elem_of_list_to_set]%elem_of_union; [by apply fr_files0|by apply Hn].
  - split; [|split_and!; try done; [cbn; set_solver|by intros []; cbn; case_decide; lia || done]].
    split; cbn; try done; [intros x Hx; by apply Hcl|]. rewrite length_app. cbn. lia.
Qed.

(** The thread hands over when the last answer has come and the flag is set. *)
Lemma notify_ok m ph :
  frame m → complete ph m = false →
  match ph with
  | Mapping => num_reduce_msgs m = 0%Z ∧ reduce_complete m = false
  | Reducing => map_complete m = true
  end → notify_master m = bool_decide (answered ph m = Z.of_nat (total ph)).
Proof using Hnp.
  intros [H1 H2 H3 [H4 H5] H6 H7 H8 H9 H10] Hc Hb. unfold notify_master.
  rewrite H3, H4, H5, H6, H8, !Z.sub_0_r. destruct ph; cbn in *.
  - destruct Hb as [-> ->]. rewrite Hc. cbn. rewrite (bool_decide_eq_false_2 (0 = Z.of_nat np)%Z) by lia.
    by rewrite andb_true_r, !orb_false_r.
  - rewrite Hb, Hc. cbn. by rewrite andb_false_r, andb_true_r, orb_false_r.
Qed.

(** The decision after the last answer ends the phase. *)
Lemma decide_ok m ph :
  frame m → complete ph m = false → answered ph m = Z.of_nat (total ph) →
  (ph = Reducing → map_complete m = true) →
  ∃ m', round_end ph (schedule_decide m) = (m', true) ∧ frame m' ∧ complete ph m' = true ∧
    map_reduce_flag m' = true ∧ ready_queue m' = ready_queue m ∧
    (∀ ph', answered ph' m' = answered ph' m) ∧ (∀ ph', ph' ≠ ph → complete ph' m' = complete ph' m) ∧
    stop_monitoring m' = stop_monitoring m ∧ m_intermediate_files m' = m_intermediate_files m ∧
    (ph = Mapping → partitions m' = partitions m).
Proof.
  intros Hf Hc Hm Hmap. destruct Hf as [H1 H2 H3 [H4 H5] H6 [H7 H8] H9 H10 H11 H12 H13 H14].
  unfold schedule_decide. destruct ph; cbn in *.
  - rewrite Hc, H7, H4, H9, Hm. cbn. rewrite Z.sub_0_r, bool_decide_true by done.
    unfold map_round_end. cbn. rewrite H7. cbn. rewrite H7. cbn.
    eexists. split; [reflexivity|]. split; [split; cbn; try done|]. split_and!; try done; by intros [].
  - rewrite Hmap, Hc, H8, H6, H14, Hm by done. cbn. rewrite bool_decide_true by done.
    unfold reduce_round_end. cbn. rewrite H8. cbn. rewrite H8. cbn.
    eexists. split; [reflexivity|]. split; [split; cbn; try done|]. split_and!; try done; by intros [].
Qed.

(** *** Steps of [run] *)

#[local] Arguments str : simpl never.
#[local] Arguments read_file : simpl never.
#[local] Arguments mkdir : simpl never.
#[local] Arguments append_file : simpl never.

Lemma monitor_run s s' :
  monitor_ok s → run_at s ≠ Starting → (run_at s = Waiting_first → initial_monitor_job s = false) →
  monitor_at s' = monitor_at s → pings s' = pings s →
  stop_monitoring (master s') = stop_monitoring (master s) → stopping (run_at s') = stopping (run_at s) →
  monitor_ok s'.
Proof.
  intros [Hs Hm] Hns Hw Em Ep Est Erun. unfold monitor_ok. rewrite Em, Ep, Est, Erun. split; [done|].
  destruct (monitor_at s); try done. destruct Hm as [_ [?|[Hr Hi]]]; [done|]. rewrite Hw in Hi; done.
Qed.

Lemma run_begins_good s x :
  run_at s = Starting ∨ run_at s = Waiting_first → good s → run_step s = Some x → ∃ s', x = Ok s' ∧ good s'.
Proof.
  intros Hr [Hf Hb Hm Hp Hw Hc Hmo Hd] E. unfold run_step in E. unfold control, background in *.
  destruct Hr as [Er|Er]; rewrite Er in *; cbn in *.
  - injection E as <-. eexists. split; [done|]. split; cbn; try done.
    + unfold monitor_ok in *. cbn. rewrite Er in Hmo. destruct Hmo as [Hst Hmo]. split; [done|].
      destruct (monitor_at s); try done. destruct Hmo. split; [done|by right].
    + unfold mkdir. rewrite Hd. cbn. set_solver.
  - destruct (initial_monitor_job s) eqn:Ei; [done|]. injection E as <-. eexists. split; [done|].
    destruct Hc as (Hfl & Hpo & Hco & Hsh & Hpe). split; cbn; try done.
    + by apply frame_dropped.
    + split_and!; try done; [lia|by left].
    + apply (monitor_run s); cbn; rewrite ?Er; done.
Qed.

Lemma run_assigns_good s x ph i :
  run_at s = Assigning ph i → good s → run_step s = Some x → ∃ s', x = Ok s' ∧ good s'.
Proof.
  intros Er [Hf Hb Hm Hp Hw Hc Hmo Hd] E. unfold run_step in E. unfold control, background in *.
  rewrite Er in *. cbn in Hm, Hp, Hw, Hb, Hd. destruct Hc as (Hi & Hfl & Hpo & Hco & Hwk).
  assert (num_jobs ph (master s) = jobs s ph) as Hn by (destruct ph; cbn in *; by rewrite Hwk).
  rewrite Hn in E. case_decide as Hlt.
  - pose proof (assign_job_ok (master s) (job_number ph (master s) i) Hf) as Ha.
    destruct (ready_queue (master s)) as [|ip rest] eqn:Eq; [by rewrite Ha in E|].
    destruct Ha as (m' & Ea & Hf' & Hip & Er' & Hfg & Hld). rewrite Ea in E. injection E as <-.
    unfold flags in Hfg. injection Hfg as E1 E2 E3 E4 E5. unfold loads in Hld. injection Hld as L1 L2 L3 L4 L5.
    eexists. split; [done|]. split; cbn; try done.
    + unfold background. cbn. by destruct ph; cbn in *; rewrite ?E4, ?E5, ?L2, ?L3, ?L4, ?L5.
    + destruct ph; cbn in *; by rewrite ?L3, ?L4.
    + rewrite Er'. cbn in *. lia.
    + split_and!; try done; [congruence|destruct ph; cbn in *; congruence|].
      destruct ph; cbn in *; by rewrite ?L1, ?L2.
    + apply (monitor_run s); cbn; rewrite ?Er; done.
  - injection E as <-. assert (i = jobs s ph) as -> by lia. eexists. split; [done|]. split; cbn; try done.
    + by apply frame_flag.
    + unfold background. cbn. destruct ph; cbn in *; [|done]. done.
    + split; [by destruct ph|]. split; [by destruct ph|]. by left.
    + apply (monitor_run s); cbn; rewrite ?Er; done.
Qed.

(** A job has been sent. *)
Lemma job_sent_good s s' ph i ip j c :
  run_at s = Sending ph i ip → good s → job_phase j = ph →
  master s' = set_client ip c (master s) → disk s' = disk s → run_at s' = Assigning ph (S i) →
  poll_at s' = poll_at s → monitor_at s' = monitor_at s → pings s' = pings s →
  idx2files s' = idx2files s → pending s' = pending s ++ [(ip, j)] →
  (sent s', sent_partitions s') =
    match ph with
    | Mapping => (take (S i) l, sent_partitions s)
    | Reducing => (sent s, take (S i) (keys s))
    end → good s'.
Proof.
  intros Er [Hf Hb Hm Hp Hw Hc Hmo Hd] Hj Em Ed Er' Ep Emo Epi Ek Epe Es. unfold control, background in *.
  rewrite Er in *. cbn in Hm, Hp, Hw, Hb, Hd. destruct Hc as (Hi & Hip & Hfl & Hpo & Hco & Hwk).
  assert (keys s' = keys s) as Ek' by (unfold keys; by rewrite Ek).
  split; unfold background, control; rewrite ?Er', ?Em, ?Ed, ?Epe; cbn.
  - by apply set_client_frame.
  - rewrite Ek, Ek'. destruct ph; injection Es as -> ->; cbn; naive_solver.
  - rewrite length_app. cbn. destruct ph; cbn in *; lia.
  - intros ip' j' [H|H]%elem_of_app; [by apply Hp|]. apply list_elem_of_singleton in H as [= -> ->]. done.
  - rewrite length_app. cbn. lia.
  - unfold polling, work, jobs in *. rewrite Ep, Em, Ek'. destruct ph; cbn in *; split_and!; done || lia.
  - apply (monitor_run s); rewrite ?Er, ?Er', ?Em; done.
  - done.
Qed.

Lemma run_sends_good s x ph i ip :
  run_at s = Sending ph i ip → good s → run_step s = Some x → ∃ s', x = Ok s' ∧ good s'.
Proof.
  intros Er Hg E. pose proof Hg as [Hf Hb _ _ _ Hc _ _]. unfold run_step in E. rewrite Er in E. injection E as <-.
  unfold control, background in *. rewrite Er in *. cbn in Hb. destruct Hc as (Hi & Hip & _ & _ & _ & Hwk).
  destruct (client_ok (master s) ip Hf Hip) as [c Ec]. unfold send_job.
  destruct ph; cbn in Hwk, Hi; rewrite Hwk, Ec; cbn [deref fst snd].
  - destruct (lookup_lt_is_Some_2 l i Hi) as [sh Esh]. unfold get. rewrite Esh. cbn.
    eexists. split; [done|]. eapply (job_sent_good s _ Mapping i ip (MapJob _)); try done; [reflexivity..|]. cbn. f_equal.
    destruct Hb as (_ & _ & _ & -> & _). symmetry. by apply take_S_r.
  - destruct (lookup_lt_is_Some_2 (keys s) i Hi) as [id Eid]. unfold get. rewrite Eid. cbn.
    eexists. split; [done|]. eapply (job_sent_good s _ Reducing i ip (ReduceJob _)); try done; [reflexivity..|]. cbn. f_equal.
    destruct Hb as (_ & _ & _ & _ & ->). symmetry. by apply take_S_r.
Qed.

Lemma run_waits_good s x ph :
  run_at s = Waiting_poll ph ∨ run_at s = Waiting_monitor ph → good s → run_step s = Some x →
  ∃ s', x = Ok s' ∧ good s'.
Proof.
  intros Hr [Hf Hb Hm Hp Hw Hc Hmo Hd] E. unfold run_step in E. unfold control, background in *.
  destruct Hr as [Er|Er]; rewrite Er in *; cbn in Hm, Hp, Hw, Hb, Hd; destruct Hc as (Hco & Hwk & Hc).
  - destruct (map_reduce_flag (master s)) eqn:Hfl; [done|]. injection E as <-.
    destruct Hc as [[? _]|(_ & Hpo & Hpe & Hj)]; [done|].
    eexists. split; [done|]. split; cbn; try done.
    + by apply frame_trigger.
    + apply (monitor_run s); cbn; rewrite ?Er; done.
  - destruct Hc as (Hfl & Hpo & Hpe & Hj). destruct (trigger_monitoring (master s)); [done|].
    rewrite Hpe, Hj in Hm. cbn in Hm.
    destruct (decide_ok (master s) ph Hf Hco ltac:(lia)) as (m' & Ed & Hf' & Hco' & Hfl' & Hr' & Ha' & Hc' & Hst' & Hfi' & Hpa').
    { intros ->. apply Hb. }
    rewrite Ed in E. injection E as <-. cbn.
    eexists. split; [done|]. split; cbn; try done.
    + unfold background. cbn. pose proof (Ha' Mapping) as A1. pose proof (Ha' Reducing) as A2. cbn in A1, A2.
      destruct ph; cbn in *; rewrite ?A1, ?A2, ?Hfi'.
      * pose proof (Hc' Reducing ltac:(done)) as C. cbn in C. by rewrite C, Hpa'.
      * pose proof (Hc' Mapping ltac:(done)) as C. cbn in C. by rewrite C.
    + rewrite Ha', Hpe. cbn. change (jobs (set_run _ _ s) ph) with (jobs s ph). lia.
    + rewrite Hr'. done.
    + split; [done|]. split; [done|]. split; [done|]. by left.
    + apply (monitor_run s); cbn; rewrite ?Er; done.
Qed.

Lemma run_joins_good s x ph :
  run_at s = Joining ph → good s → run_step s = Some x → ∃ s', x = Ok s' ∧ good s'.
Proof.
  intros Er [Hf Hb Hm Hp Hw Hc Hmo Hd] E. unfold run_step in E. unfold control, background in *.
  rewrite Er in *; cbn in Hm, Hp, Hw, Hb, Hd. destruct Hc as (Hco & Hpe & Hj & Hc).
  destruct (poll_at s) eqn:Hpo; try done. injection E as <-. destruct Hc as [[_ ?]|[Hfl _]]; [done|].
  rewrite Hpe in *. rewrite Hj in Hm. cbn in Hm. destruct ph; cbn in *.
  - destruct (group_files_named _ (fr_files _ Hf)) as (g & Hg & _). unfold start_reduce. rewrite Hg. cbn.
    destruct Hb as (Hrc & Hrm & Hpa & Hse & Hsp). eexists. split; [done|]. split; cbn; try done.
    + by apply frame_partitions.
    + unfold background. cbn. rewrite Hsp, Hse, firstn_all. split_and!; try done. lia.
    + rewrite Hpe, Hrm. done.
    + intros ip j. by rewrite Hpe, elem_of_nil.
    + by rewrite Hpe.
    + split_and!; try done; [lia|by left|cbn; by rewrite Hpa].
    + apply (monitor_run s); cbn; rewrite ?Er; done.
  - eexists. split; [done|]. split; cbn; try done.
    + apply frame_trigger, frame_stop, Hf.
    + rewrite Hpe. cbn. change (keys (set_run _ _ s)) with (keys s). lia.
    + intros ip j. by rewrite Hpe, elem_of_nil.
    + by rewrite Hpe.
    + unfold monitor_ok in *. cbn. rewrite Er in Hmo. destruct Hmo as [_ Hmo]. split; [done|].
      destruct (monitor_at s); try done; [destruct Hmo as [_ [?|[? _]]]; done|]. by destruct Hmo.
Qed.

Lemma run_good s x : good s → run_step s = Some x → ∃ s', x = Ok s' ∧ good s'.
Proof using Hnp.
  intros Hg E. destruct (run_at s) as [| |ph i|ph i ip|ph|ph|ph| |b] eqn:Er.
  - apply (run_begins_good s); auto.
  - apply (run_begins_good s); auto.
  - by apply (run_assigns_good s x ph i).
  - by apply (run_sends_good s x ph i ip).
  - apply (run_waits_good s x ph); auto.
  - apply (run_waits_good s x ph); auto.
  - by apply (run_joins_good s x ph).
  - unfold run_step in E. rewrite Er in E. destruct (monitor_at s) eqn:Emo; try done. injection E as <-.
    destruct Hg as [Hf Hb Hm Hp Hw Hc Hmo Hd]. unfold control, background in *. rewrite Er in *.
    eexists. split; [done|]. split; cbn; try done.
    + unfold control. cbn. destruct Hc as (? & ? & ?). split_and!; try done. by apply cleanup_ok.
    + apply (monitor_run s); cbn; rewrite ?Er; done.
  - unfold run_step in E. by rewrite Er in E.
Qed.

(** *** Steps of [poll_workers] *)

Lemma elem_of_delete {A} (x : A) (i : nat) (xs : list A) : x ∈ delete i xs → x ∈ xs.
Proof. intros H. eapply (sublist_subseteq (delete i xs) xs); [apply sublist_delete|done]. Qed.

(** Where an answer can come. *)
Lemma polling_states s :
  good s → poll_at s = Polling ∨ poll_at s = Treated →
  (pending s = [] ∧ poll_at s = Polling ∧ (run_at s = Starting ∨ run_at s = Waiting_first)) ∨
  complete (cur (run_at s)) (master s) = false ∧
  (map_reduce_flag (master s) = false ∧
    ((∃ ph i, run_at s = Assigning ph i) ∨ ∃ ph i ip, run_at s = Sending ph i ip) ∨
   map_reduce_flag (master s) = true ∧ ∃ ph, run_at s = Waiting_poll ph).
Proof.
  intros Hg Hp. pose proof (gd_control _ Hg) as Hc. unfold control in Hc.
  destruct (run_at s) eqn:Er; cbn in *; destruct_and? Hc; [left; auto..|right|right|right| | | |].
  - eauto 7.
  - split; [done|]. left. split; [done|]. right. by eexists _, _, _.
  - split; [done|]. right. destruct Hp; destruct_or!; destruct_and?; try congruence; eauto.
  - destruct Hp; congruence.
  - destruct Hp; destruct_or!; destruct_and?; congruence.
  - destruct Hp; congruence.
  - destruct Hp; congruence.
Qed.

Lemma poll_answer_good j r s x :
  good s → Forall (named np) (reply_files r) → poll_answer j (Some r) s = Some x →
  ∃ s', x = Ok s' ∧ good s'.
Proof.
  intros Hg Hn E. unfold poll_answer in E. destruct (poll_at s) eqn:Hpo; try done.
  pose proof (polling_states s Hg (or_introl Hpo)) as Hst. destruct Hg as [Hf Hb Hm Hp Hw Hc Hmo Hd].
  destruct (pending s !! j) as [[ip jb]|] eqn:Ej; [|done]. cbn in E.
  destruct (completed ip jb (Some r)) as [call|] eqn:Ec; [|done]. cbn in E. injection E as <-.
  destruct (Hp ip jb) as [Hip Hph]; [by eapply list_elem_of_lookup_2|].
  destruct (poll_call_ok (master s) ip jb r call Hf Hip Ec Hn) as (m' & -> & Hf' & Hfg & Hsh & Hpa & Hr & Hfi & Ha).
  unfold flags in Hfg. injection Hfg as E1 E2 E3 E4 E5.
  pose proof (length_delete (pending s) j ltac:(by eexists)) as Hlen.
  pose proof (lookup_lt_Some _ _ _ Ej) as Hlt.
  eexists. split; [done|]. split; cbn; try done.
  - unfold background in *. cbn. pose proof (Ha Mapping) as A1. pose proof (Ha Reducing) as A2. cbn in A1, A2.
    destruct (cur (run_at s)) eqn:Ecur.
    + rewrite decide_False in A2 by congruence. rewrite E5, A2, Hpa, Z.add_0_r. done.
    + rewrite decide_False in A1 by congruence. rewrite E4, A1, Z.add_0_r, Hfi.
      destruct jb, r; try done. cbn. by rewrite (right_id_L ∅ (∪)).
  - rewrite Ha, Hlen, decide_True by done. change (jobs (update _ _ _)) with (jobs s). lia.
  - intros ip' j' H%elem_of_delete. by apply Hp.
  - rewrite Hr, length_app, Hlen. cbn. lia.
  - destruct Hst as [(Hpe & _)|[Hco Hst]]; [by rewrite Hpe in Ej|]. clear Hb Hm Hd.
    assert (complete (cur (run_at s)) m' = false) as Hco' by (rewrite <-Hco; by destruct (cur (run_at s))).
    assert (∀ ph, work s ph → work (update pending (delete j) (set_poll m' Treated s)) ph) as Hwk.
    { intros []; cbn; by rewrite ?Hsh, ?Hpa. }
    unfold control, polling in *. cbn. rewrite E1.
    destruct Hst as [[Hfl [(ph & i & Er)|(ph & i & ip' & Er)]]|[Hfl (ph & Er)]]; rewrite Er in *; naive_solver.
  - unfold monitor_ok in *. cbn. by rewrite E2.
Qed.

(** The code waits for at least as many jobs as there are. *)
Lemma jobs_le s : frame (master s) → background s → jobs s (cur (run_at s)) ≤ total (cur (run_at s)).
Proof.
  intros Hf Hb. unfold background in Hb. destruct (cur (run_at s)); [done|].
  apply keys_le; naive_solver.
Qed.

(** The end of an iteration without a handover. *)
Lemma iterates_again s : good s → poll_at s = Treated → poll_returns (master s) None = false.
Proof.
  intros Hg Hpo. pose proof (polling_states s Hg (or_intror Hpo)) as Hst. destruct Hg as [_ Hb _ _ _ _ _ _].
  unfold poll_returns. cbn. rewrite andb_false_r. cbn. rewrite andb_true_r.
  unfold background in Hb. destruct Hst as [(_ & ? & _)|[Hco _]]; [congruence|].
  destruct (cur (run_at s)); [by apply Hb|done].
Qed.

Lemma iterates_good s :
  good s → poll_at s = Treated → good (poll_goes_on (master s) None s).
Proof.
  intros Hg Hpo. pose proof (polling_states s Hg (or_intror Hpo)) as Hst.
  unfold poll_goes_on. rewrite iterates_again by done. destruct Hg as [Hf Hb Hm Hp Hw Hc Hmo Hd]. split; try done.
  unfold control, polling in *. cbn. rewrite Hpo in Hc.
  destruct Hst as [(_ & ? & _)|[_ [[_ [(ph & i & Er)|(ph & i & ip' & Er)]]|[_ (ph & Er)]]]];
    [congruence|rewrite Er in *; cbn in *; naive_solver..].
Qed.

Lemma poll_step_good s x : good s → poll_step s = Some x → ∃ s', x = Ok s' ∧ good s'.
Proof using Hnp.
  intros Hg E. unfold poll_step in E. pose proof (polling_states s Hg) as Hst.
  pose proof (iterates_good s Hg) as Hit. destruct Hg as [Hf Hb Hm Hp Hw Hc Hmo Hd].
  destruct (poll_at s) as [| |b|] eqn:Hpo; try done.
  - injection E as <-. eexists. split; [done|]. unfold poll_handover.
    destruct (map_reduce_flag (master s)) eqn:Hfl; cbn [andb]; [|by apply Hit].
    destruct Hst as [(_ & ? & _)|[Hco [[? _]|[_ (ph & Er)]]]]; [by right|done..|].
    rewrite (notify_ok (master s) (cur (run_at s)) Hf Hco).
    2: { unfold background in Hb. destruct (cur (run_at s)); naive_solver. }
    case_bool_decide as Hlast; [|by apply Hit]. cbn [fst snd].
    pose proof (jobs_le s Hf Hb) as Hle. unfold control in Hc. rewrite Er in *. cbn in Hco, Hlast, Hm, Hw, Hp, Hle, Hd.
    assert (pending s = []) as Hpe by (apply nil_length_inv; lia). destruct Hc as (_ & Hwk & _).
    assert (negb (map_complete (master s)) = is_map ph) as ->.
    { unfold background in Hb. rewrite Er in Hb. destruct ph; cbn in *; [by rewrite Hco|]. by destruct Hb as (-> & _). }
    split; cbn; rewrite ?Er; try done.
    + by apply frame_flag.
    + unfold control. cbn. rewrite Er. split; [by destruct ph|]. split; [by destruct ph|]. right.
      split_and!; try done. rewrite Hpe in Hm. change (jobs (set_poll _ _ s) ph) with (jobs s ph). cbn in Hm. lia.
  - destruct (map_reduce_flag (master s)) eqn:Hfl; [|done]. injection E as <-.
    unfold control, polling in Hc. rewrite Hpo, Hfl in Hc.
    assert (∃ ph, run_at s = Joining ph ∧ complete ph (master s) = true ∧ pending s = [] ∧
      jobs s ph = total ph ∧ b = is_map ph) as (ph & Er & Hco & Hpe & Hj & ->).
    { destruct (run_at s) as [| | | | | |ph| |]; naive_solver. }
    eexists. split; [done|]. unfold poll_goes_on.
    assert (poll_returns (poll_resume (master s)) (Some (is_map ph)) = true) as ->.
    { unfold poll_returns. destruct ph; cbn in *; rewrite Hco; [done|]. by rewrite orb_true_r. }
    split; cbn; try done.
    + by apply frame_flag.
    + unfold control. cbn. rewrite Er. split; [by destruct ph|]. split; [done|]. split; [done|]. by right.
Qed.

(** *** Steps of [monitor] *)

Lemma send_pings_ok m q : frame m → send_pings m q = Ok (m, q ++ ips).
Proof.
  intros Hf. unfold send_pings. rewrite (fr_ips _ Hf).
  assert (∀ rest q, (∀ ip, ip ∈ rest → ip ∈ ips) → mfoldl (λ st ip,
    let mc := client_get st.1 ip in _ ← deref mc.2; mret (mc.1, st.2 ++ [ip])) (m, q) rest =
    Ok (m, q ++ rest)) as H; [|by apply H].
  induction rest as [|ip rest IH]; intros q' Hin; cbn [mfoldl]; [by rewrite app_nil_r|].
  destruct (client_ok m ip Hf) as [c Hc]; [apply Hin; left|]. cbn [fst snd]. rewrite Hc. cbn [deref mbind res_bind fst snd mret res_ret].
  rewrite IH, <-app_assoc; [done|]. intros x Hx. apply Hin. by right.
Qed.

(** What a step of [monitor] may change. *)
Lemma monitor_changes s s' :
  good s → monitor_ok s' → frame (master s') → loads (master s') = loads (master s) →
  map_reduce_flag (master s') = map_reduce_flag (master s) →
  (map_complete (master s'), reduce_complete (master s'), ready_queue (master s')) =
    (map_complete (master s), reduce_complete (master s), ready_queue (master s)) →
  (run_at s', poll_at s', pending s', idx2files s', sent s', sent_partitions s', disk s') =
    (run_at s, poll_at s, pending s, idx2files s, sent s, sent_partitions s, disk s) → good s'.
Proof.
  intros [Hf Hb Hm Hp Hw Hc Hmo Hd] Hmo' Hf' Hl Efl Em Es.
  destruct s' as [m' d' r' p' mo' i' w' pi' k' pe' se' sp']. cbn in *.
  injection Es as -> -> -> -> -> -> ->. injection Em as E1 E2 E3. unfold loads in Hl. injection Hl as L1 L2 L3 L4 L5.
  split; cbn in *; rewrite ?E3; try done.
  - unfold background in *. cbn. by rewrite E1, E2, L2, L3, L4, L5.
  - assert (∀ ph, answered ph m' = answered ph (master s)) as -> by (by intros []). exact Hm.
  - unfold control, polling in *. cbn. rewrite Efl.
    assert (∀ ph, complete ph m' = complete ph (master s)) as Hcm by (by intros []).
    assert (∀ ph, work s ph → work (System m' (disk s) (run_at s) (poll_at s) mo' i' w' pi'
      (idx2files s) (pending s) (sent s) (sent_partitions s)) ph) as Hwk.
    { intros []; cbn; by rewrite ?L1, ?L2. }
    destruct (run_at s); rewrite ?Hcm, ?E1, ?L1; naive_solver.
Qed.

Lemma monitor_step_good s x : good s → monitor_step s = Some x → ∃ s', x = Ok s' ∧ good s'.
Proof.
  intros Hg E. pose proof Hg as [Hf _ _ _ _ _ [Hst Hmo] _]. unfold monitor_step in E.
  destruct (monitor_at s) as [| |i| |] eqn:Em; [| | | |done].
  - injection E as <-. destruct Hmo as [Hpi Hr]. eexists. split; [done|].
    apply (monitor_changes s); try done; [|by apply frame_stop].
    split; [|done]. cbn. by destruct Hr as [->|[-> _]].
  - destruct (stop_monitoring (master s)) eqn:Est.
    + injection E as <-. eexists. split; [done|].
      apply (monitor_changes s); try done; [|by apply frame_trigger]. split; cbn; [by rewrite Est|done].
    + rewrite send_pings_ok, Hmo in E by done. injection E as <-. eexists. split; [done|].
      apply (monitor_changes s); try done. split; cbn; [by rewrite Est|done].
  - case_decide as Hi; [done|]. injection E as <-. rewrite (fr_workers _ Hf) in Hi. eexists. split; [done|].
    apply (monitor_changes s); try done. split; cbn; [done|]. apply nil_length_inv. lia.
  - injection E as <-. eexists. split; [done|].
    apply (monitor_changes s); try done. by apply frame_trigger.
Qed.

Lemma monitor_receives_good k id s x :
  good s → monitor_receives k (Some id) s = Some x → ∃ s', x = Ok s' ∧ good s'.
Proof.
  intros Hg E. pose proof Hg as [Hf _ _ _ _ _ [Hst Hmo] _]. unfold monitor_receives in E.
  destruct (monitor_at s) as [| |i| |] eqn:Em; try done. case_decide as Hi; [|done].
  destruct (pings s !! k) as [ip|] eqn:Ek; [|done]. cbn in E. injection E as <-. eexists. split; [done|].
  apply (monitor_changes s); try done. split; cbn; [done|].
  pose proof (length_delete (pings s) k ltac:(by eexists)). pose proof (lookup_lt_Some _ _ _ Ek). lia.
Qed.

(** *** The invariant *)

Lemma write_good p text s :
  p ≠ str "intermediate" → good s → good (update disk (λ f, append_file f p text) s).
Proof.
  intros Hp [Hf Hb Hm Hpe Hw Hc Hmo Hd]. split; try done. cbn.
  destruct (run_at s); try done; [by rewrite read_append_other|by rewrite append_file_dirs..].
Qed.

Lemma calm_good e s x : good s → calm np e → exec e s = Some x → ∃ s', x = Ok s' ∧ good s'.
Proof using Hnp.
  intros Hg He E. destruct e as [|j r|j| | |k id|k|p text]; cbn in E, He; try done.
  - by apply (run_good s).
  - apply (poll_answer_good j r s); try done. by destruct r.
  - by apply (poll_step_good s).
  - by apply (monitor_step_good s).
  - by apply (monitor_receives_good k id s).
  - injection E as <-. eexists. split; [done|]. by apply write_good.
Qed.

Lemma calm_step_good s s' : good s → calm_step np s s' → good s'.
Proof using Hnp.
  intros Hg (e & He & E). destruct (calm_good _ _ _ Hg He E) as (s1 & [= <-] & Hg'). done.
Qed.
End calm.

(** *** The start *)

(** The workers that the specification uses. *)
Definition workers (spec : MapReduceSpec) : list cstr :=
  take (Z.to_nat (n_workers spec)) (worker_ipaddr_ports spec).

(** A job that the master can start: the constructor finds an address for every worker
    and [mkdir] makes the directory. *)
Record can_start (f : fs) (spec : MapReduceSpec) (np : nat) : Prop := {
  cs_partitions : n_output_files spec = Z.of_nat np ∧ 0 < np;
  cs_workers : (0 < n_workers spec ≤ Z.of_nat (length (worker_ipaddr_ports spec)))%Z;
  cs_directory : read_file f (str "intermediate") = None
}.

Lemma can_start_workers f spec np : can_start f spec np → Z.of_nat (length (workers spec)) = n_workers spec.
Proof. intros [_ H _]. unfold workers. rewrite length_take. lia. Qed.

Lemma run_starts_good f spec np l : can_start f spec np → good np l (workers spec) (start f spec l).
Proof.
  intros Hs. pose proof (can_start_workers _ _ _ Hs) as Hw. destruct Hs as [[Hn Hnp] _ Hd].
  split; cbn; try done.
  - split; cbn; try done. intros ip Hip. exists new_client. apply elem_of_list_to_map_1'.
    + intros y (ip' & [= -> ->] & _)%list_elem_of_fmap. done.
    + apply list_elem_of_fmap. eauto.
  - intros ip q. by rewrite elem_of_nil.
  - fold (workers spec). lia.
  - split; [done|]. split; [done|by left].
Qed.

Lemma calm_reachable f spec np l s :
  can_start f spec np → reachable (eq (start f spec l)) (calm_step np) s → good np l (workers spec) s.
Proof.
  intros Hs. revert s. apply invariant_ind.
  - intros s <-. by apply run_starts_good.
  - intros s s' Hg Hst. eapply calm_step_good; [|done..]. destruct Hs as [[_ ?] _ _]. lia.
Qed.
