(* ===== verification/MasterRun.v ===== *)
(** * Runs of the master (project4/src/master.cc)

    What the threads of MasterThreads.v do together: the order of the jobs, when a run
    ends, and what can go wrong. *)
From S2P Require Import Prelude CxxString FileSystem MRSpec FileShard WorkerRequest Master MasterThreads.

#[local] Set Default Proof Using "All".
#[local] Arguments intermediate_name : simpl never.
#[local] Arguments file_index : simpl never.

#[export] Instance res_eq_dec : EqDecision (res Z).
Proof. solve_decision. Defined.

Lemma full_alt np m : full np m ↔
  Forall (λ i, Exists (λ x, file_index x = Ok (Z.of_nat i)) (elements (m_intermediate_files m))) (seq 0 np).
Proof.
  rewrite Forall_forall. unfold full.
  setoid_rewrite list.Exists_exists. setoid_rewrite elem_of_elements. setoid_rewrite elem_of_seq.
  split; intros H i Hi; apply H; lia.
Qed.

#[export] Instance full_dec np m : Decision (full np m).
Proof.
  destruct (decide (Forall (λ i, Exists (λ x, file_index x = Ok (Z.of_nat i))
    (elements (m_intermediate_files m))) (seq 0 np))); [left|right]; by rewrite full_alt.
Defined.

(** Replies that end a run: every worker can give one to every job, and a mapper's names
    a file of every partition. *)
Record good_replies (np : nat) (ips : list cstr) (reply_of : cstr → job → reply) : Prop := {
  gr_fits ip j : ip ∈ ips → is_Some (completed ip j (Some (reply_of ip j)));
  gr_named ip j : ip ∈ ips → Forall (named np) (reply_files (reply_of ip j));
  gr_all ip q i : ip ∈ ips → i < np →
    ∃ x, x ∈ reply_files (reply_of ip (MapJob q)) ∧ file_index x = Ok (Z.of_nat i)
}.

(** Such replies exist. *)
Definition all_names (np : nat) : list cstr := (λ i, intermediate_name [] i) <$> seq 0 np.

Definition some_reply (np : nat) (ip : cstr) (j : job) : reply :=
  match j with MapJob _ => MapperReply (all_names np) | ReduceJob _ => ReducerReply [] end.

Lemma some_reply_good np ips : (Z.of_nat np < 2 ^ 31)%Z → good_replies np ips (some_reply np).
Proof.
  intros Hint. split; intros ip j.
  - by destruct j.
  - intros _. destruct j; [|by apply Forall_nil]. apply Forall_forall.
    intros x (i & -> & Hi%elem_of_seq)%list_elem_of_fmap.
    unfold named. rewrite file_index_intermediate by (cbn; lia). lia.
  - intros i _ Hi. exists (intermediate_name [] i). split; [|apply file_index_intermediate; cbn; lia].
    apply list_elem_of_fmap. exists i. split; [done|]. apply elem_of_seq. lia.
Qed.

(** The first job in flight gets its reply, or a thread of the master moves. *)
Definition usual (reply_of : cstr → job → reply) (e : event) (s : system) : Prop :=
  match e with
  | Run | Poll | Monitor | Pong _ _ => True
  | Answer j r => j = 0 ∧ ∃ ip jb, pending s !! 0 = Some (ip, jb) ∧ r = reply_of ip jb
  | _ => False
  end.

Section progress.
Context (np : nat) (l : list FileShard) (ips : list cstr).
Context (Hnp : 0 < np) (Hips : 0 < length ips).
Context (reply_of : cstr → job → reply) (Hreply : good_replies np ips reply_of).

Abbreviation good := (good np l ips).
Abbreviation frame := (frame np l ips).
Abbreviation jobs := (jobs l).
Abbreviation W := (length ips).
Abbreviation usual := (usual reply_of).

Lemma usual_calm e s : good s → usual e s → calm np e.
Proof.
  intros Hg. destruct e as [|j r|j| | |k id|k|p text]; cbn; try done. intros (-> & ip & jb & Hp & ->).
  pose proof (gr_named _ _ _ Hreply ip jb) as Hn. destruct (gd_pending _ _ _ _ Hg ip jb) as [Hip _];
    [by eapply list_elem_of_lookup_2|]. specialize (Hn Hip). by destruct (reply_of ip jb).
Qed.

Lemma np_ne : np ≠ 0.
Proof using Hnp. clear -Hnp. lia. Qed.

(** ** When a run cannot end *)

(** The last answer of the phase has been treated and nobody was told. *)
Definition lost (s : system) : Prop :=
  answered (cur (run_at s)) (master s) = Z.of_nat (jobs s (cur (run_at s))) ∧ poll_at s = Polling.

(** The map phase has produced files of fewer partitions than the code waits for. *)
Definition short (s : system) : Prop :=
  num_map_msgs (master s) = Z.of_nat (length l) ∧ ¬ full np (master s).

Definition hopeful (s : system) : Prop := ¬ lost s ∧ ¬ short s.

(** ** The monitor *)

(** The steps of [monitor] until it has cleared [initial_monitor_job], cleared
    [trigger_monitoring] or come to its end. *)
Definition wait_first (s : system) : nat :=
  if initial_monitor_job s then
    match monitor_at s with
    | Receiving _ => length (pings s) + 1
    | Looping => W + 2
    | _ => W + 3
    end
  else 0.

Definition wait_trigger (s : system) : nat :=
  if trigger_monitoring (master s) then
    match monitor_at s with
    | Checking => 1
    | Receiving _ => length (pings s) + 2
    | Looping => W + 3
    | _ => W + 4
    end
  else 0.

Definition wait_end (s : system) : nat :=
  match monitor_at s with
  | Ended => 0
  | Looping => 1
  | Checking => 2
  | Receiving _ => length (pings s) + 3
  | Created => W + 4
  end.

(** What the threads but [monitor] see. *)
Definition view (s : system) :=
  (run_at s, poll_at s, pending s, idx2files s, map_reduce_flag (master s), loads (master s)).

Lemma monitor_moves s :
  good s → monitor_at s ≠ Ended → ∃ e s', usual e s ∧ exec e s = Some (Ok s') ∧ view s' = view s ∧
    (initial_monitor_job s = true → stop_monitoring (master s) = false → wait_first s' < wait_first s) ∧
    (trigger_monitoring (master s) = true → stop_monitoring (master s) = false → wait_trigger s' < wait_trigger s) ∧
    (stop_monitoring (master s) = true → wait_end s' < wait_end s).
Proof.
  intros Hg Hne. pose proof Hg as [Hf _ _ _ _ _ [Hst Hmo] _].
  destruct (monitor_at s) as [| |i| |] eqn:Em; [| | | |done].
  - exists Monitor. eexists. split; [done|]. cbn. unfold monitor_step. rewrite Em. split; [done|]. split; [done|].
    unfold wait_first, wait_trigger, wait_end. cbn. rewrite Em.
    split_and!; intros E; rewrite ?E; try intros _; lia.
  - exists Monitor. cbn. unfold monitor_step. rewrite Em.
    destruct (stop_monitoring (master s)) eqn:Es.
    + eexists. split; [done|]. split; [done|]. split; [done|].
      unfold wait_end. cbn. rewrite Em. split_and!; try done; lia.
    + rewrite (send_pings_ok np l ips), Hmo by done. cbn. eexists. split; [done|]. split; [done|]. split; [done|].
      unfold wait_first, wait_trigger, wait_end. cbn. rewrite Em.
      split_and!; intros E; rewrite ?E; try intros _; done || lia.
  - destruct (decide (Z.of_nat i < num_workers (master s))%Z) as [Hi|Hi].
    + rewrite (fr_workers _ _ _ _ Hf) in Hi. destruct (pings s) as [|ip q] eqn:Ep; [cbn in Hmo; lia|].
      exists (Pong 0 []). cbn. unfold monitor_receives. rewrite Em, decide_True by by rewrite (fr_workers _ _ _ _ Hf).
      rewrite Ep. cbn. eexists. split; [done|]. split; [done|]. split; [done|].
      unfold wait_first, wait_trigger, wait_end. cbn. rewrite Em, Ep. cbn.
      split_and!; intros E; rewrite ?E; try intros _; lia.
    + exists Monitor. cbn. unfold monitor_step. rewrite Em, decide_False by done.
      eexists. split; [done|]. split; [done|]. split; [done|].
      unfold wait_first, wait_trigger, wait_end. cbn. rewrite Em.
      split_and!; intros E; rewrite ?E; try intros _; lia.
  - exists Monitor. cbn. unfold monitor_step. rewrite Em.
    eexists. split; [done|]. split; [done|]. split; [done|].
    unfold wait_first, wait_trigger, wait_end. cbn. rewrite Em.
    split_and!; intros E; rewrite ?E; try intros _; lia.
Qed.
(** ** The distance to the end *)

Definition stage (s : system) : nat :=
  match run_at s with
  | Assigning _ _ | Sending _ _ _ => W + 14
  | Waiting_poll _ => if map_reduce_flag (master s) then W + 13 else W + 12
  | Waiting_monitor _ => wait_trigger s + 6
  | Joining _ => if map_reduce_flag (master s) then 3 else 2
  | _ => 0
  end.

(** What is left of the current phase: four steps for a job that has not been sent, two
    for one that is in flight. *)
Definition phase_rank (s : system) : nat :=
  (4 * (jobs s (cur (run_at s)) - sent_in (jobs s (cur (run_at s))) (run_at s)) - taken (run_at s)) +
  2 * length (pending s) + match poll_at s with Treated => 1 | _ => 0 end + stage s.

Definition base (ph : phase) : nat :=
  match ph with Mapping => 4 * np + 2 * W + 30 | Reducing => W + 10 end.

Definition rank (s : system) : nat :=
  match run_at s with
  | Starting => base Mapping + 4 * length l + 2 * W + 40
  | Waiting_first => base Mapping + 4 * length l + W + 20 + wait_first s
  | Joining_monitor => wait_end s + 1
  | Finished _ => 0
  | _ => base (cur (run_at s)) + phase_rank s
  end.

#[local] Arguments base : simpl never.
#[local] Arguments wait_trigger : simpl never.

(** A step that gets closer to the end. *)
Definition closer (s : system) : Prop :=
  ∃ e s', usual e s ∧ exec e s = Some (Ok s') ∧ good s' ∧ hopeful s' ∧ rank s' < rank s.

Lemma closer_intro e s s' :
  good s → usual e s → exec e s = Some (Ok s') → hopeful s' → rank s' < rank s → closer s.
Proof.
  intros Hg He E Hl Hr. exists e, s'. split; [done|]. split; [done|]. split; [|done].
  eapply calm_step_good; [apply np_ne|exact Hg|]. exists e. split; [by eapply usual_calm|done].
Qed.

(** What a phase has brought. *)
Definition news (m : Master) := (num_map_msgs m, num_reduce_msgs m, m_intermediate_files m).

Lemma hopeful_same s s' :
  hopeful s → news (master s') = news (master s) → cur (run_at s') = cur (run_at s) → keys s' = keys s →
  (poll_at s' = Polling → poll_at s = Polling ∨
    answered (cur (run_at s)) (master s) ≠ Z.of_nat (jobs s (cur (run_at s)))) →
  hopeful s'.
Proof.
  intros [Hl Hs] Hn Hcur Hk Hp. unfold news in Hn. injection Hn as N1 N2 N3.
  assert (∀ ph, answered ph (master s') = answered ph (master s)) as Ha by (by intros []).
  assert (∀ ph, jobs s' ph = jobs s ph) as Hj by (intros []; cbn; by rewrite ?Hk).
  split.
  - intros [H1 H2]. rewrite Hcur, Ha, Hj in H1. destruct (Hp H2) as [?|?]; [by apply Hl|done].
  - intros [H1 H2]. apply Hs. split; [by rewrite <-N1|]. unfold full in *. by rewrite <-N3.
Qed.

(** A job in flight can be answered. *)
Lemma answer_moves s :
  good s → hopeful s → poll_at s = Polling → pending s ≠ [] →
  ∃ e s', usual e s ∧ exec e s = Some (Ok s') ∧ hopeful s' ∧ run_at s' = run_at s ∧ poll_at s' = Treated ∧
    length (pending s) = S (length (pending s')) ∧ keys s' = keys s ∧
    map_reduce_flag (master s') = map_reduce_flag (master s).
Proof.
  intros Hg [_ Hshort] Hpo Hpe. pose proof Hg as [Hf Hb Hm Hp _ _ _ _].
  destruct (pending s) as [|[ip j] q] eqn:Epe; [done|]. destruct (Hp ip j) as [Hip Hph]; [left|].
  destruct (gr_fits _ _ _ Hreply ip j Hip) as [call Ec]. pose proof (gr_named _ _ _ Hreply ip j Hip) as Hr.
  pose proof (gr_all _ _ _ Hreply ip) as Hall. set (r := reply_of ip j) in *.
  destruct (poll_call_ok np l ips np_ne (master s) ip j r call Hf Hip Ec Hr) as (m' & Em & _ & Hfg & _ & _ & _ & Hfi & Ha).
  unfold flags in Hfg. injection Hfg as E1 _ _ _ _.
  exists (Answer 0 r). eexists. split; [split; [done|]; exists ip, j; by rewrite Epe|].
  cbn. unfold poll_answer. rewrite Hpo, Epe. cbn. rewrite Ec. cbn. rewrite Em. split; [done|].
  split; [|cbn; by rewrite Epe]. split; [by intros [_ ?]|].
  intros [H1 H2]. cbn in H1, H2. pose proof (Ha Mapping) as A1. cbn in A1. rewrite A1 in H1.
  destruct j; cbn in H1.
  - apply H2. intros i Hi. destruct (Hall q0 i Hip Hi) as (x & Hx & Ex). exists x. cbn. rewrite Hfi.
    split; [|done]. by apply elem_of_union_r, elem_of_list_to_set.
  - apply Hshort. rewrite decide_False in H1 by done. split; [lia|]. intros Hfull. apply H2.
    intros i Hi. destruct (Hfull i Hi) as (x & Hx & Ex). exists x. rewrite Hfi. split; [by apply elem_of_union_l|done].
Qed.

(** A job can be sent. *)
Lemma send_moves s ph i ip :
  good s → run_at s = Sending ph i ip →
  ∃ s', exec Run s = Some (Ok s') ∧ run_at s' = Assigning ph (S i) ∧ poll_at s' = poll_at s ∧
    length (pending s') = S (length (pending s)) ∧ keys s' = keys s ∧ news (master s') = news (master s).
Proof.
  intros Hg Er. pose proof Hg as [Hf _ _ _ _ Hc _ _]. cbn. unfold run_step. rewrite Er.
  unfold control in Hc. rewrite Er in Hc. destruct Hc as (Hi & Hip & _ & _ & _ & Hwk).
  destruct (client_ok np l ips (master s) ip Hf Hip) as [c Ec]. unfold send_job, get.
  destruct ph; cbn in Hwk, Hi; rewrite Hwk, Ec; cbn [deref fst snd].
  - destruct (lookup_lt_is_Some_2 l i Hi) as [sh ->]. cbn. eexists. split; [done|]. cbn.
    rewrite length_app, Nat.add_1_r. done.
  - destruct (lookup_lt_is_Some_2 (keys s) i Hi) as [id ->]. cbn. eexists. split; [done|]. cbn.
    rewrite length_app, Nat.add_1_r. done.
Qed.
(** The polling thread can end its iteration. *)
Lemma poll_moves s :
  good s → poll_at s = Treated →
  ∃ s', exec Poll s = Some (Ok s') ∧ run_at s' = run_at s ∧ pending s' = pending s ∧ keys s' = keys s ∧
    news (master s') = news (master s) ∧
    (map_reduce_flag (master s) = true → answered (cur (run_at s)) (master s) = Z.of_nat (total np l (cur (run_at s))) →
      poll_at s' ≠ Polling) ∧ poll_at s' ≠ Treated ∧
    (map_reduce_flag (master s') = map_reduce_flag (master s) ∨ map_reduce_flag (master s') = false).
Proof.
  intros Hg Hpo. cbn. unfold poll_step. rewrite Hpo. eexists. split; [reflexivity|]. unfold poll_handover.
  destruct (map_reduce_flag (master s) && notify_master (master s)) eqn:E; cbn [fst snd].
  { split_and!; try done. by right. }
  unfold poll_goes_on. rewrite (iterates_again np l ips) by done. split_and!; try done; [|by left].
  intros Hfl Ha. pose proof (polling_states np l ips s Hg (or_intror Hpo)) as [(_ & ? & _)|[Hco _]]; [congruence|].
  destruct Hg as [Hf Hb _ _ _ _ _ _]. rewrite Hfl in E. cbn in E.
  rewrite (notify_ok np l ips np_ne _ (cur (run_at s)) Hf Hco) in E.
  - by rewrite bool_decide_eq_true_2 in E.
  - unfold background in Hb. destruct (cur (run_at s)); naive_solver.
Qed.

(** Without missing files the code waits for as many partitions as there are. *)
Lemma hopeful_total s :
  good s → hopeful s →
  jobs s (cur (run_at s)) = total np l (cur (run_at s)).
Proof.
  intros [Hf Hb _ _ _ _ _ _] [_ Hs]. unfold background in Hb. destruct (cur (run_at s)); [done|].
  destruct Hb as (_ & Hn & Hg & _). cbn. apply (keys_full np l ips np_ne s Hf Hg).
  destruct (decide (full np (master s))) as [?|?]; [done|]. by destruct Hs.
Qed.

Lemma wait_first_bound s : good s → wait_first s ≤ W + 3.
Proof.
  intros [_ _ _ _ _ _ [_ Hmo] _]. unfold wait_first. destruct (initial_monitor_job s), (monitor_at s); lia.
Qed.

Lemma wait_trigger_bound s : good s → wait_trigger s ≤ W + 4.
Proof.
  intros [_ _ _ _ _ _ [_ Hmo] _]. unfold wait_trigger.
  destruct (trigger_monitoring (master s)), (monitor_at s); lia.
Qed.

Lemma wait_end_bound s : good s → wait_end s ≤ W + 4.
Proof. intros [_ _ _ _ _ _ [_ Hmo] _]. unfold wait_end. destruct (monitor_at s); lia. Qed.

(** [monitor] moves while [run] waits for it. *)
Lemma monitor_closer s :
  good s → hopeful s → monitor_at s ≠ Ended →
  run_at s = Waiting_first ∧ initial_monitor_job s = true ∨
  (∃ ph, run_at s = Waiting_monitor ph ∧ trigger_monitoring (master s) = true) ∨
  run_at s = Joining_monitor → closer s.
Proof.
  intros Hg Hh Hne Hr. destruct (monitor_moves s Hg Hne) as (e & s' & He & E & Hv & H1 & H2 & H3).
  unfold view, loads in Hv. injection Hv as V1 V2 V3 V4 V5 V6 V7 V8 V9 V10.
  assert (keys s' = keys s) as Hk by (unfold keys; by rewrite V4).
  assert (stop_monitoring (master s) = stopping (run_at s)) as Hst by apply Hg.
  apply (closer_intro e s s'); try done.
  - apply (hopeful_same s); try done; unfold news; rewrite ?V1, ?V2, ?V8, ?V9, ?V10; auto.
  - unfold rank. destruct Hr as [[Er Ei]|[(ph & Er & Et)|Er]]; rewrite V1, Er; rewrite Er in Hst; cbn in Hst.
    + specialize (H1 Ei Hst). lia.
    + specialize (H2 Et Hst). unfold phase_rank, stage. rewrite V1, V2, V3, Er. cbn.
      assert (jobs s' ph = jobs s ph) as -> by (destruct ph; cbn; by rewrite ?Hk). lia.
    + specialize (H3 Hst). lia.
Qed.
(** One lemma per place where [run] can be. *)
Lemma begin_closer s : good s → hopeful s → run_at s = Starting ∨ run_at s = Waiting_first → closer s.
Proof.
  intros Hg Hh [Er|Er].
  - eapply (closer_intro Run s _ Hg I); [cbn; unfold run_step; by rewrite Er|..].
    + apply (hopeful_same s); try done; cbn; rewrite ?Er; auto.
    + unfold rank at 2. rewrite Er. unfold rank, wait_first. cbn.
      destruct Hg as [_ _ _ _ _ _ [_ Hmo] _]. destruct (monitor_at s); lia.
  - destruct (initial_monitor_job s) eqn:Ei.
    + apply monitor_closer; try done; [|by left].
      destruct Hg as [_ _ _ _ _ _ [_ Hmo] _]. rewrite Er in Hmo. intros E. rewrite E in Hmo. by destruct Hmo.
    + eapply (closer_intro Run s _ Hg I); [cbn; unfold run_step; by rewrite Er, Ei|..].
      * apply (hopeful_same s); try done; cbn; rewrite ?Er; auto.
      * unfold rank, phase_rank, stage. rewrite Er. cbn.
        destruct Hg as [_ _ _ _ _ Hc _ _]. unfold control in Hc. rewrite Er in Hc.
        destruct Hc as (_ & -> & _ & _ & ->). cbn. lia.
Qed.

(** A job in flight is answered, or the answer is put away. *)
Lemma answer_closer s :
  good s → hopeful s → poll_at s = Polling → pending s ≠ [] → closer s.
Proof.
  intros Hg Hh Hpo Hpe. pose proof (polling_states np l ips s Hg (or_introl Hpo)) as Hst.
  destruct (answer_moves s Hg Hh Hpo Hpe) as (e & s' & He & E & Hh' & Er & Hpo' & Hlen & Hk & Hfl).
  assert (∀ ph, jobs s' ph = jobs s ph) as Hj by (intros []; cbn; by rewrite ?Hk).
  apply (closer_intro e s s'); try done.
  destruct Hst as [[? _]|[_ [[_ [(ph & i & Er0)|(ph & i & ip & Er0)]]|[_ (ph & Er0)]]]]; [done|..];
    unfold rank, phase_rank, stage; rewrite Er, Er0; cbn; rewrite Hj, Hpo, Hpo', ?Hfl; lia.
Qed.

Lemma iterate_closer s :
  good s → hopeful s → poll_at s = Treated →
  answered (cur (run_at s)) (master s) ≠ Z.of_nat (jobs s (cur (run_at s))) ∨ map_reduce_flag (master s) = true →
  closer s.
Proof.
  intros Hg Hh Hpo Ha. pose proof (polling_states np l ips s Hg (or_intror Hpo)) as Hst.
  destruct (poll_moves s Hg Hpo) as (s' & E & Er & Hpe & Hk & Hn & Hhand & Hpo' & Hfl).
  assert (∀ ph, jobs s' ph = jobs s ph) as Hj by (intros []; cbn; by rewrite ?Hk).
  apply (closer_intro Poll s s'); try done.
  - apply (hopeful_same s); try done; [by rewrite Er|]. intros Hp. right. intros Hall.
    destruct Ha as [Ha|Hflag]; [done|]. rewrite (hopeful_total s Hg Hh) in Hall. by apply (Hhand Hflag Hall).
  - assert (match poll_at s' with Treated => 1 | _ => 0 end = 0) as Hz by (by destruct (poll_at s')).
    destruct Hst as [(_ & ? & _)|[_ [[Hf [(ph & i & Er0)|(ph & i & ip & Er0)]]|[Hf (ph & Er0)]]]]; [congruence|..];
      unfold rank, phase_rank, stage; rewrite Er, Er0; cbn; rewrite Hj, Hpe, Hz, Hpo; try lia.
    rewrite Hf in *. destruct Hfl as [-> | ->]; lia.
Qed.

Lemma assign_closer s ph i : good s → hopeful s → run_at s = Assigning ph i → closer s.
Proof.
  intros Hg Hh Er. pose proof Hg as [Hf _ Hm _ Hw Hc _ _]. unfold control in Hc. rewrite Er in *.
  destruct Hc as (Hi & Hfl & Hpo & Hco & Hwk). cbn in Hm, Hw.
  assert (num_jobs ph (master s) = jobs s ph) as Hn by (destruct ph; cbn in *; by rewrite Hwk).
  destruct (decide (i < jobs s ph)) as [Hlt|Hge].
  - destruct Hpo as [Hpo|Hpo]; [|apply iterate_closer; try done; left; rewrite Er; cbn; lia].
    destruct (ready_queue (master s)) as [|ip rest] eqn:Eq.
    { apply answer_closer; try done. intros E. rewrite E in Hw. cbn in Hw. lia. }
    pose proof (assign_job_ok np l ips (master s) (job_number ph (master s) i) Hf) as Ha. rewrite Eq in Ha.
    destruct Ha as (m' & Ea & _ & _ & _ & _ & Hld). unfold loads in Hld. injection Hld as _ _ L3 L4 L5.
    apply (closer_intro Run s (set_run m' (Sending ph i ip) s)); try done.
    + cbn. unfold run_step. rewrite Er, Hn, decide_True by done. by rewrite Ea.
    + apply (hopeful_same s); try done; cbn; rewrite ?Er; auto. unfold news. by rewrite L3, L4, L5.
    + unfold rank, phase_rank, stage. cbn. rewrite Er. cbn.
      change (jobs (set_run m' (Sending ph i ip) s) ph) with (jobs s ph). lia.
  - apply (closer_intro Run s (set_run (schedule_begin (master s)) (Waiting_poll ph) s)); try done.
    + cbn. unfold run_step. by rewrite Er, Hn, decide_False.
    + apply (hopeful_same s); try done; cbn; rewrite ?Er; auto.
    + unfold rank, phase_rank, stage. cbn. rewrite Er. cbn.
      change (jobs (set_run (schedule_begin (master s)) (Waiting_poll ph) s) ph) with (jobs s ph).
      assert (i = jobs s ph) as -> by lia. lia.
Qed.

Lemma send_closer s ph i ip : good s → hopeful s → run_at s = Sending ph i ip → closer s.
Proof.
  intros Hg Hh Er. pose proof Hg as [_ _ Hm _ _ Hc _ _]. unfold control in Hc. rewrite Er in *.
  destruct Hc as (Hi & _ & _ & Hpo & _ & _). cbn in Hm.
  destruct (send_moves s ph i ip Hg Er) as (s' & E & Er' & Hpo' & Hlen & Hk & Hn).
  assert (∀ ph, jobs s' ph = jobs s ph) as Hj by (intros []; cbn; by rewrite ?Hk).
  apply (closer_intro Run s s'); try done.
  - apply (hopeful_same s); try done; rewrite ?Er, ?Er', ?Hpo'; auto.
  - unfold rank, phase_rank, stage. rewrite Er, Er'. cbn. rewrite Hj, Hlen, Hpo'. lia.
Qed.

Lemma wait_closer s ph :
  good s → hopeful s → run_at s = Waiting_poll ph ∨ run_at s = Waiting_monitor ph → closer s.
Proof.
  intros Hg Hh Hr. pose proof Hg as [Hf Hb Hm _ _ Hc _ _]. unfold control in Hc.
  destruct Hr as [Er|Er]; rewrite Er in *; destruct Hc as (Hco & Hwk & Hc); cbn in Hm.
  - destruct Hc as [[Hfl [Hpo|Hpo]]|(Hfl & Hpo & Hpe & Hj)].
    + apply answer_closer; try done. intros E. apply (proj1 Hh). split; [|done]. rewrite Er. rewrite E in Hm. cbn in *. lia.
    + apply iterate_closer; try done. by right.
    + apply (closer_intro Run s (set_run (schedule_trigger (master s)) (Waiting_monitor ph) s)); try done.
      * cbn. unfold run_step. by rewrite Er, Hfl.
      * apply (hopeful_same s); try done; cbn; rewrite ?Er; auto.
      * unfold rank, phase_rank, stage. cbn. rewrite Er, Hfl. cbn.
        change (jobs (set_run (schedule_trigger (master s)) (Waiting_monitor ph) s) ph) with (jobs s ph).
        assert (wait_trigger (set_run (schedule_trigger (master s)) (Waiting_monitor ph) s) ≤ W + 4); [|lia].
        destruct Hg as [_ _ _ _ _ _ [_ Hmo] _]. unfold wait_trigger. cbn. destruct (monitor_at s); lia.
  - destruct Hc as (Hfl & Hpo & Hpe & Hj). destruct (trigger_monitoring (master s)) eqn:Et.
    + apply monitor_closer; try done; [|right; left; by exists ph].
      destruct Hg as [_ _ _ _ _ _ [_ Hmo] _]. rewrite Er in Hmo. intros E. rewrite E in Hmo. by destruct Hmo.
    + rewrite Hpe, Hj in Hm. cbn in Hm.
      destruct (decide_ok np l ips (master s) ph Hf Hco ltac:(lia)) as (m' & Ed & _ & _ & Hfl' & _ & Ha' & _ & _ & Hfi' & _).
      { intros ->. unfold background in Hb. rewrite Er in Hb. apply Hb. }
      apply (closer_intro Run s (set_run m' (Joining ph) s)); try done.
      * cbn. unfold run_step. by rewrite Er, Et, Ed.
      * apply (hopeful_same s); try done; cbn; rewrite ?Er; auto.
        unfold news. pose proof (Ha' Mapping) as A1. pose proof (Ha' Reducing) as A2. cbn in A1, A2. by rewrite A1, A2, Hfi'.
      * unfold rank, phase_rank, stage. cbn. rewrite Er, Hfl'. cbn.
        change (jobs (set_run m' (Joining ph) s) ph) with (jobs s ph). lia.
Qed.
(** The reduce phase begins with as many partitions as the code waits for. *)
Lemma reduce_begins_hopeful s s' :
  good s → hopeful s → run_at s = Joining Mapping → good s' → run_at s' = Assigning Reducing 0 →
  news (master s') = news (master s) → pending s' = [] → hopeful s' ∧ length (keys s') = np.
Proof.
  intros Hg [Hl Hs] Er Hg' Er' Hn Hpe. unfold news in Hn. injection Hn as N1 N2 N3.
  destruct Hg as [_ _ Hm _ _ Hc _ _]. unfold control in Hc. rewrite Er in *. destruct Hc as (_ & Hpe0 & _ & _).
  cbn in Hm. rewrite Hpe0 in Hm. cbn in Hm.
  assert (full np (master s)) as Hfull.
  { destruct (decide (full np (master s))) as [?|?]; [done|]. destruct Hs. split; [lia|done]. }
  assert (full np (master s')) as Hfull' by (unfold full in *; by rewrite N3).
  destruct Hg' as [Hf' Hb' Hm' _ _ _ _ _]. unfold background in Hb'. rewrite Er' in Hb', Hm'. cbn in Hb', Hm'.
  assert (length (keys s') = np) as Hk by (apply (keys_full np l ips np_ne s' Hf'); [by apply Hb'|done]).
  split; [|done]. split; [|by intros [_ ?]]. intros [H1 _]. rewrite Er' in H1. cbn in H1. rewrite Hpe in Hm'. cbn in Hm'. lia.
Qed.

Lemma join_closer s ph : good s → hopeful s → run_at s = Joining ph → closer s.
Proof.
  intros Hg Hh Er. pose proof Hg as [Hf Hb Hm _ _ Hc _ _]. unfold control in Hc. rewrite Er in Hc.
  destruct Hc as (Hco & Hpe & Hj & [[Hfl Hpo]|[Hfl Hpo]]).
  - assert (poll_returns (poll_resume (master s)) (Some (is_map ph)) = true) as Hret.
    { unfold poll_returns. destruct ph; cbn in *; rewrite Hco; [done|]. by rewrite orb_true_r. }
    apply (closer_intro Poll s (set_poll (poll_resume (master s)) Returned s) Hg I).
    + cbn. unfold poll_step. rewrite Hpo, Hfl. unfold poll_goes_on. by rewrite Hret.
    + by apply (hopeful_same s).
    + unfold rank, phase_rank, stage. cbn. rewrite Er, Hpo, Hfl. cbn.
      change (jobs (set_poll (poll_resume (master s)) Returned s) ph) with (jobs s ph). lia.
  - destruct (run_good np l ips np_ne s (phase_end ph s) Hg) as (s' & Es' & Hg').
    { unfold run_step. by rewrite Er, Hpo. }
    assert (exec Run s = Some (Ok s')) as E by (cbn; unfold run_step; by rewrite Er, Hpo, Es').
    destruct ph; cbn in Es'.
    + destruct (start_reduce (master s)) as [mi|] eqn:Esr; [|done]. cbn in Es'. injection Es' as <-.
      unfold start_reduce in Esr. destruct (group_files (m_intermediate_files (master s))) as [g|] eqn:Eg; [|done].
      cbn in Esr. injection Esr as <-.
      edestruct (reduce_begins_hopeful s _ Hg Hh Er Hg') as [Hh' Hk]; [done..|].
      apply (closer_intro Run s _ Hg I E Hh').
      unfold rank, phase_rank, stage. cbn in Hk |- *. rewrite Er, Hpe, Hfl, Hk. cbn. unfold base. lia.
    + injection Es' as <-. apply (closer_intro Run s _ Hg I E).
      * apply (hopeful_same s); try done; cbn; rewrite ?Er; auto.
      * pose proof (wait_end_bound _ Hg'). unfold rank. rewrite Er. cbn. unfold base. lia.
Qed.

Lemma run_closer s : good s → hopeful s → finished s ∨ closer s.
Proof.
  intros Hg Hh. destruct (run_at s) as [| |ph i|ph i ip|ph|ph|ph| |b] eqn:Er; [right..|left; by exists b].
  - apply begin_closer; auto.
  - apply begin_closer; auto.
  - by apply (assign_closer s ph i).
  - by apply (send_closer s ph i ip).
  - apply (wait_closer s ph); auto.
  - apply (wait_closer s ph); auto.
  - by apply (join_closer s ph).
  - assert (monitor_at s = Ended ∨ monitor_at s ≠ Ended) as [Em|Em]
      by (destruct (monitor_at s); (by left) || by right); [|apply monitor_closer; auto].
    eapply (closer_intro Run s _ Hg I); [cbn; unfold run_step; by rewrite Er, Em|..].
    + apply (hopeful_same s); try done; cbn; rewrite ?Er; auto.
    + unfold rank. rewrite Er. cbn. lia.
Qed.

Lemma hopeful_finishes s : good s → hopeful s → ∃ s', rtc (calm_step np) s s' ∧ finished s'.
Proof.
  intros Hg Hh.
  apply (rank_reaches (calm_step np) (λ s, good s ∧ hopeful s) finished rank); [|done].
  intros s0 [Hg0 Hh0]. destruct (run_closer s0 Hg0 Hh0) as [?|(e & s1 & He & Hs & Hg1 & Hh1 & Hr)]; [by left|].
  right. exists s1. split; [|done]. exists e. split; [by apply (usual_calm e s0)|done].
Qed.
(** Missing files stay missing. *)
Definition mapped (m : Master) := (num_map_msgs m, m_intermediate_files m).

Lemma run_keeps_mapped s s' : run_step s = Some (Ok s') → mapped (master s') = mapped (master s).
Proof using Hnp.
  unfold run_step. intros E. destruct (run_at s) as [| |ph i|ph i ip|ph|ph|ph| |b]; [| | | | | | | |done].
  - by injection E as <-.
  - destruct (initial_monitor_job s); [done|]. by injection E as <-.
  - case_decide; [|by injection E as <-]. unfold assign_job in E.
    destruct (ready_queue (master s)) as [|ip rest]; [done|]. case_decide; by injection E as <-.
  - injection E as E. unfold send_job, get, client_get in E.
    destruct ph; [destruct (shards (master s) !! i)|destruct (partitions (master s) !! i)]; try done; cbn in E;
      destruct (ip_addr2worker (master s) !! ip) as [[c|]|]; try done; by injection E as <-.
  - destruct (map_reduce_flag (master s)); [done|]. by injection E as <-.
  - destruct (trigger_monitoring (master s)); [done|]. injection E as <-. cbn.
    unfold schedule_decide. destruct ph; cbn; unfold map_round_end, reduce_round_end; by repeat case_match; simplify_eq.
  - destruct (poll_at s); try done. injection E as E. destruct ph; cbn in E; [|by injection E as <-].
    unfold start_reduce in E. destruct (group_files _); [|done]. cbn in E. by injection E as <-.
  - destruct (monitor_at s); try done. by injection E as <-.
Qed.

Lemma monitor_keeps_mapped s s' : good s → monitor_step s = Some (Ok s') → mapped (master s') = mapped (master s).
Proof using Hnp.
  intros Hg. unfold monitor_step. intros E. destruct (monitor_at s); [| | | |done].
  - by injection E as <-.
  - destruct (stop_monitoring (master s)); [by injection E as <-|].
    rewrite (send_pings_ok np l ips) in E by apply Hg. by injection E as <-.
  - case_decide; [done|]. by injection E as <-.
  - by injection E as <-.
Qed.

Lemma short_step s s' : good s → short s → calm_step np s s' → short s'.
Proof using Hnp.
  clear Hips Hreply. intros Hg [Hn Hs] (e & He & E).
  assert (mapped (master s') = mapped (master s) → short s') as Hsame.
  { intros H. unfold mapped in H. injection H as N1 N2. split; [by rewrite N1|]. unfold full in *. by rewrite N2. }
  destruct e as [|j r|j| | |k id|k|p text]; cbn in E, He; try done.
  - by apply Hsame, run_keeps_mapped.
  - apply Hsame. unfold poll_answer in E. destruct (poll_at s); try done.
    destruct (pending s !! j) as [[ip jb]|] eqn:Ej; [|done]. cbn in E.
    destruct (completed ip jb (Some r)) as [call|] eqn:Ec; [|done]. injection E as <-. cbn.
    pose proof Hg as [Hf _ Hm Hp _ _ _ _]. destruct (Hp ip jb) as [Hip Hph]; [by eapply list_elem_of_lookup_2|].
    destruct (poll_call_ok np l ips np_ne (master s) ip jb r call Hf Hip Ec) as (m' & -> & _ & _ & _ & _ & _ & Hfi & Ha).
    { by destruct r. }
    unfold mapped. pose proof (Ha Mapping) as A1. cbn in A1.
    destruct jb, r; try done; cbn in *.
    + exfalso. rewrite <-Hph in Hm. cbn in Hm. pose proof (lookup_lt_Some _ _ _ Ej).
      assert (sent_in (length l) (run_at s) ≤ length l); [|lia].
      pose proof (gd_control _ _ _ _ Hg) as Hc. unfold control in Hc.
      destruct (run_at s) as [| |[] ?|[] ? ?|?|?|?| |?]; cbn in *; try done; lia.
    + by rewrite A1, Hfi, Z.add_0_r, (right_id_L ∅ (∪)).
  - apply Hsame. unfold poll_step in E. destruct (poll_at s); try done.
    + injection E as <-. unfold poll_handover. by destruct (_ && _).
    + destruct (map_reduce_flag (master s)); [|done]. by injection E as <-.
  - by apply Hsame, monitor_keeps_mapped.
  - apply Hsame. unfold monitor_receives in E. destruct (monitor_at s); try done. case_decide; [|done].
    destruct (pings s !! k); [|done]. by injection E as <-.
  - apply Hsame. by injection E as <-.
Qed.
End progress.

(** ** Waiting for ever *)

(** No job is in flight, and [run] has nothing to do but wait for [poll_workers]. *)
Definition stranded (s : system) : Prop :=
  poll_at s = Polling ∧ pending s = [] ∧
  match run_at s with
  | Starting | Waiting_first => num_jobs Mapping (master s) = 0
  | Assigning ph i => num_jobs ph (master s) ≤ i
  | Waiting_poll _ => map_reduce_flag (master s) = true
  | _ => False
  end.

(** What [run] looks at there; [monitor] leaves it alone. *)
Definition sees (m : Master) := (shards m, partitions m, map_reduce_flag m).

Lemma client_get_sees m ip : sees (client_get m ip).1 = sees m.
Proof. unfold client_get. by destruct (ip_addr2worker m !! ip). Qed.

Lemma failure_sees f m ip f' m' : handle_worker_failure f m ip = Ok (f', m') → sees m' = sees m.
Proof.
  unfold handle_worker_failure. pose proof (client_get_sees m ip) as H.
  destruct (client_get m ip) as [m1 c]. cbn in H. rewrite <-H. clear H. intros E.
  destruct (negb (map_complete m1)).
  - destruct c as [c|]; [|by injection E as _ <-]. revert E. unfold drop_intermediate.
    match goal with |- context [head ?x] => destruct (head x) end; cbn; by intros [= _ <-].
  - destruct c as [c|]; [|done]. by injection E as _ <-.
Qed.

Lemma send_pings_sees m q m' q' : send_pings m q = Ok (m', q') → sees m' = sees m.
Proof.
  unfold send_pings. intros E.
  assert (sees (m', q').1 = sees m) as H; [|done].
  refine (mfoldl_inv (λ _ st, sees st.1 = sees m) _ _ _ _ _ _ E); [done|].
  intros done [m1 q1] ip [m2 q2] rest _ H Hst. cbn [fst snd] in *.
  pose proof (client_get_sees m1 ip) as Hc. destruct (client_get m1 ip) as [m3 [c|]]; [|done].
  cbn in *. injection Hst as <- _. congruence.
Qed.

Lemma monitor_sees e s s' :
  match e with Monitor | Pong _ _ | Lost _ | Write _ _ => True | _ => False end → exec e s = Some (Ok s') →
  run_at s' = run_at s ∧ poll_at s' = poll_at s ∧ pending s' = pending s ∧ sees (master s') = sees (master s).
Proof.
  intros He E. assert (∀ k b, monitor_receives k b s = Some (Ok s') →
    run_at s' = run_at s ∧ poll_at s' = poll_at s ∧ pending s' = pending s ∧ sees (master s') = sees (master s)) as Hr.
  { intros k b E'. unfold monitor_receives in E'. destruct (monitor_at s); try done. case_decide; [|done].
    destruct (pings s !! k) as [ip|]; [|done]. cbn in E'. unfold monitor_pong, receive_monitor_pong in E'.
    cbn in E'. destruct b; cbn in E'; [by injection E' as <-|].
    destruct (handle_worker_failure (disk s) (master s) ip) as [[f' m']|] eqn:Ef; [|done]. cbn in E'.
    injection E' as <-. cbn. by rewrite (failure_sees _ _ _ _ _ Ef). }
  destruct e; try done; cbn in E; [|by eapply Hr..|by injection E as <-].
  unfold monitor_step in E. destruct (monitor_at s); [by injection E as <-| | |by injection E as <-|done].
  - destruct (stop_monitoring (master s)); [by injection E as <-|].
    destruct (send_pings (master s) (pings s)) as [[m' q']|] eqn:Ep; [|done]. cbn in E.
    injection E as <-. cbn. by rewrite (send_pings_sees _ _ _ _ Ep).
  - case_decide; [done|]. by injection E as <-.
Qed.

Lemma stranded_step s s' : stranded s → step s s' → stranded s'.
Proof.
  intros (Hpo & Hpe & Hr) [e E].
  assert (match e with Monitor | Pong _ _ | Lost _ | Write _ _ => True | _ => False end → stranded s') as Hmon.
  { intros He. destruct (monitor_sees e s s' He E) as (R1 & R2 & R3 & R4). unfold sees in R4.
    injection R4 as S1 S2 S3. unfold stranded. rewrite R1, R2, R3. split; [done|]. split; [done|].
    assert (∀ ph, num_jobs ph (master s') = num_jobs ph (master s)) as Hn by (intros []; cbn; congruence).
    destruct (run_at s); rewrite ?Hn, ?S3; done. }
  destruct e as [|j r|j| | | | |]; [..|by apply Hmon|by apply Hmon|by apply Hmon|by apply Hmon]; clear Hmon; cbn in E.
  - unfold run_step in E. destruct (run_at s) as [| |ph i|ph i ip|ph|ph|ph| |b] eqn:Er; try done.
    + by injection E as <-.
    + destruct (initial_monitor_job s); [done|]. injection E as <-. split; [done|]. split; [done|]. cbn in *. lia.
    + rewrite decide_False in E by lia. by injection E as <-.
    + by rewrite Hr in E.
  - unfold poll_answer in E. by rewrite Hpo, Hpe in E.
  - unfold poll_answer in E. by rewrite Hpo, Hpe in E.
  - unfold poll_step in E. by rewrite Hpo in E.
Qed.

Lemma stranded_forever s s' : stranded s → rtc step s s' → ¬ finished s'.
Proof.
  intros Hs Hst. assert (stranded s') as (_ & _ & Hr); [|intros [b Er]; by rewrite Er in Hr].
  induction Hst as [|s1 s2 s3 H12 _ IH]; [done|]. apply IH. by eapply stranded_step.
Qed.

Lemma lost_stranded np l ips s : np ≠ 0 → good np l ips s → lost l s → stranded s.
Proof.
  intros Hnp [Hf Hb Hm Hp Hw Hc _ _] [Hmsgs Hpo]. rewrite Hmsgs in Hm. unfold control in Hc.
  assert (sent_in (jobs l s (cur (run_at s))) (run_at s) ≤ jobs l s (cur (run_at s))) as Hle
    by (destruct (run_at s); cbn in *; lia).
  assert (pending s = []) as Hpe by (apply nil_length_inv; lia).
  split; [done|]. split; [done|]. rewrite Hpe in Hm. cbn in Hm. rewrite Z.add_0_r in Hm. apply Nat2Z.inj in Hm.
  destruct (run_at s) as [| |ph i|ph i ip|ph|ph|ph| |b]; cbn in Hm.
  - destruct Hc as (_ & _ & _ & Hsh & _). cbn. by rewrite Hsh.
  - destruct Hc as (_ & _ & _ & Hsh & _). cbn. by rewrite Hsh.
  - destruct Hc as (_ & _ & _ & _ & Hwk). destruct ph; cbn in *; rewrite Hwk; lia.
  - lia.
  - destruct Hc as (_ & _ & [[? _]|(_ & ? & _)]); [done|congruence].
  - destruct Hc as (_ & _ & _ & ? & _). congruence.
  - destruct Hc as (_ & _ & _ & [[_ ?]|[_ ?]]); congruence.
  - destruct Hc as (_ & _ & ?). congruence.
  - destruct Hc as (_ & _ & ? & _). congruence.
Qed.

(** ** Properties *)

Lemma sent_length np l ips s :
  good np l ips s →
  match cur (run_at s) with
  | Mapping => length (sent s) = sent_in (length l) (run_at s) ∧ length (sent_partitions s) = 0
  | Reducing => length (sent s) = length l ∧
      length (sent_partitions s) = sent_in (length (keys s)) (run_at s)
  end.
Proof.
  intros [_ Hb _ _ _ Hc _ _]. unfold background, control in *.
  destruct (run_at s) as [| |[] i|[] i ip|[]|[]|[]| |b]; cbn in *; destruct_and?;
    repeat match goal with H : sent s = _ |- _ => rewrite H; clear H
                      | H : sent_partitions s = _ |- _ => rewrite H; clear H end;
    rewrite ?length_take; cbn; lia.
Qed.

(** C6: while no worker fails, whatever the interleaving of [run], the polling threads,
    [monitor] and the answers, the shards are sent once each and in order, then, when
    all of them have been answered, the partitions of the intermediate files; every
    job sent is answered or in flight; no thread dereferences a null client or fails
    otherwise; and a run that ends returns true after every shard and every
    partition has been sent and answered. *)
Theorem master_in_order (f : fs) (spec : MapReduceSpec) (np : nat) (l : list FileShard) (s : system) :
  can_start f spec np → reachable (eq (start f spec l)) (calm_step np) s →
  sent s = take (length (sent s)) l ∧
  sent_partitions s = take (length (sent_partitions s)) (keys s) ∧
  (num_map_msgs (master s) + num_reduce_msgs (master s) + Z.of_nat (length (pending s)) =
    Z.of_nat (length (sent s)) + Z.of_nat (length (sent_partitions s)))%Z ∧
  (sent_partitions s ≠ [] → num_map_msgs (master s) = Z.of_nat (length l)) ∧
  (∀ e x, calm np e → exec e s = Some x → ∃ s', x = Ok s') ∧
  (∀ b, run_at s = Finished b → b = true ∧ pending s = [] ∧ sent s = l ∧
    sent_partitions s ≡ₚ Z.of_nat <$> seq 0 np).
Proof.
  intros Hcs Hs. pose proof (cs_partitions _ _ _ Hcs) as [_ Hnp]. assert (np ≠ 0) as Hne by lia.
  apply (calm_reachable _ _ _ _ _ Hcs) in Hs.
  pose proof (sent_length _ _ _ _ Hs) as HL. pose proof Hs as [Hf Hb Hm Hp Hw Hc _ _].
  split_and!.
  - unfold background in Hb. destruct (cur (run_at s)); destruct HL as [-> _]; [by apply Hb|].
    rewrite firstn_all. by apply Hb.
  - unfold background in Hb. destruct (cur (run_at s)); destruct HL as [_ ->]; by apply Hb.
  - unfold background in Hb. destruct (cur (run_at s)); cbn in Hm; destruct HL as [-> ->]; destruct_and?; lia.
  - intros Hsp. unfold background in Hb. destruct (cur (run_at s)); [|by apply Hb]. by destruct Hb as (_ & _ & _ & _ & ?).
  - intros e x He E. destruct (calm_good _ _ _ Hne _ _ _ Hs He E) as (s' & -> & _). by eexists.
  - intros b Er. unfold control, background in Hc, Hb. rewrite Er in Hc, Hb. cbn in Hb.
    destruct Hc as (Hpe & Hj & _ & Hbt), Hb as (_ & _ & Hg & Hse & Hsp). split_and!; try done.
    rewrite Hsp, firstn_all. apply submseteq_length_Permutation; [by apply (keys_below np l (workers spec))|].
    rewrite length_fmap, length_seq. cbn in Hj. lia.
Qed.

(** C16: while no worker fails, a run can be brought to its end from every reachable state,
    but for two kinds of states, from which it never ends: the last answer of a phase
    has been treated before [run] set [map_reduce_flag], so that nobody is told; or all
    shards have been mapped and some partition has no intermediate file. *)
Theorem master_ends_unless_lost (f : fs) (spec : MapReduceSpec) (np : nat) (l : list FileShard) (s : system) :
  can_start f spec np → (Z.of_nat np < 2 ^ 31)%Z → reachable (eq (start f spec l)) (calm_step np) s →
  (∃ s', rtc (calm_step np) s s' ∧ finished s') ∨
  ((lost l s ∨ short np l s) ∧ ∀ s', rtc (calm_step np) s s' → ¬ finished s').
Proof.
  intros Hcs Hint Hs. pose proof (cs_partitions _ _ _ Hcs) as [_ Hnp]. assert (np ≠ 0) as Hne by lia.
  pose proof (can_start_workers _ _ _ Hcs) as Hw. pose proof (cs_workers _ _ _ Hcs) as Hw'.
  apply (calm_reachable _ _ _ _ _ Hcs) in Hs.
  destruct (decide (full np (master s) ∨ num_map_msgs (master s) ≠ Z.of_nat (length l))) as [Hf|Hf].
  - assert (¬ short np l s) as Hshort by (intros [H1 H2]; by destruct Hf).
    destruct (decide (answered (cur (run_at s)) (master s) = Z.of_nat (jobs l s (cur (run_at s))))) as [Ha|Ha].
    + destruct (poll_at s) eqn:Hpo; [right|left..].
      * split; [by left|]. intros s' Hr. apply (stranded_forever s); [by eapply lost_stranded|].
        eapply rtc_subrel; [|exact Hr]. intros s1 s2 (e & _ & E). by exists e.
      * apply (hopeful_finishes np l (workers spec) Hnp ltac:(lia) _ (some_reply_good np _ Hint)); try done. split; [|done]. intros [_ ?]. congruence.
      * apply (hopeful_finishes np l (workers spec) Hnp ltac:(lia) _ (some_reply_good np _ Hint)); try done. split; [|done]. intros [_ ?]. congruence.
      * apply (hopeful_finishes np l (workers spec) Hnp ltac:(lia) _ (some_reply_good np _ Hint)); try done. split; [|done]. intros [_ ?]. congruence.
    + left. apply (hopeful_finishes np l (workers spec) Hnp ltac:(lia) _ (some_reply_good np _ Hint)); try done. by split; [intros [? _]|].
  - right. assert (short np l s) as Hshort.
    { split; [destruct (decide (num_map_msgs (master s) = Z.of_nat (length l))); tauto|tauto]. }
    split; [by right|]. intros s' Hr.
    assert (good np l (workers spec) s' ∧ short np l s') as [Hg [_ Hs']].
    { clear Hf. induction Hr as [|s1 s2 s3 H12 _ IH]; [done|]. apply IH.
      - by eapply calm_step_good.
      - eapply short_step; try done. }
    intros [b Er]. apply Hs'. destruct Hg as [Hfr Hb _ _ _ Hc _ _]. unfold background, control in *.
    rewrite Er in *. apply (keys_full np l (workers spec) Hne s' Hfr); [by apply Hb|by apply Hc].
Qed.

(** ** Runs *)

(** The events of a list that can happen, in its order. *)
Definition play (s : system) (es : list event) : system :=
  foldl (λ s e, match exec e s with Some (Ok s') => s' | _ => s end) s es.

Lemma play_master (s0 s : system) es : reachable (eq s0) step s → reachable (eq s0) step (play s es).
Proof.
  revert s. induction es as [|e es IH]; intros s Hs; [done|]. apply IH. cbn.
  destruct (exec e s) as [[s'|]|] eqn:E; [|done..]. eapply reachable_step; [exact Hs|]. by exists e.
Qed.

Lemma play_calm np (s0 s : system) es :
  Forall (calm np) es → reachable (eq s0) (calm_step np) s → reachable (eq s0) (calm_step np) (play s es).
Proof.
  intros Hes. revert s. induction Hes as [|e es He Hes IH]; intros s Hs; [done|]. apply IH. cbn.
  destruct (exec e s) as [[s'|]|] eqn:E; [|done..]. eapply reachable_step; [exact Hs|]. by exists e.
Qed.

(** [k] of three workers, two partitions and two shards. *)
Definition demo_spec (k : Z) : MapReduceSpec := {|
  n_workers := k; worker_ipaddr_ports := [str "a:1"; str "b:2"; str "c:3"]; input_files := [str "in"];
  output_dir := str "out"; n_output_files := 2; map_kilobytes := 1; user_id := str "u" |}.

Definition demo_shards : list FileShard := [Shard [str "in"] [(0, 2)%Z]; Shard [str "in"] [(2, 6)%Z]].

Definition demo_start (k : nat) : system := start (FS ∅ ∅) (demo_spec (Z.of_nat k)) demo_shards.

(** A turn of [monitor] in which all of its [k] pings are answered. *)
Definition calm_turn (k : nat) : list event := Monitor :: replicate k (Pong 0 (str "w")) ++ [Monitor; Monitor].

(** Up to the map phase, and until both shards have been sent. *)
Definition to_map (k : nat) : list event := [Run; Monitor] ++ calm_turn k ++ [Run].
Definition to_sent (k : nat) : list event := to_map k ++ [Run; Run; Run; Run].

(** The shards are mapped to files of both partitions and the phase ends. *)
Definition demo_files (port : string) : list cstr :=
  [str "intermediate/0_" ++ str port ++ str ".txt"; str "intermediate/1_" ++ str port ++ str ".txt"].

Definition to_reduce (k : nat) : list event :=
  to_sent k ++ [Run; Answer 0 (MapperReply (demo_files "1")); Poll; Answer 0 (MapperReply (demo_files "2")); Poll; Run] ++
  calm_turn k ++ [Run; Poll; Run].

Lemma to_reduce_calm : Forall (calm 2) (to_reduce 2).
Proof. apply (bool_decide_unpack _). by vm_compute. Qed.

Lemma demo_reachable k es : reachable (eq (demo_start k)) step (play (demo_start k) es).
Proof. apply play_master. by apply reachable_init. Qed.

Lemma demo_calm k es :
  Forall (calm 2) es → reachable (eq (demo_start k)) (calm_step 2) (play (demo_start k) es).
Proof. intros H. apply play_calm; [done|]. by apply reachable_init. Qed.

(** ** What can go wrong *)

(** Both answers are treated before [run] gets to [schedule_monitor]: no worker has
    failed, and the run never ends. *)
Theorem last_answer_too_early : ∃ s,
  reachable (eq (demo_start 2)) step s ∧ num_map_msgs (master s) = 2%Z ∧ dropped_worker_ips (master s) = [] ∧
  ∀ s', rtc step s s' → ¬ finished s'.
Proof.
  exists (play (demo_start 2) (to_sent 2 ++
    [Answer 0 (MapperReply (demo_files "1")); Poll; Answer 0 (MapperReply (demo_files "2")); Poll])).
  split; [apply demo_reachable|]. split; [by vm_compute|]. split; [by vm_compute|].
  intros s'. apply stranded_forever. by vm_compute.
Qed.

(** A worker fails while it has a job: the error of its call is subtracted from the
    answers, the job is not counted with the shards that are to be sent again, and the
    map phase never ends. *)
Theorem failed_job_blocks_phase : ∃ s,
  reachable (eq (demo_start 2)) step s ∧ unfinished_shards (master s) ≠ [] ∧
  ∀ s', rtc step s s' → ¬ finished s'.
Proof.
  exists (play (demo_start 2) (to_sent 2 ++ [Run; Answer 0 (MapperReply (demo_files "1")); Poll; Error 0; Poll; Monitor; Lost 1])).
  split; [apply demo_reachable|]. split; [by vm_compute|].
  intros s'. apply stranded_forever. by vm_compute.
Qed.

(** A third worker that has no job fails: the first answer makes [run] go on before
    the phase is complete, and with no unfinished shard it sends all of them again. *)
Theorem idle_failure_sends_again : ∃ s,
  reachable (eq (demo_start 3)) step s ∧ sent s = demo_shards ++ take 1 demo_shards.
Proof.
  exists (play (demo_start 3) (to_sent 3 ++ [Run; Monitor; Lost 2; Answer 0 (MapperReply (demo_files "1")); Poll; Run;
    Pong 0 (str "w"); Monitor; Monitor; Run; Poll; Run; Run; Run])).
  split; [apply demo_reachable|]. by vm_compute.
Qed.

(** A worker is dropped between its choice and the sending of its job: the client is
    a null pointer then. *)
Theorem job_for_dropped_worker : ∃ s,
  reachable (eq (demo_start 2)) step s ∧ exec Run s = Some (Err Undefined).
Proof.
  exists (play (demo_start 2) (to_map 2 ++ [Run; Monitor; Lost 0])).
  split; [apply demo_reachable|]. by vm_compute.
Qed.

(** A worker fails with a reduce job: its partition is not recorded as unfinished, and
    after the next answer [run] sends both partitions again. *)
Theorem failed_reducer_repeats : ∃ s,
  reachable (eq (demo_start 3)) step s ∧ unfinished_partitions (master s) = [] ∧
  sent_partitions s = keys s ++ take 1 (keys s).
Proof.
  exists (play (demo_start 3) (to_reduce 3 ++ [Run; Run; Run; Run; Run; Error 0; Poll; Monitor; Lost 2;
    Answer 0 (ReducerReply (str "out/1")); Poll; Run; Pong 0 (str "w"); Pong 0 (str "w"); Monitor; Monitor; Run; Poll; Run; Run; Run])).
  split; [apply demo_reachable|]. by vm_compute.
Qed.

(** [monitor] waits for fewer pongs than it has sent pings once a worker has failed, so a
    worker can be pinged again before its first ping has failed; in the reduce phase its
    second failure dereferences a null client. *)
Theorem second_failure_crashes : ∃ s,
  reachable (eq (demo_start 3)) step s ∧ exec (Lost 0) s = Some (Err Undefined).
Proof.
  exists (play (demo_start 3) (to_reduce 3 ++ [Monitor; Lost 0; Pong 1 (str "w"); Monitor; Monitor;
    Monitor; Lost 0; Monitor; Monitor; Monitor])).
  split; [apply demo_reachable|]. by vm_compute.
Qed.

(** ** Witnesses *)

Lemma demo_can_start k : 0 < k ≤ 3 → can_start (FS ∅ ∅) (demo_spec (Z.of_nat k)) 2.
Proof. intros Hk. split; cbn; [lia|lia|done]. Qed.

(** The run goes on to its end. *)
Definition to_end (k : nat) : list event :=
  to_reduce k ++ [Run; Run; Run; Run; Run; Answer 0 (ReducerReply (str "out/0")); Poll;
    Answer 0 (ReducerReply (str "out/1")); Poll; Run] ++ calm_turn k ++ [Run; Poll; Run; Monitor; Run].

Lemma to_end_calm : Forall (calm 2) (to_end 2).
Proof. apply (bool_decide_unpack _). by vm_compute. Qed.

Lemma master_in_order_witness : ∃ s,
  run_at s = Finished true ∧
  sent s = take (length (sent s)) demo_shards ∧
  sent_partitions s = take (length (sent_partitions s)) (keys s) ∧
  (num_map_msgs (master s) + num_reduce_msgs (master s) + Z.of_nat (length (pending s)) =
    Z.of_nat (length (sent s)) + Z.of_nat (length (sent_partitions s)))%Z ∧
  (sent_partitions s ≠ [] → num_map_msgs (master s) = Z.of_nat (length demo_shards)) ∧
  (∀ e x, calm 2 e → exec e s = Some x → ∃ s', x = Ok s') ∧
  (∀ b, run_at s = Finished b → b = true ∧ pending s = [] ∧ sent s = demo_shards ∧
    sent_partitions s ≡ₚ Z.of_nat <$> seq 0 2).
Proof.
  exists (play (demo_start 2) (to_end 2)). split; [by vm_compute|].
  apply (master_in_order (FS ∅ ∅) (demo_spec 2)); [apply (demo_can_start 2); lia|apply (demo_calm 2), to_end_calm].
Defined.

Lemma master_ends_unless_lost_witness : ∃ s,
  run_at s = Assigning Reducing 0 ∧
  ((∃ s', rtc (calm_step 2) s s' ∧ finished s') ∨
   ((lost demo_shards s ∨ short 2 demo_shards s) ∧ ∀ s', rtc (calm_step 2) s s' → ¬ finished s')).
Proof.
  exists (play (demo_start 2) (to_reduce 2)). split; [by vm_compute|].
  apply (master_ends_unless_lost (FS ∅ ∅) (demo_spec 2));
    [apply (demo_can_start 2); lia|lia|apply (demo_calm 2), to_reduce_calm].
Defined.
