(* ===== verification/MasterFaults.v ===== *)
(** * The master when workers fail (project4/src/master.cc)

    The system of MasterThreads.v under every event: calls that fail, pings that are not
    answered, at any time and for any worker.  What can then go wrong is shown by the
    examples of MasterRun.v; here is what holds nevertheless.  The workers are always
    accounted for; no shard is forgotten before the end of the map phase, in
    which it would be lost with the worker that it was sent to; and a step fails in
    three situations only. *)
From S2P Require Import Prelude CxxString FileSystem MRSpec FileShard MRTasks TaskFactory.
From S2P Require Import WorkerRequest Master MasterThreads MasterRun.

(** ** Invariant *)

(** A worker with a client. *)
Definition live (m : Master) (ip : cstr) : Prop := ∃ c, ip_addr2worker m !! ip = Some (Some c).

(** A shard that a client has sent. *)
Definition owned (m : Master) (sh : FileShard) : Prop :=
  ∃ ip c, ip_addr2worker m !! ip = Some (Some c) ∧ sh ∈ map_shards c.

(** The workers are partitioned into those that the master uses and those it has
    dropped. *)
Record accounted (ips : list cstr) (m : Master) : Prop := {
  ac_split : worker_ips m ++ dropped_worker_ips m ≡ₚ ips;
  ac_num : num_workers m = Z.of_nat (length (worker_ips m));
  ac_live ip : live m ip ↔ ip ∈ worker_ips m;
  ac_ready ip : ip ∈ ready_queue m → ip ∈ ips
}.

(** The rounds of the map phase. *)
Definition in_rounds (p : run_pc) : Prop :=
  match p with
  | Starting | Waiting_first | Assigning Mapping _ | Sending Mapping _ _ | Waiting_poll Mapping | Waiting_monitor Mapping => True
  | _ => False
  end.

(** The shards of the current round that have not been sent. *)
Definition to_send (p : run_pc) (m : Master) : list FileShard :=
  match p with
  | Starting | Waiting_first => shards m
  | Assigning Mapping i | Sending Mapping i _ => drop i (shards m)
  | _ => []
  end.

(** A shard will be sent, will be sent again, or a live worker has it. *)
Definition remembered (p : run_pc) (m : Master) (sh : FileShard) : Prop :=
  sh ∈ to_send p m ∨ sh ∈ unfinished_shards m ∨ owned m sh.

Section faults.
Context (l : list FileShard) (ips : list cstr) (Hips : NoDup ips).

Record tracked (s : system) : Prop := {
  tr_workers : accounted ips (master s);
  tr_sending ph i ip : run_at s = Sending ph i ip → ip ∈ ips ∧ i < num_jobs ph (master s);
  tr_pings ip : ip ∈ pings s → ip ∈ ips;
  tr_map : in_rounds (run_at s) →
    map_complete (master s) = false ∧ ∀ sh, sh ∈ l → remembered (run_at s) (master s) sh
}.

(** ** Lemmas on the master *)

Lemma erase_first_perm ip l' : ip ∈ l' → ip :: erase_first ip l' ≡ₚ l'.
Proof using.
  induction l' as [|x l' IH]; intros H; [by apply elem_of_nil in H|]. cbn [erase_first].
  case_decide as Hx; [by subst|]. apply elem_of_cons in H as [H|H]; [congruence|]. rewrite Permutation_swap. by rewrite IH.
Qed.

Lemma accounted_NoDup m : accounted ips m → NoDup (worker_ips m).
Proof using Hips. intros Ha. rewrite <-(ac_split _ _ Ha) in Hips. by apply NoDup_app in Hips as [? _]. Qed.

(** [operator\[\]] changes neither the clients nor what they have. *)
Lemma client_get_lookup m ip ip' c :
  ip_addr2worker (client_get m ip).1 !! ip' = Some (Some c) ↔ ip_addr2worker m !! ip' = Some (Some c).
Proof using.
  unfold client_get. destruct (ip_addr2worker m !! ip) as [c'|] eqn:E; [done|]. cbn.
  destruct (decide (ip = ip')) as [<-|Hne]; [by rewrite lookup_insert_eq, E|by rewrite lookup_insert_ne].
Qed.

Lemma client_get_some m ip c : (client_get m ip).2 = Some c ↔ ip_addr2worker m !! ip = Some (Some c).
Proof using. unfold client_get. destruct (ip_addr2worker m !! ip) as [c'|]; cbn; naive_solver. Qed.

(** A master with the same workers, of which each has at least what it had. *)
Record continues (m m' : Master) : Prop := {
  co_ips : worker_ips m' = worker_ips m;
  co_dropped : dropped_worker_ips m' = dropped_worker_ips m;
  co_num : num_workers m' = num_workers m;
  co_ready ip : ip ∈ ready_queue m' → ip ∈ ready_queue m ∨ ip ∈ worker_ips m;
  co_live ip : live m' ip ↔ live m ip;
  co_owned sh : owned m sh → owned m' sh
}.

Lemma continues_refl m : continues m m.
Proof using. split; auto. Qed.

Lemma continues_trans m1 m2 m3 : continues m1 m2 → continues m2 m3 → continues m1 m3.
Proof using.
  intros [H1 H2 H3 H4 H5 H6] [G1 G2 G3 G4 G5 G6]. split; try congruence.
  - intros ip [Hi|Hi]%G4; [by apply H4|right; congruence].
  - intros ip. by rewrite G5, H5.
  - auto.
Qed.

(** Fields that the accounts do not depend on. *)
Lemma continues_fields m m' :
  worker_ips m' = worker_ips m → dropped_worker_ips m' = dropped_worker_ips m → num_workers m' = num_workers m →
  (∀ ip, ip ∈ ready_queue m' → ip ∈ ready_queue m ∨ ip ∈ worker_ips m) →
  ip_addr2worker m' = ip_addr2worker m → continues m m'.
Proof using. intros H1 H2 H3 H4 H5. split; try done; unfold live, owned; by rewrite H5. Qed.

Lemma continues_get m ip : continues m (client_get m ip).1.
Proof using.
  pose proof (client_get_lookup m ip) as H.
  assert (worker_ips (client_get m ip).1 = worker_ips m ∧ dropped_worker_ips (client_get m ip).1 = dropped_worker_ips m ∧
    num_workers (client_get m ip).1 = num_workers m ∧ ready_queue (client_get m ip).1 = ready_queue m) as (H1 & H2 & H3 & H4).
  { unfold client_get. by destruct (ip_addr2worker m !! ip). }
  split; try done; [by rewrite H4; auto|..].
  - intros ip'. unfold live. by setoid_rewrite H.
  - intros sh (ip' & c & E & Hs). exists ip', c. by rewrite H.
Qed.

Lemma continues_set m ip c c' :
  ip_addr2worker m !! ip = Some (Some c) → map_shards c ⊆ map_shards c' → continues m (set_client ip c' m).
Proof using.
  intros E Hc. split; try done; [by auto|..].
  - intros ip'. unfold live. cbn. rewrite lookup_insert. case_decide; subst; [|done]. split; intros _; by eexists.
  - intros sh (ip' & d & Ed & Hs). exists ip'. cbn. setoid_rewrite lookup_insert. case_decide; [subst|by exists d].
    exists c'. rewrite E in Ed. injection Ed as <-. split; [done|]. by apply Hc.
Qed.

Lemma accounted_continues m m' : continues m m' → accounted ips m → accounted ips m'.
Proof using.
  intros [H1 H2 H3 H4 H5 _] [G1 G2 G3 G4]. split.
  - by rewrite H1, H2.
  - by rewrite H3, H1.
  - intros ip. by rewrite H5, H1.
  - intros ip [?|Hw]%H4; [by apply G4|]. rewrite <-G1. apply elem_of_app. by left.
Qed.

(** What the rounds of the map phase depend on besides. *)
Definition round_of (m : Master) := (shards m, partitions m, unfinished_shards m, map_complete m).

Lemma remembered_continues p p' m m' sh :
  continues m m' → round_of m' = round_of m → to_send p (m) ⊆ to_send p' m → remembered p m sh → remembered p' m' sh.
Proof using.
  intros Hc [= H1 _ H2 _] Hs [H|[H|H]].
  - left. apply Hs in H. unfold to_send in *. by rewrite H1.
  - right. left. by rewrite H2.
  - right. right. by apply (co_owned _ _ Hc).
Qed.

Lemma client_get_round m ip : round_of (client_get m ip).1 = round_of m.
Proof using. unfold client_get. by destruct (ip_addr2worker m !! ip). Qed.

(** An answer counted for the client of a worker. *)
Lemma counted_continues m m1 ip c c' m' :
  continues m m1 → ip_addr2worker m1 !! ip = Some (Some c) → map_shards c' = map_shards c →
  worker_ips m' = worker_ips m1 → dropped_worker_ips m' = dropped_worker_ips m1 → num_workers m' = num_workers m1 →
  ready_queue m' = ready_queue m1 → ip_addr2worker m' = <[ip := Some c']> (ip_addr2worker m1) → continues m m'.
Proof using.
  intros H E Hc H1 H2 H3 H4 H5. eapply continues_trans; [exact H|].
  apply (continues_trans _ (set_client ip c' m1)); [apply (continues_set m1 ip c); [done|by rewrite Hc]|].
  apply continues_fields; try done. intros ip'. rewrite H4. by left.
Qed.

Lemma poll_call_continues m call : continues m (poll_call m call) ∧ round_of (poll_call m call) = round_of m.
Proof using.
  unfold poll_call. destruct (call_ok call); [|split; [|by destruct call]; apply continues_fields; destruct call; by auto].
  case_decide as Hw; [|split; [apply continues_refl|done]].
  set (ip := call_ip call) in *. set (m1 := release_worker ip m).
  assert (continues m m1) as H1.
  { apply continues_fields; try done. intros ip'. cbn. rewrite elem_of_app, list_elem_of_singleton. naive_solver. }
  pose proof (continues_trans _ _ _ H1 (continues_get m1 ip)) as H2. pose proof (client_get_some m1 ip) as H3.
  pose proof (client_get_round m1 ip) as H4. change (round_of m1) with (round_of m) in H4.
  pose proof (client_get_lookup m1 ip ip) as H5.
  destruct (client_get m1 ip) as [m2 [c|]]; cbn [fst snd] in *; [|by split].
  assert (ip_addr2worker m2 !! ip = Some (Some c)) as E by (by apply H5, H3).
  split; [|rewrite <-H4; by destruct call]. subst ip.
  destruct call as [ip ok res|ip ok res]; cbn [call_ip] in *.
  - by apply (counted_continues m m2 ip c (update completed_map_jobs Z.succ c) _ H2 E).
  - by apply (counted_continues m m2 ip c (update completed_reduce_jobs Z.succ c) _ H2 E).
Qed.

(** *** A worker fails *)

Lemma drop_intermediate_master base fm :
  ∃ fs, (drop_intermediate base fm).2 = assign m_intermediate_files fs fm.2.
Proof using.
  unfold drop_intermediate. destruct (head _); [by eexists|]. exists (m_intermediate_files fm.2). by destruct fm as [? []].
Qed.

(** The accounts after a worker that was used has been dropped. *)
Lemma accounted_drop m m' ip :
  accounted ips m → ip ∈ worker_ips m →
  worker_ips m' = erase_first ip (worker_ips m) → dropped_worker_ips m' = dropped_worker_ips m ++ [ip] →
  num_workers m' = (num_workers m - 1)%Z → ready_queue m' = ready_queue m →
  ip_addr2worker m' = delete ip (ip_addr2worker m) → accounted ips m'.
Proof using Hips.
  intros Ha Hip H1 H2 H3 H4 H5. pose proof (accounted_NoDup m Ha) as Hnd. destruct Ha as [G1 G2 G3 G4].
  pose proof (erase_first_perm ip _ Hip) as Hp. split.
  - rewrite H1, H2, (assoc_L (++)), <-Permutation_cons_append, <-G1.
    change (ip :: erase_first ip (worker_ips m) ++ dropped_worker_ips m)
      with ((ip :: erase_first ip (worker_ips m)) ++ dropped_worker_ips m). by apply Permutation_app_tail.
  - apply Permutation_length in Hp. cbn in Hp. rewrite H3, G2, H1. lia.
  - intros ip'. rewrite H1. unfold live. rewrite H5. setoid_rewrite lookup_delete.
    assert (NoDup (ip :: erase_first ip (worker_ips m))) as [Hn _]%NoDup_cons by by rewrite Hp. split.
    + intros [c E]. case_decide as Hd; [done|]. assert (ip' ∈ worker_ips m) as Hw by (apply G3; by exists c).
      apply (elem_of_Permutation_proper _ _ _ Hp) in Hw. by apply elem_of_cons in Hw as [->|].
    + intros Hin. case_decide as Hd; [by subst|]. apply G3. apply (elem_of_Permutation_proper _ _ _ Hp). by right.
  - intros ip'. rewrite H4. apply G4.
Qed.

(** A worker that fails: its shards are sent again, unless the map phase is complete. *)
Lemma failure_accounted f m ip f' m' :
  accounted ips m → handle_worker_failure f m ip = Ok (f', m') →
  accounted ips m' ∧ shards m' = shards m ∧ partitions m' = partitions m ∧ map_complete m' = map_complete m ∧
  (map_complete m = false → ∀ sh, sh ∈ unfinished_shards m ∨ owned m sh → sh ∈ unfinished_shards m' ∨ owned m' sh).
Proof using Hips.
  intros Ha E. unfold handle_worker_failure in E.
  pose proof (accounted_continues _ _ (continues_get m ip) Ha) as Ha1. pose proof (client_get_some m ip) as H3.
  pose proof (client_get_round m ip) as H4. pose proof (co_owned _ _ (continues_get m ip)) as Hown.
  pose proof (client_get_lookup m ip ip) as H5.
  destruct (client_get m ip) as [m1 c]. cbn [fst snd] in *. injection H4 as H4 H8 H6 H7.
  rewrite <-H4, <-H8, <-H7, <-H6. clear H4 H6 H7 H8.
  assert (∀ c', c = Some c' → ip_addr2worker m1 !! ip = Some (Some c') ∧ ip ∈ worker_ips m1) as Hc.
  { intros c' ->. assert (ip_addr2worker m1 !! ip = Some (Some c')) as Ec by by apply H5, H3.
    split; [done|]. apply (ac_live _ _ Ha1). by exists c'. }
  destruct (map_complete m1) eqn:Emc; cbn [negb] in E.
  - destruct c as [c|]; [|done]. destruct (Hc c eq_refl) as [Ec Hip]. injection E as <- <-.
    split; [by eapply (accounted_drop m1)|]. by split; [|split; [|split]].
  - destruct c as [c|]; [destruct (Hc c eq_refl) as [Ec Hip]|injection E as <- <-; do 4 (split; [done|]); naive_solver].
    match type of E with context [drop_intermediate ?b ?x] =>
      pose proof (drop_intermediate_master b x) as [fs Hfs]; destruct (drop_intermediate b x) as [f1 m2] end.
    cbn [fst snd] in Hfs, E. injection E as <- <-. subst m2.
    split; [by eapply (accounted_drop m1)|]. do 3 (split; [done|]). intros _ sh Hsh.
    cbn. rewrite elem_of_app. destruct Hsh as [Hsh|Hsh]; [by left; left|].
    apply Hown in Hsh as (ip' & c' & Ec' & Hsh). destruct (decide (ip' = ip)) as [->|Hne].
    + left. right. rewrite Ec in Ec'. by injection Ec' as <-.
    + right. exists ip', c'. split; [|done]. cbn. by rewrite lookup_delete_ne.
Qed.

(** ** The events *)

(** A step with which everything that is remembered goes on. *)
Lemma tracked_move s s' :
  tracked s → continues (master s) (master s') → round_of (master s') = round_of (master s) →
  (∀ ip, ip ∈ pings s' → ip ∈ pings s ∨ ip ∈ worker_ips (master s)) →
  (∀ ph i ip, run_at s' = Sending ph i ip → ip ∈ ips ∧ i < num_jobs ph (master s)) →
  (in_rounds (run_at s') → in_rounds (run_at s) ∧ to_send (run_at s) (master s) ⊆ to_send (run_at s') (master s)) →
  tracked s'.
Proof using.
  intros [H1 H2 H3 H4] Hc Hr Hp Hs Hm. split.
  - by eapply accounted_continues.
  - intros ph i ip E. destruct (Hs ph i ip E) as [Hi Hj]. split; [done|]. injection Hr as R1 R2 _ _.
    unfold num_jobs in *. by rewrite R1, R2.
  - intros ip [Hi|Hi]%Hp; [by apply H3|]. rewrite <-(ac_split _ _ H1). apply elem_of_app. by left.
  - intros Hin. destruct (Hm Hin) as [Hin' Hsub]. destruct (H4 Hin') as [Hmc Hrem]. split; [by injection Hr as _ _ _ ->|].
    intros sh Hsh. by eapply remembered_continues; [..|apply Hrem].
Qed.

(** Where [run] stays where it is. *)
Lemma tracked_stay s s' :
  tracked s → continues (master s) (master s') → round_of (master s') = round_of (master s) →
  (∀ ip, ip ∈ pings s' → ip ∈ pings s ∨ ip ∈ worker_ips (master s)) → run_at s' = run_at s → tracked s'.
Proof using.
  intros Ht Hc Hr Hp Er. apply (tracked_move s s'); try done.
  - rewrite Er. apply (tr_sending _ Ht).
  - by rewrite Er.
Qed.

Lemma poll_tracked s s' : tracked s → poll_step s = Some (Ok s') → tracked s'.
Proof using.
  intros Ht E. unfold poll_step in E.
  assert (∀ m p, continues (master s) m → round_of m = round_of (master s) → tracked (set_poll m p s)) as H.
  { intros m p Hc Hr. apply (tracked_stay s); try done. by left. }
  destruct (poll_at s); try done.
  - injection E as <-. unfold poll_handover, poll_goes_on. destruct (_ && _); apply H; try done; [|apply continues_refl].
    apply continues_fields; try done. by left.
  - destruct (map_reduce_flag (master s)); [|done]. injection E as <-. apply H; [|done]. apply continues_fields; try done. by left.
Qed.

Lemma answer_tracked j r s s' : tracked s → poll_answer j r s = Some (Ok s') → tracked s'.
Proof using.
  intros Ht E. unfold poll_answer in E. destruct (poll_at s); try done.
  destruct (pending s !! j) as [[ip jb]|]; [|done]. cbn in E. destruct (completed ip jb r) as [call|]; [|done]. cbn in E.
  injection E as <-. destruct (poll_call_continues (master s) call) as [Hc Hr].
  apply (tracked_stay s); try done. by left.
Qed.

Lemma send_pings_live m l0 q :
  (∀ ip, ip ∈ q → live m ip) →
  mfoldl (λ st ip, let mc := client_get st.1 ip in _ ← deref mc.2; mret (mc.1, st.2 ++ [ip])) (m, l0) q = Ok (m, l0 ++ q).
Proof using.
  revert l0. induction q as [|ip q IH]; intros l0 Hq; cbn [mfoldl]; [by rewrite app_nil_r|].
  destruct (Hq ip) as [c E]; [left|].
  assert (client_get m ip = (m, Some c)) as Eg by (unfold client_get; by rewrite E).
  cbn [fst]. rewrite Eg. cbn. rewrite IH by (intros ip' Hi; apply Hq; by right). by rewrite <-(assoc_L (++)).
Qed.

Lemma monitor_tracked s x : tracked s → monitor_step s = Some x → ∃ s', x = Ok s' ∧ tracked s'.
Proof using.
  intros Ht E. unfold monitor_step in E.
  assert (∀ s', continues (master s) (master s') → round_of (master s') = round_of (master s) → pings s' = pings s →
    run_at s' = run_at s → tracked s') as H.
  { intros s' Hc Hr Hp Er. apply (tracked_stay s); try done. rewrite Hp. by left. }
  destruct (monitor_at s).
  - injection E as <-. eexists. split; [done|]. apply H; try done. apply continues_fields; try done. by left.
  - destruct (stop_monitoring (master s)); injection E as <-.
    + eexists. split; [done|]. apply H; try done. apply continues_fields; try done. by left.
    + unfold send_pings. rewrite send_pings_live by (intros ip; apply (ac_live _ _ (tr_workers _ Ht))).
      eexists. split; [done|]. apply (tracked_stay s); try done; [apply continues_refl|].
      intros ip. cbn. by rewrite elem_of_app.
  - case_decide; [done|]. injection E as <-. eexists. split; [done|]. apply H; try done. apply continues_refl.
  - injection E as <-. eexists. split; [done|]. apply H; try done. apply continues_fields; try done. by left.
  - done.
Qed.

(** A failed step: a job for a worker that has been dropped in the meantime, an
    intermediate file without an index, and the second failure of a worker in the
    reduce phase. *)
Inductive fault (s : system) : event → failure → Prop :=
| Fault_send ph i ip :
  run_at s = Sending ph i ip → ip ∈ dropped_worker_ips (master s) → fault s Run Undefined
| Fault_name f :
  run_at s = Joining Mapping → group_files (m_intermediate_files (master s)) = Err f → fault s Run f
| Fault_lost k ip :
  pings s !! k = Some ip → ip ∈ dropped_worker_ips (master s) → map_complete (master s) = true → fault s (Lost k) Undefined.

Definition tracked_or_fault (s : system) (e : event) (x : res system) : Prop :=
  (∃ s', x = Ok s' ∧ tracked s') ∨ ∃ f, x = Err f ∧ fault s e f.

Lemma not_live_dropped m ip : accounted ips m → ip ∈ ips → (client_get m ip).2 = None → ip ∈ dropped_worker_ips m.
Proof using.
  intros Ha Hip Hn. rewrite <-(ac_split _ _ Ha) in Hip. apply elem_of_app in Hip as [Hw|]; [|done].
  apply (ac_live _ _ Ha) in Hw as [c E]. apply client_get_some in E. congruence.
Qed.

Lemma send_tracked s ph i ip : tracked s → run_at s = Sending ph i ip → tracked_or_fault s Run (send_job ph i ip s).
Proof using.
  intros Ht Er. destruct (tr_sending _ Ht _ _ _ Er) as [Hip Hi]. unfold send_job.
  pose proof (not_live_dropped _ ip (tr_workers _ Ht) Hip) as Hd.
  pose proof (continues_get (master s) ip) as Hg. pose proof (client_get_round (master s) ip) as Hr.
  pose proof (client_get_some (master s) ip) as Hs. pose proof (client_get_lookup (master s) ip ip) as Hl.
  destruct ph; cbn [num_jobs] in Hi;
    apply lookup_lt_is_Some_2 in Hi as [x Ex]; unfold get; rewrite Ex; cbn [mbind res_bind].
  all: destruct (client_get (master s) ip) as [m1 [c|]]; cbn [fst snd] in *;
    [|right; exists Undefined; split; [done|by eapply Fault_send; [|apply Hd]]].
  all: assert (ip_addr2worker m1 !! ip = Some (Some c)) as E by by apply Hl, Hs.
  all: left; eexists; split; [reflexivity|].
  - assert (continues (master s) (set_client ip (update map_shards (.++ [x]) c) m1)) as Hc.
    { eapply continues_trans; [exact Hg|]. apply (continues_set m1 ip c); [done|]. intros y Hy. cbn. apply elem_of_app. by left. }
    destruct Ht as [H1 H2 H3 H4]. split; [by eapply accounted_continues|done|done|]. intros _.
    destruct H4 as [Hmc Hrem]; [by rewrite Er|]. injection Hr as R1 R2 R3 R4. split; [by cbn; rewrite R4|].
    intros sh Hsh. cbn [run_at master]. destruct (Hrem sh Hsh) as [Hto|[Hu|Ho]].
    + rewrite Er in Hto. cbn in Hto. rewrite (drop_S _ _ _ Ex) in Hto. apply elem_of_cons in Hto as [->|Hto].
      * right. right. eexists ip, _. split; [cbn; apply lookup_insert_eq|]. cbn. apply elem_of_app. right. by left.
      * left. cbn. by rewrite R1.
    + right. left. cbn. by rewrite R3.
    + right. right. by apply (co_owned _ _ Hc).
  - apply (tracked_move s); try done; [|by left].
    eapply continues_trans; [exact Hg|]. by apply (continues_set m1 ip c).
Qed.

Lemma assign_job_continues m job m' tn : assign_job m job = (m', tn) → continues m m' ∧ round_of m' = round_of m ∧
  ∀ ip, tn = Sent ip → ip ∈ ready_queue m.
Proof using.
  unfold assign_job. destruct (ready_queue m) as [|ip rest] eqn:Eq.
  - intros [= <- <-]. split; [apply continues_refl|done].
  - assert (∀ m', worker_ips m' = worker_ips m → dropped_worker_ips m' = dropped_worker_ips m →
      num_workers m' = num_workers m → ready_queue m' = rest → ip_addr2worker m' = ip_addr2worker m → continues m m') as H.
    { intros m1 H1 H2 H3 H4 H5. apply continues_fields; try done. intros ip'. rewrite H4, Eq. left. by right. }
    case_decide; intros [= <- <-]; (split; [by apply H|]); (split; [done|]); [done|].
    intros ip' [= <-]. left.
Qed.

(** What the end of a round does to the shards. *)
Lemma decide_continues m : continues m (schedule_decide m) ∧
  shards (schedule_decide m) = shards m ∧ unfinished_shards (schedule_decide m) = unfinished_shards m ∧
  (map_complete m = false → map_complete (schedule_decide m) = true → unfinished_shards m = []).
Proof using.
  unfold schedule_decide. destruct (map_complete m) eqn:Em; cbn [negb].
  - destruct (reduce_complete m); cbn [negb]; [|destruct (_ && _)]; (split; [by apply continues_fields; auto|done]).
  - destruct (bool_decide (unfinished_shards m = [])) eqn:Eu; cbn [andb].
    + apply bool_decide_eq_true in Eu. destruct (bool_decide _); (split; [by apply continues_fields; auto|done]).
    + split; [by apply continues_fields; auto|]. split; [done|]. split; [done|]. cbn. congruence.
Qed.

Lemma map_round_end_cases m :
  map_round_end m =
  if decide (unfinished_shards m = []) then if map_complete m then (assign shards [] m, true) else (m, false)
  else (assign unfinished_shards [] (assign shards (unfinished_shards m) m), false).
Proof using.
  unfold map_round_end. destruct (decide (unfinished_shards m = [])) as [H|H].
  - rewrite bool_decide_true by done. cbn [andb].
    destruct (map_complete m); rewrite decide_False; try done; cbn; rewrite H; cbn; lia.
  - rewrite bool_decide_false by done. cbn [andb]. rewrite decide_True; [done|].
    destruct (unfinished_shards m); [done|cbn; lia].
Qed.

Lemma round_tracked s ph :
  tracked s → run_at s = Waiting_monitor ph →
  let md := round_end ph (schedule_decide (master s)) in
  tracked (set_run md.1 (if md.2 then Joining ph else Assigning ph 0) s).
Proof using.
  intros Ht Er md. destruct (decide_continues (master s)) as (Hc & Hsh & Hun & Hmc).
  set (m := schedule_decide (master s)) in *. destruct Ht as [H1 H2 H3 H4].
  assert (∀ m', worker_ips m' = worker_ips m → dropped_worker_ips m' = dropped_worker_ips m → num_workers m' = num_workers m →
    ready_queue m' = ready_queue m → ip_addr2worker m' = ip_addr2worker m → continues (master s) m') as Hf.
  { intros m' G1 G2 G3 G4 G5. eapply continues_trans; [exact Hc|]. apply continues_fields; try done. rewrite G4. by left. }
  assert (continues (master s) md.1) as Hc'.
  { unfold md. destruct ph; cbn [round_end]; unfold map_round_end, reduce_round_end;
      destruct (_ && _); case_decide; by apply Hf. }
  assert (∀ ph' i ip, (if md.2 then Joining ph else Assigning ph 0) ≠ Sending ph' i ip) as Hns by (intros; by destruct (md.2)).
  destruct ph.
  2: { split; [by eapply accounted_continues|intros ? ? ? E; by destruct (Hns _ _ _ E)|done|].
       change (run_at _) with (if md.2 then Joining Reducing else Assigning Reducing 0). by destruct (md.2). }
  destruct H4 as [Hm Hrem]; [by rewrite Er|]. rewrite Er in Hrem. cbn [in_rounds] in *.
  split; [by eapply accounted_continues|intros ? ? ? E; by destruct (Hns _ _ _ E)|done|]. clear Hns. intros Hin.
  unfold md in *. clear md. cbn [round_end] in *. rewrite map_round_end_cases in *.
  destruct (decide (unfinished_shards m = [])) as [Hnil|Hnil]; [destruct (map_complete m) eqn:Emc; [done|]|]; cbn [fst snd] in *.
  - split; [done|]. intros sh Hs. destruct (Hrem sh Hs) as [Hto|[Hu|Ho]]; [by apply elem_of_nil in Hto| |].
    + rewrite <-Hun, Hnil in Hu. by apply elem_of_nil in Hu.
    + right. right. by apply (co_owned _ _ Hc').
  - split.
    + cbn. destruct (map_complete m) eqn:Emc; [|done]. destruct Hnil. rewrite Hun. by apply Hmc.
    + intros sh Hs. destruct (Hrem sh Hs) as [Hto|[Hu|Ho]]; [by apply elem_of_nil in Hto|left; change (sh ∈ unfinished_shards m); by rewrite Hun|].
      right. right. by apply (co_owned _ _ Hc').
Qed.

(** The map phase ends with every shard at a worker in use. *)
Lemma rounds_end s s' sh :
  tracked s → run_step s = Some (Ok s') → in_rounds (run_at s) → ¬ in_rounds (run_at s') → sh ∈ l → owned (master s') sh.
Proof using.
  intros Ht E Hin Hout Hsh. destruct (tr_map _ Ht Hin) as [Hmc Hrem]. specialize (Hrem sh Hsh). unfold run_step in E.
  destruct (run_at s) as [| |ph i|ph i ip|ph|ph|ph| |b] eqn:Er; try done.
  - by injection E as <-.
  - destruct (initial_monitor_job s); [done|]. by injection E as <-.
  - destruct ph; [|done]. case_decide; [|by injection E as <-].
    destruct (assign_job _ _) as [m [| |ip]]; [done|by injection E as <-..].
  - destruct ph; [|done]. injection E as E. unfold send_job in E. destruct (get _ i); [|done]. cbn in E.
    destruct (client_get (master s) ip) as [m [c|]]; [|done]. by injection E as <-.
  - destruct ph; [|done]. destruct (map_reduce_flag (master s)); [done|]. by injection E as <-.
  - destruct ph; [|done]. destruct (trigger_monitoring (master s)); [done|]. injection E as <-. cbn in Hout.
    destruct (decide_continues (master s)) as (Hc & _ & Hun & _). cbn.
    rewrite map_round_end_cases in *. destruct (decide _) as [Hnil|Hnil]; [|by destruct Hout].
    destruct (map_complete (schedule_decide (master s))); [|by destruct Hout].
    destruct Hrem as [Hto|[Hu|Ho]]; [by apply elem_of_nil in Hto| |].
    + rewrite <-Hun, Hnil in Hu. by apply elem_of_nil in Hu.
    + apply (co_owned _ _ Hc) in Ho. exact Ho.
Qed.

Lemma run_tracked s x : tracked s → run_step s = Some x → tracked_or_fault s Run x.
Proof using.
  intros Ht E. unfold run_step in E.
  assert (∀ s', continues (master s) (master s') → round_of (master s') = round_of (master s) → pings s' = pings s →
    (∀ ph i ip, run_at s' = Sending ph i ip → ip ∈ ips ∧ i < num_jobs ph (master s)) →
    (in_rounds (run_at s') → in_rounds (run_at s) ∧ to_send (run_at s) (master s) ⊆ to_send (run_at s') (master s)) →
    tracked_or_fault s Run (Ok s')) as H.
  { intros s' Hc Hr Hp Hs Hm. left. exists s'. split; [done|]. apply (tracked_move s); try done. rewrite Hp. by left. }
  destruct (run_at s) as [| |ph i|ph i ip|ph|ph|ph| |b] eqn:Er.
  - injection E as <-. apply H; try done. apply continues_refl.
  - destruct (initial_monitor_job s); [done|]. injection E as <-. apply H; try done. apply continues_fields; try done. by left.
  - case_decide as Hi.
    + destruct (assign_job (master s) (job_number ph (master s) i)) as [m tn] eqn:Ea.
      apply assign_job_continues in Ea as (Hc & Hr & Hsent).
      destruct tn as [| |ip]; [done|injection E as <-; apply H; try done; by destruct ph|].
      injection E as <-. apply H; try done. intros ph' i' ip' [= <- <- <-].
      split; [|done]. apply (ac_ready _ _ (tr_workers _ Ht)). by apply Hsent.
    + injection E as <-. apply H; try done; [apply continues_fields; try done; by left|].
      destruct ph; [|done]. intros _. split; [done|]. cbn. cbn in Hi. rewrite drop_ge by lia. done.
  - injection E as <-. by apply send_tracked.
  - destruct (map_reduce_flag (master s)); [done|]. injection E as <-. apply H; try done.
    apply continues_fields; try done. by left.
  - destruct (trigger_monitoring (master s)); [done|]. injection E as <-. left. eexists. split; [done|]. by apply round_tracked.
  - destruct (poll_at s); try done. injection E as <-. destruct ph; cbn [phase_end].
    + unfold start_reduce. destruct (group_files (m_intermediate_files (master s))) as [g|f] eqn:Eg; cbn [mbind res_bind].
      * left. eexists. split; [done|]. destruct Ht as [H1 H2 H3 H4]. split; try done.
        eapply accounted_continues; [|exact H1]. apply continues_fields; try done. by left.
      * right. exists f. split; [done|]. by apply Fault_name.
    + apply H; try done. apply continues_fields; try done. by left.
  - destruct (monitor_at s); try done. injection E as <-. apply H; try done. apply continues_refl.
  - done.
Qed.

Lemma pong_tracked s k answer x e :
  tracked s → monitor_receives k answer s = Some x → (answer = None → e = Lost k) → tracked_or_fault s e x.
Proof using Hips.
  intros Ht E He. unfold monitor_receives in E. destruct (monitor_at s) as [| |i| |]; try done. case_decide; [|done].
  destruct (pings s !! k) as [ip|] eqn:Ek; [|done]. cbn in E. injection E as <-.
  assert (ip ∈ ips) as Hip by by eapply (tr_pings _ Ht), list_elem_of_lookup_2.
  unfold monitor_pong, receive_monitor_pong. destruct answer as [id|]; cbn.
  - left. eexists. split; [done|]. apply (tracked_stay s); try done; [apply continues_refl|].
    intros ip'. cbn. intros Hd. left. by eapply list_elem_of_delete_inv.
  - destruct (handle_worker_failure (disk s) (master s) ip) as [[f' m']|f] eqn:Ef; cbn.
    + left. eexists. split; [done|]. destruct Ht as [H1 H2 H3 H4].
      destruct (failure_accounted _ _ _ _ _ H1 Ef) as (Ha & Hsh & Hpa & Hmc & Hrem). split; cbn.
      * done.
      * intros ph j ip' Er. destruct (H2 ph j ip' Er) as [? Hj]. split; [done|]. unfold num_jobs in *. by rewrite Hsh, Hpa.
      * intros ip' Hd. apply H3. by eapply list_elem_of_delete_inv.
      * intros Hin. destruct (H4 Hin) as [Hm Hr]. split; [by rewrite Hmc|]. intros sh Hs.
        destruct (Hr sh Hs) as [Hto|Ho]; [left; unfold to_send in *; by rewrite Hsh|right; by apply Hrem].
    + right. exists f. split; [done|]. rewrite He by done. unfold handle_worker_failure in Ef.
      pose proof (not_live_dropped _ ip (tr_workers _ Ht) Hip) as Hd.
      pose proof (client_get_round (master s) ip) as Hr.
      destruct (client_get (master s) ip) as [m1 c]. cbn [fst snd] in *. injection Hr as _ _ _ Hr. rewrite Hr in Ef.
      destruct (map_complete (master s)) eqn:Emc; cbn [negb] in Ef.
      * destruct c; [done|]. cbn in Ef. injection Ef as <-. by eapply Fault_lost; [|apply Hd|].
      * destruct c; [|done]. by match type of Ef with context [drop_intermediate ?b ?y] => destruct (drop_intermediate b y) end.
Qed.

Lemma exec_tracked s e x : tracked s → exec e s = Some x → tracked_or_fault s e x.
Proof using Hips.
  intros Ht E. destruct e as [|j r|j| | |k id|k|p text]; cbn in E.
  - by apply run_tracked.
  - destruct x as [s'|f]; [left; exists s'; split; [done|by eapply answer_tracked]|]. exfalso. unfold poll_answer in E.
    destruct (poll_at s); try done. destruct (pending s !! j) as [[ip jb]|]; [|done]. cbn in E. by destruct (completed _ _ _).
  - destruct x as [s'|f]; [left; exists s'; split; [done|by eapply answer_tracked]|]. exfalso. unfold poll_answer in E.
    destruct (poll_at s); try done. destruct (pending s !! j) as [[ip jb]|]; [|done]. cbn in E. by destruct (completed _ _ _).
  - destruct x as [s'|f]; [left; exists s'; split; [done|by eapply poll_tracked]|]. exfalso. unfold poll_step in E.
    destruct (poll_at s); try done. by destruct (map_reduce_flag _).
  - left. by apply (monitor_tracked s).
  - by apply (pong_tracked s k (Some id)).
  - by apply (pong_tracked s k None).
  - injection E as <-. left. eexists. split; [done|]. apply (tracked_stay s); try done; [apply continues_refl|by left].
Qed.
End faults.

(** ** The start *)

Lemma run_starts_tracked f spec l :
  (0 < n_workers spec ≤ Z.of_nat (length (worker_ipaddr_ports spec)))%Z → tracked l (workers spec) (start f spec l).
Proof.
  intros Hn. split; cbn; [|done| |].
  - split; cbn.
    + by rewrite app_nil_r.
    + unfold workers. rewrite length_take. lia.
    + intros ip. unfold live. cbn. fold (workers spec). split.
      * intros [c E]. apply elem_of_list_to_map_2, list_elem_of_fmap in E as (ip' & [= -> _] & Hi). done.
      * intros Hi. exists new_client.
        assert (∀ q : list cstr, ip ∈ q → (list_to_map ((λ ip, (ip, Some new_client)) <$> q) : gmap cstr (option WorkerClient)) !! ip =
          Some (Some new_client)) as H; [|by apply H].
        clear Hi. induction q as [|x q IH]; intros Hi; [by apply elem_of_nil in Hi|]. cbn. rewrite lookup_insert.
        case_decide; [done|]. apply IH. apply elem_of_cons in Hi as [->|]; [congruence|done].
    + by intros ip.
  - intros ip Hi. by apply elem_of_nil in Hi.
  - intros _. split; [done|]. intros sh Hsh. by left.
Qed.

(** ** Properties *)

Section run.
Context (f : fs) (spec : MapReduceSpec) (l : list FileShard).

End run.

(** ** The partitions of a worker that fails *)

(** No client has a partition on record, and none is to be sent again. *)
Definition unrecorded (m : Master) : Prop :=
  unfinished_partitions m = [] ∧ ∀ ip c, ip_addr2worker m !! ip = Some (Some c) → reduce_partitions c = [].

Lemma unrecorded_fields m m' :
  unfinished_partitions m' = unfinished_partitions m → ip_addr2worker m' = ip_addr2worker m → unrecorded m → unrecorded m'.
Proof. intros H1 H2 [G1 G2]. split; [congruence|]. intros ip c. rewrite H2. apply G2. Qed.

Lemma unrecorded_get m ip m' c :
  client_get m ip = (m', c) → unrecorded m → unrecorded m' ∧ ∀ c', c = Some c' → reduce_partitions c' = [].
Proof.
  intros E [H1 H2]. pose proof (client_get_lookup m ip) as Hl. pose proof (client_get_some m ip) as Hs.
  assert (unfinished_partitions (client_get m ip).1 = unfinished_partitions m) as Hu
    by (unfold client_get; by destruct (ip_addr2worker m !! ip)).
  rewrite E in Hl, Hs, Hu. cbn [fst snd] in *. split; [split; [congruence|]|].
  - intros ip' c' Hc. by eapply H2, Hl.
  - intros c' ->. by eapply H2, Hs.
Qed.

Lemma unrecorded_set m ip c : unrecorded m → reduce_partitions c = [] → unrecorded (set_client ip c m).
Proof.
  intros [H1 H2] Hc. split; [done|]. intros ip' c'. cbn. rewrite lookup_insert. case_decide; [by intros [= <-]|apply H2].
Qed.

Lemma unrecorded_poll m call : unrecorded m → unrecorded (poll_call m call).
Proof.
  intros Hm. unfold poll_call. destruct (call_ok call); [|by destruct call; apply (unrecorded_fields m)].
  case_decide; [|done].
  assert (unrecorded (release_worker (call_ip call) m)) as H1 by (by apply (unrecorded_fields m)).
  destruct (client_get _ _) as [m1 c] eqn:Eg. destruct (unrecorded_get _ _ _ _ Eg H1) as [H2 H3].
  destruct c as [c|]; [|done]. specialize (H3 c eq_refl).
  destruct call as [ip ok res|ip ok res].
  - by apply (unrecorded_fields (set_client ip (update completed_map_jobs Z.succ c) m1)), unrecorded_set.
  - by apply (unrecorded_fields (set_client ip (update completed_reduce_jobs Z.succ c) m1)), unrecorded_set.
Qed.

Lemma unrecorded_failure f m ip f' m' : unrecorded m → handle_worker_failure f m ip = Ok (f', m') → unrecorded m'.
Proof.
  intros Hm E. unfold handle_worker_failure in E. destruct (client_get m ip) as [m1 c] eqn:Eg.
  destruct (unrecorded_get _ _ _ _ Eg Hm) as [[H1 H2] H3].
  destruct (negb _); destruct c as [c|]; cbn [deref mbind res_bind] in E; try done.
  - match type of E with context [drop_intermediate ?b ?x] =>
      pose proof (drop_intermediate_master b x) as [fs Hfs]; destruct (drop_intermediate b x) as [f1 m2] end.
    cbn [fst snd] in Hfs, E. injection E as <- <-. subst m2. split; [done|].
    intros ip' c'. cbn. rewrite lookup_delete. case_decide; [done|apply H2].
  - by injection E as <- <-.
  - injection E as <- <-. specialize (H3 c eq_refl). split.
    + cbn. by rewrite H1, H3.
    + intros ip' c'. cbn. rewrite lookup_delete. case_decide; [done|apply H2].
Qed.

Lemma unrecorded_pings m l0 q x :
  mfoldl (λ st ip, let mc := client_get st.1 ip in _ ← deref mc.2; mret (mc.1, st.2 ++ [ip])) (m, l0) q = Ok x →
  unrecorded m → unrecorded x.1.
Proof.
  intros E Hm. revert E. apply (mfoldl_inv (λ _ st, unrecorded st.1)); [done|]. intros ? [m1 l1] ip a' ? _ H1 E. cbn in *.
  destruct (client_get m1 ip) as [m2 c] eqn:Eg. destruct c; [|done]. cbn in E. injection E as <-. by eapply unrecorded_get.
Qed.

Lemma unrecorded_round ph m : unrecorded m → unrecorded (round_end ph (schedule_decide m)).1.
Proof.
  intros Hm. assert (unrecorded (schedule_decide m)) as H1.
  { unfold schedule_decide. by repeat (case_match || case_decide); apply (unrecorded_fields m). }
  revert H1. generalize (schedule_decide m) as m1. intros m1 H1. destruct ph; cbn [round_end].
  - rewrite map_round_end_cases. destruct (decide _); [destruct (map_complete m1)|]; by apply (unrecorded_fields m1).
  - unfold reduce_round_end. destruct H1 as [H1 H2]. rewrite H1. cbn.
    destruct (reduce_complete m1); rewrite decide_False by (cbn; lia || (cbn; rewrite H1; cbn; lia)); by split.
Qed.

Lemma unrecorded_run s s' : unrecorded (master s) → run_step s = Some (Ok s') → unrecorded (master s').
Proof.
  intros Hm E. unfold run_step in E. assert (∀ m', unfinished_partitions m' = unfinished_partitions (master s) →
    ip_addr2worker m' = ip_addr2worker (master s) → unrecorded m') as H by (intros; by eapply unrecorded_fields).
  destruct (run_at s) as [| |ph i|ph i ip|ph|ph|ph| |b].
  - by injection E as <-.
  - destruct (initial_monitor_job s); [done|]. injection E as <-. by apply H.
  - case_decide; [|injection E as <-; by apply H]. unfold assign_job in E.
    destruct (ready_queue _); [done|]. case_decide; injection E as <-; by apply H.
  - injection E as E. unfold send_job in E.
    destruct ph; destruct (get _ i) as [x|]; try done; cbn [mbind res_bind] in E;
      destruct (client_get (master s) ip) as [m1 c] eqn:Eg; destruct (unrecorded_get _ _ _ _ Eg Hm) as [H1 H2];
      (destruct c as [c|]; [|done]); injection E as <-; apply (unrecorded_set m1 ip); try done; by apply (H2 c).
  - destruct (map_reduce_flag _); [done|]. injection E as <-. by apply H.
  - destruct (trigger_monitoring _); [done|]. injection E as <-. by apply unrecorded_round.
  - destruct (poll_at s); try done. injection E as E. destruct ph; cbn [phase_end] in E.
    + unfold start_reduce in E. destruct (group_files _); [|done]. injection E as <-. by apply H.
    + injection E as <-. by apply H.
  - destruct (monitor_at s); try done. by injection E as <-.
  - done.
Qed.

Lemma unrecorded_exec s e s' : unrecorded (master s) → exec e s = Some (Ok s') → unrecorded (master s').
Proof.
  intros Hm E. assert (∀ m', unfinished_partitions m' = unfinished_partitions (master s) →
    ip_addr2worker m' = ip_addr2worker (master s) → unrecorded m') as H by (intros; by eapply unrecorded_fields).
  assert (∀ j r, poll_answer j r s = Some (Ok s') → unrecorded (master s')) as Ha.
  { intros j r Ea. unfold poll_answer in Ea. destruct (poll_at s); try done. destruct (pending s !! j) as [[ip jb]|]; [|done].
    cbn in Ea. destruct (completed ip jb r); [|done]. cbn in Ea. injection Ea as <-. by apply unrecorded_poll. }
  assert (∀ k a, monitor_receives k a s = Some (Ok s') → unrecorded (master s')) as Hr.
  { intros k a Er. unfold monitor_receives in Er. destruct (monitor_at s); try done. case_decide; [|done].
    destruct (pings s !! k) as [ip|]; [|done]. cbn in Er. injection Er as Er. unfold monitor_pong, receive_monitor_pong in Er.
    destruct a as [id|]; cbn in Er; [by injection Er as <-|].
    destruct (handle_worker_failure _ _ _) as [[f' m']|] eqn:Ef; [|done]. cbn in Er. injection Er as <-. by eapply unrecorded_failure. }
  destruct e as [|j r|j| | |k id|k|p text]; cbn in E.
  - by eapply unrecorded_run.
  - by eapply Ha.
  - by eapply Ha.
  - unfold poll_step in E. destruct (poll_at s); try done.
    + injection E as <-. unfold poll_handover, poll_goes_on. destruct (_ && _); by apply H.
    + destruct (map_reduce_flag _); [|done]. injection E as <-. by apply H.
  - unfold monitor_step in E. destruct (monitor_at s); try done.
    + injection E as <-. by apply H.
    + destruct (stop_monitoring _); [injection E as <-; by apply H|]. injection E as E. unfold send_pings in E.
      destruct (mfoldl _ _ _) as [x|] eqn:Ep; [|done]. injection E as <-. by eapply (unrecorded_pings _ _ _ _ Ep).
    + case_decide; [done|]. by injection E as <-.
    + injection E as <-. by apply H.
  - by eapply Hr.
  - by eapply Hr.
  - by injection E as <-.
Qed.

(** Whatever fails and whenever, [unfinished_partitions] stays empty: the partition of a
    worker that fails in the reduce phase is not among what is sent again, nor is its
    output removed. *)
Theorem partitions_never_resent (f : fs) (spec : MapReduceSpec) (l : list FileShard) (s : system) :
  reachable (eq (start f spec l)) step s → unrecorded (master s).
Proof.
  revert s. apply (invariant_ind (eq (start f spec l)) step (λ s, unrecorded (master s))).
  - intros s <-. split; [done|]. intros ip c Hc. cbn in Hc.
    apply elem_of_list_to_map_2, list_elem_of_fmap in Hc as (ip' & [= _ ->] & _). done.
  - intros s s' Hm (e & E). by eapply unrecorded_exec.
Qed.

(** ** Witness *)

(** The second of three workers has failed with a shard, which is to be sent again. *)
Definition demo_fault : system :=
  play (demo_start 3) (to_sent 3 ++ [Run; Error 1; Poll; Monitor; Lost 1]).

