(* ===== verification/JobLog.v ===== *)
(** * The intermediate files as a log

    The pairs that the workers wrote, by the port of the worker, and the
    intermediate files that hold them; grouping of pairs that arrive in another
    order.  [MapReduce.v] states the run of a job in these terms. *)
From S2P Require Import Prelude CxxString FileSystem MRTasks WorkerRequest Master.
From Stdlib Require Import Ascii.

(** The pairs written under each port. *)
Abbreviation job_log := (gmap cstr (list (cstr * cstr))).

Definition log_of (log : job_log) (port : cstr) : list (cstr * cstr) :=
  default [] (log !! port).

Definition add_log (log : job_log) (port : cstr) (kvs : list (cstr * cstr)) : job_log :=
  <[port := log_of log port ++ kvs]> log.

Definition all_pairs (log : job_log) : list (cstr * cstr) := concat (map_to_list log).*2.

Section log.
Context (hash : cstr → Z) (n : Z).

(** The intermediate files of [f] hold the log, the rest is as in [f0]. *)
Record logged (f0 f : fs) (log : job_log) : Prop := {
  lg_contents p i : (i < Z.to_nat n)%nat →
    contents f (intermediate_name p i) = concat (pair_line <$> bucket_pairs hash n i (log_of log p));
  lg_none p i : log !! p = None ∨ (Z.to_nat n ≤ i)%nat →
    read_file f (intermediate_name p i) = read_file f0 (intermediate_name p i);
  lg_other q : (∀ p i, q ≠ intermediate_name p i) → read_file f q = read_file f0 q;
  lg_dirs : fs_dirs f = fs_dirs f0
}.
End log.

(** ** Names *)

Lemma underscore_notin i : "_"%char ∉ to_string (Z.of_nat i).
Proof. apply to_string_notin; [|done]. unfold is_digit. vm_compute. lia. Qed.

(** The port and the index can be read off an intermediate name. *)
Lemma intermediate_name_inj2 p i p' i' :
  intermediate_name p i = intermediate_name p' i' → p = p' ∧ i = i'.
Proof.
  rewrite !intermediate_name_parts. intros H.
  apply (inj (str "intermediate" ++.)) in H. injection H as H.
  assert (to_string (Z.of_nat i) = to_string (Z.of_nat i')) as Hi.
  { apply (f_equal (until "_"%char)) in H.
    rewrite !until_app in H by apply underscore_notin. congruence. }
  rewrite Hi in H. apply (inj (to_string (Z.of_nat i') ++.)) in H. injection H as H.
  apply (inj (.++ str ".txt")) in H. apply to_string_inj in Hi. split; [done|lia].
Qed.

Lemma last_to_string z : ∃ a, last (to_string z) = Some a ∧ is_digit a.
Proof.
  assert (∀ n, (0 ≤ n)%Z → ∃ a, last (decimal (dec_fuel n) n []) = Some a ∧ is_digit a) as Hd.
  { intros n Hn. pose proof (decimal_is_digit (dec_fuel n) n [] Hn ltac:(constructor)) as HF.
    pose proof (decimal_nonempty (dec_fuel n) n []) as Hne.
    destruct (last (decimal (dec_fuel n) n [])) as [a|] eqn:E.
    - exists a. split; [done|]. rewrite Forall_forall in HF. apply HF.
      apply last_Some in E as [l' ->]. set_solver.
    - apply last_None in E. by specialize (Hne ltac:(done)). }
  unfold to_string. case_decide; [|by apply Hd; lia].
  destruct (Hd (- z)%Z) as (a & Ha & ?); [lia|]. exists a. split; [|done].
  rewrite last_cons, Ha. done.
Qed.

(** An output file is no intermediate file. *)
Lemma output_not_intermediate dir id p i : output_name dir id ≠ intermediate_name p i.
Proof.
  intros H. destruct (last_to_string id) as (a & Ha & Hd).
  apply (f_equal last) in H. unfold output_name, intermediate_name in H.
  rewrite !last_app, Ha in H. simpl in H. simplify_eq. unfold is_digit in Hd. vm_compute in Hd. lia.
Qed.

Lemma output_name_inj dir i j : output_name dir i = output_name dir j → i = j.
Proof.
  unfold output_name. intros H. do 2 apply (inj (_ ++.)) in H. by apply to_string_inj.
Qed.

Lemma dirname_no_slash s : "/"%char ∉ s → dirname s = None.
Proof.
  induction s as [|a s IH]; intros H; [done|]. cbn [dirname].
  rewrite IH by set_solver. rewrite decide_False; [done|]. set_solver.
Qed.

Lemma dirname_app d s : "/"%char ∉ s → dirname (d ++ "/"%char :: s) = Some d.
Proof.
  intros H. induction d as [|a d IH]; cbn [app dirname].
  - rewrite dirname_no_slash by done. by rewrite decide_True.
  - by rewrite IH.
Qed.

Lemma slash_notin z : "/"%char ∉ to_string z.
Proof. apply to_string_notin; [|done]. unfold is_digit. vm_compute. lia. Qed.

Lemma intermediate_name_dirname p i :
  "/"%char ∉ p → dirname (intermediate_name p i) = Some (str "intermediate").
Proof.
  intros Hp. rewrite intermediate_name_parts. apply dirname_app.
  pose proof (slash_notin (Z.of_nat i)).
  assert ("/"%char ∉ str ".txt") by chars.
  rewrite elem_of_app, elem_of_cons, elem_of_app. intuition congruence.
Qed.

Lemma output_name_dirname dir i : dirname (output_name dir i) = Some dir.
Proof. unfold output_name. apply (dirname_app dir), slash_notin. Qed.

Lemma writable_in f p d :
  dirname p = Some d → d ∈ fs_dirs f → p ∉ fs_dirs f → writable f p = true.
Proof.
  intros Hd Hin Hp. unfold writable, parent_exists. rewrite Hd.
  rewrite (bool_decide_true (p ∉ _)), (bool_decide_true (d ∈ _)) by done. by rewrite orb_true_r.
Qed.

(** ** The log *)

Lemma log_of_add log p kvs q :
  log_of (add_log log p kvs) q = if decide (p = q) then log_of log p ++ kvs else log_of log q.
Proof.
  unfold log_of at 1, add_log. rewrite lookup_insert. by case_decide.
Qed.

Lemma all_pairs_add log p kvs : all_pairs (add_log log p kvs) ≡ₚ all_pairs log ++ kvs.
Proof.
  unfold all_pairs, add_log.
  rewrite <-insert_delete_eq, map_to_list_insert by apply lookup_delete_eq.
  cbn [fmap list_fmap snd concat]. unfold log_of.
  destruct (log !! p) as [old|] eqn:E; cbn [default].
  - rewrite <-(map_to_list_delete log p old E). cbn. unfold id.
    rewrite <-!app_assoc. apply Permutation_app_head, Permutation_app_comm.
  - rewrite delete_id by done. cbn. apply Permutation_app_comm.
Qed.

Section logs.
Context (hash : cstr → Z) (n : Z).
Abbreviation logged := (logged hash n).

Lemma bucket_pairs_app i l1 l2 :
  bucket_pairs hash n i (l1 ++ l2) = bucket_pairs hash n i l1 ++ bucket_pairs hash n i l2.
Proof. apply filter_app. Qed.

(** What a map job does to the log. *)
Lemma logged_step f0 f log p kvs :
  "/"%char ∉ p → str "intermediate" ∈ fs_dirs f0 → (∀ i, intermediate_name p i ∉ fs_dirs f0) →
  logged f0 f log →
  logged f0 (log_pairs hash n (intermediate_names p n) f kvs) (add_log log p kvs).
Proof.
  intros Hp Hd Hnd [Hc Hno Ho Hdirs]. split.
  - intros q i Hi. rewrite log_of_add. case_decide as Hq; [subst q|].
    + rewrite (log_pairs_contents hash n (intermediate_names p n) f kvs i);
        [|apply intermediate_names_NoDup|by apply intermediate_names_lookup|].
      * by rewrite Hc, bucket_pairs_app, fmap_app, concat_app by done.
      * eapply writable_in; [by apply intermediate_name_dirname|by rewrite Hdirs..].
    + rewrite <-(Hc q i Hi). unfold contents.
      change (fs_files ?g !! ?x) with (read_file g x). rewrite log_pairs_other; [done|].
      unfold intermediate_names. intros (j & Hj & _)%list_elem_of_fmap.
      by apply intermediate_name_inj2 in Hj as [-> _].
  - intros q i Hq. rewrite log_pairs_other.
    + apply Hno. unfold add_log in Hq. destruct Hq as [Hq|]; [left|by right].
      by apply lookup_insert_None in Hq as [? _].
    + intros (j & Hj & Hr)%list_elem_of_fmap. apply elem_of_range in Hr.
      unfold add_log in Hq. apply intermediate_name_inj2 in Hj as [-> ->]. destruct Hq as [Hq|]; [|lia].
      by apply lookup_insert_None in Hq as [_ ?].
  - intros q Hq. rewrite log_pairs_other; [by apply Ho|].
    unfold intermediate_names. intros (j & Hj & _)%list_elem_of_fmap. by eapply Hq.
  - by rewrite log_pairs_dirs.
Qed.

(** Before the first job. *)
Lemma logged_start f : (∀ p i, read_file f (intermediate_name p i) = None) → logged f f ∅.
Proof.
  intros H. split; [|done..]. intros p i _. unfold contents.
  change (fs_files f !! _) with (read_file f (intermediate_name p i)). by rewrite H.
Qed.

Lemma pair_lines_nil kvs : concat (pair_line <$> kvs) = [] → kvs = [].
Proof. destruct kvs as [|[k v] kvs]; [done|]. simpl. by destruct k. Qed.

(** An intermediate file as a reduce job finds it. *)
Lemma logged_file f0 f log p i :
  logged f0 f log → (i < Z.to_nat n)%nat →
  let kvs := bucket_pairs hash n i (log_of log p) in
  read_file f (intermediate_name p i) = Some (concat (pair_line <$> kvs)) ∨
  read_file f (intermediate_name p i) = None ∧ kvs = [].
Proof.
  intros [Hc _ _ _] Hi kvs. specialize (Hc p i Hi). fold kvs in Hc. unfold contents in Hc.
  change (fs_files f !! _) with (read_file f (intermediate_name p i)) in Hc.
  destruct (read_file f (intermediate_name p i)); simpl in Hc; [by left; rewrite Hc|].
  right. split; [done|]. by apply pair_lines_nil.
Qed.

Lemma all_pairs_elements log :
  all_pairs log = concat (log_of log <$> (map_to_list log).*1).
Proof.
  unfold all_pairs. f_equal. rewrite <-list_fmap_compose. apply list_fmap_ext.
  intros i [p kvs] Hx. apply list_elem_of_lookup_2, elem_of_map_to_list in Hx.
  unfold log_of, compose. simpl. by rewrite Hx.
Qed.

Lemma bucket_pairs_concat i ls :
  bucket_pairs hash n i (concat ls) = concat (bucket_pairs hash n i <$> ls).
Proof. induction ls as [|l ls IH]; [done|]. simpl. by rewrite bucket_pairs_app, IH. Qed.
End logs.

(** ** Grouping *)

Lemma values_of_Permutation kvs kvs' k : kvs ≡ₚ kvs' → values_of kvs k ≡ₚ values_of kvs' k.
Proof. intros H. unfold values_of. by rewrite H. Qed.

(** Another order of the pairs permutes the values of the groups. *)
Lemma group_Permutation {B} (g : cstr → list cstr → list B) kvs kvs' :
  (∀ k vs vs', vs ≡ₚ vs' → g k vs = g k vs') → kvs ≡ₚ kvs' →
  (group kvs ≫= λ kv, g kv.1 kv.2) = group kvs' ≫= λ kv, g kv.1 kv.2.
Proof.
  intros Hg Hp. unfold group.
  assert (merge_sort str_le (remove_dups kvs.*1) = merge_sort str_le (remove_dups kvs'.*1)) as ->.
  { apply (StronglySorted_unique str_le); [apply StronglySorted_merge_sort; apply _..|].
    rewrite !merge_sort_Permutation. apply NoDup_Permutation; [apply NoDup_remove_dups..|].
    intros x. by rewrite !elem_of_remove_dups, Hp. }
  induction (merge_sort _ _) as [|k l IH]; [done|].
  rewrite !fmap_cons, !bind_cons, IH. cbn [fst snd]. f_equal.
  by apply Hg, values_of_Permutation.
Qed.

(** *** The files of a partition *)

Definition idx_of (name : cstr) : Z :=
  match file_index name with Ok z => z | Err _ => 0%Z end.

(** The names that the map phase reports, grouped by their index. *)
Lemma idx2files_spec (n : Z) (log : job_log) (names : gset cstr) :
  (0 < n < 2 ^ 31)%Z → log ≠ ∅ →
  (∀ p, is_Some (log !! p) → (Z.of_nat (length p) < 2 ^ 30)%Z) →
  (∀ x, x ∈ names ↔
    ∃ p i, is_Some (log !! p) ∧ (i < Z.to_nat n)%nat ∧ x = intermediate_name p i) →
  ∃ t, group_files names = Ok t ∧
    (∀ i, (i < Z.to_nat n)%nat → ∃ ps, ps ≡ₚ (map_to_list log).*1 ∧
      t !! Z.of_nat i = Some ((λ p, intermediate_name p i) <$> ps)) ∧
    (∀ z, is_Some (t !! z) → ∃ i, (i < Z.to_nat n)%nat ∧ z = Z.of_nat i).
Proof.
  intros Hn Hlog Hlen Hnames.
  assert (∀ x, x ∈ set_order names → file_index x = Ok (idx_of x)) as Hidx.
  { intros x Hx. rewrite elem_of_set_order, Hnames in Hx. destruct Hx as (p & i & Hp & Hi & ->).
    unfold idx_of. rewrite file_index_intermediate; [done|lia|by apply Hlen]. }
  assert (∀ p i, is_Some (log !! p) → (i < Z.to_nat n)%nat →
    idx_of (intermediate_name p i) = Z.of_nat i) as Hidx'.
  { intros p i Hp Hi. unfold idx_of. rewrite file_index_intermediate; [done|lia|by apply Hlen]. }
  destruct (group_names_lookup idx_of (set_order names) ∅ 0 Hidx) as (t & Ht & _).
  assert (∀ z, t !! z = match filter (λ x, idx_of x = z) (set_order names) with
                        | [] => None | xs => Some xs end) as Hl.
  { intros z. destruct (group_names_lookup idx_of (set_order names) ∅ z Hidx) as (t' & Ht' & E).
    rewrite Ht in Ht'. injection Ht' as <-. by rewrite E, lookup_empty. }
  exists t. split; [done|]. split.
  - intros i Hi. rewrite Hl.
    assert (filter (λ x, idx_of x = Z.of_nat i) (set_order names) ≡ₚ
            (λ p, intermediate_name p i) <$> (map_to_list log).*1) as Hp.
    { apply NoDup_Permutation.
      - apply NoDup_filter, set_order_NoDup.
      - apply NoDup_fmap_2_strong, NoDup_fst_map_to_list.
        intros p q _ _ H. by apply intermediate_name_inj2 in H as [-> _].
      - intros x. rewrite list_elem_of_filter, elem_of_set_order, Hnames, list_elem_of_fmap.
        setoid_rewrite list_elem_of_fmap. split.
        + intros (H & p & j & [kvs Hp] & Hj & ->). rewrite Hidx' in H by eauto.
          apply Nat2Z.inj in H as ->. exists p. split; [done|]. exists (p, kvs).
          by rewrite elem_of_map_to_list.
        + intros (p & -> & [p' kvs] & -> & Hp%elem_of_map_to_list). cbn [fst].
          split; [by apply Hidx'; eauto|]. exists p', i. eauto. }
    apply Permutation_map_inv in Hp as (ps & Hps & Hperm). exists ps.
    split; [by symmetry|]. rewrite Hps.
    destruct ps as [|p ps]; [|done].
    apply Permutation_nil_r, fmap_nil_inv, map_to_list_empty_iff in Hperm. done.
  - intros z [xs Hz]. rewrite Hl in Hz.
    destruct (filter _ _) as [|x l] eqn:E; [done|].
    assert (x ∈ filter (λ x, idx_of x = z) (set_order names)) as Hx by (rewrite E; left).
    rewrite list_elem_of_filter, elem_of_set_order, Hnames in Hx.
    destruct Hx as (<- & p & i & Hp & Hi & ->). exists i. by rewrite Hidx'.
Qed.

Lemma idx2files_keys {A} (n : nat) (t : gmap Z A) :
  (∀ i, i < n → is_Some (t !! Z.of_nat i)) →
  (∀ z, is_Some (t !! z) → ∃ i, i < n ∧ z = Z.of_nat i) →
  (map_to_list t).*1 ≡ₚ Z.of_nat <$> seq 0 n.
Proof.
  intros H1 H2. apply NoDup_Permutation.
  - apply NoDup_fst_map_to_list.
  - apply NoDup_fmap_2; [apply _|apply NoDup_seq].
  - intros z. rewrite !list_elem_of_fmap. setoid_rewrite elem_of_seq. split.
    + intros ([z' a] & -> & Hz%elem_of_map_to_list). destruct (H2 z') as (i & ? & ->); [eauto|].
      exists i. split; [done|lia].
    + intros (i & -> & ?). destruct (H1 i) as [a Ha]; [lia|]. exists (Z.of_nat i, a).
      by rewrite elem_of_map_to_list.
Qed.

(** ** The end of a job *)

Lemma read_remove_files l f q :
  read_file (foldl remove_file f l) q = if decide (q ∈ l) then None else read_file f q.
Proof.
  revert f. induction l as [|x l IH]; intros f; [done|]. cbn [foldl]. rewrite IH.
  unfold remove_file, read_file. cbn [fs_files].
  destruct (decide (q = x)) as [->|Hq].
  - rewrite lookup_delete_eq, (decide_True (P := x ∈ x :: l)) by left. by case_decide.
  - rewrite lookup_delete_ne by done. destruct (decide (q ∈ l)).
    + by rewrite decide_True by by right.
    + by rewrite decide_False by (rewrite elem_of_cons; tauto).
Qed.

Lemma rmdir_files f p : fs_files (rmdir f p).1 = fs_files f.
Proof. unfold rmdir. by repeat case_match. Qed.

Lemma cleanup_read f m q :
  read_file (cleanup_files f m).1 q =
  if decide (q ∈ m_intermediate_files m) then None else read_file f q.
Proof.
  unfold cleanup_files. set (g := foldl _ _ _).
  pose proof (rmdir_files g (str "intermediate")) as H. destruct (rmdir g _) as [g' status]. cbn [fst] in *.
  unfold read_file at 1. rewrite H. change (fs_files ?h !! ?x) with (read_file h x). unfold g.
  rewrite read_remove_files. apply decide_ext, elem_of_set_order.
Qed.

Lemma reducer_emits_dirs out f kvs : fs_dirs (foldl (reducer_emit out) f kvs) = fs_dirs f.
Proof.
  revert f. induction kvs as [|kv kvs IH]; intros f; [done|]. simpl. rewrite IH.
  apply append_file_dirs.
Qed.
