(* ===== verification/MapReduce.v ===== *)
(** * A whole job (project4/src/mapreduce_impl.cc, master.cc)

    [MapReduceImpl::run] on a configuration file, with a master and workers
    that answer: the critical sections of [Master.v] and the jobs of
    [WorkerRequest.v] composed in the order of a run in which no worker fails
    and every answer arrives before the next job is sent, the last one after
    [schedule_monitor] has begun. *)
From S2P Require Import Prelude CxxString FileSystem MRSpec FileShard MRTasks.
From S2P Require Import TaskFactory WorkerRequest Master JobLog.
From Stdlib Require Import Ascii.

Section job.
Context (hash : cstr → Z) (factory : TaskFactory MapFn ReduceFn).

(** A worker serves the job it was sent, and [poll_workers] treats the answer. *)
Definition map_turn (st : fs * Master) (i : nat) : res (fs * Master) :=
  r ← assign_shard st.2 i;
  match r.2 with
  | Some (ip, q) =>
    a ← handle_map_job hash factory st.1 (port_of ip) q;
    mret (a.1, poll_call r.1 (MapCall ip true a.2))
  | None => Err Blocked
  end.

Definition reduce_turn (idx2files : gmap Z (list cstr)) (st : fs * Master) (i : nat) :
    res (fs * Master) :=
  r ← assign_partition idx2files st.2 i;
  match r.2 with
  | Some (ip, q) =>
    a ← handle_reduce_job factory st.1 q;
    mret (a.1, poll_call r.1 (ReduceCall ip true a.2))
  | None => Err Blocked
  end.

(** [schedule_monitor] against [poll_workers]: after the last answer the polling
    thread hands over, the decision is taken, and the polling thread must then
    return.  Without a job no answer ever wakes the polling thread, and
    [schedule_monitor] waits for ever. *)
Definition handover (jobs : nat) (m : Master) : res Master :=
  if decide (jobs = 0) then Err Blocked else
  let '(m, h) := poll_handover (schedule_begin m) in
  match h with
  | None => Err Blocked
  | Some _ =>
    let m := poll_resume (schedule_decide (assign trigger_monitoring false (schedule_trigger m))) in
    if poll_returns m h then mret m else Err Blocked
  end.

Definition run_master (f : fs) (s : MapReduceSpec) (file_shards : list FileShard) :
    res (bool * fs) :=
  let m := Master_init s file_shards in
  let f := mkdir f (str "intermediate") in
  st ← mfoldl map_turn (f, m) (range 0 (length (shards m)));
  m ← handover (length (shards m)) st.2;
  let '(m, done) := map_round_end m in
  if negb done then Err Blocked else
  r ← start_reduce m;
  st' ← mfoldl (reduce_turn r.2) (st.1, r.1) (range 0 (length (partitions r.1)));
  m ← handover (length (partitions r.1)) st'.2;
  let '(m, done) := reduce_round_end m in
  if negb done then Err Blocked else
  let '(f, ok) := cleanup_files st'.1 (stop_monitor m) in
  mret (ok, f).

Definition create_shards (f : fs) (s : MapReduceSpec) : res (bool * list FileShard) :=
  match shard_files f s [] with Some r => Ok r | None => Err Blocked end.

(** [MapReduceImpl::run] *)
Definition run (f : fs) (config_filename : cstr) : res (bool * fs) :=
  rs ← read_mr_spec_from_config_file f config_filename empty_spec;
  let '(ok, s) := rs in
  if negb (ok && validate_mr_spec f s) then mret (false, f) else
  sh ← create_shards f s;
  let '(ok, file_shards) := sh in
  if negb ok then mret (false, f) else
  run_master f s file_shards.

(** ** The specification of a job *)

(** The lines of the input, as the mapper sees them. *)
Definition input_lines (f : fs) (s : MapReduceSpec) : list cstr :=
  input_files s ≫= λ name, getlines nl (contents f name).

(** The pairs that the output file of a partition holds: the reducer on every
    key of the partition, in ascending order, with all its values. *)
Definition expected_output (s : MapReduceSpec) (mapper : MapFn) (reducer : ReduceFn)
    (lines : list cstr) (i : nat) : list (cstr * cstr) :=
  group (bucket_pairs hash (n_output_files s) i (lines ≫= mapper)) ≫= λ kv, reducer kv.1 kv.2.

(** What the framework requires of the tasks: the mapper reads its line as a C
    string and emits pairs that the intermediate format can carry, the
    reducer does not depend on the order of the values. *)
Record good_mapper (mapper : MapFn) : Prop := {
  gm_c_str l : mapper (c_str l) = mapper l;
  gm_clean l : nl ∉ l → (Z.of_nat (length l) < 2 ^ 30)%Z → Forall clean_pair (mapper l)
}.

Definition good_reducer (reducer : ReduceFn) : Prop :=
  ∀ k vs vs', vs ≡ₚ vs' → reducer k vs = reducer k vs'.

(** The workers of a specification. *)
Definition workers (s : MapReduceSpec) : list cstr :=
  take (Z.to_nat (n_workers s)) (worker_ipaddr_ports s).

(** A file system and a specification with which a job can be started: numbers
    that fit their types, addresses without slashes, inputs of less than
    512 MiB that are no intermediate files, and none of these left over. *)
Record startable (f : fs) (s : MapReduceSpec) : Prop := {
  sf_n_workers : i32_range (n_workers s);
  sf_kb : (0 < map_kilobytes s < 2 ^ 21)%Z;
  sf_parts : (0 < n_output_files s < 2 ^ 31)%Z;
  sf_ip ip : ip ∈ workers s → ("/"%char ∉ ip) ∧ (Z.of_nat (length ip) < 2 ^ 30)%Z;
  sf_inputs name : name ∈ input_files s → ∀ port i, name ≠ intermediate_name port i;
  sf_intermediate : read_file f (str "intermediate") = None;
  sf_fresh port i : read_file f (intermediate_name port i) = None;
  sf_no_dir port i : intermediate_name port i ∉ fs_dirs f;
  sf_out_no_dir i : output_name (output_dir s) i ∉ fs_dirs f;
  sf_short name : name ∈ input_files s → (Z.of_nat (length (contents f name)) < 2 ^ 29)%Z
}.

(** ** Lemmas *)

(** *** One job of the master *)

(** A master whose workers have all answered and none has failed. *)
Record ready (ips : list cstr) (m : Master) : Prop := {
  rd_ips : worker_ips m = ips;
  rd_dropped : dropped_worker_ips m = [];
  rd_queue : ready_queue m ≠ [];
  rd_sub ip : ip ∈ ready_queue m → ip ∈ ips;
  rd_client ip : ip ∈ ips → ∃ c, ip_addr2worker m !! ip = Some (Some c);
  rd_flag : map_reduce_flag m = false;
  rd_drops : num_dropped_workers m = 0%Z ∧ num_dropped_map_jobs m = 0%Z ∧
             num_dropped_reduce_jobs m = 0%Z;
  rd_unfinished : unfinished_shards m = [] ∧ unfinished_partitions m = []
}.

(** What an answered job leaves as it was. *)
Record job_frame (m m' : Master) : Prop := {
  jf_user : m_user_id m' = m_user_id m;
  jf_dir : m_output_dir m' = m_output_dir m;
  jf_counts : num_shards m' = num_shards m ∧ m_num_partitions m' = m_num_partitions m;
  jf_complete : map_complete m' = map_complete m ∧ reduce_complete m' = reduce_complete m;
  jf_work : shards m' = shards m ∧ partitions m' = partitions m
}.

Lemma job_frame_trans m1 m2 m3 : job_frame m1 m2 → job_frame m2 m3 → job_frame m1 m3.
Proof. intros [? ? [] [] []] [? ? [] [] []]. split; repeat split; congruence. Qed.

Lemma requeue (ips q : list cstr) ip :
  (∀ x, x ∈ ip :: q → x ∈ ips) → q ++ [ip] ≠ [] ∧ ∀ x, x ∈ q ++ [ip] → x ∈ ips.
Proof. intros H. split; [by destruct q|]. set_solver. Qed.

Lemma clients_insert (ips : list cstr) (t : gmap cstr (option WorkerClient)) ip c :
  (∀ x, x ∈ ips → ∃ c, t !! x = Some (Some c)) →
  ∀ x, x ∈ ips → ∃ c', <[ip := Some c]> t !! x = Some (Some c').
Proof. intros H x Hx. rewrite lookup_insert. case_decide; eauto. Qed.

#[local] Arguments poll_call : simpl never.
#[local] Arguments client_get : simpl never.

Lemma assign_shard_ok ips m i sh :
  ready ips m → shards m !! i = Some sh →
  ∃ ip m', ip ∈ ips ∧
    assign_shard m i = Ok (m', Some (ip, mapper_query (m_user_id m) (m_num_partitions m) sh)) ∧
    ∀ names, let m2 := poll_call m' (MapCall ip true names) in
      ready ips m2 ∧ job_frame m m2 ∧
      num_map_msgs m2 = (num_map_msgs m + 1)%Z ∧ num_reduce_msgs m2 = num_reduce_msgs m ∧
      m_intermediate_files m2 = m_intermediate_files m ∪ list_to_set names ∧
      output_files m2 = output_files m.
Proof.
  intros [Hips Hdr Hq Hsub Hcl Hfl [? [? ?]] [? ?]] Hsh. destruct m as [? ? ? ? ? ? ? ? ? ? ? ? ? ? ? ? ? t rq ? ? ? ? ? ? ?]. cbn in *. subst.
  destruct rq as [|ip q]; [done|].
  assert (ip ∈ ips) as Hip by (apply Hsub; left). destruct (Hcl ip Hip) as [c Hc].
  unfold assign_shard, get. cbn. rewrite Hsh. cbn.
  rewrite decide_False by apply not_elem_of_nil.
  unfold client_get. cbn. rewrite Hc. cbn.
  eexists ip, _. split; [done|]. split; [reflexivity|]. intros names.
  unfold poll_call. cbn. rewrite decide_True by done.
  unfold client_get. cbn. rewrite lookup_insert_eq. cbn.
  split; [|split; [by split|repeat split; cbn; lia]].
  destruct (requeue ips q ip Hsub). split; cbn; try done.
  by do 2 apply clients_insert.
Qed.

Lemma assign_partition_ok ips idx2files m i id :
  ready ips m → partitions m !! i = Some id →
  ∃ ip m', ip ∈ ips ∧
    assign_partition idx2files m i =
      Ok (m', Some (ip, reducer_query (m_user_id m) id (m_output_dir m)
                          (default [] (idx2files !! id)))) ∧
    ∀ name, let m2 := poll_call m' (ReduceCall ip true name) in
      ready ips m2 ∧ job_frame m m2 ∧
      num_map_msgs m2 = num_map_msgs m ∧ num_reduce_msgs m2 = (num_reduce_msgs m + 1)%Z ∧
      m_intermediate_files m2 = m_intermediate_files m ∧
      output_files m2 = output_files m ++ [name].
Proof.
  intros [Hips Hdr Hq Hsub Hcl Hfl [? [? ?]] [? ?]] Hsh. destruct m as [? ? ? ? ? ? ? ? ? ? ? ? ? ? ? ? ? t rq ? ? ? ? ? ? ?]. cbn in *. subst.
  destruct rq as [|ip q]; [done|].
  assert (ip ∈ ips) as Hip by (apply Hsub; left). destruct (Hcl ip Hip) as [c Hc].
  unfold assign_partition, get. cbn. rewrite Hsh. cbn.
  rewrite decide_False by apply not_elem_of_nil.
  unfold client_get. cbn. rewrite Hc. cbn.
  eexists ip, _. split; [done|]. split; [reflexivity|]. intros name.
  unfold poll_call. cbn. rewrite decide_True by done.
  unfold client_get. cbn. rewrite lookup_insert_eq. cbn.
  split; [|split; [by split|repeat split; cbn; lia]].
  destruct (requeue ips q ip Hsub). split; cbn; try done.
  by do 2 apply clients_insert.
Qed.

(** *** The map phase *)

Lemma port_of_sub ip a : a ∈ port_of ip → a ∈ ip.
Proof.
  unfold port_of. destruct (find_char _ ip) as [n|]; [|done]. intros Ha.
  rewrite <-(take_drop (S n) ip).
  apply elem_of_app. by right.
Qed.

Lemma port_of_length ip : length (port_of ip) ≤ length ip.
Proof. unfold port_of. case_match; [|done]. rewrite length_drop. lia. Qed.

(** The pairs that the pieces of shards give. *)
Definition shards_pairs (f : fs) (mapper : MapFn) (l : list FileShard) : list (cstr * cstr) :=
  query_lines f (partition_of_piece <$> pieces l) ≫= mapper.

Lemma shards_pairs_snoc f mapper l sh :
  shards_pairs f mapper (l ++ [sh]) =
  shards_pairs f mapper l ++
  (query_lines f (partition_of_piece <$> shard_pieces sh) ≫= mapper).
Proof.
  unfold shards_pairs. rewrite pieces_app, pieces_singleton, fmap_app.
  unfold query_lines. by rewrite bind_app, bind_app.
Qed.

(** A list of shards that the map phase can process. *)
Definition sound_shards (s : MapReduceSpec) (l : list FileShard) : Prop :=
  ∀ sh p, sh ∈ l → p ∈ shard_pieces sh →
    p.1 ∈ input_files s ∧ wf_partition (partition_of_piece p) ∧ (p.2.2 - p.2.1 < 2 ^ 30)%Z.

Section map_phase.
Context (f : fs) (s : MapReduceSpec) (mapper : MapFn) (file_shards : list FileShard).
Context (Hmapper : get_mapper factory (user_id s) = Some mapper)
        (Hstart : startable f s) (Hsound : sound_shards s file_shards)
        (Hworkers : workers s ≠ []).

Let f0 := mkdir f (str "intermediate").
Let m0 := Master_init s file_shards.

Lemma mkdir_files q : read_file f0 q = read_file f q.
Proof. unfold f0, mkdir. by rewrite (sf_intermediate _ _ Hstart). Qed.

Lemma mkdir_dirs : fs_dirs f0 = {[str "intermediate"]} ∪ fs_dirs f.
Proof. unfold f0, mkdir. by rewrite (sf_intermediate _ _ Hstart). Qed.

Record map_inv (k : nat) (st : fs * Master) (log : job_log) : Prop := {
  mi_ready : ready (workers s) st.2;
  mi_frame : job_frame m0 st.2;
  mi_msgs : num_map_msgs st.2 = Z.of_nat k ∧ num_reduce_msgs st.2 = 0%Z;
  mi_outputs : output_files st.2 = [];
  mi_logged : logged hash (n_output_files s) f0 st.1 log;
  mi_pairs : all_pairs log ≡ₚ shards_pairs f mapper (take k file_shards);
  mi_ports p : is_Some (log !! p) → ∃ ip, ip ∈ workers s ∧ p = port_of ip;
  mi_files x : x ∈ m_intermediate_files st.2 ↔
    ∃ p i, is_Some (log !! p) ∧ (i < Z.to_nat (n_output_files s))%nat ∧ x = intermediate_name p i;
  mi_some : 0 < k → log ≠ ∅
}.

Lemma map_inv_start : map_inv 0 (f0, m0) ∅.
Proof.
  split; cbn; try done.
  - split; try done. intros ip Hip. unfold m0, Master_init, ip_addr2worker.
    fold (workers s) in *. exists new_client.
    apply elem_of_list_to_map_1'.
    + intros y (ip' & [= -> ->] & _)%list_elem_of_fmap. done.
    + apply list_elem_of_fmap. eauto.
  - apply logged_start. intros p i. rewrite mkdir_files. apply Hstart.
  - intros p [? H]. by rewrite lookup_empty in H.
  - intros x. split; [set_solver|]. intros (p & i & [? H] & _). by rewrite lookup_empty in H.
  - lia.
Qed.

Lemma map_inv_step k st log :
  k < length file_shards → map_inv k st log →
  ∃ st' log', map_turn st k = Ok st' ∧ map_inv (S k) st' log'.
Proof.
  destruct st as [g m]. intros Hk [Hr Hf [Hm1 Hm2] Ho Hl Hp Hports Hfiles Hs]. cbn [fst snd] in *.
  destruct (lookup_lt_is_Some_2 file_shards k Hk) as [sh Hsh].
  pose proof (list_elem_of_lookup_2 _ _ _ Hsh) as Hin.
  destruct (assign_shard_ok (workers s) m k sh Hr) as (ip & m1 & Hip & Ha & Hpoll).
  { destruct Hf as [_ _ _ _ [-> _]]. done. }
  unfold map_turn. cbn [fst snd]. rewrite Ha. cbn [mbind res_bind fst snd].
  replace (m_user_id m) with (user_id s) by (symmetry; apply Hf).
  replace (m_num_partitions m) with (n_output_files s) by (symmetry; apply Hf).
  set (n := n_output_files s) in *. set (port := port_of ip).
  set (q := mapper_query (user_id s) n sh).
  destruct (sf_ip _ _ Hstart ip Hip) as [Hslash Hlen].
  assert ("/"%char ∉ port) as Hps by (intros ?%port_of_sub; done).
  rewrite (map_job_ok hash factory g port q mapper); [|done|apply Hstart| |].
  2: { apply Forall_forall. intros p (p' & -> & Hp')%list_elem_of_fmap. by destruct (Hsound sh p' Hin Hp') as (_ & ? & _). }
  2: { intros p (p' & -> & Hp')%list_elem_of_fmap (i & Hi & _)%list_elem_of_fmap.
       destruct (Hsound sh p' Hin Hp') as [Hname _].
       by apply (sf_inputs _ _ Hstart p'.1 Hname port i). }
  cbn [mbind res_bind fst snd mq_n_partitions mq_partitions mapper_query q].
  destruct (Hpoll (intermediate_names port n)) as (Hr2 & Hf2 & Hm1' & Hm2' & Hi2 & Ho2).
  set (kvs := query_lines g (partition_of_piece <$> shard_pieces sh) ≫= mapper).
  assert (kvs = query_lines f (partition_of_piece <$> shard_pieces sh) ≫= mapper) as Hkvs.
  { unfold kvs. f_equal. apply query_lines_ext.
    intros p (p' & -> & Hp')%list_elem_of_fmap. unfold contents.
    change (default [] (read_file g p'.1) = default [] (read_file f p'.1)).
    destruct (Hsound sh p' Hin Hp') as [Hname _].
    rewrite (lg_other _ _ _ _ _ Hl), mkdir_files; [done|]. by apply (sf_inputs _ _ Hstart). }
  eexists _, (add_log log port kvs). split; [reflexivity|]. split; cbn [fst snd].
  - done.
  - by eapply job_frame_trans.
  - rewrite Hm1', Hm2', Hm1. split; [lia|done].
  - by rewrite Ho2.
  - apply logged_step; [done|..|done].
    + rewrite mkdir_dirs. set_solver.
    + intros i. rewrite mkdir_dirs, not_elem_of_union. split; [|apply Hstart].
      rewrite not_elem_of_singleton. intros H%(f_equal dirname).
      by rewrite intermediate_name_dirname in H.
  - rewrite all_pairs_add, Hp. erewrite take_S_r by done.
    rewrite shards_pairs_snoc, Hkvs. done.
  - intros p. unfold add_log. rewrite lookup_insert_is_Some'. intros [<-|Hp']; eauto.
  - intros x. rewrite Hi2, elem_of_union, Hfiles, elem_of_list_to_set. unfold add_log.
    setoid_rewrite lookup_insert_is_Some'. unfold intermediate_names, range.
    rewrite list_elem_of_fmap. setoid_rewrite elem_of_seq. split.
    + intros [(p & i & ? & ? & ->)|(i & -> & ?)]; [by eauto 10|].
      exists port, i. split; [by left|]. split; [lia|done].
    + intros (p & i & [<-|?] & ? & ->); [right|left; eauto].
      exists i. split; [done|]. lia.
  - intros _. apply insert_non_empty.
Qed.

Lemma map_phase k :
  k ≤ length file_shards →
  ∃ st log, mfoldl map_turn (f0, m0) (range 0 k) = Ok st ∧ map_inv k st log.
Proof.
  induction k as [|k IH]; intros Hk.
  { exists (f0, m0), ∅. split; [done|]. apply map_inv_start. }
  destruct IH as (st & log & E & Hinv); [lia|].
  rewrite (range_split 0 k (S k)), mfoldl_app, E by lia. cbn [mbind res_bind].
  replace (range k (S k)) with [k] by (unfold range; by replace (S k - k) with 1 by lia).
  cbn [mfoldl].
  destruct (map_inv_step k st log) as (st' & log' & -> & Hinv'); [lia|done|].
  exists st', log'. done.
Qed.
End map_phase.

(** *** Between the phases *)

(** Any decision that ends the phase lets [poll_workers] return. *)
Lemma handover_ok ips jobs m :
  jobs ≠ 0 → ready ips m → notify_master m = true →
  handover jobs m =
  let m' := schedule_decide (assign trigger_monitoring false m) in
  if poll_returns m' (Some (negb (map_complete m)))
  then Ok (poll_resume m') else Err Blocked.
Proof.
  intros Hj [_ _ _ _ _ Hfl _ _] Hn. destruct m. cbn in *. subst.
  unfold handover, poll_handover. rewrite decide_False by done.
  assert (∀ m, notify_master (schedule_begin m) = notify_master m) as -> by (by intros []).
  rewrite Hn. reflexivity.
Qed.

Lemma handover_map ips jobs m :
  jobs ≠ 0 → ready ips m → map_complete m = false → num_map_msgs m = num_shards m →
  handover jobs m = Ok (assign map_complete true (assign trigger_monitoring false m)).
Proof.
  intros Hj Hr Hmc Hmsgs. rewrite (handover_ok ips); [|done|done|].
  2: { destruct Hr as [_ _ _ _ _ _ (H1&H2&_) _]. unfold notify_master.
       rewrite H1, H2, Hmsgs, Hmc, Z.sub_0_r.
       by rewrite (bool_decide_true (0 = 0)%Z), (bool_decide_true (num_shards m = num_shards m)). }
  destruct Hr as [_ _ _ _ _ Hfl (?&?&?) [? ?]]. destruct m. cbn in *. subst.
  unfold schedule_decide. cbn. by rewrite Z.sub_0_r, (bool_decide_true (_ = _)) by done.
Qed.

Lemma handover_reduce ips jobs m :
  jobs ≠ 0 → ready ips m → map_complete m = true → reduce_complete m = false →
  num_reduce_msgs m = m_num_partitions m →
  Z.of_nat (length (output_files m)) = m_num_partitions m →
  handover jobs m = Ok (assign reduce_complete true (assign trigger_monitoring false m)).
Proof.
  intros Hj Hr Hmc Hrc Hmsgs Hout. rewrite (handover_ok ips); [|done|done|].
  2: { destruct Hr as [_ _ _ _ _ _ (H1&_&H2) _]. unfold notify_master.
       rewrite H1, H2, Hmsgs, Hmc, Hrc, Z.sub_0_r, andb_false_r.
       by rewrite (bool_decide_true (0 = 0)%Z), (bool_decide_true (m_num_partitions m = m_num_partitions m)). }
  destruct Hr as [_ _ _ _ _ Hfl (?&?&?) [? ?]]. destruct m. cbn in *. subst.
  unfold schedule_decide. cbn. by rewrite (bool_decide_true (_ = _)) by done.
Qed.

Lemma map_round_end_ok m :
  unfinished_shards m = [] → map_complete m = true →
  map_round_end m = (assign shards [] m, true).
Proof. intros H1 H2. unfold map_round_end. by rewrite H1, H2; cbn; rewrite H1. Qed.

Lemma reduce_round_end_ok m :
  unfinished_partitions m = [] → reduce_complete m = true →
  reduce_round_end m = (assign partitions [] m, true).
Proof. intros H1 H2. unfold reduce_round_end. by rewrite H1, H2; cbn; rewrite H1. Qed.

(** *** The reduce phase *)

Section reduce_phase.
Context (n : Z) (dir user : cstr) (reducer : ReduceFn) (ips : list cstr).
Context (g0 g : fs) (log : job_log) (pairs : list (cstr * cstr)).
Context (m1 : Master) (idx2files : gmap Z (list cstr)).
Context (Hreducer : get_reducer factory user = Some reducer) (Hgood : good_reducer reducer)
  (Hlogged : logged hash n g0 g log) (Hpairs : all_pairs log ≡ₚ pairs)
  (Hclean : Forall clean_pair pairs)
  (Hdir : dir ∈ fs_dirs g) (Hnodir : ∀ i, output_name dir i ∉ fs_dirs g)
  (Hidx : ∀ i, (i < Z.to_nat n)%nat → ∃ ps, ps ≡ₚ (map_to_list log).*1 ∧
      idx2files !! Z.of_nat i = Some ((λ p, intermediate_name p i) <$> ps)).

(** The text that the reduce job of a partition appends. *)
Definition partition_text (i : nat) : list (cstr * cstr) :=
  group (bucket_pairs hash n i pairs) ≫= λ kv, reducer kv.1 kv.2.

Lemma log_clean p : Forall clean_pair (log_of log p).
Proof.
  apply Forall_forall. intros kv Hkv. rewrite Forall_forall in Hclean. apply Hclean.
  rewrite <-Hpairs. unfold log_of in Hkv. destruct (log !! p) as [l|] eqn:E; [|set_solver].
  unfold all_pairs. apply elem_of_concat. exists l. split; [done|].
  apply list_elem_of_fmap. exists (p, l). by rewrite elem_of_map_to_list.
Qed.

Lemma reduce_query_ok g' i :
  (i < Z.to_nat n)%nat →
  (∀ p, read_file g' (intermediate_name p i) = read_file g (intermediate_name p i)) →
  let out := output_name dir (Z.of_nat i) in
  handle_reduce_job factory g'
    (reducer_query user (Z.of_nat i) dir (default [] (idx2files !! Z.of_nat i))) =
  Ok (foldl (reducer_emit out) g' (partition_text i), out).
Proof.
  intros Hi Hg out. destruct (Hidx i Hi) as (ps & Hps & ->). cbn [default].
  rewrite (reduce_job_ok factory g' _ reducer
    ((λ p, bucket_pairs hash n i (log_of log p)) <$> ps)); [|done|].
  2: { cbn [rq_files reducer_query]. clear Hps. induction ps as [|p ps IH]; [constructor|].
       rewrite !fmap_cons. constructor; [|done]. split.
       - apply Forall_forall. intros kv [_ Hkv]%list_elem_of_filter.
         by eapply (proj1 (Forall_forall _ _) (log_clean p)).
       - rewrite Hg. by eapply logged_file. }
  cbn [rq_output_dir rq_partition_id reducer_query]. fold out. do 3 f_equal.
  unfold partition_text. apply group_Permutation; [apply Hgood|].
  assert (concat ((λ p, bucket_pairs hash n i (log_of log p)) <$> ps) =
          bucket_pairs hash n i (concat (log_of log <$> ps))) as ->
    by by rewrite bucket_pairs_concat, <-list_fmap_compose.
  unfold bucket_pairs. apply filter_Permutation. rewrite <-Hpairs, all_pairs_elements.
  by rewrite Hps.
Qed.

Record reduce_inv (done : list Z) (st : fs * Master) : Prop := {
  ri_ready : ready ips st.2;
  ri_frame : job_frame m1 st.2;
  ri_msgs : num_reduce_msgs st.2 = Z.of_nat (length done) ∧ length (output_files st.2) = length done;
  ri_files : m_intermediate_files st.2 = m_intermediate_files m1;
  ri_dirs : fs_dirs st.1 = fs_dirs g;
  ri_other q : (∀ i, (i < Z.to_nat n)%nat → q ≠ output_name dir (Z.of_nat i)) →
    read_file st.1 q = read_file g q;
  ri_outputs i : (i < Z.to_nat n)%nat →
    contents st.1 (output_name dir (Z.of_nat i)) =
    contents g (output_name dir (Z.of_nat i)) ++
      (if decide (Z.of_nat i ∈ done) then concat (reducer_line <$> partition_text i) else [])
}.

Lemma reduce_inv_step done st i :
  m_user_id m1 = user → m_output_dir m1 = dir →
  partitions m1 !! length done = Some (Z.of_nat i) → (i < Z.to_nat n)%nat → Z.of_nat i ∉ done →
  reduce_inv done st →
  ∃ st', reduce_turn idx2files st (length done) = Ok st' ∧ reduce_inv (done ++ [Z.of_nat i]) st'.
Proof.
  destruct st as [g' m]. intros Hu Hd Hp Hi Hnin [Hr Hf [Hm1 Hm2] Hfi Hdi Ho Hout].
  cbn [fst snd] in *.
  destruct (assign_partition_ok ips idx2files m (length done) (Z.of_nat i) Hr)
    as (ip & m2 & Hip & Ha & Hpoll); [by destruct Hf as [_ _ _ _ [_ ->]]|].
  unfold reduce_turn. cbn [fst snd]. rewrite Ha. cbn [mbind res_bind fst snd].
  replace (m_user_id m) with user by (rewrite <-Hu; symmetry; apply Hf).
  replace (m_output_dir m) with dir by (rewrite <-Hd; symmetry; apply Hf).
  rewrite reduce_query_ok; [|done|].
  2: { intros p. apply Ho. intros j _ H. by eapply output_not_intermediate. }
  cbn [mbind res_bind fst snd]. set (out := output_name dir (Z.of_nat i)).
  destruct (Hpoll out) as (Hr3 & Hf3 & Hm1' & Hm2' & Hi3 & Ho3).
  eexists. split; [reflexivity|]. split; cbn [fst snd].
  - done.
  - by eapply job_frame_trans.
  - rewrite Hm2', Ho3, Hm1, !length_app, Hm2. simpl. split; lia.
  - by rewrite Hi3.
  - by rewrite reducer_emits_dirs.
  - intros q Hq. rewrite reducer_emits_read; [by apply Ho|by apply Hq].
  - intros j Hj. destruct (decide (i = j)) as [<-|Hij].
    + rewrite reducer_emits_contents.
      2: { eapply writable_in; [apply output_name_dirname|by rewrite Hdi..]. }
      unfold out. rewrite Hout, decide_False, app_nil_r, decide_True by (done || set_solver). done.
    + unfold contents. change (fs_files ?h !! ?x) with (read_file h x).
      rewrite reducer_emits_read by (intros H%output_name_inj; lia).
      change (default [] (read_file g' ?x)) with (contents g' x). rewrite Hout by done.
      do 2 f_equal. apply decide_ext. rewrite elem_of_app, list_elem_of_singleton.
      split; [by left|]. intros [?|?%Nat2Z.inj]; congruence.
Qed.

Lemma reduce_phase k :
  m_user_id m1 = user → m_output_dir m1 = dir →
  partitions m1 ≡ₚ Z.of_nat <$> seq 0 (Z.to_nat n) →
  ready ips m1 → num_reduce_msgs m1 = 0%Z → output_files m1 = [] →
  k ≤ length (partitions m1) →
  ∃ st, mfoldl (reduce_turn idx2files) (g, m1) (range 0 k) = Ok st ∧
    reduce_inv (take k (partitions m1)) st.
Proof.
  intros Hu Hd Hps Hr Hn0 Ho0. induction k as [|k IH]; intros Hk.
  { exists (g, m1). split; [done|]. split; cbn; try done.
    - by rewrite Ho0.
    - intros i Hi. by rewrite app_nil_r. }
  destruct IH as (st & E & Hinv); [lia|].
  rewrite (range_split 0 k (S k)), mfoldl_app, E by lia. cbn [mbind res_bind].
  replace (range k (S k)) with [k] by (unfold range; by replace (S k - k) with 1 by lia).
  cbn [mfoldl].
  destruct (lookup_lt_is_Some_2 (partitions m1) k Hk) as [z Hz].
  pose proof (list_elem_of_lookup_2 _ _ _ Hz) as Hin.
  rewrite Hps, list_elem_of_fmap in Hin. destruct Hin as (i & -> & Hi%elem_of_seq).
  assert (length (take k (partitions m1)) = k) as Hlen by (rewrite length_take; lia).
  destruct (reduce_inv_step (take k (partitions m1)) st i) as (st' & E' & Hinv');
    rewrite ?Hlen; [done|done|done|lia| |done|].
  - intros (j & Hj & Hjk)%elem_of_take. assert (j = k); [|lia].
    eapply NoDup_lookup; [|done|done]. rewrite Hps. apply NoDup_fmap_2; [apply _|apply NoDup_seq].
  - rewrite Hlen in E'. rewrite E'. exists st'. split; [done|].
    by erewrite take_S_r by done.
Qed.
End reduce_phase.

(** *** The lines of the shards are the lines of the inputs *)

Lemma tiles_bounds name text off ps p :
  tiles name text off ps → p ∈ ps →
  (0 ≤ p.2.1 < p.2.2 ∧ p.2.2 ≤ Z.of_nat (length text) + 1)%Z.
Proof.
  induction 1 as [|off stop ps H1 H2 H3 _ IH]; [set_solver|].
  intros [->|Hp]%elem_of_cons; [|by apply IH]. cbn [fst snd].
  split; [lia|]. destruct H3; [lia| |lia]. subst. rewrite length_app. simpl. lia.
Qed.

Lemma good_mapper_c_str mapper ls ls' :
  good_mapper mapper → c_str <$> ls = c_str <$> ls' → ls ≫= mapper = ls' ≫= mapper.
Proof.
  intros [Hc _] H.
  assert (∀ l, l ≫= mapper = (c_str <$> l) ≫= mapper) as Hl.
  { induction l as [|x l IH]; [done|]. rewrite fmap_cons, !bind_cons, IH, Hc. done. }
  by rewrite (Hl ls), (Hl ls'), H.
Qed.

Lemma query_piece_lines f ps :
  c_str <$> query_lines f (partition_of_piece <$> ps) =
  ps ≫= λ p, piece_lines (contents f p.1) p.2.
Proof.
  unfold query_lines. induction ps as [|p ps IH]; [done|].
  rewrite fmap_cons, !bind_cons, fmap_app, IH. done.
Qed.

Section shards.
Context (f : fs) (s : MapReduceSpec) (file_shards : list FileShard)
  (pss : list (list (cstr * (Z * Z)))).
Context (Hstart : startable f s)
  (Htiles : Forall2 (λ name ps, ∃ text, read_file f name = Some text ∧ tiles name text 0 ps)
              (input_files s) pss)
  (Hpieces : pieces file_shards = concat pss).

Lemma tiled_sound : sound_shards s file_shards.
Proof.
  intros sh p Hsh Hp.
  assert (p ∈ concat pss) as Hc.
  { rewrite <-Hpieces. unfold pieces. apply list_elem_of_bind. eauto. }
  apply elem_of_concat in Hc as (ps & Hps & [j Hj]%list_elem_of_lookup).
  destruct (Forall2_lookup_r _ _ _ _ _ Htiles Hj) as (name & Hname & text & Hf & Ht).
  apply list_elem_of_lookup_2 in Hname.
  rewrite (tiles_names _ _ _ _ Ht p Hps). split; [done|].
  destruct (tiles_bounds _ _ _ _ p Ht Hps) as [? ?].
  pose proof (sf_short _ _ Hstart name Hname) as Hlen. unfold contents in Hlen.
  change (fs_files f !! name) with (read_file f name) in Hlen. rewrite Hf in Hlen. simpl in Hlen.
  unfold wf_partition, partition_of_piece. cbn. lia.
Qed.

Lemma tiled_pairs mapper :
  good_mapper mapper → shards_pairs f mapper file_shards = input_lines f s ≫= mapper.
Proof.
  intros Hg. unfold shards_pairs. rewrite Hpieces. apply good_mapper_c_str; [done|].
  rewrite query_piece_lines, (tilings_lines f (input_files s) pss Htiles).
  unfold input_lines. clear Htiles. induction (input_files s) as [|name l IH]; [done|].
  by rewrite !bind_cons, fmap_app, IH.
Qed.
End shards.

Lemma input_pairs_clean f s mapper :
  startable f s → good_mapper mapper → Forall clean_pair (input_lines f s ≫= mapper).
Proof.
  intros Hs Hg. apply Forall_forall. intros kv (l & Hkv & Hl)%list_elem_of_bind.
  unfold input_lines in Hl. apply list_elem_of_bind in Hl as (name & Hl & Hname).
  apply getlines_elem in Hl as [Hnl Hlen].
  pose proof (sf_short _ _ Hs name Hname).
  pose proof (gm_clean _ Hg l Hnl ltac:(lia)) as HF. rewrite Forall_forall in HF. by apply HF.
Qed.

(** *** The run of the master *)

Section whole_run.
Context (f : fs) (s : MapReduceSpec) (mapper : MapFn) (reducer : ReduceFn)
  (file_shards : list FileShard).
Context (Hmapper : get_mapper factory (user_id s) = Some mapper)
  (Hreducer : get_reducer factory (user_id s) = Some reducer)
  (Hgm : good_mapper mapper) (Hgr : good_reducer reducer)
  (Hstart : startable f s) (Hvalid : validate_mr_spec f s = true)
  (Hshards : shard_files f s [] = Some (true, file_shards)) (Hinput : input_lines f s ≠ []).

Let n := Z.to_nat (n_output_files s).
Let out (i : nat) := output_name (output_dir s) (Z.of_nat i).

(** What the job promises of the file system it leaves. *)
Record job_done (f' : fs) : Prop := {
  jd_outputs i : (i < n)%nat →
    contents f' (out i) = contents f (out i) ++
      concat (reducer_line <$> expected_output s mapper reducer (input_lines f s) i);
  jd_clean p i : read_file f' (intermediate_name p i) = None;
  jd_other q : (∀ p i, q ≠ intermediate_name p i) → (∀ i, (i < n)%nat → q ≠ out i) →
    read_file f' q = read_file f q
}.

Lemma valid_facts : workers s ≠ [] ∧ output_dir s ∈ fs_dirs f.
Proof.
  apply validate_mr_spec_true in Hvalid as (H1&H2&_&_&_&H3&_); [|apply Hstart].
  split; [|done]. unfold workers. destruct (worker_ipaddr_ports s); simpl in *; [lia|].
  by destruct (Z.to_nat (n_workers s)) eqn:E; [lia|].
Qed.

Lemma sharding_facts :
  sound_shards s file_shards ∧
  shards_pairs f mapper file_shards = (input_lines f s ≫= mapper) ∧ file_shards ≠ [].
Proof.
  destruct (lines_bound_exists f (input_files s)) as [L HL].
  destruct (shard_files_loops f s L (sf_kb _ _ Hstart) HL) as (b & l & E & Hb).
  rewrite Hshards in E. simplify_eq. destruct Hb as (pss & Hpss & Hp & _); [done|].
  split; [by eapply tiled_sound|]. split; [by eapply tiled_pairs|].
  intros ->. apply Hinput. cbn in Hp.
  pose proof (tilings_lines f (input_files s) pss Hpss) as Hl. rewrite <-Hp in Hl. cbn in Hl.
  unfold input_lines. clear -Hl. induction (input_files s) as [|name l IH]; [done|].
  rewrite bind_cons in Hl. symmetry in Hl. apply app_nil in Hl as [H1 H2].
  rewrite bind_cons. apply fmap_nil_inv in H1. rewrite H1. simpl. by apply IH.
Qed.

(** The master after the map phase and the hand-over, ready to reduce. *)
Definition reducing (m : Master) (idx2files : gmap Z (list cstr)) (log : job_log) : Prop :=
  ready (workers s) m ∧ m_user_id m = user_id s ∧ m_output_dir m = output_dir s ∧
  map_complete m = true ∧ reduce_complete m = false ∧
  m_num_partitions m = n_output_files s ∧
  num_reduce_msgs m = 0%Z ∧ output_files m = [] ∧
  partitions m ≡ₚ Z.of_nat <$> seq 0 n ∧
  (∀ i, (i < n)%nat → ∃ ps, ps ≡ₚ (map_to_list log).*1 ∧
    idx2files !! Z.of_nat i = Some ((λ p, intermediate_name p i) <$> ps)) ∧
  (∀ x, x ∈ m_intermediate_files m ↔
    ∃ p i, is_Some (log !! p) ∧ (i < n)%nat ∧ x = intermediate_name p i).

Lemma map_to_reduce st log :
  map_inv f s mapper file_shards (length file_shards) st log →
  ∃ m idx2files, handover (length file_shards) st.2 = Ok m ∧ map_round_end m = (assign shards [] m, true) ∧
    ∃ m', start_reduce (assign shards [] m) = Ok (m', idx2files) ∧ reducing m' idx2files log.
Proof.
  intros [Hr Hf [Hm1 Hm2] Ho Hl _ Hports Hfiles Hs].
  destruct sharding_facts as (_ & _ & Hne).
  assert (0 < length file_shards) as Hpos by (destruct file_shards; [done|simpl; lia]).
  destruct st as [g m]. cbn [fst snd] in *. destruct Hf as [Hu Hd [Hc1 Hc2] [Hc3 Hc4] [Hw1 Hw2]].
  cbn in Hu, Hd, Hc1, Hc2, Hc3, Hc4, Hw1, Hw2.
  rewrite (handover_map (workers s)); [|lia|done..|by rewrite Hm1, Hc1].
  destruct (idx2files_spec (n_output_files s) log (m_intermediate_files m))
    as (t & Ht & Ht1 & Ht2); [apply Hstart|by apply Hs| |apply Hfiles|].
  { intros p Hp. destruct (Hports p Hp) as (ip & Hip & ->).
    destruct (sf_ip _ _ Hstart ip Hip). pose proof (port_of_length ip). lia. }
  eexists _, t. split; [reflexivity|]. split.
  { apply map_round_end_ok; [apply Hr|done]. }
  unfold start_reduce. cbn. rewrite Ht. cbn [mbind res_bind].
  eexists. split; [reflexivity|]. destruct Hr. unfold reducing.
  cbn [partitions update assign eta Master_eta].
  split_and!; try done.
  change (partitions m ++ (map_to_list t).*1 ≡ₚ Z.of_nat <$> seq 0 n).
  rewrite Hw2. apply idx2files_keys; [|done].
  intros i Hi. destruct (Ht1 i Hi) as (? & _ & ->). eauto.
Qed.

Lemma run_master_ok :
  ∃ f', run_master f s file_shards = Ok (true, f') ∧ job_done f'.
Proof.
  destruct valid_facts as [Hworkers Hdir], sharding_facts as (Hsound & Hpairs & _).
  unfold run_master. cbn [shards Master_init].
  destruct (map_phase f s mapper file_shards Hmapper Hstart Hsound Hworkers (length file_shards))
    as (st & log & -> & Hinv); [done|]. cbn [mbind res_bind].
  destruct (map_to_reduce st log Hinv) as (m & t & -> & Hround & m1 & Hsr & Hred).
  cbn [mbind res_bind]. rewrite Hround. cbn [negb]. rewrite Hsr. cbn [mbind res_bind fst snd].
  destruct Hred as (Hr1 & Hu & Hd & Hmc & Hrc & Hnp & Hz & Ho & Hparts & Ht & Hfiles).
  destruct Hinv as [_ _ _ _ Hl Hall _ _ _]. rewrite take_ge in Hall by lia.
  rewrite Hpairs in Hall. pose proof (lg_dirs _ _ _ _ _ Hl) as Hdirs.
  rewrite (mkdir_dirs f s Hstart) in Hdirs.
  destruct (reduce_phase (n_output_files s) (output_dir s) (user_id s) reducer (workers s)
    (mkdir f (str "intermediate")) st.1 log (input_lines f s ≫= mapper) m1 t
    Hreducer Hgr Hl Hall (input_pairs_clean _ _ _ Hstart Hgm)) with (k := length (partitions m1))
    as (st2 & -> & Hinv2); try done.
  { rewrite Hdirs. set_solver. }
  { intros i. rewrite Hdirs, not_elem_of_union, not_elem_of_singleton.
    split; [|apply Hstart]. intros H%(f_equal dirname). by rewrite output_name_dirname in H. }
  rewrite take_ge in Hinv2 by lia. cbn [mbind res_bind].
  destruct Hinv2 as [Hr2 [_ _ [_ Hf2] [Hf3 Hf4] _] [Hm1 Hm2] Hfi Hdi Hother Hout].
  assert (Z.of_nat (length (partitions m1)) = n_output_files s) as Hlen.
  { rewrite Hparts, length_fmap, length_seq. unfold n. pose proof (sf_parts _ _ Hstart). lia. }
  rewrite (handover_reduce (workers s)); [|pose proof (sf_parts _ _ Hstart); lia|done|congruence..|by rewrite Hm1, Hf2, Hnp|
    by rewrite Hm2, Hf2, Hnp].
  cbn [mbind res_bind]. rewrite reduce_round_end_ok by (done || apply Hr2).
  cbn [negb]. match goal with |- context [cleanup_files st2.1 ?x] => set (m2 := x) end.
  assert ((cleanup_files st2.1 m2).2 = true) as Hok.
  { apply cleanup_ok. rewrite Hdi, Hdirs. set_solver. }
  rewrite (surjective_pairing (cleanup_files st2.1 m2)), Hok. eexists. split; [reflexivity|].
  assert (∀ x, x ∈ m_intermediate_files st2.2 ↔
    ∃ p i, is_Some (log !! p) ∧ (i < n)%nat ∧ x = intermediate_name p i) as Hfiles2
    by by rewrite Hfi.
  split.
  - intros i Hi. unfold contents at 1. change (fs_files ?h !! ?x) with (read_file h x).
    rewrite cleanup_read, decide_False.
    2: { cbn. rewrite Hfiles2. intros (p & j & _ & _ & H). by eapply output_not_intermediate. }
    change (default [] (read_file ?h ?x)) with (contents h x). unfold out.
    rewrite Hout by done. rewrite decide_True.
    2: { rewrite Hparts. apply list_elem_of_fmap. exists i. rewrite elem_of_seq. split; [done|lia]. }
    f_equal. unfold contents. change (fs_files ?h !! ?x) with (read_file h x).
    rewrite (lg_other _ _ _ _ _ Hl) by (intros ? ? ?; by eapply output_not_intermediate).
    by rewrite (mkdir_files f s Hstart).
  - intros p i. rewrite cleanup_read. case_decide as Hin; [done|]. cbn in Hin.
    rewrite Hfiles2 in Hin. rewrite Hother by (intros j _ ?; by eapply output_not_intermediate).
    rewrite (lg_none _ _ _ _ _ Hl), (mkdir_files f s Hstart); [apply Hstart|].
    destruct (log !! p) eqn:E; [|by left]. right. fold n.
    destruct (decide (n ≤ i)); [done|]. destruct Hin. exists p, i. split; [eauto|]. split; [lia|done].
  - intros q Hq1 Hq2. rewrite cleanup_read, decide_False.
    2: { cbn. rewrite Hfiles2. intros (p & i & _ & _ & ->). by eapply Hq1. }
    rewrite Hother, (lg_other _ _ _ _ _ Hl), (mkdir_files f s Hstart); done.
Qed.
End whole_run.

Lemma run_ok (f : fs) (config_filename : cstr) (s : MapReduceSpec)
    (mapper : MapFn) (reducer : ReduceFn) (file_shards : list FileShard) :
  read_mr_spec_from_config_file f config_filename empty_spec = Ok (true, s) →
  validate_mr_spec f s = true → startable f s →
  get_mapper factory (user_id s) = Some mapper →
  get_reducer factory (user_id s) = Some reducer →
  good_mapper mapper → good_reducer reducer →
  shard_files f s [] = Some (true, file_shards) → input_lines f s ≠ [] →
  ∃ f', run f config_filename = Ok (true, f') ∧ job_done f s mapper reducer f'.
Proof.
  intros Hconf Hv Hs Hm Hr Hgm Hgr Hsh Hin. unfold run. rewrite Hconf. cbn [mbind res_bind].
  rewrite Hv. cbn [andb negb]. unfold create_shards. rewrite Hsh. cbn [mbind res_bind negb].
  by apply run_master_ok.
Qed.

(** ** Properties *)


(** A job without input never ends: [run] accepts a specification whose
    input files are all empty, and then waits for an answer that no worker has
    been asked for. *)
Theorem run_empty_input (f : fs) (config_filename : cstr) (s : MapReduceSpec) :
  read_mr_spec_from_config_file f config_filename empty_spec = Ok (true, s) →
  validate_mr_spec f s = true →
  (∀ name, name ∈ input_files s → read_file f name = Some []) →
  run f config_filename = Err Blocked.
Proof.
  intros Hconf Hv He. unfold run. rewrite Hconf. cbn [mbind res_bind].
  rewrite Hv. cbn [andb negb]. unfold create_shards, shard_files.
  assert (∀ st sz, shard_inputs f sz (input_files s) st = Some (true, st)) as ->.
  { intros st sz. induction (input_files s) as [|name l IH]; [done|]. cbn [shard_inputs].
    unfold get_file_size. rewrite He by left. cbn. apply IH. intros. apply He. by right. }
  reflexivity.
Qed.
End job.
