(* ===== verification/JobThreads.v ===== *)
(** * A whole job with all its threads (project4)

    The threads of the master of MasterThreads.v together with the workers: a job that
    was sent is served by its worker, at any time after and in any order, and its reply
    comes back.  MapReduce.v composes the same parts in one order; here every order is
    considered in which no worker fails.  A worker serves a job in one step. *)
From S2P Require Import Prelude CxxString FileSystem MRSpec FileShard MRTasks TaskFactory.
From S2P Require Import WorkerRequest Master MasterThreads MasterRun JobLog MapReduce.
From Stdlib Require Import Ascii.

(** ** The system *)

(** The master's system, and what its pending jobs have come to: [None] until the
    worker has served the job. *)
Record job_state := JobState {
  sys : system;
  flights : list ((cstr * job) * option reply)
}.

Inductive job_event :=
| Threads (e : event)
| Serve (k : nat)
| Replied (k : nat).

(** The events of the master's own threads. *)
Definition threads_event (e : event) : bool :=
  match e with Run | Poll | Monitor | Pong _ _ => true | _ => false end.

Section system.
Context (hash : cstr → Z) (factory : TaskFactory MapFn ReduceFn).

(** A worker serves a job: the handler of WorkerRequest.v, called with the port that
    [Worker::process_map_reduce_request] cuts off the address. *)
Definition serve_job (f : fs) (ip : cstr) (j : job) : res (fs * reply) :=
  match j with
  | MapJob q => r ← handle_map_job hash factory f (port_of ip) q; mret (r.1, MapperReply r.2)
  | ReduceJob q => r ← handle_reduce_job factory f q; mret (r.1, ReducerReply r.2)
  end.

(** A new job starts unserved. *)
Definition follow (s : system) (l : list ((cstr * job) * option reply)) : job_state :=
  JobState s (l ++ ((λ x, (x, None)) <$> drop (length l) (pending s))).

Definition job_exec (e : job_event) (s : job_state) : option (res job_state) :=
  match e with
  | Threads e =>
    if threads_event e
    then (λ r : res system, s' ← r; Ok (follow s' (flights s))) <$> exec e (sys s)
    else None
  | Serve k =>
    match flights s !! k with
    | Some ((ip, j), None) => Some (
        fr ← serve_job (disk (sys s)) ip j;
        Ok (JobState (assign disk fr.1 (sys s)) (<[k := ((ip, j), Some fr.2)]> (flights s))))
    | _ => None
    end
  | Replied k =>
    match flights s !! k with
    | Some (_, Some r) =>
      (λ x : res system, s' ← x; Ok (JobState s' (delete k (flights s)))) <$> exec (Answer k r) (sys s)
    | _ => None
    end
  end.

Definition job_step (s s' : job_state) : Prop := ∃ e, job_exec e s = Some (Ok s').

(** [run_master]: the constructor of [Master] and the start of [run]. *)
Definition job_start (f : fs) (s : MapReduceSpec) (l : list FileShard) : job_state :=
  JobState (start f s l) [].

Definition job_ended (s : job_state) : Prop := finished (sys s).
End system.

(** ** What [run] does besides moving on *)

(** The fields of the master that a job depends on. *)
Definition identity (m : Master) := (m_user_id m, m_output_dir m, m_num_partitions m).

(** The rest of the state that a job depends on. *)
Definition cargo (s : system) :=
  (pending s, sent s, sent_partitions s, idx2files s, m_intermediate_files (master s), num_map_msgs (master s)).

(** Neither before [mkdir] nor at the end. *)
Definition underway (p : run_pc) : Prop := match p with Starting | Finished _ => False | _ => True end.

Inductive run_effect (s s' : system) : Prop :=
| Effect_begin :
  run_at s = Starting → cargo s' = cargo s → disk s' = mkdir (disk s) (str "intermediate") →
  cur (run_at s') = Mapping → underway (run_at s') → run_effect s s'
| Effect_map i ip sh :
  run_at s = Sending Mapping i ip → shards (master s) !! i = Some sh → disk s' = disk s →
  cargo s' = (pending s ++ [(ip, MapJob (mapper_query (m_user_id (master s)) (m_num_partitions (master s)) sh))],
    sent s ++ [sh], sent_partitions s, idx2files s, m_intermediate_files (master s), num_map_msgs (master s)) →
  cur (run_at s') = Mapping → underway (run_at s') → run_effect s s'
| Effect_reduce i ip id :
  run_at s = Sending Reducing i ip → partitions (master s) !! i = Some id → disk s' = disk s →
  cargo s' = (pending s ++ [(ip, ReduceJob (reducer_query (m_user_id (master s)) id (m_output_dir (master s))
      (default [] (idx2files s !! id))))],
    sent s, sent_partitions s ++ [id], idx2files s, m_intermediate_files (master s), num_map_msgs (master s)) →
  cur (run_at s') = Reducing → underway (run_at s') → run_effect s s'
| Effect_join g :
  run_at s = Joining Mapping → group_files (m_intermediate_files (master s)) = Ok g → disk s' = disk s →
  cargo s' = (pending s, sent s, sent_partitions s, g, m_intermediate_files (master s), num_map_msgs (master s)) →
  cur (run_at s') = Reducing → underway (run_at s') → run_effect s s'
| Effect_end :
  run_at s = Joining_monitor → cargo s' = cargo s → disk s' = (cleanup_files (disk s) (master s)).1 →
  run_at s' = Finished (cleanup_files (disk s) (master s)).2 → run_effect s s'
| Effect_none :
  cargo s' = cargo s → disk s' = disk s → cur (run_at s') = cur (run_at s) →
  underway (run_at s) → underway (run_at s') → run_effect s s'.

Lemma run_has_effect s s' :
  run_step s = Some (Ok s') → run_effect s s' ∧ identity (master s') = identity (master s).
Proof.
  unfold run_step. intros E. destruct (run_at s) as [| |ph i|ph i ip|ph|ph|ph| |b] eqn:Er; [| | | | | | | |done].
  - injection E as <-. split; [|done]. by apply Effect_begin.
  - destruct (initial_monitor_job s); [done|]. injection E as <-. split; [|done].
    apply Effect_none; rewrite ?Er; done.
  - case_decide; [|injection E as <-; split; [|done]; apply Effect_none; rewrite ?Er; done].
    unfold assign_job in E. destruct (ready_queue (master s)) as [|ip rest]; [done|].
    case_decide; injection E as <-; (split; [|done]; apply Effect_none; rewrite ?Er; done).
  - injection E as E. unfold send_job, get, client_get in E. destruct ph.
    + destruct (shards (master s) !! i) as [sh|] eqn:Esh; [|done]. cbn in E.
      destruct (ip_addr2worker (master s) !! ip) as [[c|]|]; try done. injection E as <-. split; [|done].
      by eapply Effect_map.
    + destruct (partitions (master s) !! i) as [id|] eqn:Eid; [|done]. cbn in E.
      destruct (ip_addr2worker (master s) !! ip) as [[c|]|]; try done. injection E as <-. split; [|done].
      by eapply Effect_reduce.
  - destruct (map_reduce_flag (master s)); [done|]. injection E as <-. split; [|done].
    apply Effect_none; rewrite ?Er; done.
  - destruct (trigger_monitoring (master s)); [done|]. injection E as <-.
    assert (∀ m d, round_end ph (schedule_decide (master s)) = (m, d) →
      (m_intermediate_files m, num_map_msgs m, identity m) =
      (m_intermediate_files (master s), num_map_msgs (master s), identity (master s))) as H.
    { intros m d. unfold schedule_decide. destruct ph; cbn; unfold map_round_end, reduce_round_end;
        repeat case_match; intros; simplify_eq; done. }
    destruct (round_end ph (schedule_decide (master s))) as [m d]. specialize (H m d eq_refl).
    injection H as H1 H2 H3 H4 H5. cbn. split; [|by unfold identity; rewrite H3, H4, H5].
    apply Effect_none; unfold cargo; cbn; rewrite ?Er, ?H1, ?H2; by destruct d.
  - destruct (poll_at s); try done. injection E as E. destruct ph; cbn in E.
    + unfold start_reduce in E. destruct (group_files _) as [g|] eqn:Eg; [|done]. cbn in E.
      injection E as <-. split; [|done]. by eapply Effect_join.
    + injection E as <-. split; [|done]. apply Effect_none; rewrite ?Er; done.
  - destruct (monitor_at s); try done. injection E as <-. split; [|done]. by apply Effect_end.
Qed.

#[export] Instance poll_pc_eq_dec : EqDecision poll_pc.
Proof. solve_decision. Defined.

#[export] Instance lost_dec l s : Decision (lost l s).
Proof. unfold lost. apply _. Defined.

(** ** Lemmas on flights *)

Lemma flights_fst_insert {A B} (l : list (A * B)) k x y y' :
  l !! k = Some (x, y) → (<[k := (x, y')]> l).*1 = l.*1.
Proof.
  intros H. rewrite list_fmap_insert. apply list_insert_id. by rewrite list_lookup_fmap, H.
Qed.

Lemma flights_fst_delete {A B} (l : list (A * B)) k : (delete k l).*1 = delete k l.*1.
Proof. revert k. induction l as [|x l IH]; intros [|k]; cbn; [done..|]. by rewrite <-IH. Qed.

(** What the elements but the [k]-th amount to. *)
Lemma bind_delete {A B} (g : A → list B) (l : list A) k x :
  l !! k = Some x → l ≫= g ≡ₚ g x ++ (delete k l ≫= g).
Proof. intros H. by rewrite (delete_Permutation l k x H) at 1. Qed.

Lemma delete_insert_same {A} (l : list A) k y : delete k (<[k := y]> l) = delete k l.
Proof. revert k. induction l as [|x l IH]; intros [|k]; cbn; [done..|]. f_equal. apply IH. Qed.

Lemma bind_insert {A B} (g : A → list B) (l : list A) k x y :
  l !! k = Some x → <[k := y]> l ≫= g ≡ₚ g y ++ (delete k l ≫= g).
Proof.
  intros H. rewrite (bind_delete g (<[k := y]> l) k y).
  - by rewrite delete_insert_same.
  - apply list_lookup_insert_eq. by eapply lookup_lt_Some.
Qed.

Lemma elem_of_insert_same {A} (l : list A) k x y : x ∈ <[k := y]> l → x = y ∨ x ∈ l.
Proof.
  intros [i Hi]%list_elem_of_lookup. rewrite list_lookup_insert in Hi. case_decide; simplify_eq; [by left|].
  right. by eapply list_elem_of_lookup_2.
Qed.

Lemma follow_flights s s' l new :
  l.*1 = pending s → pending s' = pending s ++ new →
  flights (follow s' l) = l ++ ((λ x, (x, None)) <$> new).
Proof.
  intros Hl Hp. unfold follow. cbn. rewrite Hp.
  assert (length l = length (pending s)) as -> by (by rewrite <-Hl, length_fmap).
  by rewrite drop_app_length.
Qed.

Lemma follow_fst s s' l new :
  l.*1 = pending s → pending s' = pending s ++ new → (flights (follow s' l)).*1 = pending s'.
Proof.
  intros Hl Hp. rewrite (follow_flights s s' l new Hl Hp), fmap_app, Hl, Hp. f_equal.
  rewrite <-list_fmap_compose. symmetry. erewrite list_fmap_ext; [by rewrite list_fmap_id|]. done.
Qed.

(** ** The invariant *)

Section run.
Context (hash : cstr → Z) (factory : TaskFactory MapFn ReduceFn).
Context (f : fs) (s : MapReduceSpec) (mapper : MapFn) (reducer : ReduceFn) (l : list FileShard).
Context (Hmapper : get_mapper factory (user_id s) = Some mapper)
  (Hreducer : get_reducer factory (user_id s) = Some reducer)
  (Hgm : good_mapper mapper) (Hgr : good_reducer reducer)
  (Hstart : startable f s) (Hvalid : validate_mr_spec f s = true)
  (Hshards : shard_files f s [] = Some (true, l)) (Hinput : input_lines f s ≠ []).

Let n := n_output_files s.
Let np := Z.to_nat n.
Let ips := MapReduce.workers s.
Let f0 := mkdir f (str "intermediate").
Let out (i : nat) := output_name (output_dir s) (Z.of_nat i).

(** The pairs that the map jobs in flight will write, and the partitions of the reduce
    jobs in flight, unless they have been served. *)
Definition flight_pairs (x : (cstr * job) * option reply) : list (cstr * cstr) :=
  match x with ((_, MapJob q), None) => query_lines f (mq_partitions q) ≫= mapper | _ => [] end.

Definition flight_ids (x : (cstr * job) * option reply) : list Z :=
  match x with ((_, ReduceJob q), None) => [rq_partition_id q] | _ => [] end.

(** The reply of a worker. *)
Definition worker_reply (ip : cstr) (j : job) : reply :=
  match j with
  | MapJob _ => MapperReply (intermediate_names (port_of ip) n)
  | ReduceJob q => ReducerReply (output_name (rq_output_dir q) (rq_partition_id q))
  end.

(** What is known of a job in flight and of its reply. *)
Definition flight_ok (groups : gmap Z (list cstr)) (ip : cstr) (j : job) (r : option reply) : Prop :=
  match j with
  | MapJob q => (∃ sh, sh ∈ l ∧ q = mapper_query (user_id s) n sh) ∧
      ∀ r', r = Some r' → r' = worker_reply ip j
  | ReduceJob q =>
      (∃ i, i < np ∧ q = reducer_query (user_id s) (Z.of_nat i) (output_dir s) (default [] (groups !! Z.of_nat i))) ∧
      ∀ r', r = Some r' → r' = worker_reply ip j
  end.

(** In the map phase the intermediate files hold the pairs of the shards that were
    served. *)
Record mapping (J : job_state) (log : job_log) : Prop := {
  mp_logged : logged hash n f0 (disk (sys J)) log;
  mp_pairs : all_pairs log ++ (flights J ≫= flight_pairs) ≡ₚ shards_pairs f mapper (sent (sys J));
  mp_ports p : is_Some (log !! p) → ∃ ip, ip ∈ ips ∧ p = port_of ip;
  mp_files x : x ∈ m_intermediate_files (master (sys J)) →
    ∃ p i, is_Some (log !! p) ∧ (i < np)%nat ∧ x = intermediate_name p i;
  mp_named p : is_Some (log !! p) →
    (∀ i, (i < np)%nat → intermediate_name p i ∈ m_intermediate_files (master (sys J))) ∨
    ∃ ip q r, ((ip, MapJob q), Some r) ∈ flights J ∧ p = port_of ip;
  mp_served ip q r : ((ip, MapJob q), Some r) ∈ flights J → is_Some (log !! port_of ip)
}.

(** In the reduce phase they hold the pairs of all lines, and the output files have
    grown by what was reduced. *)
Record reducing (J : job_state) (g : fs) (log : job_log) (served : list Z) : Prop := {
  re_logged : logged hash n f0 g log;
  re_pairs : all_pairs log ≡ₚ input_lines f s ≫= mapper;
  re_files x : x ∈ m_intermediate_files (master (sys J)) ↔
    ∃ p i, is_Some (log !! p) ∧ (i < np)%nat ∧ x = intermediate_name p i;
  re_groups i : (i < np)%nat → ∃ ps, ps ≡ₚ (map_to_list log).*1 ∧
    idx2files (sys J) !! Z.of_nat i = Some ((λ p, intermediate_name p i) <$> ps);
  re_dirs : fs_dirs (disk (sys J)) = fs_dirs g;
  re_other q : (∀ i, (i < np)%nat → q ≠ out i) → read_file (disk (sys J)) q = read_file g q;
  re_out i : (i < np)%nat → contents (disk (sys J)) (out i) = contents g (out i) ++
    (if decide (Z.of_nat i ∈ served)
     then concat (reducer_line <$> partition_text hash n reducer (input_lines f s ≫= mapper) i) else []);
  re_served : served ++ (flights J ≫= flight_ids) ≡ₚ sent_partitions (sys J)
}.

Definition disk_ok (J : job_state) : Prop :=
  match run_at (sys J) with
  | Starting => disk (sys J) = f ∧ m_intermediate_files (master (sys J)) = ∅
  | Finished _ => job_done hash f s mapper reducer (disk (sys J))
  | p =>
    match cur p with
    | Mapping => ∃ log, mapping J log
    | Reducing => ∃ g log served, reducing J g log served
    end
  end.

Record job_good (J : job_state) : Prop := {
  jg_good : good np l ips (sys J);
  jg_flights : (flights J).*1 = pending (sys J);
  jg_identity : identity (master (sys J)) = (user_id s, output_dir s, n);
  jg_jobs ip j r : ((ip, j), r) ∈ flights J → flight_ok (idx2files (sys J)) ip j r;
  jg_full : (0 < num_map_msgs (master (sys J)))%Z → full np (master (sys J));
  jg_disk : disk_ok J
}.

Lemma disk_ok_underway J :
  underway (run_at (sys J)) → disk_ok J ↔
  match cur (run_at (sys J)) with
  | Mapping => ∃ log, mapping J log
  | Reducing => ∃ g log served, reducing J g log served
  end.
Proof. intros H. unfold disk_ok. by destruct (run_at (sys J)). Qed.

Lemma np_pos : np ≠ 0.
Proof using Hstart. pose proof (sf_parts _ _ Hstart). unfold np, n. lia. Qed.

Lemma n_np : Z.of_nat np = n.
Proof using Hstart. pose proof (sf_parts _ _ Hstart). unfold np, n. lia. Qed.

(** Jobs are in flight only in the loops of [run]. *)
Lemma flight_underway J x :
  job_good J → x ∈ flights J → underway (run_at (sys J)) ∧ x.1.1 ∈ ips ∧ job_phase x.1.2 = cur (run_at (sys J)).
Proof.
  intros [Hg Hfl _ _ _ _] Hx.
  assert (x.1 ∈ pending (sys J)) as Hp by (rewrite <-Hfl; by apply list_elem_of_fmap_2).
  split; [|by apply (gd_pending _ _ _ _ Hg); destruct x as [[??]?]].
  pose proof (gd_control _ _ _ _ Hg) as Hc. unfold control in Hc.
  destruct (run_at (sys J)); try done; destruct_and? Hc;
    by match goal with H : pending _ = [] |- _ => rewrite H in Hp; apply elem_of_nil in Hp end.
Qed.

(** Another disk with the same directories. *)
Lemma good_disk S g : good np l ips S → underway (run_at S) → fs_dirs g = fs_dirs (disk S) → good np l ips (assign disk g S).
Proof.
  intros [Hf Hb Hm Hp Hw Hc Hmo Hd] Hu Hg. split; try done. cbn.
  destruct (run_at S); try done; by rewrite Hg.
Qed.

(** *** Threads *)

(** The threads but [run] move nothing. *)
Lemma other_threads e S S' :
  good np l ips S → threads_event e = true → e ≠ Run → exec e S = Some (Ok S') →
  cargo S' = cargo S ∧ disk S' = disk S ∧ run_at S' = run_at S ∧ identity (master S') = identity (master S).
Proof.
  intros Hg He Hne E. destruct e as [|j r|j| | |k id|k|p text]; try done; cbn in E.
  - unfold poll_step in E. destruct (poll_at S); try done.
    + unfold poll_handover in E. destruct (_ && _); by injection E as <-.
    + destruct (map_reduce_flag _); [|done]. by injection E as <-.
  - unfold monitor_step in E. destruct (monitor_at S); try done.
    + by injection E as <-.
    + destruct (stop_monitoring _); [by injection E as <-|].
      rewrite (send_pings_ok np l ips) in E by apply Hg. by injection E as <-.
    + case_decide; [done|]. by injection E as <-.
    + by injection E as <-.
  - unfold monitor_receives in E. destruct (monitor_at S); try done. case_decide; [|done].
    destruct (pings S !! k); [|done]. by injection E as <-.
Qed.

(** What is in the files does not depend on the rest of the state. *)
Lemma mapping_same J J' log :
  cargo (sys J') = cargo (sys J) → disk (sys J') = disk (sys J) → flights J' = flights J →
  mapping J log → mapping J' log.
Proof.
  unfold cargo. intros [= _ Hse _ _ Hfi _] Hd Hfl [H1 H2 H3 H4 H5 H6].
  split; rewrite ?Hse, ?Hfi, ?Hd, ?Hfl; done.
Qed.

Lemma reducing_same J J' g log served :
  cargo (sys J') = cargo (sys J) → disk (sys J') = disk (sys J) → flights J' = flights J →
  reducing J g log served → reducing J' g log served.
Proof.
  unfold cargo. intros [= _ _ Hsp Hi Hfi _] Hd Hfl [H1 H2 H3 H4 H5 H6 H7 H8].
  split; rewrite ?Hsp, ?Hi, ?Hfi, ?Hd, ?Hfl; done.
Qed.

Lemma follow_same_pending J S' :
  job_good J → pending S' = pending (sys J) → follow S' (flights J) = JobState S' (flights J).
Proof.
  intros Hg Hp. unfold follow. f_equal. rewrite Hp, <-(jg_flights _ Hg), drop_ge by by rewrite length_fmap.
  apply app_nil_r.
Qed.

Lemma follow_same J S' : job_good J → cargo S' = cargo (sys J) → follow S' (flights J) = JobState S' (flights J).
Proof. intros Hg [= Hp _ _ _ _ _]. by apply follow_same_pending. Qed.

Lemma still_good J S' :
  job_good J → good np l ips S' → cargo S' = cargo (sys J) → disk S' = disk (sys J) →
  identity (master S') = identity (master (sys J)) →
  run_at S' = run_at (sys J) ∨
    underway (run_at (sys J)) ∧ underway (run_at S') ∧ cur (run_at S') = cur (run_at (sys J)) →
  job_good (follow S' (flights J)).
Proof.
  intros Hg Hg' Hc Hd Hi Hr. rewrite (follow_same J S' Hg Hc).
  assert (∀ log, mapping J log → mapping (JobState S' (flights J)) log) as Hm
    by (intros; by eapply (mapping_same J)).
  assert (∀ g log served, reducing J g log served → reducing (JobState S' (flights J)) g log served) as Hre
    by (intros; by eapply (reducing_same J)).
  destruct Hg as [_ H2 H3 H4 H5 H6]. pose proof Hc as [= C1 C2 C3 C4 C5 C6]. split; cbn [sys flights].
  - done.
  - by rewrite C1.
  - by rewrite Hi.
  - intros ip j r. rewrite C4. apply H4.
  - unfold full. rewrite C5, C6. done.
  - destruct Hr as [Hr|(U & U' & Hr)].
    + unfold disk_ok in *. cbn [sys]. rewrite Hr, Hd, C5.
      destruct (run_at (sys J)); try done; repeat match goal with ph : phase |- _ => destruct ph end; naive_solver.
    + apply disk_ok_underway; [done|]. cbn [sys]. rewrite Hr.
      apply (disk_ok_underway _ U) in H6. destruct (cur (run_at (sys J))); naive_solver.
Qed.

(** *** Steps of [run] *)

Lemma identity_fields m :
  identity m = (user_id s, output_dir s, n) →
  m_user_id m = user_id s ∧ m_output_dir m = output_dir s ∧ m_num_partitions m = n.
Proof. unfold identity. by intros [= -> -> ->]. Qed.

Lemma begin_good J S' :
  job_good J → good np l ips S' → run_at (sys J) = Starting → cargo S' = cargo (sys J) →
  disk S' = mkdir (disk (sys J)) (str "intermediate") → cur (run_at S') = Mapping → underway (run_at S') →
  identity (master S') = identity (master (sys J)) → job_good (follow S' (flights J)).
Proof.
  intros Hg Hg' Er Hc Hd Hcur Hu Hi. rewrite (follow_same J S' Hg Hc).
  destruct Hg as [H1 H2 H3 H4 H5 H6]. pose proof Hc as [= C1 C2 C3 C4 C5 C6].
  unfold disk_ok in H6. rewrite Er in H6. destruct H6 as [Hf Hfi].
  pose proof (gd_control _ _ _ _ H1) as Hco. unfold control in Hco. rewrite Er in Hco. destruct Hco as (_ & _ & _ & _ & Hpe).
  pose proof (gd_background _ _ _ _ H1) as Hb. unfold background in Hb. rewrite Er in Hb. destruct Hb as (_ & _ & _ & Hse & _).
  rewrite Hpe in H2. apply fmap_nil_inv in H2. split; cbn [sys flights].
  - done.
  - by rewrite C1, Hpe, H2.
  - by rewrite Hi.
  - intros ip j r. by rewrite H2, elem_of_nil.
  - unfold full. rewrite C5, C6. done.
  - apply disk_ok_underway; [done|]. cbn [sys]. rewrite Hcur. exists ∅. split; cbn [sys flights].
    + rewrite Hd, Hf. apply logged_start. intros p i. rewrite (mkdir_files f s Hstart). apply Hstart.
    + by rewrite C2, H2, Hse.
    + intros p [? E]. by rewrite lookup_empty in E.
    + rewrite C5, Hfi. set_solver.
    + intros p [? E]. by rewrite lookup_empty in E.
    + intros ip q r. by rewrite H2, elem_of_nil.
Qed.

(** A new job joins the jobs in flight. *)
Lemma flight_sent_good J S' x :
  job_good J → good np l ips S' → pending S' = pending (sys J) ++ [x] →
  idx2files S' = idx2files (sys J) → m_intermediate_files (master S') = m_intermediate_files (master (sys J)) →
  num_map_msgs (master S') = num_map_msgs (master (sys J)) →
  identity (master S') = identity (master (sys J)) → flight_ok (idx2files (sys J)) x.1 x.2 None →
  disk_ok (JobState S' (flights J ++ [(x, None)])) → job_good (follow S' (flights J)).
Proof.
  intros [H1 H2 H3 H4 H5 H6] Hg' Hp Hidx Hfi Hm Hi Hx Hd.
  assert (follow S' (flights J) = JobState S' (flights J ++ [(x, None)])) as E.
  { pose proof (follow_flights (sys J) S' (flights J) [x] H2 Hp) as E. unfold follow in *. cbn in E. by rewrite E. }
  pose proof (follow_fst (sys J) S' (flights J) [x] H2 Hp) as Hfst. rewrite E in *. split; cbn [sys flights] in *.
  - done.
  - done.
  - by rewrite Hi.
  - intros ip j r [Hin|Hin%list_elem_of_singleton]%elem_of_app; rewrite Hidx; [by apply H4|].
    destruct x as [ip' j']. by injection Hin as -> -> ->.
  - unfold full. rewrite Hfi, Hm. done.
  - done.
Qed.

Lemma send_map_good J S' i ip sh :
  job_good J → good np l ips S' → run_at (sys J) = Sending Mapping i ip →
  shards (master (sys J)) !! i = Some sh → disk S' = disk (sys J) →
  cargo S' = (pending (sys J) ++ [(ip, MapJob (mapper_query (m_user_id (master (sys J))) (m_num_partitions (master (sys J))) sh))],
    sent (sys J) ++ [sh], sent_partitions (sys J), idx2files (sys J),
    m_intermediate_files (master (sys J)), num_map_msgs (master (sys J))) →
  cur (run_at S') = Mapping → underway (run_at S') →
  identity (master S') = identity (master (sys J)) → job_good (follow S' (flights J)).
Proof.
  intros Hg Hg' Er Hsh Hd [= C1 C2 C3 C4 C5 C6] Hcur Hu Hi.
  destruct (identity_fields _ (jg_identity _ Hg)) as (I1 & _ & I3). rewrite I1, I3 in C1.
  assert (sh ∈ l) as Hin.
  { pose proof (gd_control _ _ _ _ (jg_good _ Hg)) as Hco. unfold control in Hco. rewrite Er in Hco.
    destruct Hco as (_ & _ & _ & _ & _ & Hwk). cbn in Hwk. rewrite Hwk in Hsh. by eapply list_elem_of_lookup_2. }
  eapply flight_sent_good; try done.
  - split; [|done]. by exists sh.
  - apply disk_ok_underway; [done|]. cbn [sys]. rewrite Hcur.
    pose proof (jg_disk _ Hg) as Hdi. apply disk_ok_underway in Hdi; [|by rewrite Er].
    rewrite Er in Hdi. destruct Hdi as [log [M1 M2 M3 M4 M5 M6]]. exists log. split; cbn [sys flights].
    + by rewrite Hd.
    + rewrite C2, bind_app, shards_pairs_snoc. cbn. rewrite app_nil_r, app_assoc, M2. done.
    + done.
    + rewrite C5. done.
    + rewrite C5. intros p Hp. destruct (M5 p Hp) as [?|(ip' & q & r & ? & ?)]; [by left|right].
      exists ip', q, r. split; [|done]. apply elem_of_app. by left.
    + intros ip' q r [?|Hx%list_elem_of_singleton]%elem_of_app; [by eapply M6|done].
Qed.

(** The partitions that [run] has found are numbers below that of the output files. *)
Lemma key_below S id :
  good np l ips S → cur (run_at S) = Reducing → id ∈ keys S → ∃ i, i < np ∧ id = Z.of_nat i.
Proof.
  intros Hg Hcur Hid. pose proof (gd_background _ _ _ _ Hg) as Hb. unfold background in Hb. rewrite Hcur in Hb.
  destruct Hb as (_ & _ & Hgf & _). pose proof (keys_below _ _ ips np_pos S (gd_frame _ _ _ _ Hg) Hgf) as Hs.
  eapply elem_of_submseteq in Hid; [|exact Hs]. apply list_elem_of_fmap in Hid as (i & -> & Hi%elem_of_seq).
  exists i. split; [lia|done].
Qed.

Lemma send_reduce_good J S' i ip id :
  job_good J → good np l ips S' → run_at (sys J) = Sending Reducing i ip →
  partitions (master (sys J)) !! i = Some id → disk S' = disk (sys J) →
  cargo S' = (pending (sys J) ++ [(ip, ReduceJob (reducer_query (m_user_id (master (sys J))) id (m_output_dir (master (sys J)))
      (default [] (idx2files (sys J) !! id))))],
    sent (sys J), sent_partitions (sys J) ++ [id], idx2files (sys J),
    m_intermediate_files (master (sys J)), num_map_msgs (master (sys J))) →
  cur (run_at S') = Reducing → underway (run_at S') →
  identity (master S') = identity (master (sys J)) → job_good (follow S' (flights J)).
Proof.
  intros Hg Hg' Er Hid Hd [= C1 C2 C3 C4 C5 C6] Hcur Hu Hi.
  destruct (identity_fields _ (jg_identity _ Hg)) as (I1 & I2 & _). rewrite I1, I2 in C1.
  destruct (key_below (sys J) id) as (k & Hk & ->); [apply Hg|by rewrite Er| |].
  { pose proof (gd_control _ _ _ _ (jg_good _ Hg)) as Hco. unfold control in Hco. rewrite Er in Hco.
    destruct Hco as (_ & _ & _ & _ & _ & Hwk). cbn in Hwk. rewrite <-Hwk. by eapply list_elem_of_lookup_2. }
  eapply flight_sent_good; try done.
  - split; [|done]. by exists k.
  - apply disk_ok_underway; [done|]. cbn [sys]. rewrite Hcur.
    pose proof (jg_disk _ Hg) as Hdi. apply disk_ok_underway in Hdi; [|by rewrite Er].
    rewrite Er in Hdi. destruct Hdi as (g & log & served & [R1 R2 R3 R4 R5 R6 R7 R8]).
    exists g, log, served. split; cbn [sys flights]; rewrite ?C4, ?C5, ?Hd; try done.
    by rewrite C3, bind_app, app_assoc, R8.
Qed.

(** The map phase is over: every shard was served, and its names were reported. *)
Lemma join_good J S' g :
  job_good J → good np l ips S' → run_at (sys J) = Joining Mapping →
  group_files (m_intermediate_files (master (sys J))) = Ok g → disk S' = disk (sys J) →
  cargo S' = (pending (sys J), sent (sys J), sent_partitions (sys J), g,
    m_intermediate_files (master (sys J)), num_map_msgs (master (sys J))) →
  cur (run_at S') = Reducing → underway (run_at S') →
  identity (master S') = identity (master (sys J)) → job_good (follow S' (flights J)).
Proof.
  intros Hg Hg' Er Hgf Hd [= C1 C2 C3 C4 C5 C6] Hcur Hu Hi.
  pose proof Hg as [H1 H2 H3 H4 H5 H6].
  pose proof (gd_control _ _ _ _ H1) as Hco. pose proof (gd_background _ _ _ _ H1) as Hb.
  pose proof (gd_msgs _ _ _ _ H1) as Hm. unfold control, background in Hco, Hb. rewrite Er in Hco, Hb, Hm.
  cbn in Hb, Hm. destruct Hco as (_ & Hpe & _ & _), Hb as (_ & _ & _ & Hse & Hsp).
  rewrite firstn_all in Hse. rewrite Hpe in H2, Hm. apply fmap_nil_inv in H2. cbn in Hm.
  destruct (sharding_facts f s mapper l Hgm Hstart Hshards Hinput) as (_ & Hsp' & Hne).
  assert (0 < length l) as Hlen by (clear -Hne; destruct l; [done|cbn; lia]).
  apply disk_ok_underway in H6; [|by rewrite Er]. rewrite Er in H6. destruct H6 as [log [M1 M2 M3 M4 M5 M6]].
  rewrite H2 in M2, M5. cbn in M2. rewrite app_nil_r, Hse, Hsp' in M2.
  assert (∀ x, x ∈ m_intermediate_files (master (sys J)) ↔
    ∃ p i, is_Some (log !! p) ∧ (i < np)%nat ∧ x = intermediate_name p i) as Hfiles.
  { intros x. split; [apply M4|]. intros (p & i & Hp & Hip & ->). destruct (M5 p Hp) as [H|(? & ? & ? & Hx & _)]; [by apply H|].
    by apply elem_of_nil in Hx. }
  destruct (idx2files_spec n log (m_intermediate_files (master (sys J)))) as (t & Ht & Ht1 & _).
  { apply Hstart. }
  { intros ->. destruct (H5 ltac:(lia) 0) as (x & Hx & _); [pose proof np_pos; lia|].
    apply Hfiles in Hx as (p & ? & [? E] & _). by rewrite lookup_empty in E. }
  { intros p Hp. destruct (M3 p Hp) as (ip & Hip & ->).
    destruct (sf_ip _ _ Hstart ip Hip). pose proof (port_of_length ip). lia. }
  { apply Hfiles. }
  assert (t = g) as -> by congruence.
  rewrite (follow_same_pending J S' Hg C1), H2. split; cbn [sys flights].
  - done.
  - by rewrite C1, Hpe.
  - by rewrite Hi.
  - intros ip j r. by rewrite elem_of_nil.
  - unfold full. rewrite C5, C6. done.
  - apply disk_ok_underway; [done|]. cbn [sys]. rewrite Hcur.
    exists (disk (sys J)), log, []. split; cbn [sys flights]; rewrite ?C3, ?C4, ?C5, ?Hd; try done.
    + intros i _. by rewrite app_nil_r.
    + by rewrite Hsp.
Qed.

(** What [cleanup_files] leaves when every partition was reduced. *)
Lemma cleaned_done J g log served :
  reducing J g log served → served ≡ₚ Z.of_nat <$> seq 0 np →
  job_done hash f s mapper reducer (cleanup_files (disk (sys J)) (master (sys J))).1.
Proof.
  intros [R1 R2 R3 R4 R5 R6 R7 R8] Hserved. unfold out in R6, R7. split.
  - intros i Hi. unfold contents at 1. change (fs_files ?h !! ?x) with (read_file h x).
    rewrite cleanup_read, decide_False by (intros (p & j & _ & _ & H)%R3; by eapply output_not_intermediate).
    change (default [] (read_file ?h ?x)) with (contents h x). rewrite R7, decide_True by first
      [done | rewrite Hserved; apply list_elem_of_fmap; exists i; rewrite elem_of_seq; split; [done|unfold np, n; lia]].
    f_equal. unfold contents. change (fs_files ?h !! ?x) with (read_file h x).
    rewrite (lg_other _ _ _ _ _ R1) by (intros ? ? ?; by eapply output_not_intermediate).
    unfold f0. by rewrite (mkdir_files f s Hstart).
  - intros p i. rewrite cleanup_read. case_decide as Hin; [done|]. rewrite R3 in Hin.
    rewrite R6 by (intros j _ ?; by eapply output_not_intermediate).
    rewrite (lg_none _ _ _ _ _ R1); [unfold f0; rewrite (mkdir_files f s Hstart); apply Hstart|].
    destruct (log !! p) eqn:E; [|by left]. right. fold np.
    destruct (decide (np ≤ i)); [done|]. destruct Hin. exists p, i. split; [by rewrite E|]. split; [lia|done].
  - intros q Hq1 Hq2. rewrite cleanup_read, decide_False by (intros (p & i & _ & _ & ->)%R3; by eapply Hq1).
    rewrite R6, (lg_other _ _ _ _ _ R1) by done. unfold f0. by rewrite (mkdir_files f s Hstart).
Qed.

(** The end of the job. *)
Lemma end_good J S' :
  job_good J → good np l ips S' → run_at (sys J) = Joining_monitor → cargo S' = cargo (sys J) →
  disk S' = (cleanup_files (disk (sys J)) (master (sys J))).1 →
  run_at S' = Finished (cleanup_files (disk (sys J)) (master (sys J))).2 →
  identity (master S') = identity (master (sys J)) → job_good (follow S' (flights J)).
Proof.
  intros Hg Hg' Er Hc Hd Er' Hi. rewrite (follow_same J S' Hg Hc).
  destruct Hg as [H1 H2 H3 H4 H5 H6]. pose proof Hc as [= C1 C2 C3 C4 C5 C6].
  pose proof (gd_control _ _ _ _ H1) as Hco. pose proof (gd_background _ _ _ _ H1) as Hb.
  unfold control, background in Hco, Hb. rewrite Er in Hco, Hb. cbn in Hb.
  destruct Hco as (Hpe & Hj & _), Hb as (_ & _ & Hgf & _ & Hsp). rewrite firstn_all in Hsp.
  rewrite Hpe in H2. apply fmap_nil_inv in H2.
  assert (keys (sys J) ≡ₚ Z.of_nat <$> seq 0 np) as Hkeys.
  { apply submseteq_length_Permutation; [by apply (keys_below np l ips np_pos); [apply H1|]|].
    rewrite length_fmap, length_seq. cbn in Hj. lia. }
  apply disk_ok_underway in H6; [|by rewrite Er]. rewrite Er in H6.
  destruct H6 as (g & log & served & Hre). pose proof (re_served _ _ _ _ Hre) as Hse.
  rewrite H2 in Hse. cbn in Hse. rewrite app_nil_r, Hsp, Hkeys in Hse.
  split; cbn [sys flights].
  - done.
  - by rewrite C1, Hpe, H2.
  - by rewrite Hi.
  - intros ip j r. by rewrite H2, elem_of_nil.
  - unfold full. rewrite C5, C6. done.
  - unfold disk_ok. cbn [sys]. rewrite Er', Hd. by apply (cleaned_done J g log served).
Qed.

Lemma threads_good J e x :
  job_good J → job_exec hash factory (Threads e) J = Some x → ∃ J', x = Ok J' ∧ job_good J'.
Proof.
  intros Hg E. cbn in E. destruct (threads_event e) eqn:He; [|done].
  destruct (exec e (sys J)) as [r|] eqn:Ee; [|done]. cbn in E. injection E as <-.
  destruct (calm_good np l ips np_pos e (sys J) r) as (S' & -> & Hg'); [apply Hg|by destruct e|done|].
  eexists. split; [reflexivity|]. assert (e = Run ∨ e ≠ Run) as [->|Hne] by (destruct e; auto).
  - cbn in Ee. destruct (run_has_effect _ _ Ee) as [Heff Hi]. destruct Heff.
    + by apply begin_good.
    + by eapply send_map_good.
    + by eapply send_reduce_good.
    + by eapply join_good.
    + by apply end_good.
    + apply still_good; auto.
  - destruct (other_threads e (sys J) S') as (? & ? & ? & ?); [apply Hg|done..|].
    apply still_good; auto.
Qed.

(** *** Serving *)

(** The state after a job was served. *)
Definition served_state (J : job_state) (k : nat) (ip : cstr) (j : job) (g : fs) (r : reply) : job_state :=
  JobState (assign disk g (sys J)) (<[k := ((ip, j), Some r)]> (flights J)).

Lemma served_good J k ip j g r :
  job_good J → flights J !! k = Some ((ip, j), None) → fs_dirs g = fs_dirs (disk (sys J)) →
  flight_ok (idx2files (sys J)) ip j (Some r) → disk_ok (served_state J k ip j g r) →
  job_good (served_state J k ip j g r).
Proof.
  intros Hg Hk Hd Hr Hdi. pose proof (list_elem_of_lookup_2 _ _ _ Hk) as Hin.
  destruct (flight_underway J _ Hg Hin) as (Hu & _). destruct Hg as [H1 H2 H3 H4 H5 H6].
  split; cbn [served_state sys flights].
  - by apply good_disk.
  - rewrite (flights_fst_insert _ _ _ _ _ Hk). exact H2.
  - exact H3.
  - intros ip' j' r' [[= -> -> ->]|Hin']%elem_of_insert_same; [exact Hr|by apply H4].
  - exact H5.
  - exact Hdi.
Qed.

Lemma served_others J k ip j r x :
  flights J !! k = Some ((ip, j), None) → x ∈ flights J → x.2 ≠ None → x ∈ <[k := ((ip, j), Some r)]> (flights J).
Proof.
  intros Hk [i Hi]%list_elem_of_lookup Hx. apply list_elem_of_lookup. exists i.
  rewrite list_lookup_insert_ne; [done|]. intros ->. rewrite Hk in Hi. by injection Hi as <-.
Qed.

Lemma worker_port ip : ip ∈ ips → ("/"%char ∉ port_of ip) ∧ (Z.of_nat (length (port_of ip)) < 2 ^ 30)%Z.
Proof.
  intros Hip. destruct (sf_ip _ _ Hstart ip Hip). pose proof (port_of_length ip).
  split; [by intros ?%port_of_sub|lia].
Qed.

Lemma serve_map_good J k ip q :
  job_good J → flights J !! k = Some ((ip, MapJob q), None) →
  ∃ g names, handle_map_job hash factory (disk (sys J)) (port_of ip) q = Ok (g, names) ∧
    job_good (served_state J k ip (MapJob q) g (MapperReply names)).
Proof.
  intros Hg Hk. pose proof (list_elem_of_lookup_2 _ _ _ Hk) as Hin.
  destruct (flight_underway J _ Hg Hin) as (Hu & Hip & Hph). cbn in Hip, Hph.
  destruct (jg_jobs _ Hg _ _ _ Hin) as [(sh & Hsh & ->) _].
  pose proof (jg_disk _ Hg) as Hdi. apply (disk_ok_underway _ Hu) in Hdi. rewrite <-Hph in Hdi.
  destruct Hdi as [log [M1 M2 M3 M4 M5 M6]]. destruct (worker_port ip Hip) as [Hslash _].
  destruct (sharding_facts f s mapper l Hgm Hstart Hshards Hinput) as (Hsound & _ & _).
  set (q := mapper_query (user_id s) n sh) in *. set (port := port_of ip) in *.
  assert (∀ p, p ∈ mq_partitions q → wf_partition p ∧ sp_filename p ∈ input_files s) as Hq.
  { intros p (p' & -> & Hp')%list_elem_of_fmap. by destruct (Hsound sh p' Hsh Hp') as (? & ? & _). }
  exists (log_pairs hash n (intermediate_names port n) (disk (sys J)) (query_lines (disk (sys J)) (mq_partitions q) ≫= mapper)),
    (intermediate_names port n).
  rewrite (map_job_ok hash factory _ port q mapper Hmapper); [|apply Hstart| |].
  2: { apply Forall_forall. intros p Hp. by apply Hq. }
  2: { intros p Hp (i & Hi & _)%list_elem_of_fmap. by apply (sf_inputs _ _ Hstart _ (proj2 (Hq p Hp)) port i). }
  split; [done|]. assert (query_lines (disk (sys J)) (mq_partitions q) = query_lines f (mq_partitions q)) as ->.
  { apply query_lines_ext. intros p Hp. unfold contents. change (fs_files ?h !! ?x) with (read_file h x).
    rewrite (lg_other _ _ _ _ _ M1); [unfold f0; by rewrite (mkdir_files f s Hstart)|].
    by apply (sf_inputs _ _ Hstart), Hq. }
  apply served_good; [done|done|by rewrite log_pairs_dirs|split; [by exists sh|by intros r' [= <-]]|].
  apply disk_ok_underway; [done|]. cbn [served_state sys]. change (run_at (assign _ _ _)) with (run_at (sys J)).
  rewrite <-Hph. cbn. exists (add_log log port (query_lines f (mq_partitions q) ≫= mapper)). split; cbn [served_state sys flights].
  - apply logged_step; [done|..|done].
    + unfold f0. rewrite (mkdir_dirs f s Hstart). set_solver.
    + intros i. unfold f0. rewrite (mkdir_dirs f s Hstart), not_elem_of_union. split; [|apply Hstart].
      rewrite not_elem_of_singleton. intros H%(f_equal dirname). by rewrite intermediate_name_dirname in H.
  - rewrite all_pairs_add, (bind_insert _ _ _ _ _ Hk), <-M2, (bind_delete _ _ _ _ Hk). cbn. by rewrite <-app_assoc.
  - intros p. unfold add_log. rewrite lookup_insert_is_Some'. intros [<-|Hp']; [by exists ip|by apply M3].
  - intros x Hx. destruct (M4 x Hx) as (p & i & Hp & Hi). exists p, i. split; [|done].
    unfold add_log. rewrite lookup_insert_is_Some'. by right.
  - intros p. unfold add_log. rewrite lookup_insert_is_Some'. intros [<-|Hp].
    + right. exists ip, q, (MapperReply (intermediate_names port n)). split; [|done].
      apply list_elem_of_lookup. exists k. apply list_lookup_insert_eq. by eapply lookup_lt_Some.
    + destruct (M5 p Hp) as [?|(ip' & q' & r & Hin' & ->)]; [by left|right].
      exists ip', q', r. split; [|done]. by apply (served_others J k).
  - intros ip' q' r. unfold add_log. rewrite lookup_insert_is_Some'.
    intros [[= -> _ _]|Hin']%elem_of_insert_same; [by left|right]. by eapply M6.
Qed.

Lemma serve_reduce_good J k ip q :
  job_good J → flights J !! k = Some ((ip, ReduceJob q), None) →
  ∃ g file, handle_reduce_job factory (disk (sys J)) q = Ok (g, file) ∧
    job_good (served_state J k ip (ReduceJob q) g (ReducerReply file)).
Proof.
  intros Hg Hk. pose proof (list_elem_of_lookup_2 _ _ _ Hk) as Hin.
  destruct (flight_underway J _ Hg Hin) as (Hu & _ & Hph). cbn in Hph.
  destruct (jg_jobs _ Hg _ _ _ Hin) as [(i & Hi & ->) _].
  pose proof (jg_disk _ Hg) as Hdi. apply (disk_ok_underway _ Hu) in Hdi. rewrite <-Hph in Hdi.
  destruct Hdi as (g0 & log & served & [R1 R2 R3 R4 R5 R6 R7 R8]).
  destruct (valid_facts f s Hstart Hvalid) as [_ Hdir].
  assert (fs_dirs g0 = {[str "intermediate"]} ∪ fs_dirs f) as Hdirs
    by (rewrite (lg_dirs _ _ _ _ _ R1); apply (mkdir_dirs f s Hstart)).
  assert (∀ z, output_name (output_dir s) z ∉ fs_dirs g0) as Hnodir.
  { intros z. rewrite Hdirs, not_elem_of_union, not_elem_of_singleton.
    split; [|apply Hstart]. intros H%(f_equal dirname). by rewrite output_name_dirname in H. }
  assert (output_dir s ∈ fs_dirs g0) as Hdir' by (rewrite Hdirs; set_solver).
  set (text := partition_text hash n reducer (input_lines f s ≫= mapper) i).
  set (q := reducer_query _ _ _ _) in *.
  assert (NoDup (Z.of_nat i :: served)) as Hnew.
  { pose proof R8 as Hs. rewrite (bind_delete _ _ _ _ Hk) in Hs. cbn in Hs.
    assert (NoDup (sent_partitions (sys J))) as Hnd.
    { pose proof (gd_background _ _ _ _ (jg_good _ Hg)) as Hb. unfold background in Hb. rewrite <-Hph in Hb.
      destruct Hb as (_ & _ & _ & _ & ->). eapply sublist_NoDup; [apply (keys_NoDup (sys J))|apply sublist_take]. }
    rewrite <-Hs, Permutation_app_comm in Hnd. cbn in Hnd. apply NoDup_cons in Hnd as [H1 H2].
    apply NoDup_app in H2 as (_ & _ & H2). apply NoDup_cons. split; [|done]. intros H. apply H1. by apply elem_of_app; right. }
  apply NoDup_cons in Hnew as [Hnew _].
  exists (foldl (reducer_emit (out i)) (disk (sys J)) text), (out i).
  split.
  { apply (reduce_query_ok hash factory n (output_dir s) (user_id s) reducer f0 g0 log (input_lines f s ≫= mapper)); try done.
    - by apply input_pairs_clean.
    - intros p. apply R6. intros j _ H. by eapply output_not_intermediate. }
  apply served_good; [done|done|by rewrite reducer_emits_dirs|split; [by exists i|by intros r' [= <-]]|].
  apply disk_ok_underway; [done|]. cbn [served_state sys]. change (run_at (assign _ _ _)) with (run_at (sys J)).
  rewrite <-Hph. exists g0, log, (Z.of_nat i :: served). split; cbn [served_state sys flights];
    try change (disk (assign disk ?g (sys J))) with g; try done.
  - by rewrite reducer_emits_dirs.
  - intros x Hx. rewrite reducer_emits_read; [by apply R6|by apply Hx].
  - intros j Hj. destruct (decide (i = j)) as [<-|Hij].
    + rewrite reducer_emits_contents.
      2: { eapply writable_in; [apply output_name_dirname|by rewrite R5|rewrite R5; apply Hnodir]. }
      rewrite R7, decide_False, app_nil_r, decide_True by (done || left). done.
    + unfold contents. change (fs_files ?h !! ?x) with (read_file h x).
      rewrite reducer_emits_read by (intros H%output_name_inj; lia).
      change (default [] (read_file (disk (sys J)) ?x)) with (contents (disk (sys J)) x).
      change (default [] (read_file g0 ?x)) with (contents g0 x). rewrite R7 by done.
      f_equal. apply decide_ext. rewrite elem_of_cons. split; [by right|]. intros [?%Nat2Z.inj|?]; [congruence|done].
  - rewrite (bind_insert _ _ _ _ _ Hk), <-R8, (bind_delete _ _ _ _ Hk). cbn. by rewrite Permutation_middle.
Qed.

Lemma flight_serve_good J k x :
  job_good J → job_exec hash factory (Serve k) J = Some x → ∃ J', x = Ok J' ∧ job_good J'.
Proof.
  intros Hg E. cbn in E. destruct (flights J !! k) as [[[ip j] [r|]]|] eqn:Ek; try done. injection E as <-.
  destruct j as [q|q].
  - destruct (serve_map_good J k ip q Hg Ek) as (g & names & E & Hg'). cbn. rewrite E. by eexists.
  - destruct (serve_reduce_good J k ip q Hg Ek) as (g & file & E & Hg'). cbn. rewrite E. by eexists.
Qed.

(** *** Replies *)

Lemma elem_of_bring {A} (ls : list A) k x y : ls !! k = Some y → x ∈ ls → x = y ∨ x ∈ delete k ls.
Proof. intros Hk. rewrite (delete_Permutation ls k y Hk) at 1. by rewrite elem_of_cons. Qed.

(** The names that a worker reports. *)
Lemma names_named ip : ip ∈ ips → Forall (named np) (intermediate_names (port_of ip) n).
Proof.
  intros Hip. destruct (worker_port ip Hip) as [_ Hlen]. pose proof (sf_parts _ _ Hstart).
  apply Forall_forall. intros x (i & -> & Hi%elem_of_range)%list_elem_of_fmap.
  unfold named. rewrite file_index_intermediate by (done || unfold n in *; lia). unfold np, n in *. lia.
Qed.

Lemma names_full ip m : list_to_set (intermediate_names (port_of ip) n) ⊆ m_intermediate_files m → ip ∈ ips → full np m.
Proof.
  intros Hm Hip i Hi. destruct (worker_port ip Hip) as [_ Hlen]. pose proof (sf_parts _ _ Hstart).
  exists (intermediate_name (port_of ip) i). split; [|apply file_index_intermediate; [unfold np, n in *; lia|done]].
  apply Hm, elem_of_list_to_set, list_elem_of_fmap. exists i. split; [done|]. apply elem_of_range. lia.
Qed.

Lemma poll_call_identity m c : identity (poll_call m c) = identity m.
Proof.
  unfold poll_call, client_get. destruct (call_ok c); [|by destruct c]. case_decide; [|done].
  by destruct (ip_addr2worker _ !! _) as [[?|]|], c.
Qed.

(** What the treatment of a reply changes. *)
Lemma reply_effect J k ip j r S' :
  job_good J → flights J !! k = Some ((ip, j), Some r) → exec (Answer k r) (sys J) = Some (Ok S') →
  good np l ips S' ∧ disk S' = disk (sys J) ∧ run_at S' = run_at (sys J) ∧
  identity (master S') = identity (master (sys J)) ∧
  cargo S' = (delete k (pending (sys J)), sent (sys J), sent_partitions (sys J), idx2files (sys J),
    m_intermediate_files (master (sys J)) ∪ list_to_set (reply_files r),
    (num_map_msgs (master (sys J)) + if decide (Mapping = job_phase j) then 1 else 0)%Z).
Proof.
  intros Hg Hk E. pose proof (list_elem_of_lookup_2 _ _ _ Hk) as Hin.
  destruct (flight_underway J _ Hg Hin) as (_ & Hip & _). cbn in Hip.
  pose proof (jg_jobs _ Hg _ _ _ Hin) as Hok. destruct Hg as [H1 H2 H3 H4 H5 H6].
  assert (pending (sys J) !! k = Some (ip, j)) as Hp by (rewrite <-H2, list_lookup_fmap, Hk; done).
  assert (Forall (named np) (reply_files r)) as Hn.
  { destruct j; destruct Hok as [_ Hr]; [rewrite (Hr r eq_refl); by apply names_named|].
    rewrite (Hr r eq_refl). constructor. }
  destruct (poll_answer_good np l ips np_pos k r (sys J) (Ok S') H1 Hn E) as (S1 & [= <-] & Hg').
  split; [done|]. cbn in E. unfold poll_answer in E. destruct (poll_at (sys J)); try done. rewrite Hp in E. cbn in E.
  destruct (completed ip j (Some r)) as [call|] eqn:Ec; [|done]. cbn in E. injection E as <-.
  destruct (poll_call_ok np l ips np_pos (master (sys J)) ip j r call (gd_frame _ _ _ _ H1) Hip Ec Hn)
    as (m' & Em & _ & _ & _ & _ & _ & Hfi & Ha).
  split; [done|]. split; [done|]. split.
  - apply poll_call_identity.
  - unfold cargo. cbn. pose proof (Ha Mapping) as A. cbn in A. rewrite Em, Hfi, A. done.
Qed.

(** The names of a worker are known once its reply was treated. *)
Lemma mapping_replied J k ip q r S' log :
  job_good J → flights J !! k = Some ((ip, MapJob q), Some r) → ip ∈ ips →
  r = MapperReply (intermediate_names (port_of ip) n) → disk S' = disk (sys J) → sent S' = sent (sys J) →
  m_intermediate_files (master S') = m_intermediate_files (master (sys J)) ∪ list_to_set (reply_files r) →
  mapping J log → mapping (JobState S' (delete k (flights J))) log.
Proof.
  intros Hg Hk Hip -> Hd Hse Hfi [M1 M2 M3 M4 M5 M6]. cbn in Hfi. pose proof (list_elem_of_lookup_2 _ _ _ Hk) as Hin.
  split; cbn [sys flights]; rewrite ?Hd, ?Hse, ?Hfi; try done.
  - rewrite <-M2, (bind_delete _ _ _ _ Hk). done.
  - intros x [Hx|(i & -> & Hi%elem_of_range)%elem_of_list_to_set%list_elem_of_fmap]%elem_of_union; [by apply M4|].
    exists (port_of ip), i. split; [by eapply M6|]. split; [unfold np; lia|done].
  - intros p Hp. destruct (M5 p Hp) as [H|(ip' & q' & r & Hin' & ->)].
    + left. intros i Hi. apply elem_of_union_l, H, Hi.
    + destruct (elem_of_bring _ _ _ _ Hk Hin') as [[= -> _ _]|Hx]; [left|right; by exists ip', q', r].
      intros i Hi. apply elem_of_union_r, elem_of_list_to_set, list_elem_of_fmap. exists i.
      split; [done|]. apply elem_of_range. unfold np in Hi. lia.
  - intros ip' q' r' Hin'%elem_of_delete. by eapply M6.
Qed.

Lemma reducing_replied J k ip q r S' g log served :
  flights J !! k = Some ((ip, ReduceJob q), Some r) → disk S' = disk (sys J) →
  sent_partitions S' = sent_partitions (sys J) → idx2files S' = idx2files (sys J) →
  m_intermediate_files (master S') = m_intermediate_files (master (sys J)) →
  reducing J g log served → reducing (JobState S' (delete k (flights J))) g log served.
Proof.
  intros Hk Hd Hse Hidx Hfi [R1 R2 R3 R4 R5 R6 R7 R8].
  split; cbn [sys flights]; rewrite ?Hd, ?Hse, ?Hidx, ?Hfi; try done.
  rewrite <-R8, (bind_delete _ _ _ _ Hk). done.
Qed.

Lemma replied_good J k x :
  job_good J → job_exec hash factory (Replied k) J = Some x → ∃ J', x = Ok J' ∧ job_good J'.
Proof.
  intros Hg E. cbn in E. destruct (flights J !! k) as [[[ip j] [r|]]|] eqn:Ek; try done.
  pose proof (list_elem_of_lookup_2 _ _ _ Ek) as Hin. destruct (flight_underway J _ Hg Hin) as (Hu & Hip & Hph).
  cbn in Hip, Hph. pose proof (jg_jobs _ Hg _ _ _ Hin) as Hok.
  assert (Forall (named np) (reply_files r)) as Hn.
  { destruct j; destruct Hok as [_ Hr]; [rewrite (Hr r eq_refl); by apply names_named|].
    rewrite (Hr r eq_refl). constructor. }
  change (poll_answer k (Some r) (sys J)) with (exec (Answer k r) (sys J)) in E.
  destruct (exec (Answer k r) (sys J)) as [x'|] eqn:Ee; [|done]. cbn in E. injection E as <-.
  destruct (poll_answer_good np l ips np_pos k r (sys J) x' (jg_good _ Hg) Hn Ee) as (S' & -> & _).
  destruct (reply_effect J k ip j r S' Hg Ek Ee) as (Hg' & Hd & Er & Hi & [= C1 C2 C3 C4 C5 C6]).
  eexists. split; [reflexivity|]. split; cbn [sys flights].
  - done.
  - by rewrite flights_fst_delete, C1, (jg_flights _ Hg).
  - by rewrite Hi, (jg_identity _ Hg).
  - intros ip' j' r' Hin'%elem_of_delete. rewrite C4. by apply (jg_jobs _ Hg).
  - destruct j; destruct Hok as [_ Hr].
    + intros _. rewrite (Hr r eq_refl) in C5. apply (names_full ip); [|done]. rewrite C5. cbn. set_solver.
    + rewrite (Hr r eq_refl) in C5. cbn in C5, C6. rewrite (right_id_L ∅ (∪)) in C5. rewrite Z.add_0_r in C6.
      unfold full. rewrite C5, C6. apply (jg_full _ Hg).
  - apply disk_ok_underway; cbn [sys]; rewrite Er; [done|].
    pose proof (jg_disk _ Hg) as Hdi. apply (disk_ok_underway _ Hu) in Hdi. destruct j; cbn in Hph; rewrite <-Hph in *.
    + destruct Hdi as [log Hm]. exists log. destruct Hok as [_ Hr]. by eapply mapping_replied; eauto.
    + destruct Hdi as (g & log & served & Hre). exists g, log, served.
      destruct Hok as [_ Hr]. rewrite (Hr r eq_refl) in C5. cbn in C5. rewrite (right_id_L ∅ (∪)) in C5.
      by eapply reducing_replied.
Qed.

(** ** The job *)

Lemma job_exec_good e J x :
  job_good J → job_exec hash factory e J = Some x → ∃ J', x = Ok J' ∧ job_good J'.
Proof.
  destruct e as [e|k|k]; [apply threads_good|apply flight_serve_good|apply replied_good].
Qed.

Lemma can_start_job : can_start f s np.
Proof.
  pose proof np_pos. pose proof n_np. apply validate_mr_spec_true in Hvalid as (H1&H2&_); [|apply Hstart].
  split; [split; [done|lia]|lia|apply Hstart].
Qed.

Lemma job_start_good : job_good (job_start f s l).
Proof.
  split; cbn; try done; [|intros ip j r; by rewrite elem_of_nil].
  apply (run_starts_good f s np l), can_start_job.
Qed.

Lemma job_reachable_good J : reachable (eq (job_start f s l)) (job_step hash factory) J → job_good J.
Proof.
  revert J. apply invariant_ind; [intros J <-; apply job_start_good|].
  intros J J' Hg (e & E). destruct (job_exec_good e J _ Hg E) as (J1 & [= <-] & Hg'). done.
Qed.

(** ** The end of a job *)

Lemma worker_replies : good_replies np ips worker_reply.
Proof.
  split; intros ip j.
  - by destruct j.
  - intros Hip. destruct j; [by apply names_named|constructor].
  - intros i Hip Hi. destruct (worker_port ip Hip) as [_ Hlen]. pose proof (sf_parts _ _ Hstart).
    exists (intermediate_name (port_of ip) i). split; [|apply file_index_intermediate; [unfold np, n in *; lia|done]].
    apply list_elem_of_fmap. exists i. split; [done|]. apply elem_of_range. unfold np in Hi. lia.
Qed.

(** The jobs in flight that have not been served. *)
Definition unserved_job (x : (cstr * job) * option reply) : list unit :=
  match x.2 with None => [tt] | Some _ => [] end.

Definition unserved (fl : list ((cstr * job) * option reply)) : nat := length (fl ≫= unserved_job).

Definition job_rank (J : job_state) : nat := 2 * rank np l ips (sys J) + unserved (flights J).

Lemma threads_unserved J e S' :
  job_good J → threads_event e = true → exec e (sys J) = Some (Ok S') →
  unserved (flights (follow S' (flights J))) ≤ S (unserved (flights J)).
Proof.
  intros Hg He E. assert (∃ new, pending S' = pending (sys J) ++ new ∧ length new ≤ 1) as (new & Hp & Hn).
  { assert (e = Run ∨ e ≠ Run) as [->|Hne] by (destruct e; auto).
    - destruct (run_has_effect _ _ E) as [Heff _]. destruct Heff as [? Hc|i ip sh ? ? ? Hc|i ip id ? ? ? Hc|g ? ? ? Hc|? Hc|Hc];
        injection Hc as C1 _ _ _ _ _; rewrite C1; try (exists []; by rewrite app_nil_r; auto with lia);
        by (eexists; split; [done|]; cbn; lia).
    - destruct (other_threads e (sys J) S') as (Hc & _); [apply Hg|done..|]. injection Hc as C1 _ _ _ _ _.
      exists []. rewrite C1, app_nil_r. split; [done|cbn; lia]. }
  rewrite (follow_flights (sys J) S' (flights J) new (jg_flights _ Hg) Hp). unfold unserved.
  rewrite bind_app, length_app. destruct new as [|x [|]]; cbn in *; lia.
Qed.

Lemma job_closer J :
  job_good J → hopeful np l (sys J) →
  job_ended J ∨ ∃ J', job_step hash factory J J' ∧ (job_good J' ∧ hopeful np l (sys J')) ∧ job_rank J' < job_rank J.
Proof.
  intros Hg Hh. pose proof can_start_job as Hcs. pose proof (can_start_workers _ _ _ Hcs) as Hw.
  pose proof (cs_workers _ _ _ Hcs) as Hw'.
  destruct (run_closer np l ips ltac:(pose proof np_pos; lia) ltac:(unfold ips; change (MapReduce.workers s) with (MasterThreads.workers s); lia)
    _ worker_replies (sys J) (jg_good _ Hg) Hh) as [?|(e & S' & He & E & Hg' & Hh' & Hr)]; [by left|right].
  assert (∀ e J', job_exec hash factory e J = Some (Ok J') → hopeful np l (sys J') → job_rank J' < job_rank J →
    ∃ J', job_step hash factory J J' ∧ (job_good J' ∧ hopeful np l (sys J')) ∧ job_rank J' < job_rank J) as Hstep.
  { intros e1 J' E1 H1 H2. exists J'. destruct (job_exec_good e1 J _ Hg E1) as (J1 & [= <-] & ?).
    split; [by exists e1|done]. }
  destruct (threads_event e) eqn:Ht.
  { eapply (Hstep (Threads e)); [cbn; by rewrite Ht, E|done|].
    pose proof (threads_unserved J e S' Hg Ht E). unfold job_rank. cbn [sys follow flights] in *. lia. }
  destruct e as [|k r|k| | |k id|k|p text]; try done. destruct He as (-> & ip & jb & Hp & ->).
  assert (∃ o, flights J !! 0 = Some ((ip, jb), o)) as [o Ho].
  { rewrite <-(jg_flights _ Hg), list_lookup_fmap in Hp. destruct (flights J !! 0) as [[x o]|]; [|done].
    cbn in Hp. injection Hp as ->. by exists o. }
  pose proof (list_elem_of_lookup_2 _ _ _ Ho) as Hin. pose proof (jg_jobs _ Hg _ _ _ Hin) as Hok.
  destruct o as [r|].
  - assert (r = worker_reply ip jb) as -> by (destruct jb; destruct Hok as [_ Hok]; by apply Hok).
    eapply (Hstep (Replied 0)); [cbn [job_exec]; rewrite Ho, E; reflexivity|done|].
    unfold job_rank, unserved. cbn [sys flights]. rewrite (bind_delete unserved_job _ _ _ Ho). cbn. lia.
  - destruct (job_exec hash factory (Serve 0) J) as [x|] eqn:Es; [|by cbn in Es; rewrite Ho in Es].
    destruct (flight_serve_good J 0 x Hg Es) as (J' & -> & _). apply (Hstep _ _ Es).
    + cbn in Es. rewrite Ho in Es. injection Es as Es. destruct (serve_job _ _ _ _ _) as [fr|]; [|done].
      cbn in Es. injection Es as <-. exact Hh.
    + cbn in Es. rewrite Ho in Es. injection Es as Es. destruct (serve_job _ _ _ _ _) as [fr|]; [|done].
      cbn in Es. injection Es as <-. unfold job_rank, unserved. cbn [sys flights].
      rewrite (bind_insert unserved_job _ _ _ _ Ho), (bind_delete unserved_job _ _ _ Ho).
      change (rank np l ips (assign _ _ _)) with (rank np l ips (sys J)). cbn. lia.
Qed.

(** All names are known once a shard was mapped. *)
Lemma job_not_short J : job_good J → ¬ short np l (sys J).
Proof.
  intros Hg [H1 H2]. apply H2, (jg_full _ Hg). rewrite H1.
  destruct (sharding_facts f s mapper l Hgm Hstart Hshards Hinput) as (_ & _ & Hne).
  clear -Hne. destruct l; [done|cbn; lia].
Qed.

Lemma job_can_end J :
  job_good J → ¬ lost l (sys J) → ∃ J', rtc (job_step hash factory) J J' ∧ job_ended J'.
Proof.
  intros Hg Hl. apply (rank_reaches _ (λ J, job_good J ∧ hopeful np l (sys J)) job_ended job_rank).
  - intros J1 [Hg1 Hh1]. by apply job_closer.
  - split; [done|]. split; [done|by apply job_not_short].
Qed.

(** A lost job stays lost. *)
Lemma job_lost_forever J J' :
  job_good J → lost l (sys J) → rtc (job_step hash factory) J J' → ¬ job_ended J'.
Proof.
  intros Hg Hl Hr. apply (lost_stranded np l ips (sys J) np_pos (jg_good _ Hg)) in Hl.
  assert (stranded (sys J') ∧ job_good J') as [(_ & _ & Hs) _]; [|intros [b Er]; by rewrite Er in Hs].
  induction Hr as [|J1 J2 J3 (e & E) _ IH]; [done|].
  destruct (job_exec_good e J1 _ Hg E) as (J2' & [= <-] & Hg2). apply IH; [done|].
  destruct e as [e|k|k]; cbn in E.
  - destruct (threads_event e); [|done]. destruct (exec e (sys J1)) as [r|] eqn:Ee; [|done]. cbn in E.
    injection E as E. destruct r as [S'|]; [|done]. cbn in E. injection E as <-.
    apply (stranded_step (sys J1)); [done|]. by exists e.
  - destruct (flights J1 !! k) as [[[ip j] [r|]]|] eqn:Ek; try done. exfalso.
    destruct Hl as (_ & Hpe & _). pose proof (jg_flights _ Hg) as Hf. rewrite Hpe in Hf. apply fmap_nil_inv in Hf.
    by rewrite Hf in Ek.
  - destruct (flights J1 !! k) as [[[ip j] [r|]]|] eqn:Ek; try done.
    change (poll_answer k (Some r) (sys J1)) with (exec (Answer k r) (sys J1)) in E.
    destruct (exec (Answer k r) (sys J1)) as [x'|] eqn:Ee; [|done]. cbn in E.
    injection E as E. destruct x' as [S'|]; [|done]. cbn in E. injection E as <-.
    apply (stranded_step (sys J1)); [done|]. by eexists.
Qed.
End run.

(** ** Properties *)

Section job.
Context (hash : cstr → Z) (factory : TaskFactory MapFn ReduceFn).
Context (f : fs) (s : MapReduceSpec) (mapper : MapFn) (reducer : ReduceFn) (l : list FileShard).

(** A specification that [MapReduceImpl::run] accepts, with some input. *)
Record runnable : Prop := {
  rn_mapper : get_mapper factory (user_id s) = Some mapper;
  rn_reducer : get_reducer factory (user_id s) = Some reducer;
  rn_good_mapper : good_mapper mapper;
  rn_good_reducer : good_reducer reducer;
  rn_startable : startable f s;
  rn_valid : validate_mr_spec f s = true;
  rn_shards : shard_files f s [] = Some (true, l);
  rn_input : input_lines f s ≠ []
}.

(** The states that a job can come to. *)
Definition job_reachable (J : job_state) : Prop := reachable (eq (job_start f s l)) (job_step hash factory) J.

Lemma runnable_good J : runnable → job_reachable J → job_good hash f s mapper reducer l J.
Proof. intros [] HJ. by eapply job_reachable_good. Qed.

(** C2: a job is correct in every order of its threads: whatever the interleaving of [run],
    the polling threads, [monitor], the workers that serve their jobs and the replies,
    no step fails, and when [run] returns it returns true and has left the output files
    of all partitions extended by what the reducer emits for their keys, no intermediate
    file, and every other file as it was. *)
Theorem job_correct (J : job_state) :
  runnable → job_reachable J →
  (∀ e x, job_exec hash factory e J = Some x → ∃ J', x = Ok J') ∧
  (∀ b, run_at (sys J) = Finished b → b = true ∧ job_done hash f s mapper reducer (disk (sys J))).
Proof.
  intros Hr HJ%runnable_good; [|done]. split.
  - intros e x E. destruct Hr.
    assert (∃ J', x = Ok J' ∧ job_good hash f s mapper reducer l J') as (J' & -> & _) by by eapply job_exec_good.
    by eexists.
  - intros b Er. pose proof (gd_control _ _ _ _ (jg_good _ _ _ _ _ _ _ HJ)) as Hc. unfold control in Hc.
    pose proof (jg_disk _ _ _ _ _ _ _ HJ) as Hd. unfold disk_ok in Hd. rewrite Er in Hc, Hd. by destruct Hc as (_ & _ & _ & ->).
Qed.

(** C5: a job can be brought to its end from every state it can come to, unless the last
    answer of a phase was treated before [run] set [map_reduce_flag]; then it never
    ends. *)
Theorem job_ends (J : job_state) :
  runnable → job_reachable J →
  (∃ J', rtc (job_step hash factory) J J' ∧ job_ended J') ∨
  lost l (sys J) ∧ ∀ J', rtc (job_step hash factory) J J' → ¬ job_ended J'.
Proof.
  intros Hr HJ%runnable_good; [|done]. destruct Hr.
  destruct (decide (lost l (sys J))) as [Hl|Hl]; [right|left].
  - split; [done|]. intros J'. by eapply job_lost_forever.
  - by eapply job_can_end.
Qed.

Lemma done_contents g g' q :
  job_done hash f s mapper reducer g → job_done hash f s mapper reducer g' → contents g q = contents g' q.
Proof.
  intros [O1 C1 R1] [O2 C2 R2].
  destruct (decide (Exists (λ i, q = output_name (output_dir s) (Z.of_nat i)) (seq 0 (Z.to_nat (n_output_files s)))))
    as [(i & Hi%elem_of_seq & ->)%list.Exists_exists|Hno].
  { rewrite O1, O2 by lia. done. }
  assert (∀ i, i < Z.to_nat (n_output_files s) → q ≠ output_name (output_dir s) (Z.of_nat i)) as Hout.
  { intros i Hi ->. apply Hno, list.Exists_exists. exists i. split; [apply elem_of_seq; lia|done]. }
  unfold contents. change (fs_files ?h !! ?x) with (read_file h x).
  destruct (read_file g q) as [t|] eqn:E1, (read_file g' q) as [t'|] eqn:E2; try done.
  all: assert (∀ p i, q ≠ intermediate_name p i) as Hin by (intros p i ->; congruence).
  all: rewrite R1 in E1 by done; rewrite R2 in E2 by done; congruence.
Qed.

(** C4: the order does not matter: any two runs of a job that end, and the run that
    answers every job before the next is sent, leave the same files. *)
Theorem any_order_same_files (J J' : job_state) :
  runnable → job_reachable J → job_reachable J' → job_ended J → job_ended J' →
  ∃ g, run_master hash factory f s l = Ok (true, g) ∧
    ∀ q, contents (disk (sys J)) q = contents (disk (sys J')) q ∧ contents (disk (sys J)) q = contents g q.
Proof.
  intros Hr HJ%runnable_good HJ'%runnable_good [b E] [b' E']; [|done..]. destruct Hr.
  assert (∃ g, run_master hash factory f s l = Ok (true, g) ∧ job_done hash f s mapper reducer g) as (g & Hg & Hd)
    by by apply run_master_ok.
  exists g. split; [done|]. intros q. apply jg_disk in HJ, HJ'. unfold disk_ok in HJ, HJ'. rewrite E in HJ. rewrite E' in HJ'.
  split; by apply done_contents.
Qed.
End job.

(** ** Runs *)

(** The events of a list that can happen, in its order. *)
Definition play_job (hash : cstr → Z) (factory : TaskFactory MapFn ReduceFn) (J : job_state)
    (es : list job_event) : job_state :=
  foldl (λ J e, match job_exec hash factory e J with Some (Ok J') => J' | _ => J end) J es.

Lemma play_job_reachable hash factory f s l J es :
  job_reachable hash factory f s l J → job_reachable hash factory f s l (play_job hash factory J es).
Proof.
  revert J. induction es as [|e es IH]; intros J HJ; [done|]. apply IH. cbn.
  destruct (job_exec hash factory e J) as [[J'|]|] eqn:E; [|done..]. eapply reachable_step; [exact HJ|]. by exists e.
Qed.
