(* ===== verification/WordCount.v ===== *)
(** * Counting words (project4/test/user_tasks.cc on the framework)

    The job that the repository's tests run: [UserMapper] and [UserReducer]
    registered under one user id.  [MapReduce.v] gives what a job does for any
    tasks; here it is what the output files of this one contain. *)
From S2P Require Import Prelude CxxString FileSystem MRSpec FileShard MRTasks.
From S2P Require Import TaskFactory UserTasks WorkerRequest Master MasterThreads MasterRun JobLog MapReduce JobThreads.
From Stdlib Require Import Ascii.

(** [register_tasks("cs6210", get_mapper, get_reducer)] *)
Definition word_count_factory : TaskFactory MapFn ReduceFn :=
  (register_tasks instance0 (str "cs6210") user_map user_reduce).1.

(** The words of a text and the number of occurrences of one. *)
Definition words (lines : list cstr) : list cstr := lines ≫= λ l, tokens (c_str l).

Definition occurrences (w : cstr) (ws : list cstr) : nat := length (filter (.= w) ws).

(** The lines of an output file: the words of the partition in ascending order,
    each with its number of occurrences. *)
Definition counts (hash : cstr → Z) (n : Z) (i : nat) (ws : list cstr) : list (cstr * cstr) :=
  (λ w, (w, to_string (Z.of_nat (occurrences w ws)))) <$>
    merge_sort str_le (remove_dups (filter (λ w, bucket hash n w = i) ws)).

(** ** The tasks meet the requirements of the framework *)

Lemma c_str_NUL s : NUL ∉ c_str s.
Proof.
  induction s as [|a s IH]; cbn [c_str]; [set_solver|]. case_decide; set_solver.
Qed.

Lemma c_str_elem a s : a ∈ c_str s → a ∈ s.
Proof.
  induction s as [|b s IH]; cbn [c_str]; [done|]. case_decide; set_solver.
Qed.

Lemma c_str_length s : length (c_str s) ≤ length s.
Proof. induction s as [|b s IH]; cbn [c_str]; [done|]. case_decide; simpl; lia. Qed.

Lemma tokens_length s t : t ∈ tokens s → length t ≤ length s.
Proof.
  revert t. induction s as [|a s IH]; intros t Ht; [by apply elem_of_nil in Ht|].
  assert (∀ t, t ∈ tokens s → length t ≤ length (a :: s)) as IH'
    by (intros u Hu%IH; simpl; lia).
  cbn [tokens] in Ht. destruct (is_delim a); [by apply IH'|].
  destruct s as [|b s]; [apply list_elem_of_singleton in Ht as ->; simpl; lia|].
  destruct (is_delim b).
  - apply elem_of_cons in Ht as [->|Ht]; [simpl; lia|by apply IH'].
  - destruct (tokens (b :: s)) as [|u us] eqn:E.
    + apply list_elem_of_singleton in Ht as ->. simpl. lia.
    + apply elem_of_cons in Ht as [->|Ht].
      * pose proof (IH u ltac:(left)). simpl in *. lia.
      * apply IH'. by right.
Qed.

Lemma user_map_good : good_mapper user_map.
Proof.
  split.
  - intros l. unfold user_map. by rewrite (c_str_id (c_str l)) by apply c_str_NUL.
  - intros l Hnl Hlen. apply Forall_forall.
    intros kv (t & -> & Ht)%list_elem_of_fmap. unfold clean_pair. cbn [fst snd].
    destruct (tokens_chars _ _ Ht) as [_ Hchars].
    pose proof (tokens_length _ _ Ht). pose proof (c_str_length l).
    split; [|split; [|split]].
    + eapply (delim_notin ","%char); [done|]. eapply Forall_impl; [exact Hchars|]. naive_solver.
    + intros Hin. rewrite Forall_forall in Hchars. destruct (Hchars _ Hin) as [_ Hc].
      by apply c_str_elem in Hc.
    + chars.
    + unfold pair_line. cbn [fst snd]. rewrite !length_app. simpl. lia.
Qed.

(** Sums of [int] do not depend on the order. *)
#[export] Instance accumulate_Permutation : Proper ((≡ₚ) ==> (=)) accumulate.
Proof.
  intros l1 l2 H. unfold accumulate. generalize 0%Z.
  induction H as [|x l1 l2 _ IH|x y l|? ? ? _ IH1 _ IH2]; intros a; simpl.
  - done.
  - apply IH.
  - f_equal. unfold i32. word.
  - by rewrite IH1.
Qed.

Lemma user_reduce_good : good_reducer user_reduce.
Proof. intros k vs vs' H. unfold user_reduce. by rewrite H. Qed.

(** ** What the tasks compute *)

Lemma user_map_words lines : lines ≫= user_map = (λ w, (w, str "1")) <$> words lines.
Proof.
  unfold words. induction lines as [|l lines IH]; [done|].
  by rewrite !bind_cons, fmap_app, IH.
Qed.

Lemma bucket_pairs_words hash n i ws :
  bucket_pairs hash n i ((λ w, (w, str "1")) <$> ws) =
  (λ w, (w, str "1")) <$> filter (λ w, bucket hash n w = i) ws.
Proof.
  unfold bucket_pairs. induction ws as [|w ws IH]; [done|].
  rewrite fmap_cons, !filter_cons. cbn [fst]. case_decide; [|done].
  by rewrite fmap_cons, IH.
Qed.

Lemma values_of_words ws w :
  values_of ((λ w, (w, str "1")) <$> ws) w = replicate (occurrences w ws) (str "1").
Proof.
  unfold values_of, occurrences. induction ws as [|v ws IH]; [done|].
  rewrite fmap_cons, !filter_cons. cbn [fst]. case_decide; [|done].
  rewrite fmap_cons, IH. done.
Qed.

Lemma occurrences_bucket hash n i w ws :
  bucket hash n w = i → occurrences w (filter (λ w, bucket hash n w = i) ws) = occurrences w ws.
Proof.
  intros H. unfold occurrences. f_equal. rewrite list_filter_filter.
  apply list_filter_iff. intros v. split; [by intros [? _]|]. intros ->. done.
Qed.

Lemma expected_counts hash s lines i :
  (Z.of_nat (length (words lines)) < 2 ^ 31)%Z →
  expected_output hash s user_map user_reduce lines i =
  counts hash (n_output_files s) i (words lines).
Proof.
  intros Hlen. unfold expected_output, counts, group.
  rewrite user_map_words, bucket_pairs_words.
  set (ws := filter (λ w, bucket hash (n_output_files s) w = i) (words lines)).
  rewrite <-list_fmap_compose. unfold compose. cbn [fst]. rewrite list_fmap_id.
  assert (∀ w, w ∈ merge_sort str_le (remove_dups ws) →
    user_reduce w (values_of ((λ w, (w, str "1")) <$> ws) w) =
    [(w, to_string (Z.of_nat (occurrences w (words lines))))]) as Hw.
  { intros w Hw. rewrite merge_sort_Permutation, elem_of_remove_dups in Hw.
    unfold ws in Hw. apply list_elem_of_filter in Hw as [Hb _].
    rewrite values_of_words, <-(occurrences_bucket hash (n_output_files s) i w (words lines) Hb).
    apply user_reduce_ones. fold ws. unfold occurrences.
    pose proof (length_filter (.= w) ws).
    pose proof (length_filter (λ w, bucket hash (n_output_files s) w = i) (words lines)) as Hl.
    fold ws in Hl. lia. }
  induction (merge_sort str_le (remove_dups ws)) as [|w l IH]; [done|].
  rewrite !fmap_cons, bind_cons. cbn [fst snd]. rewrite Hw by left. simpl. f_equal.
  apply IH. intros. apply Hw. by right.
Qed.

(** ** Properties *)

(** Every output file of [f'] is that of [f] with a line for every word of the input that
    belongs to the partition. *)
Definition counted (hash : cstr → Z) (f : fs) (s : MapReduceSpec) (f' : fs) : Prop :=
  ∀ i, (i < Z.to_nat (n_output_files s))%nat →
    contents f' (output_name (output_dir s) (Z.of_nat i)) =
    contents f (output_name (output_dir s) (Z.of_nat i)) ++
      concat (reducer_line <$> counts hash (n_output_files s) i (words (input_lines f s))).

Lemma done_counted hash f s f' :
  (Z.of_nat (length (words (input_lines f s))) < 2 ^ 31)%Z →
  job_done hash f s user_map user_reduce f' → counted hash f s f'.
Proof. intros Hlen [Hout _ _] i Hi. rewrite Hout by done. by rewrite expected_counts. Qed.

Lemma word_count_runnable f s l :
  validate_mr_spec f s = true → startable f s → user_id s = str "cs6210" →
  shard_files f s [] = Some (true, l) → input_lines f s ≠ [] →
  runnable word_count_factory f s user_map user_reduce l.
Proof.
  intros Hv Hs Hu Hsh Hin. split; try (done || by rewrite Hu); [apply user_map_good|apply user_reduce_good].
Qed.

(** C3: the word count of the repository's tests: after a run, and after every order of
    the threads of a run that ends, the output file of a partition has one new line for
    every word of the input that belongs to the partition, in ascending order, with the
    number of its occurrences in all the input files. *)
Theorem word_count_run (hash : cstr → Z) (f : fs) (config_filename : cstr) (s : MapReduceSpec)
    (file_shards : list FileShard) :
  read_mr_spec_from_config_file f config_filename empty_spec = Ok (true, s) →
  validate_mr_spec f s = true → startable f s → user_id s = str "cs6210" →
  shard_files f s [] = Some (true, file_shards) → input_lines f s ≠ [] →
  (Z.of_nat (length (words (input_lines f s))) < 2 ^ 31)%Z →
  (∃ f', run hash word_count_factory f config_filename = Ok (true, f') ∧ counted hash f s f') ∧
  (∀ J, job_reachable hash word_count_factory f s file_shards J → job_ended J →
    run_at (sys J) = Finished true ∧ counted hash f s (disk (sys J))).
Proof.
  intros Hconf Hv Hs Hu Hsh Hin Hlen.
  pose proof (word_count_runnable f s file_shards Hv Hs Hu Hsh Hin) as Hr. split.
  - assert (∃ f', run hash word_count_factory f config_filename = Ok (true, f') ∧
      job_done hash f s user_map user_reduce f') as (f' & Hrun & Hd) by (destruct Hr; by eapply run_ok).
    exists f'. split; [done|]. by apply done_counted.
  - intros J HJ [b Er]. assert (job_good hash f s user_map user_reduce file_shards J) as Hg by by eapply runnable_good.
    pose proof (gd_control _ _ _ _ (jg_good _ _ _ _ _ _ _ Hg)) as Hc. pose proof (jg_disk _ _ _ _ _ _ _ Hg) as Hd.
    unfold control in Hc. unfold disk_ok in Hd. rewrite Er in *. destruct Hc as (_ & _ & _ & ->).
    split; [done|]. by apply done_counted.
Qed.

(** ** Witnesses *)

Definition demo_job_spec : MapReduceSpec := {|
  n_workers := 2; worker_ipaddr_ports := [str "localhost:50051"; str "localhost:50052"];
  input_files := [str "in1"]; output_dir := str "output"; n_output_files := 2;
  map_kilobytes := 1; user_id := str "cs6210" |}.

Definition demo_job_fs : fs :=
  FS {[ str "/d/config.ini" := print_spec demo_job_spec;
        str "in1" := str "to be or not to be" ++ [nl] ++ str "that, is" ]} {[ str "output" ]}.

Definition demo_job_shards : list FileShard :=
  [Shard [str "in1"] [(0%Z, 27%Z)]].

Lemma demo_job_config :
  read_mr_spec_from_config_file demo_job_fs (str "/d/config.ini") empty_spec = Ok (true, demo_job_spec).
Proof. vm_compute. reflexivity. Qed.

Lemma demo_job_startable : startable demo_job_fs demo_job_spec.
Proof.
  split.
  - by refine (bool_decide_unpack _ _).
  - simpl. lia.
  - simpl. lia.
  - intros ip Hip. change (workers demo_job_spec) with (worker_ipaddr_ports demo_job_spec) in Hip.
    cbn [worker_ipaddr_ports demo_job_spec] in Hip. rewrite !elem_of_cons in Hip.
    destruct Hip as [->|[->|Hip]]; [split; [chars|simpl; lia]..|by apply elem_of_nil in Hip].
  - intros name Hn. cbn in Hn. apply list_elem_of_singleton in Hn as ->. intros p i H. discriminate H.
  - reflexivity.
  - intros p i. unfold read_file, demo_job_fs. cbn [fs_files].
    by rewrite lookup_insert_ne, lookup_singleton_ne by (intros H; discriminate H).
  - intros p i. cbn [fs_dirs demo_job_fs]. rewrite not_elem_of_singleton. intros H. discriminate H.
  - intros i. cbn [fs_dirs demo_job_fs]. rewrite not_elem_of_singleton.
    intros H%(f_equal dirname). by rewrite output_name_dirname in H.
  - intros name Hn. cbn in Hn. apply list_elem_of_singleton in Hn as ->. vm_compute. done.
Qed.


Definition demo_empty_fs : fs :=
  FS {[ str "/d/config.ini" := print_spec demo_job_spec; str "in1" := [] ]} {[ str "output" ]}.

Lemma run_empty_input_witness :
  run demo_hash word_count_factory demo_empty_fs (str "/d/config.ini") = Err Blocked.
Proof.
  apply (run_empty_input demo_hash word_count_factory demo_empty_fs (str "/d/config.ini") demo_job_spec);
    [vm_compute; reflexivity|vm_compute; reflexivity|].
  intros name Hn. cbn in Hn. apply list_elem_of_singleton in Hn as ->. reflexivity.
Defined.

(** A schedule of the same job: [run] sends both partitions before either is reduced, and
    they are reduced and answered in the other order. *)
Definition demo_turn : list job_event :=
  Threads <$> [MasterThreads.Monitor; Pong 1 (str "localhost:50052"); Pong 0 (str "localhost:50051"); MasterThreads.Monitor; MasterThreads.Monitor].

Definition demo_map_schedule : list job_event :=
  (Threads <$> [Run; MasterThreads.Monitor]) ++ demo_turn ++ (Threads <$> [Run; Run; Run]) ++
  [Serve 0; Threads Run; Replied 0; Threads Poll; Threads Run] ++ demo_turn ++ (Threads <$> [Run; Poll; Run]).

Definition demo_schedule : list job_event :=
  demo_map_schedule ++ (Threads <$> [Run; Run; Run; Run]) ++
  [Serve 1; Replied 1; Serve 0; Threads Poll; Threads Run; Replied 0; Threads Poll; Threads Run] ++ demo_turn ++
  (Threads <$> [Run; Poll; Run; MasterThreads.Monitor; Run]).

(** The same job with every partition reduced and answered before the next is sent. *)
Definition demo_schedule_in_turn : list job_event :=
  demo_map_schedule ++ (Threads <$> [Run; Run]) ++ [Serve 0; Replied 0; Threads Poll; Threads Run; Threads Run; Serve 0;
  Threads Run; Replied 0; Threads Poll; Threads Run] ++ demo_turn ++
  (Threads <$> [Run; Poll; Run; MasterThreads.Monitor; Run]).

Definition demo_job (es : list job_event) : job_state :=
  play_job demo_hash word_count_factory (job_start demo_job_fs demo_job_spec demo_job_shards) es.

Lemma demo_job_reachable es :
  job_reachable demo_hash word_count_factory demo_job_fs demo_job_spec demo_job_shards (demo_job es).
Proof. apply play_job_reachable. by apply reachable_init. Qed.

Lemma demo_job_ended : run_at (sys (demo_job demo_schedule)) = Finished true.
Proof. vm_compute. reflexivity. Qed.

Lemma demo_job_in_turn_ended : run_at (sys (demo_job demo_schedule_in_turn)) = Finished true.
Proof. vm_compute. reflexivity. Qed.

Lemma demo_job_runnable : runnable word_count_factory demo_job_fs demo_job_spec user_map user_reduce demo_job_shards.
Proof.
  apply word_count_runnable;
    [vm_compute; reflexivity|apply demo_job_startable|reflexivity|vm_compute; reflexivity|by vm_compute].
Qed.

Lemma word_count_run_witness :
  (∃ f', run demo_hash word_count_factory demo_job_fs (str "/d/config.ini") = Ok (true, f') ∧
    counted demo_hash demo_job_fs demo_job_spec f') ∧
  counted demo_hash demo_job_fs demo_job_spec (disk (sys (demo_job demo_schedule))).
Proof.
  destruct (word_count_run demo_hash demo_job_fs (str "/d/config.ini") demo_job_spec demo_job_shards) as [H1 H2];
    [apply demo_job_config|vm_compute; reflexivity|apply demo_job_startable|reflexivity
    |vm_compute; reflexivity|by vm_compute|by vm_compute|].
  split; [exact H1|]. apply (H2 (demo_job demo_schedule)); [apply demo_job_reachable|].
  exists true. apply demo_job_ended.
Defined.

Lemma job_correct_witness :
  (∀ e x, job_exec demo_hash word_count_factory e (demo_job demo_schedule) = Some x → ∃ J', x = Ok J') ∧
  job_done demo_hash demo_job_fs demo_job_spec user_map user_reduce (disk (sys (demo_job demo_schedule))).
Proof.
  destruct (job_correct demo_hash word_count_factory demo_job_fs demo_job_spec user_map user_reduce
    demo_job_shards (demo_job demo_schedule) demo_job_runnable (demo_job_reachable _)) as [H1 H2].
  split; [exact H1|]. exact (proj2 (H2 true demo_job_ended)).
Defined.

Lemma job_ends_witness :
  let J := demo_job demo_map_schedule in
  run_at (sys J) = Assigning Reducing 0 ∧
  ((∃ J', rtc (job_step demo_hash word_count_factory) J J' ∧ job_ended J') ∨
   lost demo_job_shards (sys J) ∧ ∀ J', rtc (job_step demo_hash word_count_factory) J J' → ¬ job_ended J').
Proof.
  split; [by vm_compute|].
  apply (job_ends demo_hash word_count_factory demo_job_fs demo_job_spec user_map user_reduce demo_job_shards);
    [apply demo_job_runnable|apply demo_job_reachable].
Defined.

Lemma any_order_same_files_witness :
  ∃ g, run_master demo_hash word_count_factory demo_job_fs demo_job_spec demo_job_shards = Ok (true, g) ∧
    ∀ q, contents (disk (sys (demo_job demo_schedule))) q = contents (disk (sys (demo_job demo_schedule_in_turn))) q ∧
      contents (disk (sys (demo_job demo_schedule))) q = contents g q.
Proof.
  apply (any_order_same_files demo_hash word_count_factory demo_job_fs demo_job_spec user_map user_reduce
    demo_job_shards (demo_job demo_schedule) (demo_job demo_schedule_in_turn) demo_job_runnable
    (demo_job_reachable _) (demo_job_reachable _)); exists true; [apply demo_job_ended|apply demo_job_in_turn_ended].
Defined.

(** The job evaluated. *)
Example word_count_evaluated :
  match run demo_hash word_count_factory demo_job_fs (str "/d/config.ini") with
  | Ok (_, f') => (contents f' (str "output/0"), contents f' (str "output/1"))
  | Err _ => ([], [])
  end =
  (str "be 2" ++ [nl] ++ str "is 1" ++ [nl] ++ str "or 1" ++ [nl] ++ str "that 1" ++ [nl] ++
   str "to 2" ++ [nl], str "not 1" ++ [nl]).
Proof. vm_compute. reflexivity. Qed.
