(* ===== verification/WorkerProgram.v ===== *)
(** * The worker program mr_worker (project4/src/run_worker.cc, test/user_tasks.cc)

    The program that is linked of run_worker.cc, the worker and the word-count tasks.
    Before [main] the initialisation of a global variable registers the tasks; [main]
    takes the address from the arguments and runs the worker.  On calls that fit the
    framework, the program never fails and can always answer all of them. *)
From S2P Require Import Prelude CxxString FileSystem FileShard MRTasks TaskFactory UserTasks.
From S2P Require Import WorkerRequest WorkerService JobLog MapReduce WordCount.
From Stdlib Require Import Ascii.

(** ** The program *)

(** [register_tasks_and_check], with the generators [my_mapper] and [my_reducer]. *)
Definition register_tasks_and_check (t : TaskFactory MapFn ReduceFn) : res (TaskFactory MapFn ReduceFn * bool) :=
  let '(t, registered) := register_tasks t (str "cs6210") user_map user_reduce in
  if negb registered then Err (Exit 1) else mret (t, true).

(** [bool just_store = register_tasks_and_check();] *)
Definition initialised : res (TaskFactory MapFn ReduceFn) := r ← register_tasks_and_check instance0; mret r.1.

(** [main]: the address that the worker listens on. *)
Definition worker_main (argv : list cstr) : res cstr :=
  match argv with
  | [_; ip_addr_port] => mret ip_addr_port
  | _ => Err (Exit 1)
  end.

(** The program up to the loops of [Worker::run]. *)
Definition mr_worker (argv : list cstr) (f : fs) (a b c : tag) : res (TaskFactory MapFn ReduceFn * cstr * server) :=
  factory ← initialised;
  ip_addr_port ← worker_main argv;
  s ← booted ip_addr_port f a b c;
  mret (factory, ip_addr_port, s).

(** The states that the program can come to. *)
Definition worker_reachable (hash : cstr → Z) (argv : list cstr) (f : fs) (s : server) : Prop :=
  ∃ a b c factory ip s0, NoDup [a; b; c] ∧ mr_worker argv f a b c = Ok (factory, ip, s0) ∧
    rtc (step hash factory) s0 s.

(** ** Calls that fit the framework *)

(** A text that map jobs have written. *)
Definition pair_text (t : cstr) : Prop := ∃ kvs, Forall clean_pair kvs ∧ t = concat (pair_line <$> kvs).

Definition intermediates_ok (f : fs) : Prop :=
  ∀ p i t, read_file f (intermediate_name p i) = Some t → pair_text t.

(** A piece of an input file, of less than a gigabyte. *)
Definition input_piece (p : ShardPartition) : Prop :=
  wf_partition p ∧ (sp_end p - sp_start p < 2 ^ 30)%Z ∧ ∀ port i, sp_filename p ≠ intermediate_name port i.

(** A call as the master makes it for a user. *)
Definition proper_call (user : cstr) (q : query) : Prop :=
  match q with
  | Map_query q =>
    mq_user_id q = user ∧ (0 < mq_n_partitions q < 2 ^ 31)%Z ∧ Forall input_piece (mq_partitions q)
  | Reduce_query q =>
    rq_user_id q = user ∧ ∀ name, name ∈ rq_files q → ∃ p i, name = intermediate_name p i
  | Ping_query _ => True
  end.

Lemma pair_text_snoc t kv : pair_text t → clean_pair kv → pair_text (t ++ pair_line kv).
Proof.
  intros (kvs & Hkvs & ->) Hkv. exists (kvs ++ [kv]). split.
  - apply Forall_app. by rewrite Forall_singleton.
  - rewrite fmap_app, concat_app. simpl. by rewrite app_nil_r.
Qed.

Lemma intermediates_append f p kv : intermediates_ok f → clean_pair kv → intermediates_ok (append_file f p (pair_line kv)).
Proof.
  intros Hf Hkv q i t. destruct (decide (p = intermediate_name q i)) as [->|Hp]; [|rewrite read_append_other by done; apply Hf].
  destruct (writable f (intermediate_name q i)) eqn:Ew.
  - rewrite read_append_same by done. intros [= <-]. apply pair_text_snoc; [|done].
    unfold contents. change (fs_files f !! ?x) with (read_file f x).
    destruct (read_file f _) eqn:E; [by eapply Hf|]. by exists [].
  - unfold append_file. rewrite Ew. apply Hf.
Qed.

Lemma intermediates_log hash n names f kvs :
  intermediates_ok f → Forall clean_pair kvs → intermediates_ok (log_pairs hash n names f kvs).
Proof.
  intros Hf Hkvs. revert f Hf. induction Hkvs as [|kv kvs Hkv _ IH]; intros f Hf; [done|]. apply IH.
  unfold log_pair. destruct (names !! _); [by apply intermediates_append|done].
Qed.

Lemma intermediates_reduce f names :
  intermediates_ok f → (∀ name, name ∈ names → ∃ p i, name = intermediate_name p i) →
  ∃ kvss, Forall2 (λ name kvs, Forall clean_pair kvs ∧
    (read_file f name = Some (concat (pair_line <$> kvs)) ∨ read_file f name = None ∧ kvs = [])) names kvss.
Proof.
  intros Hf. induction names as [|name names IH]; intros Hn; [by exists []|].
  destruct IH as [kvss Hkvss]; [set_solver|]. destruct (Hn name) as (p & i & ->); [left|].
  destruct (read_file f (intermediate_name p i)) as [t|] eqn:E.
  - destruct (Hf p i t E) as (kvs & Hkvs & ->). exists (kvs :: kvss). constructor; [|done]. by rewrite E; auto.
  - exists ([] :: kvss). constructor; [|done]. split; [done|by right].
Qed.

Section service.
Context (hash : cstr → Z) (factory : TaskFactory MapFn ReduceFn) (ip user : cstr).
Context (mapper : MapFn) (reducer : ReduceFn).
Context (Hm : get_mapper factory user = Some mapper) (Hr : get_reducer factory user = Some reducer).
Context (Hgm : good_mapper mapper).

Lemma piece_lines_clean f ps : Forall input_piece ps → Forall clean_pair (query_lines f ps ≫= mapper).
Proof using Hgm.
  intros Hps. apply Forall_bind, Forall_bind. eapply Forall_impl; [exact Hps|]. intros p ([Hp _] & Hs & _).
  apply Forall_forall. intros l (Hnl & Hlen)%getlines_elem. apply (gm_clean _ Hgm); [done|].
  unfold read_at in Hlen. rewrite length_app, length_replicate, length_take in Hlen. lia.
Qed.

(** The job of a call that fits succeeds, and leaves the intermediate files as it should. *)
Lemma proper_work port f q :
  intermediates_ok f → proper_call user q → ∃ f' r, work hash factory ip port f q = Ok (f', r) ∧ intermediates_ok f'.
Proof using Hm Hr Hgm.
  intros Hf. destruct q as [q|q|id]; cbn [proper_call work].
  - intros (Hu & Hn & Hps). unfold map_job.
    rewrite (map_job_ok hash factory f port q mapper); [|by rewrite Hu|done| |].
    + eexists _, _. split; [reflexivity|]. apply intermediates_log; [done|]. by apply piece_lines_clean.
    + eapply Forall_impl; [exact Hps|]. by intros p (? & _).
    + intros p Hp (i & Hi & _)%list_elem_of_fmap. rewrite Forall_forall in Hps.
      destruct (Hps p Hp) as (_ & _ & Hne). by apply (Hne port i).
  - intros (Hu & Hn). destruct (intermediates_reduce f (rq_files q) Hf Hn) as [kvss Hkvss]. unfold reduce_job.
    rewrite (reduce_job_ok factory f q reducer kvss); [|by rewrite Hu|done].
    eexists _, _. split; [reflexivity|]. intros p i t. cbn [fst].
    rewrite reducer_emits_read; [apply Hf|]. apply not_eq_sym, output_not_intermediate.
  - intros _. by exists f, (Ping_result ip).
Qed.

Lemma proper_serves port f qs f' rs :
  intermediates_ok f → Forall (proper_call user) qs → serve_all hash factory ip port f qs = Ok (f', rs) →
  intermediates_ok f'.
Proof using Hm Hr Hgm.
  intros Hf Hqs. revert f rs Hf. induction Hqs as [|q qs Hq _ IH]; intros f rs Hf E; [by injection E as <- <-|].
  destruct (proper_work port f q Hf Hq) as (f1 & r & E1 & Hf1). cbn [serve_all] in E. rewrite E1 in E. cbn in E.
  destruct (serve_all hash factory ip port f1 qs) as [[f2 rs2]|] eqn:E2; [|done]. injection E as <- <-. by eapply IH.
Qed.

Lemma proper_never_fails f0 s e x :
  intermediates_ok f0 → reachable (initial ip f0) (step hash factory) s → Forall (proper_call user) (received s) →
  exec hash factory e s = Some x → ∃ s', x = Ok s'.
Proof using Hm Hr Hgm.
  intros Hf Hs Hq E. destruct x as [s'|f]; [by exists s'|exfalso].
  destruct (service_in_sequence _ _ _ _ _ Hs) as (port & waiting & _ & Hp & Hall & Hfail).
  rewrite Hp, Forall_app in Hq. destruct Hq as [Ha Hw].
  destruct (Hfail e f E) as (q & Hin & Eq). rewrite Forall_forall in Hw.
  pose proof (proper_serves _ _ _ _ _ Hf Ha Hall) as Hf'.
  destruct (proper_work port (files s) q Hf' (Hw q Hin)) as (f' & r & E' & _). congruence.
Qed.
End service.

(** ** Lemmas on the start *)

Lemma initialised_ok : initialised = Ok word_count_factory.
Proof. reflexivity. Qed.

(** What follows the first colon, or everything, is always defined. *)
Lemma port_num_ok ip : (Z.of_nat (length ip) < 2 ^ 31)%Z → ∃ port, port_num ip = Ok port.
Proof.
  intros Hl. unfold port_num, find_int. destruct (find_char ":"%char ip) as [i|] eqn:E.
  - apply find_char_lt in E. rewrite i32_id by word.
    replace (Z.of_nat i + 1)%Z with (Z.of_nat (S i)) by lia. rewrite substr_suffix by lia. by eexists.
  - unfold substr. rewrite decide_True by word. by eexists.
Qed.

Lemma worker_reachable_service hash argv f s :
  worker_reachable hash argv f s →
  ∃ prog ip, argv = [prog; ip] ∧ reachable (initial ip f) (step hash word_count_factory) s.
Proof.
  intros (a & b & c & t & ip & s0 & Hnd & E & Hs). unfold mr_worker in E. rewrite initialised_ok in E. cbn [mbind res_bind] in E.
  destruct argv as [|prog [|ip' [|]]]; try done. cbn [worker_main mbind res_bind mret res_ret] in E.
  destruct (booted ip' f a b c) as [s1|] eqn:Eb; [|done]. injection E as <- <- <-.
  exists prog, ip'. split; [done|]. exists s1. split; [|done]. by exists a, b, c.
Qed.

(** ** Properties *)


(** ** Witness *)

(** A map job and a ping of the master have been served, a reduce job waits. *)
Definition demo_argv : list cstr := [str "mr_worker"; str "localhost:50051"].

Definition demo_map_call : query :=
  Map_query {| mq_user_id := str "cs6210"; mq_n_partitions := 2; mq_partitions := [Partition (str "in") 0 6] |}.

Definition demo_reduce_call : query :=
  Reduce_query {| rq_user_id := str "cs6210"; rq_files := [str "intermediate/1_50051.txt"; str "intermediate/1_50052.txt"];
                  rq_partition_id := 1; rq_output_dir := str "out" |}.

Definition demo_calls : list event :=
  [Arrive 2 (Ping_query (str "m")); Arrive 0 demo_map_call; Ping 2 3; Map_reduce 0 4; Sent 2; Arrive 1 demo_reduce_call].

Definition demo_worker : server := play demo_hash word_count_factory demo_start demo_calls.

Lemma demo_worker_reachable : worker_reachable demo_hash demo_argv demo_worker_fs demo_worker.
Proof.
  exists 0, 1, 2, word_count_factory, (str "localhost:50051"), demo_start.
  split; [apply (bool_decide_unpack _); by vm_compute|].
  split; [vm_cast_no_check (eq_refl (Ok (word_count_factory, str "localhost:50051", demo_start)))|].
  apply play_steps.
Qed.

Lemma demo_intermediates : intermediates_ok demo_worker_fs.
Proof.
  intros p i t. unfold read_file, demo_worker_fs. cbn [fs_files].
  intros [[Hn _]|[_ [_ <-]%lookup_singleton_Some]]%lookup_insert_Some; [discriminate Hn|].
  exists [(str "a", str "1"); (str "b", str "1"); (str "a", str "1")]. split; [|done].
  repeat constructor; first [chars|by vm_compute].
Qed.

Lemma demo_calls_proper : Forall (proper_call (str "cs6210")) (received demo_worker).
Proof.
  assert (proper_call (str "cs6210") demo_map_call) as Hm.
  { split; [done|]. split; [simpl; lia|]. apply Forall_singleton. split; [split; simpl; lia|].
    split; [simpl; lia|]. intros port i H. discriminate H. }
  assert (proper_call (str "cs6210") demo_reduce_call) as Hr.
  { split; [done|]. intros name. cbn [rq_files].
    intros [->|[->|H]%elem_of_cons]%elem_of_cons; [by exists (str "50051"), 1|by exists (str "50052"), 1|by apply elem_of_nil in H]. }
  assert (received demo_worker = [Ping_query (str "m"); demo_map_call; demo_reduce_call]) as -> by (vm_compute; reflexivity).
  by apply Forall_cons; split; [|apply Forall_cons; split; [|apply Forall_singleton]].
Qed.

