(* ===== verification/DemoProgram.v ===== *)
(** * The program mrdemo (project4/test/main.cc, src/mapreduce.cc)

    It runs the job of the file config.ini in the current directory, with workers that
    run the program of WorkerProgram.v.  What it exits with, in every case. *)
From S2P Require Import Prelude CxxString FileSystem MRSpec FileShard TaskFactory UserTasks MRTasks.
From S2P Require Import WorkerRequest Master MasterThreads MasterRun JobLog MapReduce JobThreads WordCount.
From S2P Require Import WorkerProgram.

Section program.
Context (hash : cstr → Z) (factory : TaskFactory MapFn ReduceFn).

(** [PATH_MAX], as the program defines it. *)
Definition PATH_MAX : Z := 200.

(** [getcwd(buff, size)] for the current directory [cwd]: the null pointer when the path
    and its NUL do not fit. *)
Definition getcwd (cwd : cstr) (size : Z) : option cstr :=
  if decide (Z.of_nat (length cwd) + 1 ≤ size)%Z then Some cwd else None.

(** [MapReduce::run]: [impl_] is a [MapReduceImpl] of its own. *)
Definition MapReduce_run (f : fs) (config_filename : cstr) : res (bool * fs) := run hash factory f config_filename.

(** [ok ? EXIT_SUCCESS : EXIT_FAILURE] *)
Definition exit_status (ok : bool) : Z := if ok then 0%Z else 1%Z.

(** [main]: the status that it returns, and the files. *)
Definition demo_main (f : fs) (cwd : cstr) : res (Z * fs) :=
  match getcwd cwd (PATH_MAX + 1) with
  | None => Ok (1%Z, f)
  | Some cwd =>
    let filename := cwd ++ str "/config.ini" in
    r ← MapReduce_run f filename;
    Ok (exit_status r.1, r.2)
  end.
End program.

(** ** The jobs of a master *)

(** The call of a job that the master sends. *)
Definition call_of (j : job) : WorkerService.query :=
  match j with MapJob q => WorkerService.Map_query q | ReduceJob q => WorkerService.Reduce_query q end.

(** Whatever the interleaving, the jobs that a master has sent are calls that fit. *)
Lemma jobs_proper hash factory f s mapper reducer l J ip j r :
  runnable factory f s mapper reducer l → job_reachable hash factory f s l J → ((ip, j), r) ∈ flights J →
  proper_call (user_id s) (call_of j).
Proof.
  intros Hrun HJ Hx.
  pose proof (runnable_good _ _ _ _ _ _ _ _ Hrun HJ) as HJg. destruct Hrun as [Hm Hr Hgm Hgr Hs Hv Hsh Hin].
  assert (flight_ok s l (idx2files (sys J)) ip j r) as Hf by by eapply jg_jobs.
  destruct j as [q|q]; cbn in Hf; destruct Hf as [Hf _].
  - destruct Hf as (sh & Hshl & ->). split; [done|]. split; [exact (sf_parts _ _ Hs)|].
    destruct (sharding_facts f s mapper l Hgm Hs Hsh Hin) as (Hsound & _).
    apply Forall_fmap, Forall_forall. intros p Hp. destruct (Hsound sh p Hshl Hp) as (Hn & Hw & Hl).
    split; [done|]. split; [done|]. by apply (sf_inputs _ _ Hs).
  - destruct Hf as (i & Hi & ->). split; [done|]. intros name Hname. cbn in Hname.
    assert (∃ g log served, reducing hash f s mapper reducer J g log served) as (g & log & served & HJr).
    { destruct (flight_underway _ _ _ _ _ _ _ _ HJg Hx) as (Hu & _ & Hph). pose proof (jg_disk _ _ _ _ _ _ _ HJg) as Hd.
      apply disk_ok_underway in Hd; [|done]. cbn in Hph. by rewrite <-Hph in Hd. }
    destruct (re_groups _ _ _ _ _ _ _ _ _ HJr i Hi) as (ps & _ & Eg). rewrite Eg in Hname.
    apply list_elem_of_fmap in Hname as (p & -> & _). by exists p, i.
Qed.

(** ** Properties *)

Section outcome.
Context (hash : cstr → Z) (f : fs) (cwd : cstr).

Definition config : cstr := cwd ++ str "/config.ini".
Definition demo_run : res (Z * fs) := (demo_main hash word_count_factory f cwd).

Lemma demo_main_run :
  (Z.of_nat (length cwd) ≤ 200)%Z →
  demo_run = (r ← run hash word_count_factory f config; Ok (exit_status r.1, r.2)).
Proof. intros H. unfold demo_run, demo_main, getcwd, PATH_MAX. rewrite decide_True by lia. done. Qed.

(** A run that gets as far as the shards. *)
Lemma run_shards s : read_mr_spec_from_config_file f config empty_spec = Ok (true, s) →
  validate_mr_spec f s = true → ∀ l, shard_files f s [] = Some (false, l) →
  run hash word_count_factory f config = Ok (false, f).
Proof. intros E Ev l Es. unfold run. rewrite E. cbn. rewrite Ev. cbn. unfold create_shards. by rewrite Es. Qed.

End outcome.

(** ** Witness *)

