(* ===== verification/MemoryCoordinator.v ===== *)
(** * The memory coordinator (project1-1/memory/src/memory_coordinator.c)

    [MemoryScheduler], and [main], which calls it until it is interrupted: the readings that libvirt gives are the
    input, the calls of [virDomainSetMemory] are the output, the process exits
    where the source calls [error(_, 1)].  Quantities are
    [unsigned long long], in MiB after the divisions of the source. *)
From S2P Require Import Prelude CxxString.

Definition unused_mem_low : Z := 100.
Definition unused_mem_high : Z := 300.
Definition mem_alloc_unit : Z := 100.
Definition host_mem_low : Z := 200.

(** ** What libvirt answers *)

Inductive stat_tag := STAT_UNUSED | STAT_AVAILABLE | STAT_ACTUAL_BALLOON | STAT_OTHER.

(** A running domain: the statistics, [None] for a negative count, in KiB, and
    its maximal memory, in KiB. *)
Record virDomain := {
  vd_stats : option (list (stat_tag * Z));
  vd_max_memory : Z
}.

(** The domains, [None] when [virConnectListAllDomains] fails, and the free
    memory of the host, in bytes. *)
Record virConnect := {
  vc_domains : option (list virDomain);
  vc_free_memory : Z
}.

(** ** Readings *)

Record mem_stats := { unused_mem : Z; available_mem : Z; balloon_mem : Z }.

(** The arrays come from [calloc]. *)
Definition no_stats : mem_stats := {| unused_mem := 0; available_mem := 0; balloon_mem := 0 |}.

#[export] Instance mem_stats_eta : Eta mem_stats := λ m,
  {| unused_mem := unused_mem m; available_mem := available_mem m; balloon_mem := balloon_mem m |}.

Definition read_stat (m : mem_stats) (stat : stat_tag * Z) : mem_stats :=
  match stat.1 with
  | STAT_UNUSED => assign unused_mem (stat.2 / 1024)%Z m
  | STAT_AVAILABLE => assign available_mem (stat.2 / 1024)%Z m
  | STAT_ACTUAL_BALLOON => assign balloon_mem (stat.2 / 1024)%Z m
  | STAT_OTHER => m
  end.

Definition get_mem_stats (domains : list virDomain) : res (list mem_stats) :=
  mfoldl (λ mems d,
    match vd_stats d with
    | None => Err (Exit 1)
    | Some stats => mret (mems ++ [foldl read_stat no_stats stats])
    end) [] domains.

Definition get_host_mem (conn : virConnect) : res Z :=
  let ret := (vc_free_memory conn / 1024 / 1024)%Z in
  if decide (ret = 0)%Z then Err (Exit 1) else mret ret.

(** ** MemoryScheduler *)

(** [vm_status]: 0, 1 and 2 in the source. *)
Inductive status := Extra | Lack | Enough.

#[export] Instance status_eq_dec : EqDecision status.
Proof. solve_decision. Defined.

Definition vm_status (d : virDomain) (m : mem_stats) : status :=
  if decide (unused_mem m < unused_mem_low)%Z then
    let max_mem := (vd_max_memory d / 1024)%Z in
    if decide (max_mem < u64 (balloon_mem m + mem_alloc_unit))%Z then Enough else Lack
  else if decide (unused_mem_high < unused_mem m)%Z then Extra
  else Enough.

(** The variables of the first loop. *)
Record tally := { statuses : list status; lack_cnt : Z; mem_needed : Z; mem_avail : Z }.

Definition count_vm (t : tally) (dm : virDomain * mem_stats) : tally :=
  let s := vm_status dm.1 dm.2 in
  match s with
  | Lack => {| statuses := statuses t ++ [s]; lack_cnt := i32 (lack_cnt t + 1);
               mem_needed := u64 (mem_needed t + mem_alloc_unit); mem_avail := mem_avail t |}
  | Extra => {| statuses := statuses t ++ [s]; lack_cnt := lack_cnt t;
                mem_needed := mem_needed t; mem_avail := u64 (mem_avail t + mem_alloc_unit) |}
  | Enough => {| statuses := statuses t ++ [s]; lack_cnt := lack_cnt t;
                 mem_needed := mem_needed t; mem_avail := mem_avail t |}
  end.

Definition count_vms (l : list (virDomain * mem_stats)) : tally :=
  foldl count_vm {| statuses := []; lack_cnt := 0; mem_needed := 0; mem_avail := 0 |} l.

(** The check against the host, on unsigned numbers. *)
Definition ask_host (host_mem_avail needed avail : Z) : Z :=
  if decide (avail < needed)%Z then
    if decide (host_mem_low ≤ u64 (host_mem_avail - u64 (needed - avail)))%Z
    then needed else avail
  else avail.

(** A call [virDomainSetMemory(domains[i], kib)]. *)
Definition deflate (i : nat) (m : mem_stats) : nat * Z :=
  (i, u64 (u64 (balloon_mem m - mem_alloc_unit) * 1024)).
Definition inflate (i : nat) (m : mem_stats) : nat * Z :=
  (i, u64 (u64 (balloon_mem m + mem_alloc_unit) * 1024)).

(** The loop when there is memory for everyone. *)
Fixpoint set_all (i : nat) (l : list (status * mem_stats)) : list (nat * Z) :=
  match l with
  | [] => []
  | (Extra, m) :: l' => deflate i m :: set_all (S i) l'
  | (Lack, m) :: l' => inflate i m :: set_all (S i) l'
  | (Enough, _) :: l' => set_all (S i) l'
  end.

(** The loop when there is not. *)
Fixpoint set_some (i : nat) (avail : Z) (l : list (status * mem_stats)) : list (nat * Z) :=
  match l with
  | [] => []
  | (Extra, m) :: l' => deflate i m :: set_some (S i) avail l'
  | (Lack, m) :: l' =>
    if decide (0 < avail)%Z
    then inflate i m :: set_some (S i) (u64 (avail - mem_alloc_unit)) l'
    else set_some (S i) avail l'
  | (Enough, _) :: l' => set_some (S i) avail l'
  end.

Definition MemoryScheduler (conn : virConnect) : res (list (nat * Z)) :=
  mems ← get_mem_stats (default [] (vc_domains conn));
  host_mem_avail ← get_host_mem conn;
  match vc_domains conn with
  | None => Err Undefined (* an array of length -1 *)
  | Some domains =>
    let t := count_vms (zip domains mems) in
    let avail := ask_host host_mem_avail (mem_needed t) (mem_avail t) in
    let l := zip (statuses t) mems in
    mret (if decide (mem_needed t ≤ avail)%Z then set_all 0 l
          else if decide (0 < lack_cnt t)%Z then set_some 0 avail l
          else [])
  end.

(** ** main *)

(** The loop: [turns] is what the host shows at the turns until SIGINT sets
    [is_exit]; [MemoryScheduler] does not use its interval. *)
Definition main_loop (turns : list virConnect) : res (list (list (nat * Z))) :=
  mfoldl (λ done conn, calls ← MemoryScheduler conn; mret (done ++ [calls])) [] turns.

(** [main] gives the exit status and the calls of every turn, with the interval it
    sleeps; the host is [None] when [virConnectOpen] fails. *)
Definition main (argv : list cstr) (host : option (list virConnect)) :
    res (Z * Z * list (list (nat * Z))) :=
  if decide (length argv ≠ 2) then mret (0, 0, [])%Z else
  let interval := atoi (default [] (argv !! 1)) in
  match host with
  | None => mret (1, interval, [])%Z
  | Some turns =>
    calls ← main_loop turns;
    mret (0%Z, interval, calls)
  end.

(** ** The specification *)

Definition number (s : status) (l : list status) : nat := length (filter (.= s) l).

(** What a domain is told: an extra one gives a unit, a lacking one takes a
    unit if [grant] lacking domains may and fewer came before it. *)
Definition told (grant : nat) (sts : list status) (mems : list mem_stats) (i : nat) :
    option (nat * Z) :=
  s ← sts !! i; m ← mems !! i;
  match s with
  | Extra => Some (i, (balloon_mem m - mem_alloc_unit) * 1024)%Z
  | Lack => if decide (number Lack (take i sts) < grant)
            then Some (i, (balloon_mem m + mem_alloc_unit) * 1024)%Z else None
  | Enough => None
  end.

(** The number of lacking domains that are served: all of them if the extra
    domains or the host can pay, as many as there are extra ones otherwise. *)
Definition granted (host : Z) (sts : list status) : nat :=
  let lack := number Lack sts in
  let extra := number Extra sts in
  if decide (lack ≤ extra ∨
      (host_mem_low + mem_alloc_unit * (Z.of_nat lack - Z.of_nat extra) ≤ host)%Z)
  then lack else extra.

(** Readings of a real host: less than 2^40 MiB, balloons that hold what is
    unused in them, and fewer domains than an [int] counts. *)
Record plausible (mems : list mem_stats) : Prop := {
  pl_mem m : m ∈ mems → (0 ≤ unused_mem m ≤ balloon_mem m)%Z ∧ (balloon_mem m < 2 ^ 40)%Z;
  pl_count : (Z.of_nat (length mems) < 2 ^ 31)%Z
}.

(** The memory that the calls take from the host, in MiB. *)
Definition net_demand (mems : list mem_stats) (calls : list (nat * Z)) : Z :=
  foldr (λ c acc, (c.2 / 1024 - balloon_mem (default no_stats (mems !! c.1)) + acc)%Z) 0%Z calls.

(** ** Lemmas *)

Lemma get_mem_stats_ok domains mems0 :
  Forall (λ d, is_Some (vd_stats d)) domains →
  mfoldl (λ mems d,
    match vd_stats d with
    | None => Err (Exit 1)
    | Some stats => mret (mems ++ [foldl read_stat no_stats stats])
    end) mems0 domains =
  Ok (mems0 ++ ((λ d, foldl read_stat no_stats (default [] (vd_stats d))) <$> domains)).
Proof.
  intros H. revert mems0. induction H as [|d l [st Hd] _ IH]; intros mems0; cbn [mfoldl].
  { by rewrite app_nil_r. }
  rewrite Hd. cbn [mbind res_bind mret res_ret]. rewrite IH, <-app_assoc. simpl. by rewrite Hd.
Qed.

Lemma number_app s l1 l2 : number s (l1 ++ l2) = number s l1 + number s l2.
Proof. unfold number. by rewrite filter_app, length_app. Qed.

Lemma number_length s l : number s l ≤ length l.
Proof. apply length_filter. Qed.

Lemma number_cons s s' l : number s (s' :: l) = (if decide (s' = s) then 1 else 0) + number s l.
Proof. unfold number. rewrite filter_cons. by case_decide. Qed.

(** The first loop counts. *)
Lemma count_vms_ok l t :
  (0 ≤ mem_needed t)%Z → (0 ≤ mem_avail t)%Z → (0 ≤ lack_cnt t)%Z →
  (lack_cnt t + Z.of_nat (length l) < 2 ^ 31)%Z →
  (mem_needed t + 100 * Z.of_nat (length l) < 2 ^ 64)%Z →
  (mem_avail t + 100 * Z.of_nat (length l) < 2 ^ 64)%Z →
  let sts := (λ dm, vm_status dm.1 dm.2) <$> l in
  foldl count_vm t l =
  {| statuses := statuses t ++ sts;
     lack_cnt := lack_cnt t + Z.of_nat (number Lack sts);
     mem_needed := mem_needed t + 100 * Z.of_nat (number Lack sts);
     mem_avail := mem_avail t + 100 * Z.of_nat (number Extra sts) |}.
Proof.
  revert t. induction l as [|dm l IH]; intros t H1 H2 H3 H4 H5 H6; cbn [foldl fmap list_fmap].
  { destruct t. cbn. by rewrite app_nil_r, !Z.add_0_r. }
  cbn [length] in *. rewrite IH.
  - unfold count_vm. rewrite !number_cons.
    destruct (vm_status dm.1 dm.2); cbn [statuses lack_cnt mem_needed mem_avail];
      rewrite <-app_assoc; cbn [app];
      rewrite ?u64_id, ?i32_id by (unfold i32_range, mem_alloc_unit; lia);
      unfold mem_alloc_unit; f_equal; repeat case_decide; try done; lia.
  - unfold count_vm. destruct (vm_status _ _); cbn; rewrite ?u64_id by (unfold mem_alloc_unit; lia);
      unfold mem_alloc_unit; lia.
  - unfold count_vm. destruct (vm_status _ _); cbn; rewrite ?u64_id by (unfold mem_alloc_unit; lia);
      unfold mem_alloc_unit; lia.
  - unfold count_vm. destruct (vm_status _ _); cbn; rewrite ?i32_id by (unfold i32_range; lia); lia.
  - unfold count_vm. destruct (vm_status _ _); cbn; rewrite ?i32_id by (unfold i32_range; lia); lia.
  - unfold count_vm. destruct (vm_status _ _); cbn; rewrite ?u64_id by (unfold mem_alloc_unit; lia);
      unfold mem_alloc_unit; lia.
  - unfold count_vm. destruct (vm_status _ _); cbn; rewrite ?u64_id by (unfold mem_alloc_unit; lia);
      unfold mem_alloc_unit; lia.
Qed.

(** What the loops need of the readings. *)
Definition fits (s : status) (m : mem_stats) : Prop :=
  (0 ≤ balloon_mem m < 2 ^ 40)%Z ∧ (s = Extra → (mem_alloc_unit ≤ balloon_mem m)%Z).

Lemma deflate_fits i m : fits Extra m → deflate i m = (i, ((balloon_mem m - mem_alloc_unit) * 1024)%Z).
Proof.
  intros [? H]. specialize (H eq_refl). unfold deflate, mem_alloc_unit in *.
  by rewrite !u64_id by (rewrite ?u64_id by lia; lia).
Qed.

Lemma inflate_fits i m : fits Lack m → inflate i m = (i, ((balloon_mem m + mem_alloc_unit) * 1024)%Z).
Proof.
  intros [? _]. unfold inflate, mem_alloc_unit in *.
  by rewrite !u64_id by (rewrite ?u64_id by lia; lia).
Qed.

Lemma told_here G p sts pm mems s m :
  length p = length pm →
  told G (p ++ s :: sts) (pm ++ m :: mems) (length p) =
  match s with
  | Extra => Some (length p, ((balloon_mem m - mem_alloc_unit) * 1024)%Z)
  | Lack => if decide (number Lack p < G)
            then Some (length p, ((balloon_mem m + mem_alloc_unit) * 1024)%Z) else None
  | Enough => None
  end.
Proof.
  intros H. unfold told. rewrite list_lookup_middle by done. rewrite H, list_lookup_middle by done.
  cbn. rewrite <-H, take_app_length. done.
Qed.

Lemma set_some_ok G sts mems p pm avail :
  length p = length pm → Forall2 fits sts mems →
  avail = (mem_alloc_unit * Z.of_nat (G - number Lack p))%Z → (Z.of_nat G < 2 ^ 31)%Z →
  set_some (length p) avail (zip sts mems) =
  omap (told G (p ++ sts) (pm ++ mems)) (seq (length p) (length sts)).
Proof.
  intros Hp Hf. revert p pm avail Hp.
  induction Hf as [|s m sts mems Hsm _ IH]; intros p pm avail Hp Ha HG; [done|].
  assert (∀ a, a = (mem_alloc_unit * Z.of_nat (G - number Lack (p ++ [s])))%Z →
    set_some (S (length p)) a (zip sts mems) =
    omap (told G (p ++ s :: sts) (pm ++ m :: mems)) (seq (S (length p)) (length sts))) as IH'.
  { intros a Ha'. specialize (IH (p ++ [s]) (pm ++ [m]) a). rewrite !length_app in IH. simpl in IH.
    rewrite Nat.add_1_r, <-!app_assoc in IH. apply IH; [lia|done|done]. }
  cbn [length seq omap list_omap]. rewrite told_here by done.
  cbn [set_some zip_with]. rewrite number_app, number_cons in IH'.
  change (number Lack []) with 0 in IH'. unfold mem_alloc_unit in *. destruct s.
  - rewrite deflate_fits by done. f_equal. apply IH'. rewrite decide_False by done. lia.
  - destruct (decide (number Lack p < G)).
    + rewrite decide_True by lia. rewrite inflate_fits by done. f_equal.
      apply IH'. rewrite decide_True, u64_id by (done || lia). lia.
    + rewrite decide_False by lia. apply IH'. rewrite decide_True by done. lia.
  - apply IH'. rewrite decide_False by done. lia.
Qed.

(** With memory for everyone the two loops agree. *)
Lemma set_all_some i l avail :
  (mem_alloc_unit * Z.of_nat (number Lack l.*1) ≤ avail < 2 ^ 64)%Z →
  set_all i l = set_some i avail l.
Proof.
  unfold mem_alloc_unit. revert i avail. induction l as [|[s m] l IH]; intros i avail H; [done|].
  cbn [set_all set_some]. rewrite fmap_cons, number_cons in H. cbn [fst] in H.
  destruct s; rewrite ?decide_True, ?decide_False in H by done.
  - f_equal. by apply IH.
  - rewrite decide_True by lia. f_equal. apply IH. unfold mem_alloc_unit. rewrite u64_id by lia. lia.
  - by apply IH.
Qed.

Lemma fst_zip_statuses (sts : list status) (mems : list mem_stats) :
  length sts = length mems → (zip sts mems).*1 = sts.
Proof. intros H. apply fst_zip. lia. Qed.

(** The domains served when the host is asked, on unsigned numbers. *)
Definition granted_u64 (host : Z) (sts : list status) : nat :=
  let lack := number Lack sts in
  let extra := number Extra sts in
  if decide (lack ≤ extra ∨
      (host_mem_low ≤ u64 (host - mem_alloc_unit * (Z.of_nat lack - Z.of_nat extra)))%Z)
  then lack else extra.

(** The readings and the statuses of a connection. *)
Definition stats_of (domains : list virDomain) : list mem_stats :=
  (λ d, foldl read_stat no_stats (default [] (vd_stats d))) <$> domains.
Definition statuses_of (domains : list virDomain) : list status :=
  zip_with vm_status domains (stats_of domains).

Lemma statuses_length domains : length (statuses_of domains) = length domains.
Proof. unfold statuses_of, stats_of. rewrite length_zip_with, length_fmap. lia. Qed.

Lemma statuses_fit domains :
  plausible (stats_of domains) → Forall2 fits (statuses_of domains) (stats_of domains).
Proof.
  intros [Hm _]. unfold statuses_of. unfold stats_of in *.
  induction domains as [|d l IH]; cbn in *; constructor.
  - destruct (Hm (foldl read_stat no_stats (default [] (vd_stats d)))) as [H1 H2]; [left|].
    split; [lia|]. unfold vm_status, mem_alloc_unit, unused_mem_low, unused_mem_high.
    intros H. repeat case_decide; try done. lia.
  - apply IH. intros m H. apply Hm. by right.
Qed.

Lemma MemoryScheduler_ok free domains host :
  Forall (λ d, is_Some (vd_stats d)) domains → plausible (stats_of domains) →
  host = (free / 1024 / 1024)%Z → (host ≠ 0)%Z →
  MemoryScheduler {| vc_domains := Some domains; vc_free_memory := free |} =
  Ok (omap (told (granted_u64 host (statuses_of domains)) (statuses_of domains) (stats_of domains))
        (seq 0 (length domains))).
Proof.
  intros Hst Hpl -> Hh. unfold MemoryScheduler, get_mem_stats, get_host_mem.
  cbn [vc_domains vc_free_memory default]. unfold id.
  rewrite get_mem_stats_ok by done. cbn [mbind res_bind app]. rewrite decide_False by done.
  cbn [mbind res_bind mret res_ret]. fold (stats_of domains). f_equal.
  pose proof (statuses_fit domains Hpl) as Hfits. destruct Hpl as [_ Hn].
  assert (length (stats_of domains) = length domains) as Hlen by apply length_fmap.
  unfold count_vms. rewrite count_vms_ok; cbn [mem_needed mem_avail lack_cnt statuses app];
    rewrite ?length_zip_with; try lia.
  assert ((λ dm, vm_status dm.1 dm.2) <$> zip domains (stats_of domains) = statuses_of domains) as ->.
  { unfold statuses_of. rewrite (zip_with_zip vm_status). apply list_fmap_ext. by intros i [d m] _. }
  set (sts := statuses_of domains) in *. set (mems := stats_of domains) in *.
  rewrite !Z.add_0_l.
  assert (length sts = length mems) as Hsm by by eapply Forall2_length.
  pose proof (number_length Lack sts). pose proof (number_length Extra sts).
  pose proof (set_some_ok (granted_u64 (free / 1024 / 1024) sts) sts mems [] [] _ eq_refl Hfits eq_refl
    ltac:(unfold granted_u64; case_decide; lia)) as Hspec.
  cbn [app length] in Hspec. rewrite Hsm, Hlen in Hspec. rewrite <-Hspec. clear Hspec.
  change (number Lack []) with 0. rewrite Nat.sub_0_r.
  assert (set_all 0 (zip sts mems) = set_some 0 (mem_alloc_unit * Z.of_nat (number Lack sts)) (zip sts mems))
    as Hall.
  { apply set_all_some. rewrite fst_zip_statuses by done. unfold mem_alloc_unit. lia. }
  rewrite Hall. unfold ask_host, granted_u64.
  replace (100 * Z.of_nat (number Lack sts) - 100 * Z.of_nat (number Extra sts))%Z
    with (mem_alloc_unit * (Z.of_nat (number Lack sts) - Z.of_nat (number Extra sts)))%Z
    by (unfold mem_alloc_unit; lia).
  destruct (decide (number Lack sts ≤ number Extra sts)) as [Hle|Hgt].
  { rewrite (decide_True (P := _ ∨ _)) by by left.
    by repeat (case_decide; try lia). }
  rewrite (decide_True (P := (100 * _ < _)%Z)), (u64_id (mem_alloc_unit * _)) by (unfold mem_alloc_unit; lia).
  destruct (decide (host_mem_low ≤ u64 (free / 1024 / 1024 -
    mem_alloc_unit * (Z.of_nat (number Lack sts) - Z.of_nat (number Extra sts))))%Z) as [Hg|Hg].
  - rewrite (decide_True (P := _ ∨ _)) by by right. by rewrite decide_True by lia.
  - rewrite (decide_False (P := _ ∨ _)) by by intros [?|?].
    by rewrite decide_False, decide_True by lia.
Qed.

(** The memory that the decisions take from the host. *)
Lemma net_demand_told G sts mems p pm :
  length p = length pm → length sts = length mems →
  net_demand (pm ++ mems) (omap (told G (p ++ sts) (pm ++ mems)) (seq (length p) (length sts))) =
  (mem_alloc_unit * (Z.of_nat (Nat.min (G - number Lack p) (number Lack sts)) -
                     Z.of_nat (number Extra sts)))%Z.
Proof.
  revert p pm mems. unfold mem_alloc_unit.
  induction sts as [|s sts IH]; intros p pm [|m mems] Hp Hl; try done.
  { change (number Lack []) with 0. change (number Extra []) with 0. simpl. lia. }
  specialize (IH (p ++ [s]) (pm ++ [m]) mems). rewrite !length_app in IH. simpl in IH, Hl.
  rewrite Nat.add_1_r, <-!app_assoc in IH. specialize (IH ltac:(lia) ltac:(lia)). cbn [app] in IH.
  cbn [length seq omap list_omap]. rewrite told_here by done.
  rewrite number_app, !number_cons in IH. change (number Lack []) with 0 in IH.
  rewrite !number_cons. unfold mem_alloc_unit.
  assert (∀ kib l, net_demand (pm ++ m :: mems) ((length p, (kib * 1024)%Z) :: l) =
    (kib - balloon_mem m + net_demand (pm ++ m :: mems) l)%Z) as Hcons.
  { intros kib l. unfold net_demand. cbn [foldr fst snd]. rewrite Hp, list_lookup_middle by done.
    rewrite Z.div_mul by lia. reflexivity. }
  destruct s; repeat case_decide; try done; rewrite ?Hcons, IH; lia.
Qed.

Lemma elem_of_told G sts mems i j kib :
  told G sts mems i = Some (j, kib) → j = i ∧ ∃ s m, sts !! i = Some s ∧ mems !! i = Some m ∧
    (s = Extra ∧ kib = ((balloon_mem m - mem_alloc_unit) * 1024)%Z ∨
     s = Lack ∧ kib = ((balloon_mem m + mem_alloc_unit) * 1024)%Z).
Proof.
  unfold told. destruct (sts !! i) as [s|]; [|done]. destruct (mems !! i) as [m|]; [|done].
  cbn. destruct s; [| |done]; [|case_decide; [|done]]; intros [= <- <-]; split; eauto 10.
Qed.

Lemma granted_exact host sts :
  (0 ≤ host < 2 ^ 63)%Z → (Z.of_nat (length sts) < 2 ^ 31)%Z →
  (mem_alloc_unit * (Z.of_nat (number Lack sts) - Z.of_nat (number Extra sts)) ≤ host)%Z →
  granted_u64 host sts = granted host sts.
Proof.
  intros Hh Hl Hd. unfold granted_u64, granted, mem_alloc_unit, host_mem_low in *.
  pose proof (number_length Lack sts). pose proof (number_length Extra sts).
  set (lack := number Lack sts) in *. set (extra := number Extra sts) in *.
  destruct (decide (lack ≤ extra)); [by rewrite !decide_True by by left|].
  rewrite u64_id by lia.
  repeat case_decide; try done; exfalso; intuition lia.
Qed.

(** While every turn succeeds, [main] makes the calls of all of them. *)
Lemma main_loop_ok (turns : list virConnect) (calls : list (list (nat * Z))) :
  Forall2 (λ conn c, MemoryScheduler conn = Ok c) turns calls → main_loop turns = Ok calls.
Proof.
  unfold main_loop. intros H.
  assert (∀ done, mfoldl (λ done conn, calls ← MemoryScheduler conn; mret (done ++ [calls])) done turns =
    Ok (done ++ calls)) as Hd; [|apply Hd].
  induction H as [|conn c turns calls Hc _ IH]; intros done; cbn [mfoldl]; [by rewrite app_nil_r|].
  rewrite Hc. cbn [mbind res_bind mret res_ret]. rewrite IH, <-app_assoc. done.
Qed.

(** It stops at the first turn that fails. *)
Lemma main_loop_fails (turns : list virConnect) conn rest calls e :
  Forall2 (λ conn c, MemoryScheduler conn = Ok c) turns calls → MemoryScheduler conn = Err e →
  main_loop (turns ++ conn :: rest) = Err e.
Proof.
  intros H He. pose proof (main_loop_ok _ _ H) as Hl. unfold main_loop in *. rewrite mfoldl_app, Hl.
  cbn [mbind res_bind mfoldl]. by rewrite He.
Qed.

(** ** Properties *)

Section scheduler.
Context (free : Z) (domains : list virDomain).
Context (Hfree : (0 ≤ free < 2 ^ 63)%Z)
  (Hstats : Forall (λ d, is_Some (vd_stats d)) domains) (Hpl : plausible (stats_of domains)).

Let host := (free / 1024 / 1024)%Z.
Let sts := statuses_of domains.
Let mems := stats_of domains.
Let run := MemoryScheduler {| vc_domains := Some domains; vc_free_memory := free |}.

(** The unsigned subtraction [host_mem_avail - (mem_needed - mem_avail)] does
    not wrap around. *)
Definition no_wrap : Prop :=
  (mem_alloc_unit * (Z.of_nat (number Lack sts) - Z.of_nat (number Extra sts)) ≤ host)%Z.

Lemma host_bound : (0 ≤ host < 2 ^ 63)%Z.
Proof. unfold host. Z.div_mod_to_equations; lia. Qed.


(** The host keeps its reserve: unless the unsigned check wraps around, the
    calls of one iteration take nothing from the host on balance, or leave it
    at least [host_mem_low]. *)
Theorem scheduler_keeps_reserve (calls : list (nat * Z)) :
  no_wrap → run = Ok calls →
  (net_demand mems calls ≤ 0 ∨ host_mem_low ≤ host - net_demand mems calls)%Z.
Proof.
  intros Hw. unfold run. destruct (decide (host = 0)%Z) as [Hz|Hz].
  { unfold MemoryScheduler, get_mem_stats, get_host_mem. cbn [vc_domains vc_free_memory default].
    unfold id. rewrite get_mem_stats_ok by done. cbn [mbind res_bind].
    rewrite decide_True by done. intros [=]. }
  rewrite (MemoryScheduler_ok free domains host) by done. fold sts mems. intros [= <-].
  destruct Hpl as [_ Hn]. assert (length sts = length mems) as Hsm.
  { unfold sts, mems. rewrite statuses_length. unfold stats_of. by rewrite length_fmap. }
  assert (length domains = length sts) as -> by (symmetry; apply statuses_length).
  rewrite (net_demand_told _ sts mems [] []) by done.
  change (number Lack []) with 0. rewrite Nat.sub_0_r.
  rewrite granted_exact by (done || apply host_bound || by rewrite Hsm).
  unfold granted, mem_alloc_unit, host_mem_low in *.
  case_decide; lia.
Qed.

(** The check on the host wraps around: when the free memory of the host is
    less than what the lacking domains need beyond the extra ones, the
    unsigned difference is huge, the check passes, and every lacking domain is
    inflated: more memory is handed out than the host has. *)
Theorem scheduler_overcommits :
  (0 < host)%Z → ¬ no_wrap →
  ∃ calls, run = Ok calls ∧ (host < net_demand mems calls)%Z.
Proof.
  intros Hz Hw. unfold run, no_wrap in *.
  rewrite (MemoryScheduler_ok free domains host) by (done || lia). fold sts mems.
  eexists. split; [reflexivity|].
  destruct Hpl as [_ Hn]. assert (length sts = length mems) as Hsm.
  { unfold sts, mems. rewrite statuses_length. unfold stats_of. by rewrite length_fmap. }
  fold mems in Hn.
  assert (length domains = length sts) as -> by (symmetry; apply statuses_length).
  rewrite (net_demand_told _ sts mems [] []) by done.
  change (number Lack []) with 0. rewrite Nat.sub_0_r.
  pose proof (number_length Lack sts). pose proof (number_length Extra sts).
  pose proof host_bound.
  assert (granted_u64 host sts = number Lack sts) as ->; [|lia].
  unfold granted_u64. apply decide_True. right. unfold u64, host_mem_low, mem_alloc_unit in *.
  rewrite <-(Z_mod_plus_full _ 1), Z.mod_small by lia. lia.
Qed.

(** C37: no domain is told twice; one that gives a unit keeps more than the lower
    threshold unused; one that takes a unit was below it and stays within its
    maximal memory; domains between the thresholds are left alone. *)
Theorem scheduler_safe (calls : list (nat * Z)) :
  run = Ok calls →
  NoDup calls.*1 ∧
  ∀ i kib, (i, kib) ∈ calls → ∃ d m, domains !! i = Some d ∧ mems !! i = Some m ∧
    (kib = ((balloon_mem m - mem_alloc_unit) * 1024)%Z ∧
       (unused_mem_low < unused_mem m - mem_alloc_unit)%Z ∨
     kib = ((balloon_mem m + mem_alloc_unit) * 1024)%Z ∧
       (unused_mem m < unused_mem_low)%Z ∧ (kib ≤ vd_max_memory d)%Z).
Proof.
  unfold run. destruct (decide (host = 0)%Z) as [Hz|Hz].
  { unfold MemoryScheduler, get_mem_stats, get_host_mem. cbn [vc_domains vc_free_memory default].
    unfold id. rewrite get_mem_stats_ok by done. cbn [mbind res_bind].
    rewrite decide_True by done. intros [=]. }
  rewrite (MemoryScheduler_ok free domains host) by done. fold sts mems. intros [= <-].
  set (G := granted_u64 host sts). split.
  - assert (∀ a n, (omap (told G sts mems) (seq a n)).*1 `sublist_of` seq a n) as Hsub.
    { intros a n. revert a. induction n as [|n IH]; intros a; [done|]. cbn [seq omap list_omap].
      destruct (told G sts mems a) as [[j kib]|] eqn:E; [|by constructor].
      apply elem_of_told in E as [-> _]. cbn. by constructor. }
    eapply sublist_NoDup; [apply NoDup_seq|apply Hsub].
  - intros i kib (j & Hj & Ht)%list_elem_of_omap.
    apply elem_of_told in Ht as [-> (s & m & Hs & Hm & Hk)].
    pose proof Hs as Hs'. unfold sts, statuses_of in Hs'. apply lookup_zip_with_Some in Hs'.
    destruct Hs' as (d & m' & -> & Hd & Hm'). fold mems in Hm'. rewrite Hm in Hm'. injection Hm' as <-.
    exists d, m. split; [done|]. split; [done|].
    destruct Hpl as [Hmem _]. destruct (Hmem m) as [H1 H2]; [by eapply list_elem_of_lookup_2|].
    unfold vm_status, mem_alloc_unit, unused_mem_low, unused_mem_high in *.
    destruct Hk as [[Hk ->]|[Hk ->]]; [left|right];
      repeat case_decide; try done; (split; [done|]); [lia|]. split; [lia|].
    match goal with H : ¬ (_ / 1024 < u64 _)%Z |- _ => rewrite u64_id in H by lia end.
    Z.div_mod_to_equations. lia.
Qed.
End scheduler.

(** ** Witnesses *)

Definition demo_domain (unused balloon max : Z) : virDomain := {|
  vd_stats := Some [(STAT_UNUSED, unused * 1024); (STAT_OTHER, 7);
                    (STAT_AVAILABLE, balloon * 1024); (STAT_ACTUAL_BALLOON, balloon * 1024)]%Z;
  vd_max_memory := max * 1024 |}.

Definition demo_domains : list virDomain :=
  [demo_domain 50 512 2048; demo_domain 400 1024 2048; demo_domain 60 512 2048;
   demo_domain 30 2000 2048; demo_domain 200 512 2048].

(** Free memory of the host, in bytes. *)
Definition demo_free (mib : Z) : Z := mib * 1024 * 1024.

Lemma demo_stats_ok : Forall (λ d, is_Some (vd_stats d)) demo_domains.
Proof. repeat constructor; eauto. Qed.

Lemma demo_plausible : plausible (stats_of demo_domains).
Proof.
  split; [|vm_compute; reflexivity].
  apply Forall_forall.
  replace (stats_of demo_domains) with
    ((λ '(u, b), {| unused_mem := u; available_mem := b; balloon_mem := b |}) <$>
       [(50, 512); (400, 1024); (60, 512); (30, 2000); (200, 512)]%Z) by (vm_compute; reflexivity).
  apply Forall_fmap. do 5 (constructor; [cbn; lia|]). constructor.
Qed.


Lemma scheduler_keeps_reserve_witness :
  (net_demand (stats_of demo_domains)
     [(0%nat, (612 * 1024)%Z); (1%nat, (924 * 1024)%Z); (2%nat, (612 * 1024)%Z)] ≤ 0 ∨
   host_mem_low ≤ 300 - net_demand (stats_of demo_domains)
     [(0%nat, (612 * 1024)%Z); (1%nat, (924 * 1024)%Z); (2%nat, (612 * 1024)%Z)])%Z.
Proof.
  apply (scheduler_keeps_reserve (demo_free 300) demo_domains); [by vm_compute|apply demo_stats_ok
    |apply demo_plausible|by vm_compute|vm_compute; reflexivity].
Defined.

Lemma scheduler_overcommits_witness :
  ∃ calls, MemoryScheduler {| vc_domains := Some demo_domains; vc_free_memory := demo_free 50 |}
    = Ok calls ∧ (50 < net_demand (stats_of demo_domains) calls)%Z.
Proof.
  apply (scheduler_overcommits (demo_free 50) demo_domains); [by vm_compute|apply demo_stats_ok
    |apply demo_plausible|by vm_compute|vm_compute; intros H; by apply H].
Defined.

Lemma scheduler_safe_witness :
  let calls := [(0%nat, (612 * 1024)%Z); (1%nat, (924 * 1024)%Z)] in
  NoDup calls.*1 ∧
  ∀ i kib, (i, kib) ∈ calls → ∃ d m, demo_domains !! i = Some d ∧
    stats_of demo_domains !! i = Some m ∧
    (kib = ((balloon_mem m - mem_alloc_unit) * 1024)%Z ∧
       (unused_mem_low < unused_mem m - mem_alloc_unit)%Z ∨
     kib = ((balloon_mem m + mem_alloc_unit) * 1024)%Z ∧
       (unused_mem m < unused_mem_low)%Z ∧ (kib ≤ vd_max_memory d)%Z).
Proof.
  apply (scheduler_safe (demo_free 250) demo_domains); [by vm_compute|apply demo_stats_ok
    |apply demo_plausible|vm_compute; reflexivity].
Defined.
