(* ===== verification/Double.v ===== *)
(** * C doubles

    IEEE 754 binary64 with rounding to nearest even, as executable functions on
    [spec_float], and the facts about their order that the scheduler needs. *)
From S2P Require Import Prelude.
From Stdlib Require Import SpecFloat.

Abbreviation double := spec_float.

Definition of_Z (z : Z) : double := binary_normalize 53 1024 z 0 false.
Definition zero : double := S754_zero false.
Definition DBL_MAX : double := S754_finite false (2 ^ 53 - 1) 971.

Definition dadd (x y : double) : double := SFadd 53 1024 x y.
Definition dsub (x y : double) : double := SFsub 53 1024 x y.
Definition dmul (x y : double) : double := SFmul 53 1024 x y.
Definition ddiv (x y : double) : double := SFdiv 53 1024 x y.
Definition dsqrt (x : double) : double := SFsqrt 53 1024 x.

Definition is_nan (x : double) : bool := match x with S754_nan => true | _ => false end.

(** ** Order *)

(** The place of a number in the order, as a triple in lexicographic order. *)
Definition key (x : double) : Z * Z * Z :=
  match x with
  | S754_zero _ | S754_nan => (0, 0, 0)
  | S754_infinity s => (if s then -2 else 2, 0, 0)
  | S754_finite false m e => (1, e, Z.pos m)
  | S754_finite true m e => (-1, - e, - Z.pos m)
  end%Z.

Definition key_lt (k1 k2 : Z * Z * Z) : Prop :=
  let '(a1, b1, c1) := k1 in let '(a2, b2, c2) := k2 in
  (a1 < a2 ∨ a1 = a2 ∧ (b1 < b2 ∨ b1 = b2 ∧ c1 < c2))%Z.

Lemma SFltb_key x y :
  SFltb x y = true ↔ is_nan x = false ∧ is_nan y = false ∧ key_lt (key x) (key y).
Proof.
  unfold SFltb, SFcompare, key_lt, key.
  destruct x as [[]|[]| |[] mx ex], y as [[]|[]| |[] my ey]; cbn;
    try (split; [intros [=]|intros (?&?&?); (discriminate || lia)]; fail);
    try (split; [intros _; split_and!; (reflexivity || lia)|reflexivity]; fail).
  all: change (Pos.compare_cont Eq mx my) with (mx ?= my)%positive.
  all: destruct (Z.compare_spec ex ey); [destruct (Pos.compare_spec mx my)|..]; cbn.
  all: split; [intros H'; first [discriminate H'|split_and!; (reflexivity || lia)]
              |intros (_&_&?); (reflexivity || lia)].
Qed.

Lemma SFltb_trans x y z : SFltb x y = true → SFltb y z = true → SFltb x z = true.
Proof.
  rewrite !SFltb_key. unfold key_lt. destruct (key x) as [[??]?], (key y) as [[??]?], (key z) as [[??]?].
  intuition lia.
Qed.

Lemma SFltb_irrefl x : SFltb x x = false.
Proof.
  destruct (SFltb x x) eqn:E; [|done]. apply SFltb_key in E as (_&_&E).
  unfold key_lt in E. destruct (key x) as [[??]?]. lia.
Qed.

Lemma SFltb_asym x y : SFltb x y = true → SFltb y x = false.
Proof.
  intros H. destruct (SFltb y x) eqn:E; [|done].
  pose proof (SFltb_trans _ _ _ H E) as Hxx. by rewrite SFltb_irrefl in Hxx.
Qed.

(** What is not below a number is not below a smaller one. *)
Lemma SFltb_not_lt x y z : SFltb x y = false → SFltb z y = true → SFltb x z = false.
Proof.
  intros H1 H2. destruct (SFltb x z) eqn:E; [|done].
  by rewrite (SFltb_trans _ _ _ E H2) in H1.
Qed.

(** Among numbers the order is total: its complement is transitive. *)
Lemma SFltb_negtrans x y z :
  is_nan y = false → SFltb x y = false → SFltb y z = false → SFltb x z = false.
Proof.
  intros Hy Hxy Hyz. destruct (SFltb x z) eqn:E; [|done].
  apply SFltb_key in E as (Hx & Hz & E). exfalso.
  assert (¬ key_lt (key x) (key y)) as H1.
  { intros H. assert (SFltb x y = true); [by apply SFltb_key|congruence]. }
  assert (¬ key_lt (key y) (key z)) as H2.
  { intros H. assert (SFltb y z = true); [by apply SFltb_key|congruence]. }
  unfold key_lt in *.
  destruct (key x) as [[??]?], (key y) as [[??]?], (key z) as [[??]?]. lia.
Qed.

(** ** Signs *)

(** Not above zero. *)
Definition nonpos (x : double) : Prop := SFltb zero x = false.

Lemma binary_round_aux_neg m e l : nonpos (binary_round_aux 53 1024 true m e l).
Proof.
  unfold nonpos, binary_round_aux. destruct (shr_fexp _ _ _ _ _) as [r1 e1].
  destruct (shr_fexp _ _ _ _ _) as [r2 e2]. destruct (shr_m r2) as [|p|p]; [done| |done].
  by destruct (_ <=? _)%Z.
Qed.

Lemma of_Z_pos z : (0 < z)%Z → of_Z z = S754_infinity false ∨ of_Z z = zero ∨ of_Z z = S754_nan ∨
  ∃ m e, of_Z z = S754_finite false m e.
Proof.
  destruct z as [|p|p]; [lia| |lia]. intros _. unfold of_Z. cbn [binary_normalize].
  unfold binary_round. destruct (shl_align _ _ _) as [m e].
  unfold binary_round_aux. destruct (shr_fexp _ _ _ _ _) as [r1 e1].
  destruct (shr_fexp _ _ _ _ _) as [r2 e2]. destruct (shr_m r2) as [|q|q]; [by auto| |by auto].
  destruct (_ <=? _)%Z; eauto 10.
Qed.

(** A quotient of a non-negative number by a negative finite one. *)
Lemma ddiv_neg z m e : (0 ≤ z)%Z → nonpos (ddiv (of_Z z) (S754_finite true m e)).
Proof.
  intros Hz. destruct (decide (z = 0)%Z) as [->|Hnz]; [done|].
  destruct (of_Z_pos z) as [->|[->|[->|(m' & e' & ->)]]]; [lia|done..|].
  unfold ddiv. cbn [SFdiv xorb]. destruct (SFdiv_core_binary _ _ _ _ _ _) as [[mz ez] lz].
  apply binary_round_aux_neg.
Qed.
