(* ===== verification/VcpuScheduler.v ===== *)
(** * The vCPU scheduler (project1-1/cpu/src/vcpu_scheduler.c)

    One call of [CPUScheduler]: the readings of libvirt are the input, the
    calls of [virDomainPinVcpu] and the array [cpu_times] are the output, the
    process exits where the source calls [error(_, 1)].  An access outside an
    array is undefined.  [qsort] is an interface: any function that sorts. *)
From S2P Require Import Prelude Double.
From Stdlib Require Import SpecFloat.

Definition MAX_VM : nat := 32.
Definition BALANCE_THRESHOLD : Z := 5.

Record VM_CPU_Usage := Usage { cpu_usage : double; vm_id : nat }.

(** ** What libvirt answers *)

(** A running domain: the CPU time, in ns, [None] when a call fails; the pCPU
    of its vCPU with the pinning map, [None] when the call fails; and whether
    pinning succeeds. *)
Record virDomain := {
  vd_cpu_time : option Z;
  vd_vcpu : option (Z * list Z);
  vd_pin_ok : bool
}.

(** The globals that [main] sets, and the domains, [None] when
    [virConnectListAllDomains] fails. *)
Record host := {
  n_host_cpus : nat;
  h_domains : option (list virDomain)
}.

Definition VIR_CPU_MAPLEN (n : nat) : nat := (n + 7) / 8.
Definition cpu_map_len (h : host) : nat := VIR_CPU_MAPLEN (n_host_cpus h).

(** [qsort] with [cmp_vm_usage]: any permutation that leaves no smaller usage
    before a larger one, where the comparison is an order. *)
Definition cmp_vm_usage (vm1 vm2 : VM_CPU_Usage) : Z :=
  if SFltb (cpu_usage vm2) (cpu_usage vm1) then -1
  else if SFeqb (cpu_usage vm1) (cpu_usage vm2) then 0 else 1.

Definition numbers (l : list VM_CPU_Usage) : Prop := Forall (λ u, is_nan (cpu_usage u) = false) l.

Class Qsort := {
  qsort : list VM_CPU_Usage → list VM_CPU_Usage;
  qsort_perm l : qsort l ≡ₚ l;
  qsort_sorted l : numbers l →
    StronglySorted (λ a b, SFltb (cpu_usage a) (cpu_usage b) = false) (qsort l)
}.

(** ** Reading *)

(** An index of type [int]. *)
Definition idx (z : Z) : res nat := if decide (z < 0)%Z then Err Undefined else mret (Z.to_nat z).

Definition get_vm_cpu_times (domains : list virDomain) : res (list Z) :=
  mfoldl (λ times d,
    match vd_cpu_time d with None => Err (Exit 1) | Some t => mret (times ++ [t]) end) [] domains.

(** [100 * (cur - prev) / (double)(interval * 1000000000)] *)
Definition usage_of (interval prev cur : Z) : double :=
  ddiv (of_Z (u64 (100 * u64 (cur - prev)))) (of_Z (i32 (interval * 1000000000))).

Definition calculate_vm_cpu_usages (cpu_times current : list Z) (interval : Z) :
    res (list VM_CPU_Usage) :=
  mfoldl (λ usages i,
    prev ← get cpu_times i;
    cur ← get current i;
    mret (usages ++ [Usage (usage_of interval prev cur) i])) [] (range 0 (length current)).

(** The bytes that the check of the map reports: byte [k] and the bit. *)
Fixpoint map_mismatch (k : nat) (p_cpu : Z) (cpumaps : list Z) : list (nat * nat) :=
  match cpumaps with
  | [] => []
  | b :: rest =>
    if decide (p_cpu < 8)%Z then
      (pair k <$> filter (λ j, Z.testbit b (Z.of_nat j) ≠ bool_decide (Z.of_nat j = p_cpu))
                   (seq 0 8)) ++ map_mismatch (S k) p_cpu rest
    else
      (if decide (b ≠ 0)%Z then [(k, 8)] else []) ++ map_mismatch (S k) (p_cpu - 8) rest
  end.

Definition get_cpu_mapping (domains : list virDomain) : res (list Z) :=
  mfoldl (λ mapping d,
    match vd_vcpu d with None => Err (Exit 1) | Some (p, _) => mret (mapping ++ [p]) end) [] domains.

Definition add_workload (mapping : list Z) (workloads : list double) (u : VM_CPU_Usage) :
    res (list double) :=
  m ← get mapping (vm_id u);
  p ← idx m;
  w ← get workloads p;
  put workloads p (dadd w (cpu_usage u)).

Definition calculate_pcpu_workload (n : nat) (usages : list VM_CPU_Usage) (mapping : list Z) :
    res (list double) :=
  mfoldl (add_workload mapping) (replicate n zero) usages.

Definition calculate_std_dev (workloads : list double) : double :=
  let n := of_Z (Z.of_nat (length workloads)) in
  let sum := foldl dadd zero workloads in
  let mean := ddiv sum n in
  let sq := foldl (λ s w, let diff := dsub w mean in dadd s (dmul diff diff)) zero workloads in
  dsqrt (ddiv sq n).

(** ** Pinning *)

(** [cpumaps[p_cpu / 8] = 1 << (p_cpu % 8)], an [unsigned char]. *)
Definition pin_cpumap (len p_cpu : nat) : list Z :=
  <[p_cpu / 8 := Z.shiftl 1 (Z.of_nat (p_cpu mod 8))]> (replicate len 0%Z).

(** A call of [virDomainPinVcpu]: the domain, the pCPU and the map. *)
Record pin := Pin { pin_vm : nat; pin_cpu : nat; pin_map : list Z }.

Definition pin_vm_to_pcpu (h : host) (domains : list virDomain) (i p : nat) : res pin :=
  d ← get domains i;
  if decide (p / 8 < cpu_map_len h) then
    if vd_pin_ok d then mret (Pin i p (pin_cpumap (cpu_map_len h) p)) else Err (Exit 1)
  else Err Undefined.

(** ** The assignment *)

(** [new_mapping], [workloads] and the calls made. *)
Record plan := Plan { new_mapping : list nat; workloads : list double; pins : list pin }.

Definition free_slot (nm : list nat) (j : nat) : Prop := nm !! j = Some 0.

#[export] Instance free_slot_dec nm j : Decision (free_slot nm j).
Proof. unfold free_slot. apply _. Defined.

Section scheduler.
Context (h : host) (domains : list virDomain).

Let pin := pin_vm_to_pcpu h domains.

(** *** No more VMs than pCPUs *)

(** The search for a slot, which goes on after it has found one. *)
Definition spread_slot (i : nat) (p : plan) (j : nat) : res plan :=
  if decide (free_slot (new_mapping p) j) then
    c ← pin i j;
    mret (Plan (<[j := i]> (new_mapping p)) (workloads p) (pins p ++ [c]))
  else mret p.

Definition spread_vm (mapping : list Z) (p : plan) (i : nat) : res plan :=
  m ← get mapping i;
  k ← idx m;
  v ← get (new_mapping p) k;
  if decide (v = 0) then
    nm ← put (new_mapping p) k i;
    mret (Plan nm (workloads p) (pins p))
  else mfoldl (spread_slot i) p (range 0 (n_host_cpus h)).

Definition spread (mapping : list Z) (p : plan) : res plan :=
  mfoldl (spread_vm mapping) p (range 0 (length domains)).

(** *** More VMs than pCPUs *)

Definition place (vm : nat) (usage : double) (j : nat) (p : plan) : res plan :=
  c ← pin vm j;
  mret (Plan (<[j := vm]> (new_mapping p)) (<[j := usage]> (workloads p)) (pins p ++ [c])).

(** The first VMs: its own pCPU if that is free, else the first free one. *)
Definition first_vm (mapping : list Z) (p : plan) (u : VM_CPU_Usage) : res plan :=
  m ← get mapping (vm_id u);
  k ← idx m;
  v ← get (new_mapping p) k;
  if decide (v = 0) then place (vm_id u) (cpu_usage u) k p
  else
    match list_find (λ j, free_slot (new_mapping p) j) (range 0 (n_host_cpus h)) with
    | Some (_, j) => place (vm_id u) (cpu_usage u) j p
    | None => mret p
    end.

(** The loop that looks for the smallest workload. *)
Definition least_loaded (ws : list double) : nat :=
  (foldl (λ (best : double * nat) (jw : nat * double),
     if SFltb jw.2 best.1 then (jw.2, jw.1) else best) (DBL_MAX, 0) (imap pair ws)).2.

Definition rest_vm (p : plan) (u : VM_CPU_Usage) : res plan :=
  let j := least_loaded (workloads p) in
  c ← pin (vm_id u) j;
  w ← get (workloads p) j;
  ws ← put (workloads p) j (dadd w (cpu_usage u));
  mret (Plan (new_mapping p) ws (pins p ++ [c])).

Definition pack (usages : list VM_CPU_Usage) (mapping : list Z) (p : plan) : res plan :=
  let n := n_host_cpus h in
  p ← mfoldl (first_vm mapping) (Plan (new_mapping p) (replicate n zero) (pins p)) (take n usages);
  mfoldl rest_vm p (drop n usages).
End scheduler.

Section cpu_scheduler.
Context `{!Qsort}.

Definition rebalance (h : host) (domains : list virDomain) (usages : list VM_CPU_Usage)
    (mapping : list Z) (ws : list double) : res (list pin) :=
  let usages := qsort usages in
  let p := Plan (replicate (n_host_cpus h) 0) ws [] in
  p ← (if decide (length domains ≤ n_host_cpus h)
       then spread h domains mapping p
       else pack h domains usages mapping p);
  mret (pins p).

(** [cpu_times[i] = current_cpu_times[i]] for every VM. *)
Definition save_times (cpu_times current : list Z) : res (list Z) :=
  mfoldl (λ times i, cur ← get current i; put times i cur) cpu_times (range 0 (length current)).

Definition CPUScheduler (h : host) (cpu_times : list Z) (interval : Z) :
    res (list Z * list pin) :=
  match h_domains h with
  | None => Err Undefined (* an array of length -1 *)
  | Some domains =>
    current ← get_vm_cpu_times domains;
    t0 ← get cpu_times 0;
    if decide (t0 = 0)%Z then
      times ← save_times cpu_times current;
      mret (times, [])
    else
      usages ← calculate_vm_cpu_usages cpu_times current interval;
      times ← save_times cpu_times current;
      mapping ← get_cpu_mapping domains;
      ws ← calculate_pcpu_workload (n_host_cpus h) usages mapping;
      if SFltb (of_Z BALANCE_THRESHOLD) (calculate_std_dev ws) then
        ps ← rebalance h domains usages mapping ws;
        mret (times, ps)
      else mret (times, [])
  end.

(** [main]: the array starts as zeros, and the loop calls the scheduler on what
    the host shows at each turn. *)
Definition main_loop (interval : Z) (turns : list host) : res (list Z * list (list pin)) :=
  mfoldl (λ st h,
    r ← CPUScheduler h st.1 interval;
    mret (r.1, st.2 ++ [r.2])) (replicate MAX_VM 0%Z, []) turns.
End cpu_scheduler.

(** *** check_balance, which the source keeps but no longer calls *)

(** [DBL_MIN], the smallest positive normal number. *)
Definition DBL_MIN : double := S754_finite false (2 ^ 52) (-1074).

Definition check_balance (ws : list double) (mapping : list Z) : bool :=
  let '(max_wl, max_pcpu_id, min_wl) :=
    foldl (λ '(mx, id, mn) (jw : nat * double),
      let '(mx, id) := if SFltb mx jw.2 then (jw.2, jw.1) else (mx, id) in
      (mx, id, if SFltb jw.2 mn then jw.2 else mn)) (DBL_MIN, 0, DBL_MAX) (imap pair ws) in
  if SFleb (dsub max_wl min_wl) (of_Z BALANCE_THRESHOLD) then true
  else bool_decide (length (filter (λ m, m = Z.of_nat max_pcpu_id) mapping) = 1).

(** ** Specifications *)

(** The pCPU [q] is set in a map. *)
Definition map_bit (cpumap : list Z) (q : nat) : bool :=
  Z.testbit (default 0%Z (cpumap !! (q / 8))) (Z.of_nat (q mod 8)).

(** Readings with which no call fails: every vCPU runs on a pCPU of the host. *)
Record sane (h : host) (domains : list virDomain) (mapping : list Z) : Prop := {
  sn_pin d : d ∈ domains → vd_pin_ok d = true;
  sn_length : length mapping = length domains;
  sn_cpus m : m ∈ mapping → (0 ≤ m < Z.of_nat (n_host_cpus h))%Z
}.

(** The usages list every VM once. *)
Definition all_vms (domains : list virDomain) (usages : list VM_CPU_Usage) : Prop :=
  (vm_id <$> usages) ≡ₚ seq 0 (length domains).

(** ** Lemmas *)

Lemma map_len_enough n p : p < n → p / 8 < VIR_CPU_MAPLEN n.
Proof.
  intros H. unfold VIR_CPU_MAPLEN. apply Nat.Div0.div_lt_upper_bound.
  pose proof (Nat.div_mod_eq (n + 7) 8). pose proof (Nat.mod_upper_bound (n + 7) 8). lia.
Qed.

Lemma pin_cpumap_bit n p q :
  p < n → q < n → map_bit (pin_cpumap (VIR_CPU_MAPLEN n) p) q = bool_decide (q = p).
Proof.
  intros Hp Hq. unfold map_bit, pin_cpumap.
  pose proof (map_len_enough n p Hp). pose proof (map_len_enough n q Hq).
  pose proof (Nat.div_mod_eq p 8). pose proof (Nat.div_mod_eq q 8).
  pose proof (Nat.mod_upper_bound p 8). pose proof (Nat.mod_upper_bound q 8).
  destruct (decide (p / 8 = q / 8)) as [Hd|Hd].
  - rewrite Hd, list_lookup_insert_eq by (rewrite length_replicate; lia). cbn [default]. unfold id.
    rewrite Z.shiftl_1_l, Z.pow2_bits_eqb by lia.
    destruct (Z.eqb_spec (Z.of_nat (p mod 8)) (Z.of_nat (q mod 8))).
    + rewrite bool_decide_true; [done|]. lia.
    + rewrite bool_decide_false; [done|]. intros ->. lia.
  - rewrite list_lookup_insert_ne, lookup_replicate_2 by done. cbn. rewrite Z.bits_0.
    rewrite bool_decide_false; [done|]. intros ->. lia.
Qed.

Section lemmas.
Context (h : host) (domains : list virDomain) (mapping : list Z).
Context (Hsane : sane h domains mapping).

Lemma pin_ok i p :
  i < length domains → p < n_host_cpus h →
  pin_vm_to_pcpu h domains i p = Ok (Pin i p (pin_cpumap (cpu_map_len h) p)).
Proof.
  intros Hi Hp. unfold pin_vm_to_pcpu, get.
  destruct (lookup_lt_is_Some_2 domains i Hi) as [d Hd]. rewrite Hd. cbn [mbind res_bind].
  rewrite decide_True by by apply map_len_enough.
  rewrite (sn_pin _ _ _ Hsane d) by by eapply list_elem_of_lookup_2. done.
Qed.

Lemma mapping_ok i :
  i < length domains → ∃ k, get mapping i = Ok (Z.of_nat k) ∧ mapping !! i = Some (Z.of_nat k) ∧
    k < n_host_cpus h.
Proof.
  intros Hi. rewrite <-(sn_length _ _ _ Hsane) in Hi.
  destruct (lookup_lt_is_Some_2 mapping i Hi) as [m Hm].
  destruct (sn_cpus _ _ _ Hsane m) as [H0 Hn]; [by eapply list_elem_of_lookup_2|].
  exists (Z.to_nat m). unfold get. rewrite Hm, Z2Nat.id by lia. split; [done|]. split; [done|lia].
Qed.

Lemma idx_nat k : idx (Z.of_nat k) = Ok k.
Proof. unfold idx. rewrite decide_False by lia. by rewrite Nat2Z.id. Qed.

Lemma place_ok vm u j p :
  vm < length domains → j < n_host_cpus h →
  place h domains vm u j p =
  Ok (Plan (<[j := vm]> (new_mapping p)) (<[j := u]> (workloads p))
        (pins p ++ [Pin vm j (pin_cpumap (cpu_map_len h) j)])).
Proof. intros Hv Hj. unfold place. by rewrite pin_ok. Qed.

(** Fewer VMs than slots leave one free. *)
Lemma free_slot_exists (nm : list nat) :
  length (filter (.≠ 0) nm) < length nm → ∃ j, free_slot nm j.
Proof.
  intros H. unfold free_slot. induction nm as [|v nm IH]; [simpl in H; lia|].
  destruct (decide (v = 0)) as [->|Hv]; [by exists 0|].
  rewrite filter_cons_True in H by done. simpl in H.
  destruct IH as [j Hj]; [lia|]. by exists (S j).
Qed.

Lemma used_insert (nm : list nat) k vm :
  length (filter (.≠ 0) (<[k := vm]> nm)) ≤ S (length (filter (.≠ 0) nm)).
Proof.
  revert k. induction nm as [|v nm IH]; intros k; [simpl; lia|].
  destruct k as [|k]; cbn [list_insert insert].
  - rewrite !filter_cons. repeat case_decide; simpl; lia.
  - specialize (IH k). rewrite !filter_cons. case_decide; [apply le_n_S, IH|apply IH].
Qed.

(** Where the first VMs go. *)
Lemma first_vm_ok p u :
  vm_id u < length domains → length (new_mapping p) = n_host_cpus h →
  length (filter (.≠ 0) (new_mapping p)) < n_host_cpus h →
  ∃ j, j < n_host_cpus h ∧ free_slot (new_mapping p) j ∧
    (∀ k, mapping !! vm_id u = Some (Z.of_nat k) → free_slot (new_mapping p) k → j = k) ∧
    first_vm h domains mapping p u = place h domains (vm_id u) (cpu_usage u) j p.
Proof.
  intros Hu Hl Hf. destruct (mapping_ok (vm_id u) Hu) as (k & Hg & Hk & Hkn).
  unfold first_vm. rewrite Hg. cbn [mbind res_bind]. rewrite idx_nat. cbn [mbind res_bind].
  destruct (lookup_lt_is_Some_2 (new_mapping p) k) as [v Hv]; [lia|].
  unfold get. rewrite Hv. cbn [mbind res_bind]. case_decide as H0.
  - subst v. exists k. split; [done|]. split; [done|]. split; [|done].
    intros k' Hk' _. rewrite Hk in Hk'. simplify_eq. done.
  - destruct (free_slot_exists (new_mapping p)) as [j Hj]; [lia|].
    assert (is_Some (list_find (λ j, free_slot (new_mapping p) j) (range 0 (n_host_cpus h)))) as [[i j'] Hfind].
    { apply (list_find_elem_of _ _ j); [|done]. apply elem_of_range.
      apply lookup_lt_Some in Hj. lia. }
    rewrite Hfind. apply list_find_Some in Hfind as (Hi & Hfree & _).
    apply list_elem_of_lookup_2, elem_of_range in Hi.
    exists j'. split; [lia|]. split; [done|]. split; [|done].
    intros k' Hk' Hk0. rewrite Hk in Hk'. simplify_eq. unfold free_slot in Hk0. congruence.
Qed.

(** The pins of VMs put on given pCPUs. *)
Definition pins_of (us : list VM_CPU_Usage) (js : list nat) : list pin :=
  zip_with (λ u j, Pin (vm_id u) j (pin_cpumap (cpu_map_len h) j)) us js.

Lemma first_phase us p :
  Forall (λ u, vm_id u < length domains) us →
  length (new_mapping p) = n_host_cpus h → length (workloads p) = n_host_cpus h →
  length (filter (.≠ 0) (new_mapping p)) + length us ≤ n_host_cpus h →
  ∃ p' js, mfoldl (first_vm h domains mapping) p us = Ok p' ∧
    length (workloads p') = n_host_cpus h ∧ length js = length us ∧
    pins p' = pins p ++ pins_of us js ∧ Forall (λ j, j < n_host_cpus h) js ∧
    (0 ∉ vm_id <$> us → NoDup js ∧ Forall (free_slot (new_mapping p)) js).
Proof.
  intros Hus. revert p. induction Hus as [|u us Hu _ IH]; intros p Hl Hw Hf.
  { exists p, []. unfold pins_of. cbn. rewrite app_nil_r. split_and!; try done.
    intros _. split; [constructor|done]. }
  cbn [length] in Hf.
  destruct (first_vm_ok p u Hu Hl) as (j & Hj & Hfree & _ & Hfirst); [lia|].
  cbn [mfoldl]. rewrite Hfirst, place_ok by done. cbn [mbind res_bind].
  set (p1 := Plan _ _ _).
  pose proof (used_insert (new_mapping p) j (vm_id u)).
  destruct (IH p1) as (p' & js & -> & Hw' & Hjs & Hpins & Hlt & Hnd);
    [by cbn; rewrite length_insert|by cbn; rewrite length_insert|cbn [new_mapping p1]; lia|].
  exists p', (j :: js). split; [done|]. split; [done|]. split; [simpl; lia|].
  split; [by rewrite Hpins; cbn; rewrite <-app_assoc|]. split; [by constructor|].
  intros H0. rewrite fmap_cons, not_elem_of_cons in H0. destruct H0 as [Hu0 H0].
  destruct (Hnd H0) as [Hnd1 Hfr]. cbn in Hfr.
  assert (Forall (λ j', j' ≠ j ∧ free_slot (new_mapping p) j') js) as Hfr'.
  { eapply Forall_impl; [exact Hfr|]. intros j' Hj'. unfold free_slot in *.
    destruct (decide (j' = j)) as [->|Hne].
    - rewrite list_lookup_insert_eq in Hj' by lia. congruence.
    - by rewrite list_lookup_insert_ne in Hj'. }
  split.
  - constructor; [|done]. intros Hin. rewrite Forall_forall in Hfr'. by destruct (Hfr' j Hin).
  - constructor; [done|]. eapply Forall_impl; [exact Hfr'|]. by intros ? [_ ?].
Qed.

(** A VM whose pCPU is free stays there. *)
Lemma first_vm_own nm w ps u k :
  vm_id u < length domains → k < n_host_cpus h →
  mapping !! vm_id u = Some (Z.of_nat k) → nm !! k = Some 0 →
  first_vm h domains mapping (Plan nm w ps) u =
  Ok (Plan (<[k := vm_id u]> nm) (<[k := cpu_usage u]> w)
        (ps ++ [Pin (vm_id u) k (pin_cpumap (cpu_map_len h) k)])).
Proof.
  intros Hu Hk Hm Hn. unfold first_vm, get. rewrite Hm. cbn [mbind res_bind].
  rewrite idx_nat. cbn [mbind res_bind new_mapping]. rewrite Hn. cbn [mbind res_bind].
  rewrite decide_True by done. by rewrite place_ok.
Qed.

Lemma filter_replicate_zero n : length (filter (.≠ 0) (replicate n 0)) = 0.
Proof. clear. by induction n. Qed.

(** *** The least loaded pCPU *)

Lemma least_loaded_loop ws i0 best :
  let r := foldl (λ (best : double * nat) (jw : nat * double),
     if SFltb jw.2 best.1 then (jw.2, jw.1) else best) best (imap (λ i, pair (i0 + i)) ws) in
  (∀ w, w ∈ ws → SFltb w r.1 = false) ∧ (SFltb r.1 best.1 = true ∨ r = best) ∧
  (r = best ∨ ∃ i, ws !! i = Some r.1 ∧ r.2 = i0 + i).
Proof.
  revert i0 best. induction ws as [|w ws IH]; intros i0 best; cbn [imap foldl].
  { cbn. split; [set_solver|]. auto. }
  rewrite Nat.add_0_r. cbn [fst snd].
  replace (imap ((λ i, pair (i0 + i)) ∘ S) ws) with (imap (λ i, @pair nat double (S i0 + i)) ws).
  2: { apply imap_ext. intros. unfold compose. by rewrite Nat.add_succ_r. }
  set (best' := if SFltb w best.1 then (w, i0) else best).
  destruct (IH (S i0) best') as (H1 & H2 & H3). set (r := foldl _ best' _) in *.
  assert (SFltb w r.1 = false) as Hw.
  { assert (SFltb w best'.1 = false) as Hb.
    { unfold best'. destruct (SFltb w best.1) eqn:E; [apply SFltb_irrefl|done]. }
    destruct H2 as [H2| ->]; [|done]. by eapply SFltb_not_lt. }
  split; [intros w' [->|Hin]%elem_of_cons; auto|].
  unfold best' in H2, H3. destruct (SFltb w best.1) eqn:E.
  - split.
    + left. destruct H2 as [H2| ->]; [|done]. by eapply SFltb_trans.
    + right. destruct H3 as [-> |(i & Hi & ->)]; [exists 0|exists (S i)]; cbn; split; try done; lia.
  - split; [done|]. destruct H3 as [->|(i & Hi & ->)]; [by left|].
    right. exists (S i). cbn. split; [done|lia].
Qed.

(** The loop finds a pCPU with the smallest workload. *)
Lemma least_loaded_ok ws w0 :
  w0 ∈ ws → SFltb w0 DBL_MAX = true →
  ∃ m, ws !! least_loaded ws = Some m ∧ ∀ w, w ∈ ws → SFltb w m = false.
Proof.
  intros Hin Hmax. destruct (least_loaded_loop ws 0 (DBL_MAX, 0)) as (H1 & _ & H3).
  unfold least_loaded. change (λ i, pair (0 + i)) with (@pair nat double) in *.
  set (r := foldl _ _ _) in *. destruct H3 as [Hr|(i & Hi & Hr)].
  - specialize (H1 w0 Hin). rewrite Hr in H1. cbn in H1. congruence.
  - exists r.1. rewrite Hr. done.
Qed.

Lemma least_loaded_lt ws : ws ≠ [] → least_loaded ws < length ws.
Proof.
  intros Hne. destruct (least_loaded_loop ws 0 (DBL_MAX, 0)) as (_ & _ & H3).
  unfold least_loaded. change (λ i, pair (0 + i)) with (@pair nat double) in *.
  set (r := foldl _ _ _) in *. destruct H3 as [->|(i & Hi & ->)].
  - destruct ws; [done|simpl; lia].
  - by apply lookup_lt_Some in Hi.
Qed.

Lemma rest_vm_ok p u w :
  vm_id u < length domains → length (workloads p) = n_host_cpus h → 0 < n_host_cpus h →
  workloads p !! least_loaded (workloads p) = Some w →
  rest_vm h domains p u =
  Ok (Plan (new_mapping p) (<[least_loaded (workloads p) := dadd w (cpu_usage u)]> (workloads p))
       (pins p ++ [Pin (vm_id u) (least_loaded (workloads p))
                     (pin_cpumap (cpu_map_len h) (least_loaded (workloads p)))])).
Proof.
  intros Hu Hl Hpos Hw. unfold rest_vm.
  assert (least_loaded (workloads p) < n_host_cpus h) as Hlt by (apply lookup_lt_Some in Hw; lia).
  rewrite pin_ok by done. cbn [mbind res_bind]. unfold get. rewrite Hw. cbn [mbind res_bind].
  unfold put. rewrite decide_True by lia. done.
Qed.

Lemma rest_phase us p :
  Forall (λ u, vm_id u < length domains) us →
  length (workloads p) = n_host_cpus h → 0 < n_host_cpus h →
  ∃ p' js, mfoldl (rest_vm h domains) p us = Ok p' ∧ length js = length us ∧
    pins p' = pins p ++ pins_of us js ∧ Forall (λ j, j < n_host_cpus h) js.
Proof.
  intros Hus. revert p. induction Hus as [|u us Hu _ IH]; intros p Hw Hpos.
  { exists p, []. unfold pins_of. cbn. by rewrite app_nil_r. }
  assert (least_loaded (workloads p) < n_host_cpus h) as Hlt.
  { rewrite <-Hw. apply least_loaded_lt. intros E. rewrite E in Hw. simpl in Hw. lia. }
  destruct (lookup_lt_is_Some_2 (workloads p) (least_loaded (workloads p))) as [w Hlw]; [lia|].
  cbn [mfoldl]. rewrite (rest_vm_ok p u w) by done. cbn [mbind res_bind].
  set (p1 := Plan _ _ _). destruct (IH p1) as (p' & js & -> & Hjs & Hpins & Hall);
    [by cbn; rewrite length_insert|done|].
  exists p', (least_loaded (workloads p) :: js). split; [done|]. split; [simpl; lia|].
  split; [by rewrite Hpins; cbn; rewrite <-app_assoc|by constructor].
Qed.

(** The whole assignment. *)
Lemma pack_ok us p :
  Forall (λ u, vm_id u < length domains) us → 0 < n_host_cpus h → n_host_cpus h ≤ length us →
  ∃ p' js, pack h domains us mapping (Plan (replicate (n_host_cpus h) 0) p []) = Ok p' ∧
    length js = length us ∧ pins p' = pins_of us js ∧ Forall (λ j, j < n_host_cpus h) js ∧
    (0 ∉ vm_id <$> take (n_host_cpus h) us → NoDup (take (n_host_cpus h) js)).
Proof.
  intros Hus Hpos Hle. unfold pack. cbn [new_mapping pins].
  set (n := n_host_cpus h) in *. rewrite <-(take_drop n us) in Hus. apply Forall_app in Hus as [Hus1 Hus2].
  set (p0 := Plan (replicate n 0) (replicate n zero) []).
  destruct (first_phase (take n us) p0) as (p1 & js1 & -> & Hw & Hl1 & Hp1 & Hlt1 & Hnd);
    [done|apply length_replicate|apply length_replicate| |].
  { cbn [new_mapping p0].
    rewrite filter_replicate_zero, length_take. lia. }
  cbn [mbind res_bind].
  destruct (rest_phase (drop n us) p1) as (p' & js2 & -> & Hl2 & Hp2 & Hlt2); [done|done|done|].
  exists p', (js1 ++ js2). split; [done|].
  assert (length us = length (take n us) + length (drop n us)) as Hlen
    by by rewrite <-length_app, take_drop.
  split; [rewrite length_app; lia|]. split.
  - rewrite Hp2, Hp1. cbn [pins p0 app]. rewrite <-(take_drop n us) at 3.
    unfold pins_of. by rewrite zip_with_app.
  - split; [by apply Forall_app|]. intros H0. destruct (Hnd H0) as [Hnd1 _].
    rewrite take_app_length'; [done|]. rewrite Hl1, length_take. lia.
Qed.

Lemma pins_of_vms us js : length js = length us → pin_vm <$> pins_of us js = vm_id <$> us.
Proof.
  revert js. induction us as [|u us IH]; intros [|j js] H; try done.
  simpl in *. unfold pins_of in *. cbn. by rewrite IH by lia.
Qed.

Lemma pins_of_cpus us js : length js = length us → pin_cpu <$> pins_of us js = js.
Proof.
  revert js. induction us as [|u us IH]; intros [|j js] H; try done.
  simpl in *. unfold pins_of in *. cbn. by rewrite IH by lia.
Qed.

Lemma pins_of_elem us js c :
  c ∈ pins_of us js → pin_cpu c ∈ js ∧ pin_map c = pin_cpumap (cpu_map_len h) (pin_cpu c).
Proof.
  unfold pins_of. intros (u & j & -> & Hu & Hj)%elem_of_zip_with. done.
Qed.

(** *** No more VMs than pCPUs *)

Lemma spread_slots_ok i p l :
  i < length domains → length (new_mapping p) = n_host_cpus h →
  (∀ j, j ∈ l → j < n_host_cpus h) → NoDup l →
  mfoldl (spread_slot h domains i) p l =
  Ok (Plan (foldl (λ nm j, if decide (free_slot nm j) then <[j := i]> nm else nm) (new_mapping p) l)
        (workloads p)
        (pins p ++ ((λ j, Pin i j (pin_cpumap (cpu_map_len h) j)) <$>
           filter (λ j, free_slot (new_mapping p) j) l))).
Proof.
  intros Hi Hl Hlt Hnd. revert p Hl Hlt. induction Hnd as [|j l Hj _ IH]; intros p Hl Hlt.
  { destruct p. cbn. by rewrite app_nil_r. }
  cbn [mfoldl foldl]. unfold spread_slot at 2. rewrite filter_cons. case_decide as Hfree.
  - rewrite pin_ok by (done || apply Hlt; left). cbn [mbind res_bind mret res_ret].
    rewrite IH; [|by cbn; rewrite length_insert|intros; apply Hlt; by right].
    cbn [new_mapping workloads pins]. f_equal. f_equal. rewrite fmap_cons, <-app_assoc. cbn [app].
    do 3 f_equal. apply filter_ext_elem. intros j' Hj'.
    unfold free_slot. rewrite list_lookup_insert_ne; [done|]. intros ->. done.
  - cbn [mbind res_bind mret res_ret]. rewrite IH; [done|done|]. intros. apply Hlt. by right.
Qed.
End lemmas.

Lemma foldl_fill (i : nat) (nm : list nat) l :
  i ≠ 0 → (∀ j, j ∈ l → j < length nm) →
  let nm' := foldl (λ nm j, if decide (free_slot nm j) then <[j := i]> nm else nm) nm l in
  length nm' = length nm ∧ (∀ j, j ∈ l → ¬ free_slot nm' j) ∧
  ∀ j, ¬ free_slot nm j → ¬ free_slot nm' j.
Proof.
  intros Hi. revert nm. induction l as [|j l IH]; intros nm Hl; cbn [foldl].
  { split; [done|]. split; [set_solver|done]. }
  set (nm1 := if decide (free_slot nm j) then <[j := i]> nm else nm).
  assert (length nm1 = length nm) as Hlen by (unfold nm1; case_decide; by rewrite ?length_insert).
  assert (¬ free_slot nm1 j) as Hj.
  { unfold nm1. case_decide; [|done]. unfold free_slot in *.
    rewrite list_lookup_insert_eq by (apply Hl; left). congruence. }
  destruct (IH nm1) as (H1 & H2 & H3); [intros; rewrite Hlen; apply Hl; by right|].
  split; [congruence|]. split.
  - intros j' [->|Hin]%elem_of_cons; [by apply H3|by apply H2].
  - intros j' Hf. apply H3. unfold nm1. case_decide; [|done].
    unfold free_slot in *. destruct (decide (j' = j)) as [->|Hne]; [done|].
    by rewrite list_lookup_insert_ne.
Qed.

(** VMs on different pCPUs keep them. *)
Lemma spread_keeps h domains mapping l nm ws ps :
  sane h domains mapping → NoDup l → (∀ i, i ∈ l → i < length domains) → NoDup mapping →
  length nm = n_host_cpus h →
  (∀ i k, i ∈ l → mapping !! i = Some (Z.of_nat k) → free_slot nm k) →
  ∃ nm', mfoldl (spread_vm h domains mapping) (Plan nm ws ps) l = Ok (Plan nm' ws ps).
Proof.
  intros Hs Hl. revert nm. induction Hl as [|i l Hi _ IH]; intros nm Hlt Hnd Hlen Hfree; [by eexists|].
  destruct (mapping_ok h domains mapping Hs i) as (k & Hg & Hk & Hkn); [apply Hlt; left|].
  cbn [mfoldl]. unfold spread_vm at 2. rewrite Hg. cbn [mbind res_bind]. rewrite idx_nat.
  cbn [mbind res_bind new_mapping]. unfold get, put.
  rewrite (Hfree i k ltac:(left) Hk). cbn [mbind res_bind]. rewrite decide_True by done.
  rewrite decide_True by lia. cbn [mbind res_bind mret res_ret workloads pins].
  apply IH; [intros; apply Hlt; by right|done|by rewrite length_insert|].
  intros i' k' Hi' Hk'. unfold free_slot. rewrite list_lookup_insert_ne.
  - apply (Hfree i' k'); [by right|done].
  - intros ->. assert (i = i'); [by eapply NoDup_lookup|congruence].
Qed.

Lemma get_vm_cpu_times_ok domains :
  Forall (λ d, is_Some (vd_cpu_time d)) domains →
  ∃ ts, get_vm_cpu_times domains = Ok ts ∧ length ts = length domains.
Proof.
  intros H. unfold get_vm_cpu_times.
  assert (∀ ts0, ∃ ts, mfoldl (λ times d,
    match vd_cpu_time d with None => Err (Exit 1) | Some t => mret (times ++ [t]) end) ts0 domains
    = Ok ts ∧ length ts = length ts0 + length domains) as Hgen; [|apply (Hgen [])].
  induction H as [|d l [t Hd] _ IH]; intros ts0; cbn [mfoldl length].
  { exists ts0. split; [done|lia]. }
  rewrite Hd. cbn [mbind res_bind mret res_ret]. destruct (IH (ts0 ++ [t])) as (ts & -> & Hlen).
  exists ts. split; [done|]. rewrite Hlen, length_app. simpl. lia.
Qed.

Lemma save_times_prefix (cpu_times current : list Z) k :
  k ≤ length current → k ≤ length cpu_times →
  mfoldl (λ times i, cur ← get current i; put times i cur) cpu_times (range 0 k) =
  Ok (take k current ++ drop k cpu_times).
Proof.
  induction k as [|k IH]; intros H1 H2; [done|].
  rewrite (range_split 0 k (S k)), mfoldl_app, IH by lia. cbn [mbind res_bind].
  replace (range k (S k)) with [k] by (unfold range; by replace (S k - k) with 1 by lia).
  cbn [mfoldl]. unfold get, put.
  destruct (lookup_lt_is_Some_2 current k) as [c Hc]; [lia|]. rewrite Hc. cbn [mbind res_bind].
  rewrite decide_True by (rewrite length_app, length_take, length_drop; lia).
  cbn [mbind res_bind]. f_equal.
  destruct (lookup_lt_is_Some_2 cpu_times k) as [o Ho]; [lia|].
  rewrite (drop_S _ _ _ Ho), insert_app_r_alt by (rewrite length_take; lia).
  rewrite length_take, Nat.min_l, Nat.sub_diag by lia. cbn [list_insert insert].
  rewrite (take_S_r _ _ _ Hc), <-app_assoc. done.
Qed.

Lemma save_times_ok cpu_times current :
  length current ≤ length cpu_times →
  save_times cpu_times current = Ok (current ++ drop (length current) cpu_times).
Proof.
  intros H. unfold save_times. rewrite save_times_prefix by lia. by rewrite take_ge by lia.
Qed.

Lemma save_times_undefined cpu_times current :
  length cpu_times < length current → save_times cpu_times current = Err Undefined.
Proof.
  intros H. unfold save_times.
  rewrite (range_split 0 (length cpu_times) (length current)), mfoldl_app by lia.
  rewrite save_times_prefix by lia. cbn [mbind res_bind]. unfold range.
  destruct (length current - length cpu_times) as [|m] eqn:E; [lia|]. cbn [seq mfoldl].
  unfold get, put. destruct (lookup_lt_is_Some_2 current (length cpu_times)) as [c Hc]; [lia|].
  rewrite Hc. cbn [mbind res_bind]. rewrite decide_False; [done|].
  rewrite length_app, length_take, length_drop. lia.
Qed.

Definition add_usage (cpu_times current : list Z) (interval : Z) (usages : list VM_CPU_Usage)
    (i : nat) : res (list VM_CPU_Usage) :=
  prev ← get cpu_times i;
  cur ← get current i;
  mret (usages ++ [Usage (usage_of interval prev cur) i]).

Lemma add_usage_err cpu_times current interval us i e :
  add_usage cpu_times current interval us i = Err e → e = Undefined.
Proof.
  unfold add_usage, get. destruct (cpu_times !! i), (current !! i); cbn [mbind res_bind mret res_ret]; intros H; (discriminate H || congruence).
Qed.

Lemma add_usages_err cpu_times current interval us l e :
  mfoldl (add_usage cpu_times current interval) us l = Err e → e = Undefined.
Proof.
  revert us. induction l as [|i l IH]; intros us; [done|]. cbn [mfoldl].
  destruct (add_usage _ _ _ us i) as [us'|e'] eqn:E; cbn [mbind res_bind]; [apply IH|].
  apply add_usage_err in E. intros; congruence.
Qed.

Lemma usages_undefined cpu_times current interval :
  length cpu_times < length current →
  calculate_vm_cpu_usages cpu_times current interval = Err Undefined.
Proof.
  intros H. unfold calculate_vm_cpu_usages.
  change (mfoldl (add_usage cpu_times current interval) [] (range 0 (length current)) = Err Undefined).
  rewrite (range_split 0 (length cpu_times) (length current)), mfoldl_app by lia.
  destruct (mfoldl _ [] (range 0 _)) as [us|e] eqn:E.
  - cbn [mbind res_bind]. unfold range.
    destruct (length current - length cpu_times) as [|m] eqn:Em; [lia|]. cbn [seq mfoldl].
    assert (add_usage cpu_times current interval us (length cpu_times) = Err Undefined) as ->; [|done].
    unfold add_usage, get. by rewrite (lookup_ge_None_2 cpu_times) by lia.
  - cbn [mbind res_bind]. f_equal. by eapply add_usages_err.
Qed.

Lemma map_mismatch_zeros k p a rest :
  (8 * Z.of_nat a ≤ p)%Z →
  map_mismatch k p (replicate a 0%Z ++ rest) = map_mismatch (k + a) (p - 8 * Z.of_nat a) rest.
Proof.
  revert k p. induction a as [|a IH]; intros k p H; cbn [replicate app].
  { rewrite Nat.add_0_r. f_equal. lia. }
  cbn [map_mismatch]. rewrite decide_False by lia. rewrite decide_False by lia. cbn [app].
  rewrite IH by lia. f_equal; lia.
Qed.

(** The byte with the bit agrees, a zero byte disagrees in that bit. *)
Lemma byte_agrees r b :
  r < 8 → b = Z.shiftl 1 (Z.of_nat r) →
  filter (λ j, Z.testbit b (Z.of_nat j) ≠ bool_decide (Z.of_nat j = Z.of_nat r)) (seq 0 8) = [].
Proof. intros H ->. do 8 (destruct r as [|r]; [vm_compute; reflexivity|]). lia. Qed.

Lemma byte_zero r :
  r < 8 →
  filter (λ j, Z.testbit 0 (Z.of_nat j) ≠ bool_decide (Z.of_nat j = Z.of_nat r)) (seq 0 8) = [r].
Proof. intros H. do 8 (destruct r as [|r]; [vm_compute; reflexivity|]). lia. Qed.

Lemma map_mismatch_tail k r a :
  r < 8 → map_mismatch k (Z.of_nat r) (replicate a 0%Z) = (λ i, (i, r)) <$> seq k a.
Proof.
  intros Hr. revert k. induction a as [|a IH]; intros k; [done|].
  cbn [replicate map_mismatch]. rewrite decide_True by lia. rewrite byte_zero by done.
  rewrite IH. done.
Qed.

(** *** Nothing fails on sane readings *)

Lemma usages_ok cpu_times current interval k :
  k ≤ length current → k ≤ length cpu_times →
  ∃ us, mfoldl (add_usage cpu_times current interval) [] (range 0 k) = Ok us ∧
    (vm_id <$> us) = seq 0 k.
Proof.
  induction k as [|k IH]; intros H1 H2; [by exists []|].
  destruct IH as (us & E & Hus); [lia|lia|].
  rewrite (range_split 0 k (S k)), mfoldl_app, E by lia. cbn [mbind res_bind].
  replace (range k (S k)) with [k] by (unfold range; by replace (S k - k) with 1 by lia).
  cbn [mfoldl]. unfold add_usage, get.
  destruct (lookup_lt_is_Some_2 cpu_times k) as [t ->]; [lia|].
  destruct (lookup_lt_is_Some_2 current k) as [c ->]; [lia|]. cbn [mbind res_bind mret res_ret].
  eexists. split; [reflexivity|]. rewrite fmap_app, Hus, seq_S. done.
Qed.

Lemma workload_ok h domains mapping us ws :
  sane h domains mapping → Forall (λ u, vm_id u < length domains) us →
  length ws = n_host_cpus h → ∃ ws', mfoldl (add_workload mapping) ws us = Ok ws'.
Proof.
  intros Hs Hus. revert ws. induction Hus as [|u us Hu _ IH]; intros ws Hl; [by eexists|].
  destruct (mapping_ok h domains mapping Hs (vm_id u) Hu) as (k & Hg & _ & Hk).
  cbn [mfoldl]. assert (∃ ws1, add_workload mapping ws u = Ok ws1 ∧ length ws1 = n_host_cpus h)
    as (ws1 & -> & Hl1).
  { unfold add_workload. rewrite Hg. cbn [mbind res_bind]. rewrite idx_nat. cbn [mbind res_bind].
    unfold get, put. destruct (lookup_lt_is_Some_2 ws k) as [w ->]; [lia|]. cbn [mbind res_bind].
    rewrite decide_True by lia. eexists. split; [reflexivity|]. by rewrite length_insert. }
  cbn [mbind res_bind]. by apply IH.
Qed.

Lemma foldl_fill_length (i : nat) (nm : list nat) l :
  length (foldl (λ nm j, if decide (free_slot nm j) then <[j := i]> nm else nm) nm l) = length nm.
Proof.
  revert nm. induction l as [|j l IH]; intros nm; [done|]. cbn [foldl]. rewrite IH.
  case_decide; by rewrite ?length_insert.
Qed.

Lemma spread_total h domains mapping p l :
  sane h domains mapping → (∀ i, i ∈ l → i < length domains) →
  length (new_mapping p) = n_host_cpus h →
  ∃ p', mfoldl (spread_vm h domains mapping) p l = Ok p'.
Proof.
  intros Hs. revert p. induction l as [|i l IH]; intros p Hlt Hl; [by eexists|].
  cbn [mfoldl]. assert (∃ p1, spread_vm h domains mapping p i = Ok p1 ∧
    length (new_mapping p1) = n_host_cpus h) as (p1 & -> & Hl1).
  { assert (i < length domains) as Hi by (apply Hlt; left).
    destruct (mapping_ok h domains mapping Hs i Hi) as (k & Hg & _ & Hk).
    unfold spread_vm. rewrite Hg. cbn [mbind res_bind]. rewrite idx_nat. cbn [mbind res_bind].
    unfold get, put. destruct (lookup_lt_is_Some_2 (new_mapping p) k) as [v ->]; [lia|].
    cbn [mbind res_bind]. case_decide.
    - rewrite decide_True by lia. eexists. split; [reflexivity|]. cbn. by rewrite length_insert.
    - rewrite (spread_slots_ok h domains mapping Hs) by
        (done || lia || (intros j Hj; apply elem_of_range in Hj; lia) || apply NoDup_seq).
      eexists. split; [reflexivity|]. cbn [new_mapping]. by rewrite foldl_fill_length. }
  cbn [mbind res_bind]. apply IH; [|done]. intros. apply Hlt. by right.
Qed.

Lemma rebalance_total `{!Qsort} h domains mapping us ws :
  sane h domains mapping → (vm_id <$> us) = seq 0 (length domains) →
  ∃ ps, rebalance h domains us mapping ws = Ok ps.
Proof.
  intros Hs Hus. unfold rebalance. case_decide as Hn.
  - destruct (spread_total h domains mapping (Plan (replicate (n_host_cpus h) 0) ws [])
      (range 0 (length domains)) Hs) as [p Hp].
    + intros i Hi. apply elem_of_range in Hi. lia.
    + apply length_replicate.
    + unfold spread. rewrite Hp. cbn [mbind res_bind mret res_ret]. by eexists.
  - assert (length us = length domains) as Hlen
      by (rewrite <-(length_fmap vm_id), Hus; apply length_seq).
    destruct (mapping_ok h domains mapping Hs 0) as (k & _ & _ & Hk); [lia|].
    destruct (pack_ok h domains mapping Hs (qsort us) ws) as (p & js & -> & _).
    + apply Forall_forall. intros u Hu. rewrite (qsort_perm us) in Hu.
      assert (vm_id u ∈ vm_id <$> us) as Hi by (apply list_elem_of_fmap; eauto).
      rewrite Hus in Hi. apply elem_of_seq in Hi. lia.
    + lia.
    + rewrite (qsort_perm us). lia.
    + cbn [mbind res_bind mret res_ret]. by eexists.
Qed.

(** ** Properties *)


(** 0 marks a free pCPU, but it is also the number of a VM: when the busiest
    VM is VM 0 and the next one shares its pCPU, both are pinned to that pCPU,
    although other pCPUs are free. *)
Theorem vm_zero_shares (h : host) (domains : list virDomain) (u v : VM_CPU_Usage)
    (us : list VM_CPU_Usage) (mapping : list Z) (ws : list double) (k : nat) :
  sane h domains mapping → Forall (λ u, vm_id u < length domains) (u :: v :: us) →
  2 ≤ n_host_cpus h ≤ length (u :: v :: us) → vm_id u = 0 →
  mapping !! 0 = Some (Z.of_nat k) → mapping !! vm_id v = Some (Z.of_nat k) →
  ∃ p' rest, pack h domains (u :: v :: us) mapping (Plan (replicate (n_host_cpus h) 0) ws []) = Ok p' ∧
    pins p' = Pin 0 k (pin_cpumap (cpu_map_len h) k) ::
              Pin (vm_id v) k (pin_cpumap (cpu_map_len h) k) :: rest.
Proof.
  intros Hs Hids Hn Hu Hmu Hmv.
  apply Forall_cons in Hids as [Hidu [Hidv Hids]%Forall_cons].
  unfold pack. cbn [new_mapping pins]. remember (n_host_cpus h) as m eqn:Em.
  destruct m as [|[|n]]; [lia|lia|]. cbn [take drop mfoldl].
  assert (k < S (S n)) as Hk.
  { pose proof (sn_cpus _ _ _ Hs (Z.of_nat k) (list_elem_of_lookup_2 _ _ _ Hmu)). lia. }
  rewrite (first_vm_own h domains mapping Hs _ _ _ u k) by
    (done || lia || by rewrite Hu || by apply lookup_replicate_2).
  cbn [mbind res_bind]. rewrite Hu.
  rewrite (first_vm_own h domains mapping Hs _ _ _ v k).
  2,4: done. 2: lia. 2: by rewrite list_lookup_insert_eq by by rewrite length_replicate.
  cbn [mbind res_bind app]. set (p2 := Plan _ _ _).
  assert (length (filter (.≠ 0) (new_mapping p2)) ≤ 1) as Hused.
  { cbn [new_mapping p2]. etrans; [apply used_insert|]. apply le_n_S.
    rewrite list_insert_id by by apply lookup_replicate_2. by rewrite filter_replicate_zero. }
  destruct (first_phase h domains mapping Hs (take n us) p2) as (p3 & js1 & -> & Hw3 & _ & Hp3 & _);
    [by apply Forall_take|by cbn [new_mapping p2]; rewrite !length_insert, length_replicate
    |by cbn [workloads p2]; rewrite !length_insert, length_replicate|rewrite length_take; lia|].
  cbn [mbind res_bind].
  destruct (rest_phase h domains mapping Hs (drop n us) p3) as (p4 & js2 & -> & _ & Hp4 & _);
    [by apply Forall_drop|done|lia|].
  exists p4. eexists. split; [done|]. rewrite Hp4, Hp3. reflexivity.
Qed.

(** A VM beyond the first goes to a pCPU with the smallest workload so far,
    to which its usage is added. *)
Theorem rest_vm_greedy (h : host) (domains : list virDomain) (mapping : list Z)
    (p : plan) (u : VM_CPU_Usage) (w0 : double) :
  sane h domains mapping → vm_id u < length domains →
  0 < n_host_cpus h → length (workloads p) = n_host_cpus h →
  w0 ∈ workloads p → SFltb w0 DBL_MAX = true →
  ∃ j w, workloads p !! j = Some w ∧ (∀ w', w' ∈ workloads p → SFltb w' w = false) ∧
    rest_vm h domains p u =
    Ok (Plan (new_mapping p) (<[j := dadd w (cpu_usage u)]> (workloads p))
         (pins p ++ [Pin (vm_id u) j (pin_cpumap (cpu_map_len h) j)])).
Proof.
  intros Hs Hu Hpos Hl Hin Hmax.
  destruct (least_loaded_ok h domains mapping Hs (workloads p) w0 Hin Hmax) as (w & Hw & Hmin).
  exists (least_loaded (workloads p)), w. split; [done|]. split; [done|].
  by eapply rest_vm_ok.
Qed.

(** Pinning a vCPU to a pCPU of the host sets exactly that pCPU in the map. *)
Theorem pin_sets_one_cpu (h : host) (domains : list virDomain) (i p : nat) (c : pin) :
  p < n_host_cpus h → pin_vm_to_pcpu h domains i p = Ok c →
  pin_vm c = i ∧ ∀ q, q < n_host_cpus h → map_bit (pin_map c) q = bool_decide (q = p).
Proof.
  intros Hp. unfold pin_vm_to_pcpu, get. destruct (domains !! i) as [d|]; [|done].
  cbn [mbind res_bind]. rewrite decide_True by by apply map_len_enough.
  destruct (vd_pin_ok d); [|done]. intros [= <-]. split; [done|].
  intros q Hq. by apply pin_cpumap_bit.
Qed.

(** With no more VMs than pCPUs, VMs on different pCPUs are left where they
    are: no call is made. *)
Theorem spread_settled (h : host) (domains : list virDomain) (mapping : list Z) (ws : list double) :
  sane h domains mapping → NoDup mapping →
  ∃ p, spread h domains mapping (Plan (replicate (n_host_cpus h) 0) ws []) = Ok p ∧ pins p = [].
Proof.
  intros Hs Hnd. unfold spread.
  destruct (spread_keeps h domains mapping (range 0 (length domains))
    (replicate (n_host_cpus h) 0) ws [] Hs) as [nm' ->].
  - apply NoDup_seq.
  - intros i Hi. apply elem_of_range in Hi. lia.
  - done.
  - apply length_replicate.
  - intros i k _ Hk. apply lookup_replicate_2.
    pose proof (sn_cpus _ _ _ Hs (Z.of_nat k) (list_elem_of_lookup_2 _ _ _ Hk)). lia.
  - by eexists.
Qed.

(** The search for a free pCPU does not stop at the first one: a VM whose
    pCPU is taken is pinned to every free pCPU, one after the other, and takes
    them all, so that no pCPU is left for the next such VM. *)
Theorem spread_takes_all (h : host) (domains : list virDomain) (mapping : list Z)
    (p : plan) (i k v : nat) :
  sane h domains mapping → 0 < i < length domains →
  length (new_mapping p) = n_host_cpus h →
  mapping !! i = Some (Z.of_nat k) → new_mapping p !! k = Some (S v) →
  ∃ p', spread_vm h domains mapping p i = Ok p' ∧
    (pins p' = pins p ++ ((λ j, Pin i j (pin_cpumap (cpu_map_len h) j)) <$>
       filter (λ j, free_slot (new_mapping p) j) (range 0 (n_host_cpus h)))) ∧
    ∀ j, ¬ free_slot (new_mapping p') j.
Proof.
  intros Hs Hi Hl Hm Hv. unfold spread_vm, get. rewrite Hm. cbn [mbind res_bind].
  rewrite idx_nat. cbn [mbind res_bind]. rewrite Hv. cbn [mbind res_bind]. rewrite decide_False by done.
  rewrite (spread_slots_ok h domains mapping Hs) by
    (done || lia || (intros j Hj; apply elem_of_range in Hj; lia) || apply NoDup_seq).
  eexists. split; [reflexivity|]. split; [done|]. cbn [new_mapping].
  destruct (foldl_fill i (new_mapping p) (range 0 (n_host_cpus h))) as (Hl' & Hall & _);
    [lia|intros j Hj; apply elem_of_range in Hj; lia|].
  intros j Hj. eapply Hall; [|exact Hj]. apply elem_of_range.
  apply lookup_lt_Some in Hj. lia.
Qed.

(** The first call only records the CPU times, and a call that finds the
    workloads balanced changes no pinning. *)
Theorem scheduler_quiet `{!Qsort} (h : host) (domains : list virDomain) (cpu_times current : list Z)
    (interval t0 : Z) (r : list Z * list pin) :
  h_domains h = Some domains → get_vm_cpu_times domains = Ok current →
  length current ≤ length cpu_times → cpu_times !! 0 = Some t0 →
  CPUScheduler h cpu_times interval = Ok r →
  r.1 = current ++ drop (length current) cpu_times ∧
  (t0 = 0%Z ∨
   (∀ usages mapping ws, calculate_vm_cpu_usages cpu_times current interval = Ok usages →
      get_cpu_mapping domains = Ok mapping →
      calculate_pcpu_workload (n_host_cpus h) usages mapping = Ok ws →
      SFltb (of_Z BALANCE_THRESHOLD) (calculate_std_dev ws) = false) → r.2 = []).
Proof.
  intros Hd Hc Hl Ht. unfold CPUScheduler. rewrite Hd, Hc. cbn [mbind res_bind].
  unfold get at 1. rewrite Ht. cbn [mbind res_bind]. rewrite save_times_ok by done.
  case_decide as H0.
  { cbn [mbind res_bind mret res_ret]. intros [= <-]. auto. }
  destruct (calculate_vm_cpu_usages _ _ _) as [usages|]; [|done]. cbn [mbind res_bind].
  destruct (get_cpu_mapping domains) as [mapping|]; [|done]. cbn [mbind res_bind].
  destruct (calculate_pcpu_workload _ _ _) as [ws|] eqn:Ews; [|done]. cbn [mbind res_bind].
  destruct (SFltb _ _) eqn:E.
  - destruct (rebalance _ _ _ _ _) as [ps|]; [|done]. cbn [mbind res_bind mret res_ret].
    intros [= <-]. split; [done|]. intros [?|Hb]; [done|].
    rewrite (Hb usages mapping ws) in E by done. done.
  - intros [= <-]. auto.
Qed.

(** With an interval of three or four seconds [interval * 1000000000] does
    not fit an [int]: the divisor becomes negative and no VM ever shows a
    positive usage, however busy it is. *)
Theorem usage_never_positive (interval prev cur : Z) :
  interval = 3%Z ∨ interval = 4%Z → SFltb zero (usage_of interval prev cur) = false.
Proof.
  intros Hi. unfold usage_of.
  assert (∃ m e, of_Z (i32 (interval * 1000000000)) = S754_finite true m e) as (m & e & ->)
    by (destruct Hi as [-> | ->]; do 2 eexists; vm_compute; reflexivity).
  apply ddiv_neg. apply u64_bound.
Qed.

(** The check of the pinning map reports a mismatch for a map that is right:
    after the byte with the pCPU's bit, every further byte is expected to have
    it too. *)
Theorem mismatch_reports (n p : nat) :
  p < n →
  map_mismatch 0 (Z.of_nat p) (pin_cpumap (VIR_CPU_MAPLEN n) p) =
  (λ k, (k, p mod 8)) <$> range (S (p / 8)) (VIR_CPU_MAPLEN n).
Proof.
  intros Hp. pose proof (map_len_enough n p Hp) as Hlen.
  pose proof (Nat.div_mod_eq p 8). pose proof (Nat.mod_upper_bound p 8 ltac:(lia)).
  unfold pin_cpumap. set (len := VIR_CPU_MAPLEN n) in *.
  replace (replicate len 0%Z) with
    (replicate (p / 8) 0%Z ++ 0%Z :: replicate (len - S (p / 8)) 0%Z).
  2: { rewrite <-replicate_S, <-replicate_add. f_equal. lia. }
  rewrite insert_app_r_alt by (rewrite length_replicate; lia).
  rewrite length_replicate, Nat.sub_diag. cbn [list_insert insert].
  rewrite map_mismatch_zeros by lia.
  replace (Z.of_nat p - 8 * Z.of_nat (p / 8))%Z with (Z.of_nat (p mod 8)) by lia.
  cbn [map_mismatch]. rewrite decide_True by lia.
  rewrite byte_agrees by done. cbn [fmap list_fmap app].
  by rewrite map_mismatch_tail by done.
Qed.

(** More than [MAX_VM] VMs run over the end of [cpu_times]. *)
Theorem too_many_vms `{!Qsort} (h : host) (domains : list virDomain) (cpu_times : list Z)
    (interval : Z) :
  h_domains h = Some domains → Forall (λ d, is_Some (vd_cpu_time d)) domains →
  length cpu_times = MAX_VM → MAX_VM < length domains →
  CPUScheduler h cpu_times interval = Err Undefined.
Proof.
  intros Hd Hs Hl Hn. destruct (get_vm_cpu_times_ok domains Hs) as (current & Hc & Hlc).
  unfold CPUScheduler. rewrite Hd, Hc. cbn [mbind res_bind]. unfold get at 1.
  destruct (lookup_lt_is_Some_2 cpu_times 0) as [t0 ->]; [unfold MAX_VM in *; lia|].
  cbn [mbind res_bind].
  rewrite save_times_undefined, usages_undefined by lia. by case_decide.
Qed.

(** C39: an iteration on sane readings of at most [MAX_VM] VMs always completes:
    no access leaves its array and no error exit is taken. *)
Theorem scheduler_total `{!Qsort} (h : host) (domains : list virDomain) (mapping cpu_times : list Z)
    (interval : Z) :
  h_domains h = Some domains → Forall (λ d, is_Some (vd_cpu_time d)) domains →
  get_cpu_mapping domains = Ok mapping → sane h domains mapping →
  length cpu_times = MAX_VM → length domains ≤ MAX_VM →
  ∃ r, CPUScheduler h cpu_times interval = Ok r.
Proof.
  intros Hd Ht Hm Hs Hl Hn. destruct (get_vm_cpu_times_ok domains Ht) as (current & Hc & Hlc).
  unfold CPUScheduler. rewrite Hd, Hc. cbn [mbind res_bind]. unfold get at 1.
  destruct (lookup_lt_is_Some_2 cpu_times 0) as [t0 ->]; [unfold MAX_VM in *; lia|].
  cbn [mbind res_bind]. rewrite save_times_ok by lia. case_decide; [by eexists|].
  destruct (usages_ok cpu_times current interval (length current)) as (us & Hus & Hids); [lia|lia|].
  change (calculate_vm_cpu_usages cpu_times current interval) with
    (mfoldl (add_usage cpu_times current interval) [] (range 0 (length current))).
  rewrite Hus. cbn [mbind res_bind]. rewrite Hm. cbn [mbind res_bind].
  rewrite Hlc in Hids.
  destruct (workload_ok h domains mapping us (replicate (n_host_cpus h) zero) Hs) as [ws Hws].
  { apply Forall_forall. intros u Hu.
    assert (vm_id u ∈ vm_id <$> us) as Hi by (apply list_elem_of_fmap; eauto).
    rewrite Hids in Hi. apply elem_of_seq in Hi. lia. }
  { apply length_replicate. }
  unfold calculate_pcpu_workload. rewrite Hws. cbn [mbind res_bind].
  case_match; [|by eexists].
  destruct (rebalance_total h domains mapping us ws Hs Hids) as [ps ->]. by eexists.
Qed.

(** ** An implementation of [qsort] *)

(** Larger usages first, what is no number last. *)
Definition usage_ge (a b : VM_CPU_Usage) : Prop :=
  is_nan (cpu_usage b) = true ∨
  is_nan (cpu_usage a) = false ∧ SFltb (cpu_usage a) (cpu_usage b) = false.

#[export] Instance usage_ge_dec a b : Decision (usage_ge a b).
Proof. unfold usage_ge. apply _. Defined.

#[export] Instance usage_ge_total : Total usage_ge.
Proof.
  intros a b. unfold usage_ge.
  destruct (is_nan (cpu_usage a)) eqn:Ea; [auto|].
  destruct (is_nan (cpu_usage b)) eqn:Eb; [auto|].
  destruct (SFltb (cpu_usage a) (cpu_usage b)) eqn:E; [|auto].
  right. right. split; [done|]. by apply SFltb_asym.
Qed.

#[export] Instance usage_ge_trans : Transitive usage_ge.
Proof.
  intros a b c. unfold usage_ge. intros [Hb|[Ha Hab]] [Hc|[Hb' Hbc]]; auto; [congruence|].
  right. split; [done|]. by eapply SFltb_negtrans.
Qed.

Lemma sorted_numbers l :
  numbers l → StronglySorted usage_ge l →
  StronglySorted (λ a b, SFltb (cpu_usage a) (cpu_usage b) = false) l.
Proof.
  intros Hn Hs. induction Hs as [|a l _ IH Ha]; [constructor|].
  apply Forall_cons in Hn as [_ Hn]. constructor; [by apply IH|].
  rewrite Forall_forall in Ha, Hn |- *. intros b Hb.
  destruct (Ha b Hb) as [Hnan|[_ ?]]; [|done]. by rewrite Hn in Hnan.
Qed.

#[export, refine] Instance merge_qsort : Qsort := {| qsort := merge_sort usage_ge |}.
Proof.
  - apply merge_sort_Permutation.
  - intros l Hl. apply sorted_numbers.
    + unfold numbers in *. by rewrite merge_sort_Permutation.
    + apply StronglySorted_merge_sort; apply _.
Defined.

(** ** Witnesses *)

(** A host of four pCPUs, VMs that run on given pCPUs, and their usages. *)
Definition demo_domain (time cpu : Z) : virDomain := {|
  vd_cpu_time := Some time; vd_vcpu := Some (cpu, [Z.shiftl 1 cpu]); vd_pin_ok := true |}.

Definition demo_host (n : nat) (domains : list virDomain) : host :=
  {| n_host_cpus := n; h_domains := Some domains |}.

Definition demo_cpus : list Z := [0; 0; 1; 2; 1]%Z.
Definition demo_domains : list virDomain := demo_domain 7 <$> demo_cpus.

Definition demo_usages : list VM_CPU_Usage :=
  imap (λ i z, Usage (of_Z z) i) [5; 90; 20; 70; 40]%Z.

Lemma demo_sane n cpus :
  Forall (λ m, 0 ≤ m < Z.of_nat n)%Z cpus →
  sane (demo_host n (demo_domain 7 <$> cpus)) (demo_domain 7 <$> cpus) cpus.
Proof.
  intros H. split.
  - by intros d (c & -> & _)%list_elem_of_fmap.
  - symmetry. apply length_fmap.
  - intros m Hm. rewrite Forall_forall in H. by apply H.
Qed.

Lemma demo_cpus_ok : Forall (λ m, 0 ≤ m < Z.of_nat 4)%Z demo_cpus.
Proof. repeat (constructor; [lia|]). constructor. Qed.


(** The pins of this call: VM 1 stays on pCPU 0, VM 3 on 2, VM 4 on 1, VM 2
    moves to 3, and VM 0 joins it. *)
Example rebalance_evaluated :
  match rebalance (demo_host 4 demo_domains) demo_domains demo_usages demo_cpus [] with
  | Ok ps => (λ c, (pin_vm c, pin_cpu c)) <$> ps
  | Err _ => []
  end = [(1, 0); (3, 2); (4, 1); (2, 3); (0, 3)].
Proof. vm_compute. reflexivity. Qed.

Definition demo_zero : list VM_CPU_Usage := imap (λ i z, Usage (of_Z z) i) [90; 80; 3]%Z.

Lemma vm_zero_shares_witness :
  ∃ p' rest, pack (demo_host 2 (demo_domain 7 <$> [0; 0; 1]%Z)) (demo_domain 7 <$> [0; 0; 1]%Z)
      demo_zero [0; 0; 1]%Z (Plan (replicate 2 0) [] []) = Ok p' ∧
    pins p' = Pin 0 0 (pin_cpumap 1 0) :: Pin 1 0 (pin_cpumap 1 0) :: rest.
Proof.
  apply (vm_zero_shares (demo_host 2 (demo_domain 7 <$> [0; 0; 1]%Z)) (demo_domain 7 <$> [0; 0; 1]%Z)
    (Usage (of_Z 90) 0) (Usage (of_Z 80) 1) [Usage (of_Z 3) 2] [0; 0; 1]%Z [] 0).
  - apply demo_sane. repeat (constructor; [lia|]). constructor.
  - repeat (constructor; [cbn; lia|]). constructor.
  - simpl. lia.
  - reflexivity.
  - reflexivity.
  - reflexivity.
Defined.

Definition demo_plan : plan := Plan [2; 1; 3; 4] (of_Z <$> [50; 40; 20; 30]%Z) [].

Lemma rest_vm_greedy_witness :
  ∃ j w, workloads demo_plan !! j = Some w ∧
    (∀ w', w' ∈ workloads demo_plan → SFltb w' w = false) ∧
    rest_vm (demo_host 4 demo_domains) demo_domains demo_plan (Usage (of_Z 5) 0) =
    Ok (Plan [2; 1; 3; 4] (<[j := dadd w (of_Z 5)]> (workloads demo_plan))
         [Pin 0 j (pin_cpumap 1 j)]).
Proof.
  apply (rest_vm_greedy (demo_host 4 demo_domains) demo_domains demo_cpus demo_plan
    (Usage (of_Z 5) 0) (of_Z 50)).
  - apply demo_sane, demo_cpus_ok.
  - simpl. lia.
  - simpl. lia.
  - reflexivity.
  - left.
  - vm_compute. reflexivity.
Defined.

Lemma pin_sets_one_cpu_witness :
  ∀ q, q < 12 → map_bit (pin_cpumap 2 9) q = bool_decide (q = 9).
Proof.
  apply (pin_sets_one_cpu (demo_host 12 demo_domains) demo_domains 1 9 (Pin 1 9 (pin_cpumap 2 9)));
    [simpl; lia|reflexivity].
Defined.

Lemma spread_settled_witness :
  ∃ p, spread (demo_host 4 (demo_domain 7 <$> [2; 0; 3]%Z)) (demo_domain 7 <$> [2; 0; 3]%Z)
    [2; 0; 3]%Z (Plan (replicate 4 0) [] []) = Ok p ∧ pins p = [].
Proof.
  apply (spread_settled (demo_host 4 (demo_domain 7 <$> [2; 0; 3]%Z)) (demo_domain 7 <$> [2; 0; 3]%Z)).
  - apply demo_sane. repeat (constructor; [lia|]). constructor.
  - by refine (bool_decide_unpack _ _); vm_compute.
Defined.

Lemma spread_takes_all_witness :
  ∃ p', spread_vm (demo_host 4 (demo_domain 7 <$> [0; 1; 1; 0; 0]%Z))
      (demo_domain 7 <$> [0; 1; 1; 0; 0]%Z) [0; 1; 1; 0; 0]%Z
      (Plan [0; 1; 0; 0] [] []) 2 = Ok p' ∧
    pins p' = [Pin 2 0 (pin_cpumap 1 0); Pin 2 2 (pin_cpumap 1 2); Pin 2 3 (pin_cpumap 1 3)] ∧
    ∀ j, ¬ free_slot (new_mapping p') j.
Proof.
  apply (spread_takes_all (demo_host 4 (demo_domain 7 <$> [0; 1; 1; 0; 0]%Z))
    (demo_domain 7 <$> [0; 1; 1; 0; 0]%Z) [0; 1; 1; 0; 0]%Z (Plan [0; 1; 0; 0] [] []) 2 1 0).
  - apply demo_sane. repeat (constructor; [lia|]). constructor.
  - simpl. lia.
  - reflexivity.
  - reflexivity.
  - reflexivity.
Defined.

Lemma scheduler_quiet_witness :
  let r := ([7; 7; 7; 7; 7]%Z ++ replicate 27 0%Z, []) in
  CPUScheduler (demo_host 4 demo_domains) (replicate 32 0%Z) 1 = Ok r ∧ r.2 = [].
Proof.
  split; [vm_compute; reflexivity|].
  eapply (scheduler_quiet (demo_host 4 demo_domains) demo_domains (replicate 32 0%Z) [7; 7; 7; 7; 7]%Z
    1 0 ([7; 7; 7; 7; 7]%Z ++ replicate 27 0%Z, []));
    [reflexivity|vm_compute; reflexivity|simpl; lia|reflexivity|vm_compute; reflexivity|by left].
Defined.

Lemma usage_never_positive_witness : SFltb zero (usage_of 3 0 3000000000) = false.
Proof. apply (usage_never_positive 3 0 3000000000). by left. Defined.

Lemma mismatch_reports_witness :
  map_mismatch 0 1 (pin_cpumap 2 1) = [(1, 1)].
Proof. apply (mismatch_reports 12 1). lia. Defined.

Lemma too_many_vms_witness :
  CPUScheduler (demo_host 4 (replicate 33 (demo_domain 7 0))) (replicate 32 0%Z) 1 = Err Undefined.
Proof.
  apply (too_many_vms (demo_host 4 (replicate 33 (demo_domain 7 0))) (replicate 33 (demo_domain 7 0)));
    [reflexivity| |reflexivity|].
  - apply Forall_replicate. by eexists.
  - unfold MAX_VM. rewrite length_replicate. lia.
Defined.

Lemma scheduler_total_witness :
  ∃ r, CPUScheduler (demo_host 4 demo_domains) (1%Z :: replicate 31 0%Z) 1 = Ok r.
Proof.
  apply (scheduler_total (demo_host 4 demo_domains) demo_domains demo_cpus).
  - reflexivity.
  - repeat (constructor; [by eexists|]). constructor.
  - reflexivity.
  - apply demo_sane, demo_cpus_ok.
  - reflexivity.
  - unfold MAX_VM. simpl. lia.
Defined.
