(* ===== verification/LinkedQueue.v ===== *)
(** * The queue of the producer and the consumers (prelab/producer_consumer.c)

    A doubly linked list in a heap: the critical sections that add a node at
    the back and remove the one at the front, against a list of the nodes in
    the queue.  A dereference of a null or freed pointer is undefined, a failed
    [assert] aborts. *)
From S2P Require Import Prelude.

(** An address; the null pointer is [None]. *)
Abbreviation loc := nat.

(** [queue_node_t]; a [char] by its code. *)
Record queue_node_t := Node { next : option loc; prev : option loc; c : nat }.

#[export] Instance node_eta : Eta queue_node_t := λ n, Node (next n) (prev n) (c n).

(** [queue_t] without its lock. *)
Record queue_t := Queue { front : option loc; back : option loc }.

Abbreviation heap := (gmap loc queue_node_t).

Definition load (h : heap) (p : option loc) : res (loc * queue_node_t) :=
  match p with
  | None => Err Undefined
  | Some l => match h !! l with Some n => Ok (l, n) | None => Err Undefined end
  end.

Definition abort_status : Z := 134.

(** [new_node_p = malloc(...)], its character and its null successor; [prev] is
    not yet written, its value is that of the memory. *)
Definition new_node (h : heap) (l : loc) (junk : option loc) (ch : nat) : heap :=
  <[l := Node None junk ch]> h.

(** The producer's critical section. *)
Definition enqueue (h : heap) (q : queue_t) (l : loc) : res (heap * queue_t) :=
  n ← load h (Some l);
  match back q with
  | None =>
    if decide (front q = None)
    then mret (<[l := assign prev None n.2]> h, Queue (Some l) (Some l))
    else Err (Exit abort_status)
  | Some b =>
    if decide (front q = None) then Err (Exit abort_status) else
    let h := <[l := assign prev (back q) n.2]> h in
    bn ← load h (back q);
    mret (<[b := assign next (Some l) bn.2]> h, Queue (front q) (Some l))
  end.

(** The consumer's critical section, on a queue with a front. *)
Definition dequeue (h : heap) (q : queue_t) : res (heap * queue_t * loc) :=
  f ← load h (front q);
  match next f.2 with
  | None => mret (h, Queue (next f.2) None, f.1)
  | Some s =>
    sn ← load h (Some s);
    let h := <[s := assign prev None sn.2]> h in
    f' ← load h (front q);
    mret (h, Queue (next f'.2) (back q), f.1)
  end.

(** [free(prev_node_p)] *)
Definition free (h : heap) (l : loc) : res heap :=
  match h !! l with Some _ => Ok (delete l h) | None => Err Undefined end.

(** ** What the structure represents *)

(** The node of index [i] of a queue with the given addresses and characters. *)
Definition node_at (nodes : list (loc * nat)) (i : nat) (ch : nat) : queue_node_t :=
  Node (fst <$> nodes !! S i) (match i with O => None | S j => fst <$> nodes !! j end) ch.

Record represents (h : heap) (q : queue_t) (nodes : list (loc * nat)) : Prop := {
  rp_front : front q = fst <$> head nodes;
  rp_back : back q = fst <$> last nodes;
  rp_nodes i l ch : nodes !! i = Some (l, ch) → h !! l = Some (node_at nodes i ch);
  rp_nodup : NoDup nodes.*1
}.

(** ** Lemmas *)

Lemma represents_nil h : represents h (Queue None None) [].
Proof. split; [done|done|done|constructor]. Qed.

Lemma represents_loc h q nodes i j l ch ch' :
  represents h q nodes → nodes !! i = Some (l, ch) → nodes !! j = Some (l, ch') → i = j.
Proof.
  intros [_ _ _ Hnd] Hi Hj. eapply NoDup_lookup; [exact Hnd| |]; rewrite list_lookup_fmap.
  - by rewrite Hi.
  - by rewrite Hj.
Qed.

(** The structure does not depend on addresses outside the queue. *)
Lemma represents_frame h h' q nodes :
  represents h q nodes → (∀ l, l ∈ nodes.*1 → h' !! l = h !! l) → represents h' q nodes.
Proof.
  intros [Hf Hb Hn Hnd] Heq. split; [done..| |done].
  intros i l ch Hi. rewrite Heq; [by apply Hn|].
  apply list_elem_of_fmap. exists (l, ch). split; [done|]. by eapply list_elem_of_lookup_2.
Qed.

Lemma node_at_snoc nodes l ch i x :
  i < length nodes → S i < length nodes →
  node_at (nodes ++ [(l, ch)]) i x = node_at nodes i x.
Proof.
  intros Hi HSi. unfold node_at. rewrite lookup_app_l by done.
  destruct i; [done|]. by rewrite lookup_app_l by lia.
Qed.

Lemma node_at_last nodes l ch i x :
  S i = length nodes →
  node_at (nodes ++ [(l, ch)]) i x = assign next (Some l) (node_at nodes i x).
Proof.
  intros HSi.
  transitivity (Node (Some l) (match i with O => None | S j => fst <$> nodes !! j end) x);
    [|reflexivity].
  unfold node_at. f_equal.
  - by rewrite HSi, list_lookup_middle.
  - destruct i; [done|]. by rewrite lookup_app_l by lia.
Qed.

(** The producer appends its node. *)
Lemma enqueue_ok h q nodes l junk ch :
  represents h q nodes → l ∉ nodes.*1 → h !! l = Some (Node None junk ch) →
  ∃ h' q', enqueue h q l = Ok (h', q') ∧ represents h' q' (nodes ++ [(l, ch)]) ∧
    dom h' = dom h ∧ ∀ l', l' ≠ l → l' ∉ nodes.*1 → h' !! l' = h !! l'.
Proof.
  intros Hr Hl Hh. pose proof Hr as [Hf Hb Hn Hnd]. unfold enqueue, load.
  rewrite Hh. cbn [mbind res_bind fst snd].
  destruct nodes as [|[b bc] ini _] using rev_ind.
  - rewrite Hb. cbn. rewrite decide_True by done. eexists _, _. split; [reflexivity|]. split; [|split].
    + split; [done|done| |apply NoDup_singleton].
      intros i l' ch' Hi. apply list_lookup_singleton_Some in Hi as [-> [= <- <-]].
      by rewrite lookup_insert_eq.
    + rewrite dom_insert_L. apply elem_of_dom_2 in Hh. set_solver.
    + intros l' Hne _. by rewrite lookup_insert_ne.
  - rewrite last_snoc in Hb. rewrite Hb. cbn [fmap option_fmap option_map fst].
    rewrite decide_False; [|rewrite Hf; by destruct ini].
    assert (b ≠ l) as Hbl by (intros ->; apply Hl; rewrite fmap_app; set_solver).
    assert ((ini ++ [(b, bc)]) !! length ini = Some (b, bc)) as Hlast by by apply list_lookup_middle.
    pose proof (Hn _ _ _ Hlast) as Hnb.
    rewrite lookup_insert_ne by done. rewrite Hnb. cbn [mbind res_bind fst snd].
    eexists _, _. split; [reflexivity|]. split; [|split].
    + split.
      * rewrite Hf. by destruct ini.
      * by rewrite last_snoc.
      * intros i l' ch' Hi. apply lookup_snoc_Some in Hi as [[Hlt Hi]|[-> [= <- <-]]].
        -- destruct (decide (l' = b)) as [->|Hne].
           ++ assert (i = length ini) as -> by by eapply (represents_loc h q).
              rewrite lookup_insert_eq. rewrite Hlast in Hi. injection Hi as <-.
              symmetry. f_equal. apply node_at_last. rewrite length_app. simpl. lia.
           ++ assert (l' ≠ l).
              { intros ->. apply Hl. apply list_elem_of_fmap. exists (l, ch').
                split; [done|]. by eapply list_elem_of_lookup_2. }
              rewrite !lookup_insert_ne by done. rewrite (Hn i l' ch' Hi). f_equal.
              symmetry. apply node_at_snoc; [done|].
              rewrite length_app in *. simpl in *.
              destruct (decide (i = length ini)) as [->|]; [|lia].
              rewrite Hlast in Hi. congruence.
        -- rewrite lookup_insert_ne, lookup_insert_eq by done. unfold node_at. cbn. f_equal.
           rewrite lookup_ge_None_2 by (rewrite !length_app; simpl; lia).
           rewrite length_app. simpl. rewrite Nat.add_1_r.
           rewrite lookup_app_l, Hlast by (rewrite length_app; simpl; lia). done.
      * rewrite fmap_app. apply NoDup_app. split; [done|]. split; [|apply NoDup_singleton].
        intros x Hx ->%list_elem_of_singleton. done.
    + rewrite !dom_insert_L. apply elem_of_dom_2 in Hh, Hnb. set_solver.
    + intros l' Hne Hnin. rewrite !lookup_insert_ne; [done|done|].
      intros ->. apply Hnin. rewrite fmap_app. set_solver.
Qed.

(** The consumer takes the first node. *)
Lemma dequeue_ok h q l ch nodes :
  represents h q ((l, ch) :: nodes) →
  ∃ h' q' n, dequeue h q = Ok (h', q', l) ∧ represents h' q' nodes ∧
    h' !! l = Some n ∧ c n = ch ∧ dom h' = dom h ∧
    ∀ l', l' ∉ ((l, ch) :: nodes).*1 → h' !! l' = h !! l'.
Proof.
  intros Hr. pose proof Hr as [Hf Hb Hn Hnd]. unfold dequeue, load.
  cbn in Hf. rewrite Hf. pose proof (Hn 0 l ch eq_refl) as H0. rewrite H0.
  cbn [mbind res_bind fst snd]. destruct nodes as [|[s sc] nodes].
  - cbn. eexists _, _, _. split; [reflexivity|]. split; [apply represents_nil|]. done.
  - cbn [node_at next fmap option_fmap option_map lookup list_lookup fst].
    pose proof (Hn 1 s sc eq_refl) as H1. rewrite H1. cbn [mbind res_bind fst snd].
    apply NoDup_cons in Hnd as [Hl Hnd].
    assert (s ≠ l) as Hsl by (intros ->; apply Hl; cbn; left).
    rewrite lookup_insert_ne, H0 by done. cbn [mbind res_bind fst snd].
    eexists _, _, _. split; [reflexivity|]. split; [|split; [|split; [|split]]].
    + split.
      * done.
      * rewrite Hb. by cbn.
      * intros i l' ch' Hi. destruct (decide (l' = s)) as [->|Hne].
        -- assert (i = 0) as ->.
           { assert (S i = 1); [|lia]. by eapply (represents_loc h q ((l, ch) :: (s, sc) :: nodes)). }
           rewrite lookup_insert_eq. cbn in Hi. injection Hi as <-. done.
        -- rewrite lookup_insert_ne by done. rewrite (Hn (S i) l' ch' Hi). f_equal.
           unfold node_at. cbn. destruct i; [by cbn in Hi; congruence|done].
      * done.
    + by rewrite lookup_insert_ne.
    + done.
    + rewrite dom_insert_L. apply elem_of_dom_2 in H1. set_solver.
    + intros l' Hnin. rewrite lookup_insert_ne; [done|]. intros ->. apply Hnin. cbn. set_solver.
Qed.

(** ** Properties *)

(** The two critical sections implement a first-in first-out queue: a node
    added to a queue that represents a list is found at its end, the node
    removed is the head of the list, and neither dereferences a freed node,
    fails an assertion or touches another node of the heap. *)
Theorem queue_is_fifo (h : heap) (q : queue_t) (nodes : list (loc * nat)) :
  represents h q nodes →
  (∀ l junk ch, l ∉ nodes.*1 → h !! l = Some (Node None junk ch) →
    ∃ h' q', enqueue h q l = Ok (h', q') ∧ represents h' q' (nodes ++ [(l, ch)]) ∧
      dom h' = dom h ∧ ∀ l', l' ≠ l → l' ∉ nodes.*1 → h' !! l' = h !! l') ∧
  (front q = None ↔ nodes = []) ∧
  (∀ l ch rest, nodes = (l, ch) :: rest →
    ∃ h' q' n, dequeue h q = Ok (h', q', l) ∧ represents h' q' rest ∧
      h' !! l = Some n ∧ c n = ch ∧ dom h' = dom h ∧
      ∀ l', l' ∉ nodes.*1 → h' !! l' = h !! l').
Proof.
  intros Hr. split; [|split].
  - intros l junk ch. by apply enqueue_ok.
  - rewrite (rp_front _ _ _ Hr). by destruct nodes.
  - intros l ch rest ->. by apply dequeue_ok.
Qed.

(** ** Witness *)

Definition demo_heap : heap :=
  {[ 1 := Node (Some 2) None 97; 2 := Node None (Some 1) 98; 5 := Node None (Some 9) 99 ]}.

Lemma demo_represents : represents demo_heap (Queue (Some 1) (Some 2)) [(1, 97); (2, 98)].
Proof.
  split; [done|done| |by refine (bool_decide_unpack _ _)].
  intros i l ch Hi. destruct i as [|[|i]]; cbn in Hi; [..|done]; injection Hi as <- <-; done.
Qed.

Lemma queue_is_fifo_witness :
  ∃ h' q', enqueue demo_heap (Queue (Some 1) (Some 2)) 5 = Ok (h', q') ∧
    represents h' q' [(1, 97); (2, 98); (5, 99)] ∧
    dom h' = dom demo_heap ∧ ∀ l', l' ≠ 5 → l' ∉ [1; 2] → h' !! l' = demo_heap !! l'.
Proof.
  apply (queue_is_fifo demo_heap (Queue (Some 1) (Some 2)) [(1, 97); (2, 98)]) with (junk := Some 9).
  - apply demo_represents.
  - by refine (bool_decide_unpack _ _).
  - reflexivity.
Defined.
