(* ===== verification/ProducerConsumer.v ===== *)
(** * The producer and its consumers (prelab/producer_consumer.c)

    The main thread, the producer and the two consumers as a transition
    system over the shared heap.  A step runs to the next point where another
    thread can interfere: taking a mutex is a step that waits, and what a
    thread does while it holds one is a step with the release.  [malloc] picks
    any free address and leaves junk in it. *)
From S2P Require Import Prelude LinkedQueue.

(** ** Threads *)

Inductive main_pc := MCreateProducer | MCreateConsumer | MJoinProducer | MJoinConsumer | MDone.

Inductive producer_pc :=
| PNone
| PCreate
| PFor (ch : nat)
| PLock (l : loc) (ch : nat)
| PAdd (l : loc) (ch : nat)
| PLockNum
| PDecrement
| PJoin
| PDone.

Inductive consumer_pc :=
| CNone
| CLock
| CLockNum
| CWhile
| CBody
| CPrint (l : loc)
| CExit
| CDone.

Record consumer := Cons { cpc : consumer_pc; count : nat }.

Inductive thread := Main | Producer | Consumer (by_main : bool).

#[export] Instance thread_eq_dec : EqDecision thread.
Proof. solve_decision. Defined.

Record state := State {
  st_heap : heap;
  st_queue : queue_t;
  lock : option thread;
  g_num_prod_lock : option thread;
  g_num_prod : Z;
  mpc : main_pc;
  ppc : producer_pc;
  cons_main : consumer;
  cons_prod : consumer;
  printed : list nat;
  reports : list nat
}.

#[export] Instance state_eta : Eta state := λ s,
  State (st_heap s) (st_queue s) (lock s) (g_num_prod_lock s) (g_num_prod s) (mpc s) (ppc s)
    (cons_main s) (cons_prod s) (printed s) (reports s).

Definition cons (b : bool) (s : state) : consumer := if b then cons_main s else cons_prod s.

Definition set_cons (b : bool) (x : consumer) (s : state) : state :=
  if b then assign cons_main x s else assign cons_prod x s.

(** After the initialisation in [main]. *)
Definition start : state :=
  State ∅ (Queue None None) None None 1 MCreateProducer PNone (Cons CNone 0) (Cons CNone 0) [] [].

(** ['a'] and ['z'] *)
Definition letter_a : nat := 97.
Definition letter_z : nat := 122.

(** ** Steps; [None] is a thread that waits or has ended *)

Definition main_step (s : state) : option (res state) :=
  match mpc s with
  | MCreateProducer => Some (mret (assign ppc PCreate (assign mpc MCreateConsumer s)))
  | MCreateConsumer =>
    Some (mret (set_cons true (Cons CLock 0) (assign mpc MJoinProducer s)))
  | MJoinProducer =>
    match ppc s with PDone => Some (mret (assign mpc MJoinConsumer s)) | _ => None end
  | MJoinConsumer =>
    match cpc (cons true s) with
    | CDone => Some (mret (update reports (.++ [count (cons true s)]) (assign mpc MDone s)))
    | _ => None
    end
  | MDone => None
  end.

Definition producer_step (fresh : loc) (junk : option loc) (s : state) : option (res state) :=
  match ppc s with
  | PNone | PDone => None
  | PCreate => Some (mret (set_cons false (Cons CLock 0) (assign ppc (PFor letter_a) s)))
  | PFor ch =>
    if decide (ch ≤ letter_z) then
      if decide (fresh ∈ dom (st_heap s)) then None else
      Some (mret (assign ppc (PLock fresh ch)
        (assign st_heap (new_node (st_heap s) fresh junk ch) s)))
    else Some (mret (assign ppc PLockNum s))
  | PLock l ch =>
    match lock s with
    | None => Some (mret (assign ppc (PAdd l ch) (assign lock (Some Producer) s)))
    | Some _ => None
    end
  | PAdd l ch => Some (
      hq ← enqueue (st_heap s) (st_queue s) l;
      mret (assign ppc (PFor (S ch)) (assign lock None
        (assign st_heap hq.1 (assign st_queue hq.2 s)))))
  | PLockNum =>
    match g_num_prod_lock s with
    | None => Some (mret (assign ppc PDecrement (assign g_num_prod_lock (Some Producer) s)))
    | Some _ => None
    end
  | PDecrement =>
    Some (mret (assign ppc PJoin (assign g_num_prod_lock None (update g_num_prod Z.pred s))))
  | PJoin =>
    match cpc (cons false s) with
    | CDone => Some (mret (update reports (.++ [count (cons false s)]) (assign ppc PDone s)))
    | _ => None
    end
  end.

Definition consumer_step (b : bool) (s : state) : option (res state) :=
  let k := count (cons b s) in
  match cpc (cons b s) with
  | CNone | CDone => None
  | CLock =>
    match lock s with
    | None => Some (mret (set_cons b (Cons CLockNum k) (assign lock (Some (Consumer b)) s)))
    | Some _ => None
    end
  | CLockNum =>
    match g_num_prod_lock s with
    | None => Some (mret (set_cons b (Cons CWhile k)
                      (assign g_num_prod_lock (Some (Consumer b)) s)))
    | Some _ => None
    end
  | CWhile =>
    if decide (front (st_queue s) ≠ None ∨ (0 < g_num_prod s)%Z)
    then Some (mret (set_cons b (Cons CBody k) (assign g_num_prod_lock None s)))
    else Some (mret (set_cons b (Cons CExit k) s))
  | CBody =>
    if decide (front (st_queue s) = None)
    then Some (mret (set_cons b (Cons CLock k) (assign lock None s)))
    else Some (
      hql ← dequeue (st_heap s) (st_queue s);
      mret (set_cons b (Cons (CPrint hql.2) k) (assign lock None
        (assign st_heap hql.1.1 (assign st_queue hql.1.2 s)))))
  | CPrint l => Some (
      n ← load (st_heap s) (Some l);
      h ← free (st_heap s) l;
      mret (set_cons b (Cons CLock (S k)) (assign st_heap h (update printed (.++ [c n.2]) s))))
  | CExit => Some (mret (set_cons b (Cons CDone k) (assign lock None (assign g_num_prod_lock None s))))
  end.

(** A thread and, for [malloc], the address and what it holds. *)
Definition exec (t : thread) (fresh : loc) (junk : option loc) (s : state) : option (res state) :=
  match t with
  | Main => main_step s
  | Producer => producer_step fresh junk s
  | Consumer b => consumer_step b s
  end.

Definition step (s s' : state) : Prop := ∃ t fresh junk, exec t fresh junk s = Some (Ok s').

(** Some thread is about to fail. *)
Definition fails (s : state) : Prop := ∃ t fresh junk e, exec t fresh junk s = Some (Err e).

Definition finished (s : state) : Prop := mpc s = MDone.

(** A run under a given schedule; a thread that waits is passed over, and the
    [n]-th step allocates at address [n]. *)
Fixpoint play (n : nat) (ts : list thread) (s : state) : res state :=
  match ts with
  | [] => Ok s
  | t :: ts =>
    match exec t n (Some n) s with
    | None => play (S n) ts s
    | Some r => s' ← r; play (S n) ts s'
    end
  end.

(** ** Invariants *)

Definition holds_lock (s : state) (t : thread) : bool :=
  match t with
  | Main => false
  | Producer => match ppc s with PAdd _ _ => true | _ => false end
  | Consumer b => match cpc (cons b s) with CLockNum | CWhile | CBody | CExit => true | _ => false end
  end.

Definition holds_num (s : state) (t : thread) : bool :=
  match t with
  | Main => false
  | Producer => match ppc s with PDecrement => true | _ => false end
  | Consumer b => match cpc (cons b s) with CWhile | CExit => true | _ => false end
  end.

Definition producing (p : producer_pc) : bool :=
  match p with PJoin | PDone => false | _ => true end.

(** Threads that have not been started. *)
Definition main_early (m : main_pc) : bool :=
  match m with MCreateProducer | MCreateConsumer => true | _ => false end.
Definition producer_none (p : producer_pc) : bool := match p with PNone => true | _ => false end.
Definition producer_early (p : producer_pc) : bool :=
  match p with PNone | PCreate => true | _ => false end.
Definition consumer_none (x : consumer_pc) : bool := match x with CNone => true | _ => false end.

(** Threads that have ended. *)
Definition producer_done (p : producer_pc) : bool := match p with PDone => true | _ => false end.
Definition consumer_done (x : consumer_pc) : bool := match x with CDone => true | _ => false end.
Definition main_joined (m : main_pc) : bool :=
  match m with MJoinConsumer | MDone => true | _ => false end.
Definition main_done (m : main_pc) : bool := match m with MDone => true | _ => false end.

(** Who has the mutexes, who has been started and who has ended. *)
Record control (s : state) : Prop := {
  ct_lock t : lock s = Some t ↔ holds_lock s t = true;
  ct_num t : g_num_prod_lock s = Some t ↔ holds_num s t = true;
  ct_g : g_num_prod s = if producing (ppc s) then 1%Z else 0%Z;
  ct_producer : producer_none (ppc s) = match mpc s with MCreateProducer => true | _ => false end;
  ct_cons_main : consumer_none (cpc (cons_main s)) = main_early (mpc s);
  ct_cons_prod : consumer_none (cpc (cons_prod s)) = producer_early (ppc s);
  ct_joined : main_joined (mpc s) = true → producer_done (ppc s) = true;
  ct_joined_main : main_done (mpc s) = true → consumer_done (cpc (cons_main s)) = true;
  ct_joined_prod : producer_done (ppc s) = true → consumer_done (cpc (cons_prod s)) = true;
  ct_reports : reports s = (if producer_done (ppc s) then [count (cons_prod s)] else []) ++
                           (if main_done (mpc s) then [count (cons_main s)] else [])
}.

(** The letters that the producer has added, and the node it is about to add. *)
Definition next_letter (p : producer_pc) : nat :=
  match p with
  | PNone | PCreate => letter_a
  | PFor ch | PLock _ ch | PAdd _ ch => ch
  | _ => S letter_z
  end.

Definition private (p : producer_pc) : list (loc * nat) :=
  match p with PLock l ch | PAdd l ch => [(l, ch)] | _ => [] end.

(** The node that a consumer has removed and not yet printed. *)
Definition hand (x : consumer) : list loc := match cpc x with CPrint l => [l] | _ => [] end.

Definition hands (s : state) : list loc := hand (cons_main s) ++ hand (cons_prod s).

Definition char_of (h : heap) (l : loc) : nat := default 0 (c <$> h !! l).

Definition leaving (x : consumer) : bool := match cpc x with CExit | CDone => true | _ => false end.

(** The heap holds the queue, the private node of the producer and the nodes
    [hs] that consumers have removed, and nothing else; the letters so far are,
    in order, those removed and those in the queue; those removed have been
    printed or are about to be. *)
Record heap_inv (h : heap) (q : queue_t) (p : producer_pc) (pr : list nat) (hs : list loc)
    (nodes : list (loc * nat)) (taken : list nat) : Prop := {
  hi_queue : represents h q nodes;
  hi_range : letter_a ≤ next_letter p ≤ S letter_z;
  hi_fifo : seq letter_a (next_letter p - letter_a) = taken ++ nodes.*2;
  hi_private l ch : (l, ch) ∈ private p →
    ch ≤ letter_z ∧ ∃ junk, h !! l = Some (Node None junk ch);
  hi_nodup : NoDup (nodes.*1 ++ (private p).*1 ++ hs);
  hi_dom : dom h = list_to_set (nodes.*1 ++ (private p).*1 ++ hs);
  hi_printed : taken ≡ₚ pr ++ (char_of h <$> hs)
}.

Record data (s : state) (nodes : list (loc * nat)) (taken : list nat) : Prop := {
  dt_heap : heap_inv (st_heap s) (st_queue s) (ppc s) (printed s) (hands s) nodes taken;
  dt_counts : count (cons_main s) + count (cons_prod s) = length (printed s);
  dt_new b : consumer_none (cpc (cons b s)) = true → count (cons b s) = 0;
  dt_leaving b : leaving (cons b s) = true → nodes = [] ∧ producing (ppc s) = false
}.

Definition good (s : state) : Prop := control s ∧ ∃ nodes taken, data s nodes taken.

(** ** Lemmas: mutexes *)

Section mutex.
Context (o : option thread) (held held' : thread → bool).
Context (H : ∀ t, o = Some t ↔ held t = true).

Lemma mutex_same o' : o' = o → (∀ t, held' t = held t) → ∀ t, o' = Some t ↔ held' t = true.
Proof. intros -> Heq t. by rewrite Heq. Qed.

Lemma mutex_take T :
  o = None → held' T = true → (∀ t, t ≠ T → held' t = held t) →
  ∀ t, Some T = Some t ↔ held' t = true.
Proof.
  intros Ho HT Heq t. destruct (decide (t = T)) as [->|Hne]; [by rewrite HT|].
  rewrite Heq, <-H, Ho by done. split; congruence.
Qed.

Lemma mutex_release T :
  held T = true → held' T = false → (∀ t, t ≠ T → held' t = held t) →
  ∀ t, None = Some t ↔ held' t = true.
Proof.
  intros HT HT' Heq t. destruct (decide (t = T)) as [->|Hne]; [by rewrite HT'|].
  rewrite Heq, <-H by done. apply H in HT. split; congruence.
Qed.
End mutex.

Ltac other_threads := intros [| |[]]; cbn; (done || congruence).

Ltac mutex H :=
  first
    [ apply (mutex_same _ _ _ H); [reflexivity|other_threads]
    | apply (mutex_take _ _ _ H); [reflexivity|reflexivity|other_threads]
    | apply (mutex_release _ _ _ H Producer); [reflexivity|reflexivity|other_threads]
    | apply (mutex_release _ _ _ H (Consumer true)); [reflexivity|reflexivity|other_threads]
    | apply (mutex_release _ _ _ H (Consumer false)); [reflexivity|reflexivity|other_threads] ].

#[local] Arguments enqueue : simpl never.
#[local] Arguments dequeue : simpl never.
#[local] Arguments load : simpl never.
#[local] Arguments free : simpl never.

Lemma control_start : control start.
Proof. split; cbn; try done; intros [| |[]]; cbn; done. Qed.

Ltac by_absurd :=
  match goal with H : true = true → false = true |- _ => discriminate (H eq_refl) end.

(** What is left of a step's cases: the mutexes, and equations between the
    counters that [ppc] decides. *)
Ltac control_cases :=
  split; cbn; try done;
  try match goal with H : ∀ t, _ = Some t ↔ holds_lock _ t = true |- _ => mutex H end;
  try match goal with H : ∀ t, _ = Some t ↔ holds_num _ t = true |- _ => mutex H end;
  try match goal with pp : producer_pc |- _ => destruct pp; cbn in *; congruence end;
  try congruence; subst; rewrite ?app_nil_r; try done;
  try match goal with mp : main_pc |- _ => destruct mp; cbn in *; (done || by_absurd) end;
  try match goal with pp : producer_pc |- _ => destruct pp; cbn in *; (done || by_absurd) end.

Lemma main_control s s' : control s → main_step s = Some (Ok s') → control s'.
Proof.
  destruct s as [h q lk gl g mp pp [cm km] [cp kp] pr rp].
  intros [Hq Hg Hn Hp Hcm Hcp Hj Hjm Hjp Hr] E. unfold main_step in E. cbn in Hn, Hp, Hcm, Hcp, Hj, Hjm, Hjp, Hr, E.
  destruct mp; [destruct pp; try discriminate Hp|destruct cm; try discriminate Hcm
    |destruct pp; try discriminate E|destruct cm; try discriminate E|discriminate E];
    injection E as <-; control_cases.
Qed.

Lemma producer_control l j s s' :
  control s → producer_step l j s = Some (Ok s') → control s'.
Proof.
  destruct s as [h q lk gl g mp pp [cm km] [cp kp] pr rp].
  intros [Hq Hg Hn Hp Hcm Hcp Hj Hjm Hjp Hr] E. unfold producer_step in E.
  cbn in Hn, Hp, Hcm, Hcp, Hj, Hjm, Hjp, Hr, E.
  destruct pp; cbn in E; try discriminate E.
  - destruct cp; try discriminate Hcp. injection E as <-. control_cases.
  - repeat case_decide; try discriminate E; injection E as <-; control_cases.
  - destruct lk; [discriminate E|]. injection E as <-. control_cases.
  - destruct (enqueue h q l0) as [[h' q']|]; [|discriminate E]. injection E as <-. control_cases.
  - destruct gl; [discriminate E|]. injection E as <-. control_cases.
  - injection E as <-. control_cases.
  - destruct cp; try discriminate E. injection E as <-.
    destruct mp; try (by specialize (Hj eq_refl)); control_cases.
Qed.

Lemma consumer_control b s s' :
  control s → consumer_step b s = Some (Ok s') → control s'.
Proof.
  destruct s as [h q lk gl g mp pp [cm km] [cp kp] pr rp].
  intros [Hq Hg Hn Hp Hcm Hcp Hj Hjm Hjp Hr] E. unfold consumer_step in E.
  cbn in Hn, Hp, Hcm, Hcp, Hj, Hjm, Hjp, Hr.
  destruct b; cbn in E.
  - destruct cm; cbn in E; try discriminate E.
    + destruct lk; [discriminate E|]. injection E as <-. control_cases.
    + destruct gl; [discriminate E|]. injection E as <-. control_cases.
    + case_decide; injection E as <-; control_cases.
    + case_decide.
      * injection E as <-; control_cases.
      * destruct (dequeue h q) as [[[h' q'] l]|]; [|discriminate E]. injection E as <-; control_cases.
    + destruct (load h (Some l)) as [n|]; [|discriminate E]. cbn [mbind res_bind] in E.
      destruct (free h l) as [h'|]; [|discriminate E]. injection E as <-. control_cases.
    + injection E as <-. control_cases.
  - destruct cp; cbn in E; try discriminate E.
    + destruct lk; [discriminate E|]. injection E as <-. control_cases.
    + destruct gl; [discriminate E|]. injection E as <-. control_cases.
    + case_decide; injection E as <-; control_cases.
    + case_decide.
      * injection E as <-; control_cases.
      * destruct (dequeue h q) as [[[h' q'] l]|]; [|discriminate E]. injection E as <-; control_cases.
    + destruct (load h (Some l)) as [n|]; [|discriminate E]. cbn [mbind res_bind] in E.
      destruct (free h l) as [h'|]; [|discriminate E]. injection E as <-. control_cases.
    + injection E as <-. control_cases.
Qed.

Lemma step_control s s' : control s → step s s' → control s'.
Proof.
  intros Hc ([| |b] & l & j & E).
  - by eapply main_control.
  - by eapply producer_control.
  - by eapply consumer_control.
Qed.

(** ** Lemmas: the heap *)

#[export] Instance heap_inv_Permutation h q p pr :
  Proper ((≡ₚ) ==> (=) ==> (=) ==> iff) (heap_inv h q p pr).
Proof.
  assert (∀ hs hs' nodes taken, hs ≡ₚ hs' → heap_inv h q p pr hs nodes taken →
    heap_inv h q p pr hs' nodes taken) as Himp.
  { intros hs hs' nodes taken Hp [H1 H2 H3 H4 H5 H6 H7]. split; try done.
    - by rewrite <-Hp.
    - rewrite H6. by rewrite Hp.
    - by rewrite <-Hp. }
  intros hs hs' Hp ? nodes -> ? taken ->. split; apply Himp; [done|by symmetry].
Qed.

Lemma heap_inv_pc h q p p' pr hs nodes taken :
  next_letter p' = next_letter p → private p' = private p →
  heap_inv h q p pr hs nodes taken → heap_inv h q p' pr hs nodes taken.
Proof. intros Hn Hp [H1 H2 H3 H4 H5 H6 H7]. split; rewrite ?Hn, ?Hp; done. Qed.

Lemma heap_inv_malloc h q pr hs nodes taken l junk ch :
  l ∉ dom h → ch ≤ letter_z →
  heap_inv h q (PFor ch) pr hs nodes taken →
  heap_inv (new_node h l junk ch) q (PLock l ch) pr hs nodes taken.
Proof.
  intros Hl Hch [H1 H2 H3 H4 H5 H6 H7]. cbn in *.
  assert (l ∉ nodes.*1 ++ hs) as Hnin by by rewrite H6, elem_of_list_to_set in Hl.
  rewrite elem_of_app in Hnin. split; cbn; try done.
  - eapply represents_frame; [done|]. intros l' Hl'. unfold new_node.
    rewrite lookup_insert_ne; [done|]. intros ->. tauto.
  - intros l' ch' [= -> ->]%list_elem_of_singleton. split; [done|].
    exists junk. apply lookup_insert_eq.
  - apply NoDup_app in H5 as (Hn1 & Hn2 & Hn3). apply NoDup_app. split; [done|]. split.
    + intros x Hx [->|Hin]%elem_of_cons; [tauto|by eapply Hn2].
    + apply NoDup_cons. tauto.
  - unfold new_node. rewrite dom_insert_L, H6. set_solver.
  - rewrite H7. apply Permutation_app_head, Permutation_refl', list_fmap_ext.
    intros i x Hx%list_elem_of_lookup_2. unfold char_of, new_node. rewrite lookup_insert_ne; [done|].
    intros ->. tauto.
Qed.

Lemma heap_inv_enqueue h q pr hs nodes taken l ch :
  heap_inv h q (PAdd l ch) pr hs nodes taken →
  ∃ h' q', enqueue h q l = Ok (h', q') ∧ dom h' = dom h ∧
    heap_inv h' q' (PFor (S ch)) pr hs (nodes ++ [(l, ch)]) taken.
Proof.
  intros [H1 H2 H3 H4 H5 H6 H7]. cbn in *.
  destruct (H4 l ch ltac:(left)) as (Hch & junk & Hl).
  apply NoDup_app in H5 as (Hn1 & Hn2 & [Hn3 Hn4]%NoDup_cons).
  destruct (enqueue_ok h q nodes l junk ch H1) as (h' & q' & E & Hr & Hdom & Hother); [|done|].
  { intros Hin. apply (Hn2 l Hin). left. }
  exists h', q'. split; [done|]. split; [done|]. split; cbn [next_letter private]; try done.
  - lia.
  - replace (S ch - letter_a) with (S (ch - letter_a)) by lia. rewrite seq_S, H3, fmap_app, <-app_assoc.
    cbn. do 3 f_equal. unfold letter_a in *. lia.
  - set_solver.
  - rewrite fmap_app, <-app_assoc. cbn. apply NoDup_app. split; [done|]. split; [done|].
    by apply NoDup_cons.
  - rewrite Hdom, H6, fmap_app, <-app_assoc. done.
  - rewrite H7. apply Permutation_app_head, Permutation_refl', list_fmap_ext.
    intros i x Hx%list_elem_of_lookup_2. unfold char_of. rewrite Hother; [done| |].
    + intros ->. done.
    + intros Hin. apply (Hn2 x Hin). by right.
Qed.

Lemma heap_inv_dequeue h q p pr hs nodes taken l ch :
  heap_inv h q p pr hs ((l, ch) :: nodes) taken →
  ∃ h' q', dequeue h q = Ok (h', q', l) ∧ dom h' = dom h ∧
    heap_inv h' q' p pr (l :: hs) nodes (taken ++ [ch]).
Proof.
  intros [H1 H2 H3 H4 H5 H6 H7]. cbn in *.
  destruct (dequeue_ok h q l ch nodes H1) as (h' & q' & n & E & Hr & Hl & Hc & Hdom & Hother).
  exists h', q'. split; [done|]. split; [done|].
  assert (nodes.*1 ++ (private p).*1 ++ l :: hs ≡ₚ l :: nodes.*1 ++ (private p).*1 ++ hs) as Hperm.
  { rewrite !app_assoc. by rewrite Permutation_middle. }
  pose proof H5 as [Hnl Hnd]%NoDup_cons. apply NoDup_app in Hnd as (_ & Hdisj & _).
  assert (∀ x, x ∈ (private p).*1 ++ hs → h' !! x = h !! x) as Hkeep.
  { intros x Hx. apply Hother. cbn. intros [->|Hin]%elem_of_cons.
    - apply Hnl. apply elem_of_app. by right.
    - by apply (Hdisj x Hin). }
  split; try done.
  - by rewrite H3, <-app_assoc.
  - intros l' ch' Hin. destruct (H4 l' ch' Hin) as [? [junk Hj]]. split; [done|]. exists junk.
    rewrite Hkeep; [done|]. apply elem_of_app. left. apply list_elem_of_fmap. by exists (l', ch').
  - by rewrite Hperm.
  - rewrite Hdom, H6, Hperm. done.
  - rewrite H7, fmap_cons. unfold char_of at 2. rewrite Hl. cbn. rewrite Hc.
    assert (char_of h <$> hs = char_of h' <$> hs) as ->.
    { apply list_fmap_ext. intros i x Hx%list_elem_of_lookup_2. unfold char_of.
      rewrite Hkeep; [done|]. apply elem_of_app. by right. }
    rewrite <-app_assoc. apply Permutation_app_head. apply Permutation_app_comm.
Qed.

Lemma heap_inv_free h q p pr hs nodes taken l :
  heap_inv h q p pr (l :: hs) nodes taken →
  ∃ n h', load h (Some l) = Ok (l, n) ∧ free h l = Ok h' ∧ S (size h') = size h ∧
    heap_inv h' q p (pr ++ [c n]) hs nodes taken.
Proof.
  intros [H1 H2 H3 H4 H5 H6 H7].
  assert (nodes.*1 ++ (private p).*1 ++ l :: hs ≡ₚ l :: nodes.*1 ++ (private p).*1 ++ hs) as Hperm.
  { rewrite !app_assoc. by rewrite Permutation_middle. }
  rewrite Hperm in H5, H6. apply NoDup_cons in H5 as [Hnl Hnd].
  assert (is_Some (h !! l)) as [n Hn].
  { apply elem_of_dom. rewrite H6. set_solver. }
  assert (∀ x, x ∈ nodes.*1 ++ (private p).*1 ++ hs → delete l h !! x = h !! x) as Hkeep.
  { intros x Hx. apply lookup_delete_ne. by intros ->. }
  exists n, (delete l h). unfold load, free. rewrite Hn. split; [done|]. split; [done|]. split.
  { rewrite map_size_delete, Hn. assert (size h ≠ 0); [|lia]. apply map_size_ne_0_lookup. by exists l, n. }
  split; try done.
  - eapply represents_frame; [done|]. intros x Hx. apply Hkeep. apply elem_of_app. by left.
  - intros l' ch' Hin. destruct (H4 l' ch' Hin) as [? [junk Hj]]. split; [done|]. exists junk.
    rewrite Hkeep; [done|]. apply elem_of_app. right. apply elem_of_app. left.
    apply list_elem_of_fmap. by exists (l', ch').
  - rewrite dom_delete_L, H6. cbn. set_solver.
  - rewrite H7, fmap_cons. unfold char_of at 1. rewrite Hn. cbn. rewrite <-app_assoc. cbn.
    apply Permutation_app_head, perm_skip, Permutation_refl', list_fmap_ext. intros i x Hx%list_elem_of_lookup_2.
    unfold char_of. rewrite Hkeep; [done|]. rewrite !elem_of_app. auto.
Qed.

(** ** Lemmas: no step goes wrong *)

Lemma hands_set_cons b x s : hands (set_cons b x s) ≡ₚ hand x ++ hand (cons (negb b) s).
Proof. destruct b; [done|]. apply Permutation_app_comm. Qed.

Lemma hands_cons b s : hands s ≡ₚ hand (cons b s) ++ hand (cons (negb b) s).
Proof. destruct b; [done|]. apply Permutation_app_comm. Qed.

Lemma counts_cons b s :
  count (cons_main s) + count (cons_prod s) = count (cons b s) + count (cons (negb b) s).
Proof. destruct b; cbn; lia. Qed.

Lemma cons_set_cons b b' x s : cons b' (set_cons b x s) = if eqb b b' then x else cons b' s.
Proof. by destruct b, b'. Qed.

(** A consumer that neither takes a node nor prints one. *)
Lemma data_set_cons b x s nodes taken :
  data s nodes taken → hand x = hand (cons b s) → count x = count (cons b s) →
  cpc x ≠ CNone → (leaving x = true → nodes = [] ∧ producing (ppc s) = false) →
  data (set_cons b x s) nodes taken.
Proof.
  intros [H1 H2 H3 H4] Hh Hc Hn Hl. split.
  - assert (heap_inv (st_heap s) (st_queue s) (ppc s) (printed s) (hands (set_cons b x s)) nodes taken).
    { rewrite hands_set_cons, Hh, <-hands_cons. done. }
    by destruct b.
  - rewrite (counts_cons b), !cons_set_cons, eqb_reflx, Hc. rewrite (counts_cons b) in H2.
    destruct b; cbn in *; lia.
  - intros b'. rewrite cons_set_cons. destruct (eqb b b'); [|apply H3].
    destruct (cpc x); done.
  - intros b'. rewrite cons_set_cons. destruct (eqb b b') eqn:E.
    + intros ?. destruct b; by apply Hl.
    + intros ?. destruct b; by apply (H4 b').
Qed.

Lemma main_data s nodes taken r :
  control s → data s nodes taken → main_step s = Some r →
  ∃ s', r = Ok s' ∧ data s' nodes taken.
Proof.
  intros Hc Hd E. unfold main_step in E. pose proof (ct_producer s Hc) as Hp.
  pose proof (ct_cons_main s Hc) as Hcm.
  destruct (mpc s) eqn:Em; cbn in Hp, Hcm.
  - injection E as <-. eexists. split; [reflexivity|].
    destruct (ppc s) eqn:Ep; try discriminate Hp. destruct Hd as [H1 H2 H3 H4].
    rewrite Ep in H1. split; cbn; try done.
    + by eapply heap_inv_pc, H1.
    + intros b Hb. destruct (H4 b Hb) as [_ Hpr]. by rewrite Ep in Hpr.
  - injection E as <-. eexists. split; [reflexivity|].
    destruct (cpc (cons_main s)) eqn:Ec; try discriminate Hcm.
    apply (data_set_cons true); cbn.
    + destruct Hd as [H1 H2 H3 H4]. by split.
    + unfold hand. by rewrite Ec.
    + symmetry. apply (dt_new _ _ _ Hd true). cbn. by rewrite Ec.
    + done.
    + done.
  - destruct (ppc s); try discriminate E. injection E as <-. eexists. split; [reflexivity|].
    destruct Hd as [H1 H2 H3 H4]. by split.
  - destruct (cpc (cons true s)); try discriminate E. injection E as <-.
    eexists. split; [reflexivity|]. destruct Hd as [H1 H2 H3 H4]. by split.
  - discriminate E.
Qed.

(** The producer's program counter only matters through what it holds. *)
Lemma data_ppc p s nodes taken :
  data s nodes taken → next_letter p = next_letter (ppc s) → private p = private (ppc s) →
  (producing (ppc s) = false → producing p = false) →
  data (assign ppc p s) nodes taken.
Proof.
  intros [H1 H2 H3 H4] Hn Hp Hpr. split; try done.
  - by eapply heap_inv_pc, H1.
  - intros b Hb. destruct (H4 b Hb) as [-> ?]. split; [done|]. by apply Hpr.
Qed.

Lemma producer_data l j s nodes taken r :
  control s → data s nodes taken → producer_step l j s = Some r →
  ∃ s' nodes', r = Ok s' ∧ data s' nodes' taken.
Proof.
  intros Hc Hd E. unfold producer_step in E. pose proof (ct_cons_prod s Hc) as Hcp.
  destruct (ppc s) eqn:Ep; cbn in Hcp; try discriminate E.
  - injection E as <-. eexists _, nodes. split; [reflexivity|].
    destruct (cpc (cons_prod s)) eqn:Ec; try discriminate Hcp.
    apply (data_set_cons false); cbn; [|by unfold hand; rewrite Ec| |done|done].
    + apply data_ppc; rewrite ?Ep; done.
    + symmetry. apply (dt_new _ _ _ Hd false). cbn. by rewrite Ec.
  - case_decide.
    + case_decide; [discriminate E|]. injection E as <-. eexists _, nodes. split; [reflexivity|].
      destruct Hd as [H1 H2 H3 H4]. rewrite Ep in H1. split; cbn; try done.
      * by apply heap_inv_malloc.
      * intros b Hb. destruct (H4 b Hb) as [_ Hpr]. by rewrite Ep in Hpr.
    + injection E as <-. eexists _, nodes. split; [reflexivity|].
      pose proof (hi_range _ _ _ _ _ _ _ (dt_heap _ _ _ Hd)) as Hr. rewrite Ep in Hr.
      apply data_ppc; simpl ppc; rewrite ?Ep; try done. cbn [next_letter] in *. lia.
  - destruct (lock s); [discriminate E|]. injection E as <-. eexists _, nodes. split; [reflexivity|].
    apply data_ppc; simpl ppc; rewrite ?Ep; try done. destruct Hd as [H1 H2 H3 H4]. by split.
  - injection E as <-. destruct Hd as [H1 H2 H3 H4]. rewrite Ep in H1.
    destruct (heap_inv_enqueue _ _ _ _ _ _ _ _ H1) as (h' & q' & -> & _ & H1').
    eexists _, (nodes ++ [(l0, ch)]). split; [reflexivity|]. split; try done.
    intros b Hb. destruct (H4 b Hb) as [_ Hpr]. by rewrite Ep in Hpr.
  - destruct (g_num_prod_lock s); [discriminate E|]. injection E as <-. eexists _, nodes.
    split; [reflexivity|]. apply data_ppc; simpl ppc; rewrite ?Ep; try done.
    destruct Hd as [H1 H2 H3 H4]. by split.
  - injection E as <-. eexists _, nodes. split; [reflexivity|].
    apply data_ppc; simpl ppc; rewrite ?Ep; try done. destruct Hd as [H1 H2 H3 H4]. by split.
  - destruct (cpc (cons false s)); try discriminate E. injection E as <-. eexists _, nodes.
    split; [reflexivity|]. destruct Hd as [H1 H2 H3 H4].
    rewrite Ep in H1. split; cbn; try done.
    + by eapply heap_inv_pc, H1.
    + intros b Hb. destruct (H4 b Hb) as [-> ?]. done.
Qed.

(** With no front there is nothing in the queue. *)
Lemma heap_inv_front h q p pr hs nodes taken :
  heap_inv h q p pr hs nodes taken → (front q = None ↔ nodes = []).
Proof. intros [H1 _ _ _ _ _ _]. rewrite (rp_front _ _ _ H1). by destruct nodes. Qed.

(** A consumer that holds the lock is the only one that can leave. *)
Lemma data_fields s s' nodes taken :
  st_heap s' = st_heap s → st_queue s' = st_queue s → ppc s' = ppc s → printed s' = printed s →
  cons_main s' = cons_main s → cons_prod s' = cons_prod s →
  data s nodes taken → data s' nodes taken.
Proof.
  intros E1 E2 E3 E4 E5 E6 [H1 H2 H3 H4]. unfold hands in H1.
  split; unfold hands; rewrite ?E1, ?E2, ?E3, ?E4, ?E5, ?E6; try done.
  - intros b. unfold cons. rewrite E5, E6. apply H3.
  - intros b. unfold cons. rewrite E5, E6. apply H4.
Qed.

(** A step that changes the shared data and what consumer [b] holds. *)
Lemma data_consumer b x s s' nodes nodes' taken taken' :
  data s nodes taken → cons b s' = x → cons (negb b) s' = cons (negb b) s →
  ppc s' = ppc s →
  heap_inv (st_heap s') (st_queue s') (ppc s) (printed s') (hand x ++ hand (cons (negb b) s))
    nodes' taken' →
  count x + length (printed s) = count (cons b s) + length (printed s') →
  cpc x ≠ CNone → leaving x = false → (nodes = [] → nodes' = []) →
  data s' nodes' taken'.
Proof.
  intros [H1 H2 H3 H4] Hx Hy Hp Hh Hc Hn Hl Hnodes. split.
  - rewrite Hp, (hands_cons b), Hx, Hy. done.
  - rewrite (counts_cons b) in H2 |- *. rewrite Hx, Hy. lia.
  - intros b'. destruct (decide (b' = b)) as [->|Hne].
    + rewrite Hx. by destruct (cpc x).
    + assert (b' = negb b) as -> by by destruct b, b'. rewrite Hy. apply H3.
  - intros b'. rewrite Hp. destruct (decide (b' = b)) as [->|Hne].
    + by rewrite Hx, Hl.
    + assert (b' = negb b) as -> by by destruct b, b'. rewrite Hy. intros Hb.
      destruct (H4 _ Hb). auto.
Qed.

Ltac stays b Ec Hd :=
  apply data_set_cons; try done;
  first [ by eapply data_fields, Hd
        | by destruct b
        | unfold hand; destruct b; cbn in *; by rewrite Ec
        | idtac ].

Lemma consumer_data b s nodes taken r :
  control s → data s nodes taken → consumer_step b s = Some r →
  ∃ s' nodes' taken', r = Ok s' ∧ data s' nodes' taken'.
Proof.
  intros Hc Hd E. unfold consumer_step in E.
  destruct (cpc (cons b s)) eqn:Ec; try discriminate E.
  - destruct (lock s); [discriminate E|]. injection E as <-. eexists _, nodes, taken.
    split; [reflexivity|]. stays b Ec Hd.
  - destruct (g_num_prod_lock s); [discriminate E|]. injection E as <-. eexists _, nodes, taken.
    split; [reflexivity|]. stays b Ec Hd.
  - pose proof (heap_inv_front _ _ _ _ _ _ _ (dt_heap _ _ _ Hd)) as Hf.
    case_decide as Hw; injection E as <-; eexists _, nodes, taken; (split; [reflexivity|]).
    + stays b Ec Hd.
    + apply data_set_cons; try done.
      * unfold hand. by rewrite Ec.
      * intros _. split.
        -- apply Hf. destruct (front (st_queue s)); [|done]. exfalso. apply Hw. by left.
        -- rewrite (ct_g s Hc) in Hw. destruct (producing (ppc s)); [|done].
           exfalso. apply Hw. by right.
  - case_decide as Hf.
    + injection E as <-. eexists _, nodes, taken. split; [reflexivity|].
      stays b Ec Hd.
    + injection E as <-. pose proof (dt_heap _ _ _ Hd) as Hh.
      destruct nodes as [|[l ch] nodes].
      { exfalso. apply Hf. by apply (heap_inv_front _ _ _ _ _ _ _ Hh). }
      destruct (heap_inv_dequeue _ _ _ _ _ _ _ _ _ Hh) as (h' & q' & -> & _ & Hh').
      eexists _, nodes, (taken ++ [ch]). split; [reflexivity|]. cbn [fst snd].
      eapply (data_consumer b); [exact Hd|done|by destruct b|by destruct b| | | | |]; try (by destruct b).
      rewrite (hands_cons b) in Hh'. unfold hand at 1 in Hh'. rewrite Ec in Hh'. by destruct b.
  - injection E as <-. pose proof (dt_heap _ _ _ Hd) as Hh.
    rewrite (hands_cons b) in Hh. unfold hand at 1 in Hh. rewrite Ec in Hh.
    destruct (heap_inv_free _ _ _ _ _ _ _ _ Hh) as (n & h' & -> & E & _ & Hh').
    cbn [mbind res_bind]. rewrite E. cbn [mbind res_bind].
    eexists _, nodes, taken. split; [reflexivity|]. cbn [fst snd].
    eapply (data_consumer b); [exact Hd|done|by destruct b|by destruct b| | | | |]; try (by destruct b).
    destruct b; cbn; rewrite length_app; cbn; lia.
  - injection E as <-. eexists _, nodes, taken. split; [reflexivity|].
    stays b Ec Hd.
    intros _. apply (dt_leaving _ _ _ Hd b). unfold leaving. by rewrite Ec.
Qed.

Lemma start_good : good start.
Proof.
  split; [apply control_start|]. exists [], []. split; cbn; try done.
  - split; cbn; try done; try set_solver.
    + apply represents_nil.
    + unfold letter_a, letter_z; lia.
    + apply NoDup_nil_2.
  - by intros [].
  - by intros [].
Qed.

Lemma exec_good t l j s r : good s → exec t l j s = Some r → ∃ s', r = Ok s' ∧ good s'.
Proof.
  intros [Hc (nodes & taken & Hd)] E.
  assert (∃ s' nodes' taken', r = Ok s' ∧ data s' nodes' taken') as (s' & n' & t' & -> & Hd').
  { destruct t as [| |b].
    - destruct (main_data _ _ _ _ Hc Hd E) as (? & ? & ?). eauto.
    - destruct (producer_data _ _ _ _ _ _ Hc Hd E) as (? & ? & ? & ?). eauto.
    - by eapply consumer_data. }
  exists s'. split; [done|]. split; [|by eauto]. apply (step_control s); [done|]. by exists t, l, j.
Qed.

Lemma reachable_good s : reachable (eq start) step s → good s.
Proof.
  revert s. apply invariant_ind.
  - intros s <-. apply start_good.
  - intros s s' Hs (t & l & j & E). by destruct (exec_good _ _ _ _ _ Hs E) as (? & [= <-] & ?).
Qed.

(** ** Lemmas: the program can always go on *)

Definition main_rank (p : main_pc) : nat :=
  match p with
  | MCreateProducer => 4 | MCreateConsumer => 3 | MJoinProducer => 2 | MJoinConsumer => 1
  | MDone => 0
  end.

Definition producer_rank (p : producer_pc) : nat :=
  match p with
  | PNone => 6 + 3 * (S letter_z - letter_a)
  | PCreate => 5 + 3 * (S letter_z - letter_a)
  | PFor ch => 4 + 3 * (S letter_z - ch)
  | PLock _ ch => 6 + 3 * (letter_z - ch)
  | PAdd _ ch => 5 + 3 * (letter_z - ch)
  | PLockNum => 3
  | PDecrement => 2
  | PJoin => 1
  | PDone => 0
  end.

(** What a consumer still has to do before it waits: for the producer, or,
    when that has stopped, for nothing. *)
Definition consumer_rank (s : state) (x : consumer) : nat :=
  match cpc x with
  | CNone => 6
  | CLock => if producing (ppc s) then 0 else 5
  | CLockNum => 4
  | CWhile => 3
  | CBody => if decide (front (st_queue s) = None ∧ producing (ppc s) = false) then 6 else 2
  | CPrint _ | CExit => 1
  | CDone => 0
  end.

Definition rank (s : state) : nat :=
  1000 * producer_rank (ppc s) + 20 * size (st_heap s) +
  consumer_rank s (cons_main s) + consumer_rank s (cons_prod s) + main_rank (mpc s).

Lemma size_same_dom (h h' : heap) : dom h' = dom h → size h' = size h.
Proof. intros E. by rewrite <-!size_dom, E. Qed.

(** Only one thread holds a mutex. *)
Lemma holds_lock_inj s t t' :
  control s → holds_lock s t = true → holds_lock s t' = true → t = t'.
Proof. intros Hc Ht Ht'. apply (ct_lock s Hc) in Ht, Ht'. congruence. Qed.

Lemma holds_num_inj s t t' :
  control s → holds_num s t = true → holds_num s t' = true → t = t'.
Proof. intros Hc Ht Ht'. apply (ct_num s Hc) in Ht, Ht'. congruence. Qed.

(** The rank of the other consumer does not change. *)
Lemma rank_consumer b s s' :
  mpc s' = mpc s → ppc s' = ppc s → cons (negb b) s' = cons (negb b) s →
  (st_queue s' = st_queue s ∨ holds_lock s (Consumer (negb b)) = false) →
  20 * size (st_heap s') + consumer_rank s' (cons b s') <
    20 * size (st_heap s) + consumer_rank s (cons b s) →
  rank s' < rank s.
Proof.
  intros Hm Hp Ho Hq Hlt.
  assert (consumer_rank s' (cons (negb b) s') = consumer_rank s (cons (negb b) s)) as Heq.
  { rewrite Ho. unfold consumer_rank. rewrite Hp. destruct Hq as [->|Hq]; [done|].
    cbn in Hq. by destruct (cpc (cons (negb b) s)). }
  unfold rank. rewrite Hm, Hp. destruct b; cbn [cons negb] in *; lia.
Qed.

(** A consumer that does not wait brings the end nearer. *)
Lemma consumer_progress b s :
  good s → cpc (cons b s) ≠ CNone → cpc (cons b s) ≠ CDone →
  (cpc (cons b s) = CLock → lock s = None ∧ producing (ppc s) = false) →
  ((∃ l, cpc (cons b s) = CPrint l) → producing (ppc s) = false) →
  producer_rank (ppc s) ≠ 2 →
  ∃ s', consumer_step b s = Some (Ok s') ∧ rank s' < rank s.
Proof.
  intros [Hc (nodes & taken & Hd)] Hn Hdone Hlock Hprint Hpp. unfold consumer_step.
  destruct (cpc (cons b s)) eqn:Ec; try done.
  - destruct (Hlock eq_refl) as [-> Hp]. eexists. split; [reflexivity|].
    apply (rank_consumer b); try (by destruct b). { destruct b; by left. }
    unfold consumer_rank. rewrite Ec. destruct b; cbn; rewrite Hp; lia.
  - destruct (g_num_prod_lock s) as [t|] eqn:El.
    + exfalso. apply (ct_num s Hc) in El. assert (holds_lock s (Consumer b) = true) as Hb.
      { cbn. by rewrite Ec. }
      destruct t as [| |b']; cbn in El; [done| |].
      * by destruct (ppc s).
      * assert (Consumer b' = Consumer b) as [= ->].
        { apply (holds_lock_inj s); [done| |done]. cbn. by destruct (cpc (cons b' s)). }
        by rewrite Ec in El.
    + eexists. split; [reflexivity|]. apply (rank_consumer b); try (by destruct b).
      { destruct b; by left. }
      unfold consumer_rank. rewrite Ec. destruct b; cbn; lia.
  - case_decide as Hw; (eexists; split; [reflexivity|]); apply (rank_consumer b); try (by destruct b);
      try (destruct b; by left); unfold consumer_rank; rewrite Ec.
    + assert (¬ (front (st_queue s) = None ∧ producing (ppc s) = false)) as Hnot.
      { intros [Hf Hp]. rewrite (ct_g s Hc), Hp in Hw. destruct Hw; [done|lia]. }
      destruct b; cbn; rewrite decide_False by done; lia.
    + destruct b; cbn; lia.
  - case_decide as Hf.
    + eexists. split; [reflexivity|]. apply (rank_consumer b); try (by destruct b).
      { destruct b; by left. }
      unfold consumer_rank. rewrite Ec. destruct (producing (ppc s)) eqn:Hp.
      * destruct b; cbn; rewrite Hp, decide_False by (by intros []); lia.
      * destruct b; cbn; rewrite Hp, decide_True by (by split); lia.
    + pose proof (dt_heap _ _ _ Hd) as Hh.
      destruct nodes as [|[l ch] nodes].
      { exfalso. apply Hf. by apply (heap_inv_front _ _ _ _ _ _ _ Hh). }
      destruct (heap_inv_dequeue _ _ _ _ _ _ _ _ _ Hh) as (h' & q' & -> & Hdom & _).
      eexists. split; [reflexivity|]. apply size_same_dom in Hdom.
      apply (rank_consumer b); try (by destruct b).
      * right. apply not_true_is_false. intros Ho.
        assert (Consumer (negb b) = Consumer b) as [=]; [|by destruct b].
        apply (holds_lock_inj s); [done|done|]. cbn. by rewrite Ec.
      * unfold consumer_rank. rewrite Ec. destruct b; cbn; rewrite decide_False by tauto; lia.
  - pose proof (dt_heap _ _ _ Hd) as Hh.
    rewrite (hands_cons b) in Hh. unfold hand at 1 in Hh. rewrite Ec in Hh.
    destruct (heap_inv_free _ _ _ _ _ _ _ _ Hh) as (n & h' & -> & E & Hsize & _).
    cbn [mbind res_bind]. rewrite E. eexists. split; [reflexivity|].
    apply (rank_consumer b); try (by destruct b). { destruct b; by left. }
    specialize (Hprint (ex_intro _ l eq_refl)).
    unfold consumer_rank. rewrite Ec. destruct b; cbn; rewrite Hprint; lia.
  - eexists. split; [reflexivity|]. apply (rank_consumer b); try (by destruct b).
    { destruct b; by left. }
    unfold consumer_rank. rewrite Ec. destruct b; cbn; lia.
Qed.

(** A consumer that holds the lock can go on unless the producer is about to
    give up the other mutex. *)
Lemma holder_progress b s :
  good s → holds_lock s (Consumer b) = true → producer_rank (ppc s) ≠ 2 →
  ∃ s', consumer_step b s = Some (Ok s') ∧ rank s' < rank s.
Proof.
  intros Hg Hb Hp. cbn in Hb. apply consumer_progress; try done.
  all: destruct (cpc (cons b s)); try done; by intros [].
Qed.

(** When the producer has stopped, a consumer or the holder of the lock can go on. *)
Lemma last_consumers_progress b s :
  good s → producing (ppc s) = false → cpc (cons b s) ≠ CNone → cpc (cons b s) ≠ CDone →
  ∃ b' s', consumer_step b' s = Some (Ok s') ∧ rank s' < rank s.
Proof.
  intros Hg Hp Hn Hd. pose proof Hg as [Hc _].
  assert (producer_rank (ppc s) ≠ 2) as Hp2 by by destruct (ppc s).
  destruct (lock s) as [t|] eqn:El.
  - apply (ct_lock s Hc) in El. destruct t as [| |b']; [done| |].
    + cbn in El. by destruct (ppc s).
    + exists b'. by apply holder_progress.
  - exists b. by apply consumer_progress.
Qed.

Lemma producer_progress s :
  good s → producing (ppc s) = true → ppc s ≠ PNone →
  ∃ t l s', exec t l None s = Some (Ok s') ∧ rank s' < rank s.
Proof.
  intros Hg Hp Hn. pose proof Hg as [Hc (nodes & taken & Hd)].
  pose proof (dt_heap _ _ _ Hd) as Hh. pose proof (hi_range _ _ _ _ _ _ _ Hh) as Hr.
  assert (∀ p s' , mpc s' = mpc s → ppc s' = p → size (st_heap s') ≤ S (size (st_heap s)) →
    producer_rank p < producer_rank (ppc s) → rank s' < rank s) as Hrank.
  { intros p s' Hm <- Hs Hlt. unfold rank. rewrite Hm.
    assert (∀ x, consumer_rank s' x ≤ 6) as Hx.
    { intros x. unfold consumer_rank.
      destruct (cpc x); try lia; repeat (case_decide || case_match); lia. }
    pose proof (Hx (cons_main s')). pose proof (Hx (cons_prod s')). lia. }
  destruct (ppc s) eqn:Ep; try done.
  - exists Producer, 0. eexists. cbn [exec]. unfold producer_step. rewrite Ep.
    split; [reflexivity|]. eapply Hrank; [done|done|cbn;lia|cbn;lia].
  - cbn in Hr. exists Producer, (fresh (dom (st_heap s))). cbn [exec]. unfold producer_step. rewrite Ep.
    case_decide as Hch.
    + rewrite decide_False by apply is_fresh. eexists. split; [reflexivity|].
      eapply Hrank; [done|done| |cbn -[letter_z Nat.mul Nat.sub]; lia].
      cbn. unfold new_node. rewrite map_size_insert_None; [done|].
      apply not_elem_of_dom, is_fresh.
    + eexists. split; [reflexivity|]. eapply Hrank; [done|done|cbn; lia|cbn -[letter_z Nat.mul Nat.sub]; lia].
  - destruct (lock s) as [t|] eqn:El.
    + apply (ct_lock s Hc) in El. destruct t as [| |b]; [done|by cbn in El; rewrite Ep in El|].
      destruct (holder_progress b s Hg El) as (s' & E & Hlt).
      { rewrite Ep. cbn. lia. }
      by exists (Consumer b), 0, s'.
    + exists Producer, 0. eexists. cbn [exec]. unfold producer_step. rewrite Ep, El.
      split; [reflexivity|]. eapply Hrank; [done|done|cbn;lia|cbn -[letter_z Nat.mul Nat.sub]; lia].
  - destruct (hi_private _ _ _ _ _ _ _ Hh l ch) as [Hch _]; [left|].
    destruct (heap_inv_enqueue _ _ _ _ _ _ _ _ Hh) as (h' & q' & E & Hdom & _).
    exists Producer, 0. eexists. cbn [exec]. unfold producer_step. rewrite Ep, E.
    split; [reflexivity|]. eapply Hrank; [done|done| |cbn -[letter_z Nat.mul Nat.sub]; lia].
    cbn. rewrite (size_same_dom _ _ Hdom). lia.
  - destruct (g_num_prod_lock s) as [t|] eqn:El.
    + apply (ct_num s Hc) in El. destruct t as [| |b]; [done|by cbn in El; rewrite Ep in El|].
      destruct (holder_progress b s Hg) as (s' & E & Hlt).
      { cbn in *. by destruct (cpc (cons b s)). }
      { by rewrite Ep. }
      by exists (Consumer b), 0, s'.
    + exists Producer, 0. eexists. cbn [exec]. unfold producer_step. rewrite Ep, El.
      split; [reflexivity|]. eapply Hrank; [done|done|cbn;lia|cbn; lia].
  - exists Producer, 0. eexists. cbn [exec]. unfold producer_step. rewrite Ep.
    split; [reflexivity|]. eapply Hrank; [done|done|cbn;lia|cbn; lia].
Qed.

(** Some step brings the end nearer. *)
Lemma good_progress s :
  good s → ¬ finished s → ∃ t l s', exec t l None s = Some (Ok s') ∧ rank s' < rank s.
Proof.
  intros Hg Hf. pose proof Hg as [Hc _]. unfold finished in Hf.
  pose proof (ct_producer s Hc) as Hp. pose proof (ct_cons_main s Hc) as Hcm.
  pose proof (ct_cons_prod s Hc) as Hcp.
  assert (∀ b, producing (ppc s) = false → cpc (cons b s) ≠ CNone → cpc (cons b s) ≠ CDone →
    ∃ t l s', exec t l None s = Some (Ok s') ∧ rank s' < rank s) as Hlast.
  { intros b H1 H2 H3. destruct (last_consumers_progress b s Hg H1 H2 H3) as (b' & s' & E & Hlt).
    by exists (Consumer b'), 0, s'. }
  destruct (producing (ppc s)) eqn:Epr.
  - destruct (producer_none (ppc s)) eqn:Ep; [|apply producer_progress; [done|done|by intros E; rewrite E in Ep]].
    destruct (mpc s) eqn:Em; try done. destruct (ppc s) eqn:Ep'; try done.
    exists Main, 0. eexists. cbn [exec]. unfold main_step. rewrite Em. split; [reflexivity|].
    unfold rank, consumer_rank. rewrite Em, Ep'. cbn -[size Nat.mul].
    destruct (cpc (cons_main s)), (cpc (cons_prod s)); try done; lia.
  - pose proof (Hlast true eq_refl) as Hmain. pose proof (Hlast false eq_refl) as Hprod.
    cbn [cons] in Hmain, Hprod.
    destruct (ppc s) eqn:Ep; try done.
    + destruct (cpc (cons_prod s)) eqn:Ec; try done; try (by apply Hprod).
      exists Producer, 0. eexists. cbn [exec]. unfold producer_step. rewrite Ep. cbn [cons].
      rewrite Ec. split; [reflexivity|]. unfold rank, consumer_rank. rewrite Ep. cbn -[size Nat.mul].
      repeat case_match; lia.
    + destruct (mpc s) eqn:Em; try done.
      * exists Main, 0. eexists. cbn [exec]. unfold main_step. rewrite Em. split; [reflexivity|].
        unfold rank, consumer_rank. rewrite Em. cbn -[size Nat.mul]. rewrite Ep. cbn -[size Nat.mul].
        destruct (cpc (cons_main s)); try done. lia.
      * exists Main, 0. eexists. cbn [exec]. unfold main_step. rewrite Em, Ep. split; [reflexivity|].
        unfold rank, consumer_rank. rewrite Em. cbn -[size Nat.mul]. lia.
      * destruct (cpc (cons_main s)) eqn:Ec; try done; try (by apply Hmain).
        exists Main, 0. eexists. cbn [exec]. unfold main_step. rewrite Em. cbn [cons]. rewrite Ec.
        split; [reflexivity|]. unfold rank, consumer_rank. rewrite Em. cbn -[size Nat.mul]. lia.
Qed.

Lemma play_reachable ts n s s' :
  reachable (eq start) step s → play n ts s = Ok s' → reachable (eq start) step s'.
Proof.
  revert n s. induction ts as [|t ts IH]; cbn; intros n s Hs E.
  - by injection E as <-.
  - destruct (exec t n (Some n) s) as [[s1|]|] eqn:Et; cbn [mbind res_bind] in E; try done.
    + apply (IH _ _) in E; [done|]. destruct Hs as (s0 & H0 & Hs). exists s0. split; [done|].
      eapply rtc_r; [exact Hs|]. by exists t, n, (Some n).
    + by apply (IH _ _) in E.
Qed.

Lemma start_reachable : reachable (eq start) step start.
Proof. by exists start. Qed.

Lemma can_reach_end s : good s → ∃ s', rtc step s s' ∧ finished s'.
Proof.
  revert s. apply (rank_reaches step good finished rank). intros s Hg.
  destruct (main_done (mpc s)) eqn:Em.
  { left. unfold finished. by destruct (mpc s). }
  right. destruct (good_progress s Hg) as (t & l & s1 & E & Hlt).
  { unfold finished. intros E. by rewrite E in Em. }
  destruct (exec_good _ _ _ _ _ Hg E) as (s2 & [= <-] & Hg1).
  exists s1. split; [|done]. by exists t, l, None.
Qed.

Lemma finished_threads s :
  control s → finished s →
  ppc s = PDone ∧ (∀ b, cpc (cons b s) = CDone) ∧ lock s = None ∧ g_num_prod_lock s = None.
Proof.
  intros Hc Hf. unfold finished in Hf.
  pose proof (ct_joined s Hc) as Hj. pose proof (ct_joined_main s Hc) as Hm.
  pose proof (ct_joined_prod s Hc) as Hp. rewrite Hf in Hj, Hm.
  specialize (Hj eq_refl). specialize (Hm eq_refl). specialize (Hp Hj).
  assert (ppc s = PDone) as Epp by by destruct (ppc s).
  assert (∀ b, cpc (cons b s) = CDone) as Ec.
  { intros []; cbn; [by destruct (cpc (cons_main s))|by destruct (cpc (cons_prod s))]. }
  split; [done|]. split; [done|]. split.
  - destruct (lock s) as [t|] eqn:El; [|done]. apply (ct_lock s Hc) in El.
    destruct t as [| |b]; cbn in El; [done|by rewrite Epp in El|by rewrite Ec in El].
  - destruct (g_num_prod_lock s) as [t|] eqn:El; [|done]. apply (ct_num s Hc) in El.
    destruct t as [| |b]; cbn in El; [done|by rewrite Epp in El|by rewrite Ec in El].
Qed.

(** ** Properties *)

(** C29: however the threads are scheduled, no step dereferences a null or freed
    node, frees a node twice or fails an [assert]. *)
Theorem no_thread_fails (s : state) : reachable (eq start) step s → ¬ fails s.
Proof.
  intros Hs%reachable_good (t & l & j & e & E). by destruct (exec_good _ _ _ _ _ Hs E) as (? & ? & _).
Qed.

(** C17: when [main] ends, every letter from 'a' to 'z' has been printed exactly
    once, the counts that the two consumers return add up to 26, every node has
    been freed and the queue is empty; and the other threads have ended and
    released the mutexes that [main] destroys. *)
Theorem all_letters_printed (s : state) :
  reachable (eq start) step s → finished s →
  printed s ≡ₚ seq letter_a 26 ∧ length (reports s) = 2 ∧ sum_list (reports s) = 26 ∧
  st_heap s = ∅ ∧ st_queue s = Queue None None ∧
  ppc s = PDone ∧ (∀ b, cpc (cons b s) = CDone) ∧ lock s = None ∧ g_num_prod_lock s = None.
Proof.
  intros Hs%reachable_good Hf. destruct Hs as [Hc (nodes & taken & Hd)].
  pose proof (finished_threads s Hc Hf) as Hthreads. destruct Hthreads as (Ep & Ec & Hl).
  destruct (dt_leaving _ _ _ Hd true) as [-> _]; [unfold leaving; by rewrite Ec|].
  destruct Hd as [[H1 H2 H3 H4 H5 H6 H7] Hcount _ _].
  assert (hands s = []) as Hh.
  { unfold hands, hand. pose proof (Ec true) as E1. pose proof (Ec false) as E2. cbn in E1, E2.
    by rewrite E1, E2. }
  rewrite Ep, Hh in *. cbn in H3, H6, H7. rewrite app_nil_r in H3, H7.
  assert (printed s ≡ₚ seq letter_a 26) as Hprinted by by rewrite <-H7, <-H3.
  assert (reports s = [count (cons_prod s); count (cons_main s)]) as Hr.
  { rewrite (ct_reports s Hc), Ep. unfold finished in Hf. by rewrite Hf. }
  split; [done|]. split; [by rewrite Hr|]. split.
  { rewrite Hr. cbn. apply Permutation_length in Hprinted. rewrite length_seq in Hprinted. lia. }
  split; [by apply dom_empty_inv_L|]. split; [|done].
  destruct (st_queue s) as [f b]. destruct H1 as [Hfront Hback _ _]. cbn in *. by subst.
Qed.

(** Each mutex has at most one holder, and a thread in a critical section is
    the recorded owner of the mutex. *)
Theorem mutual_exclusion (s : state) (t t' : thread) :
  reachable (eq start) step s →
  (holds_lock s t = true → holds_lock s t' = true → t = t' ∧ lock s = Some t) ∧
  (holds_num s t = true → holds_num s t' = true → t = t' ∧ g_num_prod_lock s = Some t).
Proof.
  intros [Hc _]%reachable_good. split; intros H1 H2.
  - split; [by apply (holds_lock_inj s)|by apply (ct_lock s Hc)].
  - split; [by apply (holds_num_inj s)|by apply (ct_num s Hc)].
Qed.

(** C30: the program never gets stuck: from every reachable state some schedule
    leads [main] to its end, so no interleaving deadlocks. *)
Theorem always_can_finish (s : state) :
  reachable (eq start) step s → ∃ s', rtc step s s' ∧ finished s'.
Proof. intros Hs%reachable_good. by apply can_reach_end. Qed.

(** ** Witnesses *)

Definition round_robin (n : nat) : list thread :=
  concat (repeat [Main; Producer; Consumer true; Consumer false] n).

(** The state in which the consumers compete with the producer. *)
Definition middle : state := match play 0 (round_robin 16) start with Ok s => s | Err _ => start end.

Lemma middle_reachable : reachable (eq start) step middle.
Proof.
  apply (play_reachable (round_robin 16) 0 start); [apply start_reachable|by vm_compute].
Qed.

Definition last_state : state :=
  match play 0 (round_robin 400) start with Ok s => s | Err _ => start end.

Lemma last_reachable : reachable (eq start) step last_state.
Proof.
  apply (play_reachable (round_robin 400) 0 start); [apply start_reachable|by vm_compute].
Qed.

Lemma no_thread_fails_witness : length (printed middle) = 1 ∧ ¬ fails middle.
Proof. split; [reflexivity|]. apply no_thread_fails, middle_reachable. Defined.

Lemma all_letters_printed_witness :
  finished last_state ∧ printed last_state ≡ₚ seq letter_a 26.
Proof.
  split; [by vm_compute|].
  apply (all_letters_printed last_state last_reachable). by vm_compute.
Defined.

Lemma mutual_exclusion_witness :
  holds_lock middle (Consumer true) = true ∧
  Consumer true = Consumer true ∧ lock middle = Some (Consumer true).
Proof.
  split; [reflexivity|]. apply (mutual_exclusion middle _ (Consumer true)); [|reflexivity..].
  apply middle_reachable.
Defined.

Lemma always_can_finish_witness : ∃ s', rtc step middle s' ∧ finished s'.
Proof. apply (always_can_finish middle), middle_reachable. Defined.
