(* ===== verification/Barrier.v ===== *)
(** * Barriers (project2)

    What the barriers of project2 promise to the programs that call them: the
    interface that the five barriers implement, and what a caller that loops over
    the barrier can rely on, as Harness.v does. *)
From S2P Require Import Prelude.

(** A barrier shared by participants [0, ..., participants - 1]; [entered] and
    [left] count the calls that a participant has begun and completed. *)
Record barrier := Barrier {
  participants : nat;
  bstate : Type;
  binit : bstate → Prop;
  bstep : bstate → bstate → Prop;
  entered : bstate → nat → nat;
  left : bstate → nat → nat
}.

Section interface.
Context (B : barrier).

(** No call has begun before the program does. *)
Definition starts : Prop := ∀ s, binit B s → ∀ t, entered B s t = 0.

(** A participant makes one call at a time. *)
Definition one_call : Prop :=
  ∀ s, reachable (binit B) (bstep B) s →
  ∀ t, t < participants B → left B s t ≤ entered B s t ≤ S (left B s t).

(** No call returns before every participant has begun the same call. *)
Definition separates : Prop :=
  ∀ s, reachable (binit B) (bstep B) s →
  ∀ t u, t < participants B → u < participants B → left B s t ≤ entered B s u.

(** A step in which no participant begins more than [k] calls. *)
Definition limited (k : nat) (s s' : bstate B) : Prop :=
  bstep B s s' ∧ ∀ t, t < participants B → entered B s' t ≤ Nat.max k (entered B s t).

(** From every reachable state all participants can complete any number of calls, and
    none has to begin another one for that: no interleaving so far has led to a
    deadlock. *)
Definition never_stuck : Prop :=
  ∀ s, reachable (binit B) (bstep B) s →
  ∀ k, ∃ s', rtc (limited k) s s' ∧ ∀ t, t < participants B → k ≤ left B s' t.

(** A step of a participant that has calls to complete is limited, since a call does not
    begin and end at once. *)
Lemma limited_by u k s s' :
  bstep B s s' → (∀ t, t ≠ u → entered B s' t = entered B s t) →
  entered B s' u = entered B s u ∨ left B s' u = left B s u →
  entered B s' u ≤ S (left B s' u) → left B s u < k → limited k s s'.
Proof.
  intros Hs Ht Hu Hle Hk. split; [done|]. intros t _.
  destruct (decide (t = u)) as [->|Hne]; [lia|]. rewrite Ht by done. lia.
Qed.

Lemma limited_steps k s s' : rtc (limited k) s s' → rtc (bstep B) s s'.
Proof. apply rtc_subrel. by intros ? ? [? _]. Qed.
End interface.

Class Correct (B : barrier) : Prop := {
  correct_starts : starts B;
  correct_calls : one_call B;
  correct_separates : separates B;
  correct_live : never_stuck B
}.

(** The loops of the harnesses: two participants are never more than one
    iteration apart. *)
Lemma lockstep B `{!Correct B} s t u :
  reachable (binit B) (bstep B) s → t < participants B → u < participants B →
  left B s t ≤ S (left B s u).
Proof.
  intros Hs Ht Hu. pose proof (correct_separates s Hs t u Ht Hu).
  pose proof (correct_calls s Hs u Hu). lia.
Qed.
