(* ===== verification/SenseBarrier.v ===== *)
(** * The sense-reversing barrier (project2/omp/gtmp1.c)

    The shared [count] and [sense] and, per thread, where it is in
    [gtmp_barrier].  A step is one access to the shared variables; a read of
    [sense] that keeps a thread in the loop of line 22 is no step. *)
From S2P Require Import Prelude Barrier.

(** Where a thread is, with its [my_sense]. *)
Inductive pc :=
| Out
| Sub (my_sense : bool)
| SetCount (my_sense : bool)
| SetSense (my_sense : bool)
| Spin (my_sense : bool).

(** The calls begun and completed are not variables of the program. *)
Record thread := Thread { at_pc : pc; calls : nat; returns : nat }.

Record state := State {
  count : Z;
  sense : bool;
  num_threads : Z;
  threads : list thread
}.

Definition gtmp_init (_num_threads : Z) : state :=
  State _num_threads false _num_threads (replicate (Z.to_nat _num_threads) (Thread Out 0 0)).

(** [__sync_fetch_and_sub] on an [int] *)
Definition fetch_and_sub (z d : Z) : Z * Z := (z, i32 (z - d)).

(** The next access of a thread: the new [count] and [sense] and where it goes. *)
Definition gtmp_barrier (s : state) (th : thread) : option (Z * bool * thread) :=
  match at_pc th with
  | Out => Some (count s, sense s, Thread (Sub (negb (sense s))) (S (calls th)) (returns th))
  | Sub my =>
    let (old, new) := fetch_and_sub (count s) 1 in
    Some (new, sense s,
      Thread (if (old =? 1)%Z then SetCount my else Spin my) (calls th) (returns th))
  | SetCount my => Some (num_threads s, sense s, Thread (SetSense my) (calls th) (returns th))
  | SetSense my => Some (count s, my, Thread Out (calls th) (S (returns th)))
  | Spin my =>
    if decide (sense s ≠ my) then None
    else Some (count s, sense s, Thread Out (calls th) (S (returns th)))
  end.

Definition exec (s : state) (t : nat) : option state :=
  th ← threads s !! t;
  csth ← gtmp_barrier s th;
  mret (State csth.1.1 csth.1.2 (num_threads s) (<[t := csth.2]> (threads s))).

Definition step (s s' : state) : Prop := ∃ t, exec s t = Some s'.

(** The barrier of [n] threads. *)
Definition sense_barrier (n : nat) : barrier := {|
  participants := n;
  bstate := state;
  binit := eq (gtmp_init (Z.of_nat n));
  bstep := step;
  Barrier.entered := λ s t, default 0 (calls <$> threads s !! t);
  Barrier.left := λ s t, default 0 (returns <$> threads s !! t)
|}.

(** ** Invariant *)

(** The sense after [e] episodes. *)
Definition sense_of (e : nat) : bool := Nat.odd e.

(** Threads during episode [S e]: in front of the subtraction, waiting, or
    released from episode [e] and not yet aware of it. *)
Definition arriving (e : nat) (th : thread) : Prop :=
  match at_pc th with
  | Out => calls th = e ∧ returns th = e
  | Sub my => calls th = S e ∧ returns th = e ∧ my = sense_of (S e)
  | Spin my => calls th = e ∧ S (returns th) = e ∧ my = sense_of e
  | _ => False
  end.

Definition waiting (e : nat) (th : thread) : Prop :=
  calls th = S e ∧ returns th = e ∧ at_pc th = Spin (sense_of (S e)).

#[export] Instance pc_eq_dec : EqDecision pc.
Proof. solve_decision. Defined.

#[export] Instance waiting_dec e th : Decision (waiting e th).
Proof. unfold waiting. apply _. Defined.

Definition number_waiting (e : nat) (l : list thread) : nat :=
  sum_list_with (λ th, if decide (waiting e th) then 1 else 0) l.

(** The last thread to arrive. *)
Definition leading (e : nat) (p : bool → pc) (th : thread) : Prop :=
  calls th = S e ∧ returns th = e ∧ at_pc th = p (sense_of (S e)).

(** The threads gather, the last one resets the count, or it reverses the sense. *)
Inductive part := Gathering | Counting | Opening.

#[export] Instance part_eq_dec : EqDecision part.
Proof. solve_decision. Defined.

Inductive phase (n e : nat) (c : Z) (l : list thread) : part → Prop :=
| Gather :
    (∀ t th, l !! t = Some th → arriving e th ∨ waiting e th) →
    number_waiting e l < n → c = (Z.of_nat n - Z.of_nat (number_waiting e l))%Z → phase n e c l Gathering
| Count t th :
    l !! t = Some th → leading e SetCount th → c = 0%Z →
    (∀ u th', l !! u = Some th' → u ≠ t → waiting e th') → phase n e c l Counting
| Open t th :
    l !! t = Some th → leading e SetSense th → c = Z.of_nat n →
    (∀ u th', l !! u = Some th' → u ≠ t → waiting e th') → phase n e c l Opening.

(** The next step of [th] makes it the last thread to arrive. *)
Definition wins (s : state) (th : thread) : bool :=
  match at_pc th with Sub _ => (count s =? 1)%Z | _ => false end.

Record good_in (n e : nat) (b : part) (s : state) : Prop := {
  gd_threads : length (threads s) = n;
  gd_num : num_threads s = Z.of_nat n;
  gd_sense : sense s = sense_of e;
  gd_phase : phase n e (count s) (threads s) b
}.

Definition good (n : nat) (s : state) : Prop := ∃ e b, good_in n e b s.

(** ** Lemmas *)

Lemma sense_of_S e : sense_of (S e) = negb (sense_of e).
Proof. unfold sense_of. by rewrite Nat.odd_succ, <-Nat.negb_odd. Qed.

Lemma sense_of_ne e : sense_of e ≠ sense_of (S e).
Proof. rewrite sense_of_S. by destruct (sense_of e). Qed.

Lemma arriving_not_waiting e th : arriving e th → ¬ waiting e th.
Proof.
  unfold arriving. intros Ha (Hc & Hr & Hp). rewrite Hp in Ha.
  destruct Ha as (_ & _ & Hs). by apply (sense_of_ne e).
Qed.

Section counting.
Context (e : nat) (l : list thread) (t : nat) (th : thread) (Hl : l !! t = Some th).

Lemma number_waiting_insert th' :
  number_waiting e (<[t := th']> l) + (if decide (waiting e th) then 1 else 0) =
  number_waiting e l + (if decide (waiting e th') then 1 else 0).
Proof.
  apply (sum_insert (λ th, if decide (waiting e th) then 1 else 0) l t th th' Hl).
Qed.

(** When all but one wait, the others do. *)
Lemma others_waiting u th' :
  S (number_waiting e l) = length l → ¬ waiting e th →
  l !! u = Some th' → u ≠ t → waiting e th'.
Proof.
  intros Hn Ht Hu Hne. destruct (decide (waiting e th')) as [?|Hu']; [done|]. exfalso.
  pose proof (sum_complement (λ th, if decide (waiting e th) then 1 else 0)
    (λ th, if decide (waiting e th) then 0 else 1) l) as Hc.
  pose proof (sum_lookup2 (λ th, if decide (waiting e th) then 0 else 1) l t u th th' Hl Hu
    ltac:(congruence)) as H2. cbn in H2. rewrite !decide_False in H2 by done.
  unfold number_waiting in Hn. rewrite <-Hc in Hn; [lia|]. intros x. by case_decide.
Qed.
End counting.

Lemma number_waiting_0 e l :
  (∀ t th, l !! t = Some th → arriving e th) → number_waiting e l = 0.
Proof.
  intros H. apply sum_zero. intros i x Hi. rewrite decide_False; [done|].
  apply arriving_not_waiting. by eapply H.
Qed.

Lemma init_good n : 1 ≤ n → good_in n 0 Gathering (gtmp_init (Z.of_nat n)).
Proof.
  intros Hn. split; cbn; [by rewrite length_replicate, Nat2Z.id|done|done|].
  assert (∀ t th, replicate (Z.to_nat (Z.of_nat n)) (Thread Out 0 0) !! t = Some th → arriving 0 th) as H.
  { intros t th [-> _]%lookup_replicate. done. }
  pose proof (number_waiting_0 0 _ H) as H0. apply Gather; rewrite ?H0; [|lia|lia].
  intros t th Ht. left. by eapply H.
Qed.

(** What [t] does is seen by [t]; the others keep their part of a property. *)
Lemma insert_cases {P : nat → thread → Prop} (l : list thread) t y :
  (∀ u x, l !! u = Some x → u ≠ t → P u x) → P t y →
  ∀ u x, <[t := y]> l !! u = Some x → P u x.
Proof.
  intros Ho Ht u x [(-> & <- & _)|[? Hu]]%list_lookup_insert_Some; [done|].
  by apply Ho.
Qed.

Section steps.
Context (n e : nat) (s s' : state) (t : nat) (th : thread).
Context (Hlen : length (threads s) = n) (Hnum : num_threads s = Z.of_nat n).
Context (Hn : (Z.of_nat n < 2 ^ 31)%Z) (Hsense : sense s = sense_of e).
Context (Ht : threads s !! t = Some th) (E : exec s t = Some s').

(** The state after a step of [s] in the given part of episode [e]. *)
Definition next_in (b : part) : Prop :=
  match b with
  | Gathering => good_in n e (if wins s th then Counting else Gathering) s'
  | Counting => (∃ my, at_pc th = SetCount my) ∧ good_in n e Opening s'
  | Opening => (∃ my, at_pc th = SetSense my) ∧ good_in n (S e) Gathering s'
  end.

Lemma exec_sizes : length (threads s') = n ∧ num_threads s' = Z.of_nat n.
Proof.
  unfold exec in E. rewrite Ht in E. cbn in E. destruct (gtmp_barrier s th); [|done].
  injection E as <-. cbn. by rewrite length_insert.
Qed.

Lemma gather_step : phase n e (count s) (threads s) Gathering → next_in Gathering.
Proof.
  intros Hphase. inversion Hphase as [Hall Hw Hc| |]; subst. cbn. destruct exec_sizes as [Hl' Hn'].
  assert (sense s' = sense_of e ∧ phase n e (count s') (threads s') (if wins s th then Counting else Gathering))
    as [? ?]; [|by split].
  unfold exec in E. rewrite Ht in E. cbn in E. unfold gtmp_barrier in E. unfold wins.
  pose proof (number_waiting_insert e _ _ _ Ht) as Hins.
  assert (∀ th', arriving e th' → arriving e th →
    phase n e (count s) (<[t := th']> (threads s)) Gathering) as Hstill.
  { intros th' Ha' Ha. specialize (Hins th').
    rewrite !decide_False in Hins by by apply arriving_not_waiting.
    apply Gather; [|lia|rewrite Hc; lia].
    apply (insert_cases (P:=λ _ x, arriving e x ∨ waiting e x)); [|by left].
    intros u x Hu _. by eapply Hall. }
  destruct (Hall t th Ht) as [Ha|(Hca & Hre & Hp)].
  - pose proof (arriving_not_waiting _ _ Ha) as Hnw. pose proof Ha as Ha0. unfold arriving in Ha.
    destruct (at_pc th) eqn:Ep; try done.
    + injection E as <-. split; [done|]. apply Hstill; [|done]. unfold arriving. cbn.
      destruct Ha as [-> ->]. by rewrite Hsense, sense_of_S.
    + destruct Ha as (Hca & Hre & ->). cbn in E. destruct (count s =? 1)%Z eqn:Eone; injection E as <-; cbn.
      * split; [done|]. apply Z.eqb_eq in Eone.
        assert (t < length (threads s)) as Hlt by by eapply lookup_lt_Some.
        eapply (Count _ _ _ _ t); [by apply list_lookup_insert_eq|done|by rewrite Eone|].
        apply (insert_cases (P:=λ u x, u ≠ t → waiting e x)); [|done].
        intros u x Hu Hne _. eapply (others_waiting e _ t th Ht u); [lia|done|done|done].
      * split; [done|]. apply Z.eqb_neq in Eone.
        assert (i32 (count s - 1) = (count s - 1)%Z) as -> by (apply i32_id; unfold i32_range; lia).
        set (th' := Thread (Spin (sense_of (S e))) (calls th) (returns th)) in *.
        assert (waiting e th') as Hw' by done.
        specialize (Hins th'). rewrite (decide_False (P:=waiting e th)), decide_True in Hins by done.
        apply Gather; [|lia|lia].
        apply (insert_cases (P:=λ _ x, arriving e x ∨ waiting e x)); [|by right].
        intros u x Hu _. by eapply Hall.
    + destruct Ha as (Hca & Hre & ->). rewrite decide_False in E by tauto. injection E as <-.
      split; [done|]. apply Hstill; [|done]. unfold arriving. cbn. lia.
  - rewrite Hp in E. rewrite decide_True in E; [done|]. rewrite Hsense. apply sense_of_ne.
Qed.

(** While the last thread leads, nobody else moves. *)
Lemma leader_moves t0 :
  (∀ u th', threads s !! u = Some th' → u ≠ t0 → waiting e th') → t = t0.
Proof.
  intros Hothers. destruct (decide (t = t0)) as [?|Hne]; [done|]. exfalso.
  destruct (Hothers t th Ht Hne) as (_ & _ & Hp). unfold exec, gtmp_barrier in E. rewrite Ht in E.
  cbn in E. rewrite Hp, decide_True in E; [done|]. rewrite Hsense. apply sense_of_ne.
Qed.

Lemma count_step : phase n e (count s) (threads s) Counting → next_in Counting.
Proof.
  intros Hphase. inversion Hphase as [|t0 th0 Ht0 Hlead Hc Hothers|]; subst.
  destruct exec_sizes as [Hl' Hn']. pose proof (leader_moves t0 Hothers) as <-.
  rewrite Ht in Ht0. injection Ht0 as <-. destruct Hlead as (Hca & Hre & Hp).
  split; [by eexists|]. unfold exec, gtmp_barrier in E. rewrite Ht in E. cbn in E. rewrite Hp in E.
  injection E as <-. split; [done|done|done|]. cbn.
  assert (t < length (threads s)) as Hlt by by eapply lookup_lt_Some.
  eapply (Open _ _ _ _ t); [by apply list_lookup_insert_eq|by split|done|].
  apply (insert_cases (P:=λ u x, u ≠ t → waiting e x)); [|done].
  intros u x Hu Hne _. by eapply Hothers.
Qed.

Lemma open_step : 1 ≤ n → phase n e (count s) (threads s) Opening → next_in Opening.
Proof.
  intros H1 Hphase. inversion Hphase as [| |t0 th0 Ht0 Hlead Hc Hothers]; subst.
  destruct exec_sizes as [Hl' Hn']. pose proof (leader_moves t0 Hothers) as <-.
  rewrite Ht in Ht0. injection Ht0 as <-. destruct Hlead as (Hca & Hre & Hp).
  split; [by eexists|]. unfold exec, gtmp_barrier in E. rewrite Ht in E. cbn in E. rewrite Hp in E.
  injection E as <-. split; [done|done|done|]. cbn.
  assert (∀ u x, <[t := Thread Out (calls th) (S (returns th))]> (threads s) !! u = Some x →
    arriving (S e) x) as Hall.
  { apply (insert_cases (P:=λ _ x, arriving (S e) x)).
    - intros u x Hu Hne. destruct (Hothers u x Hu Hne) as (Hu1 & Hu2 & Hu3).
      unfold arriving. rewrite Hu3. auto.
    - unfold arriving. cbn. auto. }
  pose proof (number_waiting_0 _ _ Hall) as H0. apply Gather; rewrite ?H0; [|lia|lia].
  intros u x Hu. left. by eapply Hall.
Qed.
End steps.

Lemma exec_thread s t s' : exec s t = Some s' → ∃ th, threads s !! t = Some th.
Proof. unfold exec. destruct (threads s !! t); [by eexists|done]. Qed.

Lemma good_in_step n e b s t th s' :
  1 ≤ n → (Z.of_nat n < 2 ^ 31)%Z → good_in n e b s → threads s !! t = Some th → exec s t = Some s' →
  next_in n e s s' th b.
Proof.
  intros H1 Hn [Hlen Hnum Hsense Hphase] Ht E. destruct b.
  - by eapply gather_step.
  - by eapply count_step.
  - by eapply open_step.
Qed.

Lemma step_good n s s' : 1 ≤ n → (Z.of_nat n < 2 ^ 31)%Z → good n s → step s s' → good n s'.
Proof.
  intros H1 Hn (e & b & Hg) (t & E). destruct (exec_thread _ _ _ E) as [th Ht].
  pose proof (good_in_step _ _ _ _ _ _ _ H1 Hn Hg Ht E) as Hs. unfold good.
  destruct b; cbn in Hs; [|destruct Hs as [_ ?]..]; eauto.
Qed.

Lemma sense_good n s :
  1 ≤ n → (Z.of_nat n < 2 ^ 31)%Z →
  reachable (eq (gtmp_init (Z.of_nat n))) step s → good n s.
Proof.
  intros H1 Hn. revert s. apply invariant_ind.
  - intros s <-. exists 0, Gathering. by apply init_good.
  - intros s s' Hs Hst. by eapply step_good.
Qed.

(** *** Progress *)

Definition stage (p : pc) : nat :=
  match p with Out => 0 | Sub _ => 1 | SetCount _ | Spin _ => 2 | SetSense _ => 3 end.

Definition progress (th : thread) : nat := 5 * returns th + stage (at_pc th).

(** What is missing until every thread has returned [k] times. *)
Definition missing (k : nat) (s : state) : nat :=
  sum_list_with (λ th, 5 * k - progress th) (threads s).

Lemma arriving_moves e s th :
  sense s = sense_of e → arriving e th ∨ leading e SetCount th ∨ leading e SetSense th →
  ∃ r, gtmp_barrier s th = Some r ∧ progress th < progress r.2.
Proof.
  intros Hs H. unfold gtmp_barrier, progress.
  destruct H as [H|[(_ & _ & H)|(_ & _ & H)]]; [unfold arriving in H|..];
    destruct (at_pc th) eqn:Ep; try done.
  all: try by (eexists; split; [reflexivity|]; cbn; lia).
  - cbn. eexists. split; [reflexivity|]. cbn. case_match; cbn; lia.
  - destruct H as (_ & _ & ->). rewrite decide_False by tauto.
    eexists. split; [reflexivity|]. cbn. lia.
Qed.

(** A thread counts its own calls, and an access does not begin a call and end it. *)
Lemma exec_counters s t s' :
  exec s t = Some s' → ∃ th th', threads s !! t = Some th ∧ threads s' = <[t := th']> (threads s) ∧
    (calls th' = calls th ∨ returns th' = returns th).
Proof.
  unfold exec. intros E. destruct (threads s !! t) as [th|]; [|done]. cbn in E.
  destruct (gtmp_barrier s th) as [r|] eqn:Er; [|done]. injection E as <-. exists th, r.2. split; [done|].
  split; [done|]. unfold gtmp_barrier in Er. destruct (at_pc th).
  - injection Er as <-. by right.
  - unfold fetch_and_sub in Er. injection Er as <-. by left.
  - injection Er as <-. by left.
  - injection Er as <-. by left.
  - case_decide; [done|]. injection Er as <-. by left.
Qed.

Lemma moves_missing k s t th r :
  threads s !! t = Some th → gtmp_barrier s th = Some r → progress th < progress r.2 →
  returns th < k → ∃ s', exec s t = Some s' ∧ missing k s' < missing k s.
Proof.
  intros Ht E Hp Hk. eexists. split.
  { unfold exec. rewrite Ht. cbn. rewrite E. reflexivity. }
  apply (sum_missing _ _ _ _ _ _ Ht Hp). unfold progress.
  assert (stage (at_pc th) < 4) by (destruct (at_pc th); cbn; lia). lia.
Qed.

(** Some thread that still has to return [k] times can take a step; only while the
    last thread resets the count is it that thread. *)
Lemma mover n e b k s t th :
  good_in n e b s → threads s !! t = Some th → returns th < k →
  ∃ u x s', threads s !! u = Some x ∧ exec s u = Some s' ∧ returns x < k ∧
    missing k s' < missing k s ∧ ((∃ my, at_pc x = SetCount my) → b = Counting).
Proof.
  intros [Hlen Hnum Hsense Hphase] Ht Hk.
  assert (∀ u x, threads s !! u = Some x → returns x < k →
    arriving e x ∨ leading e SetCount x ∨ leading e SetSense x →
    ((∃ my, at_pc x = SetCount my) → b = Counting) →
    ∃ u x s', threads s !! u = Some x ∧ exec s u = Some s' ∧ returns x < k ∧
      missing k s' < missing k s ∧ ((∃ my, at_pc x = SetCount my) → b = Counting)) as Hmove.
  { intros u x Hu Hx Hcase Hb. destruct (arriving_moves e s x Hsense Hcase) as (r & E & Hp).
    destruct (moves_missing k s u x r Hu E Hp Hx) as (s' & Es & Hm). by exists u, x, s'. }
  assert (∀ x, arriving e x → (∃ my, at_pc x = SetCount my) → b = Counting) as Harr.
  { intros x Hx [my Hmy]. unfold arriving in Hx. by rewrite Hmy in Hx. }
  assert (∀ t0 th0 p, threads s !! t0 = Some th0 → leading e p th0 →
    (∀ u th', threads s !! u = Some th' → u ≠ t0 → waiting e th') → returns th0 < k) as Hlt.
  { intros t0 th0 p Ht0 (_ & Hr & _) Hothers. destruct (decide (t = t0)) as [->|Hne].
    - by assert (th0 = th) as -> by congruence.
    - destruct (Hothers t th Ht Hne) as (_ & Hr' & _). lia. }
  destruct Hphase as [Hall Hw Hc|t0 th0 Ht0 Hlead Hc Hothers|t0 th0 Ht0 Hlead Hc Hothers].
  - destruct (Hall t th Ht) as [Ha|Ha]; [by eauto|].
    destruct (decide (Exists (λ x, ¬ waiting e x) (threads s))) as [Hex|Hex].
    + apply Exists_exists in Hex as (x & [u Hu]%list_elem_of_lookup & Hx).
      destruct (Hall u x Hu) as [Hax|]; [|done]. apply (Hmove u x Hu); [|by left|by apply Harr].
      destruct Ha as (_ & Hr & _). unfold arriving in Hax.
      destruct (at_pc x); try done; lia.
    + exfalso. apply not_Exists_Forall in Hex; [|intros x; apply _].
      rewrite Forall_lookup in Hex.
      pose proof (sum_complement (λ th, if decide (waiting e th) then 1 else 0)
        (λ th, if decide (waiting e th) then 0 else 1) (threads s)) as Hsum.
      unfold number_waiting in Hw. rewrite <-Hlen, <-Hsum in Hw by (intros; by case_decide).
      rewrite (sum_zero (λ th, if decide (waiting e th) then 0 else 1)) in Hw; [lia|].
      intros i x Hi. specialize (Hex i x Hi). cbn in Hex. destruct (decide (waiting e x)); [done|by destruct Hex].
  - apply (Hmove t0 th0 Ht0); [by eapply Hlt|tauto|done].
  - apply (Hmove t0 th0 Ht0); [by eapply Hlt|tauto|]. destruct Hlead as (_ & _ & Hp).
    intros [my Hmy]. by rewrite Hp in Hmy.
Qed.

Lemma good_moves n k s t th :
  good n s → threads s !! t = Some th → returns th < k →
  ∃ u x s', threads s !! u = Some x ∧ returns x < k ∧ exec s u = Some s' ∧ missing k s' < missing k s.
Proof.
  intros (e & b & Hg) Ht Hk.
  destruct (mover n e b k s t th Hg Ht Hk) as (u & x & s' & Hx & E & Hxk & Hm & _). by exists u, x, s'.
Qed.

(** Where a thread stands with respect to the episode. *)
Lemma thread_calls e th :
  arriving e th ∨ waiting e th ∨ leading e SetCount th ∨ leading e SetSense th →
  returns th ≤ e ≤ calls th ∧ calls th ≤ S (returns th).
Proof.
  unfold arriving, waiting, leading. intros [H|[H|[H|H]]].
  - destruct (at_pc th); lia.
  - lia.
  - lia.
  - lia.
Qed.

Lemma good_in_calls n e b s t th :
  good_in n e b s → threads s !! t = Some th →
  returns th ≤ e ≤ calls th ∧ calls th ≤ S (returns th) ∧ (b ≠ Gathering → returns th = e ∧ calls th = S e).
Proof.
  intros [_ _ _ Hphase] Ht.
  assert (∀ p, leading e p th ∨ waiting e th → returns th ≤ e ≤ calls th ∧ calls th ≤ S (returns th) ∧
    (b ≠ Gathering → returns th = e ∧ calls th = S e)) as Hl.
  { intros p [(? & ? & _)|(? & ? & _)]; lia. }
  destruct Hphase as [Hall _ _|t0 th0 Ht0 Hlead _ Hothers|t0 th0 Ht0 Hlead _ Hothers].
  - assert (arriving e th ∨ waiting e th) as Hc by by eapply Hall.
    pose proof (thread_calls e th ltac:(tauto)). split_and!; [lia..|done].
  - apply (Hl SetCount). destruct (decide (t = t0)) as [->|Hne]; [left; congruence|right; by eapply Hothers].
  - apply (Hl SetSense). destruct (decide (t = t0)) as [->|Hne]; [left; congruence|right; by eapply Hothers].
Qed.

(** Only the last thread resets the count. *)
Lemma counting_part n e b s t th my :
  good_in n e b s → threads s !! t = Some th → at_pc th = SetCount my → b = Counting.
Proof.
  intros [_ _ _ Hphase] Ht Hp.
  destruct Hphase as [Hall _ _|t0 th0 Ht0 Hlead _ Hothers|t0 th0 Ht0 (_ & _ & Hlead) _ Hothers]; [|done|].
  - destruct (Hall t th Ht) as [Ha|(_ & _ & Ha)]; [unfold arriving in Ha|]; by rewrite Hp in Ha.
  - destruct (decide (t = t0)) as [->|Hne].
    + assert (th0 = th) as -> by congruence. by rewrite Hp in Hlead.
    + destruct (Hothers t th Ht Hne) as (_ & _ & Ha). by rewrite Hp in Ha.
Qed.

Lemma good_calls n s :
  good n s → length (threads s) = n ∧ ∃ e, ∀ t th, threads s !! t = Some th →
    returns th ≤ e ≤ calls th ∧ calls th ≤ S (returns th).
Proof.
  intros (e & b & Hg). split; [apply (gd_threads _ _ _ _ Hg)|]. exists e. intros t th Ht.
  destruct (good_in_calls n e b s t th Hg Ht) as (? & ? & _). done.
Qed.

Lemma exec_limited n k s u x s' :
  good n s' → threads s !! u = Some x → returns x < k → exec s u = Some s' → limited (sense_barrier n) k s s'.
Proof.
  intros Hg Hx Hk E. destruct (exec_counters _ _ _ E) as (x0 & x' & Hx0 & Es & Hc).
  assert (x0 = x) as -> by congruence. assert (threads s' !! u = Some x') as Hx'.
  { rewrite Es. apply list_lookup_insert_eq. by eapply lookup_lt_Some. }
  apply (limited_by (sense_barrier n) u); cbn.
  - by exists u.
  - intros t Hne. by rewrite Es, list_lookup_insert_ne.
  - by rewrite Hx, Hx'.
  - rewrite Hx'. cbn. destruct (good_calls n s' Hg) as (_ & e & He). by apply (He u).
  - by rewrite Hx.
Qed.

Lemma all_return n k s :
  1 ≤ n → (Z.of_nat n < 2 ^ 31)%Z → good n s →
  ∃ s', rtc (limited (sense_barrier n) k) s s' ∧ ∀ t, t < n → k ≤ default 0 (returns <$> threads s' !! t).
Proof.
  intros H1 Hn Hg.
  destruct (rank_reaches (limited (sense_barrier n) k) (good n)
    (λ s, good n s ∧ Forall (λ th, k ≤ returns th) (threads s)) (missing k)) with (s := s)
    as (s' & Hs & Hg' & Hall).
  - intros s0 Hg0. destruct (decide (Forall (λ th, k ≤ returns th) (threads s0))) as [?|Hf]; [by left|].
    right. apply not_Forall_Exists in Hf; [|intros x; apply _].
    apply Exists_exists in Hf as (x & [u Hu]%list_elem_of_lookup & Hx).
    destruct (good_moves n k s0 u x Hg0 Hu) as (v & y & s1 & Hy & Hyk & E & Hlt); [cbn in Hx; lia|].
    assert (good n s1) as Hg1 by (eapply step_good; [done..|]; by exists v).
    exists s1. split; [by eapply exec_limited|done].
  - done.
  - exists s'. split; [done|]. intros t Ht.
    assert (is_Some (threads s' !! t)) as [x Hx] by (apply lookup_lt_is_Some; by rewrite (proj1 (good_calls _ _ Hg'))).
    rewrite Hx. cbn. by eapply (proj1 (Forall_lookup _ _) Hall).
Qed.

(** The barrier implements the interface. *)
Lemma sense_correct n :
  1 ≤ n → (Z.of_nat n < 2 ^ 31)%Z → Correct (sense_barrier n).
Proof.
  intros H1 Hn. split; cbn.
  - intros s <- t. cbn. destruct (replicate _ _ !! t) eqn:E; [|done]. by apply lookup_replicate in E as [-> _].
  - intros s Hs t Ht. cbn in *. destruct (good_calls n s (sense_good n s H1 Hn Hs)) as (Hlen & e & He).
    destruct (threads s !! t) as [th|] eqn:E; cbn; [|lia]. specialize (He t th E). lia.
  - intros s Hs t u Ht Hu. cbn in *.
    destruct (good_calls n s (sense_good n s H1 Hn Hs)) as (Hlen & e & He).
    assert (is_Some (threads s !! t)) as [th E] by (apply lookup_lt_is_Some; lia).
    assert (is_Some (threads s !! u)) as [th' E'] by (apply lookup_lt_is_Some; lia).
    rewrite E, E'. cbn. pose proof (He t th E). pose proof (He u th' E'). lia.
  - intros s Hs k. cbn in *. apply all_return; [done..|]. by apply sense_good.
Qed.

(** ** Properties *)

(** C22: the sense-reversing barrier keeps the promises of a barrier, for any number of
    threads, any number of calls and any interleaving of the accesses to [count] and
    [sense]: no thread returns from a call before every thread has begun it, and from
    every reachable state every thread can return any number of times. *)
Theorem sense_barrier_correct (n : nat) :
  1 ≤ n → (Z.of_nat n < 2 ^ 31)%Z → Correct (sense_barrier n).
Proof. apply sense_correct. Qed.

(** With the sense-reversing barrier no thread returns from a call before
    every thread has begun it, for any number of threads, any number of calls
    and any interleaving of the accesses to [count] and [sense]. *)
Theorem sense_barrier_separates (n : nat) (s : state) (t u : nat) (th th' : thread) :
  1 ≤ n → (Z.of_nat n < 2 ^ 31)%Z →
  reachable (eq (gtmp_init (Z.of_nat n))) step s →
  threads s !! t = Some th → threads s !! u = Some th' → returns th ≤ calls th'.
Proof.
  intros H1 Hn Hs Ht Hu. destruct (good_calls n s (sense_good n s H1 Hn Hs)) as (Hlen & e & He).
  pose proof (He t th Ht). pose proof (He u th' Hu). lia.
Qed.

(** The sense-reversing barrier does not deadlock and can be used again: from
    every reachable state every thread can return any number of times. *)
Theorem sense_barrier_live (n : nat) (s : state) (k : nat) :
  1 ≤ n → (Z.of_nat n < 2 ^ 31)%Z →
  reachable (eq (gtmp_init (Z.of_nat n))) step s →
  ∃ s', rtc step s s' ∧ ∀ t th, threads s' !! t = Some th → k ≤ returns th.
Proof.
  intros H1 Hn Hs.
  destruct (all_return n k s H1 Hn (sense_good n s H1 Hn Hs)) as (s' & Hs'%limited_steps & Hall).
  change (rtc step s s') in Hs'. exists s'. split; [done|]. intros t th Ht.
  assert (t < n) as Hlt.
  { destruct (good_calls n s') as [Hl _]; [|rewrite <-Hl; by eapply lookup_lt_Some]. apply sense_good; [done..|].
    destruct Hs as (s0 & H0 & Hs). exists s0. split; [done|]. by etrans. }
  specialize (Hall t Hlt). by rewrite Ht in Hall.
Qed.

(** ** Witnesses *)

(** A run in which the given threads take the steps. *)
Definition play (ts : list nat) (s : state) : state :=
  foldl (λ s t, default s (exec s t)) s ts.

Lemma play_sense ts s s0 :
  reachable (eq s0) step s → reachable (eq s0) step (play ts s).
Proof.
  revert s. induction ts as [|t ts IH]; intros s Hs; [done|]. apply IH.
  destruct (exec s t) as [s1|] eqn:E; [|done]. cbn. eapply reachable_step; [done|]. by exists t.
Qed.

(** Three threads; the first has returned once and is waiting again. *)
Definition demo : state := play [0; 0; 1; 1; 2; 2; 2; 2; 0; 0; 0] (gtmp_init 3).

Lemma sense_demo_reachable : reachable (eq (gtmp_init (Z.of_nat 3))) step demo.
Proof. apply play_sense. by exists (gtmp_init 3). Qed.

Lemma sense_barrier_separates_witness :
  threads demo !! 0 = Some (Thread (Spin false) 2 1) ∧ 1 ≤ 1.
Proof.
  split; [by vm_compute|].
  apply (sense_barrier_separates 3 demo 0 1 (Thread (Spin false) 2 1) (Thread (Spin true) 1 0));
    [lia|lia|apply sense_demo_reachable|by vm_compute|by vm_compute].
Defined.

Lemma sense_barrier_live_witness :
  ∃ s', rtc step demo s' ∧ ∀ t th, threads s' !! t = Some th → 10 ≤ returns th.
Proof. apply (sense_barrier_live 3 demo 10); [lia|lia|apply sense_demo_reachable]. Defined.

Lemma sense_barrier_correct_witness : Correct (sense_barrier 3).
Proof. apply (sense_barrier_correct 3); lia. Defined.
