(* ===== verification/Network.v ===== *)
(** * Message passing (the MPI calls of project2/mpi)

    Processes that run the same kind of program, each a list of operations per
    call of the barrier, over the point-to-point messages of MPI.  The messages
    of the barriers are empty, so one is its source, destination and tag; an
    [MPI_Isend] puts it in flight without waiting, an [MPI_Recv] waits until one
    that matches is in flight.  A rank outside the communicator is an error,
    which MPI's default handler makes fatal. *)
From S2P Require Import Prelude Barrier.
From stdpp Require Import gmultiset.

Inductive op :=
| Isend (dst tag : Z)
| Recv (src tag : Z)
| Recv_any (tag : Z) (check : Z → bool). (** [MPI_ANY_SOURCE], with an [assert] on the source *)

Abbreviation message := (Z * Z * Z)%type.

(** A process: the calls of the barrier begun and completed, the operation it
    has reached in the present call, and the messages it has received. *)
Record process := Process {
  calls : nat;
  returns : nat;
  at_op : option nat;
  inbox : gmultiset (Z * Z)
}.

Record network := Network {
  processes : list process;
  in_flight : gmultiset message
}.

Definition idle : process := Process 0 0 None ∅.

Definition mpi_error : failure := Exit 1.
Definition assertion_failed : failure := Exit 134.

Section network.
Context (n : nat) (program : nat → list op).

Definition start : network := Network (replicate n idle) ∅.

Definition valid_rank (r : Z) : Prop := (0 ≤ r < Z.of_nat n)%Z.

#[local] Instance valid_rank_dec r : Decision (valid_rank r).
Proof. unfold valid_rank. apply _. Defined.

Definition put_process (s : network) (r : nat) (p : process) (f : gmultiset message) : network :=
  Network (<[r := p]> (processes s)) f.

(** [p], of rank [r], takes a message from [src] and goes on to operation [i]. *)
Definition receive (s : network) (r : nat) (p : process) (i : nat) (src tag : Z) : option network :=
  if decide ((src, Z.of_nat r, tag) ∈ in_flight s)
  then Some (put_process s r
    (Process (calls p) (returns p) (Some i) (inbox p ⊎ {[+ (src, tag) +]}))
    (in_flight s ∖ {[+ (src, Z.of_nat r, tag) +]}))
  else None.

(** The next step of process [r]; [any] is the source that a receive from any
    source takes.  [None]: the process waits. *)
Definition exec (any : Z) (r : nat) (s : network) : option (res network) :=
  p ← processes s !! r;
  match at_op p with
  | None => Some (Ok (put_process s r (Process (S (calls p)) (returns p) (Some 0) (inbox p)) (in_flight s)))
  | Some i =>
    match program r !! i with
    | None => Some (Ok (put_process s r (Process (calls p) (S (returns p)) None (inbox p)) (in_flight s)))
    | Some (Isend dst tag) =>
      if decide (valid_rank dst)
      then Some (Ok (put_process s r (Process (calls p) (returns p) (Some (S i)) (inbox p))
             (in_flight s ⊎ {[+ (Z.of_nat r, dst, tag) +]})))
      else Some (Err mpi_error)
    | Some (Recv src tag) =>
      if decide (valid_rank src) then Ok <$> receive s r p (S i) src tag
      else Some (Err mpi_error)
    | Some (Recv_any tag check) =>
      s' ← receive s r p (S i) any tag;
      if check any then Some (Ok s') else Some (Err assertion_failed)
    end
  end.

Definition step (s s' : network) : Prop := ∃ any r, exec any r s = Some (Ok s').
Definition fails (s : network) : Prop := ∃ any r e, exec any r s = Some (Err e).

(** The process of rank [r]; what is not there has done nothing. *)
Definition proc (s : network) (r : nat) : process := default idle (processes s !! r).

(** The barrier that the program implements. *)
Definition network_barrier : barrier := {|
  participants := n;
  bstate := network;
  binit := eq start;
  bstep := step;
  entered := λ s r, calls (proc s r);
  left := λ s r, returns (proc s r)
|}.

(** ** Steps *)

(** What the operation [o] of process [r] does to the messages in flight and to
    the inbox. *)
Inductive effect (r : nat) (f : gmultiset message) (b : gmultiset (Z * Z)) :
    op → gmultiset message → gmultiset (Z * Z) → Prop :=
| Sends dst tag : valid_rank dst → effect r f b (Isend dst tag) (f ⊎ {[+ (Z.of_nat r, dst, tag) +]}) b
| Receives src tag : valid_rank src → (src, Z.of_nat r, tag) ∈ f →
    effect r f b (Recv src tag) (f ∖ {[+ (src, Z.of_nat r, tag) +]}) (b ⊎ {[+ (src, tag) +]})
| Receives_any src tag check : check src = true → (src, Z.of_nat r, tag) ∈ f →
    effect r f b (Recv_any tag check) (f ∖ {[+ (src, Z.of_nat r, tag) +]}) (b ⊎ {[+ (src, tag) +]}).

Inductive move (r : nat) (p : process) (f : gmultiset message) :
    process → gmultiset message → Prop :=
| Enter : at_op p = None → move r p f (Process (S (calls p)) (returns p) (Some 0) (inbox p)) f
| Leave i : at_op p = Some i → program r !! i = None →
    move r p f (Process (calls p) (S (returns p)) None (inbox p)) f
| Operate i o f' b' : at_op p = Some i → program r !! i = Some o → effect r f (inbox p) o f' b' →
    move r p f (Process (calls p) (returns p) (Some (S i)) b') f'.

Lemma exec_move any r s s' :
  exec any r s = Some (Ok s') →
  r < length (processes s) ∧
  ∃ p' f', move r (proc s r) (in_flight s) p' f' ∧ s' = put_process s r p' f'.
Proof.
  unfold exec, proc. destruct (processes s !! r) as [p|] eqn:Ep; [|done].
  cbn [mbind option_bind default from_option]. intros E.
  split; [by eapply lookup_lt_Some|]. destruct (at_op p) as [i|] eqn:Ei.
  2: { injection E as <-. eexists _, _. split; [|reflexivity]. by apply Enter. }
  destruct (program r !! i) as [[dst tag|src tag|tag check]|] eqn:Eo.
  - case_decide; [|done]. injection E as <-. eexists _, _. split; [|reflexivity].
    eapply Operate; [done..|]. by constructor.
  - case_decide; [|done]. unfold receive in E. case_decide; [|done]. injection E as <-.
    eexists _, _. split; [|reflexivity]. eapply Operate; [done..|]. by constructor.
  - unfold receive in E. case_decide; [|done]. cbn in E.
    destruct (check any) eqn:Ec; [|done]. injection E as <-.
    eexists _, _. split; [|reflexivity]. eapply Operate; [done..|]. by constructor.
  - injection E as <-. eexists _, _. split; [|reflexivity]. by eapply Leave.
Qed.

Lemma move_exec r s p' f' :
  r < length (processes s) → move r (proc s r) (in_flight s) p' f' →
  ∃ any, exec any r s = Some (Ok (put_process s r p' f')).
Proof.
  intros Hr Hm. apply lookup_lt_is_Some in Hr as [p Hp]. unfold proc in Hm. rewrite Hp in Hm. cbn in Hm.
  inversion Hm as [Ha|i Ha Ho|i o f1 b' Ha Ho He]; subst.
  - exists 0%Z. unfold exec. rewrite Hp. cbn. by rewrite Ha.
  - exists 0%Z. unfold exec. rewrite Hp. cbn. by rewrite Ha, Ho.
  - inversion He as [dst tag Hd|src tag Hs Hin|src tag check Hc Hin]; subst.
    + exists 0%Z. unfold exec. rewrite Hp. cbn. by rewrite Ha, Ho, decide_True.
    + exists 0%Z. unfold exec, receive. rewrite Hp. cbn. by rewrite Ha, Ho, !decide_True.
    + exists src. unfold exec, receive. rewrite Hp. cbn. rewrite Ha, Ho, decide_True by done.
      cbn. by rewrite Hc.
Qed.

Lemma move_step r s p' f' :
  r < length (processes s) → move r (proc s r) (in_flight s) p' f' →
  step s (put_process s r p' f').
Proof. intros Hr Hm. destruct (move_exec r s p' f' Hr Hm) as [any E]. by exists any, r. Qed.

Lemma proc_put s r p f u :
  r < length (processes s) →
  proc (put_process s r p f) u = if decide (u = r) then p else proc s u.
Proof.
  intros Hr. unfold proc, put_process. cbn. case_decide as Hu.
  - subst. by rewrite list_lookup_insert_eq.
  - by rewrite list_lookup_insert_ne.
Qed.

(** How often [p] has executed the operations that [f] counts. *)
Definition executed (f : op → nat) (r : nat) (p : process) : nat :=
  returns p * sum_list_with f (program r) +
  sum_list_with f (take (default 0 (at_op p)) (program r)).

Lemma executed_move f r p fl p' fl' :
  move r p fl p' fl' →
  executed f r p' = executed f r p +
    match at_op p with Some i => default 0 (f <$> program r !! i) | None => 0 end.
Proof.
  unfold executed. intros [Ha|i Ha Ho|i o f1 b' Ha Ho He]; cbn; rewrite Ha; cbn.
  - lia.
  - rewrite Ho. cbn. rewrite (take_ge (program r) i) by by apply lookup_ge_None_1. rewrite take_0. cbn. lia.
  - rewrite Ho. cbn. rewrite (take_S_r _ _ o) by done. rewrite sum_list_with_app. cbn. lia.
Qed.

(** How often [p] has executed operation [k]. *)
Definition times (p : process) (k : nat) : nat :=
  returns p + (if decide (k < default 0 (at_op p)) then 1 else 0).

Definition only_at (f : op → nat) (l : list op) (k : nat) : Prop :=
  ∀ i o, l !! i = Some o → f o = if decide (i = k) then 1 else 0.

Lemma sum_only_at f l k j :
  only_at f l k → k < length l →
  sum_list_with f (take j l) = if decide (k < j) then 1 else 0.
Proof.
  revert l k. induction j as [|j IH]; intros [|o l] k Hf Hk; cbn in *; try lia; [done..|].
  pose proof (Hf 0 o eq_refl) as Ho. destruct k as [|k].
  - rewrite Ho, (sum_zero f (take j l)); [done|]. intros i x Hx.
    apply lookup_take_Some in Hx as [Hx _]. by rewrite (Hf (S i) x Hx).
  - rewrite (IH l k); [|intros i x Hx; rewrite (Hf (S i) x Hx)|lia].
    + rewrite Ho. repeat case_decide; lia.
    + repeat case_decide; lia.
Qed.

Lemma executed_times f r p k :
  only_at f (program r) k → k < length (program r) → executed f r p = times p k.
Proof.
  intros Hf Hk. unfold executed, times. rewrite (sum_only_at f _ k) by done.
  assert (sum_list_with f (program r) = 1) as ->; [|lia].
  rewrite <-(take_ge (program r) (length (program r))), (sum_only_at f _ k) by done.
  by rewrite decide_True.
Qed.

Lemma executed_0 f r p :
  (∀ o, o ∈ program r → f o = 0) → executed f r p = 0.
Proof.
  intros Hf. unfold executed. rewrite (sum_zero f (program r)), (sum_zero f (take _ _)); [lia|..].
  - intros i o [Ho _]%lookup_take_Some. apply Hf. by eapply list_elem_of_lookup_2.
  - intros i o Ho. apply Hf. by eapply list_elem_of_lookup_2.
Qed.

Definition sends_to (dst tag : Z) (o : op) : nat :=
  match o with
  | Isend d t => if decide (d = dst ∧ t = tag) then 1 else 0
  | _ => 0
  end.

(** Every message sent is in flight or has been received; a process is in a
    call it has begun and not completed. *)
Record sound (s : network) : Prop := {
  sd_length : length (processes s) = n;
  sd_calls r : calls (proc s r) = returns (proc s r) + (if at_op (proc s r) is Some _ then 1 else 0);
  sd_at r i : at_op (proc s r) = Some i → i ≤ length (program r);
  sd_source src dst tag : (src, dst, tag) ∈ in_flight s → ∃ u, u < n ∧ src = Z.of_nat u;
  sd_messages src dst tag :
    multiplicity (Z.of_nat src, Z.of_nat dst, tag) (in_flight s) +
    multiplicity (Z.of_nat src, tag) (inbox (proc s dst)) =
    executed (sends_to (Z.of_nat dst) tag) src (proc s src)
}.

(** Later operations have been executed less often, by at most one. *)
Lemma times_le p k k' : k ≤ k' → times p k' ≤ times p k.
Proof. intros H. unfold times. repeat case_decide; lia. Qed.

Lemma returns_times p k : returns p ≤ times p k.
Proof. unfold times. lia. Qed.

Lemma times_calls s r k : sound s → times (proc s r) k ≤ calls (proc s r).
Proof.
  intros Hs. rewrite (sd_calls s Hs). unfold times.
  destruct (at_op (proc s r)); cbn; case_decide; lia.
Qed.

Lemma proc_start r : proc start r = idle.
Proof.
  unfold proc, start. cbn. destruct (replicate n idle !! r) eqn:E; [|done].
  by apply lookup_replicate in E as [-> _].
Qed.

Lemma start_sound : sound start.
Proof.
  split.
  - cbn. by rewrite length_replicate.
  - intros r. by rewrite proc_start.
  - intros r i. by rewrite proc_start.
  - intros src dst tag Hin. cbn in Hin. multiset_solver.
  - intros src dst tag. rewrite !proc_start. done.
Qed.

(** What an operation adds to a count of messages. *)
Lemma effect_count r f b o f' b' src dst tag :
  effect r f b o f' b' →
  multiplicity (Z.of_nat src, Z.of_nat dst, tag) f' +
    (if decide (dst = r) then multiplicity (Z.of_nat src, tag) b' else 0) =
  multiplicity (Z.of_nat src, Z.of_nat dst, tag) f +
    (if decide (dst = r) then multiplicity (Z.of_nat src, tag) b else 0) +
    (if decide (src = r) then sends_to (Z.of_nat dst) tag o else 0).
Proof.
  assert (∀ s t, (s, Z.of_nat r, t) ∈ f →
    multiplicity (Z.of_nat src, Z.of_nat dst, tag) (f ∖ {[+ (s, Z.of_nat r, t) +]}) +
      (if decide (dst = r) then multiplicity (Z.of_nat src, tag) (b ⊎ {[+ (s, t) +]}) else 0) =
    multiplicity (Z.of_nat src, Z.of_nat dst, tag) f +
      (if decide (dst = r) then multiplicity (Z.of_nat src, tag) b else 0)) as Hrecv.
  { intros s t Hin. rewrite elem_of_multiplicity in Hin.
    rewrite multiplicity_difference, multiplicity_singleton, multiplicity_disj_union,
      multiplicity_singleton.
    destruct (decide (dst = r)) as [->|Hne].
    - destruct (decide ((Z.of_nat src, tag) = (s, t))) as [[= <- <-]|Hst].
      + rewrite (decide_True (P:=(Z.of_nat src, Z.of_nat r, tag) = _)) by done. lia.
      + rewrite (decide_False (P:=(Z.of_nat src, Z.of_nat r, tag) = _)) by congruence. lia.
    - rewrite decide_False; [lia|]. intros [= _ Hd _]. lia. }
  intros [d t Hd|s t Hs Hin|s t check Hc Hin]; cbn [sends_to].
  - rewrite multiplicity_disj_union, multiplicity_singleton.
    destruct (decide (src = r)) as [->|Hne].
    + destruct (decide (d = Z.of_nat dst ∧ t = tag)) as [[-> ->]|Hdt].
      * rewrite decide_True by done. lia.
      * rewrite decide_False; [lia|]. intros [= ? ?]. naive_solver.
    + rewrite decide_False; [lia|]. intros [= Hs _ _]. lia.
  - rewrite Hrecv by done. destruct (decide (src = r)); lia.
  - rewrite Hrecv by done. destruct (decide (src = r)); lia.
Qed.

Lemma move_inbox r p f p' f' :
  move r p f p' f' → (∀ i o, at_op p = Some i → program r !! i = Some o → effect r f (inbox p) o f' (inbox p')) ∧
  ((at_op p = None ∨ ∃ i, at_op p = Some i ∧ program r !! i = None) → f' = f ∧ inbox p' = inbox p).
Proof.
  intros [Ha|i Ha Ho|i o f1 b' Ha Ho He]; cbn; (split; [intros i' o' Hi Ho'|done || idtac]).
  - congruence.
  - congruence.
  - assert (o' = o) as -> by congruence. done.
  - intros [?|(i' & Hi & Hn)]; congruence.
Qed.

Lemma move_count r p f p' f' src dst tag :
  move r p f p' f' →
  multiplicity (Z.of_nat src, Z.of_nat dst, tag) f' +
    (if decide (dst = r) then multiplicity (Z.of_nat src, tag) (inbox p') else 0) +
    (if decide (src = r) then executed (sends_to (Z.of_nat dst) tag) r p else 0) =
  multiplicity (Z.of_nat src, Z.of_nat dst, tag) f +
    (if decide (dst = r) then multiplicity (Z.of_nat src, tag) (inbox p) else 0) +
    (if decide (src = r) then executed (sends_to (Z.of_nat dst) tag) r p' else 0).
Proof.
  intros Hm. rewrite (executed_move (sends_to (Z.of_nat dst) tag) _ _ _ _ _ Hm).
  destruct (move_inbox _ _ _ _ _ Hm) as [Hop Hstill].
  destruct (at_op p) as [i|] eqn:Ei.
  - destruct (program r !! i) as [o|] eqn:Eo; cbn.
    + pose proof (effect_count _ _ _ _ _ _ src dst tag (Hop i o eq_refl Eo)). destruct (decide (src = r)); lia.
    + destruct Hstill as [-> ->]; [right; by exists i|]. destruct (decide (src = r)); lia.
  - destruct Hstill as [-> ->]; [by left|]. destruct (decide (src = r)); lia.
Qed.

Lemma move_flight r p f p' f' src dst tag :
  move r p f p' f' → (src, dst, tag) ∈ f' →
  (src, dst, tag) ∈ f ∨ (src, dst, tag) = (Z.of_nat r, dst, tag).
Proof.
  intros [Ha|i Ha Ho|i o f1 b' Ha Ho He] Hin; [by left..|].
  destruct He as [d t Hd|s t Hs Hf|s t check Hc Hf].
  - apply gmultiset_elem_of_disj_union in Hin as [?|Hin]; [by left|].
    apply gmultiset_elem_of_singleton in Hin as [= -> -> ->]. by right.
  - left. multiset_solver.
  - left. multiset_solver.
Qed.

Lemma move_sound s r p' f' :
  sound s → r < length (processes s) → move r (proc s r) (in_flight s) p' f' →
  sound (put_process s r p' f').
Proof.
  intros [Hlen Hcalls Hat Hsrc Hmsg] Hr Hm. split.
  - cbn. by rewrite length_insert.
  - intros u. rewrite proc_put by done. specialize (Hcalls u). case_decide as Hu; [|done]. subst u.
    destruct Hm as [Ha|i Ha Ho|i o f1 b' Ha Ho He]; cbn; rewrite Hcalls, Ha; lia.
  - intros u. rewrite proc_put by done. specialize (Hat u). case_decide as Hu; [|done]. subst u.
    destruct Hm as [Ha|i Ha Ho|i o f1 b' Ha Ho He]; cbn; [intros ? [= <-]; lia|done|].
    intros ? [= <-]. by apply lookup_lt_Some in Ho.
  - intros src dst tag Hin. apply (move_flight _ _ _ _ _ _ _ _ Hm) in Hin as [Hin|[= ->]]; [by eapply Hsrc|].
    exists r. by rewrite Hlen in Hr.
  - intros src dst tag. rewrite !proc_put by done.
    pose proof (move_count _ _ _ _ _ src dst tag Hm) as Hc. specialize (Hmsg src dst tag). cbn [in_flight put_process].
    destruct (decide (dst = r)) as [->|Hd], (decide (src = r)) as [->|Hs]; lia.
Qed.

Lemma step_sound s s' : sound s → step s s' → sound s'.
Proof.
  intros Hs (any & r & E). apply exec_move in E as (Hr & p' & f' & Hm & ->). by apply move_sound.
Qed.

Lemma reachable_sound s : reachable (eq start) step s → sound s.
Proof.
  revert s. apply invariant_ind.
  - intros s <-. apply start_sound.
  - apply step_sound.
Qed.

(** Induction on reachable states: processes make moves. *)
Lemma reachable_moves (P : network → Prop) :
  P start →
  (∀ s r p' f', sound s → P s → r < n → move r (proc s r) (in_flight s) p' f' →
    P (put_process s r p' f')) →
  invariant (eq start) step P.
Proof.
  intros H0 Hs. apply (invariant_ind_with _ _ sound); [exact reachable_sound| |].
  - by intros s <-.
  - intros s s' Hsd HP (any & r & E). apply exec_move in E as (Hr & p' & f' & Hm & ->).
    rewrite (sd_length s Hsd) in Hr. by apply Hs.
Qed.

(** One call at a time. *)
Lemma network_one_call : one_call network_barrier.
Proof.
  intros s Hs%reachable_sound t _. cbn in *. rewrite (sd_calls s Hs t).
  destruct (at_op (proc s t)); lia.
Qed.

Lemma network_starts : starts network_barrier.
Proof. intros s <- t. cbn. by rewrite proc_start. Qed.

(** *** Progress *)

Definition can_move (s : network) (r : nat) : Prop :=
  ∃ p' f', move r (proc s r) (in_flight s) p' f'.

Section progress.
Context (w : nat) (Hw : ∀ r, length (program r) + 2 ≤ w).

(** How far a process has come. *)
Definition position (p : process) : nat :=
  w * returns p + (if at_op p is Some i then S i else 0).

Lemma position_returns s r : sound s → position (proc s r) < w * S (returns (proc s r)).
Proof.
  intros Hs. unfold position. pose proof (Hw r). destruct (at_op (proc s r)) as [i|] eqn:Ei; [|lia].
  pose proof (sd_at s Hs r i Ei). lia.
Qed.

Lemma move_position s r p' f' :
  sound s → move r (proc s r) (in_flight s) p' f' → position (proc s r) < position p'.
Proof.
  intros Hs Hm. pose proof (position_returns s r Hs) as Hp. unfold position in *.
  destruct Hm as [Ha|i Ha Ho|i o f1 b' Ha Ho He]; cbn [returns at_op]; rewrite Ha in *; lia.
Qed.

(** The process furthest behind. *)
Lemma furthest_behind s :
  sound s → 0 < n →
  ∃ r, r < n ∧ ∀ u, u < n → position (proc s r) ≤ position (proc s u).
Proof.
  intros Hs Hn0. pose proof (sd_length s Hs) as Hlen.
  destruct (argmin position (processes s)) as (r & p & Hr & Hmin).
  { intros E. rewrite E in Hlen. cbn in Hlen. lia. }
  exists r. split; [rewrite <-Hlen; by eapply lookup_lt_Some|]. intros u Hu.
  assert (is_Some (processes s !! u)) as [q Hq] by (apply lookup_lt_is_Some; lia).
  unfold proc. rewrite Hr, Hq. cbn. by eapply Hmin.
Qed.

Definition missing (k : nat) (s : network) : nat :=
  sum_list_with (λ p, w * k - position p) (processes s).

Lemma exec_missing k any r s s' :
  sound s → exec any r s = Some (Ok s') →
  missing k s' ≤ missing k s ∧ (returns (proc s r) < k → missing k s' < missing k s).
Proof.
  intros Hs (Hr & p' & f' & Hm & ->)%exec_move.
  pose proof (move_position s r p' f' Hs Hm) as Hpos. pose proof (position_returns s r Hs) as Hret.
  unfold missing, put_process. cbn [processes].
  apply lookup_lt_is_Some in Hr as [q Hq]. unfold proc in *. rewrite Hq in *. cbn in Hpos, Hret |- *.
  pose proof (sum_insert (λ p, w * k - position p) _ _ _ p' Hq) as Hsum. cbn beta in Hsum.
  split; [lia|]. intros Hk. apply (sum_missing _ _ _ _ _ _ Hq Hpos). nia.
Qed.

(** A move does not begin a call and end it. *)
Lemma network_exec_limited k any r s s' :
  sound s → exec any r s = Some (Ok s') → returns (proc s r) < k → limited network_barrier k s s'.
Proof.
  intros Hs E Hk. assert (step s s') as Hst by by exists any, r. pose proof (step_sound s s' Hs Hst) as Hs'.
  pose proof E as (Hr & p' & f' & Hm & Es)%exec_move.
  assert (∀ t, proc s' t = if decide (t = r) then p' else proc s t) as Hp by (intros t; rewrite Es; by apply proc_put).
  apply (limited_by network_barrier r); cbn; [done|..|done].
  - intros t Hne. by rewrite Hp, decide_False.
  - rewrite Hp, decide_True by done. destruct Hm; cbn; auto.
  - rewrite (sd_calls s' Hs' r). destruct (at_op (proc s' r)); lia.
Qed.

Lemma network_live :
  (∀ s k, reachable (eq start) step s → (∃ r, r < n ∧ returns (proc s r) < k) →
    ∃ r, r < n ∧ returns (proc s r) < k ∧ can_move s r) →
  never_stuck network_barrier.
Proof.
  intros Hmove s Hs k. cbn in *.
  apply (rank_reaches (limited network_barrier k) (reachable (eq start) step) _ (missing k)); [|done].
  clear s Hs. intros s Hs. pose proof (reachable_sound s Hs) as Hsd.
  destruct (decide (Exists (λ r, returns (proc s r) < k) (seq 0 n))) as [Hex|Hall].
  - right. apply Exists_exists in Hex as (r & Hr & Hk). apply list_elem_of_In, elem_of_seq in Hr.
    destruct (Hmove s k Hs) as (u & Hu & Huk & p' & f' & Hm); [exists r; lia|].
    assert (u < length (processes s)) as Hlt by by rewrite (sd_length s Hsd).
    destruct (move_exec u s p' f' Hlt Hm) as [any E].
    eexists. split; [by eapply network_exec_limited|]. split; [eapply reachable_step; [done|by exists any, u]|].
    by apply (exec_missing k any u s).
  - left. intros t Ht. apply not_Exists_Forall in Hall; [|intros x; apply _].
    rewrite Forall_seq in Hall. specialize (Hall t ltac:(lia)). cbn in Hall. lia.
Qed.
End progress.

(** *** Processes that only receive from given sources *)

Definition receives_from (src tag : Z) (o : op) : nat :=
  match o with
  | Recv s t => if decide (s = src ∧ t = tag) then 1 else 0
  | _ => 0
  end.

Definition directed : Prop :=
  ∀ r o, o ∈ program r → match o with Recv_any _ _ => False | _ => True end.

Lemma inbox_received s :
  directed → reachable (eq start) step s →
  ∀ dst src tag, multiplicity (src, tag) (inbox (proc s dst)) =
    executed (receives_from src tag) dst (proc s dst).
Proof.
  intros Hdir. revert s. apply (reachable_moves (λ s, ∀ dst src tag,
    multiplicity (src, tag) (inbox (proc s dst)) = executed (receives_from src tag) dst (proc s dst))).
  - intros. rewrite proc_start. done.
  - intros s r p' f' Hsd IH Hr Hm dst src tag.
    rewrite proc_put by by rewrite (sd_length s Hsd). case_decide as Hd; [subst dst|apply IH].
    rewrite (executed_move _ _ _ _ _ _ Hm), <-IH. destruct (move_inbox _ _ _ _ _ Hm) as [Hop Hstill].
    destruct (at_op (proc s r)) as [i|] eqn:Ei; [destruct (program r !! i) as [o|] eqn:Eo|]; cbn.
    + pose proof (Hop i o eq_refl Eo) as He.
      pose proof (Hdir r o ltac:(by eapply list_elem_of_lookup_2)) as Ho.
      inversion He as [d t Hv|s1 t Hv Hin|s1 t check Hc Hin]; subst; cbn; [lia| |done].
      rewrite multiplicity_disj_union, multiplicity_singleton.
      repeat case_decide; try lia; exfalso; naive_solver.
    + destruct Hstill as [_ ->]; [right; by exists i|]. lia.
    + destruct Hstill as [_ ->]; [by left|]. lia.
Qed.
End network.

(** ** Runs *)

(** A run in which the processes take steps in the given order; one that waits
    is passed over. *)
Definition play (n : nat) (program : nat → list op) (rs : list (nat * Z)) (s : network) : network :=
  foldl (λ s ra, match exec n program ra.2 ra.1 s with Some (Ok s') => s' | _ => s end) s rs.

Lemma network_play_reachable n program rs s :
  reachable (eq (start n)) (step n program) s →
  reachable (eq (start n)) (step n program) (play n program rs s).
Proof.
  revert s. induction rs as [|[r any] rs IH]; intros s Hs; [done|]. apply IH. cbn.
  destruct (exec n program any r s) as [[s'|]|] eqn:E; [|done..].
  eapply reachable_step; [done|]. by exists any, r.
Qed.

Lemma network_start_reachable n program : reachable (eq (start n)) (step n program) (start n).
Proof. by exists (start n). Qed.
