(* ===== verification/Dissemination.v ===== *)
(** * The dissemination barrier (project2/mpi/gtmpi1.c)

    In round [i] a process tells the one [2^i] places after it, and hears from
    the one [2^i] places before it, that it has come so far. *)
From S2P Require Import Prelude Barrier Network.
From stdpp Require Import gmultiset.

(** [ceil(log2(num_processes))] *)
Definition num_rounds (num_process : Z) : nat := Z.to_nat (Z.log2_up num_process).

Definition send_to (num_process rank round : Z) : Z :=
  Z.rem (i32 (rank + i32 (Z.shiftl 1 round))) num_process.

Definition recv_from (num_process rank round : Z) : Z :=
  Z.rem (i32 (i32 (rank - i32 (Z.shiftl 1 round)) + num_process)) num_process.

(** One iteration of the loop over the rounds. *)
Definition round_ops (num_process rank round : Z) : list op :=
  [Isend (send_to num_process rank round) 1; Recv (recv_from num_process rank round) 1].

Definition gtmpi_barrier (num_process : Z) (rank : nat) : list op :=
  concat (round_ops num_process (Z.of_nat rank) ∘ Z.of_nat <$> range 0 (num_rounds num_process)).

Section dissemination.
Context (n : nat) (Hn : (1 ≤ Z.of_nat n ≤ 2 ^ 30)%Z).

Abbreviation N := (Z.of_nat n).
Abbreviation program := (gtmpi_barrier N).

Definition dissemination_barrier : barrier := network_barrier n program.

(** ** The arithmetic of the rounds *)

Lemma round_small i : i < num_rounds N → (0 < 2 ^ Z.of_nat i < N)%Z.
Proof.
  intros Hi. unfold num_rounds in Hi. split; [lia|].
  destruct (decide (N = 1)%Z) as [E|Hne]; [rewrite E in Hi; cbn in Hi; lia|].
  destruct (Z.log2_up_spec N) as [Hlow _]; [lia|].
  eapply Z.le_lt_trans; [|exact Hlow]. apply Z.pow_le_mono_r; lia.
Qed.

Lemma rounds_enough : (N ≤ 2 ^ Z.of_nat (num_rounds N))%Z.
Proof.
  unfold num_rounds. rewrite Z2Nat.id by apply Z.log2_up_nonneg.
  destruct (decide (N = 1)%Z) as [E|Hne]; [by rewrite E|].
  apply Z.log2_up_spec. lia.
Qed.

Lemma shift_small i : i < num_rounds N → i32 (Z.shiftl 1 (Z.of_nat i)) = (2 ^ Z.of_nat i)%Z.
Proof.
  intros Hi. rewrite Z.shiftl_1_l. pose proof (round_small i Hi).
  apply i32_id. unfold i32_range. lia.
Qed.

Lemma send_to_mod r i :
  (0 ≤ r < N)%Z → i < num_rounds N → send_to N r (Z.of_nat i) = ((r + 2 ^ Z.of_nat i) `mod` N)%Z.
Proof.
  intros Hr Hi. unfold send_to. rewrite shift_small by done. pose proof (round_small i Hi).
  rewrite i32_id by (unfold i32_range; lia). apply Z.rem_mod_nonneg; lia.
Qed.

Lemma recv_from_mod r i :
  (0 ≤ r < N)%Z → i < num_rounds N → recv_from N r (Z.of_nat i) = ((r - 2 ^ Z.of_nat i) `mod` N)%Z.
Proof.
  intros Hr Hi. unfold recv_from. rewrite shift_small by done. pose proof (round_small i Hi).
  rewrite (i32_id (r - _)) by (unfold i32_range; lia).
  rewrite i32_id by (unfold i32_range; lia). rewrite Z.rem_mod_nonneg by lia.
  rewrite <-(Z_mod_plus_full (r - _) 1 N). f_equal. lia.
Qed.

Lemma mod_close x y : (Z.abs (x - y) < N)%Z → (x `mod` N = y `mod` N)%Z → x = y.
Proof.
  intros Habs E. assert ((x - y) `mod` N = 0)%Z as H0.
  { rewrite Zminus_mod, E, Z.sub_diag. apply Z.mod_0_l. lia. }
  apply Z.mod_divide in H0 as [q Hq]; [|lia]. assert (q = 0)%Z by nia. lia.
Qed.

(** The partners of a round: one sends to the other. *)
Lemma partners d i :
  (0 ≤ d < N)%Z → i < num_rounds N →
  let s := recv_from N d (Z.of_nat i) in (0 ≤ s < N)%Z ∧ send_to N s (Z.of_nat i) = d.
Proof.
  intros Hd Hi s.
  assert (0 ≤ s < N)%Z as Hs by (subst s; rewrite recv_from_mod by done; apply Z.mod_pos_bound; lia).
  split; [done|]. rewrite send_to_mod by done. subst s. rewrite recv_from_mod by done.
  rewrite Z.add_mod_idemp_l by lia. replace (d - 2 ^ Z.of_nat i + 2 ^ Z.of_nat i)%Z with d by lia.
  by apply Z.mod_small.
Qed.

Lemma send_to_inj r i j :
  (0 ≤ r < N)%Z → i < num_rounds N → j < num_rounds N →
  send_to N r (Z.of_nat i) = send_to N r (Z.of_nat j) → i = j.
Proof.
  intros Hr Hi Hj. rewrite !send_to_mod by done. intros E.
  pose proof (round_small i Hi) as Hi2. pose proof (round_small j Hj) as Hj2.
  assert (2 ^ Z.of_nat i = 2 ^ Z.of_nat j)%Z as Hpow.
  { apply mod_close in E; lia. }
  apply Z.pow_inj_r in Hpow; lia.
Qed.

Lemma recv_from_inj r i j :
  (0 ≤ r < N)%Z → i < num_rounds N → j < num_rounds N →
  recv_from N r (Z.of_nat i) = recv_from N r (Z.of_nat j) → i = j.
Proof.
  intros Hr Hi Hj. rewrite !recv_from_mod by done. intros E.
  pose proof (round_small i Hi) as Hi2. pose proof (round_small j Hj) as Hj2.
  assert (2 ^ Z.of_nat i = 2 ^ Z.of_nat j)%Z as Hpow.
  { apply mod_close in E; lia. }
  apply Z.pow_inj_r in Hpow; lia.
Qed.

(** ** The program of a process *)

Lemma rounds_length r : length (program r) = 2 * num_rounds N.
Proof.
  unfold gtmpi_barrier, range. rewrite (blocks_length _ 2) by done. by rewrite length_seq, Nat.sub_0_r.
Qed.

Lemma program_lookup r i j :
  i < num_rounds N → j < 2 →
  program r !! (2 * i + j) = round_ops N (Z.of_nat r) (Z.of_nat i) !! j.
Proof.
  intros Hi Hj. apply (blocks_lookup (round_ops N (Z.of_nat r) ∘ Z.of_nat) 2 _ i j i); [done| |done].
  unfold range. rewrite lookup_seq. lia.
Qed.

Lemma rounds_inv r k o :
  program r !! k = Some o →
  ∃ i, i < num_rounds N ∧
    (k = 2 * i ∧ o = Isend (send_to N (Z.of_nat r) (Z.of_nat i)) 1 ∨
     k = 2 * i + 1 ∧ o = Recv (recv_from N (Z.of_nat r) (Z.of_nat i)) 1).
Proof.
  intros Hk. pose proof (lookup_lt_Some _ _ _ Hk) as Hlt. rewrite rounds_length in Hlt.
  pose proof (Nat.div_mod_eq k 2) as Hdiv. pose proof (Nat.mod_upper_bound k 2 ltac:(lia)) as Hmod.
  assert (k / 2 < num_rounds N) as Hi by (apply Nat.Div0.div_lt_upper_bound; lia).
  exists (k / 2). split; [done|]. rewrite Hdiv, (program_lookup r _ _ Hi Hmod) in Hk.
  destruct (k mod 2) as [|[|?]]; [|..|lia]; injection Hk as <-; [left|right]; split; (lia || done).
Qed.

Lemma program_directed : directed program.
Proof. intros r o [k Hk]%list_elem_of_lookup. by apply rounds_inv in Hk as (i & _ & [[_ ->]|[_ ->]]). Qed.

Lemma send_at r i :
  (0 ≤ Z.of_nat r < N)%Z → i < num_rounds N →
  only_at (sends_to (send_to N (Z.of_nat r) (Z.of_nat i)) 1) (program r) (2 * i).
Proof.
  intros Hr Hi k o (j & Hj & [[-> ->]|[-> ->]])%rounds_inv; cbn [sends_to].
  - destruct (decide (2 * j = 2 * i)) as [E|Hne].
    + assert (j = i) as -> by lia. by rewrite decide_True.
    + rewrite decide_False; [done|]. intros [E%send_to_inj _]; [lia|done..].
  - rewrite decide_False by lia. done.
Qed.

Lemma recv_at r i :
  (0 ≤ Z.of_nat r < N)%Z → i < num_rounds N →
  only_at (receives_from (recv_from N (Z.of_nat r) (Z.of_nat i)) 1) (program r) (2 * i + 1).
Proof.
  intros Hr Hi k o (j & Hj & [[-> ->]|[-> ->]])%rounds_inv; cbn [receives_from].
  - rewrite decide_False by lia. done.
  - destruct (decide (2 * j + 1 = 2 * i + 1)) as [E|Hne].
    + assert (j = i) as -> by lia. by rewrite decide_True.
    + rewrite decide_False; [done|]. intros [E%recv_from_inj _]; [lia|done..].
Qed.

(** ** Safety *)

Definition source (d i : nat) : nat := Z.to_nat (recv_from N (Z.of_nat d) (Z.of_nat i)).

Lemma source_spec d i :
  d < n → i < num_rounds N →
  source d i < n ∧ Z.of_nat (source d i) = recv_from N (Z.of_nat d) (Z.of_nat i).
Proof.
  intros Hd Hi. destruct (partners (Z.of_nat d) i) as [Hs _]; [lia|done|]. unfold source. lia.
Qed.

(** The messages of round [i] to [d]: sent, and received or in flight. *)
Lemma round_messages s d i :
  reachable (eq (start n)) (step n program) s → d < n → i < num_rounds N →
  multiplicity (Z.of_nat (source d i), Z.of_nat d, 1%Z) (in_flight s) +
    times (proc s d) (2 * i + 1) = times (proc s (source d i)) (2 * i).
Proof.
  intros Hs Hd Hi. destruct (source_spec d i Hd Hi) as [Hlt Hsrc].
  destruct (partners (Z.of_nat d) i) as [_ Hto]; [lia|done|].
  pose proof (sd_messages _ _ s (reachable_sound n program s Hs) (source d i) d 1%Z) as Hmsg.
  rewrite (inbox_received n program s program_directed Hs) in Hmsg.
  rewrite (executed_times program _ d _ (2 * i + 1)) in Hmsg.
  - rewrite (executed_times program _ (source d i) _ (2 * i)) in Hmsg; [done| |rewrite rounds_length; lia].
    rewrite <-Hto, <-Hsrc. apply send_at; [lia|done].
  - rewrite Hsrc. apply recv_at; [lia|done].
  - rewrite rounds_length. lia.
Qed.

Section reachable.
Context (s : network) (Hs : reachable (eq (start n)) (step n program) s).

(** The process [j] places before [d]. *)
Definition before (d : nat) (j : Z) : nat := Z.to_nat ((Z.of_nat d - j) `mod` N).

Lemma before_lt d j : before d j < n.
Proof. unfold before. pose proof (Z.mod_pos_bound (Z.of_nat d - j) N). lia. Qed.

Lemma before_0 d : d < n → before d 0 = d.
Proof. intros Hd. unfold before. rewrite Z.sub_0_r, Z.mod_small; lia. Qed.

Lemma before_source d i j :
  d < n → i < num_rounds N →
  before d j = before (source d i) (j - 2 ^ Z.of_nat i).
Proof.
  intros Hd Hi. destruct (source_spec d i Hd Hi) as [_ Hsrc]. unfold before.
  rewrite Hsrc, recv_from_mod by (lia || done).
  rewrite Zminus_mod_idemp_l. do 2 f_equal. lia.
Qed.

Lemma before_before d u : d < n → u < n → before d ((Z.of_nat d - Z.of_nat u) `mod` N) = u.
Proof.
  intros Hd Hu. unfold before. rewrite Zminus_mod_idemp_r.
  replace (Z.of_nat d - (Z.of_nat d - Z.of_nat u))%Z with (Z.of_nat u) by lia.
  rewrite Z.mod_small; lia.
Qed.

(** A process that has done operation [k] so often knows that the [w] processes
    up to itself have begun as many calls. *)
Definition knows (k : nat) (w : Z) : Prop :=
  ∀ d j, d < n → (0 ≤ j < w)%Z → times (proc s d) k ≤ calls (proc s (before d j)).

Lemma knows_received i :
  i < num_rounds N → knows (2 * i) (2 ^ Z.of_nat i) → knows (2 * i + 1) (2 ^ Z.of_nat (S i)).
Proof.
  intros Hi IH d j Hd Hj. rewrite Nat2Z.inj_succ, Z.pow_succ_r in Hj by lia.
  destruct (decide (j < 2 ^ Z.of_nat i)%Z) as [Hj'|Hj'].
  - etrans; [|by apply IH; [|lia]]. apply times_le. lia.
  - pose proof (round_messages s d i Hs Hd Hi) as Hmsg.
    destruct (source_spec d i Hd Hi) as [Hlt _].
    rewrite (before_source d i) by done. etrans; [|apply IH; [done|lia]]. lia.
Qed.

Lemma knows_before_round i : i < num_rounds N → knows (2 * i) (2 ^ Z.of_nat i).
Proof.
  induction i as [|i IH]; intros Hi d j Hd Hj.
  - assert (j = 0%Z) as -> by (change (2 ^ Z.of_nat 0)%Z with 1%Z in Hj; lia).
    rewrite before_0 by done. apply (times_calls n program). by apply reachable_sound.
  - etrans; [|apply (knows_received i); [lia|apply IH; lia|done|done]]. apply times_le. lia.
Qed.

(** A process that returns knows of all of them. *)
Lemma dissemination_separates d u :
  d < n → u < n → returns (proc s d) ≤ calls (proc s u).
Proof.
  intros Hd Hu. pose proof rounds_enough as Henough.
  rewrite <-(before_before d u Hd Hu) at 1.
  pose proof (Z.mod_pos_bound (Z.of_nat d - Z.of_nat u) N ltac:(lia)) as Hj.
  destruct (num_rounds N) as [|R] eqn:ER.
  - rewrite before_before by done. change (2 ^ Z.of_nat 0)%Z with 1%Z in Henough.
    assert (u = d) as -> by lia. rewrite (sd_calls n program s); [lia|]. by apply reachable_sound.
  - etrans; [apply (returns_times _ (2 * R + 1))|].
    apply (knows_received R); [lia|apply knows_before_round; lia|done|lia].
Qed.

(** ** Progress *)

Abbreviation here := (position (2 * num_rounds N + 2)).

(** The process that is furthest behind can go on. *)
Lemma last_moves r :
  r < n → (∀ u, u < n → here (proc s r) ≤ here (proc s u)) → can_move n program s r.
Proof.
  intros Hr Hmin. pose proof (reachable_sound n program s Hs) as Hsd.
  destruct (at_op (proc s r)) as [i|] eqn:Ei; [|eexists _, _; by apply Enter].
  destruct (program r !! i) as [o|] eqn:Eo; [|eexists _, _; by eapply Leave].
  pose proof Eo as (k & Hk & [[-> ->]|[-> ->]])%rounds_inv.
  - eexists _, _. eapply Operate; [exact Ei|exact Eo|]. apply Sends. unfold valid_rank.
    rewrite send_to_mod by (lia || done). apply Z.mod_pos_bound. lia.
  - destruct (source_spec r k Hr Hk) as [Hlt Hsrc]. rewrite <-Hsrc in Eo.
    eexists _, _. eapply Operate; [exact Ei|exact Eo|]. apply Receives; [unfold valid_rank; lia|].
    apply elem_of_multiplicity. pose proof (round_messages s r k Hs Hr Hk) as Hmsg.
    specialize (Hmin _ Hlt). unfold position in Hmin. rewrite Ei in Hmin.
    assert (times (proc s r) (2 * k + 1) = returns (proc s r)) as E1.
    { unfold times. rewrite Ei. cbn. rewrite decide_False; lia. }
    assert (S (returns (proc s r)) ≤ times (proc s (source r k)) (2 * k)) as E2; [|lia].
    unfold times. destruct (at_op (proc s (source r k))) as [j|] eqn:Ej; cbn; [|nia].
    pose proof (sd_at n program s Hsd _ _ Ej) as Hj. rewrite rounds_length in Hj.
    case_decide; nia.
Qed.
End reachable.

Lemma dissemination_live : never_stuck dissemination_barrier.
Proof.
  apply (network_live n program (2 * num_rounds N + 2)).
  { intros r. rewrite rounds_length. lia. }
  intros s k Hs (r & Hr & Hk). pose proof (reachable_sound n program s Hs) as Hsd.
  destruct (furthest_behind n program (2 * num_rounds N + 2) s Hsd ltac:(lia)) as (u & Hu & Hmin).
  exists u. split; [done|]. split; [|by apply last_moves].
  specialize (Hmin r Hr).
  pose proof (position_returns n program (2 * num_rounds N + 2)
    ltac:(intros; rewrite rounds_length; lia) s r Hsd) as Hp.
  unfold position in Hmin at 1. nia.
Qed.

Lemma dissemination_correct : Correct dissemination_barrier.
Proof.
  split; [apply network_starts|apply network_one_call| |apply dissemination_live].
  intros s Hs t u Ht Hu. by apply dissemination_separates.
Qed.

(** No process uses a rank outside the communicator. *)
Lemma dissemination_no_error s : reachable (eq (start n)) (step n program) s → ¬ fails n program s.
Proof.
  intros Hs (any & r & e & E). unfold exec in E.
  destruct (processes s !! r) as [p|] eqn:Ep; [|done]. cbn in E.
  assert (r < n) as Hr.
  { rewrite <-(sd_length n program s (reachable_sound n program s Hs)). by eapply lookup_lt_Some. }
  destruct (at_op p) as [i|]; [|done]. destruct (program r !! i) as [o|] eqn:Eo; [|done].
  pose proof Eo as (k & Hk & [[-> ->]|[-> ->]])%rounds_inv.
  - rewrite decide_True in E; [done|]. unfold valid_rank.
    rewrite send_to_mod by (lia || done). apply Z.mod_pos_bound. lia.
  - rewrite decide_True in E; [by destruct (receive _ _ _ _ _ _)|]. unfold valid_rank.
    rewrite recv_from_mod by (lia || done). apply Z.mod_pos_bound. lia.
Qed.
End dissemination.

(** ** Properties *)

(** C24: the dissemination barrier keeps the promises of a barrier, for any number of
    processes up to 2^30, any number of calls and any delays of the messages: no
    process returns from a call before every process has begun it, from every
    reachable state all processes can return any number of times, and no process
    uses a rank outside the communicator. *)
Theorem dissemination_barrier_correct (n : nat) :
  (1 ≤ Z.of_nat n ≤ 2 ^ 30)%Z →
  Correct (dissemination_barrier n) ∧
  ∀ s, reachable (eq (start n)) (step n (gtmpi_barrier (Z.of_nat n))) s →
    ¬ fails n (gtmpi_barrier (Z.of_nat n)) s.
Proof. intros Hn. split; [by apply dissemination_correct|by apply dissemination_no_error]. Qed.

(** With the dissemination barrier no process returns from a call before
    every process has begun it, and no process uses a rank outside the
    communicator, for any number of processes up to 2^30, any number of calls
    and any delays of the messages. *)
Theorem dissemination_barrier_separates (n : nat) (s : network) (d u : nat) :
  (1 ≤ Z.of_nat n ≤ 2 ^ 30)%Z →
  reachable (eq (start n)) (step n (gtmpi_barrier (Z.of_nat n))) s →
  d < n → u < n →
  returns (proc s d) ≤ calls (proc s u) ∧ ¬ fails n (gtmpi_barrier (Z.of_nat n)) s.
Proof.
  intros Hn Hs Hd Hu. split; [by apply (dissemination_separates n)|by apply dissemination_no_error].
Qed.

(** The dissemination barrier does not deadlock: from every reachable state
    all processes can return any number of times. *)
Theorem dissemination_barrier_live (n : nat) (s : network) (k : nat) :
  (1 ≤ Z.of_nat n ≤ 2 ^ 30)%Z →
  reachable (eq (start n)) (step n (gtmpi_barrier (Z.of_nat n))) s →
  ∃ s', rtc (step n (gtmpi_barrier (Z.of_nat n))) s s' ∧
    ∀ r, r < n → k ≤ returns (proc s' r).
Proof.
  intros Hn Hs. destruct (dissemination_live n Hn s Hs k) as (s' & Hst%limited_steps & Hall). by exists s'.
Qed.

(** ** Witnesses *)

(** Three processes; the first has returned once and entered again. *)
Definition demo : network :=
  play 3 (gtmpi_barrier 3)
    ((λ r, (r, 0%Z)) <$> [0; 1; 2; 0; 1; 2; 0; 1; 2; 0; 1; 2; 0; 0; 0; 0; 0]) (start 3).

Lemma dissemination_demo_reachable : reachable (eq (start 3)) (step 3 (gtmpi_barrier 3)) demo.
Proof. apply network_play_reachable, network_start_reachable. Qed.

Lemma dissemination_barrier_separates_witness :
  returns (proc demo 0) = 1 ∧
  returns (proc demo 0) ≤ calls (proc demo 2) ∧ ¬ fails 3 (gtmpi_barrier 3) demo.
Proof.
  split; [by vm_compute|].
  apply (dissemination_barrier_separates 3 demo 0 2); [lia|apply dissemination_demo_reachable|lia|lia].
Defined.

Lemma dissemination_barrier_live_witness :
  ∃ s', rtc (step 3 (gtmpi_barrier 3)) demo s' ∧ ∀ r, r < 3 → 7 ≤ returns (proc s' r).
Proof. apply (dissemination_barrier_live 3 demo 7); [lia|apply dissemination_demo_reachable]. Defined.

Lemma dissemination_barrier_correct_witness :
  Correct (dissemination_barrier 3) ∧
  ∀ s, reachable (eq (start 3)) (step 3 (gtmpi_barrier 3)) s → ¬ fails 3 (gtmpi_barrier 3) s.
Proof. apply (dissemination_barrier_correct 3). lia. Defined.
