(* ===== verification/TreeBarrier.v ===== *)
(** * The tree barrier (project2/mpi/gtmpi2.c)

    Arrivals go up a tree in which a process has four children, wake-ups come
    down one in which it has two. *)
From S2P Require Import Prelude Barrier Network.
From stdpp Require Import gmultiset.

Section program.
Context (num_processes rank : Z).

Definition first_child : Z := i32 (rank * 4 + 1).

Definition num_children : Z :=
  let num_children := i32 (num_processes - first_child) in
  if (num_children <? 0)%Z then 0 else if (num_children >? 4)%Z then 4 else num_children.

(** The [assert] on the source of an arrival. *)
Definition arrival_ok (source : Z) : bool :=
  (first_child <=? source)%Z && (source <=? first_child + num_children)%Z.

(** The last loop, from [i], with [k] more iterations at most. *)
Fixpoint wake_ops (i : Z) (k : nat) : list op :=
  match k with
  | O => []
  | S k => if (i <? num_processes)%Z then Isend i 0 :: wake_ops (i + 1) k else []
  end.

Definition gtmpi_barrier : list op :=
  replicate (Z.to_nat num_children) (Recv_any 0 arrival_ok) ++
  (if (rank =? 0)%Z then []
   else [Isend (Z.quot (rank - 1) 4) 0; Recv (Z.quot (rank - 1) 2) 0]) ++
  wake_ops (i32 (rank * 2 + 1)) 2.
End program.

Section tree.
Context (n : nat) (Hn : (1 ≤ Z.of_nat n ≤ 2 ^ 29)%Z).

(** What the process of rank [r] executes in a call. *)
Definition program (r : nat) : list op := gtmpi_barrier (Z.of_nat n) (Z.of_nat r).

Definition tree_barrier : barrier := network_barrier n program.

(** ** The two trees *)

Definition nc (r : nat) : nat := min 4 (n - (4 * r + 1)).
Definition nw (r : nat) : nat := min 2 (n - (2 * r + 1)).
Definition children (r : nat) : list nat := seq (4 * r + 1) (nc r).
Definition p4 (c : nat) : nat := (c - 1) / 4.
Definition p2 (c : nat) : nat := (c - 1) / 2.

(** The first operation that wakes another process. *)
Definition base (r : nat) : nat := nc r + (if decide (r = 0) then 0 else 2).

#[local] Arguments nc : simpl never.
#[local] Arguments nw : simpl never.
#[local] Arguments base : simpl never.
#[local] Arguments p2 : simpl never.
#[local] Arguments p4 : simpl never.

Lemma elem_of_children r c : c ∈ children r ↔ 4 * r + 1 ≤ c < 4 * r + 5 ∧ c < n.
Proof. unfold children, nc. rewrite elem_of_seq. lia. Qed.

Lemma children_p4 r c : c ∈ children r ↔ 0 < c ∧ c < n ∧ p4 c = r.
Proof.
  rewrite elem_of_children. unfold p4. split.
  - intros Hc. split; [lia|]. split; [lia|].
    symmetry. apply (Nat.div_unique _ 4 r (c - 1 - 4 * r)); lia.
  - intros (H0 & Hc & <-). pose proof (Nat.div_mod_eq (c - 1) 4).
    pose proof (Nat.mod_upper_bound (c - 1) 4). lia.
Qed.

Lemma p2_spec c : 0 < c → p2 c < c ∧ ∃ j, j < 2 ∧ c = 2 * p2 c + 1 + j.
Proof.
  intros Hc. unfold p2. pose proof (Nat.div_mod_eq (c - 1) 2).
  pose proof (Nat.mod_upper_bound (c - 1) 2). split; [lia|].
  exists ((c - 1) mod 2). lia.
Qed.

Lemma p4_lt c : 0 < c → p4 c < c.
Proof. intros Hc. unfold p4. pose proof (Nat.div_mod_eq (c - 1) 4). lia. Qed.

Lemma num_children_nc r : r < n → Z.to_nat (num_children (Z.of_nat n) (Z.of_nat r)) = nc r.
Proof.
  intros Hr. unfold num_children, first_child, nc.
  rewrite (i32_id (Z.of_nat r * 4 + 1)) by (unfold i32_range; lia).
  rewrite i32_id by (unfold i32_range; lia).
  destruct (Z.ltb_spec (Z.of_nat n - (Z.of_nat r * 4 + 1)) 0); [lia|].
  rewrite Z.gtb_ltb. destruct (Z.ltb_spec 4 (Z.of_nat n - (Z.of_nat r * 4 + 1))); lia.
Qed.

Lemma wake_ops_eq i k :
  wake_ops (Z.of_nat n) (Z.of_nat i) k = (λ c, Isend (Z.of_nat c) 0) <$> seq i (min k (n - i)).
Proof.
  revert i. induction k as [|k IH]; intros i; [done|]. cbn [wake_ops].
  destruct (Z.ltb_spec (Z.of_nat i) (Z.of_nat n)).
  - replace (min (S k) (n - i)) with (S (min k (n - S i))) by lia. cbn.
    rewrite <-IH. do 2 f_equal. lia.
  - replace (min (S k) (n - i)) with 0 by lia. done.
Qed.

Lemma program_eq r :
  r < n →
  program r =
    replicate (nc r) (Recv_any 0 (arrival_ok (Z.of_nat n) (Z.of_nat r))) ++
    (if decide (r = 0) then []
     else [Isend (Z.of_nat (p4 r)) 0; Recv (Z.of_nat (p2 r)) 0]) ++
    ((λ c, Isend (Z.of_nat c) 0) <$> seq (2 * r + 1) (nw r)).
Proof.
  intros Hr. unfold program, gtmpi_barrier. rewrite num_children_nc by done. f_equal. f_equal.
  - destruct (decide (r = 0)) as [->|Hr0]; [done|].
    destruct (Z.eqb_spec (Z.of_nat r) 0); [lia|].
    replace (Z.of_nat r - 1)%Z with (Z.of_nat (r - 1)) by lia.
    unfold p4, p2. by rewrite !Nat2Z.inj_div, !Z.quot_div_nonneg by lia.
  - rewrite i32_id by (unfold i32_range; lia).
    replace (Z.of_nat r * 2 + 1)%Z with (Z.of_nat (2 * r + 1)) by lia. apply wake_ops_eq.
Qed.

Inductive operation (r k : nat) : op → Prop :=
| Collect : k < nc r → operation r k (Recv_any 0 (arrival_ok (Z.of_nat n) (Z.of_nat r)))
| Arrive : 0 < r → k = nc r → operation r k (Isend (Z.of_nat (p4 r)) 0)
| Sleep : 0 < r → k = nc r + 1 → operation r k (Recv (Z.of_nat (p2 r)) 0)
| Wake j : j < nw r → k = base r + j → operation r k (Isend (Z.of_nat (2 * r + 1 + j)) 0).

Lemma program_length r : r < n → length (program r) = base r + nw r.
Proof.
  intros Hr. rewrite program_eq by done. unfold base. case_decide; cbn;
    rewrite !length_app, length_replicate, ?length_fmap, ?length_seq; cbn; rewrite ?length_fmap, ?length_seq; lia.
Qed.

Lemma program_inv r k o : r < n → program r !! k = Some o → operation r k o.
Proof.
  intros Hr. rewrite program_eq by done. intros [Hk|[Hk1 Hk]]%lookup_app_Some.
  - apply lookup_replicate in Hk as [-> Hk]. by apply Collect.
  - rewrite length_replicate in Hk1, Hk. apply lookup_app_Some in Hk as [Hk|[Hk2 Hk]].
    + case_decide; [done|]. destruct (k - nc r) as [|[|?]] eqn:E; cbn in Hk; [| |done];
        injection Hk as <-; constructor; lia.
    + apply list_lookup_fmap_Some in Hk as (c & -> & Hc). apply lookup_seq in Hc as [-> Hc].
      apply Wake; [done|]. unfold base. case_decide; cbn in *; lia.
Qed.

Lemma program_at r k o : r < n → operation r k o → program r !! k = Some o.
Proof.
  intros Hr Ho. rewrite program_eq by done. destruct Ho as [Hk|H0 ->|H0 ->|j Hj ->].
  - rewrite lookup_app_l by by rewrite length_replicate. by apply lookup_replicate.
  - rewrite lookup_app_r, length_replicate, Nat.sub_diag by by rewrite length_replicate.
    by rewrite decide_False by lia.
  - rewrite lookup_app_r, length_replicate by (rewrite length_replicate; lia).
    replace (nc r + 1 - nc r) with 1 by lia. by rewrite decide_False by lia.
  - unfold base. rewrite lookup_app_r, length_replicate by (rewrite length_replicate; lia).
    destruct (decide (r = 0)) as [_|_].
    + replace (nc r + 0 + j - nc r) with j by lia. rewrite app_nil_l, list_lookup_fmap.
      by rewrite (proj2 (lookup_seq _ _ _ (2 * r + 1 + j))).
    + replace (nc r + 2 + j - nc r) with (2 + j) by lia.
      rewrite lookup_app_r by (cbn; lia). replace (2 + j - length _) with j by (cbn; lia).
      rewrite list_lookup_fmap. by rewrite (proj2 (lookup_seq _ _ _ (2 * r + 1 + j))).
Qed.

(** ** Who sends to whom *)

Lemma arrival_at c :
  0 < c → c < n → only_at (sends_to (Z.of_nat (p4 c)) 0) (program c) (nc c).
Proof.
  intros H0 Hc k o [Hk|_ ->|_ ->|j Hj ->]%program_inv; [..|done]; cbn [sends_to].
  - rewrite decide_False; [done|lia].
  - by rewrite !decide_True.
  - rewrite decide_False; [done|lia].
  - pose proof (p4_lt c H0). unfold base. rewrite (decide_False (P:=c = 0)) by lia.
    rewrite !decide_False; [done|lia..].
Qed.

Lemma wake_at b j :
  b < n → j < nw b → only_at (sends_to (Z.of_nat (2 * b + 1 + j)) 0) (program b) (base b + j).
Proof.
  intros Hb Hj k o [Hk|H0 ->|H0 ->|j' Hj' ->]%program_inv; [..|done]; cbn [sends_to].
  - unfold base. rewrite decide_False; [done|lia].
  - pose proof (p4_lt b H0). unfold base. rewrite (decide_False (P:=b = 0)) by lia.
    rewrite !decide_False; [done|lia..].
  - unfold base. rewrite (decide_False (P:=b = 0)) by lia. rewrite decide_False; [done|lia].
  - destruct (decide (j' = j)) as [->|Hne].
    + rewrite !decide_True; [done|lia|split; [lia|done]].
    + rewrite !decide_False; [done|lia..].
Qed.

Lemma sends_nothing u r p :
  u < n → ¬ (0 < u ∧ p4 u = r) → ¬ (0 < r ∧ p2 r = u) →
  executed program (sends_to (Z.of_nat r) 0) u p = 0.
Proof.
  intros Hu H4 H2. apply executed_0. intros o [k Hk]%list_elem_of_lookup.
  apply program_inv in Hk; [|done]. destruct Hk as [Hk|H0 ->|H0 ->|j Hj ->]; cbn [sends_to]; try done.
  - rewrite decide_False; [done|]. intros [E _]. apply H4. lia.
  - rewrite decide_False; [done|]. intros [E _]. apply H2. unfold nw in Hj.
    assert (r = 2 * u + 1 + j) as -> by lia. split; [lia|]. unfold p2.
    symmetry. apply (Nat.div_unique _ 2 u j); lia.
Qed.

(** ** Invariant *)

(** Messages from [c] that [r] has received. *)
Definition got_by (p : process) (c : nat) : nat := multiplicity (Z.of_nat c, 0%Z) (inbox p).
Definition got (s : network) (r c : nat) : nat := got_by (proc s r) c.

(** Arrivals that [c] has sent, wake-ups that it has received and that have been
    sent to it, and how often [r] has heard from all its children. *)
Definition up (s : network) (c : nat) : nat := times (proc s c) (nc c).
Definition down (s : network) (c : nat) : nat := times (proc s c) (nc c + 1).
Definition woken (s : network) (c : nat) : nat :=
  times (proc s (p2 c)) (base (p2 c) + (c - (2 * p2 c + 1))).
Definition collected (s : network) (r : nat) : nat :=
  returns (proc s r) +
  (if at_op (proc s r) is Some i then if decide (nc r ≤ i) then 1 else 0 else 0).

(** What process [r] has received at any time. *)
Record received (r : nat) (p : process) : Prop := {
  rc_down : 0 < r → got_by p (p2 r) = times p (nc r + 1);
  rc_sum : sum_list_with (got_by p) (children r) =
    nc r * returns p + min (default 0 (at_op p)) (nc r);
  rc_each c : c ∈ children r →
    returns p ≤ got_by p c ≤ returns p + (if at_op p is Some _ then 1 else 0)
}.

Definition inv (s : network) : Prop := ∀ r, r < n → received r (proc s r).

Section state.
Context (s : network) (Hsd : sound n program s).

Lemma got_arrivals c :
  0 < c → c < n →
  multiplicity (Z.of_nat c, Z.of_nat (p4 c), 0%Z) (in_flight s) + got s (p4 c) c = up s c.
Proof.
  intros H0 Hc. pose proof (sd_messages n program s Hsd c (p4 c) 0%Z) as Hm.
  rewrite (executed_times program _ c _ (nc c)) in Hm; [done|by apply arrival_at|].
  rewrite program_length by done. unfold base. rewrite decide_False by lia. lia.
Qed.

Lemma got_wakes c :
  0 < c → c < n →
  multiplicity (Z.of_nat (p2 c), Z.of_nat c, 0%Z) (in_flight s) + got s c (p2 c) = woken s c.
Proof.
  intros H0 Hc. pose proof (sd_messages n program s Hsd (p2 c) c 0%Z) as Hm.
  destruct (p2_spec c H0) as (Hlt & j & Hj & Ec).
  assert (j < nw (p2 c)) as Hjw by (unfold nw; lia).
  assert (c - (2 * p2 c + 1) = j) as E by lia.
  rewrite (executed_times program _ (p2 c) _ (base (p2 c) + j)) in Hm.
  - unfold woken. by rewrite E.
  - rewrite Ec at 1. apply wake_at; lia.
  - rewrite program_length by lia. lia.
Qed.

Lemma calls_returns r : calls (proc s r) ≤ S (returns (proc s r)).
Proof. rewrite (sd_calls n program s Hsd). destruct (at_op (proc s r)); lia. Qed.

Lemma collected_calls r : collected s r ≤ calls (proc s r).
Proof.
  rewrite (sd_calls n program s Hsd). unfold collected.
  destruct (at_op (proc s r)); [case_decide|]; lia.
Qed.

Lemma up_collected r : up s r ≤ collected s r.
Proof.
  unfold up, times, collected. destruct (at_op (proc s r)); cbn; repeat case_decide; lia.
Qed.

Lemma woken_collected c : 0 < c → woken s c ≤ collected s (p2 c).
Proof.
  intros H0. unfold woken, times, collected, base.
  destruct (at_op (proc s (p2 c))); cbn; repeat case_decide; lia.
Qed.

Lemma woken_down c : 0 < p2 c → woken s c ≤ down s (p2 c).
Proof. intros H0. apply times_le. unfold base. rewrite decide_False by lia. lia. Qed.

Context (Hinv : inv s).

Lemma down_woken c : 0 < c → c < n → down s c ≤ woken s c.
Proof. intros H0 Hc. pose proof (rc_down _ _ (Hinv c Hc) H0) as Hd. fold (got s c (p2 c)) (down s c) in Hd. rewrite <-Hd. pose proof (got_wakes c H0 Hc). lia. Qed.

(** Wake-ups follow the arrival of all processes at the root. *)
Lemma woken_root c : 0 < c → c < n → woken s c ≤ collected s 0.
Proof.
  induction c as [c IH] using lt_wf_ind. intros H0 Hc. destruct (p2_spec c H0) as [Hlt _].
  destruct (decide (p2 c = 0)) as [E|Hne].
  - pose proof (woken_collected c H0) as Hw. by rewrite E in Hw.
  - etrans; [apply woken_down; lia|]. etrans; [apply down_woken; lia|]. apply IH; lia.
Qed.

Lemma returns_root c : c < n → returns (proc s c) ≤ collected s 0.
Proof.
  intros Hc. destruct (decide (c = 0)) as [->|Hne]; [unfold collected; lia|].
  etrans; [|apply (woken_root c); lia]. etrans; [|apply down_woken; lia]. apply returns_times.
Qed.

(** A process that has collected has heard from each of its children. *)
Lemma collected_got r c : r < n → c ∈ children r → collected s r ≤ got s r c.
Proof.
  intros Hr Hc. pose proof (rc_each _ _ (Hinv r Hr) c Hc) as [Hlow _]. fold (got s r c) in Hlow. unfold collected.
  destruct (at_op (proc s r)) as [i|] eqn:Ei; [|lia]. case_decide as Hi; [|lia].
  assert (got s r c = S (returns (proc s r))) as ->; [|lia].
  apply (sum_full (got s r) _ (children r)); [|..|done].
  - intros x Hx. pose proof (rc_each _ _ (Hinv r Hr) x Hx) as [_ Hx']. rewrite Ei in Hx'. unfold got. lia.
  - change (got s r) with (got_by (proc s r)). rewrite (rc_sum _ _ (Hinv r Hr)), Ei. cbn. rewrite Nat.min_r by done.
    unfold children. rewrite length_seq. lia.
Qed.

Lemma collected_up c : 0 < c → c < n → collected s (p4 c) ≤ up s c.
Proof.
  intros H0 Hc. pose proof (p4_lt c H0). pose proof (got_arrivals c H0 Hc).
  pose proof (collected_got (p4 c) c ltac:(lia) ltac:(by apply children_p4)). lia.
Qed.

Lemma root_up u : 0 < u → u < n → collected s 0 ≤ up s u.
Proof.
  induction u as [u IH] using lt_wf_ind. intros H0 Hu. pose proof (p4_lt u H0).
  etrans; [|by apply collected_up]. destruct (decide (p4 u = 0)) as [->|Hne]; [done|].
  etrans; [apply (IH (p4 u)); lia|]. apply up_collected.
Qed.

Lemma root_collected u : u < n → collected s 0 ≤ collected s u.
Proof.
  intros Hu. destruct (decide (u = 0)) as [->|Hne]; [done|].
  etrans; [apply (root_up u); lia|]. apply up_collected.
Qed.

Lemma tree_separates d u : d < n → u < n → returns (proc s d) ≤ calls (proc s u).
Proof.
  intros Hd Hu. etrans; [by apply returns_root|]. etrans; [by apply root_collected|].
  apply collected_calls.
Qed.

(** What a process that collects finds in flight is an arrival, the first one
    of this call. *)
Lemma collects_arrival r i src :
  r < n → at_op (proc s r) = Some i → i < nc r → (src, Z.of_nat r, 0%Z) ∈ in_flight s →
  ∃ c, src = Z.of_nat c ∧ c ∈ children r ∧ got s r c = returns (proc s r).
Proof.
  intros Hr Hi Hlt Hin. destruct (sd_source n program s Hsd _ _ _ Hin) as (c & Hc & ->).
  exists c. split; [done|]. rewrite elem_of_multiplicity in Hin.
  assert (∀ u, u < n → returns (proc s u) ≤ returns (proc s r)) as Hret.
  { intros u Hu. etrans; [by apply returns_root|]. destruct (decide (r = 0)) as [->|Hne].
    - unfold collected. rewrite Hi, decide_False by lia. lia.
    - etrans; [apply (root_up r); lia|]. unfold up, times. rewrite Hi. cbn.
      rewrite decide_False by lia. lia. }
  destruct (decide (0 < c ∧ p4 c = r)) as [[H0 H4]|H4].
  - assert (c ∈ children r) as Hch by by apply children_p4. split; [done|].
    pose proof (rc_each _ _ (Hinv r Hr) c Hch) as [Hlow _]. fold (got s r c) in Hlow.
    pose proof (got_arrivals c H0 Hc) as Hg. rewrite H4 in Hg.
    pose proof (up_collected c). pose proof (collected_calls c). pose proof (calls_returns c).
    pose proof (Hret c Hc). lia.
  - exfalso. destruct (decide (0 < r ∧ p2 r = c)) as [[H0 H2]|H2].
    + pose proof (got_wakes r H0 Hr) as Hg. pose proof (rc_down _ _ (Hinv r Hr) H0) as Hd. fold (got s r (p2 r)) (down s r) in Hd.
      rewrite Hd, H2 in Hg.
      pose proof (woken_root r H0 Hr). pose proof (root_up r H0 Hr).
      assert (up s r = returns (proc s r)) as Hup.
      { unfold up, times. rewrite Hi. cbn. rewrite decide_False by lia. lia. }
      pose proof (returns_times (proc s r) (nc r + 1)) as Hdn. fold (down s r) in Hdn. lia.
    + pose proof (sd_messages n program s Hsd c r 0%Z) as Hm.
      rewrite sends_nothing in Hm by done. lia.
Qed.

(** *** Moves *)

Lemma got_receive k rt a b c x :
  got_by (Process k rt a (b ⊎ {[+ (Z.of_nat c, 0%Z) +]})) x =
  multiplicity (Z.of_nat x, 0%Z) b + (if decide (x = c) then 1 else 0).
Proof.
  unfold got_by. cbn. rewrite multiplicity_disj_union, multiplicity_singleton. f_equal.
  destruct (decide (x = c)) as [->|Hne]; [by rewrite decide_True|].
  rewrite decide_False; [done|]. intros [= E]. lia.
Qed.

Lemma p2_not_child r : 0 < r → p2 r ∉ children r.
Proof. intros H0 Hc. destruct (p2_spec r H0). apply elem_of_children in Hc. lia. Qed.

Lemma move_received r p' f' :
  r < n → move n program r (proc s r) (in_flight s) p' f' → received r p'.
Proof.
  intros Hr Hm. pose proof (Hinv r Hr) as [Hdown Hsum Heach].
  assert (∀ c, c ∈ children r → collected s r ≤ got_by (proc s r) c) as Hcol
    by (intros c; by apply collected_got).
  unfold times, collected in *.
  destruct Hm as [Ha|i Ha Ho|i o f1 b' Ha Ho He]; rewrite Ha in *; cbn in Hdown, Hsum, Heach.
  - split; unfold times; cbn.
    + intros H0. by apply Hdown.
    + done.
    + intros c Hc. specialize (Heach c Hc). unfold got_by in *. cbn. lia.
  - pose proof (lookup_ge_None_1 _ _ Ho) as Hi. rewrite program_length in Hi by done.
    unfold base in Hi. split; unfold times; cbn.
    + intros H0. specialize (Hdown H0). rewrite decide_False in Hi by lia.
      rewrite decide_True in Hdown by lia. unfold got_by in *. cbn. rewrite decide_False by lia. lia.
    + change (sum_list_with (got_by (proc s r)) (children r) = nc r * S (returns (proc s r)) + 0). lia.
    + intros c Hc. specialize (Heach c Hc). specialize (Hcol c Hc).
      rewrite decide_True in Hcol by lia. unfold got_by in *. cbn. lia.
  - apply program_inv in Ho; [|done]. destruct Ho as [Hk|H0 ->|H0 ->|j Hj ->].
    + inversion He as [| |src tag check Hcheck Hin]; subst.
      destruct (collects_arrival r i src Hr Ha Hk Hin) as (c & -> & Hc & Hgot).
      fold (got_by (proc s r)) in Hsum. split; unfold times; cbn [returns at_op default from_option id].
      * intros H0. rewrite got_receive. rewrite decide_False in Hdown by lia.
        rewrite decide_False by (intros E; apply (p2_not_child r); by rewrite ?E). rewrite decide_False by lia.
        specialize (Hdown H0). unfold got_by in Hdown. lia.
      * rewrite (sum_add_one (got_by (proc s r)) _ _ c); [lia|apply NoDup_seq|done|].
        intros x _. by rewrite got_receive.
      * intros x Hx. rewrite got_receive. specialize (Heach x Hx). unfold got, got_by in *.
        destruct (decide (x = c)) as [->|]; lia.
    + inversion He; subst. split; unfold times; cbn [returns at_op default from_option id].
      * intros _. specialize (Hdown H0). rewrite decide_False in Hdown by lia. rewrite decide_False by lia. done.
      * etrans; [exact Hsum|]. lia.
      * done.
    + inversion He; subst. split; unfold times; cbn [returns at_op default from_option id].
      * intros _. rewrite got_receive. specialize (Hdown H0). rewrite decide_False in Hdown by lia.
        rewrite !decide_True by lia. unfold got_by in Hdown. lia.
      * etrans; [|etrans; [exact Hsum|lia]]. apply sum_ext. intros x Hx.
        rewrite got_receive, decide_False; [unfold got_by; lia|].
        intros ->. by apply (p2_not_child r).
      * intros x Hx. rewrite got_receive, decide_False; [specialize (Heach x Hx); unfold got_by in *; lia|].
        intros ->. by apply (p2_not_child r).
    + inversion He; subst. unfold base in *. split; unfold times; cbn [returns at_op default from_option id].
      * intros H0. specialize (Hdown H0). rewrite (decide_False (P:=r = 0)) in * by lia.
        rewrite decide_True in Hdown by lia. rewrite decide_True by lia. done.
      * etrans; [exact Hsum|]. lia.
      * done.
Qed.
End state.

Lemma inv_start : inv (start n).
Proof.
  intros r Hr. rewrite proc_start. split; unfold times, got_by; cbn; try done.
  rewrite sum_zero; [lia|]. intros. apply multiplicity_empty.
Qed.

Lemma reachable_inv s : reachable (eq (start n)) (step n program) s → inv s.
Proof.
  revert s. apply reachable_moves; [apply inv_start|].
  intros s r p' f' Hsd Hinv Hr Hm u Hu. rewrite proc_put by by rewrite (sd_length n program s Hsd).
  case_decide as E; [subst u|by apply Hinv]. by eapply (move_received s).
Qed.

Lemma arrival_ok_child r c :
  r < n → c ∈ children r → arrival_ok (Z.of_nat n) (Z.of_nat r) (Z.of_nat c) = true.
Proof.
  intros Hr Hc. pose proof (num_children_nc r Hr) as Hnc.
  unfold children in Hc. apply elem_of_seq in Hc. unfold arrival_ok, first_child in *.
  rewrite i32_id by (unfold i32_range; lia).
  apply andb_true_intro. split; apply Z.leb_le; lia.
Qed.

Lemma operation_valid r k o :
  r < n → operation r k o →
  match o with Isend d _ | Recv d _ => valid_rank n d | Recv_any _ _ => True end.
Proof.
  intros Hr [Hk|H0 ->|H0 ->|j Hj ->]; unfold valid_rank; [done|..].
  - pose proof (p4_lt r H0). lia.
  - destruct (p2_spec r H0). lia.
  - unfold nw in Hj. lia.
Qed.

Lemma tree_no_error s : reachable (eq (start n)) (step n program) s → ¬ fails n program s.
Proof.
  intros Hs (any & r & e & E). pose proof (reachable_sound n program s Hs) as Hsd. unfold exec in E.
  destruct (processes s !! r) as [p|] eqn:Ep; [|done]. cbn in E.
  assert (r < n) as Hr by (rewrite <-(sd_length n program s Hsd); by eapply lookup_lt_Some).
  assert (proc s r = p) as Hp by (unfold proc; by rewrite Ep).
  destruct (at_op p) as [i|] eqn:Ei; [|done]. destruct (program r !! i) as [o|] eqn:Eo; [|done].
  pose proof (program_inv r i o Hr Eo) as Ho. pose proof (operation_valid r i o Hr Ho) as Hv.
  destruct o as [d t|src t|t check].
  - by rewrite decide_True in E.
  - rewrite decide_True in E by done. by destruct (receive _ _ _ _ _ _).
  - inversion Ho as [Hk| | |]; subst. unfold receive in E. case_decide as Hin; [|done]. cbn in E.
    destruct (collects_arrival s Hsd (reachable_inv s Hs) r i any) as (c & -> & Hc & _); [done..|].
    by rewrite arrival_ok_child in E.
Qed.

(** ** Progress *)

(** The order in which the operations of a call depend on each other: first the
    arrivals from the leaves to the root, then the wake-ups from the root. *)
Definition key (s : network) (r : nat) : nat :=
  2 * n * returns (proc s r) +
  (if decide (nc r < default 0 (at_op (proc s r))) then n + r else n - 1 - r).

Lemma key_lt s r : r < n → key s r < 2 * n * S (returns (proc s r)).
Proof. intros Hr. unfold key. case_decide; lia. Qed.

Lemma first_moves s u :
  reachable (eq (start n)) (step n program) s → u < n →
  (∀ r, r < n → key s u ≤ key s r) → can_move n program s u.
Proof.
  intros Hs Hu Hmin. pose proof (reachable_sound n program s Hs) as Hsd.
  pose proof (reachable_inv s Hs) as Hinv.
  destruct (at_op (proc s u)) as [i|] eqn:Ei; [|eexists _, _; by apply Enter].
  destruct (program u !! i) as [o|] eqn:Eo; [|eexists _, _; by eapply Leave].
  pose proof (program_inv u i o Hu Eo) as Ho. pose proof (operation_valid u i o Hu Ho) as Hv.
  destruct Ho as [Hk|H0 Hi|H0 Hi|j Hj Hi].
  - destruct (sum_not_full (got_by (proc s u)) (S (returns (proc s u))) (children u)) as (c & Hc & Hgot).
    { rewrite (rc_sum _ _ (Hinv u Hu)), Ei. unfold children. rewrite length_seq. cbn. lia. }
    eexists _, _. eapply Operate; [exact Ei|exact Eo|].
    apply (Receives_any _ _ _ _ (Z.of_nat c)); [by apply arrival_ok_child|].
    apply elem_of_multiplicity. pose proof Hc as (H0 & Hcn & Hp)%children_p4.
    pose proof (got_arrivals s Hsd c H0 Hcn) as Hmsg. rewrite Hp in Hmsg. unfold got in Hmsg.
    assert (S (returns (proc s u)) ≤ up s c); [|lia].
    specialize (Hmin c Hcn). pose proof (p4_lt c H0). unfold key in Hmin. rewrite Ei in Hmin.
    cbn [default from_option id] in Hmin. rewrite decide_False in Hmin by lia.
    unfold up, times. case_decide; nia.
  - eexists _, _. eapply Operate; [exact Ei|exact Eo|]. by apply Sends.
  - destruct (p2_spec u H0) as [Hb _]. eexists _, _. eapply Operate; [exact Ei|exact Eo|].
    apply Receives; [done|]. apply elem_of_multiplicity.
    pose proof (got_wakes s Hsd u H0 Hu) as Hmsg. unfold got in Hmsg.
    rewrite (rc_down _ _ (Hinv u Hu) H0) in Hmsg. unfold times in Hmsg at 1. rewrite Ei in Hmsg.
    cbn [default from_option id] in Hmsg. rewrite decide_False in Hmsg by lia.
    pose proof (returns_times (proc s (p2 u)) (base (p2 u) + (u - (2 * p2 u + 1)))) as Hw.
    fold (woken s u) in Hw. specialize (Hmin (p2 u) ltac:(lia)). unfold key in Hmin. rewrite Ei in Hmin.
    cbn [default from_option id] in Hmin. rewrite (decide_True (P:=nc u < i)) in Hmin by lia.
    assert (returns (proc s u) < returns (proc s (p2 u))); [|lia]. case_decide; nia.
  - eexists _, _. eapply Operate; [exact Ei|exact Eo|]. by apply Sends.
Qed.

Lemma program_bound r : length (program r) + 2 ≤ n + 20.
Proof.
  unfold program, gtmpi_barrier. rewrite !length_app, length_replicate.
  assert (Z.to_nat (num_children (Z.of_nat n) (Z.of_nat r)) ≤ 4).
  { unfold num_children. destruct (Z.ltb_spec (i32 (Z.of_nat n - first_child (Z.of_nat r))) 0); [lia|].
    rewrite Z.gtb_ltb. destruct (Z.ltb_spec 4 (i32 (Z.of_nat n - first_child (Z.of_nat r)))); lia. }
  assert (∀ i k, length (wake_ops (Z.of_nat n) i k) ≤ k) as Hwake.
  { intros i k. revert i. induction k as [|k IH]; intros i; cbn; [done|].
    destruct (i <? Z.of_nat n)%Z; cbn; [|lia]. specialize (IH (i + 1)%Z). lia. }
  pose proof (Hwake (i32 (Z.of_nat r * 2 + 1)) 2). destruct (Z.of_nat r =? 0)%Z; cbn [length]; lia.
Qed.

Lemma tree_live : never_stuck tree_barrier.
Proof.
  apply (network_live n program (n + 20) program_bound).
  intros s k Hs (r & Hr & Hk).
  destruct (argmin (key s) (seq 0 n)) as (i & u & Hiu & Hmin).
  { intros E. assert (r ∈ seq 0 n) as Hin by (apply elem_of_seq; lia). rewrite E in Hin.
    by apply not_elem_of_nil in Hin. }
  apply lookup_seq in Hiu as [-> Hi]. cbn in Hmin.
  assert (∀ v, v < n → key s i ≤ key s v) as Hmin'.
  { intros v Hv. apply (Hmin v). apply lookup_seq. lia. }
  exists i. split; [done|]. split; [|by apply first_moves].
  pose proof (Hmin' r Hr). pose proof (key_lt s r Hr). unfold key in H at 1. nia.
Qed.

Lemma tree_correct : Correct tree_barrier.
Proof.
  split; [apply network_starts|apply network_one_call| |apply tree_live].
  intros s Hs t u Ht Hu. cbn in *. apply tree_separates; [|by apply reachable_inv|done..].
  by apply reachable_sound.
Qed.
End tree.

(** ** Properties *)

(** C25: the tree barrier keeps the promises of a barrier, for any number of processes
    up to 2^29, any number of calls and any delays of the messages: no process
    returns from a call before every process has begun it, and from every reachable
    state all processes can return any number of times; no process uses a rank
    outside the communicator, and the [assert] on the source of an arrival never
    fails: a receive from any source never takes a wake-up or an arrival of a later
    call. *)
Theorem tree_barrier_correct (n : nat) :
  (1 ≤ Z.of_nat n ≤ 2 ^ 29)%Z →
  Correct (tree_barrier n) ∧
  ∀ s, reachable (eq (start n)) (step n (program n)) s → ¬ fails n (program n) s.
Proof. intros Hn. split; [by apply tree_correct|by apply tree_no_error]. Qed.

(** With the tree barrier no process returns from a call before every process
    has begun it, no process uses a rank outside the communicator, and the
    [assert] on the source of an arrival never fails: in particular a receive
    from any source never takes a wake-up or an arrival of a later call. *)
Theorem tree_barrier_separates (n : nat) (s : network) (d u : nat) :
  (1 ≤ Z.of_nat n ≤ 2 ^ 29)%Z →
  reachable (eq (start n)) (step n (program n)) s → d < n → u < n →
  returns (proc s d) ≤ calls (proc s u) ∧ ¬ fails n (program n) s.
Proof.
  intros Hn Hs Hd Hu. split; [|by apply tree_no_error].
  apply (tree_separates n); [done|by apply reachable_sound|by apply reachable_inv|done..].
Qed.

(** The tree barrier does not deadlock: from every reachable state all
    processes can return any number of times. *)
Theorem tree_barrier_live (n : nat) (s : network) (k : nat) :
  (1 ≤ Z.of_nat n ≤ 2 ^ 29)%Z →
  reachable (eq (start n)) (step n (program n)) s →
  ∃ s', rtc (step n (program n)) s s' ∧ ∀ r, r < n → k ≤ returns (proc s' r).
Proof.
  intros Hn Hs. destruct (tree_live n Hn s Hs k) as (s' & Hst%limited_steps & Hall). by exists s'.
Qed.

(** ** Witnesses *)

(** Seven processes; the root has returned and begun the next call, while the last
    four have still to receive their wake-ups. *)
Definition demo_steps (r : nat) : list (nat * Z) :=
  (λ j, (r, Z.of_nat (4 * r + 1 + j))) <$> seq 0 4.

Definition demo : network :=
  play 7 (program 7)
    (concat (repeat (concat (demo_steps <$> rev (seq 0 7))) 3) ++ demo_steps 0 ++ demo_steps 0) (start 7).

Lemma tree_demo_reachable : reachable (eq (start 7)) (step 7 (program 7)) demo.
Proof. apply network_play_reachable, network_start_reachable. Qed.

Lemma tree_barrier_separates_witness :
  returns (proc demo 0) = 1 ∧
  returns (proc demo 0) ≤ calls (proc demo 6) ∧ ¬ fails 7 (program 7) demo.
Proof.
  split; [by vm_compute|]. apply (tree_barrier_separates 7 demo 0 6); [lia|apply tree_demo_reachable|lia|lia].
Defined.

Lemma tree_barrier_live_witness :
  ∃ s', rtc (step 7 (program 7)) demo s' ∧ ∀ r, r < 7 → 3 ≤ returns (proc s' r).
Proof. apply (tree_barrier_live 7 demo 3); [lia|apply tree_demo_reachable]. Defined.

Lemma tree_barrier_correct_witness :
  Correct (tree_barrier 7) ∧
  ∀ s, reachable (eq (start 7)) (step 7 (program 7)) s → ¬ fails 7 (program 7) s.
Proof. apply (tree_barrier_correct 7). lia. Defined.
