(* ===== verification/McsBarrier.v ===== *)
(** * The MCS tree barrier (project2/omp/gtmp2.c, gtmp.h)

    Every thread has a node.  A node collects the arrivals of up to four children
    in the bytes of [cn], clears its byte in the node of its parent, waits until
    [parent_sense] changes, and wakes up to two other nodes: arrivals go up one
    tree, wake-ups go down another.  A step is one access to a shared variable; a
    read that keeps a thread in one of the loops is no step. *)
From S2P Require Import Prelude Barrier.

(** ** Data *)

(** [mp_mcs_barrier_node].  A pointer into the array of nodes is the number of the
    node, with the number of the byte for [parent_ptr]; the unions [hc] and [cn]
    are their four bytes. *)
Record node := Node {
  parent_ptr : option (nat * nat);
  wakeup_ptrs : list (option nat);
  sense : Z;
  parent_sense : Z;
  hc : list Z;
  cn : list Z
}.

#[export] Instance node_eta : Eta node := λ x,
  Node (parent_ptr x) (wakeup_ptrs x) (sense x) (parent_sense x) (hc x) (cn x).

(** The [int] over four bytes, the first one the least significant. *)
Definition value (a : list Z) : Z := foldr (λ b v, b `mod` 256 + 256 * v)%Z 0%Z a.

(** Where a thread is in [gtmp_barrier]. *)
Inductive pc :=
| Out
| Await_children   (** line 52 *)
| Reset            (** line 53 *)
| Signal           (** lines 55 and 56 *)
| Await_parent     (** line 57 *)
| Wake (j : nat).  (** lines 60 to 64, and 65 once the loop has ended *)

#[export] Instance pc_eq_dec : EqDecision pc.
Proof. solve_decision. Defined.

Record thread := Thread { at_pc : pc; calls : nat; returns : nat }.

Record state := State { num_threads : nat; nodes : list node; threads : list thread }.

(** ** [gtmp_init] *)

(** [for (j = i * 4 + 1, k = 0; j < num_threads && k < 4; j++, k++)], with [m] for
    [4 - k]. *)
Fixpoint wait_tree (num_threads : nat) (m j k : nat) (x : node) : node :=
  match m with
  | O => x
  | S m =>
    if decide (j < num_threads) then
      wait_tree num_threads m (S j) (S k) (update cn (<[k := 1%Z]>) (update hc (<[k := 1%Z]>) x))
    else x
  end.

(** The two loops over [wakeup_ptrs], with [m] for [2 - k]. *)
Fixpoint wakeup_tree (num_threads : nat) (m j : nat) : list (option nat) :=
  match m with
  | O => []
  | S m' =>
    if decide (j < num_threads) then Some j :: wakeup_tree num_threads m' (S j)
    else replicate m None
  end.

Definition init_node (num_threads i : nat) : node :=
  wait_tree num_threads 4 (i * 4 + 1) 0
    (Node (if decide (i ≠ 0) then Some ((i - 1) / 4, (i - 1) `mod` 4) else None)
      (wakeup_tree num_threads 2 (i * 2 + 1)) 1 0 [0; 0; 0; 0]%Z [0; 0; 0; 0]%Z).

(** [ret] is what [posix_memalign] returned. *)
Definition gtmp_init (ret : Z) (num_threads : nat) : res state :=
  if decide (ret ≠ 0%Z) then Err (Exit ret)
  else mret (State num_threads (init_node num_threads <$> seq 0 num_threads)
    (replicate num_threads (Thread Out 0 0))).

(** ** [gtmp_barrier] *)

(** Stores through the pointers of a node. *)
Definition store_cn (p : nat * nat) (v : Z) (l : list node) : res (list node) :=
  match l !! p.1 with
  | Some x => if decide (p.2 < length (cn x)) then mret (<[p.1 := update cn (<[p.2 := v]>) x]> l)
              else Err Undefined
  | None => Err Undefined
  end.

Definition store_parent_sense (j : nat) (v : Z) (l : list node) : res (list node) :=
  match l !! j with
  | Some x => mret (<[j := assign parent_sense v x]> l)
  | None => Err Undefined
  end.

(** The next access of thread [id], whose node is [x]: the new nodes and where the
    thread goes; [None] while the thread waits. *)
Definition gtmp_barrier (id : nat) (x : node) (p : pc) (l : list node) :
    option (res (list node * pc)) :=
  match p with
  | Out => Some (mret (l, Await_children))
  | Await_children =>
    if decide (value (cn x) ≠ 0%Z) then None else Some (mret (l, Reset))
  | Reset => Some (mret (<[id := assign cn (hc x) x]> l, Signal))
  | Signal =>
    Some match parent_ptr x with
    | Some q => l ← store_cn q 0 l; mret (l, Await_parent)
    | None => mret (l, Wake 0)
    end
  | Await_parent =>
    if decide (parent_sense x ≠ sense x) then None else Some (mret (l, Wake 0))
  | Wake j =>
    if decide (j < 2) then
      Some match wakeup_ptrs x !! j with
      | Some (Some q) => l ← store_parent_sense q (sense x) l; mret (l, Wake (S j))
      | Some None => mret (l, Wake (S j))
      | None => Err Undefined
      end
    else Some (mret (<[id := update sense (λ z, if decide (z = 0%Z) then 1%Z else 0%Z) x]> l, Out))
  end.

Definition is_out (p : pc) : bool := match p with Out => true | _ => false end.

(** A thread goes from [p] to [p']. *)
Definition moved (th : thread) (p' : pc) : thread :=
  Thread p' (if is_out (at_pc th) then S (calls th) else calls th)
    (if is_out p' then S (returns th) else returns th).

Definition exec (s : state) (id : nat) : option (res state) :=
  th ← threads s !! id;
  match nodes s !! id with
  | None => Some (Err Undefined)
  | Some x =>
    r ← gtmp_barrier id x (at_pc th) (nodes s);
    Some (lp ← r; mret (State (num_threads s) lp.1 (<[id := moved th lp.2]> (threads s))))
  end.

Definition step (s s' : state) : Prop := ∃ id, exec s id = Some (Ok s').
Definition fails (s : state) : Prop := ∃ id f, exec s id = Some (Err f).

Definition mcs_barrier (n : nat) : barrier := {|
  participants := n;
  bstate := state;
  binit := λ s, gtmp_init 0 n = Ok s;
  bstep := step;
  Barrier.entered := λ s t, default 0 (calls <$> threads s !! t);
  Barrier.left := λ s t, default 0 (returns <$> threads s !! t)
|}.

(** ** Invariant *)

(** The thread and the node of a number below [num_threads]. *)
Definition thr (s : state) (i : nat) : thread := default (Thread Out 0 0) (threads s !! i).
Definition nod (s : state) (i : nat) : node := default (Node None [] 0 0 [] []) (nodes s !! i).

(** How often a thread has reset its bytes, signalled its parent, been woken, and
    woken its [k]-th child: its returns, and one more from some point of a call on. *)
Definition has_reset (p : pc) : nat :=
  match p with Signal | Await_parent | Wake _ => 1 | _ => 0 end.
Definition has_signalled (p : pc) : nat :=
  match p with Await_parent | Wake _ => 1 | _ => 0 end.
Definition is_woken (p : pc) : nat := match p with Wake _ => 1 | _ => 0 end.
Definition has_sent (k : nat) (p : pc) : nat :=
  match p with Wake m => if decide (k < m) then 1 else 0 | _ => 0 end.

Definition resets (th : thread) : nat := returns th + has_reset (at_pc th).
Definition signals (th : thread) : nat := returns th + has_signalled (at_pc th).
Definition wakes (th : thread) : nat := returns th + is_woken (at_pc th).
Definition sent (th : thread) (k : nat) : nat := returns th + has_sent k (at_pc th).

Definition flag (P : Prop) `{!Decision P} : Z := if decide P then 1%Z else 0%Z.

(** The sense of the [e]-th episode; before the first, [parent_sense] is 0. *)
Definition sense_of (e : nat) : Z := if Nat.odd e then 1%Z else 0%Z.

Definition four (f : nat → Z) : list Z := [f 0; f 1; f 2; f 3].

(** What never changes in a node. *)
Definition same_shape (x y : node) : Prop :=
  parent_ptr x = parent_ptr y ∧ wakeup_ptrs x = wakeup_ptrs y ∧ hc x = hc y ∧ length (cn x) = 4.

Record good (n : nat) (s : state) : Prop := {
  gd_nodes : length (nodes s) = n;
  gd_threads : length (threads s) = n;
  gd_shape i : i < n → same_shape (nod s i) (init_node n i);
  gd_sense i : i < n → sense (nod s i) = sense_of (S (returns (thr s i)));
  gd_cn i k : k < 4 → 4 * i + 1 + k < n →
    cn (nod s i) !! k =
    Some (1 + Z.of_nat (resets (thr s i)) - Z.of_nat (signals (thr s (4 * i + 1 + k))))%Z;
  gd_no_child i k : k < 4 → i < n → n ≤ 4 * i + 1 + k → cn (nod s i) !! k = Some 0%Z;
  gd_parent_sense i k : k < 2 → 2 * i + 1 + k < n →
    parent_sense (nod s (2 * i + 1 + k)) = sense_of (sent (thr s i) k);
  gd_collected i k : k < 4 → 4 * i + 1 + k < n →
    resets (thr s i) ≤ signals (thr s (4 * i + 1 + k)) ∧
    (at_pc (thr s i) = Reset → resets (thr s i) < signals (thr s (4 * i + 1 + k)));
  gd_woken i k : k < 2 → 2 * i + 1 + k < n →
    wakes (thr s (2 * i + 1 + k)) ≤ sent (thr s i) k;
  gd_root : at_pc (thr s 0) ≠ Await_parent;
  gd_calls i : i < n → calls (thr s i) = returns (thr s i) + if is_out (at_pc (thr s i)) then 0 else 1;
  gd_wake i j : at_pc (thr s i) = Wake j → j ≤ 2
}.

(** ** Lemmas *)

Lemma init_node_eq n i :
  init_node n i =
  Node (if decide (i ≠ 0) then Some ((i - 1) / 4, (i - 1) `mod` 4) else None)
    ((λ k, if decide (2 * i + 1 + k < n) then Some (2 * i + 1 + k) else None) <$> [0; 1])
    1 0 (four (λ k, flag (4 * i + 1 + k < n))) (four (λ k, flag (4 * i + 1 + k < n))).
Proof.
  unfold init_node. generalize (if decide (i ≠ 0) then Some ((i - 1) / 4, (i - 1) `mod` 4) else None).
  intros q. rewrite (Nat.mul_comm i 4), (Nat.mul_comm i 2).
  unfold four, flag. cbn [wait_tree wakeup_tree fmap list_fmap replicate].
  generalize (4 * i + 1) (2 * i + 1). intros a b.
  rewrite <-!plus_n_Sm, <-!plus_n_O.
  repeat case_decide; try (exfalso; lia); reflexivity.
Qed.

Lemma four_lookup f k : k < 4 → four f !! k = Some (f k).
Proof. intros H. do 4 (destruct k as [|k]; [done|]). lia. Qed.

(** [cn.value] is 0 when every byte is. *)
Lemma value_zero a :
  length a = 4 → (∀ k, k < 4 → a !! k = Some 0%Z ∨ a !! k = Some 1%Z) →
  value a = 0%Z ↔ ∀ k, k < 4 → a !! k = Some 0%Z.
Proof.
  intros Hl Ha. destruct a as [|b0 [|b1 [|b2 [|b3 [|]]]]]; try done.
  pose proof (Ha 0 ltac:(lia)). pose proof (Ha 1 ltac:(lia)).
  pose proof (Ha 2 ltac:(lia)). pose proof (Ha 3 ltac:(lia)). split.
  - intros Hv k Hk. destruct_or!; simplify_eq/=; try discriminate Hv.
    do 4 (destruct k as [|k]; [done|]). lia.
  - intros Hz. pose proof (Hz 0 ltac:(lia)). pose proof (Hz 1 ltac:(lia)).
    pose proof (Hz 2 ltac:(lia)). pose proof (Hz 3 ltac:(lia)). by simplify_eq/=.
Qed.

Lemma mcs_sense_S e : sense_of (S e) = if decide (sense_of e = 0%Z) then 1%Z else 0%Z.
Proof. unfold sense_of. rewrite Nat.odd_succ, <-Nat.negb_odd. by destruct (Nat.odd e). Qed.

Lemma sense_of_inj e e' : e ≤ e' ≤ S e → sense_of e' = sense_of (S e) → e' = S e.
Proof.
  intros He H. destruct (decide (e' = e)) as [->|]; [|lia].
  rewrite mcs_sense_S in H. case_decide; congruence.
Qed.

(** Every node but the root is a child in both trees. *)
Lemma arrival_parent j : j ≠ 0 → ∃ i k, k < 4 ∧ j = 4 * i + 1 + k.
Proof.
  intros Hj. exists ((j - 1) / 4), ((j - 1) `mod` 4). split; [by apply Nat.mod_upper_bound|].
  pose proof (Nat.div_mod_eq (j - 1) 4). lia.
Qed.

Lemma wakeup_parent j : j ≠ 0 → ∃ i k, k < 2 ∧ j = 2 * i + 1 + k.
Proof.
  intros Hj. exists ((j - 1) / 2), ((j - 1) `mod` 2). split; [by apply Nat.mod_upper_bound|].
  pose proof (Nat.div_mod_eq (j - 1) 2). lia.
Qed.

Lemma counters th k :
  returns th ≤ wakes th ∧ wakes th ≤ signals th ∧ signals th ≤ resets th ∧
  resets th ≤ S (returns th) ∧ returns th ≤ sent th k ≤ wakes th.
Proof.
  unfold wakes, signals, resets, sent. destruct (at_pc th); cbn; repeat case_decide; lia.
Qed.

Section globals.
Context (n : nat) (s : state) (Hg : good n s).

Lemma root_least i : i < n → signals (thr s 0) ≤ signals (thr s i).
Proof.
  induction i as [i IH] using lt_wf_ind. intros Hi.
  destruct (decide (i = 0)) as [->|[p [k [Hk ->]]]%arrival_parent]; [done|].
  specialize (IH p ltac:(lia) ltac:(lia)). destruct (gd_collected _ _ Hg p k Hk Hi) as [Hc _].
  pose proof (counters (thr s p) 0). lia.
Qed.

Lemma root_woken i : i < n → wakes (thr s i) ≤ wakes (thr s 0).
Proof.
  induction i as [i IH] using lt_wf_ind. intros Hi.
  destruct (decide (i = 0)) as [->|[p [k [Hk ->]]]%wakeup_parent]; [done|].
  specialize (IH p ltac:(lia) ltac:(lia)). pose proof (gd_woken _ _ Hg p k Hk Hi) as Hc.
  pose proof (counters (thr s p) k). lia.
Qed.

Lemma root_same : wakes (thr s 0) = signals (thr s 0).
Proof.
  pose proof (gd_root _ _ Hg). unfold wakes, signals. by destruct (at_pc (thr s 0)).
Qed.

(** Nobody is woken before everybody has signalled. *)
Lemma woken_signalled i j : i < n → j < n → wakes (thr s i) ≤ signals (thr s j).
Proof.
  intros Hi Hj. pose proof (root_least j Hj). pose proof (root_woken i Hi). pose proof root_same. lia.
Qed.

Lemma signals_close i j : i < n → j < n → signals (thr s i) ≤ S (signals (thr s j)).
Proof.
  intros Hi Hj. pose proof (woken_signalled i j Hi Hj).
  assert (signals (thr s i) ≤ S (wakes (thr s i))); [|lia].
  unfold signals, wakes. destruct (at_pc (thr s i)); cbn; lia.
Qed.

(** A wake-up is received before the next one is sent. *)
Lemma sent_close i k :
  k < 2 → 2 * i + 1 + k < n →
  wakes (thr s (2 * i + 1 + k)) ≤ sent (thr s i) k ≤ S (returns (thr s (2 * i + 1 + k))).
Proof.
  intros Hk Hn. split; [by apply (gd_woken _ _ Hg)|].
  pose proof (woken_signalled i (2 * i + 1 + k) ltac:(lia) Hn). pose proof (counters (thr s i) k).
  assert (signals (thr s (2 * i + 1 + k)) ≤ S (returns (thr s (2 * i + 1 + k)))); [|lia].
  pose proof (counters (thr s (2 * i + 1 + k)) 0). lia.
Qed.
End globals.

(** *** Steps *)

(** The state after a step of thread [t], which goes to [p] and leaves [l]. *)
Definition after (s : state) (l : list node) (t : nat) (p : pc) : state :=
  State (num_threads s) l (<[t := moved (thr s t) p]> (threads s)).

Lemma thr_lookup n s i : good n s → i < n → threads s !! i = Some (thr s i).
Proof.
  intros Hg Hi. unfold thr. rewrite <-(gd_threads _ _ Hg) in Hi.
  by destruct (lookup_lt_is_Some_2 _ _ Hi) as [x ->].
Qed.

Section steps.
Context (n : nat) (s : state) (t : nat) (Hg : good n s) (Ht : t < n).

Lemma thr_after l p i :
  thr (after s l t p) i = if decide (i = t) then moved (thr s t) p else thr s i.
Proof.
  unfold after, thr. cbn. case_decide as Hi.
  - subst i. rewrite list_lookup_insert_eq; [done|]. by rewrite (gd_threads _ _ Hg).
  - by rewrite list_lookup_insert_ne.
Qed.

Lemma nod_insert l p j x i :
  length l = n → j < n →
  nod (after s (<[j := x]> l) t p) i = if decide (i = j) then x else nod (after s l t p) i.
Proof.
  intros Hl Hj. unfold after, nod. cbn. case_decide as Hi.
  - subst i. rewrite list_lookup_insert_eq; [done|]. by rewrite Hl.
  - by rewrite list_lookup_insert_ne.
Qed.

Lemma nod_same p i : nod (after s (nodes s) t p) i = nod s i.
Proof. done. Qed.

Lemma nodes_lookup i : i < n → nodes s !! i = Some (nod s i).
Proof.
  intros Hi. unfold nod. rewrite <-(gd_nodes _ _ Hg) in Hi.
  destruct (lookup_lt_is_Some_2 _ _ Hi) as [x ->]. done.
Qed.
End steps.

#[local] Arguments Nat.mul : simpl never.
#[local] Arguments init_node : simpl never.

(** The fields of [good] for the state after a step: the field before it, with the
    thread that moved, whose [pc] was [Ep], told apart. *)
Ltac counted Ep :=
  repeat case_decide; subst;
  unfold resets, signals, wakes, sent in *;
  cbn [moved at_pc returns calls is_out has_reset has_signalled is_woken has_sent] in *;
  rewrite ?Ep in *; cbn [is_out has_reset has_signalled is_woken has_sent] in *.

Ltac fields Hg Ht Ep :=
  split;
  [ cbn; rewrite ?length_insert; apply (gd_nodes _ _ Hg)
  | cbn; rewrite ?length_insert; apply (gd_threads _ _ Hg)
  | intros i Hi; pose proof (gd_shape _ _ Hg i Hi)
  | intros i Hi; pose proof (gd_sense _ _ Hg i Hi)
  | intros i k Hk Hi; pose proof (gd_cn _ _ Hg i k Hk Hi)
  | intros i k Hk Hi Hn; pose proof (gd_no_child _ _ Hg i k Hk Hi Hn)
  | intros i k Hk Hi; pose proof (gd_parent_sense _ _ Hg i k Hk Hi)
  | intros i k Hk Hi; pose proof (gd_collected _ _ Hg i k Hk Hi)
  | intros i k Hk Hi; pose proof (gd_woken _ _ Hg i k Hk Hi)
  | pose proof (gd_root _ _ Hg)
  | intros i Hi; pose proof (gd_calls _ _ Hg i Hi)
  | intros i j; pose proof (gd_wake _ _ Hg i j) ];
  rewrite ?(thr_after _ _ _ Hg Ht), ?nod_same.

Ltac close_field :=
  try done; try lia;
  try (etrans; [eassumption|]; f_equal; lia); try (intros [= <-]; lia);
  try (split; [lia|done]).

(** A step that writes nothing. *)
Ltac still Hg Ht Ep := fields Hg Ht Ep; counted Ep; close_field.

(** A step that writes node [j]. *)
Ltac fields_set Hg Ht Ep Hj :=
  fields Hg Ht Ep; rewrite ?(nod_insert _ _ _ _ _ _ _ _ (gd_nodes _ _ Hg) Hj), ?nod_same;
  counted Ep;
  cbn [assign update eta node_eta parent_ptr wakeup_ptrs sense parent_sense hc cn] in *;
  close_field.

Lemma enter_good n s t :
  good n s → t < n → at_pc (thr s t) = Out → good n (after s (nodes s) t Await_children).
Proof.
  intros Hg Ht Ep. still Hg Ht Ep.
Qed.

(** The bytes of a node are flags. *)
Lemma cn_flags n s i k :
  good n s → i < n → k < 4 → cn (nod s i) !! k = Some 0%Z ∨ cn (nod s i) !! k = Some 1%Z.
Proof.
  intros Hg Hi Hk. destruct (decide (4 * i + 1 + k < n)) as [Hc|Hc].
  - rewrite (gd_cn _ _ Hg i k Hk Hc). pose proof (gd_collected _ _ Hg i k Hk Hc) as [H1 _].
    pose proof (signals_close n s Hg (4 * i + 1 + k) i Hc Hi). pose proof (counters (thr s i) 0).
    destruct (decide (signals (thr s (4 * i + 1 + k)) = resets (thr s i))); [right|left]; f_equal; lia.
  - left. apply (gd_no_child _ _ Hg); lia.
Qed.

Lemma collect_good n s t :
  good n s → t < n → at_pc (thr s t) = Await_children → value (cn (nod s t)) = 0%Z →
  good n (after s (nodes s) t Reset).
Proof.
  intros Hg Ht Ep Hv.
  assert (∀ k, k < 4 → 4 * t + 1 + k < n → resets (thr s t) < signals (thr s (4 * t + 1 + k))) as Hc.
  { intros k Hk Hn. rewrite value_zero in Hv; [|apply (gd_shape _ _ Hg t Ht)|by intros; eapply cn_flags].
    specialize (Hv k Hk). rewrite (gd_cn _ _ Hg t k Hk Hn) in Hv. injection Hv as Hv. lia. }
  still Hg Ht Ep.
  specialize (Hc k Hk Hi). lia.
Qed.

Lemma reset_good n s t :
  good n s → t < n → at_pc (thr s t) = Reset →
  good n (after s (<[t := assign cn (hc (nod s t)) (nod s t)]> (nodes s)) t Signal).
Proof.
  intros Hg Ht Ep.
  assert (hc (nod s t) = four (λ k, flag (4 * t + 1 + k < n))) as Hhc.
  { destruct (gd_shape _ _ Hg t Ht) as (_ & _ & -> & _). by rewrite init_node_eq. }
  assert (∀ k, k < 4 → 4 * t + 1 + k < n → signals (thr s (4 * t + 1 + k)) = S (resets (thr s t))) as Hc.
  { intros k Hk Hn. pose proof (gd_collected _ _ Hg t k Hk Hn) as [_ H1]. specialize (H1 Ep).
    pose proof (signals_close n s Hg (4 * t + 1 + k) t Hn Ht). pose proof (counters (thr s t) 0). lia. }
  fields_set Hg Ht Ep Ht.
  - destruct H as (? & ? & ? & _). unfold same_shape. cbn. by rewrite Hhc at 2.
  - specialize (Hc k Hk Hi). rewrite Hhc, four_lookup by done. unfold flag.
    rewrite decide_True by done. f_equal. lia.
  - rewrite Hhc, four_lookup by done. unfold flag. by rewrite decide_False by lia.
  - specialize (Hc k Hk Hi). split; [lia|done].
Qed.

(** The root goes on to its children at once. *)
Lemma root_good n s : good n s → 0 < n → at_pc (thr s 0) = Signal → good n (after s (nodes s) 0 (Wake 0)).
Proof.
  intros Hg Ht Ep. still Hg Ht Ep.
Qed.

Lemma signal_good n s t p c :
  good n s → t < n → at_pc (thr s t) = Signal → c < 4 → t = 4 * p + 1 + c →
  good n (after s (<[p := update cn (<[c := 0%Z]>) (nod s p)]> (nodes s)) t Await_parent).
Proof.
  intros Hg Ht Ep Hc Eq. assert (p < n) as Hp by lia.
  pose proof (gd_collected _ _ Hg p c Hc ltac:(lia)) as [Hcol _].
  pose proof (woken_signalled n s Hg t p Ht Hp) as Hw. pose proof (counters (thr s p) 0) as Hcp.
  assert (length (cn (nod s p)) = 4) as Hl by apply (gd_shape _ _ Hg p Hp).
  fields_set Hg Ht Ep Hp.
  - destruct H as (? & ? & ? & ?). unfold same_shape. cbn. by rewrite length_insert.
  - assert (k = c) as -> by lia. rewrite list_lookup_insert_eq by lia. f_equal. lia.
  - rewrite list_lookup_insert_ne by congruence. done.
  - rewrite list_lookup_insert_ne by lia. done.
  - assert (i = p) as -> by lia. lia.
  - match goal with E : 2 * i + 1 + k = _ |- _ => rewrite E, Ep in H end. cbn in H. lia.
Qed.

Lemma parent_good n s t :
  good n s → t < n → at_pc (thr s t) = Await_parent →
  parent_sense (nod s t) = sense (nod s t) → good n (after s (nodes s) t (Wake 0)).
Proof.
  intros Hg Ht Ep Hs.
  assert (∀ p c, c < 2 → 2 * p + 1 + c = t → sent (thr s p) c = S (returns (thr s t))) as Hsent.
  { intros p c Hc <-. pose proof (sent_close n s Hg p c Hc Ht) as Hcl.
    pose proof (counters (thr s (2 * p + 1 + c)) 0). apply sense_of_inj; [lia|].
    by rewrite <-(gd_parent_sense _ _ Hg p c Hc Ht), Hs, (gd_sense _ _ Hg). }
  still Hg Ht Ep.
  rewrite (Hsent i k) by done. lia.
Qed.

Lemma wake_child_good n s t c q :
  good n s → t < n → at_pc (thr s t) = Wake c → c < 2 → q = 2 * t + 1 + c → q < n →
  good n (after s (<[q := assign parent_sense (sense (nod s t)) (nod s q)]> (nodes s)) t (Wake (S c))).
Proof.
  intros Hg Ht Ep Hc Eq Hq. pose proof (gd_sense _ _ Hg t Ht) as Hs.
  fields_set Hg Ht Ep Hq.
  - rewrite Hs, decide_True by lia. f_equal. lia.
  - rewrite H. f_equal. repeat case_decide; lia.
  - repeat case_decide; lia.
Qed.

Lemma no_wake_good n s t c :
  good n s → t < n → at_pc (thr s t) = Wake c → c < 2 → n ≤ 2 * t + 1 + c →
  good n (after s (nodes s) t (Wake (S c))).
Proof.
  intros Hg Ht Ep Hc Hq. still Hg Ht Ep.
  - rewrite H. f_equal. repeat case_decide; lia.
  - repeat case_decide; lia.
Qed.

Lemma leave_good n s t :
  good n s → t < n → at_pc (thr s t) = Wake 2 →
  good n (after s (<[t := update sense (λ z, if decide (z = 0%Z) then 1%Z else 0%Z) (nod s t)]> (nodes s)) t Out).
Proof.
  intros Hg Ht Ep. fields_set Hg Ht Ep Ht.
  - rewrite (mcs_sense_S (S _)). by rewrite H.
  - rewrite H, decide_True by done. f_equal. lia.
  - destruct H as [H1 H2]. split; [lia|]. intros Hr. specialize (H2 Hr). lia.
  - rewrite decide_True in H by done. lia.
Qed.

(** A pending read or write of thread [t] can always be carried out, unless it waits
    for its children or its parent. *)
Definition waits (s : state) (t : nat) : Prop :=
  at_pc (thr s t) = Await_children ∧ value (cn (nod s t)) ≠ 0%Z ∨
  at_pc (thr s t) = Await_parent ∧ parent_sense (nod s t) ≠ sense (nod s t).

Lemma exec_cases n s t :
  good n s → t < n →
  exec s t = None ∧ waits s t ∨
  ∃ l p, exec s t = Some (Ok (after s l t p)) ∧ good n (after s l t p).
Proof.
  intros Hg Ht. unfold exec.
  rewrite (thr_lookup n s t Hg Ht). cbn [mbind option_bind]. rewrite (nodes_lookup n s Hg t Ht).
  destruct (gd_shape _ _ Hg t Ht) as (Hp & Hw & _). rewrite init_node_eq in Hp, Hw.
  cbn [parent_ptr wakeup_ptrs] in Hp, Hw.
  destruct (at_pc (thr s t)) as [| | | | |j] eqn:Ep; cbn [gtmp_barrier].
  - right. exists (nodes s), Await_children. split; [done|]. by apply enter_good.
  - destruct (decide (value (cn (nod s t)) ≠ 0%Z)) as [Hv|Hv]; [left; split; [done|by left]|].
    right. exists (nodes s), Reset. split; [done|]. apply collect_good; [done..|]. by apply dec_stable.
  - right. eexists _, Signal. split; [reflexivity|]. by apply reset_good.
  - right. rewrite Hp. destruct (decide (t ≠ 0)) as [Hne|H0].
    + destruct (arrival_parent t Hne) as (p & c & Hc & Eq).
      assert ((t - 1) / 4 = p ∧ (t - 1) `mod` 4 = c) as [-> ->].
      { subst t. replace (4 * p + 1 + c - 1) with (c + p * 4) by lia.
        rewrite Nat.div_add, Nat.Div0.mod_add, Nat.div_small, Nat.mod_small by lia. lia. }
      assert (length (cn (nod s p)) = 4) as Hl by (apply (gd_shape _ _ Hg p); lia).
      unfold store_cn. cbn [fst snd]. rewrite (nodes_lookup n s Hg p) by lia.
      rewrite decide_True by lia. eexists _, Await_parent. split; [reflexivity|]. by apply signal_good.
    + assert (t = 0) as -> by lia. exists (nodes s), (Wake 0). split; [done|]. by apply root_good.
  - destruct (decide (parent_sense (nod s t) ≠ sense (nod s t))) as [Hv|Hv];
      [left; split; [done|by right]|].
    right. exists (nodes s), (Wake 0). split; [done|]. apply parent_good; [done..|]. by apply dec_stable.
  - right. pose proof (gd_wake _ _ Hg t j Ep) as Hj. clear Hp. destruct (decide (j < 2)) as [Hj2|Hj2].
    + rewrite Hw, list_lookup_fmap. destruct j as [|[|]]; [| |lia]; cbn; case_decide as Hc.
      all: try (eexists _, _; split; [reflexivity|]; apply no_wake_good; [done..|cbn; lia]).
      all: unfold store_parent_sense; rewrite (nodes_lookup n s Hg) by done.
      all: eexists _, _; split; [reflexivity|]; apply wake_child_good; cbn; try done; lia.
    + assert (j = 2) as -> by lia. eexists _, Out. split; [reflexivity|]. by apply leave_good.
Qed.

Lemma exec_lt n s t r : good n s → exec s t = Some r → t < n.
Proof.
  intros Hg E. unfold exec in E. destruct (threads s !! t) as [th|] eqn:Et; [|done].
  rewrite <-(gd_threads _ _ Hg). by eapply lookup_lt_Some.
Qed.

Lemma step_mcs_good n s s' : good n s → step s s' → good n s'.
Proof.
  intros Hg [t E]. pose proof (exec_lt _ _ _ _ Hg E) as Ht.
  destruct (exec_cases n s t Hg Ht) as [[E' _]|(l & p & E' & Hg')]; rewrite E in E'; [done|].
  by injection E' as ->.
Qed.

Lemma init_mcs_good n s : gtmp_init 0 n = Ok s → good n s.
Proof.
  intros [= <-].
  assert (∀ i, thr (State n (init_node n <$> seq 0 n) (replicate n (Thread Out 0 0))) i = Thread Out 0 0) as Hth.
  { intros i. unfold thr. cbn. destruct (replicate n (Thread Out 0 0) !! i) eqn:E; [|done].
    by apply lookup_replicate in E as [-> _]. }
  assert (∀ i, i < n → nod (State n (init_node n <$> seq 0 n) (replicate n (Thread Out 0 0))) i = init_node n i) as Hnd.
  { intros i Hi. unfold nod. cbn. by rewrite list_lookup_fmap, lookup_seq_lt. }
  split; cbn; try (by autorewrite with len).
  - intros i Hi. rewrite Hnd by done. rewrite init_node_eq. unfold same_shape. by split_and!.
  - intros i Hi. rewrite Hnd, Hth by done. by rewrite init_node_eq.
  - intros i k Hk Hi. rewrite Hnd, !Hth by lia. rewrite init_node_eq. cbn [cn].
    rewrite four_lookup by done. unfold flag. by rewrite decide_True.
  - intros i k Hk Hi Hn. rewrite Hnd by lia. rewrite init_node_eq. cbn [cn].
    rewrite four_lookup by done. unfold flag. by rewrite decide_False by lia.
  - intros i k Hk Hi. rewrite Hnd, !Hth by lia. by rewrite init_node_eq.
  - intros i k Hk Hi. rewrite !Hth. by split.
  - intros i k Hk Hi. by rewrite !Hth.
  - by rewrite Hth.
  - intros i Hi. by rewrite Hth.
  - intros i j. by rewrite Hth.
Qed.

Lemma mcs_good n s : reachable (λ s, gtmp_init 0 n = Ok s) step s → good n s.
Proof. revert s. apply invariant_ind; [apply init_mcs_good|apply step_mcs_good]. Qed.

(** *** Progress *)

Definition stage (p : pc) : nat :=
  match p with
  | Out => 0 | Await_children => 1 | Reset => 2 | Signal => 3 | Await_parent => 4 | Wake j => 5 + j
  end.

Definition progress (th : thread) : nat := 8 * returns th + stage (at_pc th).

Lemma exec_progress n s t s' :
  good n s → exec s t = Some (Ok s') →
  ∃ th', threads s' = <[t := th']> (threads s) ∧ progress (thr s t) < progress th'.
Proof.
  intros Hg E. pose proof (gd_wake _ _ Hg t) as Hj. unfold thr in *. unfold exec in E.
  destruct (threads s !! t) as [th|] eqn:Et; [|done]. cbn in E, Hj |- *.
  destruct (nodes s !! t) as [x|]; [|done].
  destruct (gtmp_barrier t x (at_pc th) (nodes s)) as [[[l p]|f]|] eqn:Eb; [|done|done].
  injection E as <-. cbn. eexists. split; [done|]. unfold progress, moved. cbn.
  assert (∃ l, gtmp_barrier t x (at_pc th) (nodes s) = Some (Ok (l, p))) as [l' Eb'] by by exists l.
  clear Eb. destruct (at_pc th) as [| | | | |j]; cbn [gtmp_barrier] in Eb'.
  - injection Eb' as _ <-. cbn. lia.
  - case_decide; [done|]. injection Eb' as _ <-. cbn. lia.
  - injection Eb' as _ <-. cbn. lia.
  - injection Eb' as Eb'. destruct (parent_ptr x) as [q|].
    + destruct (store_cn q 0 (nodes s)); [|done]. injection Eb' as _ <-. cbn. lia.
    + injection Eb' as _ <-. cbn. lia.
  - case_decide; [done|]. injection Eb' as _ <-. cbn. lia.
  - specialize (Hj j eq_refl). case_decide.
    + injection Eb' as Eb'. destruct (wakeup_ptrs x !! j) as [[q|]|]; [| |done].
      * destruct (store_parent_sense q (sense x) (nodes s)); [|done]. injection Eb' as _ <-. cbn. lia.
      * injection Eb' as _ <-. cbn. lia.
    + injection Eb' as _ <-. cbn. lia.
Qed.

Section progress.
Context (n : nat) (s : state) (Hg : good n s).

(** The episode of the root; the others are in it or have not left the one before. *)
Lemma returns_close i : i < n → returns (thr s i) ≤ signals (thr s 0) ≤ S (returns (thr s i)).
Proof.
  intros Hi. pose proof (root_least n s Hg i Hi). pose proof (root_woken n s Hg i Hi).
  pose proof (root_same n s Hg). pose proof (counters (thr s i) 0). lia.
Qed.

(** Upwards in the tree of wake-ups somebody can be woken or wake somebody. *)
Lemma wakeup_mover t :
  t < n → S (returns (thr s t)) = signals (thr s 0) →
  ∃ u, u < n ∧ S (returns (thr s u)) = signals (thr s 0) ∧ ¬ waits s u.
Proof.
  induction t as [t IH] using lt_wf_ind. intros Ht Hr.
  destruct (decide (at_pc (thr s t) = Await_parent)) as [Ep|Ep].
  2: { exists t. split; [done|]. split; [done|]. intros [[Ep' _]|[? _]]; [|done].
       pose proof (root_least n s Hg t Ht) as Hs. unfold signals in Hs, Hr. rewrite Ep' in Hs. cbn in Hs. lia. }
  destruct (decide (parent_sense (nod s t) = sense (nod s t))) as [Es|Es].
  { exists t. split; [done|]. split; [done|]. intros [[? _]|[_ ?]]; congruence. }
  assert (t ≠ 0) as [p [c [Hc Eq]]]%wakeup_parent by (intros ->; by destruct (gd_root _ _ Hg)).
  apply (IH p); [lia|lia|]. subst t. pose proof (sent_close n s Hg p c Hc Ht) as Hcl.
  rewrite (gd_parent_sense _ _ Hg p c Hc Ht), (gd_sense _ _ Hg _ Ht) in Es.
  pose proof (root_least n s Hg p ltac:(lia)). pose proof (counters (thr s p) c).
  pose proof (counters (thr s (2 * p + 1 + c)) 0).
  assert (sent (thr s p) c ≠ S (returns (thr s (2 * p + 1 + c)))) by congruence. lia.
Qed.

(** When everybody has returned, somebody downwards in the tree of arrivals is not
    waiting for its children. *)
Lemma arrival_mover t :
  (∀ i, i < n → returns (thr s i) = signals (thr s 0)) →
  t < n → signals (thr s t) = signals (thr s 0) → ∃ u, u < n ∧ ¬ waits s u.
Proof.
  intros Hall. remember (n - t) as m eqn:Em. revert t Em.
  induction m as [m IH] using lt_wf_ind. intros t -> Ht Hs.
  specialize (Hall t Ht) as Hr.
  assert (at_pc (thr s t) ≠ Await_parent) as Hp.
  { intros Ep. unfold signals in Hs at 1. rewrite Ep in Hs. cbn in Hs. lia. }
  destruct (decide (value (cn (nod s t)) = 0%Z)) as [Hv|Hv].
  { exists t. split; [done|]. intros [[_ ?]|[? _]]; congruence. }
  destruct (decide (at_pc (thr s t) = Await_children)) as [Ep|Ep].
  2: { exists t. split; [done|]. intros [[? _]|[? _]]; congruence. }
  destruct (decide (Exists (λ k, cn (nod s t) !! k ≠ Some 0%Z) (seq 0 4))) as [Hex|Hex].
  - apply list.Exists_exists in Hex as (k & Hk%elem_of_seq & Hne).
    destruct (decide (4 * t + 1 + k < n)) as [Hc|Hc].
    2: { destruct Hne. apply (gd_no_child _ _ Hg); lia. }
    apply (IH (n - (4 * t + 1 + k)) ltac:(lia) (4 * t + 1 + k) eq_refl Hc).
    rewrite (gd_cn _ _ Hg t k ltac:(lia) Hc) in Hne.
    pose proof (signals_close n s Hg (4 * t + 1 + k) 0 Hc ltac:(lia)).
    pose proof (root_least n s Hg (4 * t + 1 + k) Hc).
    assert (resets (thr s t) = returns (thr s t)) as Hrs by (unfold resets; rewrite Ep; cbn; lia).
    destruct (decide (signals (thr s (4 * t + 1 + k)) = signals (thr s 0))); [done|].
    destruct Hne. f_equal. lia.
  - destruct Hv. apply value_zero.
    + apply (gd_shape _ _ Hg t Ht).
    + intros k Hk. by apply (cn_flags n).
    + intros k Hk. apply dec_stable. intros Hne. apply Hex, list.Exists_exists.
      exists k. split; [apply elem_of_seq; lia|done].
Qed.

Lemma mcs_mover t k :
  t < n → returns (thr s t) < k → ∃ u, u < n ∧ returns (thr s u) < k ∧ ¬ waits s u.
Proof.
  intros Ht Hk. pose proof (returns_close t Ht) as Hc.
  destruct (decide (Exists (λ i, S (returns (thr s i)) = signals (thr s 0)) (seq 0 n))) as [Hex|Hex].
  - apply list.Exists_exists in Hex as (i & Hi%elem_of_seq & He).
    destruct (wakeup_mover i ltac:(lia) He) as (u & Hu & Heu & Hw). exists u.
    split; [done|]. split; [lia|done].
  - assert (∀ i, i < n → returns (thr s i) = signals (thr s 0)) as Hall.
    { intros i Hi. pose proof (returns_close i Hi).
      destruct (decide (returns (thr s i) = signals (thr s 0))); [done|]. destruct Hex.
      apply list.Exists_exists. exists i. split; [apply elem_of_seq; lia|lia]. }
    destruct (arrival_mover 0 Hall ltac:(lia) eq_refl) as (u & Hu & Hw). exists u.
    split; [done|]. split; [|done]. rewrite (Hall u Hu), <-(Hall t Ht). done.
Qed.
End progress.

Lemma mcs_entered n s t : good n s → t < n → entered (mcs_barrier n) s t = calls (thr s t).
Proof. intros Hg Ht. cbn. by rewrite (thr_lookup n s t Hg Ht). Qed.

Lemma mcs_left n s t : good n s → t < n → left (mcs_barrier n) s t = returns (thr s t).
Proof. intros Hg Ht. cbn. by rewrite (thr_lookup n s t Hg Ht). Qed.

Lemma after_limited n k s u l p :
  good n s → u < n → returns (thr s u) < k → exec s u = Some (Ok (after s l u p)) → good n (after s l u p) →
  limited (mcs_barrier n) k s (after s l u p).
Proof.
  intros Hg Hu Hk E Hg'. pose proof (thr_lookup n s u Hg Hu) as Eu.
  assert (thr (after s l u p) u = moved (thr s u) p) as Hth.
  { unfold thr at 1. cbn. rewrite list_lookup_insert_eq; [done|]. by eapply lookup_lt_Some. }
  apply (limited_by (mcs_barrier n) u).
  - by exists u.
  - intros t Hne. cbn. by rewrite list_lookup_insert_ne.
  - rewrite !mcs_entered, !mcs_left, Hth by done. unfold moved. cbn.
    destruct (is_out (at_pc (thr s u))) eqn:Eo; [right|by left]. destruct (at_pc (thr s u)) eqn:Ep; try done.
    unfold exec in E. rewrite Eu in E. cbn in E. rewrite Ep in E. destruct (nodes s !! u) as [x|]; [|done]. cbn in E.
    injection E as _ E. apply (f_equal (λ l, at_pc <$> l !! u)) in E.
    rewrite !list_lookup_insert_eq in E by by eapply lookup_lt_Some. cbn in E. by injection E as <-.
  - rewrite mcs_entered, mcs_left by done. rewrite (gd_calls _ _ Hg' u Hu). destruct (is_out _); lia.
  - by rewrite mcs_left.
Qed.

Lemma mcs_live n k s :
  good n s → ∃ s', rtc (limited (mcs_barrier n) k) s s' ∧ good n s' ∧ ∀ t, t < n → k ≤ returns (thr s' t).
Proof.
  apply (rank_reaches (limited (mcs_barrier n) k) (good n) (λ s, good n s ∧ ∀ t, t < n → k ≤ returns (thr s t))
    (λ s, sum_list_with (λ th, 8 * k - progress th) (threads s))).
  clear s. intros s Hg.
  destruct (decide (Exists (λ t, returns (thr s t) < k) (seq 0 n))) as [Hex|Hex].
  - right. apply list.Exists_exists in Hex as (t & Ht%elem_of_seq & Hr).
    destruct (mcs_mover n s Hg t k ltac:(lia) Hr) as (u & Hu & Hru & Hw).
    destruct (exec_cases n s u Hg Hu) as [[_ ?]|(l & p & E & Hg')]; [done|].
    exists (after s l u p). split; [by apply after_limited|]. split; [done|].
    destruct (exec_progress n s u _ Hg E) as (th' & -> & Hp).
    apply (sum_missing _ _ _ _ _ _ (thr_lookup n s u Hg Hu) Hp). unfold progress.
    assert (stage (at_pc (thr s u)) < 8); [|lia]. pose proof (gd_wake _ _ Hg u) as Hj.
    destruct (at_pc (thr s u)) as [| | | | |j]; cbn; try lia. specialize (Hj j eq_refl). lia.
  - left. split; [done|]. intros t Ht. destruct (decide (k ≤ returns (thr s t))); [done|]. destruct Hex.
    apply list.Exists_exists. exists t. split; [apply elem_of_seq; lia|lia].
Qed.

Lemma mcs_correct (n : nat) : Correct (mcs_barrier n).
Proof.
  split; [|intros s Hs; apply mcs_good in Hs..].
  { intros s [= <-] t. cbn. destruct (replicate _ _ !! t) eqn:E; [|done]. by apply lookup_replicate in E as [-> _]. }
  - intros t Ht. rewrite mcs_entered, mcs_left by done. rewrite (gd_calls _ _ Hs t Ht). destruct (is_out _); lia.
  - intros t u Ht Hu. rewrite mcs_entered, mcs_left by done.
    pose proof (woken_signalled n s Hs t u Ht Hu). pose proof (counters (thr s t) 0).
    rewrite (gd_calls _ _ Hs u Hu). unfold signals in *. destruct (at_pc (thr s u)); cbn in *; lia.
  - intros k. destruct (mcs_live n k s Hs) as (s' & Hst & Hg' & Hall). exists s'. split; [done|].
    intros t Ht. rewrite mcs_left by done. by apply Hall.
Qed.

(** ** Properties *)


(** The pointers of a node lead to nodes and bytes that exist, its bytes are flags
    and its senses are 0 or 1. *)
Definition node_ok (n i : nat) (x : node) : Prop :=
  (∀ p k, parent_ptr x = Some (p, k) → p < n ∧ k < 4) ∧
  (∀ j, j < 2 → ∃ q, wakeup_ptrs x !! j = Some q ∧ ∀ c, q = Some c → c < n) ∧
  (sense x = 0%Z ∨ sense x = 1%Z) ∧
  (i ≠ 0 → parent_sense x = 0%Z ∨ parent_sense x = 1%Z) ∧
  (∀ k, k < 4 → cn x !! k = Some 0%Z ∨ cn x !! k = Some 1%Z).

Lemma sense_of_flag e : sense_of e = 0%Z ∨ sense_of e = 1%Z.
Proof. unfold sense_of. destruct (Nat.odd e); auto. Qed.

Lemma good_node_ok n s i : good n s → i < n → node_ok n i (nod s i).
Proof.
  intros Hg Hi. destruct (gd_shape _ _ Hg i Hi) as (Hp & Hw & _). rewrite init_node_eq in Hp, Hw.
  split_and!.
  - intros p k. rewrite Hp. cbn [parent_ptr]. destruct (decide (i ≠ 0)); [|done].
    intros E. apply (inj Some) in E.
    assert (p = (i - 1) / 4 ∧ k = (i - 1) `mod` 4) as [-> ->] by by split; injection E.
    pose proof (Nat.mod_upper_bound (i - 1) 4). pose proof (Nat.Div0.div_le_upper_bound (i - 1) 4 (i - 1)). lia.
  - intros j Hj. rewrite Hw. cbn [wakeup_ptrs]. rewrite list_lookup_fmap.
    clear Hp Hw. destruct j as [|[|]]; [| |lia]; cbn; eexists; (split; [done|]); intros c;
      case_decide; intros Ec; [|done| |done]; injection Ec; lia.
  - rewrite (gd_sense _ _ Hg i Hi). apply sense_of_flag.
  - intros [p [c [Hc ->]]]%wakeup_parent. rewrite (gd_parent_sense _ _ Hg p c Hc Hi). apply sense_of_flag.
  - intros k Hk. by apply (cn_flags n).
Qed.


(** ** Witnesses *)

(** The threads of a list take a step each, in its order, where they can. *)
Definition play (s : state) (ts : list nat) : state :=
  foldl (λ s t, match exec s t with Some (Ok s') => s' | _ => s end) s ts.

Lemma play_mcs ts n s :
  reachable (λ s, gtmp_init 0 n = Ok s) step s → reachable (λ s, gtmp_init 0 n = Ok s) step (play s ts).
Proof.
  revert s. induction ts as [|t ts IH]; intros s Hs; [done|]. apply IH. cbn.
  destruct (exec s t) as [[s'|]|] eqn:E; [|done..]. eapply reachable_step; [exact Hs|]. by exists t.
Qed.

(** Three threads; the first has returned once and waits for its children again. *)
Definition demo : state :=
  play (State 3 (init_node 3 <$> seq 0 3) (replicate 3 (Thread Out 0 0)))
    [1; 1; 1; 1; 2; 2; 2; 2; 0; 0; 0; 0; 0; 0; 0; 0; 1].

Lemma mcs_demo_reachable : reachable (λ s, gtmp_init 0 3 = Ok s) step demo.
Proof. apply play_mcs. by apply reachable_init. Qed.

