(* ===== verification/CombinedBarrier.v ===== *)
(** * The combined barrier (project2/combined/combined.c)

    A sense-reversing barrier among the threads of each process, whose last thread
    goes through the rounds of a dissemination barrier among the processes before
    it resets the count.  The code is that of gtmp1.c with the rounds of gtmpi1.c
    in the branch of the last thread; the model composes the two models and the
    proofs use what SenseBarrier.v and Dissemination.v have shown of each. *)
From S2P Require Import Prelude Barrier SenseBarrier Network Dissemination.

(** The variables of every process, and the messages with the place of each
    process in the rounds. *)
Record state := State { local : list SenseBarrier.state; net : network }.

Section combined.
Context (P T : nat).

(** The loop over the rounds (lines 34 to 46). *)
Definition rounds (rank : nat) : list op := gtmpi_barrier (Z.of_nat P) rank.

(** [combined_init], in every process. *)
Definition combined_init : state :=
  State (replicate P (SenseBarrier.gtmp_init (Z.of_nat T))) (start P).

(** The next access of thread [t] of process [r].  The last thread to subtract
    begins the rounds; it executes their operations; and it resets the count when
    they have ended. *)
Definition combined_barrier_step (any : Z) (r t : nat) (s : state) : option (res state) :=
  l ← local s !! r;
  th ← threads l !! t;
  match at_pc th with
  | SetCount _ =>
    p ← processes (net s) !! r;
    i ← at_op p;
    match rounds r !! i with
    | Some _ => net' ← Network.exec P rounds any r (net s); Some (net' ← net'; mret (State (local s) net'))
    | None =>
      l' ← SenseBarrier.exec l t;
      net' ← Network.exec P rounds any r (net s);
      Some (net' ← net'; mret (State (<[r := l']> (local s)) net'))
    end
  | Sub _ =>
    l' ← SenseBarrier.exec l t;
    if (count l =? 1)%Z then
      net' ← Network.exec P rounds any r (net s);
      Some (net' ← net'; mret (State (<[r := l']> (local s)) net'))
    else Some (mret (State (<[r := l']> (local s)) (net s)))
  | _ =>
    l' ← SenseBarrier.exec l t;
    Some (mret (State (<[r := l']> (local s)) (net s)))
  end.

Definition step (s s' : state) : Prop := ∃ any r t, combined_barrier_step any r t s = Some (Ok s').
Definition fails (s : state) : Prop := ∃ any r t f, combined_barrier_step any r t s = Some (Err f).

Definition thread_of (s : state) (r t : nat) : thread :=
  default (Thread Out 0 0) (l ← local s !! r; threads l !! t).

(** The barrier of the [T] threads of each of [P] processes. *)
Definition combined_barrier : barrier := {|
  participants := P * T;
  bstate := state;
  binit := eq combined_init;
  bstep := step;
  entered := λ s g, SenseBarrier.calls (thread_of s (g / T) (g `mod` T));
  left := λ s g, SenseBarrier.returns (thread_of s (g / T) (g `mod` T))
|}.

(** ** Invariant *)

(** How the episode of the threads of a process and its part go with the place of
    the process in the rounds. *)
Definition link (e : nat) (b : part) (p : process) : Prop :=
  match b with
  | Gathering => at_op p = None ∧ returns p = e
  | Counting => at_op p ≠ None ∧ returns p = e
  | Opening => at_op p = None ∧ returns p = S e
  end.

Definition process_good (l : SenseBarrier.state) (p : process) : Prop :=
  ∃ e b, good_in T e b l ∧ link e b p.

Record good (s : state) : Prop := {
  gd_local : length (local s) = P;
  gd_net : reachable (eq (start P)) (Network.step P rounds) (net s);
  gd_process r l : local s !! r = Some l → process_good l (proc (net s) r)
}.

Context (HP : (1 ≤ Z.of_nat P ≤ 2 ^ 30)%Z) (HT1 : 1 ≤ T) (HT : (Z.of_nat T < 2 ^ 31)%Z).

(** The kinds of steps. *)
Inductive kind (any : Z) (r t : nat) (l : SenseBarrier.state) (th : thread) (n : network) :
    option SenseBarrier.state → option network → Prop :=
| Local l' : (∀ my, at_pc th ≠ SetCount my) → wins l th = false → SenseBarrier.exec l t = Some l' →
    kind any r t l th n (Some l') None
| Begin l' n' : wins l th = true → SenseBarrier.exec l t = Some l' →
    Network.exec P rounds any r n = Some (Ok n') → kind any r t l th n (Some l') (Some n')
| Round my i o n' : at_pc th = SetCount my → at_op (proc n r) = Some i → rounds r !! i = Some o →
    Network.exec P rounds any r n = Some (Ok n') → kind any r t l th n None (Some n')
| End my i l' n' : at_pc th = SetCount my → at_op (proc n r) = Some i → rounds r !! i = None →
    SenseBarrier.exec l t = Some l' →
    Network.exec P rounds any r n = Some (Ok n') → kind any r t l th n (Some l') (Some n').

Definition after (s : state) (r : nat) (l' : option SenseBarrier.state) (n' : option network) : state :=
  State (from_option (λ l', <[r := l']> (local s)) (local s) l') (default (net s) n').

(** A step is of one of the kinds, or fails because the network does. *)
Lemma step_kind any r t s x :
  combined_barrier_step any r t s = Some x →
  ∃ l th, local s !! r = Some l ∧ threads l !! t = Some th ∧
    ((∃ l' n', x = Ok (after s r l' n') ∧ kind any r t l th (net s) l' n') ∨
     (∃ f, x = Err f ∧ Network.exec P rounds any r (net s) = Some (Err f))).
Proof.
  intros E. unfold combined_barrier_step in E. destruct (local s !! r) as [l|] eqn:El; [|done]. cbn in E.
  destruct (threads l !! t) as [th|] eqn:Et; [|done]. cbn in E. exists l, th. split; [done|]. split; [done|].
  assert (∀ b : bool, wins l th = b → (∀ my, at_pc th ≠ SetCount my) → b = false →
    (l' ← SenseBarrier.exec l t; Some (Ok (State (<[r := l']> (local s)) (net s)))) = Some x →
    (∃ l' n', x = Ok (after s r l' n') ∧ kind any r t l th (net s) l' n') ∨
    (∃ f, x = Err f ∧ Network.exec P rounds any r (net s) = Some (Err f))) as Hlocal.
  { intros b Hw Hp -> E1. destruct (SenseBarrier.exec l t) as [l'|] eqn:Ex; [|done]. injection E1 as <-.
    left. exists (Some l'), None. split; [done|]. by constructor. }
  destruct (at_pc th) as [|my|my|my|my] eqn:Ep.
  - by apply (Hlocal false); [unfold wins; rewrite Ep|..].
  - destruct (count l =? 1)%Z eqn:Ec.
    + destruct (SenseBarrier.exec l t) as [l'|] eqn:Ex; [|done]. cbn in E.
      destruct (Network.exec P rounds any r (net s)) as [[n'|f]|] eqn:En; [| |done]; injection E as <-.
      * left. exists (Some l'), (Some n'). split; [done|]. constructor; [|done..]. unfold wins. by rewrite Ep.
      * right. by exists f.
    + apply (Hlocal false); [|done|done|].
      * unfold wins. by rewrite Ep.
      * by destruct (SenseBarrier.exec l t).
  - destruct (processes (net s) !! r) as [p|] eqn:Epr; [|done]. cbn in E.
    destruct (at_op p) as [i|] eqn:Ei; [|done]. cbn in E.
    assert (at_op (proc (net s) r) = Some i) as Ei' by (unfold proc; by rewrite Epr).
    destruct (rounds r !! i) as [o|] eqn:Eo.
    + destruct (Network.exec P rounds any r (net s)) as [[n'|f]|] eqn:En; [| |done]; injection E as <-.
      * left. exists None, (Some n'). split; [done|]. by eapply Round.
      * right. by exists f.
    + destruct (SenseBarrier.exec l t) as [l'|] eqn:Ex; [|done]. cbn in E.
      destruct (Network.exec P rounds any r (net s)) as [[n'|f]|] eqn:En; [| |done]; injection E as <-.
      * left. exists (Some l'), (Some n'). split; [done|]. by eapply End.
      * right. by exists f.
  - by apply (Hlocal false); [unfold wins; rewrite Ep|..].
  - by apply (Hlocal false); [unfold wins; rewrite Ep|..].
Qed.

(** *** Steps *)

Lemma init_combined_good : good combined_init.
Proof.
  split.
  - cbn. by rewrite length_replicate.
  - apply network_start_reachable.
  - intros r l [-> _]%lookup_replicate. exists 0, Gathering.
    split; [by apply init_good|]. cbn. by rewrite proc_start.
Qed.

(** What a step of the network does to the process that makes it. *)
Lemma net_step any r n n' :
  Network.exec P rounds any r n = Some (Ok n') →
  ∃ p', (∀ u, proc n' u = if decide (u = r) then p' else proc n u) ∧
    match at_op (proc n r) with
    | None => at_op p' ≠ None ∧ returns p' = returns (proc n r)
    | Some i =>
      match rounds r !! i with
      | Some _ => at_op p' ≠ None ∧ returns p' = returns (proc n r)
      | None => at_op p' = None ∧ returns p' = S (returns (proc n r))
      end
    end.
Proof.
  intros (Hr & p' & f' & Hm & ->)%exec_move. exists p'. split; [intros u; by apply proc_put|].
  destruct Hm as [Ha|i Ha Ho|i o f1 b' Ha Ho He]; rewrite Ha; rewrite ?Ho; by split.
Qed.

(** The process that moves stays good. *)
Lemma kind_process any r t l th n l' n' :
  process_good l (proc n r) → threads l !! t = Some th → kind any r t l th n l' n' →
  process_good (default l l') (proc (default n n') r).
Proof.
  intros (e & b & Hg & Hlink) Ht Hk. destruct Hk as [l' Hp Hw Hx|l' n' Hw Hx Hn|my i o n' Hp Ha Ho Hn|my i l' n' Hp Ha Ho Hx Hn]; cbn.
  - pose proof (good_in_step _ _ _ _ _ _ _ HT1 HT Hg Ht Hx) as Hs. destruct b; cbn in Hs.
    + rewrite Hw in Hs. by exists e, Gathering.
    + destruct Hs as [[my Hmy] _]. by destruct (Hp my).
    + destruct Hs as [_ Hs]. by exists (S e), Gathering.
  - pose proof (good_in_step _ _ _ _ _ _ _ HT1 HT Hg Ht Hx) as Hs.
    destruct (net_step _ _ _ _ Hn) as (p' & -> & Hp'). rewrite decide_True by done.
    unfold wins in Hw. destruct b; cbn in Hs.
    + unfold wins in Hs. rewrite Hw in Hs. destruct Hlink as [Ha Hr]. rewrite Ha, Hr in Hp'.
      by exists e, Counting.
    + destruct Hs as [[my Hmy] _]. by rewrite Hmy in Hw.
    + destruct Hs as [[my Hmy] _]. by rewrite Hmy in Hw.
  - pose proof (counting_part _ _ _ _ _ _ _ Hg Ht Hp) as ->. destruct Hlink as [_ Hr].
    destruct (net_step _ _ _ _ Hn) as (p' & -> & Hp'). rewrite decide_True by done.
    rewrite Ha, Ho, Hr in Hp'. by exists e, Counting.
  - pose proof (counting_part _ _ _ _ _ _ _ Hg Ht Hp) as ->. destruct Hlink as [_ Hr].
    pose proof (good_in_step _ _ _ _ _ _ _ HT1 HT Hg Ht Hx) as [_ Hs].
    destruct (net_step _ _ _ _ Hn) as (p' & -> & Hp'). rewrite decide_True by done.
    rewrite Ha, Ho, Hr in Hp'. by exists e, Opening.
Qed.

Lemma kind_net any r t l th n l' n' :
  kind any r t l th n l' n' → match n' with Some n' => Network.step P rounds n n' ∧
    (∀ u, u ≠ r → proc n' u = proc n u) | None => True end.
Proof.
  assert (∀ n', Network.exec P rounds any r n = Some (Ok n') → Network.step P rounds n n' ∧
    (∀ u, u ≠ r → proc n' u = proc n u)) as H.
  { intros n1 Hn. split; [by exists any, r|]. intros u Hu.
    destruct (net_step _ _ _ _ Hn) as (p' & -> & _). by rewrite decide_False. }
  intros Hk. destruct Hk; auto.
Qed.

Lemma good_after any r t s l th l' n' :
  good s → local s !! r = Some l → threads l !! t = Some th → kind any r t l th (net s) l' n' →
  good (after s r l' n').
Proof.
  intros [Hlen Hnet Hproc] Hl Ht Hk. pose proof (kind_net _ _ _ _ _ _ _ _ Hk) as Hn.
  assert (local (after s r l' n') = <[r := default l l']> (local s)) as El.
  { destruct l'; cbn; [done|]. by rewrite list_insert_id. }
  split.
  - rewrite El. by rewrite length_insert.
  - destruct n'; [|done]. destruct Hn as [Hn _]. by eapply reachable_step.
  - rewrite El. intros u x [(<- & <- & _)|[Hne Hx]]%list_lookup_insert_Some.
    + apply (kind_process any r t l th (net s)); [by apply Hproc|done|done].
    + specialize (Hproc u x Hx). destruct n'; [|done]. destruct Hn as [_ Hn]. cbn. rewrite Hn; [done|congruence].
Qed.

Lemma combined_step_good s any r t x :
  good s → combined_barrier_step any r t s = Some x → ∃ s', x = Ok s' ∧ good s'.
Proof.
  intros Hg E. destruct (step_kind _ _ _ _ _ E) as (l & th & Hl & Ht & [(l' & n' & -> & Hk)|(f & -> & Hf)]).
  - eexists. split; [done|]. by eapply good_after.
  - destruct (dissemination_no_error P HP (net s) (gd_net _ Hg)). by exists any, r, f.
Qed.

Lemma combined_good s : reachable (eq combined_init) step s → good s.
Proof.
  revert s. apply invariant_ind.
  - intros s <-. apply init_combined_good.
  - intros s s' Hg (any & r & t & E). destruct (combined_step_good _ _ _ _ _ Hg E) as (? & [= <-] & ?). done.
Qed.

(** *** Safety *)

Lemma thread_process s r t :
  good s → r < P → t < T →
  ∃ l th e b, local s !! r = Some l ∧ threads l !! t = Some th ∧ thread_of s r t = th ∧
    good_in T e b l ∧ link e b (proc (net s) r) ∧
    SenseBarrier.returns th ≤ returns (proc (net s) r) ∧
    calls (proc (net s) r) ≤ SenseBarrier.calls th ∧
    SenseBarrier.returns th ≤ SenseBarrier.calls th ≤ S (SenseBarrier.returns th).
Proof.
  intros [Hlen Hnet Hproc] Hr Ht.
  assert (is_Some (local s !! r)) as [l El] by (apply lookup_lt_is_Some; lia).
  destruct (Hproc r l El) as (e & b & Hg & Hlink).
  assert (is_Some (threads l !! t)) as [th Et] by (apply lookup_lt_is_Some; by rewrite (gd_threads _ _ _ _ Hg)).
  exists l, th, e, b. split; [done|]. split; [done|].
  split; [unfold thread_of; rewrite El; cbn; by rewrite Et|]. split; [done|]. split; [done|].
  destruct (good_in_calls _ _ _ _ _ _ Hg Et) as (H1 & H2 & H3).
  pose proof (sd_calls P rounds _ (reachable_sound P rounds _ Hnet) r) as Hc.
  destruct b; cbn in Hlink; destruct Hlink as [Ha Hret].
  - rewrite Ha in Hc. lia.
  - destruct (at_op (proc (net s) r)); [|done]. destruct H3; [done|]. lia.
  - rewrite Ha in Hc. destruct H3; [done|]. lia.
Qed.

Lemma combined_separates s r t u v :
  good s → r < P → t < T → u < P → v < T →
  SenseBarrier.returns (thread_of s r t) ≤ SenseBarrier.calls (thread_of s u v).
Proof.
  intros Hg Hr Ht Hu Hv.
  destruct (thread_process s r t Hg Hr Ht) as (_ & th & _ & _ & _ & _ & -> & _ & _ & H1 & _).
  destruct (thread_process s u v Hg Hu Hv) as (_ & th' & _ & _ & _ & _ & -> & _ & _ & _ & H2 & _).
  pose proof (dissemination_separates P HP (net s) (gd_net _ Hg) r u Hr Hu). lia.
Qed.

(** *** Progress *)

Abbreviation w := (2 * num_rounds (Z.of_nat P) + 2).

Definition rank (k : nat) (s : state) : nat :=
  sum_list_with (SenseBarrier.missing k) (local s) + Network.missing w k (net s).

Lemma rounds_bound r : length (rounds r) + 2 ≤ w.
Proof. unfold rounds. rewrite (rounds_length P). lia. Qed.

Lemma net_missing any r n n' k :
  sound P rounds n → Network.exec P rounds any r n = Some (Ok n') →
  Network.missing w k n' ≤ Network.missing w k n ∧
  (returns (proc n r) < k → Network.missing w k n' < Network.missing w k n).
Proof. apply (exec_missing P rounds w rounds_bound k). Qed.

#[local] Arguments Network.missing : simpl never.
#[local] Arguments SenseBarrier.missing : simpl never.
#[local] Arguments Nat.mul : simpl never.

(** A step of a kind that a thread can take. *)
Lemma kind_exec any r t s l th l' n' :
  local s !! r = Some l → threads l !! t = Some th → kind any r t l th (net s) l' n' →
  combined_barrier_step any r t s = Some (Ok (after s r l' n')).
Proof.
  intros Hl Ht Hk. unfold combined_barrier_step. rewrite Hl. cbn. rewrite Ht. cbn.
  assert (∀ i, at_op (proc (net s) r) = Some i → ∃ p, processes (net s) !! r = Some p ∧ at_op p = Some i) as Hp.
  { unfold proc. intros i. destruct (processes (net s) !! r) as [p|]; [|done]. by exists p. }
  destruct Hk as [l' Hpc Hw Hx|l' n' Hw Hx Hn|my i o n' Hpc Ha Ho Hn|my i l' n' Hpc Ha Ho Hx Hn].
  - rewrite Hx. cbn. unfold wins in Hw. destruct (at_pc th) as [|my|my|my|my] eqn:Ep; try done.
    + by rewrite Hw.
    + by destruct (Hpc my).
  - rewrite Hx. cbn. unfold wins in Hw. destruct (at_pc th) as [|my|my|my|my] eqn:Ep; try done.
    rewrite Hw, Hn. done.
  - rewrite Hpc. destruct (Hp i Ha) as (p & -> & Hi). cbn. rewrite Hi. cbn. rewrite Ho, Hn. done.
  - rewrite Hpc. destruct (Hp i Ha) as (p & -> & Hi). cbn. rewrite Hi. cbn. rewrite Ho, Hx, Hn. done.
Qed.

Lemma rank_after k s r l l' n' :
  local s !! r = Some l →
  rank k (after s r l' n') + SenseBarrier.missing k l + Network.missing w k (net s) =
  rank k s + SenseBarrier.missing k (default l l') + Network.missing w k (default (net s) n').
Proof.
  intros Hl. unfold rank. cbn [local net after].
  pose proof (sum_insert (SenseBarrier.missing k) _ _ _ (default l l') Hl) as Hsum.
  destruct l' as [l'|]; cbn in *; [lia|]. rewrite list_insert_id in Hsum by done. lia.
Qed.

(** A step that brings the rank down, of a thread that has calls to complete. *)
Definition advances (k : nat) (s : state) : Prop :=
  ∃ s', limited combined_barrier k s s' ∧ good s' ∧ rank k s' < rank k s.

(** The counters of a thread after a step. *)
Lemma kind_counters any r t l th n l' n' :
  threads l !! t = Some th → kind any r t l th n l' n' →
  ∃ th', threads (default l l') = <[t := th']> (threads l) ∧
    (SenseBarrier.calls th' = SenseBarrier.calls th ∨ SenseBarrier.returns th' = SenseBarrier.returns th).
Proof.
  intros Ht Hk. assert (∀ l1, SenseBarrier.exec l t = Some l1 → ∃ th', threads l1 = <[t := th']> (threads l) ∧
    (SenseBarrier.calls th' = SenseBarrier.calls th ∨ SenseBarrier.returns th' = SenseBarrier.returns th)) as H.
  { intros l1 (th0 & th' & E & Es & Hc)%exec_counters. assert (th0 = th) as -> by congruence. by exists th'. }
  destruct Hk; cbn; try by apply H. exists th. split; [by rewrite list_insert_id|by left].
Qed.

Lemma kind_limited k any r t s l th l' n' :
  good s → local s !! r = Some l → threads l !! t = Some th → kind any r t l th (net s) l' n' →
  SenseBarrier.returns th < k → limited combined_barrier k s (after s r l' n').
Proof.
  intros Hg Hl Ht Hk Hlt. pose proof (good_after any r t s l th l' n' Hg Hl Ht Hk) as Hg'.
  destruct (kind_counters _ _ _ _ _ _ _ _ Ht Hk) as (th' & Hth & Hc).
  pose proof (gd_local _ Hg) as Hlen. pose proof (lookup_lt_Some _ _ _ Hl) as Hr. rewrite Hlen in Hr.
  assert (t < T) as HtT.
  { destruct (gd_process _ Hg r l Hl) as (e & b & Hin & _). rewrite <-(gd_threads _ _ _ _ Hin). by eapply lookup_lt_Some. }
  assert (local (after s r l' n') = <[r := default l l']> (local s)) as El.
  { destruct l'; cbn; [done|]. by rewrite list_insert_id. }
  assert (thread_of s r t = th) as E1 by (unfold thread_of; rewrite Hl; cbn; by rewrite Ht).
  assert (thread_of (after s r l' n') r t = th') as E2.
  { unfold thread_of. rewrite El, list_lookup_insert_eq by lia. cbn. rewrite Hth, list_lookup_insert_eq; [done|].
    by eapply lookup_lt_Some. }
  assert ((r * T + t) / T = r ∧ (r * T + t) `mod` T = t) as [Hdiv Hmod].
  { rewrite Nat.div_add_l, Nat.div_small, Nat.add_0_r, Nat.add_comm, Nat.Div0.mod_add, Nat.mod_small by lia. done. }
  apply (limited_by combined_barrier (r * T + t)); cbn.
  - exists any, r, t. by eapply kind_exec.
  - intros g Hne. unfold thread_of. rewrite El.
    destruct (decide (g / T = r)) as [Eg|Hd]; [|by rewrite list_lookup_insert_ne].
    rewrite Eg, list_lookup_insert_eq, Hl by lia. cbn. rewrite Hth.
    rewrite list_lookup_insert_ne; [done|]. intros Et. apply Hne. rewrite (Nat.div_mod_eq g T), Eg, <-Et. lia.
  - rewrite Hdiv, Hmod, E1, E2. done.
  - rewrite Hdiv, Hmod.
    destruct (thread_process _ r t Hg' Hr HtT) as (? & th1 & _ & _ & _ & _ & -> & _ & _ & _ & _ & H). lia.
  - by rewrite Hdiv, Hmod, E1.
Qed.

Lemma kind_advances k any r t s l th l' n' :
  good s → local s !! r = Some l → threads l !! t = Some th → kind any r t l th (net s) l' n' →
  SenseBarrier.returns th < k →
  SenseBarrier.missing k (default l l') + Network.missing w k (default (net s) n') <
    SenseBarrier.missing k l + Network.missing w k (net s) →
  advances k s.
Proof.
  intros Hg Hl Ht Hk Hret Hlt. exists (after s r l' n'). split; [|split].
  - by eapply kind_limited.
  - by eapply good_after.
  - pose proof (rank_after k s r l l' n' Hl). lia.
Qed.

Lemma good_sound s : good s → sound P rounds (net s).
Proof. intros Hg. apply reachable_sound, (gd_net _ Hg). Qed.

Lemma net_moves s r p' f' :
  good s → r < P → move P rounds r (proc (net s) r) (in_flight (net s)) p' f' →
  ∃ any n', Network.exec P rounds any r (net s) = Some (Ok n').
Proof.
  intros Hg Hr Hm. destruct (move_exec P rounds r (net s) p' f') as [any E]; [|done|by eexists _, _].
  by rewrite (sd_length _ _ _ (good_sound s Hg)).
Qed.

(** While the last thread is not in the rounds, some thread of the process that has
    to return can go on. *)
Lemma local_advances k s r t l e b th :
  good s → local s !! r = Some l → good_in T e b l → link e b (proc (net s) r) → b ≠ Counting →
  threads l !! t = Some th → SenseBarrier.returns th < k → advances k s.
Proof.
  intros Hg Hl Hin Hlink Hb Ht Hk.
  destruct (mover T e b k l t th Hin Ht Hk) as (u & x & l' & Hu & Hx & Hxk & Hmiss & Hcount).
  assert (∀ my, at_pc x ≠ SetCount my) as Hpc by (intros my Hmy; apply Hb, Hcount; by exists my).
  destruct (wins l x) eqn:Hw.
  - assert (at_op (proc (net s) r) = None) as Ha.
    { destruct b; [apply Hlink|done|apply Hlink]. }
    assert (r < P) as Hr by (rewrite <-(gd_local _ Hg); by eapply lookup_lt_Some).
    destruct (net_moves s r _ _ Hg Hr (Enter _ _ _ _ _ Ha)) as (any & n' & En).
    apply (kind_advances k any r u s l x (Some l') (Some n')); [done..|by constructor|done|]. cbn.
    destruct (net_missing any r (net s) n' k (good_sound s Hg) En) as [Hle _]. lia.
  - apply (kind_advances k 0 r u s l x (Some l') None); [done..|by constructor|done|]. cbn. lia.
Qed.

(** While it is, it can go on when its process can. *)
Lemma rounds_advance k s r l e :
  good s → local s !! r = Some l → good_in T e Counting l → link e Counting (proc (net s) r) →
  can_move P rounds (net s) r → e < k → advances k s.
Proof.
  intros Hg Hl Hin [Ha Hret] (p' & f' & Hm) Hk.
  assert (r < P) as Hr by (rewrite <-(gd_local _ Hg); by eapply lookup_lt_Some).
  destruct (net_moves s r p' f' Hg Hr Hm) as (any & n' & En).
  destruct (net_missing any r (net s) n' k (good_sound s Hg) En) as [_ Hlt].
  specialize (Hlt ltac:(lia)).
  destruct (at_op (proc (net s) r)) as [i|] eqn:Ei; [|done].
  pose proof (gd_phase _ _ _ _ Hin) as Hphase. inversion Hphase as [|t0 th0 Ht0 Hlead Hc Hothers|]; subst.
  pose proof Hlead as (Hca & Hre & Hp).
  destruct (rounds r !! i) as [o|] eqn:Eo.
  - apply (kind_advances k any r t0 s l th0 None (Some n')); [done..|by eapply Round|lia|]. cbn. lia.
  - destruct (arriving_moves (returns (proc (net s) r)) l th0 (gd_sense _ _ _ _ Hin)) as (x & Ex & Hpr); [tauto|].
    destruct (SenseBarrier.moves_missing k l t0 th0 x Ht0 Ex Hpr) as (l' & El' & Hmiss); [lia|].
    apply (kind_advances k any r t0 s l th0 (Some l') (Some n')); [done..|by eapply End|lia|]. cbn. lia.
Qed.

Lemma combined_advances k s r t :
  good s → r < P → t < T → SenseBarrier.returns (thread_of s r t) < k → advances k s.
Proof.
  intros Hg Hr Ht Hk.
  destruct (thread_process s r t Hg Hr Ht) as (l & th & e & b & Hl & Hth & Hof & Hin & Hlink & Hle & _).
  rewrite Hof in Hk.
  destruct (decide (b = Counting)) as [->|Hb]; [|by eapply local_advances].
  destruct (good_in_calls _ _ _ _ _ _ Hin Hth) as (_ & _ & He). destruct (He ltac:(done)) as [He1 _].
  pose proof (good_sound s Hg) as Hsd. pose proof Hlink as [_ Hret].
  destruct (furthest_behind P rounds w (net s) Hsd ltac:(lia)) as (u & Hu & Hmin).
  assert (returns (proc (net s) u) < k) as Huk.
  { pose proof (Hmin r Hr) as Hpos. pose proof (position_returns P rounds w rounds_bound (net s) r Hsd) as Hp.
    unfold position in Hpos at 1. nia. }
  pose proof (last_moves P HP (net s) (gd_net _ Hg) u Hu Hmin) as Hcan.
  destruct (thread_process s u 0 Hg Hu HT1) as (l' & th' & e' & b' & Hl' & Hth' & _ & Hin' & Hlink' & Hle' & _).
  destruct (decide (b' = Counting)) as [->|Hb'].
  - apply (rounds_advance k s u l' e'); [done..|]. destruct Hlink' as [_ <-]. done.
  - apply (local_advances k s u 0 l' e' b' th'); [done..|lia].
Qed.

Lemma combined_correct : Correct combined_barrier.
Proof.
  assert (∀ g, g < P * T → g / T < P ∧ g `mod` T < T) as Hindex.
  { intros g Hlt. split; [apply Nat.Div0.div_lt_upper_bound; lia|apply Nat.mod_upper_bound; lia]. }
  split; unfold one_call, separates, never_stuck; cbn; [|intros s Hs%combined_good..].
  { intros s <- g. cbn. unfold thread_of. cbn. destruct (replicate P _ !! _) as [l|] eqn:E; [|done].
    apply lookup_replicate in E as [-> _]. cbn. destruct (replicate _ _ !! _) eqn:E; [|done].
    by apply lookup_replicate in E as [-> _]. }
  - intros g [Hr Ht]%Hindex.
    destruct (thread_process s _ _ Hs Hr Ht) as (_ & th & _ & _ & _ & _ & -> & _ & _ & _ & _ & H). done.
  - intros g h [Hr Ht]%Hindex [Hu Hv]%Hindex. by apply combined_separates.
  - intros k. destruct (rank_reaches (limited combined_barrier k) good
      (λ s, ∀ g, g < P * T → k ≤ SenseBarrier.returns (thread_of s (g / T) (g `mod` T))) (rank k)) with (s := s)
      as (s' & Hst & Hall); [|done|by exists s'].
    intros s0 Hg.
    destruct (decide (Exists (λ g, SenseBarrier.returns (thread_of s0 (g / T) (g `mod` T)) < k) (seq 0 (P * T))))
      as [Hex|Hex].
    + right. apply list.Exists_exists in Hex as (g & Hlt%elem_of_seq & Hgk).
      destruct (Hindex g ltac:(lia)) as [Hr Ht]. by eapply combined_advances.
    + left. intros g Hlt. apply not_Exists_Forall in Hex; [|intros x; apply _].
      rewrite Forall_seq in Hex. specialize (Hex g ltac:(lia)). cbn in Hex. lia.
Qed.
End combined.

(** ** Properties *)

(** C26: the combined barrier keeps the promises of a barrier for all threads of all
    processes: no call returns before every thread of every process has begun the
    same call, and from every reachable state all threads can return any number of
    times; no process uses a rank outside the communicator.  This holds for any
    interleaving of the threads and any delays of the messages. *)
Theorem combined_barrier_correct (P T : nat) :
  (1 ≤ Z.of_nat P ≤ 2 ^ 30)%Z → 1 ≤ T → (Z.of_nat T < 2 ^ 31)%Z →
  Correct (combined_barrier P T) ∧
  ∀ s, reachable (eq (combined_init P T)) (step P) s → ¬ fails P s.
Proof.
  intros HP HT1 HT. split; [by apply combined_correct|].
  intros s Hs%(combined_good P T HP HT1 HT) (any & r & t & f & E).
  by destruct (combined_step_good P T HP HT1 HT s any r t _ Hs E) as (? & ? & _).
Qed.

(** ** Witnesses *)

(** Threads take steps in the order of a list of processes and threads; those that
    wait are passed over. *)
Definition play (P : nat) (ts : list (nat * nat)) (s : state) : state :=
  foldl (λ s rt, match combined_barrier_step P 0 rt.1 rt.2 s with Some (Ok s') => s' | _ => s end) s ts.

(** Two processes of two threads: after one round of the turns everybody has
    returned. *)
Example combined_run :
  (λ l, SenseBarrier.returns <$> threads l) <$>
    local (play 2 (concat (replicate 8 [(0, 0); (0, 1); (1, 0); (1, 1)])) (combined_init 2 2)) =
  [[1; 1]; [1; 1]].
Proof. by vm_compute. Qed.

Lemma combined_barrier_correct_witness :
  Correct (combined_barrier 2 2) ∧
  ∀ s, reachable (eq (combined_init 2 2)) (step 2) s → ¬ fails 2 s.
Proof. apply (combined_barrier_correct 2 2); lia. Defined.
