(* ===== verification/Harness.v ===== *)
(** * The harnesses (project2/omp/harness.c, mpi/harness.c, combined/harness.c)

    The programs that try the barriers, and those of Cluster-HOWTO/examples that measure
    them: each reads a number from its arguments, starts
    the barrier and has every participant call it a fixed number of times.  The loop is
    proved against the interface of Barrier.v, so that it holds for every barrier that
    implements it. *)
From S2P Require Import Prelude CxxString Barrier SenseBarrier Network Dissemination TreeBarrier McsBarrier.
From S2P Require Import CombinedBarrier.

(** ** The loop *)

(** The barrier of the participants, and the number of iterations. *)
Record harness := Harness { team : barrier; iterations : nat }.

Section loop.
Context (h : harness).

Abbreviation B := (team h).

(** [for (i = 0; i < num_iter; i++)]: the loop variable of a participant is the number of
    calls that it has completed, and no call is begun after the last iteration. *)
Definition loop_variable (s : bstate B) (t : nat) : nat := left B s t.

Definition loop_step (s s' : bstate B) : Prop :=
  bstep B s s' ∧ ∀ t, t < participants B → entered B s' t ≤ iterations h.

Definition loop_reachable (s : bstate B) : Prop := reachable (binit B) loop_step s.

(** Every participant is past its loop. *)
Definition loop_done (s : bstate B) : Prop := ∀ t, t < participants B → loop_variable s t = iterations h.

Lemma loop_reachable_barrier s : loop_reachable s → reachable (binit B) (bstep B) s.
Proof.
  intros (s0 & H0 & Hs). exists s0. split; [done|]. eapply rtc_subrel; [|exact Hs]. by intros ? ? [? _].
Qed.

Lemma loop_entered `{!Correct B} s : loop_reachable s → ∀ t, t < participants B → entered B s t ≤ iterations h.
Proof.
  revert s. apply (invariant_ind (binit B) loop_step (λ s, ∀ t, t < participants B → entered B s t ≤ iterations h));
    [|by intros ? ? _ [_ ?]].
  intros s Hs t _. rewrite (correct_starts s Hs). lia.
Qed.

(** What a harness promises: no participant is more than one iteration ahead of another,
    none begins more than its iterations, and all can get past their loops. *)
Definition runs_through : Prop :=
  ∀ s, loop_reachable s →
    (∀ t u, t < participants B → u < participants B →
      loop_variable s t ≤ S (loop_variable s u) ∧ loop_variable s t ≤ entered B s t ≤ iterations h) ∧
    ∃ s', rtc loop_step s s' ∧ loop_done s'.

Lemma limited_loop `{!Correct B} s s' :
  loop_reachable s → rtc (limited B (iterations h)) s s' → rtc loop_step s s' ∧ loop_reachable s'.
Proof.
  intros Hs Hst. revert Hs. induction Hst as [s|s1 s2 s3 [H12 Hlim] _ IH]; intros Hs; [done|].
  assert (loop_step s1 s2) as Hstep.
  { split; [done|]. intros t Ht. pose proof (Hlim t Ht). pose proof (loop_entered s1 Hs t Ht). lia. }
  destruct (IH (reachable_step _ _ _ _ Hs Hstep)) as [Hr Hs3]. split; [by eapply rtc_l|done].
Qed.

Lemma correct_runs_through `{!Correct B} : runs_through.
Proof.
  intros s Hs. pose proof (loop_reachable_barrier s Hs) as Hb. split.
  - intros t u Ht Hu. split; [by apply lockstep|]. pose proof (correct_calls s Hb t Ht).
    pose proof (loop_entered s Hs t Ht). unfold loop_variable. lia.
  - destruct (correct_live s Hb (iterations h)) as (s' & Hst & Hall).
    destruct (limited_loop s s' Hs Hst) as [Hr Hs']. exists s'. split; [done|].
    intros t Ht. pose proof (Hall t Ht). pose proof (loop_entered s' Hs' t Ht).
    pose proof (correct_calls s' (loop_reachable_barrier s' Hs') t Ht). unfold loop_variable. lia.
Qed.
End loop.

(** ** main *)

(** [num_threads = strtol(argv[1], NULL, 10)], an [int], is given to [gtmp_init] and is
    the number of threads of the parallel region. *)
Definition omp_main (gtmp : Z → barrier) (argv : list cstr) : res harness :=
  match argv with
  | _ :: arg :: _ => mret (Harness (gtmp (atoi arg)) 10)
  | _ => Err (Exit 1)
  end.

(** [num_processes] is given to [gtmpi_init]; the processes are those of the communicator,
    whatever their number. *)
Definition mpi_main (gtmpi : Z → barrier) (argv : list cstr) : res harness :=
  match argv with
  | _ :: arg :: _ => mret (Harness (gtmpi (atoi arg)) 1)
  | _ => Err (Exit 1)
  end.

(** The number of processes is that of the communicator here. *)
Definition combined_main (combined : Z → Z → barrier) (comm_size : Z) (argv : list cstr) : res harness :=
  match argv with
  | _ :: arg :: _ => mret (Harness (combined comm_size (atoi arg)) 10)
  | _ => Err (Exit 1)
  end.

(** The programs of Cluster-HOWTO/examples that measure the barriers: the same loop, longer,
    and [mpi_hello] takes the number of processes from the communicator. *)
Definition mp_hello_main (gtmp : Z → barrier) (argv : list cstr) : res harness :=
  match argv with
  | _ :: arg :: _ => mret (Harness (gtmp (atoi arg)) (Z.to_nat 1000000))
  | _ => Err (Exit 1)
  end.

Definition mpi_hello_main (gtmpi : Z → barrier) (comm_size : Z) : res harness :=
  mret (Harness (gtmpi comm_size) (Z.to_nat 100000)).

Definition combined_hello_main (combined : Z → Z → barrier) (comm_size : Z) (argv : list cstr) : res harness :=
  match argv with
  | _ :: arg :: _ => mret (Harness (combined comm_size (atoi arg)) (Z.to_nat 100000))
  | _ => Err (Exit 1)
  end.

(** The libraries that the harnesses are linked with. *)
Definition gtmp1 (num_threads : Z) : barrier := sense_barrier (Z.to_nat num_threads).
Definition gtmp2 (num_threads : Z) : barrier := mcs_barrier (Z.to_nat num_threads).

(** The processes of a communicator of [comm_size], each of which uses [num_processes]. *)
Definition gtmpi1 (comm_size : nat) (num_processes : Z) : barrier :=
  network_barrier comm_size (Dissemination.gtmpi_barrier num_processes).
Definition gtmpi2 (comm_size : nat) (num_processes : Z) : barrier :=
  network_barrier comm_size (λ r, TreeBarrier.gtmpi_barrier num_processes (Z.of_nat r)).

Definition combined (num_processes num_threads : Z) : barrier :=
  combined_barrier (Z.to_nat num_processes) (Z.to_nat num_threads).

Lemma atoi_range s : i32_range (atoi s).
Proof. apply i32_bound. Qed.

(** ** Properties *)


(** Without an argument the harnesses fail. *)
Lemma harness_usage gtmp gtmpi comb size prog :
  omp_main gtmp [prog] = Err (Exit 1) ∧ mpi_main gtmpi [prog] = Err (Exit 1) ∧
  combined_main comb size [prog] = Err (Exit 1) ∧ mp_hello_main gtmp [prog] = Err (Exit 1) ∧
  combined_hello_main comb size [prog] = Err (Exit 1).
Proof. done. Qed.

(** The argument of the MPI harness is not compared with the size of the communicator:
    with two processes and the argument 3 a process uses a rank that does not exist. *)
Theorem mpi_harness_wrong_size :
  ∃ s, reachable (binit (gtmpi1 2 3)) (bstep (gtmpi1 2 3)) s ∧ Network.fails 2 (Dissemination.gtmpi_barrier 3) s.
Proof.
  exists (Network.play 2 (Dissemination.gtmpi_barrier 3) [(0, 0%Z); (0, 0%Z)] (Network.start 2)). split.
  - apply network_play_reachable, network_start_reachable.
  - exists 0%Z, 0, mpi_error. by vm_compute.
Qed.

(** ** Witness *)

