(* ===== verification/OpenMPExamples.v ===== *)
(** * The examples for OpenMP (project2/examples/OpenMP, examples/MPI/openmp_mpi.c)

    Small parallel regions: one whose threads share a variable under [omp critical] and
    meet at barriers (shared_vars.c), a parallel loop with an atomic sum
    (parallel_for.c), and three whose threads only print (hello_world.c, priv_vars.c,
    openmp_mpi.c).  Every interleaving of the threads is considered; the accesses to the
    shared variables are sequentially consistent. *)
From S2P Require Import Prelude.

(** ** shared_vars.c *)

Module SharedVars.

(** What a thread prints: which of its lines, and the value in it. *)
Inductive text := Hello | Before_barrier | Final_pub | Final_priv.

Record line := Line { from : Z; what : text; value : Z }.

(** Where a thread is; [pub += thread_num] reads and writes. *)
Inductive pc :=
| Starting | Greeting | Entering | Add_priv | Read_pub | Write_pub (v : Z) | Leaving
| Print_before | Barrier_1 | Print_pub | Barrier_2 | Print_priv | Ended.

(** The private variables of a thread. *)
Record thread := Thread { at_pc : pc; thread_num : Z; priv : Z }.

Record region := Region {
  critical : option nat;
  pub : Z;
  threads : list thread;
  printed : list line
}.

#[export] Instance region_eta : Eta region := λ s, Region (critical s) (pub s) (threads s) (printed s).
#[export] Instance pc_eq_dec : EqDecision pc.
Proof. solve_decision. Defined.

(** The barriers that a thread has come to. *)
Definition arrived (p : pc) : nat :=
  match p with
  | Barrier_1 | Print_pub => 1
  | Barrier_2 | Print_priv | Ended => 2
  | _ => 0
  end.

Definition all_arrived (k : nat) (s : region) : bool :=
  bool_decide (Forall (λ th, k ≤ arrived (at_pc th)) (threads s)).

(** Thread [t] has the private variables of [th] and goes on at [p]. *)
Definition goto (t : nat) (th : thread) (p : pc) (s : region) : region :=
  update threads (<[t := Thread p (thread_num th) (priv th)]>) s.

Definition print (th : thread) (w : text) (v : Z) (s : region) : region :=
  update printed (.++ [Line (thread_num th) w v]) s.

(** The next step of thread [t]. *)
Definition exec (t : nat) (s : region) : option region :=
  th ← threads s !! t;
  match at_pc th with
  | Starting => Some (goto t (Thread Starting (Z.of_nat t) (priv th)) Greeting s)
  | Greeting => Some (print th Hello 0 (goto t th Entering s))
  | Entering => if critical s is None then Some (assign critical (Some t) (goto t th Add_priv s)) else None
  | Add_priv => Some (goto t (Thread Add_priv (thread_num th) (i32 (priv th + thread_num th))) Read_pub s)
  | Read_pub => Some (goto t th (Write_pub (i32 (pub s + thread_num th))) s)
  | Write_pub v => Some (assign pub v (goto t th Leaving s))
  | Leaving => Some (assign critical None (goto t th Print_before s))
  | Print_before => Some (print th Before_barrier (pub s) (goto t th Barrier_1 s))
  | Barrier_1 => if all_arrived 1 s then Some (goto t th Print_pub s) else None
  | Print_pub => Some (print th Final_pub (pub s) (goto t th Barrier_2 s))
  | Barrier_2 => if all_arrived 2 s then Some (goto t th Print_priv s) else None
  | Print_priv => Some (print th Final_priv (priv th) (goto t th Ended s))
  | Ended => None
  end.

Definition step (s s' : region) : Prop := ∃ t, exec t s = Some s'.

(** [firstprivate(thread_num, priv) shared(pub)], with [n] threads. *)
Definition start (n : nat) : region := Region None 0 (replicate n (Thread Starting (-1) 0)) [].

(** [num_threads(5)] *)
Definition main : region := start 5.

Definition ended (s : region) : Prop := Forall (λ th, at_pc th = Ended) (threads s).

(** *** Invariant *)

Definition inside (p : pc) : bool :=
  match p with Add_priv | Read_pub | Write_pub _ | Leaving => true | _ => false end.

Definition added (p : pc) : bool :=
  match p with Starting | Greeting | Entering | Add_priv | Read_pub | Write_pub _ => false | _ => true end.

Definition own_priv (t : nat) (p : pc) : Z :=
  match p with Starting | Greeting | Entering | Add_priv => 0 | _ => Z.of_nat t end.

(** The barriers that a thread has passed. *)
Definition passed (p : pc) : nat :=
  match p with Print_pub | Barrier_2 => 1 | Print_priv | Ended => 2 | _ => 0 end.

(** What a thread has added to [pub]. *)
Definition contribution (th : thread) : nat := if added (at_pc th) then Z.to_nat (thread_num th) else 0.

Definition texts : list text := [Hello; Before_barrier; Final_pub; Final_priv].

Definition lines_printed (p : pc) : nat :=
  match p with
  | Starting | Greeting => 0
  | Barrier_1 | Print_pub => 2
  | Barrier_2 | Print_priv => 3
  | Ended => 4
  | _ => 1
  end.

Definition lines_of (t : nat) (s : region) : list text :=
  what <$> filter (λ l, from l = Z.of_nat t) (printed s).

(** Steps that a thread has still to make. *)
Definition steps_left (p : pc) : nat :=
  match p with
  | Starting => 12 | Greeting => 11 | Entering => 10 | Add_priv => 9 | Read_pub => 8 | Write_pub _ => 7 | Leaving => 6
  | Print_before => 5 | Barrier_1 => 4 | Print_pub => 3 | Barrier_2 => 2 | Print_priv => 1 | Ended => 0
  end.

Section region.
Context (n : nat).

(** [0 + 1 + ... + (n - 1)] *)
Definition total : nat := sum_list_with id (seq 0 n).

(** The lines with the value that they must have. *)
Definition line_ok (l : line) : Prop :=
  (0 ≤ from l < Z.of_nat n)%Z ∧
  match what l with
  | Hello => True
  | Before_barrier => (from l ≤ value l ≤ Z.of_nat total)%Z
  | Final_pub => value l = Z.of_nat total
  | Final_priv => value l = from l
  end.

Record good (s : region) : Prop := {
  gd_length : length (threads s) = n;
  gd_num t th : threads s !! t = Some th → at_pc th ≠ Starting → thread_num th = Z.of_nat t;
  gd_priv t th : threads s !! t = Some th → priv th = own_priv t (at_pc th);
  gd_inside t th : threads s !! t = Some th → inside (at_pc th) = true ↔ critical s = Some t;
  gd_critical u : critical s = Some u → u < n;
  gd_write t th v : threads s !! t = Some th → at_pc th = Write_pub v → v = (pub s + Z.of_nat t)%Z;
  gd_pub : pub s = Z.of_nat (sum_list_with contribution (threads s));
  gd_passed t th u thu : threads s !! t = Some th → threads s !! u = Some thu → passed (at_pc th) ≤ arrived (at_pc thu);
  gd_printed : Forall line_ok (printed s);
  gd_lines t th : threads s !! t = Some th → lines_of t s = take (lines_printed (at_pc th)) texts
}.

(** *** Lemmas *)

Lemma sum_index (f : thread → nat) (l : list thread) k :
  (∀ i th, l !! i = Some th → f th ≤ k + i) → sum_list_with f l ≤ sum_list_with id (seq k (length l)).
Proof using.
  revert k. induction l as [|th l IH]; intros k H; cbn; [lia|].
  change (id k) with k. specialize (H 0 th eq_refl) as H0.
  assert (sum_list_with f l ≤ sum_list_with id (seq (S k) (length l))); [|lia].
  apply IH. intros i th' Hi. specialize (H (S i) th' Hi). lia.
Qed.

Lemma sum_index_eq (f : thread → nat) (l : list thread) k :
  (∀ i th, l !! i = Some th → f th = k + i) → sum_list_with f l = sum_list_with id (seq k (length l)).
Proof using.
  revert k. induction l as [|th l IH]; intros k H; cbn; [done|].
  change (id k) with k. rewrite (H 0 th eq_refl), (IH (S k)); [lia|].
  intros i th' Hi. rewrite (H (S i) th' Hi). lia.
Qed.

Lemma contribution_le s t th : good s → threads s !! t = Some th → contribution th ≤ t.
Proof using.
  intros Hg Ht. unfold contribution. destruct (added (at_pc th)) eqn:Ea; [|lia].
  rewrite (gd_num _ Hg t th Ht); [lia|]. intros E. by rewrite E in Ea.
Qed.

Lemma pub_le s : good s → (pub s ≤ Z.of_nat total)%Z.
Proof using.
  intros Hg. rewrite (gd_pub _ Hg). apply inj_le. unfold total. rewrite <-(gd_length _ Hg).
  apply sum_index. intros i th Hi. by apply (contribution_le s).
Qed.

(** The sum when everybody has added. *)
Lemma pub_total s : good s → (∀ t th, threads s !! t = Some th → added (at_pc th) = true) → pub s = Z.of_nat total.
Proof using.
  intros Hg Ha. rewrite (gd_pub _ Hg). f_equal. unfold total. rewrite <-(gd_length _ Hg). apply sum_index_eq.
  intros i th Hi. unfold contribution. rewrite (Ha i th Hi), (gd_num _ Hg i th Hi); [lia|].
  intros E. pose proof (Ha i th Hi) as H. by rewrite E in H.
Qed.

Lemma arrived_added p : 1 ≤ arrived p → added p = true.
Proof using. destruct p; cbn; lia || done. Qed.

Lemma passed_arrived p : passed p ≤ arrived p.
Proof using. destruct p; cbn; lia. Qed.

(** A step changes one thread; what the others rely on stays. *)
Lemma good_move s t th th' c p ls :
  good s → threads s !! t = Some th →
  (at_pc th' ≠ Starting → thread_num th' = Z.of_nat t) → priv th' = own_priv t (at_pc th') →
  (inside (at_pc th') = true ↔ c = Some t) → (∀ u, u ≠ t → c = Some u ↔ critical s = Some u) →
  (p = pub s ∨ critical s = Some t) → (∀ v, at_pc th' = Write_pub v → v = p + Z.of_nat t)%Z →
  (p + Z.of_nat (contribution th) = pub s + Z.of_nat (contribution th'))%Z →
  arrived (at_pc th) ≤ arrived (at_pc th') →
  (∀ u thu, threads s !! u = Some thu → passed (at_pc th') ≤ arrived (at_pc thu)) →
  Forall line_ok ls → Forall (λ l, from l = Z.of_nat t) ls →
  take (lines_printed (at_pc th)) texts ++ (what <$> ls) = take (lines_printed (at_pc th')) texts →
  good (Region c p (<[t := th']> (threads s)) (printed s ++ ls)).
Proof using.
  intros Hg Ht H1 H2 H3 H4 H5 H6 H7 H8 H9 H10 H11 H12.
  pose proof (lookup_lt_Some _ _ _ Ht) as Hlt. pose proof (gd_length _ Hg) as Hlen.
  split; cbn [threads critical pub printed].
  - by rewrite length_insert.
  - intros u thu. rewrite list_lookup_insert. case_decide as Hu; [intros [= <-]; by destruct Hu as [-> _]|apply (gd_num _ Hg)].
  - intros u thu. rewrite list_lookup_insert. case_decide as Hu; [intros [= <-]; by destruct Hu as [-> _]|apply (gd_priv _ Hg)].
  - intros u thu. rewrite list_lookup_insert. case_decide as Hu; [intros [= <-]; by destruct Hu as [-> _]|].
    intros Hthu. rewrite (gd_inside _ Hg u thu Hthu), H4; [done|]. intros ->. by destruct Hu.
  - intros u Hc. destruct (decide (u = t)) as [->|Hne]; [lia|]. apply H4 in Hc; [|done]. by apply (gd_critical _ Hg).
  - intros u thu v. rewrite list_lookup_insert. case_decide as Hu; [intros [= <-]; destruct Hu as [-> _]; apply H6|].
    intros Hthu E. destruct H5 as [->|Hc]; [by eapply (gd_write _ Hg)|].
    assert (critical s = Some u) as Hc' by (apply (gd_inside _ Hg u thu Hthu); by rewrite E).
    rewrite Hc in Hc'. injection Hc' as ->. by destruct Hu.
  - pose proof (sum_insert contribution (threads s) t th th' Ht) as Hs. rewrite (gd_pub _ Hg) in H7. lia.
  - intros u1 th1 u2 th2. rewrite !list_lookup_insert. pose proof (passed_arrived (at_pc th')).
    repeat case_decide; intros E1 E2; simplify_eq; [done|by eapply H9|..|by eapply (gd_passed _ Hg)].
    pose proof (gd_passed _ Hg u1 th1 t th E1 Ht). lia.
  - apply Forall_app. split; [apply (gd_printed _ Hg)|done].
  - intros u thu. rewrite list_lookup_insert. unfold lines_of. cbn. rewrite filter_app, fmap_app. fold (lines_of u s).
    case_decide as Hu; intros E.
    + injection E as <-. destruct Hu as [-> _]. rewrite (gd_lines _ Hg u th Ht), <-H12. f_equal. f_equal.
      clear -H11. induction H11 as [|l ls Hl _ IH]; [done|]. rewrite filter_cons. rewrite decide_True by done. by rewrite IH.
    + rewrite (gd_lines _ Hg u thu E). assert (filter (λ l, from l = Z.of_nat u) ls = []) as ->; [|by rewrite app_nil_r].
      assert (u ≠ t) as Hne by (intros ->; by destruct Hu). clear -H11 Hne.
      induction H11 as [|l ls Hl _ IH]; [done|]. rewrite filter_cons. rewrite decide_False; [done|]. rewrite Hl. lia.
Qed.

(** A step without output, at which neither [pub] nor the critical section changes. *)
Lemma good_quiet s t th th' c p :
  good s → threads s !! t = Some th →
  (at_pc th' ≠ Starting → thread_num th' = Z.of_nat t) → priv th' = own_priv t (at_pc th') →
  (inside (at_pc th') = true ↔ c = Some t) → (∀ u, u ≠ t → c = Some u ↔ critical s = Some u) →
  (p = pub s ∨ critical s = Some t) → (∀ v, at_pc th' = Write_pub v → v = p + Z.of_nat t)%Z →
  (p + Z.of_nat (contribution th) = pub s + Z.of_nat (contribution th'))%Z →
  arrived (at_pc th) ≤ arrived (at_pc th') →
  (∀ u thu, threads s !! u = Some thu → passed (at_pc th') ≤ arrived (at_pc thu)) →
  take (lines_printed (at_pc th)) texts = take (lines_printed (at_pc th')) texts →
  good (Region c p (<[t := th']> (threads s)) (printed s)).
Proof using.
  intros. rewrite <-(app_nil_r (printed s)). by eapply good_move; [..|by rewrite app_nil_r].
Qed.

Lemma all_arrived_lookup k s u thu : all_arrived k s = true → threads s !! u = Some thu → k ≤ arrived (at_pc thu).
Proof using. unfold all_arrived. rewrite bool_decide_eq_true, Forall_lookup. eauto. Qed.

Context (Htotal : (Z.of_nat total < 2 ^ 31)%Z).

(** While a thread has not added its number there is room for it. *)
Lemma pub_plus s t th : good s → threads s !! t = Some th → added (at_pc th) = false → (pub s + Z.of_nat t ≤ Z.of_nat total)%Z.
Proof using.
  intros Hg Ht Ha. pose proof (sum_insert contribution (threads s) t th (Thread Ended (Z.of_nat t) 0) Ht) as Hs.
  unfold contribution at 2 4 in Hs. rewrite Ha in Hs. cbn in Hs.
  assert (sum_list_with contribution (<[t := Thread Ended (Z.of_nat t) 0]> (threads s)) ≤ total) as Hb.
  { unfold total. rewrite <-(gd_length _ Hg), <-(length_insert (threads s) t (Thread Ended (Z.of_nat t) 0)).
    apply sum_index. intros i th' Hi. rewrite list_lookup_insert in Hi. cbn [plus]. case_decide as Hd.
    - injection Hi as <-. destruct Hd as [-> _]. cbn. lia.
    - by apply (contribution_le s). }
  rewrite (gd_pub _ Hg). lia.
Qed.

(** The conditions of [good_move] that the step decides. *)
Ltac side :=
  unfold contribution; cbn [at_pc thread_num priv inside added own_priv arrived passed lines_printed take texts fmap list_fmap app what];
  try done; try lia.

Lemma shared_exec_good s t s' : good s → exec t s = Some s' → good s'.
Proof using Htotal.
  intros Hg E. unfold exec in E. destruct (threads s !! t) as [th|] eqn:Ht; [|done]. cbn in E.
  pose proof (gd_num _ Hg t th Ht) as Hnum. pose proof (gd_priv _ Hg t th Ht) as Hpriv.
  pose proof (gd_inside _ Hg t th Ht) as Hin. pose proof (gd_passed _ Hg t th) as Hpass.
  pose proof (pub_le s Hg) as Hle. pose proof (lookup_lt_Some _ _ _ Ht) as Hlt. rewrite (gd_length _ Hg) in Hlt.
  assert (Z.of_nat t ≤ Z.of_nat total)%Z as Htt.
  { apply inj_le. unfold total. apply (sum_lookup id (seq 0 n) t t). apply lookup_seq. lia. }
  assert (0 ≤ pub s)%Z as Hpos by (rewrite (gd_pub _ Hg); lia).
  destruct th as [q tn pr]; cbn [at_pc thread_num priv] in *.
  assert (∀ u : nat, u ≠ t → critical s = Some u ↔ critical s = Some u) as Hsame by done.
  destruct q; cbn [inside own_priv] in *.
  all: try (assert (tn = Z.of_nat t) as -> by by apply Hnum). all: subst pr.
  - injection E as <-. apply (good_quiet s t _ _ (critical s) (pub s) Hg Ht); side.
  - injection E as <-. apply (good_move s t _ (Thread Entering (Z.of_nat t) 0) (critical s) (pub s) _ Hg Ht); side.
    2: by apply Forall_singleton. apply Forall_singleton. by split; cbn; [lia|].
  - destruct (critical s) eqn:Ec; [done|]. injection E as <-.
    apply (good_quiet s t _ (Thread Add_priv (Z.of_nat t) 0) (Some t) (pub s) Hg Ht); side.
    intros u Hu. rewrite Ec. split; [congruence|done].
  - injection E as <-. apply (good_quiet s t _ _ (critical s) (pub s) Hg Ht); side. rewrite i32_id; [lia|word].
  - injection E as <-. apply (good_quiet s t _ _ (critical s) (pub s) Hg Ht); side.
    intros v [= <-]. apply i32_id. pose proof (pub_plus s t _ Hg Ht eq_refl). unfold i32_range. lia.
  - pose proof (gd_write _ Hg t _ v Ht eq_refl) as ->. injection E as <-.
    apply (good_quiet s t _ _ (critical s) (pub s + Z.of_nat t) Hg Ht); side. right. by apply Hin.
  - injection E as <-. apply (good_quiet s t _ _ None (pub s) Hg Ht); side.
    intros u Hu. rewrite (proj1 Hin eq_refl). split; congruence.
  - injection E as <-. apply (good_move s t _ _ (critical s) (pub s) _ Hg Ht); side.
    2: by apply Forall_singleton. apply Forall_singleton. split; cbn; [lia|split; [|done]].
    rewrite (gd_pub _ Hg). apply inj_le. pose proof (sum_lookup contribution _ _ _ Ht) as Hs. cbn in Hs. lia.
  - destruct (all_arrived 1 s) eqn:Ea; [|done]. injection E as <-.
    apply (good_quiet s t _ _ (critical s) (pub s) Hg Ht); side. intros u thu. by apply all_arrived_lookup.
  - assert (∀ u thu, threads s !! u = Some thu → 1 ≤ arrived (at_pc thu)) as Hall by (intros u thu; by apply (Hpass u thu)).
    injection E as <-. apply (good_move s t _ _ (critical s) (pub s) _ Hg Ht); side; try done.
    2: by apply Forall_singleton. apply Forall_singleton. split; cbn; [lia|].
    apply (pub_total s Hg). intros u thu Hu. by eapply arrived_added, Hall.
  - destruct (all_arrived 2 s) eqn:Ea; [|done]. injection E as <-.
    apply (good_quiet s t _ _ (critical s) (pub s) Hg Ht); side. intros u thu. by apply all_arrived_lookup.
  - assert (∀ u thu, threads s !! u = Some thu → 2 ≤ arrived (at_pc thu)) as Hall by (intros u thu; by apply (Hpass u thu)).
    injection E as <-. apply (good_move s t _ _ (critical s) (pub s) _ Hg Ht); side; try done.
    2: by apply Forall_singleton. apply Forall_singleton. by split; cbn; [lia|].
  - done.
Qed.

Lemma shared_start_good : good (start n).
Proof using.
  assert (∀ t th, threads (start n) !! t = Some th → th = Thread Starting (-1) 0) as H
    by (intros t th Ht; by apply lookup_replicate in Ht as [-> _]).
  split; try (intros t th Ht; by rewrite (H t th Ht)).
  - apply length_replicate.
  - done.
  - intros t th v Ht. by rewrite (H t th Ht).
  - cbn. rewrite sum_replicate. cbn. lia.
  - intros t th u thu Ht. rewrite (H t th Ht). cbn. lia.
  - constructor.
Qed.

Lemma shared_reachable_good s : reachable (eq (start n)) step s → good s.
Proof using Htotal.
  apply (invariant_ind (eq (start n)) step good); [intros s' <-; apply shared_start_good|].
  intros s1 s2 Hg (t & E). by eapply shared_exec_good.
Qed.

(** *** Progress *)

Definition rank (s : region) : nat := sum_list_with (λ th, steps_left (at_pc th)) (threads s).

Lemma exec_rank t s s' : exec t s = Some s' → rank s' < rank s.
Proof using.
  clear Htotal n.
  unfold exec. destruct (threads s !! t) as [th|] eqn:Ht; [|done]. cbn.
  assert (∀ th' s1, threads s1 = <[t := th']> (threads s) → steps_left (at_pc th') < steps_left (at_pc th) → rank s1 < rank s) as H.
  { intros th' s1 E Hlt. unfold rank. rewrite E.
    pose proof (sum_insert (λ th, steps_left (at_pc th)) (threads s) t th th' Ht) as Hs. cbn in Hs. lia. }
  destruct th as [q tn pr]; cbn in *.
  destruct q; try (intros [= <-]; eapply H; [reflexivity|cbn; lia]); try done.
  - destruct (critical s); [done|]. intros [= <-]. eapply H; [reflexivity|cbn; lia].
  - destruct (all_arrived _ _); [|done]. intros [= <-]. eapply H; [reflexivity|cbn; lia].
  - destruct (all_arrived _ _); [|done]. intros [= <-]. eapply H; [reflexivity|cbn; lia].
Qed.

(** Whether a thread may have to wait. *)
Definition waits (p : pc) : bool := match p with Entering | Barrier_1 | Barrier_2 | Ended => true | _ => false end.

Lemma moves s : good s → ended s ∨ ∃ t s', exec t s = Some s'.
Proof using.
  intros Hg. destruct (decide (Forall (λ th, waits (at_pc th) = true) (threads s))) as [Hw|Hw].
  2: { apply not_Forall_Exists, list.Exists_exists in Hw as (th & [t Ht]%list_elem_of_lookup & Hn); [|apply _]. right.
       exists t. unfold exec. rewrite Ht. cbn in *. destruct (at_pc th); cbn in Hn; try done; by eexists. }
  rewrite Forall_lookup in Hw.
  assert (critical s = None) as Hc.
  { destruct (critical s) as [u|] eqn:Ec; [|done]. pose proof (gd_critical _ Hg u Ec) as Hu.
    rewrite <-(gd_length _ Hg) in Hu. apply lookup_lt_is_Some in Hu as [th Ht].
    apply (gd_inside _ Hg u th Ht) in Ec. pose proof (Hw u th Ht). by destruct (at_pc th). }
  assert (∀ p, (∃ t th, threads s !! t = Some th ∧ at_pc th = p) ∨ ∀ t th, threads s !! t = Some th → at_pc th ≠ p) as Hor.
  { intros p. destruct (decide (Exists (λ th, at_pc th = p) (threads s))) as [He|He].
    - left. apply list.Exists_exists in He as (th & [t Ht]%list_elem_of_lookup & E). by exists t, th.
    - right. intros t th Ht E. apply He, list.Exists_exists. exists th. split; [by eapply list_elem_of_lookup_2|done]. }
  destruct (Hor Entering) as [(t & th & Ht & E)|H1].
  { right. exists t. unfold exec. rewrite Ht. cbn. rewrite E, Hc. by eexists. }
  assert (all_arrived 1 s = true) as Ha1.
  { apply bool_decide_eq_true, Forall_lookup. intros t th Ht. pose proof (Hw t th Ht). pose proof (H1 t th Ht).
    destruct (at_pc th); done || cbn; lia. }
  destruct (Hor Barrier_1) as [(t & th & Ht & E)|H2].
  { right. exists t. unfold exec. rewrite Ht. cbn. rewrite E, Ha1. by eexists. }
  assert (all_arrived 2 s = true) as Ha2.
  { apply bool_decide_eq_true, Forall_lookup. intros t th Ht. pose proof (Hw t th Ht). pose proof (H1 t th Ht).
    pose proof (H2 t th Ht). destruct (at_pc th); done || cbn; lia. }
  destruct (Hor Barrier_2) as [(t & th & Ht & E)|H3].
  { right. exists t. unfold exec. rewrite Ht. cbn. rewrite E, Ha2. by eexists. }
  left. apply Forall_lookup. intros t th Ht. pose proof (Hw t th Ht). pose proof (H1 t th Ht).
  pose proof (H2 t th Ht). pose proof (H3 t th Ht). by destruct (at_pc th).
Qed.

Lemma region_ends s : good s → ∃ s', rtc step s s' ∧ ended s'.
Proof using Htotal.
  apply (rank_reaches step good ended rank). intros s1 Hg. destruct (moves s1 Hg) as [He|(t & s2 & E)]; [by left|right].
  exists s2. split; [by exists t|]. split; [by eapply shared_exec_good|by eapply exec_rank].
Qed.

Lemma ended_lookup s t th : ended s → threads s !! t = Some th → at_pc th = Ended.
Proof using. unfold ended. rewrite Forall_lookup. eauto. Qed.
End region.

(** *** Properties *)

(** The threads that share [pub], for any number of them whose sum fits an [int], in
    every interleaving: no two are in the critical section at once; what is printed
    before the barrier is a sum that has the thread's own number in it, after it
    the sum of all numbers, and [priv] is the thread's own number; the region can always
    be brought to its end, where [pub] is the sum of all and every thread has printed its
    four lines in order. *)
Theorem shared_vars_correct (n : nat) (s : region) :
  (Z.of_nat (total n) < 2 ^ 31)%Z → reachable (eq (start n)) step s →
  (∀ t th u thu, threads s !! t = Some th → threads s !! u = Some thu →
    inside (at_pc th) = true → inside (at_pc thu) = true → t = u) ∧
  Forall (line_ok n) (printed s) ∧
  (∃ s', rtc step s s' ∧ ended s') ∧
  (ended s → pub s = Z.of_nat (total n) ∧ ∀ t, t < n → lines_of t s = texts).
Proof.
  intros Htotal Hs%shared_reachable_good; [|done]. split; [|split; [apply (gd_printed _ _ Hs)|split; [by eapply region_ends|]]].
  - intros t th u thu Ht Hu Hit Hiu. apply (gd_inside _ _ Hs t th Ht) in Hit. apply (gd_inside _ _ Hs u thu Hu) in Hiu. congruence.
  - intros He. split.
    + apply (pub_total n s Hs). intros t th Ht. by rewrite (ended_lookup s t th He Ht).
    + intros t Ht. rewrite <-(gd_length _ _ Hs) in Ht. apply lookup_lt_is_Some in Ht as [th Ht].
      by rewrite (gd_lines _ _ Hs t th Ht), (ended_lookup s t th He Ht).
Qed.

(** *** Witness *)

Definition play (s : region) (ts : list nat) : region := foldl (λ s t, default s (exec t s)) s ts.

Lemma shared_play_reachable (s0 s : region) ts : reachable (eq s0) step s → reachable (eq s0) step (play s ts).
Proof.
  revert s. induction ts as [|t ts IH]; intros s Hs; [done|]. apply IH. cbn.
  destruct (exec t s) as [s'|] eqn:E; [|done]. eapply reachable_step; [exact Hs|]. by exists t.
Qed.

(** The threads take turns until the end. *)
Definition demo : region := play main (concat (replicate 60 [4; 2; 0; 1; 3])).

Lemma shared_vars_correct_witness :
  ended demo ∧ pub demo = 10%Z ∧ ∀ t, t < 5 → lines_of t demo = texts.
Proof.
  assert (ended demo) as He by (apply (bool_decide_unpack _); by vm_compute). split; [done|].
  destruct (shared_vars_correct 5 demo) as (_ & _ & _ & H);
    [by vm_compute|apply shared_play_reachable, reachable_init; reflexivity|].
  destruct (H He) as [H1 H2]. split; [rewrite H1; reflexivity|exact H2].
Defined.
End SharedVars.

(** The first element of one of the lists is taken. *)
Lemma concat_take_one {A} (l : list (list A)) t i rest : l !! t = Some (i :: rest) → concat l ≡ₚ i :: concat (<[t := rest]> l).
Proof.
  revert t. induction l as [|ls l IH]; intros [|t] H; cbn in *; try done.
  - injection H as ->. done.
  - rewrite (IH t H). by rewrite Permutation_middle.
Qed.

(** ** parallel_for.c *)

Module ParallelFor.

(** What each thread has still to do of its iterations, and the shared [x]. *)
Record loop := Loop { todo : list (list Z); x : Z }.

(** The iterations of [for (i = 1; i <= last; ++i)]. *)
Definition iterations (last : Z) : list Z := seqZ 1 last.

(** [x += i] under [omp atomic]. *)
Definition add (x i : Z) : Z := i32 (x + i).

(** Thread [t] does its next iteration. *)
Definition exec (t : nat) (s : loop) : option loop :=
  ls ← todo s !! t;
  match ls with
  | i :: rest => Some (Loop (<[t := rest]> (todo s)) (add (x s) i))
  | [] => None
  end.

Definition step (s s' : loop) : Prop := ∃ t, exec t s = Some s'.

(** The iterations are divided between the threads in any way. *)
Definition start (last : Z) (s : loop) : Prop := concat (todo s) ≡ₚ iterations last ∧ x s = 0%Z.

(** The implied barrier: every thread has done its part. *)
Definition ended (s : loop) : Prop := Forall (λ ls, ls = []) (todo s).

(** [lastprivate(i)]: the value that [i] has after the loop when it is run serially. *)
Definition last_i (last : Z) : Z := (last + 1)%Z.

(** The numbers in the line that is printed at the end. *)
Definition printed (last : Z) (s : loop) : Z * Z := (last_i last - 1, x s)%Z.

(** [main] without the directives. *)
Definition serial (last : Z) : Z := foldl add 0%Z (iterations last).

(** *** Lemmas *)

Definition sumZ (l : list Z) : Z := foldr Z.add 0%Z l.

#[export] Instance sumZ_proper : Proper ((≡ₚ) ==> (=)) sumZ.
Proof. intros l1 l2 H. unfold sumZ. induction H; cbn; lia. Qed.

Lemma sumZ_app l1 l2 : sumZ (l1 ++ l2) = (sumZ l1 + sumZ l2)%Z.
Proof. unfold sumZ. induction l1 as [|a l1 IH]; cbn in *; lia. Qed.

Lemma sumZ_iterations n : (0 ≤ n → 2 * sumZ (iterations n) = n * (n + 1))%Z.
Proof.
  intros Hn. rewrite <-(Z2Nat.id n) by done. generalize (Z.to_nat n) as k. clear. intros k. unfold iterations.
  induction k as [|k IH]; [done|]. rewrite Nat2Z.inj_succ, <-Z.add_1_r, seqZ_app, sumZ_app by lia.
  change (seqZ (1 + Z.of_nat k) 1) with [0 + (1 + Z.of_nat k)]%Z. cbn [sumZ foldr]. unfold sumZ in *. cbn [foldr]. nia.
Qed.

Section loop.
Context (last : Z).

(** The iterations done so far, and what they add up to. *)
Definition good (s : loop) : Prop :=
  ∃ did, did ++ concat (todo s) ≡ₚ iterations last ∧ x s = sumZ did ∧ Forall (λ i, 0 < i)%Z (did ++ concat (todo s)).

Context (Hlast : (0 ≤ last)%Z) (Hfits : (sumZ (iterations last) < 2 ^ 31)%Z).

Lemma sumZ_positive l : Forall (λ i, 0 < i)%Z l → (0 ≤ sumZ l)%Z.
Proof using. clear Hlast Hfits last. unfold sumZ. induction 1; cbn; lia. Qed.

Lemma good_bounds s : good s → (0 ≤ x s ≤ sumZ (iterations last))%Z.
Proof using.
  clear Hlast Hfits. intros (did & <- & -> & [H1 H2]%Forall_app). rewrite sumZ_app.
  pose proof (sumZ_positive _ H1). pose proof (sumZ_positive _ H2). lia.
Qed.

Lemma loop_start_good s : start last s → good s.
Proof using.
  intros [Hp Hx]. exists []. split; [done|]. split; [done|]. cbn. rewrite Hp. apply Forall_forall.
  intros i Hi. apply elem_of_seqZ in Hi. lia.
Qed.

Lemma loop_exec_good t s s' : good s → exec t s = Some s' → good s'.
Proof using Hfits.
  intros (did & Hp & Hx & Hpos) E. unfold exec in E. destruct (todo s !! t) as [[|i rest]|] eqn:Ht; try done.
  injection E as <-. pose proof (concat_take_one _ _ _ _ Ht) as Ht'.
  assert (did ++ concat (todo s) ≡ₚ (did ++ [i]) ++ concat (<[t:=rest]> (todo s))) as Hq by (by rewrite Ht', <-app_assoc).
  exists (did ++ [i]). cbn. rewrite <-Hq. split; [done|]. split; [|done]. unfold add. rewrite Hx.
  assert (sumZ (iterations last) = sumZ did + i + sumZ (concat (<[t:=rest]> (todo s))))%Z as Hsum.
  { rewrite <-Hp, Hq, !sumZ_app. cbn. lia. }
  rewrite Hq in Hpos. apply Forall_app in Hpos as [Hd Hr]. pose proof (sumZ_positive _ Hr).
  apply Forall_app in Hd as [Hd Hi]. pose proof (sumZ_positive _ Hd). inversion_clear Hi.
  rewrite i32_id; [rewrite sumZ_app; cbn; lia|unfold i32_range; lia].
Qed.

Lemma loop_reachable_good s : reachable (start last) step s → good s.
Proof using Hfits.
  apply (invariant_ind (start last) step good); [exact loop_start_good|].
  intros s1 s2 Hg (t & E). by eapply loop_exec_good.
Qed.

Lemma ended_nil s : ended s → concat (todo s) = [].
Proof using. unfold ended. intros H. induction H as [|ls l -> _ IH]; [done|exact IH]. Qed.

Lemma ended_sum s : good s → ended s → x s = sumZ (iterations last).
Proof using. intros (did & Hp & -> & _) He%ended_nil. by rewrite <-Hp, He, app_nil_r. Qed.

Lemma loop_ends s : good s → ∃ s', rtc step s s' ∧ ended s'.
Proof using Hfits.
  apply (rank_reaches step good ended (λ s, length (concat (todo s)))). intros s1 Hg.
  destruct (decide (ended s1)) as [He|He]; [by left|right].
  apply not_Forall_Exists, list.Exists_exists in He as ([|i rest] & [t Ht]%list_elem_of_lookup & Hn); [by destruct Hn| |apply _].
  assert (exec t s1 = Some (Loop (<[t := rest]> (todo s1)) (add (x s1) i))) as E by (unfold exec; by rewrite Ht).
  eexists. split; [by exists t|]. split; [by eapply loop_exec_good|].
  cbn. rewrite (concat_take_one _ _ _ _ Ht). cbn. lia.
Qed.

(** The serial program adds without overflow. *)
Lemma serial_sum : serial last = sumZ (iterations last).
Proof using Hfits.
  unfold serial. revert Hfits. assert (Forall (λ i, 0 < i)%Z (iterations last)) as Hpos.
  { apply Forall_forall. intros i Hi. apply elem_of_seqZ in Hi. lia. }
  intros Hf. assert (∀ l a, Forall (λ i, 0 < i)%Z l → (0 ≤ a)%Z → (a + sumZ l < 2 ^ 31)%Z → foldl add a l = (a + sumZ l)%Z) as H.
  { clear. intros l. induction l as [|i l IH]; intros a Hl Ha Hs; cbn in *; [lia|]. inversion_clear Hl as [|? ? Hi Hl'].
    pose proof (sumZ_positive l Hl'). unfold add at 2. rewrite i32_id by (unfold i32_range, sumZ in *; lia).
    rewrite IH; unfold sumZ in *; [lia|done|lia|lia]. }
  rewrite H; [lia|done|lia|lia].
Qed.
End loop.

(** *** Property *)

(** However the thousand iterations are divided between the threads and in whatever order
    these do them, [x] stays an [int] that is at most the sum, the loop can be brought to
    its end, and there the sum of the serial program is printed: 500500. *)
Theorem parallel_for_correct (s : loop) :
  reachable (start 1000) step s →
  (0 ≤ x s ≤ 500500)%Z ∧ (∃ s', rtc step s s' ∧ ended s') ∧
  (ended s → printed 1000 s = (1000, serial 1000)%Z ∧ serial 1000 = 500500%Z).
Proof.
  assert (sumZ (iterations 1000) = 500500%Z) as Hsum by (pose proof (sumZ_iterations 1000); lia).
  assert (sumZ (iterations 1000) < 2 ^ 31)%Z as Hfits by (rewrite Hsum; lia).
  intros Hs%loop_reachable_good; [|done]. split; [by rewrite <-Hsum; apply good_bounds|]. split; [by eapply loop_ends|].
  intros He. assert (serial 1000 = 500500%Z) as Hserial by (by rewrite (serial_sum 1000 Hfits)).
  split; [|exact Hserial]. unfold printed. rewrite (ended_sum 1000 s Hs He), Hserial, Hsum. reflexivity.
Qed.
End ParallelFor.

(** ** hello_world.c, priv_vars.c and openmp_mpi.c *)

(** A parallel region whose threads do nothing but print: each has the lines that it
    has still to print. *)
Module PrintRegion.
Section region.
Context {L : Type}.

Record region := Region { rest : list (list L); output : list (nat * L) }.

(** Thread [t] prints its next line. *)
Definition exec (t : nat) (s : region) : option region :=
  ls ← rest s !! t;
  match ls with
  | l :: ls' => Some (Region (<[t := ls']> (rest s)) (output s ++ [(t, l)]))
  | [] => None
  end.

Definition step (s s' : region) : Prop := ∃ t, exec t s = Some s'.

Definition start (programs : list (list L)) : region := Region programs [].

(** The implied barrier at the end. *)
Definition ended (s : region) : Prop := Forall (λ ls, ls = []) (rest s).

(** The lines of thread [t], as they stand in the output. *)
Definition lines_of (t : nat) (out : list (nat * L)) : list L := snd <$> filter (λ l, fst l = t) out.

(** An output of the region: what is on the screen when all threads have ended. *)
Definition region_output (programs : list (list L)) (out : list L) : Prop :=
  ∃ s, reachable (eq (start programs)) step s ∧ ended s ∧ out = snd <$> output s.

(** *** Lemmas *)

Lemma lines_of_snoc t out u l : lines_of t (out ++ [(u, l)]) = lines_of t out ++ (if decide (u = t) then [l] else []).
Proof. unfold lines_of. rewrite filter_app, fmap_app, filter_cons. cbn. by case_decide. Qed.

(** Every thread has printed a prefix of its lines, in order. *)
Lemma reachable_lines programs s :
  reachable (eq (start programs)) step s →
  length (rest s) = length programs ∧
  (∀ t ls, programs !! t = Some ls → ∃ ls', rest s !! t = Some ls' ∧ lines_of t (output s) ++ ls' = ls) ∧
  concat programs ≡ₚ (snd <$> output s) ++ concat (rest s).
Proof.
  revert s. apply (invariant_ind (eq (start programs)) step (λ s, _ ∧ _ ∧ _)).
  - intros s <-. split; [done|]. split; [|done]. intros t ls Ht. by exists ls.
  - intros s1 s2 (Hlen & Hl & Hp) (t & E). unfold exec in E.
    destruct (rest s1 !! t) as [[|l ls]|] eqn:Ht; try done. injection E as <-. cbn [rest output]. rewrite length_insert.
    split; [done|]. split.
    + intros u lu Hu. destruct (Hl u lu Hu) as (ls' & Hr & He). rewrite lines_of_snoc.
      destruct (decide (t = u)) as [->|Hne].
      * rewrite Ht in Hr. injection Hr as <-. exists ls. split; [|by rewrite <-app_assoc].
        apply list_lookup_insert_eq. by apply lookup_lt_Some in Ht.
      * exists ls'. rewrite list_lookup_insert_ne, app_nil_r by done. done.
    + rewrite Hp, fmap_app, <-app_assoc. f_equiv. by apply concat_take_one.
Qed.

(** Whatever has been printed, the region can be brought to its end. *)
Lemma print_region_ends s : ∃ s', rtc step s s' ∧ ended s'.
Proof.
  apply (rank_reaches step (λ _, True) ended (λ s, length (concat (rest s)))); [|done]. intros s1 _.
  destruct (decide (Forall (λ ls, length ls = 0) (rest s1))) as [He|He].
  - left. eapply Forall_impl; [exact He|]. intros ls. apply nil_length_inv.
  - right. apply not_Forall_Exists, list.Exists_exists in He as ([|l ls] & [t Ht]%list_elem_of_lookup & Hn); [by destruct Hn| |apply _].
    eexists. split; [exists t; unfold exec; by rewrite Ht|]. split; [done|].
    cbn [rest]. rewrite (concat_take_one _ _ _ _ Ht). cbn. lia.
Qed.

(** The region prints the lines of all threads, those of each in order, and nothing else. *)
Lemma region_output_spec programs out :
  region_output programs out →
  ∃ tagged : list (nat * L), out = snd <$> tagged ∧ out ≡ₚ concat programs ∧
    ∀ t ls, programs !! t = Some ls → lines_of t tagged = ls.
Proof.
  intros (s & Hs & He & ->). destruct (reachable_lines programs s Hs) as (_ & Hl & Hp).
  exists (output s). split; [done|]. split.
  - rewrite Hp. assert (concat (rest s) = []) as ->; [|by rewrite app_nil_r].
    unfold ended in He. clear -He. induction He as [|ls l -> _ IH]; [done|exact IH].
  - intros t ls Ht. destruct (Hl t ls Ht) as (ls' & Hr & <-). unfold ended in He. rewrite Forall_lookup in He.
    by rewrite (He t ls' Hr), app_nil_r.
Qed.

Lemma region_output_exists programs : ∃ out, region_output programs out.
Proof.
  destruct (print_region_ends (start programs)) as (s & Hs & He). exists (snd <$> output s), s. split; [|done].
  exists (start programs). done.
Qed.
End region.
Arguments region : clear implicits.
End PrintRegion.

(** *** hello_world.c *)

Module OmpHello.
Inductive line := Serial_section | Hello (thread_num num_threads : Z) | Back.

Definition hello_thread (num_threads thread_num : nat) : list line := [Hello (Z.of_nat thread_num) (Z.of_nat num_threads)].

(** What the program may print when the region gets [num_threads] threads. *)
Definition main (num_threads : nat) (out : list line) : Prop :=
  ∃ region, PrintRegion.region_output (hello_thread num_threads <$> seq 0 num_threads) region ∧
    out = [Serial_section] ++ region ++ [Back].
End OmpHello.

(** *** priv_vars.c *)

Module PrivVars.
Inductive line :=
| Serial_thread (thread_num x : Z)
| Before_initialization (thread_num : Z)
| After_initialization (thread_num : Z)
| Value (thread_num x : Z)
| Master (thread_num : Z).

(** The loop that adds [thread_num + 1] to [x]: the lines it prints and the last [x]. *)
Fixpoint adding (count : nat) (thread_num x : Z) : list line * Z :=
  match count with
  | 0 => ([], x)
  | S count =>
    let x := i32 (x + (thread_num + 1)) in
    let '(out, x') := adding count thread_num x in (Value thread_num x :: out, x')
  end.

(** The region, as the thread with number [t] runs it: [thread_num] is private, with an
    indeterminate value at first, and [x] a copy. *)
Definition priv_thread (indeterminate x : Z) (t : nat) : list line :=
  let out := [Before_initialization indeterminate] in
  let thread_num := Z.of_nat t in
  let out := out ++ [After_initialization thread_num; Value thread_num x] in
  let '(added, _) := adding 3 thread_num x in
  out ++ added ++ (if decide (t = 0) then [Master thread_num] else []).

(** The private copies of [thread_num] begin with any values, and after the region the
    source takes those of [thread_num] and [x] as indeterminate. *)
Definition main (indeterminate : nat → Z) (after : Z * Z) (out : list line) : Prop :=
  let thread_num := (-1)%Z in
  let x := 100%Z in
  ∃ region, PrintRegion.region_output ((λ t, priv_thread (indeterminate t) x t) <$> seq 0 3) region ∧
    out = [Serial_thread thread_num x] ++ region ++ [Serial_thread (fst after) (snd after)].
End PrivVars.

(** *** openmp_mpi.c *)

Module OpenmpMpi.
Record line := Hello { my_id : Z; thread_num : Z; num_processes : Z; num_threads : Z }.

Definition hello_thread (id processes threads t : nat) : list line :=
  [Hello (Z.of_nat id) (Z.of_nat t) (Z.of_nat processes) (Z.of_nat threads)].

(** What process [id] may print. *)
Definition main (id processes threads : nat) (out : list line) : Prop :=
  PrintRegion.region_output (hello_thread id processes threads <$> seq 0 threads) out.
End OpenmpMpi.

(** What the three programs print: hello_world.c a greeting of every thread between its
    two serial lines, openmp_mpi.c a greeting of every thread, both in any order; in
    priv_vars.c every thread sees its own [thread_num] and its own [x], which begins at
    100, and only thread 0 is the master.  All three can come to their end. *)
Theorem printing_examples (n id processes : nat) (indeterminate : nat → Z) (after : Z * Z) :
  (∀ out, OmpHello.main n out → ∃ greetings, out = [OmpHello.Serial_section] ++ greetings ++ [OmpHello.Back] ∧
    greetings ≡ₚ (λ t, OmpHello.Hello (Z.of_nat t) (Z.of_nat n)) <$> seq 0 n) ∧
  (∀ out, OpenmpMpi.main id processes n out →
    out ≡ₚ (λ t, OpenmpMpi.Hello (Z.of_nat id) (Z.of_nat t) (Z.of_nat processes) (Z.of_nat n)) <$> seq 0 n) ∧
  (∀ out, PrivVars.main indeterminate after out →
    ∃ tagged, out = [PrivVars.Serial_thread (-1) 100] ++ (snd <$> tagged) ++ [PrivVars.Serial_thread (fst after) (snd after)] ∧
    ∀ t, t < 3 → let z := Z.of_nat t in
      PrintRegion.lines_of t tagged =
      [PrivVars.Before_initialization (indeterminate t); PrivVars.After_initialization z] ++
      ((λ k, PrivVars.Value z (100 + Z.of_nat k * (z + 1))) <$> [0; 1; 2; 3]) ++
      (if decide (t = 0) then [PrivVars.Master 0] else [])) ∧
  (∃ out, OmpHello.main n out) ∧ (∃ out, OpenmpMpi.main id processes n out) ∧ (∃ out, PrivVars.main indeterminate after out).
Proof.
  assert (∀ {L} (f : nat → L) k, concat ((λ t, [f t]) <$> seq 0 k) = f <$> seq 0 k) as Hc.
  { intros L f k. generalize (seq 0 k). intros l. induction l as [|a l IH]; cbn; [done|by rewrite IH]. }
  split; [|split; [|split; [|split; [|split]]]].
  - intros out (greetings & Hr & ->). exists greetings. split; [done|].
    destruct (PrintRegion.region_output_spec _ _ Hr) as (_ & _ & Hp & _).
    rewrite Hp. unfold OmpHello.hello_thread. by rewrite Hc.
  - intros out Hr. destruct (PrintRegion.region_output_spec _ _ Hr) as (_ & _ & Hp & _).
    rewrite Hp. unfold OpenmpMpi.hello_thread. by rewrite Hc.
  - intros out (region & Hr & ->). destruct (PrintRegion.region_output_spec _ _ Hr) as (tagged & -> & _ & Hl).
    exists tagged. split; [done|]. intros t Ht z.
    rewrite (Hl t (PrivVars.priv_thread (indeterminate t) 100 t)); [|rewrite list_lookup_fmap, lookup_seq_lt by exact Ht; reflexivity].
    unfold z. by do 3 (destruct t as [|t]; [reflexivity|]); lia.
  - destruct (PrintRegion.region_output_exists (OmpHello.hello_thread n <$> seq 0 n)) as [out Ho]. eexists. by exists out.
  - apply PrintRegion.region_output_exists.
  - destruct (PrintRegion.region_output_exists ((λ t, PrivVars.priv_thread (indeterminate t) 100 t) <$> seq 0 3)) as [out Ho].
    eexists. by exists out.
Qed.
