(* ===== verification/MPIExamples.v ===== *)
(** * The examples for MPI (project2/examples/MPI)

    The ring of communicate_world.c, in which every process sends to its successor and
    then receives from its predecessor with the blocking calls of MPI, and the greeting
    of hello_world.c.  Whether a standard-mode [MPI_Send] is buffered is a choice of the
    MPI library: a parameter, any for each process.  (openmp_mpi.c is in
    OpenMPExamples.v.) *)
From S2P Require Import Prelude Barrier Network OpenMPExamples.

(** ** communicate_world.c *)

Module Ring.

Inductive pc := Starting | Sending | Receiving | Printing | Finished.

#[export] Instance pc_eq_dec : EqDecision pc.
Proof. solve_decision. Defined.

(** A process; its rank is its position in the list of processes. *)
Record process := Process { at_pc : pc; my_dst : Z; my_src : Z; my_msg : Z * Z }.

Record message := Message { source : Z; dest : Z; msg_tag : Z; data : Z * Z }.

(** A line: [my_id], [my_msg[0]], [my_msg[1]]. *)
Record world := World { procs : list process; in_flight : list message; printed : list (Z * Z * Z) }.

Definition tag : Z := 1.

(** [while (my_src < 0) my_src += num_processes;] *)
Fixpoint while_negative (fuel : nat) (my_src num_processes : Z) : option Z :=
  if (my_src <? 0)%Z then
    match fuel with
    | 0 => None
    | S fuel => while_negative fuel (i32 (my_src + num_processes)) num_processes
    end
  else Some my_src.

(** What happens before the send; every round of the loop adds at least one. *)
Definition setup (my_id num_processes : Z) : option process :=
  let my_dst := Z.rem (my_id + 1) num_processes in
  let my_src := Z.rem (my_id - 1) num_processes in
  my_src ← while_negative (Z.to_nat (- my_src)) my_src num_processes;
  Some (Process Sending my_dst my_src (my_id, num_processes)).

(** [MPI_Send] returns. *)
Definition sent_it (p : process) : process := Process Receiving (my_dst p) (my_src p) (my_msg p).

(** [MPI_Recv] returns with [d]. *)
Definition got (p : process) (d : Z * Z) : process := Process Printing (my_dst p) (my_src p) d.

Definition printed_it (p : process) : process := Process Finished (my_dst p) (my_src p) (my_msg p).

(** The message is one that process [r], now at [p], is waiting for. *)
Definition matches (r : Z) (p : process) (m : message) : bool :=
  bool_decide (at_pc p = Receiving) && (source m =? my_src p)%Z && (dest m =? r)%Z && (msg_tag m =? tag)%Z.

(** The first message in flight for [p], and the others. *)
Fixpoint take_match (r : Z) (p : process) (ms : list message) : option (message * list message) :=
  match ms with
  | [] => None
  | m :: ms => if matches r p m then Some (m, ms) else '(m', ms') ← take_match r p ms; Some (m', m :: ms')
  end.

Section ring.
Context (n : nat) (buffered : nat → bool).

(** [MPI_Send]: a buffered message is put in flight; any other is handed over, when
    the process that it is for is waiting for it. *)
Definition send (r : nat) (p : process) (w : world) : option (res world) :=
  let m := Message (Z.of_nat r) (my_dst p) tag (my_msg p) in
  if decide (valid_rank n (my_dst p)) then
    if buffered r
    then Some (Ok (World (<[r := sent_it p]> (procs w)) (in_flight w ++ [m]) (printed w)))
    else
      let d := Z.to_nat (my_dst p) in
      q ← procs w !! d;
      if matches (Z.of_nat d) q m
      then Some (Ok (World (<[r := sent_it p]> (<[d := got q (data m)]> (procs w))) (in_flight w) (printed w)))
      else None
  else Some (Err mpi_error).

(** [MPI_Recv] *)
Definition recv (r : nat) (p : process) (w : world) : option (res world) :=
  if decide (valid_rank n (my_src p)) then
    '(m, ms) ← take_match (Z.of_nat r) p (in_flight w);
    Some (Ok (World (<[r := got p (data m)]> (procs w)) ms (printed w)))
  else Some (Err mpi_error).

(** The next step of process [r]; [None]: it waits, or it is at its end. *)
Definition exec (r : nat) (w : world) : option (res world) :=
  p ← procs w !! r;
  match at_pc p with
  | Starting => p ← setup (Z.of_nat r) (Z.of_nat n); Some (Ok (World (<[r := p]> (procs w)) (in_flight w) (printed w)))
  | Sending => send r p w
  | Receiving => recv r p w
  | Printing =>
    Some (Ok (World (<[r := printed_it p]> (procs w)) (in_flight w) (printed w ++ [(Z.of_nat r, fst (my_msg p), snd (my_msg p))])))
  | Finished => None
  end.

Definition step (w w' : world) : Prop := ∃ r, exec r w = Some (Ok w').

(** [mpirun] with [n] processes. *)
Definition start : world := World (replicate n (Process Starting 0 0 (0, 0)%Z)) [] [].

Definition finished (w : world) : Prop := Forall (λ p, at_pc p = Finished) (procs w).

(** The neighbours in the ring. *)
Definition succ (r : nat) : nat := if decide (S r = n) then 0 else S r.
Definition pred (r : nat) : nat := if decide (r = 0) then n - 1 else r - 1.

(** What process [r] prints. *)
Definition line (r : nat) : Z * Z * Z := (Z.of_nat r, Z.of_nat (pred r), Z.of_nat n).
End ring.

(** *** Lemmas *)

Section proofs.
Context (n : nat) (buffered : nat → bool).

Lemma succ_lt r : r < n → succ n r < n.
Proof using. unfold succ. case_decide; lia. Qed.

Lemma pred_lt r : r < n → pred n r < n.
Proof using. unfold pred. case_decide; lia. Qed.

Lemma succ_pred r : r < n → succ n (pred n r) = r.
Proof using. unfold succ, pred. repeat case_decide; lia. Qed.

Lemma pred_succ r : r < n → pred n (succ n r) = r.
Proof using. unfold succ, pred. repeat case_decide; lia. Qed.

(** What holds at one process, and of the predecessor of each where it holds, holds all round the ring. *)
Lemma round_the_ring (P : nat → Prop) b :
  b < n → P b → (∀ r, r < n → P r → P (pred n r)) → ∀ r, r < n → P r.
Proof using.
  intros Hb HPb Hpred.
  assert (∀ k r, r < n → P r → k ≤ r → P (r - k)) as Hdown.
  { induction k as [|k IH]; intros r Hr HP Hk; [by rewrite Nat.sub_0_r|].
    assert (P (r - k)) as H by (apply IH; lia || done). apply Hpred in H; [|lia]. unfold pred in H.
    rewrite decide_False in H by lia. by replace (r - S k) with (r - k - 1) by lia. }
  assert (P 0) as H0 by (rewrite <-(Nat.sub_diag b); by apply Hdown).
  assert (P (n - 1)) as Hn by (apply Hpred in H0; [by unfold pred in H0|lia]).
  intros r Hr. replace r with (n - 1 - (n - 1 - r)) by lia. apply Hdown; lia || done.
Qed.

Lemma while_positive fuel z k : (0 ≤ z)%Z → while_negative fuel z k = Some z.
Proof using. intros Hz. destruct fuel; cbn; by destruct (Z.ltb_spec z 0); [lia|]. Qed.

Lemma while_negative_once k : (1 ≤ k < 2 ^ 31)%Z → while_negative 1 (-1) k = Some (k - 1)%Z.
Proof using.
  intros Hk. change (while_negative 1 (-1) k) with (while_negative 0 (i32 (-1 + k)) k).
  rewrite i32_id, while_positive by (unfold i32_range; lia). f_equal. lia.
Qed.

(** The process with its data: it needs the number of processes to be an [int]. *)
Lemma setup_ok r :
  r < n → (Z.of_nat n < 2 ^ 31)%Z →
  setup (Z.of_nat r) (Z.of_nat n) =
  Some (Process Sending (Z.of_nat (succ n r)) (Z.of_nat (pred n r)) (Z.of_nat r, Z.of_nat n)).
Proof using.
  intros Hr Hn. unfold setup.
  assert (Z.rem (Z.of_nat r + 1) (Z.of_nat n) = Z.of_nat (succ n r)) as ->.
  { unfold succ. case_decide as E; [|rewrite Z.rem_small; lia].
    replace (Z.of_nat r + 1)%Z with (Z.of_nat n) by lia. by rewrite Z.rem_same by lia. }
  unfold pred. case_decide as E; [subst r|].
  - destruct (decide (n = 1)) as [->|H1]; [done|].
    assert (Z.rem (Z.of_nat 0 - 1) (Z.of_nat n) = -1)%Z as ->.
    { replace (Z.of_nat 0 - 1)%Z with (- (1))%Z by lia. by rewrite Z.rem_opp_l, (Z.rem_small 1) by lia. }
    change (Z.to_nat (- -1)) with 1. rewrite while_negative_once by lia. cbn. do 2 f_equal. lia.
  - rewrite Z.rem_small, while_positive by lia. cbn. do 2 f_equal. lia.
Qed.

Lemma take_match_split r p ms m ms' :
  take_match r p ms = Some (m, ms') → matches r p m = true ∧ ms ≡ₚ m :: ms'.
Proof using.
  revert m ms'. induction ms as [|m1 ms IH]; intros m ms' E; cbn in E; [done|].
  destruct (matches r p m1) eqn:Em; [by injection E as -> ->|].
  destruct (take_match r p ms) as [[m2 ms2]|]; [|done]. cbn in E. injection E as -> <-.
  destruct (IH _ _ eq_refl) as [? ->]. split; [done|]. apply Permutation_swap.
Qed.

Lemma take_match_some r p ms m : m ∈ ms → matches r p m = true → is_Some (take_match r p ms).
Proof using.
  induction ms as [|m1 ms IH]; intros Hin Hm; [by apply elem_of_nil in Hin|]. cbn.
  destruct (matches r p m1) eqn:Em; [done|]. apply elem_of_cons in Hin as [->|Hin]; [congruence|].
  destruct (IH Hin Hm) as [[m2 ms2] ->]. done.
Qed.

(** *** Invariant *)

Definition has_sent (p : process) : bool :=
  match at_pc p with Receiving | Printing | Finished => true | _ => false end.

Definition has_received (p : process) : bool :=
  match at_pc p with Printing | Finished => true | _ => false end.

Definition proc (w : world) (r : nat) : process := default (Process Starting 0 0 (0, 0)%Z) (procs w !! r).

Definition message_of (r : nat) : message :=
  Message (Z.of_nat r) (Z.of_nat (succ n r)) tag (Z.of_nat r, Z.of_nat n).

(** The data of process [r] at [c]. *)
Definition ready (r : nat) (c : pc) : process :=
  let p msg := Process c (Z.of_nat (succ n r)) (Z.of_nat (pred n r)) msg in
  p (if has_received (p (0, 0)%Z) then Z.of_nat (pred n r) else Z.of_nat r, Z.of_nat n).

Record good (w : world) : Prop := {
  gd_length : length (procs w) = n;
  gd_ready r : r < n → at_pc (proc w r) ≠ Starting → proc w r = ready r (at_pc (proc w r));
  gd_flight r : r < n → message_of r ∈ in_flight w ↔ has_sent (proc w r) = true ∧ has_received (proc w (succ n r)) = false;
  gd_order r : r < n → has_received (proc w (succ n r)) = true → has_sent (proc w r) = true;
  gd_handed r : r < n → buffered r = false → has_sent (proc w r) = true → has_received (proc w (succ n r)) = true;
  gd_genuine m : m ∈ in_flight w → ∃ r, r < n ∧ m = message_of r;
  gd_nodup : NoDup (in_flight w);
  gd_lines l : l ∈ printed w ↔ ∃ r, r < n ∧ at_pc (proc w r) = Finished ∧ l = line n r;
  gd_once : NoDup (printed w)
}.

Lemma proc_insert w r p fl o u :
  r < length (procs w) → proc (World (<[r := p]> (procs w)) fl o) u = if decide (u = r) then p else proc w u.
Proof using.
  intros Hr. unfold proc. cbn. case_decide as E; [subst u; by rewrite list_lookup_insert_eq|].
  by rewrite list_lookup_insert_ne by done.
Qed.

Lemma proc_lookup w r p : procs w !! r = Some p → proc w r = p.
Proof using. unfold proc. by intros ->. Qed.

Lemma lookup_proc w r : good w → r < n → procs w !! r = Some (proc w r).
Proof using. intros Hg Hr. unfold proc. rewrite <-(gd_length _ Hg) in Hr. by apply lookup_lt_is_Some in Hr as [p ->]. Qed.

Lemma message_of_inj r u : message_of r = message_of u → r = u.
Proof using. intros E. injection E. lia. Qed.

Lemma line_inj r u : line n r = line n u → r = u.
Proof using. intros E. injection E. lia. Qed.

Lemma succ_inj r u : r < n → u < n → succ n r = succ n u → r = u.
Proof using. intros Hr Hu E. by rewrite <-(pred_succ r), <-(pred_succ u), E. Qed.

(** Process [r] goes on to [c]; neither messages nor output change. *)
Lemma good_goto w r c :
  good w → r < n → c ≠ Starting → c ≠ Finished → at_pc (proc w r) ≠ Finished →
  has_sent (ready r c) = has_sent (proc w r) → has_received (ready r c) = has_received (proc w r) →
  good (World (<[r := ready r c]> (procs w)) (in_flight w) (printed w)).
Proof using.
  intros Hg Hr Hc Hf Hf' H1 H2. pose proof (gd_length _ Hg) as Hlen.
  assert (∀ u, has_sent (proc (World (<[r := ready r c]> (procs w)) (in_flight w) (printed w)) u) = has_sent (proc w u) ∧
    has_received (proc (World (<[r := ready r c]> (procs w)) (in_flight w) (printed w)) u) = has_received (proc w u)) as H.
  { intros u. rewrite proc_insert by lia. destruct (decide (u = r)) as [->|_]; done. }
  split; cbn [procs in_flight printed].
  - by rewrite length_insert.
  - intros u Hu. rewrite proc_insert by lia. destruct (decide (u = r)) as [->|_]; [done|by apply (gd_ready _ Hg)].
  - intros u Hu. destruct (H u) as [-> _], (H (succ n u)) as [_ ->]. by apply (gd_flight _ Hg).
  - intros u Hu. destruct (H u) as [-> _], (H (succ n u)) as [_ ->]. by apply (gd_order _ Hg).
  - intros u Hu. destruct (H u) as [-> _], (H (succ n u)) as [_ ->]. by apply (gd_handed _ Hg).
  - apply (gd_genuine _ Hg).
  - apply (gd_nodup _ Hg).
  - intros l. rewrite (gd_lines _ Hg). f_equiv. intros u. rewrite proc_insert by lia.
    destruct (decide (u = r)) as [->|_]; [|done]. cbn. naive_solver.
  - apply (gd_once _ Hg).
Qed.

(** The message of process [r] is put in flight. *)
Lemma good_send w r :
  good w → r < n → at_pc (proc w r) = Sending → buffered r = true →
  good (World (<[r := ready r Receiving]> (procs w)) (in_flight w ++ [message_of r]) (printed w)).
Proof using.
  intros Hg Hr Hpc Hb. pose proof (gd_length _ Hg) as Hlen.
  assert (has_sent (proc w r) = false ∧ has_received (proc w r) = false) as [Hs0 Hr0]
    by (unfold has_sent, has_received; by rewrite Hpc).
  set (w' := World _ _ _).
  assert (∀ u, proc w' u = if decide (u = r) then ready r Receiving else proc w u) as Hproc by (intros; apply proc_insert; lia).
  assert (∀ u, has_received (proc w' u) = has_received (proc w u)) as Hrecv
    by (intros u; rewrite Hproc; by destruct (decide (u = r)) as [->|_]).
  assert (message_of r ∉ in_flight w) as Hnew by (rewrite (gd_flight _ Hg) by done; naive_solver congruence).
  split; subst w'; cbn [procs in_flight printed] in *.
  - by rewrite length_insert.
  - intros u Hu. rewrite Hproc. destruct (decide (u = r)) as [->|_]; [done|by apply (gd_ready _ Hg)].
  - intros u Hu. rewrite Hrecv, Hproc, elem_of_app, list_elem_of_singleton, (gd_flight _ Hg) by done.
    destruct (decide (u = r)) as [->|Hne].
    + destruct (has_received (proc w (succ n r))) eqn:E; [|naive_solver].
      pose proof (gd_order _ Hg r Hr E). congruence.
    + split; [intros [?|E%message_of_inj]; done|by left].
  - intros u Hu. rewrite Hrecv, Hproc. destruct (decide (u = r)); [done|by apply (gd_order _ Hg)].
  - intros u Hu. rewrite Hrecv, Hproc. destruct (decide (u = r)); [congruence|by apply (gd_handed _ Hg)].
  - intros m [Hm| ->%list_elem_of_singleton]%elem_of_app; [by apply (gd_genuine _ Hg)|by exists r].
  - apply NoDup_app. split; [apply (gd_nodup _ Hg)|]. split; [|apply NoDup_singleton].
    by intros m Hm ->%list_elem_of_singleton.
  - intros l. rewrite (gd_lines _ Hg). f_equiv. intros u. rewrite Hproc. destruct (decide (u = r)) as [->|_]; [|done].
    rewrite Hpc. naive_solver.
  - apply (gd_once _ Hg).
Qed.

(** Process [r] takes the message of its predecessor. *)
Lemma good_recv w r ms :
  good w → r < n → at_pc (proc w r) = Receiving → in_flight w ≡ₚ message_of (pred n r) :: ms →
  good (World (<[r := ready r Printing]> (procs w)) ms (printed w)).
Proof using.
  intros Hg Hr Hpc Hms. pose proof (gd_length _ Hg) as Hlen. pose proof (pred_lt r Hr) as Hpr.
  pose proof (gd_nodup _ Hg) as Hnd. rewrite Hms in Hnd. apply NoDup_cons in Hnd as [Hnew Hnd].
  assert (has_sent (proc w (pred n r)) = true) as Hsp by (apply (gd_flight _ Hg); [done|rewrite Hms; left]).
  set (w' := World _ _ _).
  assert (∀ u, proc w' u = if decide (u = r) then ready r Printing else proc w u) as Hproc by (intros; apply proc_insert; lia).
  assert (∀ u, has_sent (proc w' u) = has_sent (proc w u)) as Hsent.
  { intros u. rewrite Hproc. destruct (decide (u = r)) as [->|_]; [|done]. unfold has_sent. by rewrite Hpc. }
  assert (∀ u, u < n → has_received (proc w' (succ n u)) =
    if decide (u = pred n r) then true else has_received (proc w (succ n u))) as Hrecv.
  { intros u Hu. rewrite Hproc. destruct (decide (u = pred n r)) as [->|Hne]; [by rewrite succ_pred, decide_True|].
    rewrite decide_False; [done|]. intros E. apply Hne. by rewrite <-E, pred_succ. }
  split; subst w'; cbn [procs in_flight printed] in *.
  - by rewrite length_insert.
  - intros u Hu. rewrite Hproc. destruct (decide (u = r)) as [->|_]; [done|by apply (gd_ready _ Hg)].
  - intros u Hu. rewrite Hsent, Hrecv by done. pose proof (gd_flight _ Hg u Hu) as Hf. rewrite Hms, elem_of_cons in Hf.
    destruct (decide (u = pred n r)) as [->|Hne]; [naive_solver|]. rewrite <-Hf. split; [by right|].
    intros [E%message_of_inj|?]; done.
  - intros u Hu. rewrite Hsent, Hrecv by done. destruct (decide (u = pred n r)) as [->|_]; [done|by apply (gd_order _ Hg)].
  - intros u Hu. rewrite Hsent, Hrecv by done. destruct (decide (u = pred n r)) as [->|_]; [done|by apply (gd_handed _ Hg)].
  - intros m Hm. apply (gd_genuine _ Hg). rewrite Hms. by right.
  - done.
  - intros l. rewrite (gd_lines _ Hg). f_equiv. intros u. rewrite Hproc. destruct (decide (u = r)) as [->|_]; [|done].
    rewrite Hpc. naive_solver.
  - apply (gd_once _ Hg).
Qed.

(** Process [r] prints its line. *)
Lemma good_print w r :
  good w → r < n → at_pc (proc w r) = Printing →
  good (World (<[r := ready r Finished]> (procs w)) (in_flight w) (printed w ++ [line n r])).
Proof using.
  intros Hg Hr Hpc. pose proof (gd_length _ Hg) as Hlen. set (w' := World _ _ _).
  assert (∀ u, proc w' u = if decide (u = r) then ready r Finished else proc w u) as Hproc by (intros; apply proc_insert; lia).
  assert (∀ u, has_sent (proc w' u) = has_sent (proc w u) ∧ has_received (proc w' u) = has_received (proc w u)) as H.
  { intros u. rewrite Hproc. destruct (decide (u = r)) as [->|_]; [|done]. unfold has_sent, has_received. by rewrite Hpc. }
  split; subst w'; cbn [procs in_flight printed] in *.
  - by rewrite length_insert.
  - intros u Hu. rewrite Hproc. destruct (decide (u = r)) as [->|_]; [done|by apply (gd_ready _ Hg)].
  - intros u Hu. destruct (H u) as [-> _], (H (succ n u)) as [_ ->]. by apply (gd_flight _ Hg).
  - intros u Hu. destruct (H u) as [-> _], (H (succ n u)) as [_ ->]. by apply (gd_order _ Hg).
  - intros u Hu. destruct (H u) as [-> _], (H (succ n u)) as [_ ->]. by apply (gd_handed _ Hg).
  - apply (gd_genuine _ Hg).
  - apply (gd_nodup _ Hg).
  - intros l. rewrite elem_of_app, list_elem_of_singleton, (gd_lines _ Hg). split.
    + intros [(u & Hu & Hf & ->)| ->]; [exists u|exists r]; rewrite Hproc; [|by rewrite decide_True].
      split; [done|]. split; [|done]. by destruct (decide (u = r)).
    + intros (u & Hu & Hf & ->). rewrite Hproc in Hf. destruct (decide (u = r)) as [->|_]; [by right|left; by exists u].
  - apply NoDup_app. split; [apply (gd_once _ Hg)|]. split; [|apply NoDup_singleton].
    intros l Hl ->%list_elem_of_singleton. apply (gd_lines _ Hg) in Hl as (u & _ & Hf & E%line_inj). subst u. congruence.
Qed.
End proofs.

(** Another choice of what is buffered, if the messages that it does not buffer have been
    taken. *)
Lemma good_buffered n b1 b2 w :
  good n b1 w →
  (∀ r, r < n → b2 r = false → b1 r = true → has_sent (proc w r) = true → has_received (proc w (succ n r)) = true) →
  good n b2 w.
Proof.
  intros Hg Hh. destruct Hg as [H1 H2 H3 H4 H5 H6 H7 H8 H9]. split; try done.
  intros r Hr Hb Hs. destruct (b1 r) eqn:E; [by apply Hh|by apply H5].
Qed.

Section run.
Context (n : nat) (buffered : nat → bool) (Hn : (Z.of_nat n < 2 ^ 31)%Z).

(** The message of process [r] is handed over. *)
Lemma good_hand_over w r :
  good n buffered w → r < n → at_pc (proc w r) = Sending → at_pc (proc w (succ n r)) = Receiving →
  good n buffered (World (<[r := ready n r Receiving]> (<[succ n r := ready n (succ n r) Printing]> (procs w)))
    (in_flight w) (printed w)).
Proof using.
  clear Hn. intros Hg Hr Hpc Hq. pose proof (succ_lt n r Hr) as Hsr. pose proof (gd_length _ _ _ Hg) as Hlen.
  assert (succ n r ≠ r) as Hne by congruence.
  set (b := λ u, bool_decide (u = r) || buffered u).
  assert (good n b w) as Hb.
  { apply (good_buffered n buffered); [done|]. intros u _ Hbu Hu. unfold b in Hbu. rewrite Hu in Hbu. by destruct (bool_decide _). }
  apply (good_send n b w r) in Hb; [|done..|unfold b; by rewrite bool_decide_eq_true_2].
  apply (good_recv n b _ (succ n r) (in_flight w)) in Hb; cbn [in_flight] in *; [|done| |].
  - cbn [procs printed] in Hb. rewrite list_insert_insert_ne in Hb by done.
    apply (good_buffered n b); [done|]. intros u Hu Hbu Hb1 _. unfold b in Hb1. rewrite Hbu in Hb1.
    case_bool_decide as E; [subst u|done]. unfold proc. cbn [procs].
    rewrite list_lookup_insert_ne, list_lookup_insert_eq by (done || lia). done.
  - rewrite proc_insert by lia. by rewrite decide_False.
  - rewrite pred_succ by done. symmetry. apply Permutation_cons_append.
Qed.

Lemma got_ready r : r < n → got (ready n (succ n r) Receiving) (Z.of_nat r, Z.of_nat n) = ready n (succ n r) Printing.
Proof using. intros Hr. unfold got, ready. cbn. by rewrite pred_succ. Qed.

Lemma valid_neighbour u : u < n → valid_rank n (Z.of_nat u).
Proof using. unfold valid_rank. lia. Qed.

(** A step keeps the invariant and is no error. *)
Lemma ring_exec_good w r x :
  good n buffered w → exec n buffered r w = Some x → ∃ w', x = Ok w' ∧ good n buffered w'.
Proof using Hn.
  intros Hg E. unfold exec in E. destruct (procs w !! r) as [p|] eqn:Hp; [|done]. cbn in E.
  pose proof (lookup_lt_Some _ _ _ Hp) as Hr. rewrite (gd_length _ _ _ Hg) in Hr. apply proc_lookup in Hp.
  pose proof (gd_ready _ _ _ Hg r Hr) as Hready. rewrite Hp in Hready. rewrite <-Hp in E.
  assert (has_sent (proc w r) = has_sent (ready n r (at_pc p)) ∧
    has_received (proc w r) = has_received (ready n r (at_pc p))) as [Hs0 Hr0] by (rewrite Hp; done).
  destruct (at_pc p) eqn:Hpc; rewrite Hp, Hpc in E; [|specialize (Hready ltac:(done)) as ->..].
  - rewrite setup_ok in E by done. cbn in E. injection E as <-. eexists. split; [done|].
    apply (good_goto n buffered w r Sending); by rewrite ?Hs0, ?Hr0, ?Hp, ?Hpc.
  - unfold send in E. cbn [ready my_dst my_msg] in E. rewrite decide_True in E by (by apply valid_neighbour, succ_lt).
    destruct (buffered r) eqn:Eb.
    + injection E as <-. eexists. split; [done|]. apply (good_send n buffered w r); by rewrite ?Hp.
    + rewrite Nat2Z.id in E. rewrite (lookup_proc n buffered) in E by (done || by apply succ_lt). cbn [mbind option_bind] in E.
      destruct (matches _ _ _) eqn:Em; [|done]. injection E as <-. eexists. split; [done|].
      apply andb_true_iff in Em as [[[Hq _]%andb_true_iff _]%andb_true_iff _]. apply bool_decide_eq_true in Hq.
      pose proof (gd_ready _ _ _ Hg (succ n r) (succ_lt n r Hr)) as Hd. rewrite Hq in Hd. rewrite (Hd ltac:(done)).
      pose proof (good_hand_over w r Hg Hr) as H. rewrite Hp in H. specialize (H eq_refl Hq).
      cbn [data]. by rewrite got_ready.
  - unfold recv in E. cbn [ready my_src] in E. rewrite decide_True in E by (by apply valid_neighbour, pred_lt).
    destruct (take_match _ _ _) as [[m ms]|] eqn:Em; [|done]. cbn in E. injection E as <-. eexists. split; [done|].
    apply take_match_split in Em as [Hm Hms].
    destruct (gd_genuine _ _ _ Hg m) as (u & Hu & ->); [rewrite Hms; left|].
    apply andb_true_iff in Hm as [[[_ Hsrc]%andb_true_iff _]%andb_true_iff _]. cbn in Hsrc. apply Z.eqb_eq, Nat2Z.inj in Hsrc. subst u.
    apply (good_recv n buffered w r); rewrite ?Hp; done.
  - injection E as <-. eexists. split; [done|]. apply (good_print n buffered w r); by rewrite ?Hp.
  - done.
Qed.

Lemma ring_start_good : good n buffered (start n).
Proof using.
  clear Hn. assert (∀ r, r < n → proc (start n) r = Process Starting 0 0 (0, 0)%Z) as H
    by (intros r Hr; unfold proc, start; cbn [procs]; by rewrite lookup_replicate_2).
  split; try (intros r Hr; rewrite ?H by (done || by apply succ_lt); done); cbn.
  - apply length_replicate.
  - intros r Hr. rewrite H by done. split; [intros Hin; by apply elem_of_nil in Hin|by intros []].
  - intros m Hm. by apply elem_of_nil in Hm.
  - constructor.
  - intros l. split; [intros Hin; by apply elem_of_nil in Hin|]. intros (r & Hr & Hf & _). by rewrite H in Hf.
  - constructor.
Qed.

Lemma ring_reachable_good w : reachable (eq (start n)) (step n buffered) w → good n buffered w.
Proof using Hn.
  apply (invariant_ind (eq (start n)) (step n buffered)); [intros w' <-; apply ring_start_good|].
  intros w1 w2 Hg (r & E). destruct (ring_exec_good _ _ _ Hg E) as (w3 & [= ->] & ?). done.
Qed.

(** *** Progress *)

Definition steps_left (c : pc) : nat :=
  match c with Starting => 4 | Sending => 3 | Receiving => 2 | Printing => 1 | Finished => 0 end.

Definition rank (w : world) : nat := sum_list_with (λ p, steps_left (at_pc p)) (procs w).

(** What a process that has no step is doing. *)
Lemma waiting w r :
  good n buffered w → r < n → exec n buffered r w = None →
  (at_pc (proc w r) = Sending ∧ buffered r = false ∧ at_pc (proc w (succ n r)) ≠ Receiving) ∨
  (at_pc (proc w r) = Receiving ∧ has_sent (proc w (pred n r)) = false) ∨ at_pc (proc w r) = Finished.
Proof using Hn.
  intros Hg Hr E. pose proof (gd_ready _ _ _ Hg r Hr) as Hready. pose proof (succ_lt n r Hr) as Hsr.
  unfold exec in E. rewrite (lookup_proc n buffered) in E by done. cbn [mbind option_bind] in E.
  destruct (at_pc (proc w r)) eqn:Hpc; [|specialize (Hready ltac:(done))..].
  - by rewrite setup_ok in E.
  - left. split; [done|]. unfold send in E. rewrite Hready in E. cbn [ready my_dst my_msg] in E.
    rewrite decide_True in E by (by apply valid_neighbour). destruct (buffered r); [done|]. split; [done|]. intros Hq.
    rewrite Nat2Z.id, (lookup_proc n buffered) in E by done. cbn [mbind option_bind] in E.
    pose proof (gd_ready _ _ _ Hg _ Hsr) as Hd. rewrite Hq in Hd. rewrite Hd in E by done.
    unfold matches in E. cbn in E. by rewrite pred_succ, !Z.eqb_refl in E by done.
  - right. left. split; [done|]. destruct (has_sent (proc w (pred n r))) eqn:Hs; [|done]. exfalso.
    unfold recv in E. rewrite Hready in E. cbn [ready my_src] in E.
    rewrite decide_True in E by (by apply valid_neighbour, pred_lt).
    destruct (take_match_some (Z.of_nat r) (ready n r Receiving) (in_flight w) (message_of n (pred n r))) as [[m ms] Em].
    + apply (gd_flight _ _ _ Hg); [by apply pred_lt|]. split; [done|]. rewrite succ_pred by done.
      unfold has_received. by rewrite Hpc.
    + unfold matches. cbn. by rewrite succ_pred, !Z.eqb_refl.
    + by rewrite Em in E.
  - done.
  - by right; right.
Qed.

Lemma finished_all w : good n buffered w → (∀ r, r < n → at_pc (proc w r) = Finished) → finished w.
Proof using.
  clear Hn. intros Hg H. apply Forall_lookup. intros r p Hp. pose proof (lookup_lt_Some _ _ _ Hp) as Hr.
  rewrite (gd_length _ _ _ Hg) in Hr. rewrite <-(proc_lookup w r p Hp). by apply H.
Qed.

(** Somebody can make a step, or all are at their end, when one send is buffered. *)
Lemma ring_moves b w : b < n → buffered b = true → good n buffered w → finished w ∨ ∃ r, is_Some (exec n buffered r w).
Proof using Hn.
  intros Hb Hbuf Hg. destruct (decide (Exists (λ r, is_Some (exec n buffered r w)) (seq 0 n))) as [He|He].
  { right. apply list.Exists_exists in He as (r & _ & ?). by exists r. }
  left. assert (∀ r, r < n → exec n buffered r w = None) as Hnone.
  { intros r Hr. apply eq_None_not_Some. intros Hs. apply He, list.Exists_exists. exists r. split; [apply elem_of_seq; lia|done]. }
  assert (∀ r, r < n → at_pc (proc w r) ≠ Receiving) as Hnr.
  { intros r Hr Hpc. destruct (waiting w r Hg Hr (Hnone r Hr)) as [(? & _)|[(_ & Hs)|?]]; [congruence| |congruence].
    pose proof (pred_lt n r Hr) as Hpr.
    destruct (waiting w (pred n r) Hg Hpr (Hnone _ Hpr)) as [(_ & _ & Hq)|[(Hq & _)|Hq]].
    - by rewrite succ_pred in Hq.
    - unfold has_sent in Hs. by rewrite Hq in Hs.
    - unfold has_sent in Hs. by rewrite Hq in Hs. }
  apply finished_all; [done|]. apply (round_the_ring n (λ r, at_pc (proc w r) = Finished) b Hb).
  - destruct (waiting w b Hg Hb (Hnone b Hb)) as [(_ & ? & _)|[(Hq & _)|?]]; [congruence| |done]. by destruct (Hnr b Hb).
  - intros r Hr Hf. pose proof (pred_lt n r Hr) as Hpr.
    assert (has_sent (proc w (pred n r)) = true) as Hs.
    { apply (gd_order _ _ _ Hg); [done|]. rewrite succ_pred by done. unfold has_received. by rewrite Hf. }
    destruct (waiting w _ Hg Hpr (Hnone _ Hpr)) as [(Hq & _)|[(Hq & _)|?]]; [|by destruct (Hnr _ Hpr)|done].
    unfold has_sent in Hs. by rewrite Hq in Hs.
Qed.

Lemma rank_insert w r p fl o :
  procs w !! r = Some (proc w r) → rank (World (<[r := p]> (procs w)) fl o) + steps_left (at_pc (proc w r)) = rank w + steps_left (at_pc p).
Proof using. clear Hn. intros Hp. exact (sum_insert (λ p, steps_left (at_pc p)) (procs w) r _ p Hp). Qed.

Lemma ring_exec_rank r w w' : exec n buffered r w = Some (Ok w') → rank w' < rank w.
Proof using.
  clear Hn. unfold exec. destruct (procs w !! r) as [p|] eqn:Hp; [|done]. cbn.
  pose proof (proc_lookup w r p Hp) as Hpr. pose proof (λ p' fl o, rank_insert w r p' fl o) as Hi. rewrite Hpr in Hi.
  destruct (at_pc p) eqn:Hpc.
  - destruct (setup _ _) as [p'|] eqn:Es; [|done]. cbn. intros [= <-].
    specialize (Hi p' (in_flight w) (printed w) Hp). unfold setup in Es.
    destruct (while_negative _ _ _); [|done]. cbn in Es. injection Es as <-. cbn in *. lia.
  - unfold send. case_decide; [|done]. destruct (buffered r).
    + intros [= <-]. specialize (Hi (sent_it p) (in_flight w ++ [Message (Z.of_nat r) (my_dst p) tag (my_msg p)]) (printed w) Hp).
      cbn in *. lia.
    + set (d := Z.to_nat (my_dst p)). destruct (procs w !! d) as [q|] eqn:Hq; [|done]. cbn [mbind option_bind].
      destruct (matches _ _ _) eqn:Em; [|done]. intros [= <-]. unfold matches in Em. rewrite !andb_true_iff, bool_decide_eq_true in Em.
      destruct Em as [[[Hqr _] _] _]. assert (r ≠ d) as Hne by congruence.
      set (w1 := World (<[d := got q (my_msg p)]> (procs w)) (in_flight w) (printed w)).
      assert (proc w1 r = p) as Hp1 by (apply proc_lookup; cbn; by rewrite list_lookup_insert_ne).
      pose proof (rank_insert w1 r (sent_it p) (in_flight w) (printed w)) as H1.
      rewrite Hp1 in H1. cbn [procs w1] in H1. rewrite list_lookup_insert_ne in H1 by done. specialize (H1 Hp).
      pose proof (rank_insert w d (got q (my_msg p)) (in_flight w) (printed w)) as H2.
      rewrite (proc_lookup w d q Hq) in H2. specialize (H2 Hq). rewrite Hqr in H2. cbn in *. rewrite Hpc in H1. cbn in H1.
      unfold w1 in *. lia.
  - unfold recv. case_decide; [|done]. destruct (take_match _ _ _) as [[m ms]|]; [|done]. cbn. intros [= <-].
    specialize (Hi (got p (data m)) ms (printed w) Hp). cbn in *. lia.
  - intros [= <-]. specialize (Hi (printed_it p) (in_flight w) (printed w ++ [(Z.of_nat r, fst (my_msg p), snd (my_msg p))]) Hp).
    cbn in *. lia.
  - done.
Qed.

Lemma ring_ends b w : b < n → buffered b = true → good n buffered w → ∃ w', rtc (step n buffered) w w' ∧ finished w'.
Proof using Hn.
  intros Hb Hbuf. apply (rank_reaches (step n buffered) (good n buffered) finished rank). intros w1 Hg.
  destruct (ring_moves b w1 Hb Hbuf Hg) as [Hf|(r & x & E)]; [by left|right].
  destruct (ring_exec_good w1 r x Hg E) as (w2 & -> & Hg2). exists w2. split; [by exists r|]. split; [done|]. by eapply ring_exec_rank.
Qed.

(** The lines when all are at their end. *)
Lemma finished_lines w : good n buffered w → finished w → printed w ≡ₚ line n <$> seq 0 n.
Proof using.
  clear Hn. intros Hg Hf. apply NoDup_Permutation.
  - apply (gd_once _ _ _ Hg).
  - apply NoDup_fmap_2_strong; [|apply NoDup_seq]. intros r u _ _. apply line_inj.
  - intros l. rewrite (gd_lines _ _ _ Hg), list_elem_of_fmap. setoid_rewrite elem_of_seq. split.
    + intros (r & Hr & _ & ->). exists r. split; [done|lia].
    + intros (r & -> & Hr). exists r. split; [lia|]. split; [|done].
      unfold finished in Hf. rewrite Forall_lookup in Hf. apply (Hf r). by apply (lookup_proc n buffered); [|lia].
Qed.

(** *** Without buffering *)

(** No process has got past its send. *)
Definition before_send (w : world) : Prop := Forall (λ p, at_pc p = Starting ∨ at_pc p = Sending) (procs w) ∧ printed w = [].

(** Every process is in its send, for good. *)
Definition deadlocked (w : world) : Prop :=
  Forall (λ p, at_pc p = Sending) (procs w) ∧ ∀ r, exec n buffered r w = None.

Context (Hun : ∀ r, r < n → buffered r = false).

Lemma exec_before_send w r w' :
  good n buffered w → before_send w → exec n buffered r w = Some (Ok w') → before_send w'.
Proof using Hun.
  clear Hn. intros Hg [Hall Hpr] E. unfold exec in E. destruct (procs w !! r) as [p|] eqn:Hp; [|done]. cbn in E.
  pose proof (lookup_lt_Some _ _ _ Hp) as Hr. rewrite (gd_length _ _ _ Hg) in Hr.
  pose proof Hall as Hall'. rewrite Forall_lookup in Hall'. pose proof (Hall' r p Hp) as Hpc.
  destruct (at_pc p); try (destruct Hpc; done).
  - unfold setup in E. destruct (while_negative _ _ _); [|done]. cbn in E. injection E as <-. split; [|done]. cbn.
    apply Forall_insert; [done|by right].
  - unfold send in E. rewrite Hun in E by done. case_decide; [|done].
    destruct (procs w !! Z.to_nat (my_dst p)) as [q|] eqn:Hq; [|done]. cbn [mbind option_bind] in E.
    destruct (matches _ _ _) eqn:Em; [|done]. unfold matches in Em. rewrite !andb_true_iff, bool_decide_eq_true in Em.
    destruct Em as [[[Hqr _] _] _]. destruct (Hall' _ q Hq); congruence.
Qed.

Lemma reachable_before_send w : reachable (eq (start n)) (step n buffered) w → before_send w.
Proof using Hn Hun.
  intros Hw. assert (good n buffered w ∧ before_send w) as [_ ?]; [|done]. revert w Hw.
  apply (invariant_ind (eq (start n)) (step n buffered) (λ w, good n buffered w ∧ before_send w)).
  - intros w <-. split; [apply ring_start_good|]. split; [|done]. apply Forall_replicate. by left.
  - intros w1 w2 [Hg Hb] (r & E). destruct (ring_exec_good _ _ _ Hg E) as (w3 & [= ->] & ?). split; [done|].
    by apply (exec_before_send w1 r).
Qed.

Lemma ring_deadlocks w :
  good n buffered w ∧ before_send w → ∃ w', rtc (step n buffered) w w' ∧ deadlocked w'.
Proof using Hn Hun.
  apply (rank_reaches (step n buffered) (λ w, good n buffered w ∧ before_send w) deadlocked rank).
  intros w1 [Hg [Hall Hpr]]. destruct (decide (Exists (λ p, at_pc p = Starting) (procs w1))) as [He|He].
  - right. apply list.Exists_exists in He as (p & [r Hp]%list_elem_of_lookup & Hpc).
    pose proof (lookup_lt_Some _ _ _ Hp) as Hr. rewrite (gd_length _ _ _ Hg) in Hr.
    eassert (exec n buffered r w1 = Some (Ok _)) as E by (unfold exec; rewrite Hp; cbn; rewrite Hpc, setup_ok by done; reflexivity).
    eexists. split; [by exists r|]. destruct (ring_exec_good _ _ _ Hg E) as (w3 & [= <-] & Hg3).
    split; [|by eapply ring_exec_rank]. split; [done|]. by apply (exec_before_send w1 r).
  - left. assert (Forall (λ p, at_pc p = Sending) (procs w1)) as Hs.
    { rewrite Forall_lookup in Hall. apply Forall_lookup. intros r p Hp. destruct (Hall r p Hp) as [Hpc|?]; [|done].
      destruct He. apply list.Exists_exists. exists p. split; [by eapply list_elem_of_lookup_2|done]. }
    split; [done|]. intros r. unfold exec. destruct (procs w1 !! r) as [p|] eqn:Hp; [|done]. cbn.
    pose proof (lookup_lt_Some _ _ _ Hp) as Hr. rewrite (gd_length _ _ _ Hg) in Hr.
    rewrite Forall_lookup in Hs. rewrite (Hs r p Hp). unfold send. rewrite Hun by done.
    pose proof (gd_ready _ _ _ Hg r Hr) as Hready. rewrite (proc_lookup _ _ _ Hp), (Hs r p Hp) in Hready.
    rewrite Hready by done. cbn [ready my_dst]. rewrite decide_True by (by apply valid_neighbour, succ_lt).
    destruct (procs w1 !! Z.to_nat _) as [q|] eqn:Hq; [|done]. cbn. unfold matches. by rewrite (Hs _ q Hq).
Qed.
End run.

(** *** Property *)

(** C28: the ring of any number of processes, whatever is buffered: no rank is out of
    range; what is printed is, once for each process, that it has heard of its
    predecessor; when the send of one process at least is buffered every run can be
    brought to its end, where all have printed; when none is, nobody prints anything and
    every run comes to a state in which all processes wait in [MPI_Send] for good. *)
Theorem ring_correct (n : nat) (buffered : nat → bool) (w : world) :
  (Z.of_nat n < 2 ^ 31)%Z → reachable (eq (start n)) (step n buffered) w →
  (∀ r e, exec n buffered r w ≠ Some (Err e)) ∧
  NoDup (printed w) ∧ (∀ l, l ∈ printed w → ∃ r, r < n ∧ l = line n r) ∧
  (finished w → printed w ≡ₚ line n <$> seq 0 n) ∧
  (∀ b, b < n → buffered b = true → ∃ w', rtc (step n buffered) w w' ∧ finished w') ∧
  ((∀ r, r < n → buffered r = false) →
    printed w = [] ∧ ∃ w', rtc (step n buffered) w w' ∧ deadlocked n buffered w').
Proof.
  intros Hn Hw. pose proof (ring_reachable_good n buffered Hn w Hw) as Hg.
  split; [|split; [apply (gd_once _ _ _ Hg)|split; [|split; [by eapply finished_lines|split]]]].
  - intros r e E. destruct (ring_exec_good n buffered Hn w r _ Hg E) as (w' & ? & _). done.
  - intros l Hl. apply (gd_lines _ _ _ Hg) in Hl as (r & ? & _ & ?). by exists r.
  - intros b Hb Hbuf. by eapply ring_ends.
  - intros Hun. pose proof (reachable_before_send n buffered Hn Hun w Hw) as Hb. split; [apply Hb|].
    by apply ring_deadlocks.
Qed.

(** *** Witness *)

Definition play (n : nat) (buffered : nat → bool) (w : world) (rs : list nat) : world :=
  foldl (λ w r, match exec n buffered r w with Some (Ok w') => w' | _ => w end) w rs.

Lemma ring_play_reachable n buffered w rs :
  reachable (eq (start n)) (step n buffered) w → reachable (eq (start n)) (step n buffered) (play n buffered w rs).
Proof.
  revert w. induction rs as [|r rs IH]; intros w Hw; [done|]. apply IH. cbn.
  destruct (exec n buffered r w) as [[w'|e]|] eqn:E; try done. eapply reachable_step; [exact Hw|]. by exists r.
Qed.

(** Three processes, of which the second has a buffered send, take turns. *)
Definition demo : world := play 3 (λ r, bool_decide (r = 1)) (start 3) (concat (replicate 12 [0; 1; 2])).

Lemma ring_correct_witness :
  finished demo ∧ printed demo ≡ₚ [(0, 2, 3); (1, 0, 3); (2, 1, 3)]%Z ∧
  ∃ w', rtc (step 3 (λ _, false)) (start 3) w' ∧ deadlocked 3 (λ _, false) w'.
Proof.
  assert (finished demo) as Hf by (apply (bool_decide_unpack _); by vm_compute). split; [done|]. split.
  - destruct (ring_correct 3 (λ r, bool_decide (r = 1)) demo) as (_ & _ & _ & H & _);
      [by vm_compute|apply ring_play_reachable, reachable_init; reflexivity|]. exact (H Hf).
  - destruct (ring_correct 3 (λ _, false) (start 3)) as (_ & _ & _ & _ & _ & H);
      [by vm_compute|apply reachable_init; reflexivity|]. apply H. done.
Defined.
End Ring.

(** ** hello_world.c *)

Module MpiHello.
Record line := Hello { my_id : Z; num_processes : Z }.

Definition hello_process (processes id : nat) : list line := [Hello (Z.of_nat id) (Z.of_nat processes)].

(** What [processes] processes may print. *)
Definition main (processes : nat) (out : list line) : Prop :=
  PrintRegion.region_output (hello_process processes <$> seq 0 processes) out.

(** A greeting of every process, in any order. *)
Lemma hello_processes processes out :
  main processes out → out ≡ₚ (λ id, Hello (Z.of_nat id) (Z.of_nat processes)) <$> seq 0 processes.
Proof.
  intros Hr. destruct (PrintRegion.region_output_spec _ _ Hr) as (_ & _ & -> & _). unfold hello_process.
  generalize (seq 0 processes) as l. intros l. clear. induction l as [|id l IH]; cbn; [done|by f_equiv].
Qed.
End MpiHello.
