(* ===== verification/Threadpool.v ===== *)
(** * The thread pool (project3/src/threadpool.h)

    The queue of jobs under its mutex, the workers of [ThreadLoop] and the
    callers of [add_job].  A step runs to the next point where another thread
    can interfere; [cv.wait] releases the mutex and sleeps in one step, a
    sleeping worker is woken by [notify_one] or for no reason at all. *)
From S2P Require Import Prelude.

Section threadpool.
Context {J : Type}.

(** Where a worker is in [ThreadLoop]. *)
Inductive worker :=
| Enter           (** in front of the mutex *)
| Test            (** holds the mutex, about to test [!event_queue.empty()] *)
| Asleep          (** in [cv.wait], the mutex released *)
| Woken           (** in [cv.wait], about to take the mutex again *)
| Running (j : J).

(** [notifies] counts the callers of [add_job] between the release of the mutex
    and [notify_one]; [added] and [started] record what was pushed and popped. *)
Record pool := Pool {
  event_queue : list J;
  queue_lock : option nat;
  thread_pool : list worker;
  notifies : nat;
  added : list J;
  started : list J
}.

(** The number of threads: [max((int)thread::hardware_concurrency(), num_threads)]. *)
Definition pool_size (hardware_concurrency num_threads : Z) : nat :=
  Z.to_nat (Z.max (i32 hardware_concurrency) num_threads).

(** The constructor. *)
Definition Threadpool (hardware_concurrency num_threads : Z) : pool :=
  Pool [] None (replicate (pool_size hardware_concurrency num_threads) Enter) 0 [] [].

Definition set_worker (i : nat) (w : worker) (s : pool) : pool :=
  Pool (event_queue s) (queue_lock s) (<[i := w]> (thread_pool s)) (notifies s) (added s) (started s).

Definition set_lock (l : option nat) (s : pool) : pool :=
  Pool (event_queue s) l (thread_pool s) (notifies s) (added s) (started s).

(** The critical section of [add_job]. *)
Definition add_job (j : J) (s : pool) : option pool :=
  match queue_lock s with
  | Some _ => None
  | None => Some (Pool (event_queue s ++ [j]) None (thread_pool s) (S (notifies s))
                    (added s ++ [j]) (started s))
  end.

Definition is_asleep (w : worker) : bool := match w with Asleep => true | _ => false end.

Definition wake (i : nat) (s : pool) : option pool :=
  match thread_pool s !! i with
  | Some Asleep => Some (set_worker i Woken s)
  | _ => None
  end.

(** [cv.notify_one()]: it wakes a sleeping worker [i], or nobody when none sleeps. *)
Definition notify_one (i : option nat) (s : pool) : option pool :=
  match notifies s with
  | O => None
  | S k =>
    let s := Pool (event_queue s) (queue_lock s) (thread_pool s) k (added s) (started s) in
    match i with
    | Some i => wake i s
    | None => if existsb is_asleep (thread_pool s) then None else Some s
    end
  end.

(** A step of worker [i]. *)
Definition ThreadLoop (i : nat) (s : pool) : option pool :=
  w ← thread_pool s !! i;
  match w with
  | Enter | Woken =>
    match queue_lock s with
    | Some _ => None
    | None => Some (set_worker i Test (set_lock (Some i) s))
    end
  | Test =>
    match event_queue s with
    | [] => Some (set_worker i Asleep (set_lock None s))
    | j :: q => Some (Pool q None (<[i := Running j]> (thread_pool s)) (notifies s)
                        (added s) (started s ++ [j]))
    end
  | Asleep => None
  | Running _ => Some (set_worker i Enter s)
  end.

(** The steps the pool takes by itself, and those of its environment. *)
Inductive inner : pool → pool → Prop :=
| Inner_notify i s s' : notify_one i s = Some s' → inner s s'
| Inner_work i s s' : ThreadLoop i s = Some s' → inner s s'.

Inductive step : pool → pool → Prop :=
| Step_inner s s' : inner s s' → step s s'
| Step_add j s s' : add_job j s = Some s' → step s s'
| Step_spurious i s s' : wake i s = Some s' → step s s'.

(** ** Invariant *)

(** Workers on their way to the queue. *)
Definition coming (w : worker) : nat :=
  match w with Enter | Test | Woken => 1 | Asleep | Running _ => 0 end.

Definition is_test (w : worker) : bool := match w with Test => true | _ => false end.

Record good (n : nat) (s : pool) : Prop := {
  gd_workers : length (thread_pool s) = n;
  gd_lock i : queue_lock s = Some i ↔ is_test <$> thread_pool s !! i = Some true;
  gd_jobs : added s = started s ++ event_queue s;
  gd_wakeups :
    length (event_queue s) ≤ notifies s + sum_list_with coming (thread_pool s) ∨
    (∀ i, thread_pool s !! i ≠ Some Asleep)
}.

(** ** Lemmas *)

Lemma lock_insert (s : pool) i w w' :
  (∀ k, queue_lock s = Some k ↔ is_test <$> thread_pool s !! k = Some true) →
  thread_pool s !! i = Some w → is_test w = false → is_test w' = false →
  ∀ k, queue_lock s = Some k ↔ is_test <$> <[i := w']> (thread_pool s) !! k = Some true.
Proof.
  intros H Hi Hw Hw' k. rewrite H. destruct (decide (k = i)) as [->|Hne].
  - rewrite Hi, list_lookup_insert_eq by by eapply lookup_lt_Some. cbn. by rewrite Hw, Hw'.
  - by rewrite list_lookup_insert_ne.
Qed.

Lemma wake_good n i s s' : good n s → wake i s = Some s' → good n s'.
Proof.
  intros [Hn Hl Hj Hw]. unfold wake. destruct (thread_pool s !! i) as [[]|] eqn:Ei; try done.
  intros [= <-]. split; cbn; [by rewrite length_insert| |done|].
  - by eapply lock_insert.
  - left. destruct Hw as [Hw|Hw]; [|by destruct (Hw i)].
    pose proof (sum_insert coming _ _ _ Woken Ei). cbn in *. lia.
Qed.

Lemma existsb_asleep (l : list worker) :
  existsb is_asleep l = false → ∀ i, l !! i ≠ Some Asleep.
Proof.
  intros H i Hi. assert (existsb is_asleep l = true) as E; [|congruence].
  apply existsb_exists. exists Asleep. split; [|done]. apply list_elem_of_In.
  by eapply list_elem_of_lookup_2.
Qed.

Lemma pool_inner_good n s s' : good n s → inner s s' → good n s'.
Proof.
  intros Hg Hin. destruct Hin as [[i|] s0 s1 E|i s0 s1 E]; destruct Hg as [Hn Hl Hj Hw].
  - unfold notify_one, wake in E. destruct (notifies s0) as [|k] eqn:Ek; [done|]. cbn in E.
    destruct (thread_pool s0 !! i) as [[]|] eqn:Ei; try done. injection E as <-.
    split; cbn; [by rewrite length_insert|by eapply lock_insert|done|].
    left. destruct Hw as [Hw|Hw]; [|by destruct (Hw i)].
    pose proof (sum_insert coming _ _ _ Woken Ei). cbn in *. lia.
  - unfold notify_one in E. destruct (notifies s0) as [|k] eqn:Ek; [done|]. cbn in E.
    destruct (existsb is_asleep (thread_pool s0)) eqn:Ea; [done|]. injection E as <-.
    split; cbn; [done|exact Hl|done|]. right. by apply existsb_asleep.
  - unfold ThreadLoop in E. destruct (thread_pool s0 !! i) as [w|] eqn:Ei; [|done]. cbn in E.
    pose proof (lookup_lt_Some _ _ _ Ei) as Hlt.
    assert (∀ w', (∀ k, thread_pool s0 !! k ≠ Some Asleep) → w' ≠ Asleep →
      ∀ k, <[i := w']> (thread_pool s0) !! k ≠ Some Asleep) as Hnone.
    { intros w' Hno Hw' k. destruct (decide (k = i)) as [->|Hne].
      - rewrite list_lookup_insert_eq by done. congruence.
      - rewrite list_lookup_insert_ne by done. apply Hno. }
    assert (∀ w', coming w ≤ coming w' → w' ≠ Asleep →
      length (event_queue s0) ≤ notifies s0 + sum_list_with coming (<[i := w']> (thread_pool s0)) ∨
      (∀ k, <[i := w']> (thread_pool s0) !! k ≠ Some Asleep)) as Hkeep.
    { intros w' Hc Hw'. destruct Hw as [Hw|Hw]; [left|right; by apply Hnone].
      pose proof (sum_insert coming _ _ _ w' Ei). lia. }
    assert (queue_lock s0 = None → ∀ k, Some i = Some k ↔
      is_test <$> <[i := Test]> (thread_pool s0) !! k = Some true) as Hlock.
    { intros E0 k. destruct (decide (k = i)) as [->|Hne].
      - by rewrite list_lookup_insert_eq.
      - rewrite list_lookup_insert_ne, <-Hl, E0 by done. split; congruence. }
    assert (queue_lock s0 = Some i → ∀ w', is_test w' = false → ∀ k, None = Some k ↔
      is_test <$> <[i := w']> (thread_pool s0) !! k = Some true) as Hunlock.
    { intros E0 w' Hw' k. destruct (decide (k = i)) as [->|Hne].
      - rewrite list_lookup_insert_eq by done. cbn. by rewrite Hw'.
      - rewrite list_lookup_insert_ne, <-Hl, E0 by done. split; congruence. }
    destruct w; try done.
    + destruct (queue_lock s0) eqn:E0; [done|]. injection E as <-.
      split; cbn; [by rewrite length_insert|by apply Hlock|done|by apply Hkeep].
    + assert (queue_lock s0 = Some i) as E0 by (apply Hl; by rewrite Ei).
      destruct (event_queue s0) as [|j q] eqn:Eq; injection E as <-;
        (split; cbn; [by rewrite length_insert|by apply Hunlock| |]).
      * by rewrite Eq.
      * left. rewrite Eq. cbn. lia.
      * by rewrite Hj, <-app_assoc.
      * destruct Hw as [Hw|Hw]; [left|right; by apply Hnone].
        pose proof (sum_insert coming _ _ _ (Running j) Ei). cbn in *. lia.
    + destruct (queue_lock s0) eqn:E0; [done|]. injection E as <-.
      split; cbn; [by rewrite length_insert|by apply Hlock|done|by apply Hkeep].
    + injection E as <-. split; cbn; [by rewrite length_insert| |done|].
      * by eapply lock_insert.
      * apply Hkeep; [cbn; lia|done].
Qed.

Lemma pool_step_good n s s' : good n s → step s s' → good n s'.
Proof.
  intros Hg Hst. destruct Hst as [s0 s1 E|j s0 s1 E|i s0 s1 E].
  - by eapply pool_inner_good.
  - destruct Hg as [Hn Hl Hj Hw]. unfold add_job in E. destruct (queue_lock s0) eqn:E0; [done|].
    injection E as <-. split; cbn; [done|exact Hl| |].
    + by rewrite Hj, app_assoc.
    + destruct Hw as [Hw|Hw]; [left|by right]. rewrite length_app. cbn. lia.
  - by eapply wake_good.
Qed.

Lemma constructed_good hc k : good (pool_size hc k) (Threadpool hc k).
Proof.
  split; cbn; [by rewrite length_replicate| |done|left; lia].
  intros i. destruct (replicate _ Enter !! i) as [w|] eqn:E; [|done].
  apply lookup_replicate in E as [-> _]. done.
Qed.

Lemma pool_good hc k s :
  reachable (eq (Threadpool hc k)) step s → good (pool_size hc k) s.
Proof.
  revert s. apply invariant_ind.
  - intros s <-. apply constructed_good.
  - apply pool_step_good.
Qed.

(** *** The pool drains its queue *)

Definition worker_rank (w : worker) : nat :=
  match w with Running _ => 4 | Asleep => 3 | Enter | Woken => 2 | Test => 1 end.

Definition rank (s : pool) : nat :=
  10 * length (event_queue s) + notifies s + sum_list_with worker_rank (thread_pool s).

(** A worker that need not wait. *)
Lemma worker_moves n s i w :
  good n s → event_queue s ≠ [] → thread_pool s !! i = Some w → w ≠ Asleep →
  (queue_lock s = None ∨ queue_lock s = Some i ∨ ∃ j, w = Running j) →
  ∃ s', inner s s' ∧ rank s' < rank s.
Proof.
  intros [Hn Hl Hj Hw] Hq Hi Hna Hcase. pose proof (λ w', sum_insert worker_rank _ _ _ w' Hi) as Hsum.
  assert (w ≠ Test → w ≠ Asleep → (∃ j, w = Running j) ∨ queue_lock s = None) as Hfree.
  { intros Ht _. destruct Hcase as [?|[E|?]]; [by right| |by left].
    apply Hl in E. rewrite Hi in E. by destruct w. }
  assert (∀ s', ThreadLoop i s = Some s' → rank s' < rank s → ∃ s', inner s s' ∧ rank s' < rank s) as Hdone.
  { intros s' E Hr. exists s'. split; [|done]. by eapply Inner_work. }
  destruct w as [| | | |j]; [| |done| |].
  - destruct Hfree as [[j ?]|E0]; [done..|].
    eapply Hdone; [unfold ThreadLoop; rewrite Hi; cbn; by rewrite E0|].
    specialize (Hsum Test). unfold rank. cbn in *. lia.
  - destruct (event_queue s) as [|j q] eqn:Eq; [done|].
    eapply Hdone; [unfold ThreadLoop; rewrite Hi; cbn; by rewrite Eq|].
    specialize (Hsum (Running j)). unfold rank. rewrite Eq. cbn in *. lia.
  - destruct Hfree as [[j ?]|E0]; [done..|].
    eapply Hdone; [unfold ThreadLoop; rewrite Hi; cbn; by rewrite E0|].
    specialize (Hsum Test). unfold rank. cbn in *. lia.
  - eapply Hdone; [unfold ThreadLoop; by rewrite Hi|].
    specialize (Hsum Enter). unfold rank. cbn in *. lia.
Qed.

Lemma coming_worker (l : list worker) :
  0 < sum_list_with coming l → ∃ i w, l !! i = Some w ∧ coming w = 1.
Proof.
  intros H. destruct (decide (Exists (λ w, coming w = 1) l)) as [Hex|Hno].
  - apply Exists_exists in Hex as (w & [i Hi]%list_elem_of_lookup & Hw). by exists i, w.
  - rewrite sum_zero in H; [lia|]. intros i w Hi. apply not_Exists_Forall in Hno; [|intros ?; apply _].
    rewrite Forall_lookup in Hno. specialize (Hno i w Hi). cbn in Hno. by destruct w.
Qed.

Lemma queue_moves n s :
  good n s → 0 < n → event_queue s ≠ [] → ∃ s', inner s s' ∧ rank s' < rank s.
Proof.
  intros Hg Hn0 Hq. pose proof Hg as [Hn Hl Hj Hw].
  destruct (queue_lock s) as [k|] eqn:E0.
  { pose proof (proj1 (Hl k) eq_refl) as Hk. destruct (thread_pool s !! k) as [w|] eqn:Ek; [|done].
    apply (worker_moves n s k w); [done..|by destruct w|right; by left]. }
  destruct (existsb is_asleep (thread_pool s)) eqn:Ea.
  2: { destruct (lookup_lt_is_Some_2 (thread_pool s) 0) as [w Hw0]; [lia|].
       apply (worker_moves n s 0 w); [done..| |by left]. intros ->.
       by apply (existsb_asleep _ Ea 0). }
  apply existsb_exists in Ea as (w & [i Hi]%list_elem_of_In%list_elem_of_lookup & Ew).
  destruct w; try done. destruct Hw as [Hw|Hw]; [|by destruct (Hw i)].
  assert (0 < length (event_queue s)) as Hlen by (destruct (event_queue s); [done|cbn; lia]).
  destruct (notifies s) as [|k] eqn:Ek.
  - destruct (coming_worker (thread_pool s)) as (u & w & Hu & Hc); [lia|].
    apply (worker_moves n s u w); [done..|by intros ->|by left].
  - eexists. split.
    + eapply (Inner_notify (Some i)). unfold notify_one, wake. rewrite Ek. cbn. by rewrite Hi.
    + pose proof (sum_insert worker_rank _ _ _ Woken Hi). unfold rank. cbn in *. rewrite Ek. lia.
Qed.

Lemma drains n s : good n s → 0 < n → ∃ s', rtc inner s s' ∧ event_queue s' = [].
Proof.
  intros Hg Hn. revert s Hg. apply (rank_reaches inner (good n) _ rank). intros s Hg.
  destruct (event_queue s) as [|j q] eqn:Eq; [by left|]. right.
  destruct (queue_moves n s) as (s' & Hs & Hr); [done..|by rewrite Eq|].
  exists s'. split; [done|]. split; [|done]. by eapply pool_inner_good.
Qed.

(** ** What the pool promises *)

(** A queue of jobs from which jobs are started: those that wait and those that
    have been started. *)
Inductive jobs_step : list J * list J → list J * list J → Prop :=
| Jobs_add j waiting st : jobs_step (waiting, st) (waiting ++ [j], st)
| Jobs_start j waiting st : jobs_step (j :: waiting, st) (waiting, st ++ [j]).

Definition jobs_of (s : pool) : list J * list J := (event_queue s, started s).

Lemma wake_jobs i s s' : wake i s = Some s' → jobs_of s' = jobs_of s.
Proof. unfold wake. repeat case_match; try done. by intros [= <-]. Qed.

Lemma step_jobs s s' : step s s' → rtc jobs_step (jobs_of s) (jobs_of s').
Proof.
  intros [s0 s1 [[i|] s2 s3 E|i s2 s3 E]|j s0 s1 E|i s0 s1 E].
  - unfold notify_one in E. destruct (notifies s2); [done|]. apply wake_jobs in E. by rewrite E.
  - unfold notify_one in E. destruct (notifies s2); [done|]. case_match; [done|]. by injection E as <-.
  - unfold ThreadLoop in E. destruct (thread_pool s2 !! i) as [w|]; [|done]. cbn in E.
    destruct w; try done; repeat case_match; try done; injection E as <-; try done.
    apply rtc_once. unfold jobs_of. cbn. rewrite H. apply Jobs_start.
  - unfold add_job in E. case_match; [done|]. injection E as <-. apply rtc_once, Jobs_add.
  - apply wake_jobs in E. by rewrite E.
Qed.

(** ** Properties *)


(** Every job is started exactly once, by one worker, in the order in which
    the jobs were added; the queue holds the others.  So no worker pops an empty
    queue, whatever the interleaving and the spurious wake-ups; and at most one
    worker is in the critical section. *)
Theorem jobs_started_in_order (hc k : Z) (s : pool) :
  reachable (eq (Threadpool hc k)) step s →
  added s = started s ++ event_queue s ∧
  ∀ i i', thread_pool s !! i = Some Test → thread_pool s !! i' = Some Test → i = i'.
Proof.
  intros Hs. destruct (pool_good hc k s Hs) as [_ Hl Hj _]. split; [done|].
  intros i i' Hi Hi'. assert (queue_lock s = Some i) as E by (apply Hl; by rewrite Hi).
  assert (queue_lock s = Some i') as E' by (apply Hl; by rewrite Hi'). congruence.
Qed.

(** C35: no wake-up is lost: while a worker sleeps, the jobs in the queue are no
    more than the workers on their way to it and the notifications still to come;
    and a pool with a worker starts every job that has been added without further
    additions or spurious wake-ups. *)
Theorem no_lost_wakeup (hc k : Z) (s : pool) :
  reachable (eq (Threadpool hc k)) step s →
  (∀ i, thread_pool s !! i = Some Asleep →
    length (event_queue s) ≤ notifies s + sum_list_with coming (thread_pool s)) ∧
  (0 < pool_size hc k → ∃ s', rtc inner s s' ∧ event_queue s' = []).
Proof.
  intros Hs. pose proof (pool_good hc k s Hs) as Hg. split.
  - intros i Hi. destruct (gd_wakeups _ _ Hg) as [?|Hw]; [done|by destruct (Hw i)].
  - intros Hn. by apply (drains _ _ Hg).
Qed.
End threadpool.
Arguments worker J : clear implicits.
Arguments pool J : clear implicits.

(** The comment on the constructor says that the number of threads is tapered at
    what the hardware offers: it is at least that. *)
Lemma pool_not_tapered (hc k : Z) :
  i32_range hc → (hc < k)%Z → Z.of_nat (pool_size hc k) = Z.max 0 k.
Proof. intros Hi Hk. unfold pool_size. rewrite i32_id by done. lia. Qed.

(** ** Witnesses *)

(** A run given by the steps of the workers, of [add_job] and of [notify_one]. *)
Inductive action := Work (i : nat) | Add (j : nat) | Notify (i : option nat).

Definition act (s : pool nat) (a : action) : pool nat :=
  default s (match a with
             | Work i => ThreadLoop i s
             | Add j => add_job j s
             | Notify i => notify_one i s
             end).

Lemma acts_reachable (acts : list action) s0 s :
  reachable (eq s0) step s → reachable (eq s0) step (foldl act s acts).
Proof.
  revert s. induction acts as [|a acts IH]; intros s Hs; [done|]. apply IH. unfold act.
  destruct a as [i|j|i].
  - destruct (ThreadLoop i s) as [s'|] eqn:E; [|done].
    eapply reachable_step; [exact Hs|]. by apply Step_inner, (Inner_work i).
  - destruct (add_job j s) as [s'|] eqn:E; [|done].
    eapply reachable_step; [exact Hs|]. by apply (Step_add j).
  - destruct (notify_one i s) as [s'|] eqn:E; [|done].
    eapply reachable_step; [exact Hs|]. by apply Step_inner, (Inner_notify i).
Qed.

(** Four workers; the second sleeps, two jobs have been added and one notification
    is still to come. *)
Definition demo : pool nat :=
  foldl act (Threadpool 4 2)
    [Work 0; Work 0; Work 1; Work 1; Add 7; Add 8; Notify (Some 0)].

Lemma pool_demo_reachable : reachable (eq (Threadpool 4 2)) step demo.
Proof. apply acts_reachable. by exists (Threadpool 4 2). Qed.

Lemma jobs_started_in_order_witness :
  event_queue demo = [7; 8] ∧ added demo = started demo ++ event_queue demo.
Proof.
  split; [by vm_compute|]. apply (jobs_started_in_order 4 2 demo pool_demo_reachable).
Defined.


Lemma no_lost_wakeup_witness :
  thread_pool demo !! 1 = Some Asleep ∧ ∃ s', rtc inner demo s' ∧ event_queue s' = [].
Proof.
  split; [by vm_compute|]. apply (no_lost_wakeup 4 2 demo pool_demo_reachable). by vm_compute; lia.
Defined.
