(* ===== verification/VendorClient.v ===== *)
(** * The client of the vendors (project3/src/vendor_client.cc)

    [getProductBid] starts one call per vendor and collects as many completions.
    All calls share one [reply] and one [status]; what a completion stores there
    is described in the comments of the source: upon completion of the RPC,
    [reply] is updated with the server's response and [status] with the
    indication whether the operation was successful. *)
From S2P Require Import Prelude.

Section client.
(** A bid, and what each vendor answers; [None] is a call that fails.  [no_bid]
    is the empty [BidReply]. *)
Context {B : Type} (no_bid : B) (answer : nat → option B).

(** The variables of [getProductBid]: the calls started and not completed, the
    completions in [cq], and how many stubs and completions are still to come. *)
Record query := Query {
  stubs_left : list nat;
  started : list nat;
  reply : B;
  status_ok : bool;
  cq : nat;
  nexts_left : nat;
  product_bids : list B
}.

Definition getProductBid (n : nat) : query := Query (seq 0 n) [] no_bid true 0 n [].

(** The body of the first loop. *)
Definition start_call (q : query) : option query :=
  match stubs_left q with
  | [] => None
  | i :: l => Some (Query l (started q ++ [i]) (reply q) (status_ok q) (cq q) (nexts_left q) (product_bids q))
  end.

(** The call to vendor [i] completes. *)
Definition complete (i : nat) (q : query) : option query :=
  if decide (i ∈ started q) then
    Some (Query (stubs_left q) (filter (λ k, k ≠ i) (started q))
      (default (reply q) (answer i)) (bool_decide (is_Some (answer i))) (S (cq q)) (nexts_left q) (product_bids q))
  else None.

(** The body of the second loop, once the first has ended. *)
Definition next (q : query) : option query :=
  match stubs_left q, cq q, nexts_left q with
  | [], S e, S k =>
    Some (Query [] (started q) (reply q) (status_ok q) e k
      (if status_ok q then product_bids q ++ [reply q] else product_bids q))
  | _, _, _ => None
  end.

Inductive step (q q' : query) : Prop :=
| Step_start : start_call q = Some q' → step q q'
| Step_complete i : complete i q = Some q' → step q q'
| Step_next : next q = Some q' → step q q'.

Definition returned (q : query) : Prop := stubs_left q = [] ∧ nexts_left q = 0.

(** ** Invariant *)

Record good (n : nat) (q : query) : Prop := {
  gd_vendors : ∀ i, i ∈ stubs_left q ∨ i ∈ started q → i < n;
  gd_count : length (stubs_left q) + length (started q) + cq q = nexts_left q;
  gd_nodup : NoDup (stubs_left q ++ started q);
  (** once a call has completed, the shared variables hold an answer *)
  gd_reply : cq q ≠ 0 → status_ok q = true → ∃ i, i < n ∧ answer i = Some (reply q);
  gd_bids : length (product_bids q) + nexts_left q ≤ n;
  gd_answers : ∀ b, b ∈ product_bids q → ∃ i, i < n ∧ answer i = Some b
}.

Lemma filter_remove (l : list nat) i :
  NoDup l → i ∈ l → S (length (filter (λ k, k ≠ i) l)) = length l.
Proof.
  intros Hnd Hi. assert (filter (λ k, k ≠ i) l ++ [i] ≡ₚ l) as Hp.
  { apply NoDup_Permutation; [|done|].
    - apply NoDup_app. split; [by apply NoDup_filter|]. split; [|apply NoDup_singleton].
      intros x [Hx _]%list_elem_of_filter. by rewrite list_elem_of_singleton.
    - intros x. rewrite elem_of_app, list_elem_of_filter, list_elem_of_singleton.
      destruct (decide (x = i)) as [->|]; tauto. }
  apply Permutation_length in Hp. rewrite length_app in Hp. cbn in Hp. lia.
Qed.

Lemma filter_absent (l : list nat) i : i ∉ l → filter (λ k, k ≠ i) l = l.
Proof.
  induction l as [|k l IH]; intros Hi; [done|]. rewrite filter_cons_True by set_solver.
  f_equal. apply IH. set_solver.
Qed.

Lemma step_query_good n q q' : good n q → step q q' → good n q'.
Proof.
  intros [Hv Hc Hnd Hr Hb Ha] [E|i E|E].
  - unfold start_call in E. destruct (stubs_left q) as [|i l] eqn:El; [done|]. injection E as <-.
    split; cbn in *; try done.
    + intros k. rewrite elem_of_app, list_elem_of_singleton. intros [?|[?| ->]]; apply Hv; set_solver.
    + rewrite length_app. cbn. lia.
    + rewrite app_assoc, Permutation_app_comm. done.
  - unfold complete in E. case_decide as Hi; [|done]. injection E as <-.
    apply NoDup_app in Hnd as (Hn1 & Hn2 & Hn3). split; cbn; try done.
    + intros k. rewrite list_elem_of_filter. intros [?|[_ ?]]; apply Hv; auto.
    + pose proof (filter_remove _ i Hn3 Hi). lia.
    + apply NoDup_app. split; [done|]. split; [|by apply NoDup_filter].
      intros x Hx [_ ?]%list_elem_of_filter. by apply (Hn2 x).
    + intros _ [b Hbi]%bool_decide_eq_true. exists i. split; [apply Hv; auto|]. by rewrite Hbi.
  - unfold next in E. destruct (stubs_left q) eqn:El; [|done]. destruct (cq q) as [|e] eqn:Ee; [done|].
    destruct (nexts_left q) as [|k] eqn:Ek; [done|]. injection E as <-.
    split; cbn in *; try done.
    + lia.
    + intros _ Hs. by apply Hr.
    + destruct (status_ok q); [rewrite length_app; cbn|]; lia.
    + intros b. destruct (status_ok q) eqn:Es; [|apply Ha].
      rewrite elem_of_app, list_elem_of_singleton. intros [?| ->]; [by apply Ha|by apply Hr].
Qed.

Lemma reachable_query n q : reachable (eq (getProductBid n)) step q → good n q.
Proof.
  revert q. apply invariant_ind; [|apply step_query_good].
  intros q <-. split; cbn; try done; try lia.
  - intros i. rewrite elem_of_seq, elem_of_nil. lia.
  - rewrite length_seq. lia.
  - rewrite app_nil_r. apply NoDup_seq.
  - intros b. by rewrite elem_of_nil.
Qed.

(** ** Runs *)

Inductive event := Start | Complete (i : nat) | Next.

Fixpoint run_events (es : list event) (q : query) : option query :=
  match es with
  | [] => Some q
  | e :: es =>
    q' ← match e with Start => start_call q | Complete i => complete i q | Next => next q end;
    run_events es q'
  end.

Lemma run_app es es' q : run_events (es ++ es') q = (run_events es q ≫= run_events es').
Proof.
  revert q. induction es as [|e es IH]; intros q; [done|]. cbn.
  destruct (match e with Start => start_call q | Complete i => complete i q | Next => next q end);
    cbn; [apply IH|done].
Qed.

Lemma run_steps es q q' : run_events es q = Some q' → rtc step q q'.
Proof.
  revert q. induction es as [|e es IH]; intros q E; cbn in E; [injection E as ->; done|].
  destruct (match e with Start => start_call q | Complete i => complete i q | Next => next q end)
    as [q1|] eqn:E1; [|done]. apply IH in E. eapply rtc_l; [|exact E].
  destruct e; [by apply Step_start|by eapply Step_complete|by apply Step_next].
Qed.

Lemma run_starts l done r st e k bs :
  run_events (replicate (length l) Start) (Query l done r st e k bs) = Some (Query [] (done ++ l) r st e k bs).
Proof.
  revert done. induction l as [|i l IH]; intros done; cbn; [by rewrite app_nil_r|].
  rewrite IH. by rewrite <-app_assoc.
Qed.

(** Each completion is collected before the next one. *)
Definition in_turn (order : list nat) : list event := concat ((λ i, [Complete i; Next]) <$> order).

Lemma run_in_turn order l r st bs :
  NoDup order → order ≡ₚ l →
  ∃ r' st', run_events (in_turn order) (Query [] l r st 0 (length order) bs) =
    Some (Query [] [] r' st' 0 0 (bs ++ omap answer order)).
Proof.
  revert l r st bs. induction order as [|i order IH]; intros l r st bs Hnd Hp.
  { apply Permutation_nil_l in Hp as <-. exists r, st. cbn. by rewrite app_nil_r. }
  apply NoDup_cons in Hnd as [Hi Hnd].
  assert (i ∈ l) as Hil by (rewrite <-Hp; left).
  assert (filter (λ k, k ≠ i) l ≡ₚ order) as Hp'.
  { rewrite <-Hp, filter_cons_False, filter_absent by tauto. done. }
  unfold in_turn. cbn. unfold complete at 1. cbn. rewrite decide_True by done. cbn.
  destruct (answer i) as [b|] eqn:Eb; cbn.
  - destruct (IH (filter (λ k, k ≠ i) l) b true (bs ++ [b]) Hnd) as (r' & st' & E); [by symmetry|].
    exists r', st'. fold (in_turn order).
    rewrite E. by rewrite <-app_assoc.
  - destruct (IH (filter (λ k, k ≠ i) l) r false bs Hnd) as (r' & st' & E); [by symmetry|].
    exists r', st'. fold (in_turn order). by rewrite E.
Qed.

(** All calls complete before the first completion is collected. *)
Lemma run_completions order l r st e k bs i b :
  NoDup (order ++ [i]) → order ++ [i] ≡ₚ l → answer i = Some b →
  run_events (Complete <$> order ++ [i]) (Query [] l r st e k bs) =
    Some (Query [] [] b true (S (length order) + e) k bs).
Proof.
  revert l r st e. induction order as [|j order IH]; intros l r st e Hnd Hp Hb; cbn in *.
  - assert (l = [i]) as -> by (by apply Permutation_singleton_l in Hp).
    unfold complete. cbn. rewrite decide_True by (by left). rewrite Hb. cbn.
    rewrite decide_False by (intros H; by apply H). done.
  - apply NoDup_cons in Hnd as [Hj Hnd].
    unfold complete. cbn. rewrite decide_True by (rewrite <-Hp; left). cbn.
    rewrite IH; [f_equal; f_equal; lia|done| |done].
    rewrite <-Hp, filter_cons_False, filter_absent by tauto. done.
Qed.

Lemma run_nexts m r k bs :
  run_events (replicate m Next) (Query [] [] r true (m + k) (m + k) bs) =
    Some (Query [] [] r true k k (bs ++ replicate m r)).
Proof.
  revert bs. induction m as [|m IH]; intros bs; cbn; [by rewrite app_nil_r|].
  rewrite IH. by rewrite <-app_assoc.
Qed.

(** ** Termination *)

Definition rank (q : query) : nat := 3 * length (stubs_left q) + 2 * length (started q) + cq q.

Lemma query_moves n q :
  good n q → returned q ∨ ∃ q', step q q' ∧ good n q' ∧ rank q' < rank q.
Proof.
  intros Hg. pose proof Hg as [Hv Hc Hnd _ _ _].
  assert ((∃ q', step q q' ∧ rank q' < rank q) → returned q ∨ ∃ q', step q q' ∧ good n q' ∧ rank q' < rank q)
    as Hstep.
  { intros (q' & Hs & Hr). right. exists q'. split; [done|]. split; [|done]. by eapply step_query_good. }
  destruct (stubs_left q) as [|i l] eqn:El.
  2: { apply Hstep. eexists. split; [apply Step_start; unfold start_call; by rewrite El|].
       unfold rank. cbn. rewrite El, length_app. cbn. lia. }
  destruct (cq q) as [|e] eqn:Ee.
  - destruct (started q) as [|i l] eqn:Est.
    + left. split; [done|]. cbn in Hc. lia.
    + apply Hstep. eexists. split.
      * apply (Step_complete _ _ i). unfold complete. by rewrite Est, decide_True by (by left).
      * cbn in Hnd. unfold rank. cbn [stubs_left started cq].
        pose proof (filter_remove (i :: l) i Hnd ltac:(by left)). rewrite El, Ee, Est in *. lia.
  - destruct (nexts_left q) as [|k] eqn:Ek; [cbn in Hc; lia|].
    apply Hstep. eexists. split; [apply Step_next; unfold next; by rewrite El, Ee, Ek|].
    unfold rank. cbn. rewrite El, Ee. cbn. lia.
Qed.

(** ** Properties *)

(** Whatever the order of the completions, [getProductBid] returns at most one
    bid per vendor and only bids that vendors gave; when it returns no call is
    outstanding; and it can always go on to return, provided the calls complete. *)
Theorem bids_are_answers (n : nat) (q : query) :
  reachable (eq (getProductBid n)) step q →
  length (product_bids q) ≤ n ∧
  (∀ b, b ∈ product_bids q → ∃ i, i < n ∧ answer i = Some b) ∧
  (returned q → started q = [] ∧ cq q = 0) ∧
  (∃ q', rtc step q q' ∧ returned q').
Proof.
  intros Hq%reachable_query. pose proof Hq as [_ Hc _ _ Hb Ha].
  split; [lia|]. split; [done|]. split.
  - intros [Hs Hn]. rewrite Hs, Hn in Hc. cbn in Hc.
    split; [apply nil_length_inv; lia|lia].
  - clear Hc Hb Ha. revert q Hq.
    apply (rank_reaches step (good n) returned rank). apply query_moves.
Qed.

(** When each completion is collected before the next call completes, the
    result holds the bids of all the vendors that answered, in the order in which
    they did, and nothing else. *)
Theorem bids_collected_in_turn (n : nat) (order : list nat) :
  order ≡ₚ seq 0 n →
  ∃ q, run_events (replicate n Start ++ in_turn order) (getProductBid n) = Some q ∧
    rtc step (getProductBid n) q ∧ returned q ∧
    product_bids q = omap answer order ∧ product_bids q ≡ₚ omap answer (seq 0 n).
Proof.
  intros Hp. assert (NoDup order) as Hnd by (rewrite Hp; apply NoDup_seq).
  assert (length order = n) as Hlen by (rewrite Hp; by rewrite length_seq).
  destruct (run_in_turn order (seq 0 n) no_bid true [] Hnd Hp) as (r' & st' & E).
  assert (run_events (replicate n Start ++ in_turn order) (getProductBid n) =
    Some (Query [] [] r' st' 0 0 (omap answer order))) as Erun.
  { rewrite run_app. unfold getProductBid.
    pose proof (run_starts (seq 0 n) [] no_bid true 0 n []) as Es. rewrite length_seq in Es.
    rewrite Es. cbn. rewrite <-Hlen at 2. apply E. }
  eexists. split; [exact Erun|]. split; [by eapply run_steps|]. split; [done|].
  split; [done|]. cbn. by rewrite Hp.
Qed.

(** All calls share [reply] and [status]: when they have all completed before the
    first completion is collected, the bid of the last one is returned once per
    vendor and the others are lost. *)
Theorem bids_overwritten (n : nat) (order : list nat) (i : nat) (b : B) :
  order ++ [i] ≡ₚ seq 0 n → answer i = Some b →
  ∃ q, run_events (replicate n Start ++ (Complete <$> order ++ [i]) ++ replicate n Next) (getProductBid n) =
      Some q ∧ rtc step (getProductBid n) q ∧ returned q ∧ product_bids q = replicate n b.
Proof.
  intros Hp Hb. assert (NoDup (order ++ [i])) as Hnd by (rewrite Hp; apply NoDup_seq).
  assert (S (length order) = n) as Hlen.
  { apply Permutation_length in Hp. rewrite length_app, length_seq in Hp. cbn in Hp. lia. }
  assert (run_events (replicate n Start ++ (Complete <$> order ++ [i]) ++ replicate n Next) (getProductBid n) =
    Some (Query [] [] b true 0 0 (replicate n b))) as Erun.
  { rewrite run_app. unfold getProductBid.
    pose proof (run_starts (seq 0 n) [] no_bid true 0 n []) as Es. rewrite length_seq in Es.
    rewrite Es. cbn [mbind option_bind app]. rewrite run_app, (run_completions _ _ _ _ _ _ _ i b) by done.
    cbn [mbind option_bind]. rewrite Nat.add_0_r, Hlen.
    pose proof (run_nexts n b 0 []) as En. rewrite Nat.add_0_r in En. exact En. }
  eexists. split; [exact Erun|]. split; [by eapply run_steps|]. done.
Qed.
End client.

(** ** Witnesses *)

(** Three vendors; the second does not answer. *)
Definition demo_answer (i : nat) : option nat := nth i [Some 10; None; Some 30] None.

Definition demo_query : query :=
  default (getProductBid 0 0)
    (run_events demo_answer [Start; Start; Complete 1; Start; Next; Complete 2] (getProductBid 0 3)).

Lemma bids_are_answers_witness :
  cq demo_query = 1 ∧ ∃ q, rtc (step demo_answer) demo_query q ∧ returned q.
Proof.
  split; [by vm_compute|]. apply (bids_are_answers 0 demo_answer 3 demo_query).
  exists (getProductBid 0 3). split; [done|].
  apply (run_steps demo_answer [Start; Start; Complete 1; Start; Next; Complete 2]). by vm_compute.
Defined.

Lemma bids_collected_in_turn_witness :
  ∃ q, run_events demo_answer (replicate 3 Start ++ in_turn [2; 1; 0]) (getProductBid 0 3) = Some q ∧
    rtc (step demo_answer) (getProductBid 0 3) q ∧ returned q ∧
    product_bids q = [30; 10] ∧ product_bids q ≡ₚ [10; 30].
Proof. apply (bids_collected_in_turn 0 demo_answer 3 [2; 1; 0]). symmetry. apply (Permutation_rev [0; 1; 2]). Defined.

Lemma bids_overwritten_witness :
  ∃ q, run_events demo_answer (replicate 3 Start ++ (Complete <$> [0; 1; 2]) ++ replicate 3 Next)
      (getProductBid 0 3) = Some q ∧
    rtc (step demo_answer) (getProductBid 0 3) q ∧ returned q ∧ product_bids q = [30; 30; 30].
Proof. by apply (bids_overwritten 0 demo_answer 3 [0; 1] 2 30). Defined.
