(* ===== verification/Vendors.v ===== *)
(** * The vendors (project3/test/vendor.cc, run_vendors.cc)

    The server of one vendor, the program that starts one per address of a file, and the
    bids that a job of the store collects from them with [getProductBid] of
    VendorClient.v.  Of gRPC a call is modelled by its outcome: it succeeds with what the
    vendor's method returns, or fails. *)
From S2P Require Import Prelude CxxString FileSystem VendorClient.

(** ** One vendor *)

Section vendor.
(** [std::hash<std::string>] *)
Context (hash : cstr → Z).

(** A [BidReply] has a price and a vendor; the price is a [double], and this one holds an
    integer. *)
Abbreviation BidReply := (Z * cstr)%type.

(** [VendorService::VendorService]: [id_] *)
Definition VendorService (server_address : cstr) : cstr := str "Vendor_" ++ server_address.

(** [VendorService::getProductBid] *)
Definition vendor_bid (id_ product_name : cstr) : BidReply :=
  ((u64 (hash (id_ ++ product_name)) `mod` 100)%Z, id_).

(** What a call to the [i]-th vendor of the store brings; [up i] says whether it
    succeeds. *)
Definition vendor_answer (up : nat → bool) (vendor_ips : list cstr) (product_name : cstr) (i : nat) :
    option BidReply :=
  ip ← vendor_ips !! i;
  if up i then Some (vendor_bid (VendorService ip) product_name) else None.

(** An empty [BidReply] *)
Definition empty_bid : BidReply := (0%Z, []).

(** The lists that [VendorClient::getProductBid] can return for a product. *)
Definition collects (vendor_ips : list cstr) (product_name : cstr) (response : list BidReply) : Prop :=
  ∃ up q,
    reachable (eq (getProductBid empty_bid (length vendor_ips)))
      (VendorClient.step (vendor_answer up vendor_ips product_name)) q ∧
    returned q ∧ response = product_bids q.

(** A bid is genuine when a vendor of the list gives it. *)
Definition genuine (vendor_ips : list cstr) (product_name : cstr) (b : BidReply) : Prop :=
  ∃ ip, ip ∈ vendor_ips ∧ b = vendor_bid (VendorService ip) product_name.

Lemma vendor_bid_range id_ product_name : (0 ≤ (vendor_bid id_ product_name).1 < 100)%Z.
Proof. cbn. by apply Z.mod_pos_bound. Qed.

Lemma collects_genuine ips name response :
  collects ips name response →
  length response ≤ length ips ∧ ∀ b, b ∈ response → genuine ips name b.
Proof.
  intros (up & q & Hq & _ & ->). apply reachable_query in Hq as [_ _ _ _ Hb Ha].
  split; [lia|]. intros b Hin. destruct (Ha b Hin) as (i & _ & E). unfold vendor_answer in E.
  destruct (ips !! i) as [ip|] eqn:Ei; [|done]. cbn in E. destruct (up i); [|done]. injection E as <-.
  exists ip. split; [by eapply list_elem_of_lookup_2|done].
Qed.

(** There is always something to return. *)
Lemma collects_some ips name : ∃ response, collects ips name response.
Proof.
  set (answer := vendor_answer (λ _, true) ips name).
  assert (good answer (length ips) (getProductBid empty_bid (length ips))) as Hg
    by (eapply reachable_query; by apply reachable_init).
  destruct (rank_reaches (VendorClient.step answer) (good answer (length ips)) returned rank
    (query_moves answer (length ips)) _ Hg) as (q & Hq & Hr).
  exists (product_bids q), (λ _, true), q. split; [|done]. by exists (getProductBid empty_bid (length ips)).
Qed.
End vendor.

(** ** run_vendors.cc *)

(** The loop of [main] over the lines of the file. *)
Fixpoint choose_addresses (addr_index : Z) (lines : list cstr) : list cstr :=
  match lines with
  | [] => []
  | ip_addr :: rest =>
    if decide (addr_index = -1)%Z then ip_addr :: choose_addresses addr_index rest
    else if decide (addr_index = 0)%Z then [ip_addr]
    else choose_addresses (addr_index - 1) rest
  end.

(** The size of a [std::unique_ptr], on a machine with addresses of 64 bits. *)
Definition sizeof_ThreadPtr : nat := 8.

(** The [join] of the [i]-th thread; [ends i] says whether its server comes to an end. *)
Definition join_vendor (ends : nat → bool) (n i : nat) : res unit :=
  if decide (i < n) then (if ends i then Ok tt else Err Blocked) else Err Undefined.

(** [run_vendors]: a thread for each address; the second loop runs to [sizeof(threads)]. *)
Definition run_vendors (ends : nat → bool) (ip_addresses : list cstr) : res unit :=
  let n := length ip_addresses in
  mfoldl (λ _, join_vendor ends n) tt (range 0 (n * sizeof_ThreadPtr)).

(** [main], which fails with [EXIT_FAILURE] *)
Definition run_vendors_main (ends : nat → bool) (f : fs) (argv : list cstr) : res unit :=
  let start filename addr_index :=
    match read_file f filename with
    | Some text => run_vendors ends (choose_addresses addr_index (getlines nl text))
    | None => Err (Exit 1)
    end in
  match argv with
  | [_; filename; index] => start filename (Z.max (-1) (atoi index))
  | [_; filename] => start filename (-1)%Z
  | _ => Err (Exit 1)
  end.

Lemma choose_all lines : choose_addresses (-1) lines = lines.
Proof. induction lines as [|l lines IH]; [done|]. cbn. by rewrite IH. Qed.

Lemma choose_one k lines : choose_addresses (Z.of_nat k) lines = option_list (lines !! k).
Proof.
  revert k. induction lines as [|l lines IH]; intros k; [done|]. cbn [choose_addresses].
  rewrite decide_False by lia. destruct k as [|k]; [done|].
  rewrite decide_False by lia. replace (Z.of_nat (S k) - 1)%Z with (Z.of_nat k) by lia. apply IH.
Qed.

Lemma join_all_vendors ends n k :
  k ≤ n → (∀ i, i < k → ends i = true) → mfoldl (λ _ : unit, join_vendor ends n) tt (range 0 k) = Ok tt.
Proof.
  intros Hk He. rewrite (mfoldl_ok _ (λ _ _, tt)); [by destruct (foldl _ _ _)|].
  intros [] i Hi%elem_of_range. unfold join_vendor. by rewrite decide_True, He by lia.
Qed.

(** [run_vendors] waits for the first server that does not end; when all of them end it
    goes on past the array. *)
Lemma run_vendors_outcome ends ips :
  run_vendors ends ips =
  if decide (ips = []) then Ok tt
  else if forallb ends (seq 0 (length ips)) then Err Undefined else Err Blocked.
Proof.
  unfold run_vendors, sizeof_ThreadPtr. set (n := length ips).
  case_decide as Hn; [by subst n; rewrite Hn|].
  assert (0 < n) as Hpos by (subst n; destruct ips; [done|cbn; lia]).
  destruct (forallb ends (seq 0 n)) eqn:Ef.
  - rewrite forallb_forall in Ef. rewrite (range_split 0 n (n * 8)), mfoldl_app by lia.
    rewrite join_all_vendors by (done || intros i Hi; apply Ef, in_seq; lia). cbn [mbind res_bind].
    unfold range. replace (n * 8 - n) with (S (n * 7 - 1)) by lia. cbn [seq mfoldl].
    unfold join_vendor. rewrite decide_False by lia. done.
  - assert (∃ k, k < n ∧ ends k = false ∧ ∀ i, i < k → ends i = true) as (k & Hk & Ek & Hfirst).
    { clear -Ef. induction n as [|n IH]; [done|]. rewrite seq_S, forallb_app in Ef. cbn in Ef.
      destruct (forallb ends (seq 0 n)) eqn:E1.
      - exists n. rewrite forallb_forall in E1. split; [lia|]. split; [by destruct (ends n)|].
        intros i Hi. apply E1, in_seq. lia.
      - destruct (IH eq_refl) as (k & ? & ? & ?). exists k. split; [lia|done]. }
    rewrite (range_split 0 k (n * 8)), mfoldl_app by lia. rewrite join_all_vendors by (done || lia). cbn [mbind res_bind].
    unfold range. replace (n * 8 - k) with (S (n * 8 - k - 1)) by lia. cbn [seq mfoldl].
    unfold join_vendor. rewrite decide_True by lia. by rewrite Ek.
Qed.

(** The program ends only without an address: with one it waits for its servers, and
    when all of them have ended it reads past its array of threads. *)
Theorem run_vendors_main_outcome (ends : nat → bool) (f : fs) (prog filename text : cstr) :
  read_file f filename = Some text →
  (∀ index, run_vendors_main ends f [prog; filename; index] =
    run_vendors ends (if decide (atoi index < 0)%Z then getlines nl text
                      else option_list (getlines nl text !! Z.to_nat (atoi index)))) ∧
  run_vendors_main ends f [prog; filename] = run_vendors ends (getlines nl text) ∧
  (∀ ips, ips ≠ [] → ∃ e, run_vendors ends ips = Err e ∧
    (e = Undefined ↔ ∀ i, i < length ips → ends i = true)).
Proof.
  intros Hf. split; [|split].
  - intros index. unfold run_vendors_main. rewrite Hf. case_decide.
    + rewrite Z.max_l by lia. by rewrite choose_all.
    + rewrite Z.max_r by lia. rewrite <-choose_one. by rewrite Z2Nat.id by lia.
  - unfold run_vendors_main. by rewrite Hf, choose_all.
  - intros ips Hne. rewrite run_vendors_outcome, decide_False by done.
    destruct (forallb ends (seq 0 (length ips))) eqn:Ef; eexists; (split; [done|]).
    + rewrite forallb_forall in Ef. split; [|done]. intros _ i Hi. apply Ef, in_seq. lia.
    + split; [done|]. intros H. enough (forallb ends (seq 0 (length ips)) = true) by congruence.
      apply forallb_forall. intros i Hi%in_seq. apply H. lia.
Qed.

(** ** Witness *)

Lemma run_vendors_main_outcome_witness :
  run_vendors_main (λ _, false) (FS {[str "ips" := str "a:1" ++ [nl] ++ str "b:2"]} ∅) [str "run_vendors"; str "ips"] =
    run_vendors (λ _, false) [str "a:1"; str "b:2"] ∧
  run_vendors (λ _, false) [str "a:1"; str "b:2"] = Err Blocked.
Proof.
  split; [|by vm_compute].
  destruct (run_vendors_main_outcome (λ _, false) (FS {[str "ips" := str "a:1" ++ [nl] ++ str "b:2"]} ∅)
    (str "run_vendors") (str "ips") (str "a:1" ++ [nl] ++ str "b:2") ltac:(by vm_compute)) as (_ & H & _).
  exact H.
Defined.
