(* ===== verification/Store.v ===== *)
(** * The store (project3/src/store.cc)

    The objects of class [CallData], each a state machine that serves one
    request, the loop of [HandleRpcs] that drives them, and the jobs they give to
    the thread pool.  The pool is used through its promise: jobs start in the
    order in which they were added (Threadpool.v).  Of gRPC the model has what
    the comments of the source say of it: a tag given to [RequestgetProducts]
    comes back through the completion queue with a request of a client, a tag
    given to [Finish] comes back when the reply has been sent. *)
From S2P Require Import Prelude CxxString FileSystem Threadpool VendorClient.

(** ** Start *)

(** [get_vendor_ips]: the lines of the file, none when it cannot be opened. *)
Definition get_vendor_ips (f : fs) (filename : cstr) : list cstr :=
  match read_file f filename with Some text => getlines nl text | None => [] end.

(** [main]: the arguments, the pool and the vendors. *)
Definition main (J : Type) (hardware_concurrency : Z) (f : fs) (argv : list cstr) :
    res (pool J * list cstr) :=
  match argv with
  | [_; vendors; _; threads] =>
    mret (Threadpool hardware_concurrency (atoi threads), get_vendor_ips f vendors)
  | _ => Err (Exit 0)
  end.

Section store.
(** Product names, prices and vendors. *)
Context {Q P V : Type} (no_product : Q).

Inductive CallStatus := CREATE | PROCESS | FINISH.

#[export] Instance CallStatus_eq_dec : EqDecision CallStatus.
Proof. solve_decision. Defined.

Record ProductInfo := Product { price : P; vendor_id : V }.

Record CallData := Call { status_ : CallStatus; request_ : Q; reply_ : list ProductInfo }.

(** Addresses of objects are tags. *)
Abbreviation tag := nat.

(** The objects that exist; the tags for which gRPC holds an acceptor, those in
    the completion queue, those of the jobs that wait in the pool, that have been
    started, that have also created their successor, and those whose reply is
    being sent.  [accepted] and [answered] record the requests and the replies. *)
Record server := Server {
  objects : gmap tag CallData;
  requested : list tag;
  completions : list tag;
  jobs : list tag;
  starting : list tag;
  running : list tag;
  finishing : list tag;
  accepted : list Q;
  answered : list (Q * list ProductInfo)
}.

#[export] Instance server_eta : Eta server := λ s,
  Server (objects s) (requested s) (completions s) (jobs s) (starting s) (running s)
    (finishing s) (accepted s) (answered s).

Definition set_object (i : tag) (c : CallData) (s : server) : server :=
  update objects (<[i := c]>) s.

(** [CallData::Proceed] *)
Definition Proceed (i : tag) (s : server) : res server :=
  match objects s !! i with
  | None => Err Undefined
  | Some c =>
    match status_ c with
    | CREATE =>
      mret (update requested (.++ [i]) (set_object i (Call PROCESS (request_ c) (reply_ c)) s))
    | PROCESS => mret (update jobs (.++ [i]) s)
    | FINISH => mret (update objects (delete i) s)
    end
  end.

(** [new CallData(service_, cq_)] at address [i] *)
Definition new_CallData (i : tag) (s : server) : res server :=
  Proceed i (set_object i (Call CREATE no_product []) s).

(** [HandleRpcs] before its loop. *)
Definition booted (i : tag) : res server :=
  new_CallData i (Server ∅ [] [] [] [] [] [] [] []).

(** An iteration of [HandleRpcs] on the event [i]. *)
Definition HandleRpcs (i : tag) (s : server) : option (res server) :=
  rest ← remove_one i (completions s);
  Some (Proceed i (assign completions rest s)).

(** The job of [Proceed]: a thread of the pool takes it, creates the next object
    at address [k], and answers with what [getProductBid] returned. *)
Definition job_start (s : server) : option (res server) :=
  match jobs s with
  | [] => None
  | i :: rest => Some (mret (update starting (.++ [i]) (assign jobs rest s)))
  end.

Definition job_spawn (i k : tag) (s : server) : option (res server) :=
  rest ← remove_one i (starting s);
  if decide (k ∈ dom (objects s)) then None else
  Some (new_CallData k (update running (.++ [i]) (assign starting rest s))).

Definition add_products (reply : list ProductInfo) (response : list (P * V)) : list ProductInfo :=
  foldl (λ reply b, reply ++ [Product b.1 b.2]) reply response.

Definition job_answer (i : tag) (response : list (P * V)) (s : server) : option (res server) :=
  rest ← remove_one i (running s);
  Some match objects s !! i with
  | None => Err Undefined
  | Some c =>
    let reply := add_products (reply_ c) response in
    mret (update answered (.++ [(request_ c, reply)])
      (update finishing (.++ [i]) (assign running rest
        (set_object i (Call FINISH (request_ c) reply) s))))
  end.

(** gRPC: a client's request arrives for the acceptor [i]; the reply of [i] has
    been sent. *)
Definition request_arrives (i : tag) (q : Q) (s : server) : option (res server) :=
  rest ← remove_one i (requested s);
  Some match objects s !! i with
  | None => Err Undefined
  | Some c =>
    mret (update accepted (.++ [q]) (update completions (.++ [i]) (assign requested rest
      (set_object i (Call (status_ c) q (reply_ c)) s))))
  end.

Definition reply_sent (i : tag) (s : server) : option (res server) :=
  rest ← remove_one i (finishing s);
  Some (Ok (update completions (.++ [i]) (assign finishing rest s))).

Inductive event :=
| Handle (i : tag)
| Start_job
| Spawn (i k : tag)
| Answer (i : tag) (response : list (P * V))
| Arrive (i : tag) (q : Q)
| Sent (i : tag).

Definition exec (e : event) (s : server) : option (res server) :=
  match e with
  | Handle i => HandleRpcs i s
  | Start_job => job_start s
  | Spawn i k => job_spawn i k s
  | Answer i response => job_answer i response s
  | Arrive i q => request_arrives i q s
  | Sent i => reply_sent i s
  end.

Definition step (s s' : server) : Prop := ∃ e, exec e s = Some (Ok s').
Definition initial (s : server) : Prop := ∃ i, booted i = Ok s.
Definition fails (s : server) : Prop := ∃ e f, exec e s = Some (Err f).

(** Steps that need no new request. *)
Definition serve (s s' : server) : Prop :=
  ∃ e, (∀ i q, e ≠ Arrive i q) ∧ exec e s = Some (Ok s').

(** ** Invariant *)

(** Where the object is that accepts, or has accepted, the last request: there is
    always exactly one, since an object creates its successor when its own job
    starts. *)
Inductive stage := Accepting | Arrived | In_pool | Started.

#[export] Instance stage_eq_dec : EqDecision stage.
Proof. solve_decision. Defined.

Definition at_stage (g g' : stage) (k : tag) : list tag := if decide (g = g') then [k] else [].

(** Requests whose job has not answered yet. *)
Definition open_tags (g : stage) (k : tag) (s : server) : list tag :=
  (if decide (g = Accepting) then [] else [k]) ++ running s.

Definition request_of (s : server) (i : tag) : Q := from_option request_ no_product (objects s !! i).

(** [fin] are the events that say that a reply has been sent. *)
Record good (s : server) (g : stage) (k : tag) (fin : list tag) : Prop := {
  gd_requested : requested s = at_stage g Accepting k;
  gd_completions : completions s ≡ₚ at_stage g Arrived k ++ fin;
  gd_jobs : jobs s = at_stage g In_pool k;
  gd_starting : starting s = at_stage g Started k;
  gd_nodup : NoDup (k :: running s ++ finishing s ++ fin);
  gd_objects : dom (objects s) = list_to_set (k :: running s ++ finishing s ++ fin);
  gd_process i : i ∈ k :: running s → ∃ q, objects s !! i = Some (Call PROCESS q []);
  gd_finish i : i ∈ finishing s ++ fin → ∃ q r, objects s !! i = Some (Call FINISH q r);
  gd_accepted : accepted s ≡ₚ (answered s).*1 ++ (request_of s <$> open_tags g k s)
}.

(** ** Lemmas *)

Lemma at_stage_eq g k : at_stage g g k = [k].
Proof. unfold at_stage. by rewrite decide_True. Qed.

Lemma at_stage_ne g g' k : g ≠ g' → at_stage g g' k = [].
Proof. intros H. unfold at_stage. by rewrite decide_False. Qed.

Lemma elem_of_stage g g' k i : i ∈ at_stage g g' k ↔ g = g' ∧ i = k.
Proof. unfold at_stage. case_decide; [rewrite list_elem_of_singleton|rewrite elem_of_nil]; naive_solver. Qed.

Lemma request_of_ext s s' (l : list tag) :
  (∀ i, i ∈ l → objects s' !! i = objects s !! i) → request_of s' <$> l = request_of s <$> l.
Proof.
  intros H. apply list_fmap_ext. intros n i Hi%list_elem_of_lookup_2. unfold request_of. by rewrite H.
Qed.

Lemma booted_good i s : booted i = Ok s → good s Accepting i [].
Proof.
  unfold booted, new_CallData, Proceed. cbn. rewrite lookup_insert_eq. cbn. intros [= <-].
  split; cbn; try done.
  - apply NoDup_singleton.
  - rewrite !dom_insert_L, dom_empty_L. set_solver.
  - intros j ->%list_elem_of_singleton. eexists. apply lookup_insert_eq.
  - intros j. by rewrite elem_of_nil.
Qed.

(** How much there is still to do for the requests that have arrived. *)
Definition rank (s : server) (g : stage) (fin : list tag) : nat :=
  match g with Accepting => 0 | Arrived => 7 | In_pool => 6 | Started => 5 end +
  3 * length (running s) + 2 * length (finishing s) + length fin.

Lemma handle_good i s g k fin r :
  good s g k fin → HandleRpcs i s = Some r → ∃ s' g' fin', r = Ok s' ∧ good s' g' k fin' ∧ rank s' g' fin' < rank s g fin.
Proof.
  intros [H1 H2 H3 H4 H5 H6 H7 H8 H9] E. unfold HandleRpcs in E.
  destruct (remove_one i (completions s)) as [rest|] eqn:Er; [|done]. injection E as <-.
  apply remove_one_perm in Er. rewrite Er in H2.
  assert (i ∈ at_stage g Arrived k ++ fin) as Hi by (rewrite <-H2; left).
  apply elem_of_app in Hi as [[-> ->]%elem_of_stage|Hi].
  - destruct (H7 k) as [q Hk]; [left|]. unfold Proceed. cbn. rewrite Hk. cbn.
    eexists _, In_pool, fin. split; [reflexivity|]. rewrite at_stage_eq in H2.
    split; [|unfold rank; cbn; lia]. split; cbn; try done.
    + rewrite at_stage_ne by done. by apply Permutation_cons_inv in H2.
    + by rewrite H3, at_stage_eq.
  - destruct (H8 i) as (q & rp & Hk); [set_solver|]. unfold Proceed. cbn. rewrite Hk. cbn.
    apply elem_of_Permutation in Hi as [fin' Hfin]. eexists _, g, fin'. split; [reflexivity|].
    split; [|unfold rank; cbn; rewrite (Permutation_length Hfin); cbn; lia].
    rewrite Hfin in H2, H5, H6.
    assert (k :: running s ++ finishing s ++ i :: fin' ≡ₚ i :: k :: running s ++ finishing s ++ fin') as Hp.
    { rewrite !app_assoc. symmetry. exact (Permutation_middle (k :: running s ++ finishing s) fin' i). }
    rewrite Hp in H5, H6. apply NoDup_cons in H5 as [Hni H5].
    assert (∀ j, j ∈ k :: running s ++ finishing s ++ fin' → delete i (objects s) !! j = objects s !! j) as Hkeep.
    { intros j Hj. apply lookup_delete_ne. by intros ->. }
    split; cbn; try done.
    + rewrite <-Permutation_middle in H2. by apply Permutation_cons_inv in H2.
    + rewrite dom_delete_L, H6. set_solver.
    + intros j Hj. rewrite Hkeep; [by apply H7|set_solver].
    + intros j Hj. rewrite Hkeep; [apply H8; rewrite Hfin; set_solver|set_solver].
    + rewrite H9. apply Permutation_app_head, Permutation_refl'. symmetry. apply request_of_ext.
      intros j Hj. apply Hkeep. unfold open_tags in Hj. cbn in Hj. case_decide; set_solver.
Qed.

Lemma start_job_good s g k fin r :
  good s g k fin → job_start s = Some r →
  ∃ s', r = Ok s' ∧ good s' Started k fin ∧ rank s' Started fin < rank s g fin.
Proof.
  intros [H1 H2 H3 H4 H5 H6 H7 H8 H9] E. unfold job_start in E.
  destruct (jobs s) as [|i rest] eqn:Ej; [done|]. injection E as <-.
  assert (i ∈ at_stage g In_pool k) as [-> ->]%elem_of_stage by (rewrite <-H3; left).
  rewrite at_stage_eq in H3. injection H3 as ->. eexists. split; [reflexivity|].
  split; [|unfold rank; cbn; lia]. split; cbn; try done. by rewrite H4.
Qed.

Lemma spawn_good i k' s g k fin r :
  good s g k fin → job_spawn i k' s = Some r →
  ∃ s', r = Ok s' ∧ good s' Accepting k' fin ∧ rank s' Accepting fin < rank s g fin.
Proof.
  intros [H1 H2 H3 H4 H5 H6 H7 H8 H9] E. unfold job_spawn in E.
  destruct (remove_one i (starting s)) as [rest|] eqn:Er; [|done]. cbn in E.
  case_decide as Hk'; [done|]. injection E as <-. apply remove_one_perm in Er.
  assert (i ∈ at_stage g Started k) as [-> ->]%elem_of_stage by (rewrite <-H4, Er; left).
  rewrite H4, at_stage_eq in Er. apply Permutation_singleton_l in Er. injection Er as <-.
  rewrite H6, elem_of_list_to_set in Hk'.
  unfold new_CallData, Proceed. cbn. rewrite lookup_insert_eq. cbn. eexists. split; [reflexivity|].
  split; [|unfold rank; cbn; rewrite length_app; cbn; lia].
  assert (k' :: (running s ++ [k]) ++ finishing s ++ fin ≡ₚ k' :: k :: running s ++ finishing s ++ fin) as Hp.
  { apply perm_skip. rewrite <-app_assoc. cbn. symmetry. apply Permutation_middle. }
  assert (∀ j, j ∈ k :: running s ++ finishing s ++ fin →
    <[k' := Call PROCESS no_product []]> (<[k' := Call CREATE no_product []]> (objects s)) !! j =
    objects s !! j) as Hkeep.
  { intros j Hj. rewrite !lookup_insert_ne; [done|by intros ->|by intros ->]. }
  split; cbn; try done.
  - by rewrite H1.
  - rewrite Hp. by apply NoDup_cons.
  - rewrite !dom_insert_L, H6. set_solver.
  - intros j [->|Hj]%elem_of_cons; [eexists; apply lookup_insert_eq|].
    rewrite Hkeep; [apply H7; set_solver|set_solver].
  - intros j Hj. rewrite Hkeep; [by apply H8|set_solver].
  - rewrite H9. apply Permutation_app_head.
    change (request_of s <$> k :: running s ≡ₚ
      request_of (Server (<[k' := Call PROCESS no_product []]> (<[k' := Call CREATE no_product []]> (objects s)))
        (requested s ++ [k']) (completions s) (jobs s) [] (running s ++ [k]) (finishing s)
        (accepted s) (answered s)) <$> running s ++ [k]).
    rewrite (request_of_ext s _ (running s ++ [k])).
    + rewrite fmap_app. cbn. apply Permutation_cons_append.
    + intros j Hj. apply Hkeep. set_solver.
Qed.

Lemma answer_good i response s g k fin r :
  good s g k fin → job_answer i response s = Some r →
  ∃ s', r = Ok s' ∧ good s' g k fin ∧ rank s' g fin < rank s g fin.
Proof.
  intros [H1 H2 H3 H4 H5 H6 H7 H8 H9] E. unfold job_answer in E.
  destruct (remove_one i (running s)) as [rest|] eqn:Er; [|done]. injection E as <-.
  apply remove_one_perm in Er. destruct (H7 i) as [q Hq]; [rewrite Er; set_solver|]. rewrite Hq. cbn [request_ reply_].
  eexists. split; [reflexivity|].
  split; [|unfold rank; cbn; rewrite (Permutation_length Er), length_app; cbn; lia].
  assert (k :: rest ++ (finishing s ++ [i]) ++ fin ≡ₚ k :: running s ++ finishing s ++ fin) as Hp.
  { rewrite Er. apply perm_skip. rewrite <-!app_assoc. cbn. rewrite !app_assoc.
    symmetry. apply Permutation_middle. }
  assert (∀ j, j ≠ i → ∀ c, <[i := c]> (objects s) !! j = objects s !! j) as Hkeep.
  { intros j Hj c. by rewrite lookup_insert_ne. }
  rewrite Er in H5. apply NoDup_cons in H5 as [Hk H5]. cbn in H5. apply NoDup_cons in H5 as [Hi H5].
  assert (k ≠ i) as Hki by (intros ->; set_solver).
  match goal with |- good ?s' _ _ _ => pose proof (request_of_ext s s') as Hext end.
  split; cbn; try done.
  - rewrite Hp, Er. apply NoDup_cons. split; [done|]. cbn. by apply NoDup_cons.
  - rewrite dom_insert_L, H6, Er. set_solver.
  - intros j Hj. rewrite Hkeep; [apply H7; rewrite Er; set_solver|]. intros ->. set_solver.
  - intros j. rewrite !elem_of_app, list_elem_of_singleton. intros Hj.
    destruct (decide (j = i)) as [->|Hne]; [eexists _, _; apply lookup_insert_eq|].
    rewrite Hkeep by done. apply H8. set_solver.
  - rewrite H9. unfold open_tags. cbn. rewrite !fmap_app, Er, <-app_assoc. cbn.
    apply Permutation_app_head. rewrite (Hext rest).
    + rewrite (Hext (if decide (g = Accepting) then [] else [k])).
      * assert (request_of s i = q) as -> by (unfold request_of; by rewrite Hq).
        symmetry. apply Permutation_middle.
      * intros j Hj. apply Hkeep. case_decide; [by apply not_elem_of_nil in Hj|].
        by apply list_elem_of_singleton in Hj as ->.
    + intros j Hj. apply Hkeep. intros ->. set_solver.
Qed.

Lemma arrive_good i q s g k fin r :
  good s g k fin → request_arrives i q s = Some r → ∃ s', r = Ok s' ∧ good s' Arrived k fin.
Proof.
  intros [H1 H2 H3 H4 H5 H6 H7 H8 H9] E. unfold request_arrives in E.
  destruct (remove_one i (requested s)) as [rest|] eqn:Er; [|done]. injection E as <-.
  apply remove_one_perm in Er.
  assert (i ∈ at_stage g Accepting k) as [-> ->]%elem_of_stage by (rewrite <-H1, Er; left).
  rewrite H1, at_stage_eq in Er. apply Permutation_singleton_l in Er. injection Er as <-.
  destruct (H7 k) as [q0 Hk]; [left|]. rewrite Hk. cbn [status_ reply_]. eexists. split; [reflexivity|].
  apply NoDup_cons in H5 as [Hni H5].
  assert (∀ j, j ≠ k → ∀ c, <[k := c]> (objects s) !! j = objects s !! j) as Hkeep.
  { intros j Hj c. by rewrite lookup_insert_ne. }
  match goal with |- good ?s' _ _ _ =>
    pose proof (request_of_ext s s') as Hext;
    assert (request_of s' k = q) as Hnew by (unfold request_of; cbn; by rewrite lookup_insert_eq)
  end.
  split; cbn; try done.
  - rewrite H2, at_stage_eq. cbn. symmetry. apply Permutation_cons_append.
  - by apply NoDup_cons.
  - rewrite dom_insert_L, H6. set_solver.
  - intros j [->|Hj]%elem_of_cons; [eexists; apply lookup_insert_eq|].
    rewrite Hkeep; [apply H7; by right|]. intros ->. set_solver.
  - intros j Hj. rewrite Hkeep; [by apply H8|]. intros ->. set_solver.
  - rewrite H9. unfold open_tags. cbn. rewrite <-app_assoc. apply Permutation_app_head.
    rewrite decide_True, decide_False, app_nil_l, fmap_app by done.
    rewrite (Hext (running s)).
    + cbn [fmap list_fmap]. rewrite Hnew. symmetry. apply Permutation_cons_append.
    + intros j Hj. apply Hkeep. intros ->. set_solver.
Qed.

Lemma sent_good i s g k fin r :
  good s g k fin → reply_sent i s = Some r →
  ∃ s', r = Ok s' ∧ good s' g k (fin ++ [i]) ∧ rank s' g (fin ++ [i]) < rank s g fin.
Proof.
  intros [H1 H2 H3 H4 H5 H6 H7 H8 H9] E. unfold reply_sent in E.
  destruct (remove_one i (finishing s)) as [rest|] eqn:Er; [|done]. injection E as <-.
  apply remove_one_perm in Er. eexists. split; [reflexivity|].
  split; [|unfold rank; cbn; rewrite (Permutation_length Er), length_app; cbn; lia].
  assert (rest ++ fin ++ [i] ≡ₚ finishing s ++ fin) as Hp.
  { rewrite Er. rewrite app_assoc. cbn. symmetry. apply Permutation_cons_append. }
  split; cbn; try done.
  - rewrite H2. by rewrite app_assoc.
  - by rewrite Hp.
  - by rewrite Hp.
  - intros j. rewrite Hp. apply H8.
Qed.

Lemma serve_good e s g k fin r :
  (∀ i q, e ≠ Arrive i q) → good s g k fin → exec e s = Some r →
  ∃ s' g' k' fin', r = Ok s' ∧ good s' g' k' fin' ∧ rank s' g' fin' < rank s g fin.
Proof.
  intros Ha Hg E. destruct e as [i| |i k'|i response|i q|i]; cbn in E.
  - destruct (handle_good _ _ _ _ _ _ Hg E) as (s' & g' & fin' & ?). by exists s', g', k, fin'.
  - destruct (start_job_good _ _ _ _ _ Hg E) as (s' & ?). by exists s', Started, k, fin.
  - destruct (spawn_good _ _ _ _ _ _ _ Hg E) as (s' & ?). by exists s', Accepting, k', fin.
  - destruct (answer_good _ _ _ _ _ _ _ Hg E) as (s' & ?). by exists s', g, k, fin.
  - by destruct (Ha i q).
  - destruct (sent_good _ _ _ _ _ _ Hg E) as (s' & ?). by exists s', g, k, (fin ++ [i]).
Qed.

Lemma exec_store_good e s g k fin r :
  good s g k fin → exec e s = Some r → ∃ s' g' k' fin', r = Ok s' ∧ good s' g' k' fin'.
Proof.
  intros Hg E. destruct e as [i| |i k'|i response|i q|i] eqn:Ee.
  5: { destruct (arrive_good _ _ _ _ _ _ _ Hg E) as (s' & ? & ?). eauto 10. }
  all: destruct (serve_good e s g k fin r) as (s' & g' & k1 & fin' & ? & ? & _);
    rewrite ?Ee; [done..|]; eauto 10.
Qed.

Lemma reachable_store s : reachable initial step s → ∃ g k fin, good s g k fin.
Proof.
  revert s. apply invariant_ind.
  - intros s [i Hi]. exists Accepting, i, []. by apply booted_good.
  - intros s s' (g & k & fin & Hg) [e E].
    destruct (exec_store_good _ _ _ _ _ _ Hg E) as (s1 & g' & k' & fin' & [= <-] & Hg'). eauto.
Qed.

(** *** Every request is served *)

(** Nothing is left to do. *)
Definition quiet (s : server) : Prop :=
  completions s = [] ∧ jobs s = [] ∧ starting s = [] ∧ running s = [] ∧ finishing s = [].

Lemma serve_accepted s s' : serve s s' → accepted s' = accepted s.
Proof.
  intros (e & Ha & E). destruct e as [i| |i k'|i response|i q|i]; cbn in E; [..|by destruct (Ha i q)|].
  - unfold HandleRpcs, Proceed in E. destruct (remove_one i (completions s)); [|done].
    cbn in E. repeat case_match; try done; by injection E as <-.
  - unfold job_start in E. destruct (jobs s); [done|]. by injection E as <-.
  - unfold job_spawn, new_CallData, Proceed in E. destruct (remove_one i (starting s)); [|done].
    cbn in E. case_decide; [done|]. rewrite lookup_insert_eq in E. by injection E as <-.
  - unfold job_answer in E. destruct (remove_one i (running s)); [|done]. cbn in E.
    case_match; [|done]. by injection E as <-.
  - unfold reply_sent in E. destruct (remove_one i (finishing s)); [|done]. by injection E as <-.
Qed.

(** No new request, and the jobs return what is [offered] for the request. *)
Definition allowed (offered : Q → list (P * V) → Prop) (s : server) (e : event) : Prop :=
  match e with
  | Arrive _ _ => False
  | Answer i response => offered (request_of s i) response
  | _ => True
  end.

Definition serve_with (offered : Q → list (P * V) → Prop) (s s' : server) : Prop :=
  ∃ e, allowed offered s e ∧ exec e s = Some (Ok s').

Lemma allowed_no_request offered s e : allowed offered s e → ∀ i q, e ≠ Arrive i q.
Proof. by intros H i q ->. Qed.

Lemma serve_with_serve offered s s' : serve_with offered s s' → serve s s'.
Proof. intros (e & Ha & E). exists e. split; [by eapply allowed_no_request|done]. Qed.

Section offered.
Context (offered : Q → list (P * V) → Prop) (Hoffered : ∀ q, ∃ response, offered q response).

Lemma store_moves s g k fin :
  good s g k fin → quiet s ∨ ∃ e r, allowed offered s e ∧ exec e s = Some r.
Proof using Hoffered.
  intros [H1 H2 H3 H4 H5 H6 H7 H8 H9].
  assert (∀ i, i ∈ completions s → ∃ r, exec (Handle i) s = Some r) as Hh.
  { intros i [l Hl]%remove_one_in. cbn. unfold HandleRpcs. rewrite Hl. by eexists. }
  destruct (completions s) as [|i l] eqn:Ec.
  2: { right. destruct (Hh i) as [r Hr]; [left|]. by exists (Handle i), r. }
  destruct (running s) as [|i l] eqn:Er.
  2: { right. destruct (remove_one_in i (running s)) as [l' Hl']; [rewrite Er; left|].
       destruct (Hoffered (request_of s i)) as [response Hresponse].
       eexists (Answer i response), _. split; [done|]. cbn. unfold job_answer. by rewrite Hl'. }
  destruct (finishing s) as [|i l] eqn:Ef.
  2: { right. destruct (remove_one_in i (finishing s)) as [l' Hl']; [rewrite Ef; left|].
       eexists (Sent i), _. split; [done|]. cbn. unfold reply_sent. by rewrite Hl'. }
  destruct (jobs s) as [|i l] eqn:Ej.
  2: { right. eexists Start_job, _. split; [done|]. cbn. unfold job_start. by rewrite Ej. }
  destruct (starting s) as [|i l] eqn:Es; [by left|].
  right. destruct (remove_one_in i (starting s)) as [l' Hl']; [rewrite Es; left|].
  eexists (Spawn i (fresh (dom (objects s)))), _. split; [done|]. cbn. unfold job_spawn.
  rewrite Hl'. cbn. by rewrite decide_False by apply is_fresh.
Qed.

Lemma store_drains n s g k fin :
  good s g k fin → rank s g fin < n → ∃ s' g' k' fin', rtc (serve_with offered) s s' ∧ quiet s' ∧ good s' g' k' fin'.
Proof using Hoffered.
  revert s g k fin. induction n as [|n IH]; intros s g k fin Hg Hr; [lia|].
  destruct (store_moves s g k fin Hg) as [Hq|(e & r & Ha & E)]; [by exists s, g, k, fin|].
  destruct (serve_good _ _ _ _ _ _ (allowed_no_request _ _ _ Ha) Hg E) as (s1 & g1 & k1 & fin1 & -> & Hg1 & Hlt).
  destruct (IH s1 g1 k1 fin1 Hg1 ltac:(lia)) as (s' & g' & k' & fin' & Hs & Hq & Hg').
  exists s', g', k', fin'. split; [|done]. eapply rtc_l; [|exact Hs]. by exists e.
Qed.
End offered.

Lemma serves_accepted s s' : rtc serve s s' → accepted s' = accepted s.
Proof. induction 1 as [|s1 s2 s3 H12 _ IH]; [done|]. by rewrite IH, (serve_accepted s1 s2). Qed.

Lemma quiet_answered s g k fin : good s g k fin → quiet s → accepted s ≡ₚ (answered s).*1.
Proof.
  intros [H1 H2 H3 H4 H5 H6 H7 H8 H9] (Hc & Hj & Hs & Hr & Hf).
  assert (g = Accepting) as ->.
  { rewrite Hc in H2. rewrite Hj in H3. rewrite Hs in H4. destruct g; [done|..].
    - rewrite at_stage_eq in H2. by apply Permutation_nil_cons in H2.
    - by rewrite at_stage_eq in H3.
    - by rewrite at_stage_eq in H4. }
  rewrite H9. unfold open_tags. rewrite Hr, decide_True by done. by rewrite app_nil_r.
Qed.

(** ** Properties *)

(** C21: no event of the store reaches an object that has been deleted, whatever the
    order of events and the interleaving with the jobs: the main loop never uses a
    freed [CallData], and each one is deleted at most once. *)
Theorem store_never_fails (s : server) : reachable initial step s → ¬ fails s.
Proof.
  intros (g & k & fin & Hg)%reachable_store (e & f & E).
  by destruct (exec_store_good _ _ _ _ _ _ Hg E) as (? & ? & ? & ? & ? & _).
Qed.

(** An object creates its successor only when its own job has started, so at
    any time there is exactly one object that waits for a request or has one whose
    job has not created a successor: at most one job waits in the pool, and no
    request is accepted while one does. *)
Theorem one_request_at_the_front (s : server) :
  reachable initial step s →
  ∃ k, requested s = [k] ∧ jobs s = [] ∧ starting s = [] ∨
    requested s = [] ∧ jobs s ++ starting s = [k] ∧ k ∉ completions s ∨
    requested s = [] ∧ jobs s = [] ∧ starting s = [] ∧ k ∈ completions s ∧
      status_ <$> objects s !! k = Some PROCESS.
Proof.
  intros (g & k & fin & [H1 H2 H3 H4 H5 H6 H7 H8 H9])%reachable_store. exists k.
  assert (k ∉ fin) as Hk by (apply NoDup_cons in H5 as [H5 _]; set_solver).
  destruct g.
  - left. rewrite H1, H3, H4, at_stage_eq, !at_stage_ne by done. done.
  - right. right. destruct (H7 k) as [q Hq]; [left|].
    rewrite H1, H3, H4, H2, at_stage_eq, !at_stage_ne, Hq by done. set_solver.
  - right. left. rewrite H1, H3, H4, at_stage_eq, !at_stage_ne by done.
    rewrite H2, at_stage_ne by done. done.
  - right. left. rewrite H1, H3, H4, at_stage_eq, !at_stage_ne by done.
    rewrite H2, at_stage_ne by done. done.
Qed.

(** C20: every request is answered exactly once: the answers so far are for requests
    that have arrived, the others belong to objects that still work on them, and
    from every reachable state the store can go on, without a new request, until
    every request that has arrived has its answer. *)
Theorem requests_answered_once (s : server) :
  reachable initial step s →
  (∃ waiting, accepted s ≡ₚ (answered s).*1 ++ waiting) ∧
  ∃ s', rtc serve s s' ∧ quiet s' ∧ accepted s' = accepted s ∧ accepted s ≡ₚ (answered s').*1.
Proof.
  intros (g & k & fin & Hg)%reachable_store. split.
  - eexists. apply (gd_accepted _ _ _ _ Hg).
  - destruct (store_drains (λ _ _, True) ltac:(intros; by exists []) _ s g k fin Hg (Nat.lt_succ_diag_r _))
      as (s' & g' & k' & fin' & Hs%(rtc_subrel _ _ _ _ (serve_with_serve _)) & Hq & Hg').
    exists s'. split; [done|]. split; [done|]. pose proof (serves_accepted _ _ Hs) as E.
    split; [done|]. rewrite <-E. by eapply quiet_answered.
Qed.

(** ** Runs *)

(** The events of a list that can happen, in its order. *)
Definition play (s : server) (es : list event) : server :=
  foldl (λ s e, match exec e s with Some (Ok s') => s' | _ => s end) s es.

Lemma events_reachable es s : reachable initial step s → reachable initial step (play s es).
Proof.
  revert s. induction es as [|e es IH]; intros s Hs; [done|]. apply IH. cbn.
  destruct (exec e s) as [[s'|]|] eqn:E; [|done..]. eapply reachable_step; [exact Hs|]. by exists e.
Qed.

Lemma played_reachable i s es : booted i = Ok s → reachable initial step (play s es).
Proof. intros Hs. apply events_reachable. exists s. split; [by exists i|done]. Qed.
End store.

(** A reply holds the bids in the order in which the vendors' client returned them. *)
Lemma add_products_eq {P V} reply (response : list (P * V)) :
  add_products reply response = reply ++ ((λ b, Product b.1 b.2) <$> response).
Proof.
  revert reply. induction response as [|b response IH]; intros reply; cbn; [by rewrite app_nil_r|].
  unfold add_products in IH |- *. cbn. rewrite IH. by rewrite <-app_assoc.
Qed.

(** ** A run *)

(** Two requests, 5 and 6: the first has its bids and its reply has been sent, the
    second waits in the pool. *)
Definition demo : server (Q:=nat) (P:=nat) (V:=nat) :=
  match booted 0 0 with
  | Ok s => play 0 s
      [Arrive 0 5; Handle 0; Start_job; Spawn 0 1; Arrive 1 6; Answer 0 [(3, 4)]; Handle 1; Sent 0]
  | Err _ => Server ∅ [] [] [] [] [] [] [] []
  end.

Lemma store_demo_reachable : reachable (initial 0) (step 0) demo.
Proof. unfold demo. destruct (booted 0 0) as [s|] eqn:E; [|done]. by eapply played_reachable. Qed.

Lemma store_never_fails_witness : jobs demo = [1] ∧ completions demo = [0] ∧ ¬ fails 0 demo.
Proof.
  split; [by vm_compute|]. split; [by vm_compute|].
  apply (store_never_fails 0 demo store_demo_reachable).
Defined.

Lemma one_request_at_the_front_witness :
  jobs demo = [1] ∧ ∃ k,
    requested demo = [k] ∧ jobs demo = [] ∧ starting demo = [] ∨
    requested demo = [] ∧ jobs demo ++ starting demo = [k] ∧ k ∉ completions demo ∨
    requested demo = [] ∧ jobs demo = [] ∧ starting demo = [] ∧ k ∈ completions demo ∧
      status_ <$> objects demo !! k = Some PROCESS.
Proof. split; [by vm_compute|]. apply (one_request_at_the_front 0 demo store_demo_reachable). Defined.

Lemma requests_answered_once_witness :
  answered demo = [(5, [Product 3 4])] ∧
  (∃ waiting, accepted demo ≡ₚ (answered demo).*1 ++ waiting) ∧
  ∃ s', rtc (serve 0) demo s' ∧ quiet s' ∧ accepted s' = accepted demo ∧
    accepted demo ≡ₚ (answered s').*1.
Proof. split; [by vm_compute|]. apply (requests_answered_once 0 demo store_demo_reachable). Defined.
