(* ===== verification/StoreClients.v ===== *)
(** * The store, its vendors and its clients (project3)

    The store of Store.v whose jobs collect their bids from the vendors of Vendors.v, the
    client of test/client.cc and the test of test/run_tests.cc, which asks a store for
    all products of a file with some number of threads.  The test is proved against what
    a client may expect of a store, and the store meets it. *)
From S2P Require Import Prelude CxxString FileSystem VendorClient Vendors Store.

(** ** The store with its vendors *)

Section shop.
Context (hash : cstr → Z) (vendor_ips : list cstr).

Abbreviation shop := (server (Q:=cstr) (P:=Z) (V:=cstr)).

(** A job answers with bids that [getProductBid] can collect for the request. *)
Definition shop_step (s s' : shop) : Prop :=
  ∃ e, match e with
       | Answer i response => ∃ c, objects s !! i = Some c ∧ collects hash vendor_ips (request_ c) response
       | _ => True
       end ∧ Store.exec [] e s = Some (Ok s').

Definition shop_reachable (s : shop) : Prop := reachable (Store.initial []) shop_step s.

(** A reply for a product holds bids of vendors, not more than there are vendors. *)
Definition genuine_reply (product_name : cstr) (products : list (ProductInfo (P:=Z) (V:=cstr))) : Prop :=
  length products ≤ length vendor_ips ∧
  ∀ p, p ∈ products → genuine hash vendor_ips product_name (price p, vendor_id p).

Lemma shop_step_store (s s' : shop) : shop_step s s' → Store.step [] s s'.
Proof. intros (e & _ & E). by exists e. Qed.

Lemma shop_store (s : shop) : shop_reachable s → reachable (Store.initial []) (Store.step []) s.
Proof.
  intros (s0 & H0 & Hs). exists s0. split; [done|]. eapply rtc_subrel; [|exact Hs]. apply shop_step_store.
Qed.

Lemma collected_reply name response :
  collects hash vendor_ips name response → genuine_reply name (add_products [] response).
Proof.
  intros [Hl Hb]%collects_genuine. rewrite add_products_eq, app_nil_l. split; [by rewrite length_fmap|].
  intros p ([q v] & -> & Hp)%list_elem_of_fmap. by apply Hb.
Qed.

Lemma answered_grows (s s' : shop) e :
  Store.exec [] e s = Some (Ok s') →
  answered s' = answered s ∨
  ∃ i response c, e = Answer i response ∧ objects s !! i = Some c ∧
    answered s' = answered s ++ [(request_ c, add_products (reply_ c) response)].
Proof.
  intros E. destruct e as [i| |i k'|i response|i q|i]; cbn in E.
  - unfold HandleRpcs, Proceed in E. destruct (remove_one i (completions s)); [|done].
    cbn in E. left. repeat case_match; try done; by injection E as <-.
  - unfold job_start in E. destruct (jobs s); [done|]. injection E as <-. by left.
  - unfold job_spawn, new_CallData, Proceed in E. destruct (remove_one i (starting s)); [|done].
    cbn in E. case_decide; [done|]. rewrite lookup_insert_eq in E. injection E as <-. by left.
  - unfold job_answer in E. destruct (remove_one i (running s)); [|done]. cbn in E.
    destruct (objects s !! i) as [c|] eqn:Ec; [|done]. injection E as <-. right. by exists i, response, c.
  - unfold request_arrives in E. destruct (remove_one i (requested s)); [|done]. cbn in E.
    destruct (objects s !! i); [|done]. injection E as <-. by left.
  - unfold reply_sent in E. destruct (remove_one i (finishing s)); [|done]. injection E as <-. by left.
Qed.

Lemma shop_replies (s : shop) :
  shop_reachable s → ∀ name reply, (name, reply) ∈ answered s → genuine_reply name reply.
Proof.
  intros Hs. enough (reachable (Store.initial []) (Store.step []) s ∧
    ∀ name reply, (name, reply) ∈ answered s → genuine_reply name reply) as [_ H] by exact H.
  revert s Hs. apply invariant_ind.
  - intros s Hi. split; [by apply reachable_init|]. destruct Hi as [i Hi]. intros name reply.
    unfold booted, new_CallData, Proceed in Hi. cbn in Hi. rewrite lookup_insert_eq in Hi. injection Hi as <-.
    by rewrite elem_of_nil.
  - intros s s' [Hr IH] Hst. pose proof Hst as (e & He & E). split.
    { eapply reachable_step; [exact Hr|]. by apply shop_step_store. }
    destruct (answered_grows s s' e E) as [->|(i & response & c & -> & Hc & ->)]; [exact IH|].
    intros name reply [Hin|Hin%list_elem_of_singleton]%elem_of_app; [by apply IH|]. injection Hin as -> ->.
    destruct He as (c' & Hc' & Hcol). assert (c' = c) as -> by congruence.
    apply reachable_store in Hr as (g & k & fin & Hg).
    assert (i ∈ running s) as Hi.
    { cbn in E. unfold job_answer in E. destruct (remove_one i (running s)) as [rest|] eqn:Er; [|done].
      apply remove_one_perm in Er. rewrite Er. left. }
    destruct (Store.gd_process _ _ _ _ _ Hg i) as [q Hq]; [by right|]. assert (c = Call PROCESS q []) as -> by congruence.
    by apply collected_reply.
Qed.

(** Whatever has arrived can be answered by bids of the vendors. *)
Lemma shop_serves (s : shop) :
  shop_reachable s → ∃ s', rtc shop_step s s' ∧ accepted s' = accepted s ∧ accepted s ≡ₚ (answered s').*1.
Proof.
  intros Hs. apply shop_store in Hs as (g & k & fin & Hg)%reachable_store.
  destruct (store_drains [] (collects hash vendor_ips) (collects_some hash vendor_ips)
    _ s g k fin Hg (Nat.lt_succ_diag_r _)) as (s' & g' & k' & fin' & Hs & Hq & Hg').
  assert (accepted s' = accepted s) as Ea.
  { apply (serves_accepted []). eapply rtc_subrel; [|exact Hs]. apply serve_with_serve. }
  exists s'. split; [|split; [done|]].
  - clear Hq Hg' Ea. revert g k fin Hg. induction Hs as [|s1 s2 s3 (e & Ha & E) _ IH]; intros g k fin Hg; [done|].
    assert (∃ g2 k2 fin2, Store.good [] s2 g2 k2 fin2) as (g2 & k2 & fin2 & Hg2).
    { destruct (exec_store_good _ _ _ _ _ _ _ Hg E) as (s2' & g2 & k2 & fin2 & [= <-] & Hg2). eauto. }
    eapply rtc_l; [|by eapply IH]. exists e. split; [|done].
    destruct e as [| | |i response| |]; try done. cbn in E. unfold job_answer in E.
    destruct (remove_one i (running s1)) as [rest|]; [|done]. cbn in E.
    destruct (objects s1 !! i) as [c|] eqn:Ec; [|done]. exists c. split; [done|].
    cbn in Ha. unfold request_of in Ha. by rewrite Ec in Ha.
  - rewrite <-Ea. by eapply quiet_answered.
Qed.

End shop.

(** ** client.cc *)

Record Bid := MkBid { price_ : Z; vendor_id_ : cstr }.

(** What a call of [getProducts] brings; [None] is a call that fails. *)
Definition store_reply : Type := (option (list (ProductInfo (P:=Z) (V:=cstr)))).

(** [StoreClient::getProducts], which [run_client] calls: whether it succeeds, and the bids
    of the result it was given. *)
Definition getProducts (answer : store_reply) (bids_ : list Bid) : bool * list Bid :=
  match answer with
  | None => (false, bids_)
  | Some products => (true, foldl (λ bids result, bids ++ [MkBid (price result) (vendor_id result)]) bids_ products)
  end.

(** The bids of an answer. *)
Definition bids_of (answer : store_reply) : list Bid :=
  match answer with
  | None => []
  | Some products => (λ p, MkBid (price p) (vendor_id p)) <$> products
  end.

Lemma getProducts_bids answer bids : (getProducts answer bids).2 = bids ++ bids_of answer.
Proof.
  destruct answer as [products|]; cbn; [|by rewrite app_nil_r].
  revert bids. induction products as [|p products IH]; intros bids; cbn; [by rewrite app_nil_r|].
  by rewrite IH, <-app_assoc.
Qed.

(** ** run_tests.cc *)

(** [read_product_queries] *)
Definition read_product_queries (f : fs) (filename : cstr) : option (list cstr) :=
  getlines nl <$> read_file f filename.

(** The functions that the threads run. *)
Inductive task := Warm_up | Thread_task (query_id : nat).

(** Where [run_test] is: at the condition of the inner loop for the [i]-th query, at the
    [join] that follows it, at the [join] of the [k]-th thread, or at its end. *)
Inductive test_pc := Scan (i ind : nat) | Join (i ind : nat) | Join_all (k : nat) | Returned.

(** [threads] holds, for each thread, its task and whether it has ended. *)
Record test := Test {
  at_test : test_pc;
  threads_is_done : list bool;
  threads : list (task * bool);
  test_results : list (list Bid)
}.

Section run_test.
Context (product_specs : list cstr) (num_max_threads : nat).

Definition next_ind (ind : nat) : nat := (ind + 1) `mod` num_max_threads.

(** A step of [run_test]. The reference to [threads_is_done[i]] that a thread is given is
    not used by it. *)
Definition run_test_step (s : test) : option (res test) :=
  match at_test s with
  | Scan i ind =>
    if decide (i < length product_specs) then
      Some (
        is_done ← get (threads_is_done s) ind;
        mret (Test (if (is_done : bool) then Join i ind else Scan i (next_ind ind))
          (threads_is_done s) (threads s) (test_results s)))
    else Some (Ok (Test (Join_all 0) (threads_is_done s) (threads s) (test_results s)))
  | Join i ind =>
    th ← threads s !! ind;
    if th.2 : bool
    then Some (Ok (Test (Scan (S i) (next_ind ind)) (threads_is_done s)
                 (<[ind := (Thread_task i, false)]> (threads s)) (test_results s)))
    else None
  | Join_all k =>
    if decide (k < num_max_threads) then
      th ← threads s !! k;
      if th.2 : bool then Some (Ok (Test (Join_all (S k)) (threads_is_done s) (threads s) (test_results s)))
      else None
    else Some (Ok (Test Returned (threads_is_done s) (threads s) (test_results s)))
  | Returned => None
  end.

(** The [k]-th thread comes to its end: [warm_up], or [thread_task] with the answer to its
    query. *)
Definition thread_ends (k : nat) (answer : store_reply) (s : test) : option (res test) :=
  th ← threads s !! k;
  if th.2 : bool then None
  else
    let ended := <[k := (th.1, true)]> (threads s) in
    match th.1 with
    | Warm_up => Some (Ok (Test (at_test s) (<[k := true]> (threads_is_done s)) ended (test_results s)))
    | Thread_task i => Some (
        bids ← get (test_results s) i;
        results ← put (test_results s) i (getProducts answer bids).2;
        mret (Test (at_test s) (threads_is_done s) ended results))
    end.

Definition run_test_start : test :=
  Test (Scan 0 0) (replicate num_max_threads false) (replicate num_max_threads (Warm_up, false))
    (replicate (length product_specs) []).
End run_test.

(** What the store promises its clients: the answers that a call for a product may bring. *)
Class Service := { gives : cstr → store_reply → Prop }.

(** A call always comes back. *)
Class Answers (S : Service) : Prop := always_gives : ∀ name, ∃ answer, gives name answer.

Section service.
Context `{service : Service} (product_specs : list cstr) (num_max_threads : nat).

Inductive test_event := Main_event | Thread_event (k : nat) (answer : store_reply).

Definition test_exec (e : test_event) (s : test) : option (res test) :=
  match e with
  | Main_event => run_test_step product_specs num_max_threads s
  | Thread_event k answer => thread_ends k answer s
  end.

(** A thread gets what the store gives for its product. *)
Definition served (e : test_event) (s : test) : Prop :=
  match e with
  | Thread_event k answer =>
    ∀ i b, threads s !! k = Some (Thread_task i, b) → ∃ name, product_specs !! i = Some name ∧ gives name answer
  | Main_event => True
  end.

Definition test_step (s s' : test) : Prop := ∃ e, served e s ∧ test_exec e s = Some (Ok s').

Definition test_reachable (s : test) : Prop :=
  reachable (eq (run_test_start product_specs num_max_threads)) test_step s.

(** *** Invariant *)

(** The number of queries that have been given to a thread. *)
Definition begun (s : test) : nat :=
  match at_test s with Scan i _ | Join i _ => i | _ => length product_specs end.

Record test_good (s : test) : Prop := {
  tg_done : length (threads_is_done s) = num_max_threads;
  tg_threads : length (threads s) = num_max_threads;
  tg_results : length (test_results s) = length product_specs;
  tg_begun : begun s ≤ length product_specs;
  tg_pc : match at_test s with
          | Scan _ ind => ind < num_max_threads
          | Join i ind => ind < num_max_threads ∧ i < length product_specs
          | Join_all k => ∀ j th, j < k → threads s !! j = Some th → th.2 = true
          | Returned => ∀ j th, threads s !! j = Some th → th.2 = true
          end;
  tg_warm k : threads_is_done s !! k = Some false → threads s !! k = Some (Warm_up, false);
  (** a query that was begun is with one thread, or its result is what the store gave *)
  tg_tasks k i b : threads s !! k = Some (Thread_task i, b) → i < begun s;
  tg_once k k' i : threads s !! k = Some (Thread_task i, false) →
    threads s !! k' = Some (Thread_task i, false) → k = k';
  tg_empty i : (begun s ≤ i < length product_specs ∨ ∃ k, threads s !! k = Some (Thread_task i, false)) →
    test_results s !! i = Some [];
  tg_answered i : i < begun s → (∃ k, threads s !! k = Some (Thread_task i, false)) ∨
    ∃ name answer, product_specs !! i = Some name ∧ gives name answer ∧ test_results s !! i = Some (bids_of answer)
}.

Lemma test_start_good : 0 < num_max_threads → test_good (run_test_start product_specs num_max_threads).
Proof.
  intros Hn. split; cbn.
  - apply length_replicate.
  - apply length_replicate.
  - apply length_replicate.
  - lia.
  - done.
  - intros k [_ Hk]%lookup_replicate. by apply lookup_replicate_2.
  - by intros k i b [? _]%lookup_replicate.
  - by intros k k' i [? _]%lookup_replicate.
  - intros i [[_ Hi]|[k [? _]%lookup_replicate]]; [|done]. by apply lookup_replicate_2.
  - lia.
Qed.

(** A step of the program that neither begins a query nor ends a thread. *)
Lemma moved_good s p :
  test_good s → begun s = begun (Test p (threads_is_done s) (threads s) (test_results s)) →
  match p with
  | Scan _ ind => ind < num_max_threads
  | Join i ind => ind < num_max_threads ∧ i < length product_specs
  | Join_all k => ∀ j th, j < k → threads s !! j = Some th → th.2 = true
  | Returned => ∀ j th, threads s !! j = Some th → th.2 = true
  end → test_good (Test p (threads_is_done s) (threads s) (test_results s)).
Proof.
  intros [] Hb Hp. rewrite Hb in *. by split.
Qed.

Lemma next_ind_lt ind : 0 < num_max_threads → next_ind num_max_threads ind < num_max_threads.
Proof. intros H. unfold next_ind. apply Nat.mod_upper_bound. lia. Qed.

Lemma query_begins_good s i ind :
  test_good s → at_test s = Join i ind → (∃ t, threads s !! ind = Some (t, true)) →
  test_good (Test (Scan (S i) (next_ind num_max_threads ind)) (threads_is_done s)
    (<[ind := (Thread_task i, false)]> (threads s)) (test_results s)).
Proof.
  intros [H1 H2 H3 H4 H5 H6 H7 H8 H9 H10] Ep [t Ht]. unfold begun in *. rewrite Ep in *. destruct H5 as [Hind Hi].
  assert (∀ k j b, <[ind := (Thread_task i, false)]> (threads s) !! k = Some (Thread_task j, b) →
    k = ind ∧ j = i ∧ b = false ∨ k ≠ ind ∧ threads s !! k = Some (Thread_task j, b)) as Hnew.
  { intros k j b E. rewrite list_lookup_insert in E. case_decide; [left; naive_solver|right].
    split; [|done]. intros ->. apply lookup_lt_Some in E. lia. }
  assert (∀ k th, k ≠ ind → threads s !! k = Some th →
    <[ind := (Thread_task i, false)]> (threads s) !! k = Some th) as Hold
    by (intros; by rewrite list_lookup_insert_ne).
  assert (<[ind := (Thread_task i, false)]> (threads s) !! ind = Some (Thread_task i, false)) as Hadded
    by (apply list_lookup_insert_eq; lia).
  split; cbn; try done.
  - by rewrite length_insert.
  - apply next_ind_lt. lia.
  - intros k Hk%H6. apply Hold; [|done]. intros ->. congruence.
  - intros k j b [(-> & -> & ->)|[_ E]]%Hnew; [lia|]. apply H7 in E. lia.
  - intros k k' j [(-> & -> & _)|[Hk E]]%Hnew [(-> & Ej & _)|[Hk' E']]%Hnew; try done.
    + apply H7 in E'. lia.
    + subst j. apply H7 in E. lia.
    + by eapply H8.
  - intros j [Hj|[k [(-> & -> & _)|[Hk E]]%Hnew]]; apply H9; [left; lia|left; lia|right; by exists k].
  - intros j Hj. destruct (decide (j = i)) as [->|Hne]; [left; by exists ind|].
    destruct (H10 j) as [[k Hk]|?]; [lia| |by right]. left. exists k. apply Hold; [|done]. intros ->. congruence.
Qed.

Lemma main_good s x :
  test_good s → 0 < num_max_threads → run_test_step product_specs num_max_threads s = Some x →
  ∃ s', x = Ok s' ∧ test_good s'.
Proof.
  intros Hg Hn E. unfold run_test_step in E. pose proof Hg as [H1 H2 H3 H4 H5 _ _ _ _ _].
  destruct (at_test s) as [i ind|i ind|k|] eqn:Ep; [| | |done].
  - case_decide as Hi.
    + injection E as <-. destruct (lookup_lt_is_Some_2 (threads_is_done s) ind) as [b Hb]; [lia|].
      unfold get. rewrite Hb. cbn. eexists. split; [reflexivity|].
      apply moved_good; [done|unfold begun; rewrite Ep; by destruct b|].
      destruct b; [done|]. apply next_ind_lt. lia.
    + injection E as <-. eexists. split; [done|]. unfold begun in H4. rewrite Ep in H4.
      apply moved_good; [done|unfold begun; rewrite Ep; cbn; lia|intros; lia].
  - destruct (threads s !! ind) as [[t [|]]|] eqn:Et; try done. cbn in E. injection E as <-.
    eexists. split; [done|]. apply query_begins_good; eauto.
  - case_decide as Hk.
    + destruct (threads s !! k) as [[t [|]]|] eqn:Et; try done. cbn in E. injection E as <-.
      eexists. split; [done|]. apply moved_good; [done|unfold begun; by rewrite Ep|].
      intros j th Hj Ej. destruct (decide (j = k)) as [->|Hne]; [by simplify_eq|]. apply (H5 j); [lia|done].
    + injection E as <-. eexists. split; [done|]. apply moved_good; [done|unfold begun; by rewrite Ep|].
      intros j th Ej. apply (H5 j); [|done]. apply lookup_lt_Some in Ej. lia.
Qed.

(** A thread that ends leaves the others where they are. *)
Lemma ended_pc s k t :
  test_good s →
  match at_test s with
  | Scan _ ind => ind < num_max_threads
  | Join i ind => ind < num_max_threads ∧ i < length product_specs
  | Join_all j => ∀ i th, i < j → <[k := (t, true)]> (threads s) !! i = Some th → th.2 = true
  | Returned => ∀ i th, <[k := (t, true)]> (threads s) !! i = Some th → th.2 = true
  end.
Proof.
  intros Hg. pose proof (tg_pc _ Hg) as H. destruct (at_test s); try done.
  - intros i th Hi. rewrite list_lookup_insert. case_decide; [by intros [= <-]|by apply H].
  - intros i th. rewrite list_lookup_insert. case_decide; [by intros [= <-]|by apply H].
Qed.

Lemma warm_up_good s k :
  test_good s → threads s !! k = Some (Warm_up, false) →
  test_good (Test (at_test s) (<[k := true]> (threads_is_done s)) (<[k := (Warm_up, true)]> (threads s)) (test_results s)).
Proof.
  intros Hg Hk. pose proof (ended_pc s k Warm_up Hg) as Hpc. destruct Hg as [H1 H2 H3 H4 _ H6 H7 H8 H9 H10].
  assert (∀ j i b, <[k := (Warm_up, true)]> (threads s) !! j = Some (Thread_task i, b) → threads s !! j = Some (Thread_task i, b))
    as Hold by (intros j i b; rewrite list_lookup_insert; case_decide; done).
  assert (∀ j i, threads s !! j = Some (Thread_task i, false) → <[k := (Warm_up, true)]> (threads s) !! j = Some (Thread_task i, false))
    as Hkeep by (intros j i Hj; rewrite list_lookup_insert_ne; [done|congruence]).
  split; cbn; unfold begun in *; cbn; try done; rewrite ?length_insert; try done.
  - intros j Hj. rewrite list_lookup_insert in Hj. case_decide as Hjk; [done|].
    pose proof (lookup_lt_Some _ _ _ Hk). rewrite list_lookup_insert_ne by (intros ->; lia). by apply H6.
  - intros j i b E%Hold. by eapply H7.
  - intros j j' i E%Hold E'%Hold. by eapply H8.
  - intros i [Hi|[j E%Hold]]; apply H9; [by left|right; by exists j].
  - intros i Hi. destruct (H10 i Hi) as [[j E]|?]; [left; exists j; by apply Hkeep|by right].
Qed.

Lemma query_ends_good s k i name answer :
  test_good s → threads s !! k = Some (Thread_task i, false) → product_specs !! i = Some name → gives name answer →
  ∃ s', thread_ends k answer s = Some (Ok s') ∧ test_good s' ∧ at_test s' = at_test s ∧
    threads s' = <[k := (Thread_task i, true)]> (threads s).
Proof.
  intros Hg Hk Hname Hans. pose proof (ended_pc s k (Thread_task i) Hg) as Hpc.
  destruct Hg as [H1 H2 H3 H4 _ H6 H7 H8 H9 H10].
  assert (test_results s !! i = Some []) as Hi by (apply H9; right; by exists k).
  pose proof (lookup_lt_Some _ _ _ Hi) as Hlt.
  unfold thread_ends. rewrite Hk. cbn [mbind option_bind snd fst]. unfold get, put. rewrite Hi. cbn [mbind res_bind].
  rewrite decide_True by done. cbn [mbind res_bind]. rewrite getProducts_bids, app_nil_l.
  eexists. split; [reflexivity|]. split; [|done].
  assert (∀ j i' b, <[k := (Thread_task i, true)]> (threads s) !! j = Some (Thread_task i', b) →
    j = k ∧ i' = i ∧ b = true ∨ j ≠ k ∧ threads s !! j = Some (Thread_task i', b)) as Hold.
  { intros j i' b E. rewrite list_lookup_insert in E. case_decide; [left; naive_solver|right].
    split; [|done]. intros ->. apply lookup_lt_Some in E. apply lookup_lt_Some in Hk. tauto. }
  split; cbn; unfold begun in *; cbn; try done; rewrite ?length_insert; try done.
  - intros j Hj. pose proof (H6 j Hj) as E. rewrite list_lookup_insert_ne; [done|]. intros ->. congruence.
  - intros j i' b [(-> & -> & ->)|[_ E]]%Hold; by eapply H7.
  - intros j j' i' [(_ & _ & ?)|[_ E]]%Hold [(_ & _ & ?)|[_ E']]%Hold; try done. by eapply H8.
  - intros i' Hi'. assert (i' ≠ i) as Hne.
    { intros ->. destruct Hi' as [Hi'|[j [(_ & _ & ?)|[Hj E]]%Hold]]; [|done|apply Hj; by eapply H8].
      apply H7 in Hk. lia. }
    rewrite list_lookup_insert_ne by done. apply H9. destruct Hi' as [?|[j [(_ & _ & ?)|[_ E]]%Hold]]; [by left|done|right; by exists j].
  - intros i' Hi'. destruct (decide (i' = i)) as [->|Hne].
    { right. exists name, answer. rewrite list_lookup_insert_eq by done. done. }
    destruct (H10 i' Hi') as [[j E]|(name' & answer' & E1 & E2 & E3)].
    + left. exists j. rewrite list_lookup_insert_ne; [done|]. intros ->. congruence.
    + right. exists name', answer'. by rewrite list_lookup_insert_ne.
Qed.

Lemma test_exec_good e s x :
  test_good s → 0 < num_max_threads → served e s → test_exec e s = Some x → ∃ s', x = Ok s' ∧ test_good s'.
Proof.
  intros Hg Hn He E. destruct e as [|k answer]; [by apply (main_good s)|].
  cbn in E. destruct (threads s !! k) as [[[|i] [|]]|] eqn:Ek; cbn in He; try (unfold thread_ends in E; by rewrite Ek in E).
  - unfold thread_ends in E. rewrite Ek in E. cbn in E. injection E as <-. eexists. split; [done|]. by apply warm_up_good.
  - destruct (He i false Ek) as (name & Hname & Hans).
    destruct (query_ends_good s k i name answer Hg Ek Hname Hans) as (s' & E' & Hg' & _).
    rewrite E' in E. injection E as <-. by exists s'.
Qed.

Lemma test_reachable_good s : 0 < num_max_threads → test_reachable s → test_good s.
Proof.
  intros Hn. revert s. apply invariant_ind; [intros s <-; by apply test_start_good|].
  intros s s' Hg (e & He & E). destruct (test_exec_good e s _ Hg Hn He E) as (s1 & [= <-] & ?). done.
Qed.

(** *** The end of the test *)

Definition test_running (th : task * bool) : nat := if th.2 then 0 else 1.

Definition pc_rank (p : test_pc) : nat :=
  match p with
  | Scan i _ => 4 * (length product_specs - i) + num_max_threads + 3
  | Join i _ => 4 * (length product_specs - i) + num_max_threads + 2
  | Join_all k => num_max_threads - k + 1
  | Returned => 0
  end.

Definition test_rank (s : test) : nat := pc_rank (at_test s) + sum_list_with test_running (threads s).

(** While a thread runs it can end. *)
Lemma thread_moves s k t :
  Answers service → test_good s → threads s !! k = Some (t, false) →
  ∃ s', test_step s s' ∧ test_good s' ∧ test_rank s' < test_rank s.
Proof.
  intros Hans Hg Hk.
  assert (sum_list_with test_running (<[k := (t, true)]> (threads s)) < sum_list_with test_running (threads s)) as Hsum.
  { pose proof (sum_insert test_running (threads s) k (t, false) (t, true) Hk) as E. cbn in E. lia. }
  destruct t as [|i].
  - eexists. split; [exists (Thread_event k None); split; [|cbn; unfold thread_ends; rewrite Hk; reflexivity]|].
    { intros i b E. congruence. }
    split; [by apply warm_up_good|]. unfold test_rank. cbn. lia.
  - pose proof (tg_begun _ Hg). pose proof (tg_tasks _ Hg _ _ _ Hk) as Hi.
    destruct (lookup_lt_is_Some_2 product_specs i) as [name Hname]; [lia|].
    destruct (Hans name) as [answer Ha].
    destruct (query_ends_good s k i name answer Hg Hk Hname Ha) as (s' & E & Hg' & Ep & Et).
    exists s'. split; [exists (Thread_event k answer); split; [|exact E]|split; [done|]].
    + intros i' b E'. assert (i' = i) as -> by congruence. by exists name.
    + unfold test_rank. rewrite Ep, Et. lia.
Qed.

Lemma test_moves s :
  Answers service → 0 < num_max_threads → test_good s →
  at_test s = Returned ∨ ∃ s', test_step s s' ∧ test_good s' ∧ test_rank s' < test_rank s.
Proof.
  intros Hans Hn Hg.
  destruct (decide (Exists (λ th, th.2 = false) (threads s))) as [([t b] & [k Hk]%list_elem_of_lookup & Hb)%list.Exists_exists|Hno].
  { right. cbn in Hb. subst b. by eapply thread_moves. }
  assert (∀ k, k < num_max_threads → ∃ t, threads s !! k = Some (t, true)) as Hended.
  { intros k Hk. destruct (lookup_lt_is_Some_2 (threads s) k) as [[t [|]] Ht]; [by rewrite (tg_threads _ Hg)|by exists t|].
    destruct Hno. apply list.Exists_exists. exists (t, false). split; [by eapply list_elem_of_lookup_2|done]. }
  pose proof Hg as [H1 H2 H3 H4 H5 H6 _ _ _ _]. unfold begun in H4.
  assert (∀ s1, run_test_step product_specs num_max_threads s = Some (Ok s1) → test_rank s1 < test_rank s →
    ∃ s', test_step s s' ∧ test_good s' ∧ test_rank s' < test_rank s) as Hstep.
  { intros s1 E Hr. destruct (main_good s _ Hg Hn E) as (s2 & [= <-] & ?). exists s1. split; [|done]. by exists Main_event. }
  destruct (at_test s) as [i ind|i ind|k|] eqn:Ep; [right..|by left].
  - destruct (decide (i < length product_specs)) as [Hi|Hi].
    + destruct (lookup_lt_is_Some_2 (threads_is_done s) ind) as [[|] Hd]; [lia| |].
      * eapply Hstep; [unfold run_test_step, get; rewrite Ep, decide_True, Hd by done; reflexivity|].
        unfold test_rank. rewrite Ep. cbn. lia.
      * apply H6 in Hd. destruct (Hended ind) as [t Ht]; [done|]. congruence.
    + eapply Hstep; [unfold run_test_step; rewrite Ep, decide_False by done; reflexivity|].
      unfold test_rank. rewrite Ep. cbn. lia.
  - destruct H5 as [Hind Hi]. destruct (Hended ind Hind) as [t Ht].
    pose proof (sum_insert test_running (threads s) ind _ (Thread_task i, false) Ht) as Hs. cbn in Hs.
    eapply Hstep; [unfold run_test_step; rewrite Ep, Ht; reflexivity|]. unfold test_rank. rewrite Ep. cbn. lia.
  - destruct (decide (k < num_max_threads)) as [Hk|Hk].
    + destruct (Hended k Hk) as [t Ht].
      eapply Hstep; [unfold run_test_step; rewrite Ep, decide_True, Ht by done; reflexivity|].
      unfold test_rank. rewrite Ep. cbn. lia.
    + eapply Hstep; [unfold run_test_step; rewrite Ep, decide_False by done; reflexivity|].
      unfold test_rank. rewrite Ep. cbn. lia.
Qed.

(** A test with at least one thread never fails, can always go on to its end, and at its
    end has for every product the bids of an answer of the store, asked for once. *)
Lemma test_runs (s : test) :
  Answers service → 0 < num_max_threads → test_reachable s →
  (∀ e x, served e s → test_exec e s = Some x → ∃ s', x = Ok s') ∧
  (∃ s', rtc test_step s s' ∧ at_test s' = Returned) ∧
  (at_test s = Returned → length (test_results s) = length product_specs ∧
    ∀ i name, product_specs !! i = Some name →
      ∃ answer, gives name answer ∧ test_results s !! i = Some (bids_of answer)).
Proof.
  intros Hans Hn Hs%test_reachable_good; [|done]. split; [|split].
  - intros e x He E. destruct (test_exec_good e s x Hs Hn He E) as (s' & -> & _). by exists s'.
  - apply (rank_reaches test_step test_good (λ s, at_test s = Returned) test_rank); [|done].
    intros s0 Hs0. by apply test_moves.
  - intros Ep. pose proof Hs as [_ _ Hl _ Hpc _ _ _ _ Ha]. split; [done|]. intros i name Hname.
    unfold begun in Ha. rewrite Ep in *. destruct (Ha i) as [[k Hk]|(name' & answer & E1 & E2 & E3)].
    + by eapply lookup_lt_Some.
    + by apply Hpc in Hk.
    + exists answer. assert (name' = name) as -> by congruence. done.
Qed.
End service.

(** *** Without threads *)

(** [run_test] reads [threads_is_done[0]] of an empty array. *)
Lemma no_threads_fails product_specs :
  product_specs ≠ [] → run_test_step product_specs 0 (run_test_start product_specs 0) = Some (Err Undefined).
Proof. intros H. by destruct product_specs. Qed.

(** [main]: the products, the number of threads and the address of the store. *)
Definition run_tests_main (f : fs) (argv : list cstr) : res (list cstr * nat * cstr) :=
  let '(server_addr, num_max_threads) :=
    match argv with
    | [_; addr; num] => (addr, Z.to_nat (Z.min 20 (Z.max 0 (atoi num))))
    | [_; addr] => (addr, 4)
    | _ => (str "0.0.0.0:50053", 4)
    end in
  match read_product_queries f (str "product_query_list.txt") with
  | Some product_specs => mret (product_specs, num_max_threads, server_addr)
  | None => Err (Exit 1)
  end.

Lemma run_tests_main_ok f argv specs n addr :
  run_tests_main f argv = Ok (specs, n, addr) →
  read_product_queries f (str "product_query_list.txt") = Some specs ∧ n ≤ 20.
Proof.
  unfold run_tests_main. destruct (read_product_queries _ _) as [l|]; [|by repeat case_match].
  destruct argv as [|? [|? [|? [|]]]]; cbn; intros [= <- <- <-]; (split; [done|lia]).
Qed.

(** ** The test of the store *)

Section tested.
Context (hash : cstr → Z) (vendor_ips : list cstr).

(** What a client may get from the store with its vendors: a failure, or a reply that the
    store has given for the product. *)
#[export] Instance shop_service : Service := {
  gives name answer :=
    match answer with
    | None => True
    | Some reply => ∃ s, shop_reachable hash vendor_ips s ∧ (name, reply) ∈ answered s
    end
}.

(** Every product can get a reply. *)
Lemma shop_replies_all name : ∃ reply, gives name (Some reply).
Proof.
  set (c := Call PROCESS ([] : cstr) ([] : list (ProductInfo (P:=Z) (V:=cstr)))).
  set (s0 := Server (<[0 := c]> (<[0 := Call CREATE [] []]> ∅)) [0] [] [] [] [] [] [] []).
  assert (booted [] 0 = Ok s0) as E0 by (unfold booted, new_CallData, Proceed; cbn; by rewrite lookup_insert_eq).
  set (s1 := Server (<[0 := Call PROCESS name []]> (objects s0)) [] [0] [] [] [] [] [name] []).
  assert (Store.exec [] (Arrive 0 name) s0 = Some (Ok s1)) as E1.
  { cbn. unfold request_arrives. cbn. by rewrite lookup_insert_eq. }
  assert (accepted s1 = [name]) as Ea by done.
  assert (shop_reachable hash vendor_ips s1) as Hs.
  { eapply reachable_step; [apply reachable_init; by exists 0|]. by exists (Arrive 0 name). }
  destruct (shop_serves hash vendor_ips s1 Hs) as (s' & Hs' & _ & Hp). rewrite Ea in Hp.
  symmetry in Hp. apply Permutation_singleton_r in Hp.
  destruct (answered s') as [|[name' reply] [|]] eqn:Ean; try done. injection Hp as ->.
  exists reply, s'. split.
  - destruct Hs as (s2 & H2 & Hs2). exists s2. split; [done|]. by etrans.
  - rewrite Ean. left.
Qed.

#[export] Instance shop_answers : Answers shop_service.
Proof. intros name. destruct (shop_replies_all name) as [reply H]. by exists (Some reply). Qed.

Lemma given_bids name answer :
  gives name answer →
  length (bids_of answer) ≤ length vendor_ips ∧
  ∀ b, b ∈ bids_of answer → genuine hash vendor_ips name (price_ b, vendor_id_ b).
Proof.
  destruct answer as [reply|]; cbn; [|intros _; split; [lia|by intros b ?%elem_of_nil]].
  intros (s & Hs & Hin). destruct (shop_replies hash vendor_ips s Hs name reply Hin) as [Hl Hg].
  split; [by rewrite length_fmap|]. intros b (p & -> & Hp)%list_elem_of_fmap. by apply Hg.
Qed.

End tested.

(** ** Runs *)

(** Events of the store that bring no answer, in order. *)
Definition no_answer {Q P V : Type} (e : event (Q:=Q) (P:=P) (V:=V)) : Prop :=
  match e with Answer _ _ => False | _ => True end.

Lemma play_shop hash ips es s :
  Forall no_answer es → shop_reachable hash ips s → shop_reachable hash ips (Store.play [] s es).
Proof.
  intros Hes. revert s. induction Hes as [|e es He _ IH]; intros s Hs; [done|]. apply IH. cbn.
  destruct (Store.exec [] e s) as [[s'|]|] eqn:E; [|done..]. eapply reachable_step; [exact Hs|].
  exists e. split; [by destruct e|done].
Qed.

(** Events of a test whose answers suit every product. *)
Definition play_test (specs : list cstr) (n : nat) (s : test) (es : list test_event) : test :=
  foldl (λ s e, match test_exec specs n e s with Some (Ok s') => s' | _ => s end) s es.

Lemma play_test_reachable `{service : Service} specs n es s :
  0 < n → (∀ k a name, Thread_event k a ∈ es → name ∈ specs → gives name a) →
  test_reachable specs n s → test_reachable specs n (play_test specs n s es).
Proof.
  intros Hn. revert s. induction es as [|e es IH]; intros s Hes Hs; [done|].
  apply IH; [intros k a name Hin; apply (Hes k); by right|].
  destruct (test_exec specs n e s) as [[s'|]|] eqn:E; [|done..]. eapply reachable_step; [exact Hs|].
  exists e. split; [|done]. destruct e as [|k a]; [done|]. intros i b Hk.
  apply (test_reachable_good specs n) in Hs; [|done]. pose proof (tg_begun _ _ _ Hs). pose proof (tg_tasks _ _ _ Hs _ _ _ Hk).
  destruct (lookup_lt_is_Some_2 specs i) as [name Hname]; [lia|]. exists name. split; [done|].
  apply (Hes k); [left|by eapply list_elem_of_lookup_2].
Qed.

(** ** Witnesses *)

Definition demo_ips : list cstr := [str "a:1"; str "b:2"].
Definition demo_length (s : cstr) : Z := Z.of_nat (length s).

Definition demo_bids : list (Z * cstr) := [(11%Z, str "Vendor_a:1"); (11%Z, str "Vendor_b:2")].

Lemma demo_collects : collects demo_length demo_ips (str "p") demo_bids.
Proof.
  destruct (bids_collected_in_turn empty_bid (vendor_answer demo_length (λ _, true) demo_ips (str "p")) 2 [0; 1])
    as (q & _ & Hs & Hr & Hb & _); [done|].
  exists (λ _, true), q. split; [by exists (getProductBid empty_bid 2)|]. split; [exact Hr|]. by rewrite Hb.
Qed.

(** A request for ["p"] is answered, another one has arrived. *)
Definition demo_shop : server (Q:=cstr) (P:=Z) (V:=cstr) :=
  match booted [] 0 with
  | Ok s => Store.play [] (Store.play [] s [Arrive 0 (str "p"); Handle 0; Start_job; Spawn 0 1; Arrive 1 (str "q")])
      [Answer 0 demo_bids]
  | Err _ => Server ∅ [] [] [] [] [] [] [] []
  end.

Lemma demo_shop_reachable : shop_reachable demo_length demo_ips demo_shop.
Proof.
  unfold demo_shop. destruct (booted [] 0) as [s0|] eqn:E0; [|discriminate E0].
  assert (shop_reachable demo_length demo_ips s0) as H0 by (apply reachable_init; by exists 0).
  eapply (play_shop _ _ [Arrive 0 (str "p"); Handle 0; Start_job; Spawn 0 1; Arrive 1 (str "q")]) in H0;
    [|repeat constructor].
  set (s1 := Store.play [] s0 _) in *. cbn [Store.play foldl].
  destruct (Store.exec [] (Answer 0 demo_bids) s1) as [[s2|]|] eqn:E; [|done..].
  eapply reachable_step; [exact H0|]. exists (Answer 0 demo_bids). split; [|exact E].
  injection E0 as <-. eexists. split; [vm_compute; reflexivity|apply demo_collects].
Qed.


Definition demo_tests_fs : fs := FS {[str "product_query_list.txt" := str "p" ++ [nl] ++ str "p"]} ∅.

(** Two threads; the second query is answered first, the first one fails. *)
Definition demo_test_events : list test_event :=
  [Thread_event 0 None; Thread_event 1 None; Main_event; Main_event; Main_event; Main_event; Main_event;
   Thread_event 1 (Some [Product 11%Z (str "Vendor_a:1"); Product 11%Z (str "Vendor_b:2")]); Thread_event 0 None;
   Main_event; Main_event; Main_event].

Definition demo_test : test :=
  play_test [str "p"; str "p"] 2 (run_test_start [str "p"; str "p"] 2) demo_test_events.

Lemma demo_test_reachable :
  test_reachable (service:=shop_service demo_length demo_ips) [str "p"; str "p"] 2 demo_test.
Proof.
  apply play_test_reachable; [lia| |by apply reachable_init].
  intros k a name Hin Hname. assert (name = str "p") as -> by (unfold str in *; set_solver).
  destruct a as [reply|]; [|done]. exists demo_shop. split; [apply demo_shop_reachable|].
  unfold demo_test_events in Hin. rewrite !elem_of_cons in Hin.
  destruct_or! Hin; try done; [|by apply elem_of_nil in Hin]. injection Hin as -> ->.
  vm_compute. left.
Qed.

